(* ===== verification/_CoqProject ===== *)
-Q . S2P
Prelude.v
Types.v
DiskManager.v
LRUReplacer.v
PageCache.v
BufferPool.v
BufferPoolSpec.v
BufferPoolTheorems.v
HeapFile.v
HeapFileSpec.v
HeapFileTheorems.v
BPlusTree.v
BPlusTreeNode.v
BPlusTreeSpec.v
BPlusTreeTheorems.v
Lexer.v
LexerTheorems.v
Ast.v
Parser.v
ParserSafety.v
ParserPrint.v
ParserTheorems.v
Catalog.v
Executor.v
ExecutorSpec.v
ExecutorSort.v
ExecutorJoin.v
ExecutorAggregate.v
Planner.v
PlannerSpec.v
QueryExec.v
QuerySpec.v
Database.v
RowSpec.v
DatabaseSpec.v
DatabaseTheorems.v
ExecutorTheorems.v
ThreadPool.v
LockFreeHashTable.v
ParallelFor.v
PoolLoop.v
ParallelSeqScan.v
ParallelHashJoin.v
ParallelSort.v
ParallelTheorems.v
Repl.v
Restart.v
Bench.v
