(* ===== verification/Prelude.v ===== *)
(** * MyDB: a verified model of a small relational database

    MyDB (C++20, [src/src/]) reads SQL text at a prompt, parses it, plans it into
    a tree of iterator operators and runs the tree over heap files that live in a
    4 KB-page file behind a buffer pool.  A B+ tree index, a thread pool, a
    lock-free hash table and parallel operators complete it; they are used by the
    benchmark and the tests and are not reached from SQL.  This development
    translates every implementation file of [src/src/], and the benchmark, into
    executable definitions and proves what makes them correct.

    ** How the parts call each other

    - [main.cpp] (the prompt) calls [Database::Execute] ([database.cpp]), which
      calls [Lexer] and [Parser] ([parser/]), then [Catalog] ([catalog/]),
      [Planner] ([planner/]) and the operators ([executor/]).
    - A table is a [HeapFile]; heap files and [BPlusTree] see pages only through
      [BufferPoolManager], which uses [LRUReplacer] and [DiskManager]
      ([storage/]).
    - [ParallelSeqScan], [ParallelHashJoin] and [ParallelSort] run their tasks on
      [ThreadPool]; the join builds a [LockFreeHashTable] ([concurrency/]).

    ** Which file models what

    - [Prelude]: outcomes, the state-and-error monad [M] with its notation, the
      tactics that step through it, machine integers, lemmas on lists and bytes.
    - [Types] ([common/types.h], [config.h]): record ids, schemas with column
      offsets and name resolution, values, tuples as bytes.
    - [DiskManager] ([storage/disk_manager]): the file as a list of bytes and a
      flag for a failing device; refines an array of pages.
    - [LRUReplacer] ([storage/lru_replacer]): the list with node addresses, the
      map of iterators and the evictable set; refines a recency list.
    - [PageCache]: the interface heap files, index and executors are proved
      against: the class of operations [PageCache] and its laws [PageCacheSpec].
    - [BufferPool], [BufferPoolSpec], [BufferPoolTheorems]
      ([storage/buffer_pool], [page.h]): frames, page table, free list and
      replacer over the disk manager; the invariant of the pool, and the instance
      of [PageCacheSpec] that discharges the interface.
    - [HeapFile], [HeapFileSpec], [HeapFileTheorems] ([storage/heap_file]): the
      chain of slotted pages at byte level.
    - [BPlusTree], [BPlusTreeNode], [BPlusTreeSpec], [BPlusTreeTheorems]
      ([storage/bplus_tree]): nodes at byte level, searches, inserts with splits,
      range scans; the node lemmas, then the tree invariant.
    - [Lexer], [LexerTheorems], [Ast], [Parser], [ParserSafety], [ParserPrint],
      [ParserTheorems] ([parser/]): tokens, syntax tree, the recursive descent
      parser, and a printer used to state the round trip.
    - [Catalog] ([catalog/]): the map of tables.
    - [Executor] ([executor/]): the sequential operators as instances of the class
      [Operator]; [ExecutorSpec] the streams an operator produces and the laws of
      the class; [ExecutorSort], [ExecutorJoin], [ExecutorAggregate] the blocking
      operators; [ExecutorTheorems] their main theorems.
    - [Planner], [PlannerSpec], [QueryExec], [QuerySpec] ([planner/]): plan trees
      with virtual dispatch, [Plan] and [Explain]; what a query does on lists of
      rows, failures included, and the relational meaning of its result.
    - [Database], [RowSpec], [DatabaseSpec], [DatabaseTheorems]
      ([database.cpp]): the statements over catalog and storage, and the abstract
      database of named tables of rows they refine.
    - [ThreadPool] ([executor/thread_pool]): owner and workers as a transition
      system.
    - [LockFreeHashTable] ([concurrency/lockfree_hashtable]): concurrent inserts as
      interleaved atomic steps on a heap of nodes; lookup and clear.
    - [ParallelFor], [ParallelSeqScan], [ParallelHashJoin], [ParallelSort],
      [ParallelTheorems] (the [parallel_] files of [executor/]): the loop in which workers claim
      items from an atomic counter, and the three operators.
    - [PoolLoop]: thread pool and shared loops run together, as one transition
      system that both simulate.
    - [Bench] ([src/bench/query_bench.cpp]): the fixture and the benchmarks.
    - [Restart]: the destructors, and the constructors on the file they leave.
    - [Repl] ([main.cpp]): the printed tables and the prompt loop on a list of
      input lines.

    C++ names are kept.  A class is a record; a method is a function in [M] on
    that record (or on the record and the page cache); a field [x_] keeps its
    name where no other record has it and gets a two-letter prefix otherwise.  A
    loop of a method is a separate [Fixpoint] named after the loop.

    ** What the theorems show

    - Storage: the disk manager is an array of pages; the replacer evicts the
      least recently used evictable frame; any permitted sequence of pool calls
      reads back the current value of every page, whatever is evicted; a flush
      puts all of it on disk; heap files give back inserted rows in order; the
      index behaves as a finite map with ordered ranges and every insertion keeps
      its invariant, of which half-full nodes are a part; with the default node
      sizes up to 86869 keys, since a full internal node does not fit its page.
    - Language: lexer and parser return or throw on every text, and give back
      every printed token list and statement.
    - Queries: a column name is resolved to the column it denotes or to one of two
      errors; joins, sorting and aggregation against reference definitions; every
      row of a plan has the layout of the plan's schema; a session of SQL texts
      refines the abstract database, errors included: a query that fails in the
      planner, in the [Init] of an operator or at some row throws what the
      reference says, and the tables stay as they were; the prompt executes the
      statements of its input, goes on after exceptions and prints aligned tables; the rows of a closed
      database are found again in its file.
    - Concurrency: [WaitAll] returns only when every submitted task has run, the
      pool neither deadlocks nor loses a wake-up (its [int] count of tasks
      overflows with [2^31] of them in flight, before which it completes),
      concurrent inserts lose nothing and finish, each parallel operator gives the rows of its sequential
      counterpart under every fair schedule, and every execution of such an
      operator's loops on the pool is one of these schedules.  The benchmark, which
      puts parallel sort on parallel scan on heap file, counts the same rows in
      every variant.
    - Limits: theorems of kind bounds and error state where the code leaves its
      contract (an over-full index node, oversized rows, files over 2 GiB, a leaked
      pin, empty and VARCHAR join keys, chunks past the end of the input).

    ** Modelling choices

    - Integers are [Z] with the wrap of their width written out where the code can
      wrap; sizes the code keeps in [size_t] and that are lengths of containers
      are [nat] or unbounded [Z].  Bytes are [ascii], little-endian.
    - A call ends in a value or in a [fault]: an exception with its text, a failed
      assertion, undefined behaviour, [std::terminate], or exhausted fuel.  State
      changes made before a fault are kept.  The run of an operator is the fault
      of its [Init] or a [stream]: rows, and the fault that ends them if one does.
    - Fuel bounds loops whose recursion is not structural.  Theorems give an amount
      from which the result is reached: page chains need the number of pages, the
      index its depth and number of leaves, plans a bound that exists for every
      stream, the parser the number of tokens (its own fuel, so that [parse_sql]
      takes none), chains of the hash table the number of nodes.  Plans are
      dispatched to a depth of four plus the number of joins, which every plan of
      the planner respects ([plan_depth]).
    - [std::sort], [std::make_heap] and its companions, and the allocator are
      parameters (type classes) with their documented contracts; instances show
      that the contracts can be met.  The iteration order of hash maps is a
      parameter where it matters.
    - Threads are interleavings of atomic steps.  A critical section and a call
      that holds the pool's latch are one step, an atomic operation is one step, a
      weak compare-exchange may fail spuriously and a condition variable may wake
      spuriously.  Schedules are arbitrary; termination of the parallel operators
      assumes that every thread is picked again and again ([fair]) and that
      spurious failures end ([calm]).  The steps of the pool and of concurrent
      inserts are bounded in every interleaving, by a bound that grows with the
      number of spurious wake-ups and failures.

    ** Not modelled

    - Weak memory: interleavings are sequentially consistent, so the choice of
      [memory_order] arguments is not verified; nor is [alignas(64)].
    - The tests and the build files; [common/types 2.h] and
      [storage/LRUReplacer.h], [.cpp], older copies that nothing includes.
    - Exhaustion of memory, and output errors of the terminal.
    - Write-ahead log and optimizer of the README: there is no such code.  The
      catalog is not persistent, so a reopened database has no tables by name; an
      index has no constructor that opens existing pages. *)
From stdpp Require Import base gmap list list_numbers strings pretty.
From Stdlib Require Import ZArith Lia Ascii.

Declare Scope mydb_scope.
Delimit Scope mydb_scope with mydb.
Open Scope Z_scope.

(** ** Outcomes

    What a C++ call can end in: a value, a thrown [std::runtime_error] (or
    another exception, carried with its text), a failed [assert] (the default
    build type is Debug, so assertions are compiled in), undefined behaviour
    (out-of-bounds access, null dereference, signed overflow, division by
    zero), [std::terminate] (an exception leaves a thread), or running out of the
    fuel a loop was given. *)
Inductive fault : Type :=
  | Throw (msg : string)
  | AssertFail
  | Undefined
  | Terminate
  | OutOfFuel.

Inductive outcome (A : Type) : Type :=
  | Ok (a : A)
  | Fault (f : fault).
Arguments Ok {A} a.
Arguments Fault {A} f.

#[export] Instance fault_eq_dec : EqDecision fault.
Proof. solve_decision. Defined.

Definition obind {A B} (m : outcome A) (k : A → outcome B) : outcome B :=
  match m with
  | Ok a => k a
  | Fault f => Fault f
  end.

(** ** State and exceptions

    A method that mutates an object of type [S]: the state survives a throw,
    as a C++ object does. *)
Definition M (S A : Type) : Type := S → S * outcome A.

Definition retM {S A} (a : A) : M S A := λ s, (s, Ok a).
Definition faultM {S A} (f : fault) : M S A := λ s, (s, Fault f).
Definition throwM {S A} (msg : string) : M S A := faultM (Throw msg).
Definition bindM {S A B} (m : M S A) (k : A → M S B) : M S B := λ s,
  match m s with
  | (s', Ok a) => k a s'
  | (s', Fault f) => (s', Fault f)
  end.
Definition getM {S} : M S S := λ s, (s, Ok s).
Definition putM {S} (s' : S) : M S unit := λ _, (s', Ok tt).
Definition liftM {S A} (o : outcome A) : M S A := λ s, (s, o).

(** [assert(b)]. *)
Definition assertM {S} (b : bool) : M S unit :=
  if b then retM tt else faultM AssertFail.

(** An access that is undefined when the option is empty. *)
Definition defM {S A} (o : option A) : M S A :=
  match o with
  | Some a => retM a
  | None => faultM Undefined
  end.
Definition odef {A} (o : option A) : outcome A :=
  match o with
  | Some a => Ok a
  | None => Fault Undefined
  end.

(** [try m catch (...) handler]: only exceptions are caught. *)
Definition catchM {S A} (m : M S A) (handler : M S A) : M S A := λ s,
  match m s with
  | (s', Fault (Throw _)) => handler s'
  | r => r
  end.

(** Running a method of a member object. *)
Definition zoomM {S T A} (get : S → T) (set : T → S → S) (m : M T A) : M S A :=
  λ s, match m (get s) with (t, o) => (set t s, o) end.

Notation "x <- m ;; k" := (bindM m (λ x, k%mydb))
  (at level 100, m at next level, right associativity) : mydb_scope.
Notation "m ;; k" := (bindM m (λ _, k%mydb))
  (at level 100, right associativity) : mydb_scope.
Notation "x <-! m ;; k" := (obind m (λ x, k%mydb))
  (at level 100, m at next level, right associativity) : mydb_scope.
Open Scope mydb_scope.

Section monad_lemmas.
Context {S : Type}.

Lemma bindM_Ok {A B} (m : M S A) (k : A → M S B) s s' a :
  m s = (s', Ok a) → bindM m k s = k a s'.
Proof. intros H. unfold bindM. by rewrite H. Qed.

Lemma bindM_Fault {A B} (m : M S A) (k : A → M S B) s s' f :
  m s = (s', Fault f) → bindM m k s = (s', Fault f).
Proof. intros H. unfold bindM. by rewrite H. Qed.

Lemma bindM_inv {A B} (m : M S A) (k : A → M S B) s s' b :
  bindM m k s = (s', Ok b) → ∃ s1 a, m s = (s1, Ok a) ∧ k a s1 = (s', Ok b).
Proof. unfold bindM. destruct (m s) as [s1 [a|f]]; naive_solver. Qed.

Lemma bindM_ret {A B} (a : A) (k : A → M S B) s : bindM (retM a) k s = k a s.
Proof. done. Qed.

Lemma bindM_get {B} (k : S → M S B) s : bindM getM k s = k s s.
Proof. done. Qed.

Lemma bindM_put {B} s1 (k : unit → M S B) s : bindM (putM s1) k s = k tt s1.
Proof. done. Qed.

Lemma bindM_def {A B} (o : option A) a (k : A → M S B) s :
  o = Some a → bindM (defM o) k s = k a s.
Proof. by intros ->. Qed.

Lemma bindM_lift {A B} (o : outcome A) a (k : A → M S B) s :
  o = Ok a → bindM (liftM o) k s = k a s.
Proof. by intros ->. Qed.

Lemma bindM_assert {B} (b : bool) (k : unit → M S B) s :
  b = true → bindM (assertM b) k s = k tt s.
Proof. by intros ->. Qed.

Lemma zoomM_Ok {T A} (get : S → T) set (m : M T A) s t a :
  m (get s) = (t, Ok a) → zoomM get set m s = (set t s, Ok a).
Proof. intros H. unfold zoomM. by rewrite H. Qed.
End monad_lemmas.

(** The same successful step in a hypothesis and in the goal. *)
Ltac step_bind H r :=
  let s := fresh "s" in let Hs := fresh "Hs" in
  apply bindM_inv in H as (s & r & Hs & H); rewrite (bindM_Ok _ _ _ _ _ Hs); clear Hs.

Lemma option_bind_Some {A B} (a : A) (f : A → option B) : (Some a ≫= f) = f a.
Proof. done. Qed.

Lemma obind_Ok_inv {A B} (m : outcome A) (k : A → outcome B) b :
  obind m k = Ok b → ∃ a, m = Ok a ∧ k a = Ok b.
Proof. destruct m; naive_solver. Qed.

Lemma odef_Some {A} (o : option A) a : o = Some a → odef o = Ok a.
Proof. by intros ->. Qed.

(** One step of a method: the first action of a [bindM] is rewritten with an
    equation in the context or with the unit laws. *)
Ltac mstep :=
  first
    [ rewrite bindM_ret | rewrite bindM_get | rewrite bindM_put
    | erewrite bindM_def by eassumption
    | erewrite bindM_assert by eassumption
    | erewrite bindM_lift by eassumption
    | erewrite bindM_Ok by eassumption
    | erewrite bindM_Fault by eassumption ]; cbv beta.
Ltac msteps := repeat mstep.

(** Case analysis on the innermost scrutinee of the goal. *)
Ltac case_scrut :=
  match goal with
  | |- context [match ?x with _ => _ end] =>
      lazymatch x with
      | context [match _ with _ => _ end] => fail
      | _ => destruct x eqn:?
      end
  end.

(** ** Machine integers

    [int32_t], [uint32_t], [uint16_t], [size_t] values are integers kept in
    their range; a conversion wraps, a signed operation that leaves its range
    is undefined. *)
Definition wrap_u16 (z : Z) : Z := z `mod` 2 ^ 16.
Definition wrap_u32 (z : Z) : Z := z `mod` 2 ^ 32.
Definition wrap_u64 (z : Z) : Z := z `mod` 2 ^ 64.
Definition wrap_s32 (z : Z) : Z := (z + 2 ^ 31) `mod` 2 ^ 32 - 2 ^ 31.

Definition INT32_MAX : Z := 2 ^ 31 - 1.
Definition INT32_MIN : Z := - 2 ^ 31.

Definition in_s32 (z : Z) : bool := (INT32_MIN <=? z) && (z <=? INT32_MAX).
Definition in_u32 (z : Z) : bool := (0 <=? z) && (z <? 2 ^ 32).
Definition in_u16 (z : Z) : bool := (0 <=? z) && (z <? 2 ^ 16).

(** Signed 32-bit addition: undefined on overflow. *)
Definition add_s32 (a b : Z) : outcome Z :=
  if in_s32 (a + b) then Ok (a + b) else Fault Undefined.

Lemma in_s32_spec z : in_s32 z = true ↔ - 2 ^ 31 ≤ z < 2 ^ 31.
Proof. unfold in_s32, INT32_MIN, INT32_MAX. rewrite andb_true_iff, !Z.leb_le. lia. Qed.
Lemma add_s32_ok a b : - 2 ^ 31 ≤ a + b < 2 ^ 31 → add_s32 a b = Ok (a + b).
Proof. intros H. unfold add_s32. by rewrite (proj2 (in_s32_spec _)). Qed.
Lemma in_u32_spec z : in_u32 z = true ↔ 0 ≤ z < 2 ^ 32.
Proof. unfold in_u32. rewrite andb_true_iff, Z.leb_le, Z.ltb_lt. lia. Qed.
Lemma in_u16_spec z : in_u16 z = true ↔ 0 ≤ z < 2 ^ 16.
Proof. unfold in_u16. rewrite andb_true_iff, Z.leb_le, Z.ltb_lt. lia. Qed.

Lemma wrap_u32_id z : 0 ≤ z < 2 ^ 32 → wrap_u32 z = z.
Proof. apply Z.mod_small. Qed.
Lemma wrap_u64_id z : 0 ≤ z < 2 ^ 64 → wrap_u64 z = z.
Proof. apply Z.mod_small. Qed.
Lemma wrap_u16_id z : 0 ≤ z < 2 ^ 16 → wrap_u16 z = z.
Proof. apply Z.mod_small. Qed.
Lemma wrap_s32_id z : - 2 ^ 31 ≤ z < 2 ^ 31 → wrap_s32 z = z.
Proof. intros H. unfold wrap_s32. rewrite Z.mod_small; lia. Qed.
Lemma wrap_s32_range z : - 2 ^ 31 ≤ wrap_s32 z < 2 ^ 31.
Proof. unfold wrap_s32. pose proof (Z.mod_pos_bound (z + 2 ^ 31) (2 ^ 32)). lia. Qed.
Lemma wrap_u32_range z : 0 ≤ wrap_u32 z < 2 ^ 32.
Proof. apply Z.mod_pos_bound. lia. Qed.
Lemma wrap_s32_u32 z : wrap_s32 (wrap_u32 z) = wrap_s32 z.
Proof. unfold wrap_s32, wrap_u32. rewrite Z.add_mod_idemp_l; lia. Qed.

(** ** Bytes

    A C++ [char] buffer is a list of [ascii]; integers are stored little-endian
    (the x86-64 / AArch64 targets of the build). *)
Definition char_of_Z (z : Z) : ascii := ascii_of_N (Z.to_N (z `mod` 256)).
Definition Z_of_char (c : ascii) : Z := Z.of_N (N_of_ascii c).
Definition NUL : ascii := Ascii.zero.

Fixpoint le_bytes (n : nat) (z : Z) : list ascii :=
  match n with
  | O => []
  | S n => char_of_Z z :: le_bytes n (z `div` 256)
  end.
Fixpoint le_Z (bs : list ascii) : Z :=
  match bs with
  | [] => 0
  | b :: bs => Z_of_char b + 256 * le_Z bs
  end.

Lemma Z_of_char_range c : 0 ≤ Z_of_char c < 256.
Proof. unfold Z_of_char. pose proof (N_ascii_bounded c). lia. Qed.
Lemma Z_of_char_of_Z z : Z_of_char (char_of_Z z) = z `mod` 256.
Proof.
  unfold Z_of_char, char_of_Z. pose proof (Z.mod_pos_bound z 256).
  rewrite N_ascii_embedding; lia.
Qed.
Lemma char_of_Z_of_char c : char_of_Z (Z_of_char c) = c.
Proof.
  unfold char_of_Z. rewrite Z.mod_small by apply Z_of_char_range.
  unfold Z_of_char. rewrite N2Z.id. apply ascii_N_embedding.
Qed.

Lemma length_le_bytes n z : length (le_bytes n z) = n.
Proof. revert z. induction n; intros; simpl; auto. Qed.

Lemma le_Z_bytes n z : le_Z (le_bytes n z) = z `mod` 2 ^ (8 * Z.of_nat n).
Proof.
  revert z. induction n as [|n IH]; intros z; simpl le_bytes; simpl le_Z.
  { by rewrite Z.mod_1_r. }
  rewrite Z_of_char_of_Z, IH.
  replace (8 * Z.of_nat (S n)) with (8 + 8 * Z.of_nat n) by lia.
  rewrite Z.pow_add_r by lia. change (2 ^ 8) with 256.
  rewrite (Z.rem_mul_r z 256) by lia. lia.
Qed.

Lemma le_Z_range bs : 0 ≤ le_Z bs < 2 ^ (8 * Z.of_nat (length bs)).
Proof.
  induction bs as [|b bs IH]; [simpl; lia|].
  replace (8 * Z.of_nat (length (b :: bs))) with (8 + 8 * Z.of_nat (length bs))
    by (simpl length; lia).
  rewrite Z.pow_add_r by lia. change (2 ^ 8) with 256. simpl le_Z.
  pose proof (Z_of_char_range b). lia.
Qed.

Lemma le_bytes_le_Z bs : le_bytes (length bs) (le_Z bs) = bs.
Proof.
  induction bs as [|b bs IH]; [done|]. simpl. pose proof (Z_of_char_range b).
  f_equal.
  - rewrite <- (char_of_Z_of_char b) at 2. unfold char_of_Z. do 2 f_equal.
    by rewrite Z.mul_comm, Z.mod_add by lia.
  - rewrite Z.mul_comm, Z.div_add, Z.div_small, Z.add_0_l by lia. exact IH.
Qed.

(** ** Memory blocks

    [load]/[store] on a block of bytes; [None] is an access outside it. *)
Definition load (off len : Z) (m : list ascii) : option (list ascii) :=
  if (0 <=? off) && (0 <=? len) && (off + len <=? Z.of_nat (length m))
  then Some (take (Z.to_nat len) (drop (Z.to_nat off) m))
  else None.

Definition store (off : Z) (bs : list ascii) (m : list ascii) : option (list ascii) :=
  if (0 <=? off) && (off + Z.of_nat (length bs) <=? Z.of_nat (length m))
  then Some (take (Z.to_nat off) m ++ bs ++ drop (Z.to_nat off + length bs) m)
  else None.

Definition load_u32 (off : Z) (m : list ascii) : option Z := le_Z <$> load off 4 m.
Definition load_s32 (off : Z) (m : list ascii) : option Z :=
  (wrap_s32 ∘ le_Z) <$> load off 4 m.
Definition store_32 (off v : Z) (m : list ascii) : option (list ascii) :=
  store off (le_bytes 4 v) m.

(** [memset(p, c, n)]. *)
Definition memset (n : Z) (c : ascii) : list ascii := replicate (Z.to_nat n) c.

Section memory.
Implicit Types (m bs : list ascii) (off len : Z).

Lemma load_Some off len m :
  0 ≤ off → 0 ≤ len → off + len ≤ Z.of_nat (length m) →
  load off len m = Some (take (Z.to_nat len) (drop (Z.to_nat off) m)).
Proof.
  intros ???. unfold load.
  by rewrite (proj2 (Z.leb_le _ _)), (proj2 (Z.leb_le 0 len)), (proj2 (Z.leb_le (off+len) _)).
Qed.

Lemma load_is_Some off len m bs :
  load off len m = Some bs →
  0 ≤ off ∧ 0 ≤ len ∧ off + len ≤ Z.of_nat (length m) ∧ length bs = Z.to_nat len.
Proof.
  unfold load. destruct (_ && _ && _) eqn:E; [|done]. intros [= <-].
  rewrite !andb_true_iff, !Z.leb_le in E. rewrite length_take, length_drop. lia.
Qed.

Lemma load_None off len m :
  Z.of_nat (length m) < off + len → load off len m = None.
Proof.
  intros H. unfold load. rewrite (proj2 (Z.leb_gt (off + len) _)) by lia.
  by rewrite andb_false_r.
Qed.

Lemma store_Some off bs m :
  0 ≤ off → off + Z.of_nat (length bs) ≤ Z.of_nat (length m) →
  store off bs m = Some (take (Z.to_nat off) m ++ bs ++ drop (Z.to_nat off + length bs) m).
Proof.
  intros ??. unfold store.
  by rewrite (proj2 (Z.leb_le _ _)), (proj2 (Z.leb_le (off + _) _)).
Qed.

Lemma store_is_Some off bs m m' :
  store off bs m = Some m' →
  0 ≤ off ∧ off + Z.of_nat (length bs) ≤ Z.of_nat (length m) ∧
  m' = take (Z.to_nat off) m ++ bs ++ drop (Z.to_nat off + length bs) m.
Proof.
  unfold store. destruct (_ && _) eqn:E; [|done]. intros [= <-].
  rewrite andb_true_iff, !Z.leb_le in E. split_and!; [lia..|done].
Qed.

Lemma store_None off bs m :
  Z.of_nat (length m) < off + Z.of_nat (length bs) → store off bs m = None.
Proof.
  intros H. unfold store. rewrite (proj2 (Z.leb_gt (off + _) _)) by lia.
  by rewrite andb_false_r.
Qed.

Lemma store_exists off bs m :
  0 ≤ off → off + Z.of_nat (length bs) ≤ Z.of_nat (length m) →
  ∃ m', store off bs m = Some m'.
Proof. intros. eexists. by apply store_Some. Qed.

Lemma store_length off bs m m' : store off bs m = Some m' → length m' = length m.
Proof.
  intros (? & ? & ->)%store_is_Some.
  rewrite !length_app, length_take, length_drop. lia.
Qed.

Lemma load_store_eq off bs m m' :
  store off bs m = Some m' → load off (Z.of_nat (length bs)) m' = Some bs.
Proof.
  intros H. pose proof (store_length _ _ _ _ H).
  apply store_is_Some in H as (? & ? & ->).
  rewrite load_Some by (rewrite ?length_app, ?length_take, ?length_drop in *; lia).
  rewrite drop_app_length' by (rewrite length_take; lia).
  by rewrite take_app_length' by lia.
Qed.

Lemma load_store_before off len off' bs m m' :
  store off' bs m = Some m' → off + len ≤ off' → load off len m' = load off len m.
Proof.
  intros H Hd. pose proof (store_length _ _ _ _ H) as Hl.
  apply store_is_Some in H as (? & ? & ->). unfold load. rewrite Hl.
  destruct (_ && _ && _) eqn:E; [|done]. rewrite !andb_true_iff, !Z.leb_le in E.
  rewrite drop_app_le by (rewrite length_take; lia).
  rewrite take_app_le by (rewrite length_drop, length_take; lia).
  rewrite <- (take_drop (Z.to_nat off') m) at 2.
  rewrite drop_app_le by (rewrite length_take; lia).
  rewrite take_app_le by (rewrite length_drop, length_take; lia). done.
Qed.

Lemma load_store_after off len off' bs m m' :
  store off' bs m = Some m' → off' + Z.of_nat (length bs) ≤ off →
  load off len m' = load off len m.
Proof.
  intros H Hd. pose proof (store_length _ _ _ _ H) as Hl.
  apply store_is_Some in H as (? & ? & ->). unfold load. rewrite Hl.
  destruct (_ && _ && _) eqn:E; [|done]. rewrite !andb_true_iff, !Z.leb_le in E.
  rewrite app_assoc, drop_app_ge by (rewrite length_app, length_take; lia).
  rewrite drop_drop. do 3 f_equal. rewrite length_app, length_take. lia.
Qed.

(** A load that does not meet the stored range is unchanged. *)
Lemma load_store_ne off len off' bs m m' :
  store off' bs m = Some m' →
  off + len ≤ off' ∨ off' + Z.of_nat (length bs) ≤ off →
  load off len m' = load off len m.
Proof. intros H [?|?]; eauto using load_store_before, load_store_after. Qed.

Lemma load_u32_store off v m m' :
  store_32 off v m = Some m' → load_u32 off m' = Some (wrap_u32 v).
Proof.
  intros H%load_store_eq. unfold load_u32. rewrite length_le_bytes in H.
  change (Z.of_nat 4) with 4 in H. rewrite H.
  transitivity (Some (le_Z (le_bytes 4 v))); [done|]. by rewrite le_Z_bytes.
Qed.

Lemma load_s32_store off v m m' :
  store_32 off v m = Some m' → load_s32 off m' = Some (wrap_s32 v).
Proof.
  intros H%load_store_eq. unfold load_s32. rewrite length_le_bytes in H.
  change (Z.of_nat 4) with 4 in H. rewrite H.
  transitivity (Some (wrap_s32 (le_Z (le_bytes 4 v)))); [done|]. rewrite le_Z_bytes. change (8 * Z.of_nat 4) with 32. f_equal. apply wrap_s32_u32.
Qed.

Lemma store_32_exists off v m :
  0 ≤ off → off + 4 ≤ Z.of_nat (length m) → ∃ m', store_32 off v m = Some m'.
Proof. intros. apply store_exists; rewrite ?length_le_bytes; lia. Qed.

Lemma store_32_length off v m m' : store_32 off v m = Some m' → length m' = length m.
Proof. apply store_length. Qed.

Lemma load_store_32_ne off len off' v m m' :
  store_32 off' v m = Some m' → off + len ≤ off' ∨ off' + 4 ≤ off →
  load off len m' = load off len m.
Proof.
  intros H ?. eapply load_store_ne; [exact H|]. rewrite length_le_bytes. lia.
Qed.
End memory.

(** ** Shared list facts *)
Lemma elem_of_list_to_set_size {A} `{Countable A} (l : list A) :
  NoDup l → size (list_to_set l : gset A) = length l.
Proof.
  induction 1 as [|x l Hx Hl IH]; [done|]. simpl.
  rewrite size_union, size_singleton, IH by set_solver. done.
Qed.

Lemma list_to_set_size_le {A} `{Countable A} (l : list A) :
  (size (list_to_set l : gset A) ≤ length l)%nat.
Proof.
  induction l as [|x l IH]; [done|]. simpl.
  pose proof (size_union_alt ({[x]} : gset A) (list_to_set l)) as Hu.
  rewrite size_singleton in Hu. rewrite Hu.
  pose proof (subseteq_size (list_to_set l ∖ {[x]} : gset A) (list_to_set l)) as Hs.
  specialize (Hs ltac:(set_solver)). lia.
Qed.

(** Replacing an element of a list, seen through a list-valued function. *)
Lemma concat_insert {A B} (g : A → list B) l i x y :
  l !! i = Some x → concat (g <$> <[i := y]> l) ++ g x ≡ₚ concat (g <$> l) ++ g y.
Proof.
  revert i. induction l as [|z l IH]; intros [|i] H; simplify_eq/=.
  - solve_Permutation.
  - rewrite <- !app_assoc. by apply Permutation_app_head, IH.
Qed.

(** The longest prefix accepted by a test, and what follows it. *)
Fixpoint takew {A} (p : A → bool) (s : list A) : list A :=
  match s with
  | [] => []
  | c :: s => if p c then c :: takew p s else []
  end.
Fixpoint dropw {A} (p : A → bool) (s : list A) : list A :=
  match s with
  | [] => []
  | c :: s' => if p c then dropw p s' else s
  end.

Section takew.
Context {A : Type}.
Implicit Types (p : A → bool) (s a b : list A).

Lemma takew_dropw p s : takew p s ++ dropw p s = s.
Proof. induction s as [|c s IH]; simpl; [done|]. destruct (p c); simpl; by rewrite ?IH. Qed.
Lemma takew_all p s : forallb p (takew p s) = true.
Proof. induction s as [|c s IH]; simpl; [done|]. destruct (p c) eqn:E; simpl; by rewrite ?E. Qed.
Lemma length_takew_le p s : (length (takew p s) ≤ length s)%nat.
Proof. rewrite <- (takew_dropw p s) at 2. rewrite length_app. lia. Qed.
Lemma takew_app p a b :
  forallb p a = true → match b with [] => true | c :: _ => negb (p c) end = true →
  takew p (a ++ b) = a.
Proof.
  intros Ha Hb. induction a as [|c a IH]; simpl in *.
  - destruct b as [|c b]; [done|]. simpl. by destruct (p c).
  - apply andb_true_iff in Ha as [-> Ha]. by rewrite IH.
Qed.
Lemma take_takew p s : take (length (takew p s)) s = takew p s.
Proof. rewrite <- (takew_dropw p s) at 2. by rewrite take_app_length. Qed.
Lemma drop_takew p s : drop (length (takew p s)) s = dropw p s.
Proof. rewrite <- (takew_dropw p s) at 2. by rewrite drop_app_length. Qed.
Lemma dropw_head p s c r : dropw p s = c :: r → p c = false.
Proof.
  induction s as [|d s IH]; simpl; [done|]. destruct (p d) eqn:E; [done|].
  by intros [= -> _].
Qed.
End takew.

Create HintDb mydb.
#[export] Hint Resolve store_length store_32_length load_store_eq : mydb.
#[export] Hint Resolve wrap_s32_range wrap_u32_range Z_of_char_range : mydb.

(** ** Sums over lists updated by index *)
Lemma sum_insert {A} (f : A → nat) l i x y :
  l !! i = Some x → (sum_list_with f (<[i := y]> l) + f x = sum_list_with f l + f y)%nat.
Proof.
  revert i. induction l as [|z l IH]; intros [|i] H; simplify_eq/=; [lia|].
  specialize (IH _ H). lia.
Qed.
Lemma sum_lookup {A} (f : A → nat) l i x : l !! i = Some x → (f x ≤ sum_list_with f l)%nat.
Proof. intros H. by apply sum_list_with_in, list_elem_of_lookup_2 with i. Qed.
Lemma sum_zero {A} (f : A → nat) l : sum_list_with f l = 0%nat → Forall (λ x, f x = 0%nat) l.
Proof. induction l as [|x l IH]; simpl; intros; constructor; [lia|]. apply IH. lia. Qed.
Lemma sum_positive {A} (f : A → nat) l :
  (0 < sum_list_with f l)%nat → ∃ i x, l !! i = Some x ∧ (0 < f x)%nat.
Proof.
  induction l as [|x l IH]; simpl; [lia|]. intros H. destruct (f x) eqn:E.
  - destruct IH as (i & y & ? & ?); [lia|]. by exists (S i), y.
  - exists 0%nat, x. split; [done|lia].
Qed.
