(* ===== verification/Types.v ===== *)
(** * Common types: [src/src/common/types.h], [src/src/common/config.h]

    Record ids, column types, schemas, values and tuples.  A [std::string] is a
    [string], a tuple's [std::vector<char>] a list of [ascii]; [size_t] indices
    into vectors are [nat], other integers [Z] at their width. *)
From stdpp Require Import base gmap list strings pretty.
From Stdlib Require Import ZArith Lia Ascii.
From Stdlib Require String.
From S2P Require Import Prelude.

Abbreviation to_chars := String.list_ascii_of_string.
Abbreviation of_chars := String.string_of_list_ascii.

(** ** config.h *)
Definition PAGE_SIZE : Z := 4096.
Definition INVALID_PAGE_ID : Z := -1.

(** ** std::string searches *)
Fixpoint str_find (c : ascii) (s : string) : option nat :=
  match s with
  | EmptyString => None
  | String a s => if decide (a = c) then Some 0%nat else S <$> str_find c s
  end.
Fixpoint str_rfind (c : ascii) (s : string) : option nat :=
  match s with
  | EmptyString => None
  | String a s =>
      match str_rfind c s with
      | Some i => Some (S i)
      | None => if decide (a = c) then Some 0%nat else None
      end
  end.
Fixpoint str_drop (n : nat) (s : string) : string :=
  match n, s with
  | S n, String _ s => str_drop n s
  | _, _ => s
  end.
Definition dot : ascii := "."%char.

(** ** RID *)
Record RID := mkRID { rid_page_id : Z; rid_slot_num : Z }.
#[export] Instance RID_eq_dec : EqDecision RID.
Proof. solve_decision. Defined.
Definition RID_default : RID := mkRID INVALID_PAGE_ID 0.
Definition RID_IsValid (r : RID) : bool := negb (rid_page_id r =? INVALID_PAGE_ID).
Definition RID_eqb (r o : RID) : bool :=
  (rid_page_id r =? rid_page_id o) && (rid_slot_num r =? rid_slot_num o).

(** ** Column types and schemas *)
Inductive TypeId := INT | VARCHAR.
#[export] Instance TypeId_eq_dec : EqDecision TypeId.
Proof. solve_decision. Defined.

Record ColumnType := mkColumnType { type_id : TypeId; max_len : Z }.
#[export] Instance ColumnType_eq_dec : EqDecision ColumnType.
Proof. solve_decision. Defined.
Definition GetFixedSize (t : ColumnType) : Z :=
  match type_id t with INT => 4 | VARCHAR => max_len t end.
Definition ColumnType_Int : ColumnType := mkColumnType INT 0.
Definition ColumnType_Varchar (len : Z) : ColumnType := mkColumnType VARCHAR len.

Record Column := mkColumn { col_name : string; col_type : ColumnType }.
#[export] Instance Column_eq_dec : EqDecision Column.
Proof. solve_decision. Defined.

Record Schema := mkSchema {
  columns_ : list Column;
  offsets_ : list Z;
  tuple_size_ : Z
}.

(** The loop of the constructor: [offsets_.push_back(off); off += size], [off]
    a [uint32_t]. *)
Fixpoint schema_offsets (off : Z) (cols : list Column) : list Z * Z :=
  match cols with
  | [] => ([], off)
  | c :: cols =>
      let r := schema_offsets (wrap_u32 (off + GetFixedSize (col_type c))) cols in
      (off :: r.1, r.2)
  end.
Definition Schema_ctor (cols : list Column) : Schema :=
  let r := schema_offsets 0 cols in mkSchema cols r.1 r.2.

Definition GetColumnCount (s : Schema) : nat := length (columns_ s).
Definition GetColumn (s : Schema) (i : nat) : outcome Column := odef (columns_ s !! i).
Definition GetTupleSize (s : Schema) : Z := tuple_size_ s.
Definition GetColumnOffset (s : Schema) (i : nat) : outcome Z := odef (offsets_ s !! i).

(** First index from [i] on whose column satisfies the test. *)
Fixpoint find_column (f : Column → bool) (i : nat) (cols : list Column) : option nat :=
  match cols with
  | [] => None
  | c :: cols => if f c then Some i else find_column f (S i) cols
  end.

(** [dot != npos && name.substr(dot + 1) == unq] of a column name. *)
Definition unqualified_is (unq : string) (c : Column) : bool :=
  match str_rfind dot (col_name c) with
  | Some d => bool_decide (str_drop (S d) (col_name c) = unq)
  | None => false
  end.

(** The second search: [int found = -1], a second hit throws. *)
Fixpoint find_unqualified (name : string) (i : nat) (found : Z) (cols : list Column)
    : outcome Z :=
  match cols with
  | [] => Ok found
  | c :: cols =>
      if unqualified_is name c then
        if negb (found =? -1) then Fault (Throw ("Ambiguous column: " +:+ name))
        else find_unqualified name (S i) (wrap_s32 (Z.of_nat i)) cols
      else find_unqualified name (S i) found cols
  end.

(** The third search: the part after the last dot as an exact name. *)
Definition find_qualified (name : string) (cols : list Column) : option nat :=
  match str_rfind dot name with
  | Some d => find_column (λ c, bool_decide (col_name c = str_drop (S d) name)) 0 cols
  | None => None
  end.

Definition GetColumnIdx (s : Schema) (name : string) : outcome nat :=
  let last_search :=
    match find_qualified name (columns_ s) with
    | Some i => Ok i
    | None => Fault (Throw ("Column not found: " +:+ name))
    end in
  match find_column (λ c, bool_decide (col_name c = name)) 0 (columns_ s) with
  | Some i => Ok i
  | None =>
      match str_find dot name with
      | None =>
          found <-! find_unqualified name 0 (-1) (columns_ s) ;;
          if negb (found =? -1) then Ok (Z.to_nat (wrap_u64 found)) else last_search
      | Some _ => last_search
      end
  end.

(** ** Values *)
Record Value := mkValue {
  type_id_ : TypeId;
  int_val_ : Z;
  str_val_ : string;
  max_len_ : Z
}.
#[export] Instance Value_eq_dec : EqDecision Value.
Proof. solve_decision. Defined.
Definition Value_default : Value := mkValue INT 0 "" 0.
Definition MakeInt (v : Z) : Value := mkValue INT v "" 0.
Definition MakeVarchar (s : string) (max_len : Z) : Value := mkValue VARCHAR 0 s max_len.
Definition GetType (v : Value) : TypeId := type_id_ v.
Definition AsInt (v : Value) : Z := int_val_ v.
Definition AsVarchar (v : Value) : string := str_val_ v.


(** [SerializeTo(dst)] where [dst] points [dst] bytes into the block [buf]. *)
Definition SerializeTo (v : Value) (dst : Z) (buf : list ascii) : outcome (list ascii) :=
  match type_id_ v with
  | INT => odef (store_32 dst (int_val_ v) buf)
  | VARCHAR =>
      buf <-! odef (store dst (memset (max_len_ v) NUL) buf) ;;
      let s := to_chars (str_val_ v) in
      let n := Z.min (Z.of_nat (length s)) (max_len_ v) in
      odef (store dst (take (Z.to_nat n) s) buf)
  end.

(** [strnlen]: stops at the first NUL or after [n] bytes; reading past the
    block is undefined. *)
Fixpoint strnlen (src : list ascii) (n : nat) : option nat :=
  match n with
  | O => Some 0%nat
  | S n =>
      match src with
      | [] => None
      | c :: src => if decide (c = NUL) then Some 0%nat else S <$> strnlen src n
      end
  end.

Definition DeserializeFrom (src : Z) (type : ColumnType) (buf : list ascii)
    : outcome Value :=
  match type_id type with
  | INT => v <-! odef (load_s32 src buf) ;; Ok (MakeInt v)
  | VARCHAR =>
      if (0 <=? src) && (src <=? Z.of_nat (length buf)) then
        let p := drop (Z.to_nat src) buf in
        k <-! odef (strnlen p (Z.to_nat (max_len type))) ;;
        Ok (MakeVarchar (of_chars (take k p)) (max_len type))
      else Fault Undefined
  end.

(** [std::to_string(int)]. *)
Definition to_string (z : Z) : string := pretty z.
Definition ToString (v : Value) : string :=
  match type_id_ v with INT => to_string (int_val_ v) | VARCHAR => str_val_ v end.

(** ** Tuples *)
Record Tuple := mkTuple { data_ : list ascii }.
#[export] Instance Tuple_eq_dec : EqDecision Tuple.
Proof. solve_decision. Defined.
Definition Tuple_default : Tuple := mkTuple [].

Fixpoint tuple_fill (schema : Schema) (i : nat) (values : list Value) (data : list ascii)
    : outcome (list ascii) :=
  match values with
  | [] => Ok data
  | v :: values =>
      off <-! GetColumnOffset schema i ;;
      data <-! SerializeTo v off data ;;
      tuple_fill schema (S i) values data
  end.
Definition Tuple_ctor (values : list Value) (schema : Schema) : outcome Tuple :=
  data <-! tuple_fill schema 0 values (memset (GetTupleSize schema) NUL) ;;
  Ok (mkTuple data).

Definition GetValue (t : Tuple) (schema : Schema) (col_idx : nat) : outcome Value :=
  off <-! GetColumnOffset schema col_idx ;;
  col <-! GetColumn schema col_idx ;;
  DeserializeFrom off (col_type col) (data_ t).
Definition GetLength (t : Tuple) : Z := wrap_u32 (Z.of_nat (length (data_ t))).
(** [FromBytes(data, length)] with [data] pointing [off] bytes into [buf]. *)
Definition FromBytes (off len : Z) (buf : list ascii) : outcome Tuple :=
  bs <-! odef (load off len buf) ;; Ok (mkTuple bs).

(** ** Well-formed columns and values *)
Definition column_ok (c : Column) : Prop := 0 ≤ max_len (col_type c) < 2 ^ 16.
Definition cols_size (cols : list Column) : Z :=
  foldr (λ c n, GetFixedSize (col_type c) + n) 0 cols.
(** The whole tuple is addressable with [uint32_t] offsets. *)
Definition schema_fits (cols : list Column) : Prop :=
  Forall column_ok cols ∧ cols_size cols < 2 ^ 32.

(** The value was built for a column of this type. *)
Definition value_fits (v : Value) (ct : ColumnType) : Prop :=
  type_id_ v = type_id ct ∧
  match type_id ct with
  | INT => - 2 ^ 31 ≤ int_val_ v < 2 ^ 31
  | VARCHAR => max_len_ v = max_len ct ∧ 0 ≤ max_len ct < 2 ^ 16
  end.

(** What the storage keeps of a string: at most [n] bytes, up to the first NUL. *)
Fixpoint until_nul (l : list ascii) : list ascii :=
  match l with
  | [] => []
  | c :: l => if decide (c = NUL) then [] else c :: until_nul l
  end.
Definition stored_string (n : Z) (s : string) : string :=
  of_chars (until_nul (take (Z.to_nat n) (to_chars s))).
Definition stored_value (v : Value) : Value :=
  match type_id_ v with
  | INT => MakeInt (int_val_ v)
  | VARCHAR => MakeVarchar (stored_string (max_len_ v) (str_val_ v)) (max_len_ v)
  end.

Lemma GetFixedSize_nonneg c : column_ok c → 0 ≤ GetFixedSize (col_type c).
Proof. unfold column_ok, GetFixedSize. destruct (type_id _); lia. Qed.

Lemma cols_size_app l k : cols_size (l ++ k) = cols_size l + cols_size k.
Proof. induction l as [|c l IH]; simpl; lia. Qed.

Lemma cols_size_nonneg cols : Forall column_ok cols → 0 ≤ cols_size cols.
Proof.
  induction 1 as [|c cols Hc ? IH]; simpl; [lia|].
  pose proof (GetFixedSize_nonneg c Hc). lia.
Qed.

Lemma schema_fits_app_l l k : schema_fits (l ++ k) → schema_fits l.
Proof.
  intros [[? Hk]%Forall_app Hs]. split; [done|].
  rewrite cols_size_app in Hs. pose proof (cols_size_nonneg _ Hk). lia.
Qed.

Lemma cols_size_lookup cols i c :
  cols !! i = Some c → Forall column_ok cols →
  0 ≤ cols_size (take i cols) ∧ 0 ≤ GetFixedSize (col_type c) ∧
  cols_size (take i cols) + GetFixedSize (col_type c) ≤ cols_size cols.
Proof.
  intros Hi Hok. pose proof (take_drop_middle _ _ _ Hi) as Heq.
  assert (cols_size cols = cols_size (take i cols) +
    (GetFixedSize (col_type c) + cols_size (drop (S i) cols))) as ->
    by (rewrite <- Heq at 1; by rewrite cols_size_app).
  rewrite <- Heq in Hok. apply Forall_app in Hok as [Ht [Hc Hd]%Forall_cons].
  pose proof (cols_size_nonneg _ Ht). pose proof (cols_size_nonneg _ Hd).
  pose proof (GetFixedSize_nonneg _ Hc). lia.
Qed.

Lemma schema_offsets_spec off cols :
  0 ≤ off → Forall column_ok cols → off + cols_size cols < 2 ^ 32 →
  (schema_offsets off cols).2 = off + cols_size cols ∧
  ∀ i c, cols !! i = Some c →
    (schema_offsets off cols).1 !! i = Some (off + cols_size (take i cols)).
Proof.
  intros H0 Hok. revert off H0. induction Hok as [|c cols Hc Hok IH]; intros off H0 Hlt.
  { simpl in *. split; [lia|]. intros i c. by rewrite lookup_nil. }
  simpl in Hlt. pose proof (GetFixedSize_nonneg _ Hc).
  pose proof (cols_size_nonneg _ Hok). simpl.
  rewrite wrap_u32_id by lia. destruct (IH (off + GetFixedSize (col_type c))) as [-> IHi];
    [lia|lia|]. split; [lia|]. intros [|i] c' Hi; simpl in *.
  - f_equal. lia.
  - rewrite (IHi _ _ Hi). f_equal. lia.
Qed.

(** Offsets and size of a constructed schema are the prefix sums of the column
    sizes. *)
Lemma Schema_ctor_size cols :
  schema_fits cols → GetTupleSize (Schema_ctor cols) = cols_size cols.
Proof.
  intros [Hok Hlt]. apply (schema_offsets_spec 0 cols); [lia|done|lia].
Qed.
Lemma Schema_ctor_offset cols i c :
  schema_fits cols → cols !! i = Some c →
  GetColumnOffset (Schema_ctor cols) i = Ok (cols_size (take i cols)).
Proof.
  intros [Hok Hlt] Hi. apply odef_Some.
  destruct (schema_offsets_spec 0 cols) as [_ H]; [lia|done|lia|]. by apply H in Hi.
Qed.

(** ** Locality of a field: only its own bytes are read *)
Lemma until_nul_strnlen p n :
  (n ≤ length p)%nat →
  ∃ k, strnlen p n = Some k ∧ take k p = until_nul (take n p).
Proof.
  revert p. induction n as [|n IH]; intros p Hn.
  { exists 0%nat. by destruct p. }
  destruct p as [|c p]; simpl in *; [lia|]. case_decide; [by exists 0%nat|].
  destruct (IH p) as (k & -> & Hk); [lia|]. exists (S k). simpl. by rewrite Hk.
Qed.

Lemma DeserializeFrom_load off ct buf bs :
  load off (GetFixedSize ct) buf = Some bs →
  DeserializeFrom off ct buf =
    Ok (match type_id ct with
        | INT => MakeInt (wrap_s32 (le_Z bs))
        | VARCHAR => MakeVarchar (of_chars (until_nul bs)) (max_len ct)
        end).
Proof.
  unfold DeserializeFrom, GetFixedSize. destruct (type_id ct) eqn:Hty; intros H.
  { unfold load_s32. by rewrite H. }
  pose proof (load_is_Some _ _ _ _ H) as (? & ? & ? & Hlen).
  rewrite (proj2 (Z.leb_le 0 off)), (proj2 (Z.leb_le off _)) by lia. simpl.
  rewrite load_Some in H by lia. injection H as <-.
  destruct (until_nul_strnlen (drop (Z.to_nat off) buf) (Z.to_nat (max_len ct)))
    as (k & -> & Hk); [rewrite length_drop; lia|]. simpl. by rewrite Hk.
Qed.

Lemma memset_length n c : length (memset n c) = Z.to_nat n.
Proof. apply length_replicate. Qed.

Lemma until_nul_pad l n :
  until_nul (l ++ replicate n NUL) = until_nul l.
Proof.
  induction l as [|c l IH]; simpl; [by destruct n|]. case_decide; [done|]. by rewrite IH.
Qed.

(** Serialization writes exactly the field's bytes. *)
Lemma SerializeTo_spec v ct off buf :
  value_fits v ct → 0 ≤ off → off + GetFixedSize ct ≤ Z.of_nat (length buf) →
  ∃ buf', SerializeTo v off buf = Ok buf' ∧ length buf' = length buf ∧
    DeserializeFrom off ct buf' = Ok (stored_value v) ∧
    (∀ o n, o + n ≤ off ∨ off + GetFixedSize ct ≤ o → load o n buf' = load o n buf).
Proof.
  intros [Hty Hv] Hoff Hlen. unfold SerializeTo, GetFixedSize, stored_value in *.
  rewrite Hty. destruct (type_id ct) eqn:Hct.
  { destruct (store_32_exists off (int_val_ v) buf) as [buf' Hb]; [lia..|].
    exists buf'. rewrite Hb. split_and!; [done|by eapply store_32_length| |].
    - unfold DeserializeFrom. rewrite Hct.
      rewrite (load_s32_store _ _ _ _ Hb). simpl. rewrite wrap_s32_id by lia. done.
    - intros o n ?. eapply load_store_32_ne; [exact Hb|lia]. }
  destruct Hv as [Hm Hr]. rewrite Hm. set (n := max_len ct) in *.
  set (s := to_chars (str_val_ v)).
  destruct (store_exists off (memset n NUL) buf) as [b1 Hb1];
    [lia|rewrite memset_length; lia|].
  pose proof (store_length _ _ _ _ Hb1) as Hl1. simpl. rewrite Hb1. simpl.
  set (k := Z.to_nat (Z.min (Z.of_nat (length s)) n)).
  assert (Hk : length (take k s) = k) by (rewrite length_take; lia).
  destruct (store_exists off (take k s) b1) as [b2 Hb2]; [lia|rewrite Hk; lia|].
  pose proof (store_length _ _ _ _ Hb2) as Hl2.
  exists b2. rewrite Hb2. split_and!; [done|congruence| |].
  - rewrite (DeserializeFrom_load _ _ _ (take k s ++ replicate (Z.to_nat n - k) NUL)).
    { rewrite Hct, until_nul_pad. unfold stored_string. fold s. f_equal. f_equal.
      f_equal. f_equal. destruct (decide (k = Z.to_nat n)) as [->|]; [done|].
      rewrite !take_ge by lia. done. }
    unfold GetFixedSize. rewrite Hct. fold n.
    apply store_is_Some in Hb2 as (_ & _ & ->), Hb1 as (_ & _ & ->).
    rewrite load_Some by (rewrite ?length_app, ?length_take, ?length_drop, ?memset_length in *; lia).
    f_equal. rewrite drop_app_length' by (rewrite length_take, ?length_app, length_take; lia).
    rewrite Hk, take_app_ge by lia. rewrite Hk. f_equal.
    rewrite <- drop_drop, drop_app_length' by (rewrite length_take; lia).
    unfold memset. rewrite drop_app_le by (rewrite length_replicate; lia).
    rewrite drop_replicate. rewrite take_app_length'; [done|]. rewrite length_replicate. lia.
  - intros o m Hd. rewrite (load_store_ne _ _ _ _ _ _ Hb2) by (rewrite Hk; lia).
    eapply load_store_ne; [exact Hb1|]. rewrite memset_length. lia.
Qed.

Lemma tuple_fill_spec pre cols values data :
  schema_fits (pre ++ cols) →
  Forall2 (λ v c, value_fits v (col_type c)) values cols →
  Z.of_nat (length data) = cols_size (pre ++ cols) →
  ∃ data', tuple_fill (Schema_ctor (pre ++ cols)) (length pre) values data = Ok data' ∧
    length data' = length data ∧
    (∀ o n, o + n ≤ cols_size pre → load o n data' = load o n data) ∧
    (∀ j v c, values !! j = Some v → cols !! j = Some c →
       DeserializeFrom (cols_size pre + cols_size (take j cols)) (col_type c) data'
         = Ok (stored_value v)).
Proof.
  intros Hfit Hall. revert pre data Hfit.
  induction Hall as [|v c values cols Hv Hall IH]; intros pre data Hfit Hlen.
  { exists data. split_and!; [done..|]. intros j v c. by rewrite lookup_nil. }
  pose proof (proj1 Hfit) as [Hpre [Hc Hcs]%Forall_cons]%Forall_app.
  pose proof (cols_size_nonneg _ Hpre). pose proof (cols_size_nonneg _ Hcs).
  pose proof (GetFixedSize_nonneg _ Hc).
  simpl. rewrite (Schema_ctor_offset _ _ c Hfit) by (rewrite list_lookup_middle; done).
  rewrite take_app_length. simpl. rewrite cols_size_app in Hlen. simpl in Hlen.
  destruct (SerializeTo_spec v (col_type c) (cols_size pre) data) as (d1 & -> & Hl1 & Hd1 & Hu1);
    [done|lia|lia|]. simpl.
  destruct (IH (pre ++ [c]) d1) as (d2 & Hf & Hl2 & Hu2 & Hd2).
  { by rewrite <- app_assoc. }
  { rewrite !cols_size_app. simpl. lia. }
  rewrite cols_size_app in Hu2, Hd2. simpl in Hu2, Hd2.
  rewrite <- app_assoc, length_app, Nat.add_1_r in Hf. simpl in Hf.
  exists d2. split_and!; [done|congruence| |].
  - intros o n ?. rewrite Hu2 by lia. apply Hu1. lia.
  - intros [|j] v' c' Hj Hj'; simpl in *.
    + injection Hj as <-. injection Hj' as <-. rewrite Z.add_0_r.
      unshelve epose proof (load_Some (cols_size pre) (GetFixedSize (col_type c)) d2 _ _ _) as Hl;
        [lia..|].
      rewrite (DeserializeFrom_load _ _ _ _ Hl), <- Hd1. symmetry.
      apply DeserializeFrom_load. rewrite <- Hl. symmetry. apply Hu2. lia.
    + specialize (Hd2 j v' c' Hj Hj'). rewrite <- Hd2. f_equal. lia.
Qed.

(** Filling in columns keeps the size of a tuple. *)
Lemma odef_inv {A} (o : option A) a : odef o = Ok a → o = Some a.
Proof. destruct o; [by intros [= ->]|done]. Qed.
Lemma SerializeTo_length v dst buf buf' : SerializeTo v dst buf = Ok buf' → length buf' = length buf.
Proof.
  unfold SerializeTo. destruct (type_id_ v).
  - intros H%odef_inv. by eapply store_32_length.
  - intros (b & Hb%odef_inv & H%odef_inv)%obind_Ok_inv.
    by rewrite (store_length _ _ _ _ H), (store_length _ _ _ _ Hb).
Qed.
Lemma tuple_fill_length schema i values data data' :
  tuple_fill schema i values data = Ok data' → length data' = length data.
Proof.
  revert i data. induction values as [|v values IH]; intros i data; cbn; [by intros [= ->]|].
  intros (off & _ & (d & Hd & H)%obind_Ok_inv)%obind_Ok_inv.
  by rewrite (IH _ _ H), (SerializeTo_length _ _ _ _ Hd).
Qed.
Lemma Tuple_ctor_length values schema t :
  Tuple_ctor values schema = Ok t → length (data_ t) = Z.to_nat (GetTupleSize schema).
Proof.
  unfold Tuple_ctor. intros (d & Hd & [= <-])%obind_Ok_inv. cbn.
  by rewrite (tuple_fill_length _ _ _ _ _ Hd), memset_length.
Qed.

(** Building a tuple and reading its columns. *)
Lemma Tuple_ctor_spec cols values :
  schema_fits cols →
  Forall2 (λ v c, value_fits v (col_type c)) values cols →
  ∃ t, Tuple_ctor values (Schema_ctor cols) = Ok t ∧
    Z.of_nat (length (data_ t)) = GetTupleSize (Schema_ctor cols) ∧
    ∀ i v, values !! i = Some v →
      GetValue t (Schema_ctor cols) i = Ok (stored_value v).
Proof.
  intros Hfit Hall. pose proof (cols_size_nonneg _ (proj1 Hfit)).
  unfold Tuple_ctor. rewrite Schema_ctor_size by done.
  destruct (tuple_fill_spec [] cols values (memset (cols_size cols) NUL))
    as (d & Hf & Hl & _ & Hd); [done|done|rewrite memset_length; simpl; lia|].
  cbn [app length] in Hf. rewrite Hf.
  exists (mkTuple d). split_and!; [done|simpl; rewrite Hl, memset_length; lia|].
  intros i v Hi. destruct (Forall2_lookup_l _ _ _ _ _ Hall Hi) as (c & Hc & _).
  unfold GetValue. rewrite (Schema_ctor_offset _ _ c) by done. simpl.
  unfold GetColumn. simpl. rewrite Hc. simpl. by apply Hd.
Qed.

(** C9. Storing a row and reading it back: a tuple built from values that fit
    their columns has the schema's size, and reading column [i] returns the
    [i]-th value, a VARCHAR cut at its column's length and at its first NUL.
    In particular no column overwrites another. *)
Theorem Tuple_roundtrip cols values :
  schema_fits cols →
  Forall2 (λ v c, value_fits v (col_type c)) values cols →
  ∃ t, Tuple_ctor values (Schema_ctor cols) = Ok t ∧
    Z.of_nat (length (data_ t)) = GetTupleSize (Schema_ctor cols) ∧
    ∀ i v, values !! i = Some v →
      GetValue t (Schema_ctor cols) i = Ok (stored_value v).
Proof. apply Tuple_ctor_spec. Qed.

Lemma Tuple_roundtrip_witness :
  let cols := [mkColumn "id" ColumnType_Int; mkColumn "name" (ColumnType_Varchar 4)] in
  ∃ t, Tuple_ctor [MakeInt (-7); MakeVarchar "Alice" 4] (Schema_ctor cols) = Ok t ∧
    GetValue t (Schema_ctor cols) 1 = Ok (MakeVarchar "Alic" 4).
Proof.
  intros cols.
  destruct (Tuple_roundtrip cols [MakeInt (-7); MakeVarchar "Alice" 4]) as (t & Ht & _ & Hv).
  - split; [repeat constructor; simpl; lia|vm_compute; done].
  - repeat constructor; simpl; lia.
  - exists t. split; [exact Ht|]. rewrite (Hv 1%nat (MakeVarchar "Alice" 4)) by reflexivity.
    vm_compute. reflexivity.
Defined.

(** ** Column resolution *)
Lemma find_column_spec f i cols k :
  find_column f i cols = Some k ↔
  ∃ j c, k = (i + j)%nat ∧ cols !! j = Some c ∧ f c = true ∧
    ∀ j' c', (j' < j)%nat → cols !! j' = Some c' → f c' = false.
Proof.
  revert i. induction cols as [|c cols IH]; intros i; simpl.
  { split; [done|]. intros (j & c & _ & H & _). by rewrite lookup_nil in H. }
  destruct (f c) eqn:Hf.
  - split.
    + intros [= <-]. exists 0%nat, c. split_and!; [lia|done..|]. intros; lia.
    + intros (j & c' & -> & Hj & Hc & Hm). destruct j; [f_equal; lia|].
      specialize (Hm 0%nat c). simpl in Hm. rewrite Hm in Hf; [done|lia|done].
  - rewrite IH. split.
    + intros (j & c' & -> & Hj & Hc & Hm). exists (S j), c'. split_and!; [lia|done..|].
      intros [|j'] d Hlt Hd; simpl in Hd; [by injection Hd as <-|]. eapply Hm; [|done]; lia.
    + intros (j & c' & -> & Hj & Hc & Hm). destruct j as [|j]; simpl in Hj.
      { injection Hj as <-. congruence. }
      exists j, c'. split_and!; [lia|done..|]. intros j' d ??. apply (Hm (S j')); [lia|done].
Qed.

Lemma find_column_None f i cols :
  find_column f i cols = None ↔ ∀ j c, cols !! j = Some c → f c = false.
Proof.
  revert i. induction cols as [|c cols IH]; intros i; simpl.
  { split; [|done]. intros _ j c. by rewrite lookup_nil. }
  destruct (f c) eqn:Hf.
  - split; [done|]. intros H. by rewrite (H 0%nat c) in Hf.
  - rewrite IH. split.
    + intros H [|j] d Hd; simpl in Hd; [by injection Hd as <-|eauto].
    + intros H j d Hd. exact (H (S j) d Hd).
Qed.

(** The second search returns the only unqualified match, keeps [found] when
    there is none, and throws on a second one. *)
Lemma find_unqualified_spec name i found cols :
  Z.of_nat (i + length cols) < 2 ^ 31 → (found = -1 ∨ 0 ≤ found) →
  match find_unqualified name i found cols with
  | Ok r =>
      (r = found ∧ ∀ j c, cols !! j = Some c → unqualified_is name c = false) ∨
      (found = -1 ∧ ∃ j c, r = Z.of_nat (i + j) ∧ cols !! j = Some c ∧
         unqualified_is name c = true ∧
         ∀ j' c', cols !! j' = Some c' → unqualified_is name c' = true → j' = j)
  | Fault f =>
      f = Throw ("Ambiguous column: " +:+ name) ∧
      ∃ j c, cols !! j = Some c ∧ unqualified_is name c = true ∧
        (found = -1 → ∃ j' c', j' ≠ j ∧ cols !! j' = Some c' ∧ unqualified_is name c' = true)
  end.
Proof.
  revert i found. induction cols as [|c cols IH]; intros i found Hi Hf; simpl.
  { left. split; [done|]. intros j c. by rewrite lookup_nil. }
  simpl in Hi. destruct (unqualified_is name c) eqn:Hu.
  - destruct (Z.eqb_spec found (-1)) as [->|Hne]; simpl.
    + rewrite wrap_s32_id by lia. specialize (IH (S i) (Z.of_nat i)).
      destruct (find_unqualified name (S i) (Z.of_nat i) cols) as [r|f].
      * destruct IH as [[-> H]|[H _]]; [lia|lia| |lia]. right. split; [done|].
        exists 0%nat, c. split_and!; [lia|done|done|].
        intros [|j'] c' Hj' Hu'; [done|]. simpl in Hj'. rewrite (H _ _ Hj') in Hu'. done.
      * destruct IH as (-> & j & d & Hj & Hd & _); [lia|lia|]. split; [done|].
        exists (S j), d. split_and!; [done..|]. intros _. exists 0%nat, c. done.
    + split; [done|]. exists 0%nat, c. split_and!; [done..|]. intros ->; done.
  - specialize (IH (S i) found). destruct (find_unqualified name (S i) found cols) as [r|f].
    + destruct IH as [[-> H]|(-> & j & d & -> & Hj & Hd & H)]; [lia|done| |].
      * left. split; [done|]. intros [|j] d Hd; simpl in Hd; [by injection Hd as <-|eauto].
      * right. split; [done|]. exists (S j), d. split_and!; [lia|done|done|].
        intros [|j'] c' Hj' Hu'; simpl in Hj'; [injection Hj' as <-; congruence|].
        f_equal. eauto.
    + destruct IH as (-> & j & d & Hj & Hd & H); [lia|done|]. split; [done|].
      exists (S j), d. split_and!; [done..|]. intros Hm.
      destruct (H Hm) as (j' & c' & ? & ? & ?). exists (S j'), c'. split_and!; [lia|done..].
Qed.

(** How a name resolves to column [i] of a schema, in order of priority. *)
Inductive resolves (cols : list Column) (name : string) (i : nat) : Prop :=
  | resolves_exact c :
      cols !! i = Some c → col_name c = name →
      (∀ j d, (j < i)%nat → cols !! j = Some d → col_name d ≠ name) →
      resolves cols name i
  | resolves_unqualified c :
      (∀ j d, cols !! j = Some d → col_name d ≠ name) →
      str_find dot name = None → cols !! i = Some c → unqualified_is name c = true →
      (∀ j d, cols !! j = Some d → unqualified_is name d = true → j = i) →
      resolves cols name i
  | resolves_qualified c d :
      (∀ j d, cols !! j = Some d → col_name d ≠ name) →
      str_rfind dot name = Some d → cols !! i = Some c →
      col_name c = str_drop (S d) name →
      (∀ j e, (j < i)%nat → cols !! j = Some e → col_name e ≠ str_drop (S d) name) →
      resolves cols name i.

Lemma str_find_rfind c s : str_find c s = None ↔ str_rfind c s = None.
Proof.
  induction s as [|a s IH]; simpl; [done|]. case_decide.
  - split; [done|]. by destruct (str_rfind c s).
  - rewrite fmap_None, IH. destruct (str_rfind c s); naive_solver.
Qed.

Lemma find_qualified_spec cols name i :
  (∀ j d, cols !! j = Some d → col_name d ≠ name) →
  find_qualified name cols = Some i → resolves cols name i.
Proof.
  unfold find_qualified. intros Hno. destruct (str_rfind dot name) as [d|] eqn:Hr; [|done].
  intros (j & c & -> & Hj & Hc%bool_decide_eq_true & Hm)%find_column_spec.
  eapply resolves_qualified; [done..|]. intros j' e Hlt He Heq.
  specialize (Hm j' e Hlt He). by rewrite bool_decide_eq_false in Hm.
Qed.

(** Two columns share an unqualified name that no column has exactly. *)
Definition ambiguous (cols : list Column) (name : string) : Prop :=
  (∀ j d, cols !! j = Some d → col_name d ≠ name) ∧ str_find dot name = None ∧
  ∃ j k c d, j ≠ k ∧ cols !! j = Some c ∧ unqualified_is name c = true ∧
    cols !! k = Some d ∧ unqualified_is name d = true.

(** What a lookup promises: the column, or which of the two errors. *)
Inductive column_lookup (cols : list Column) (name : string) : outcome nat → Prop :=
  | cl_found i : resolves cols name i → column_lookup cols name (Ok i)
  | cl_ambiguous :
      ambiguous cols name → column_lookup cols name (Fault (Throw ("Ambiguous column: " +:+ name)))
  | cl_unknown :
      (∀ i, ¬ resolves cols name i) → ¬ ambiguous cols name →
      column_lookup cols name (Fault (Throw ("Column not found: " +:+ name))).

(** At most one column is meant, and none if the name is ambiguous. *)
Lemma resolves_unique cols name i j : resolves cols name i → resolves cols name j → i = j.
Proof.
  intros [c Hi Hc Hm|c Hno Hd Hi Hc Hu|c d Hno Hd Hi Hc Hm]
    [c' Hj Hc' Hm'|c' Hno' Hd' Hj Hc' Hu'|c' d' Hno' Hd' Hj Hc' Hm'];
    try (by destruct (Hno _ _ Hj Hc')); try (by destruct (Hno' _ _ Hi Hc));
    try (apply str_find_rfind in Hd; congruence); try (apply str_find_rfind in Hd'; congruence).
  - destruct (Nat.lt_trichotomy i j) as [H|[H|H]]; [|done|]; exfalso; naive_solver.
  - by apply (Hu' i c).
  - simplify_eq. destruct (Nat.lt_trichotomy i j) as [H|[H|H]]; [|done|]; exfalso; naive_solver.
Qed.
Lemma ambiguous_resolves cols name i : ambiguous cols name → ¬ resolves cols name i.
Proof.
  intros (Hno & Hdot & j & k & c & d & Hne & Hj & Hc & Hk & Hd)
    [e Hi He _|e _ _ _ _ Hu|e r _ Hr _ _ _]; [by destruct (Hno _ _ Hi He)| |].
  - destruct Hne. rewrite (Hu j c), (Hu k d) by done. done.
  - apply str_find_rfind in Hdot. congruence.
Qed.
Lemma column_lookup_unique cols name r r' :
  column_lookup cols name r → column_lookup cols name r' → r = r'.
Proof.
  intros [i Hi|Ha|Hn Ha] [j Hj|Ha'|Hn' Ha']; try done.
  - f_equal. by eapply resolves_unique.
  - by destruct (ambiguous_resolves _ _ _ Ha' Hi).
  - by destruct (Hn' i).
  - by destruct (ambiguous_resolves _ _ _ Ha Hj).
  - by destruct (Hn j).
Qed.

(** The last of the three searches. *)
Lemma find_qualified_lookup cols name :
  (∀ j d, cols !! j = Some d → col_name d ≠ name) →
  (str_find dot name = None → ∀ j c, cols !! j = Some c → unqualified_is name c = false) →
  column_lookup cols name
    match find_qualified name cols with
    | Some i => Ok i
    | None => Fault (Throw ("Column not found: " +:+ name))
    end.
Proof.
  intros Hno Hu. destruct (find_qualified name cols) as [i|] eqn:Hq.
  { apply cl_found. by apply find_qualified_spec. }
  apply cl_unknown.
  - intros i [c Hi Hc _|c _ Hd Hi Hc _|c d _ Hd Hi Hc _]; [by destruct (Hno _ _ Hi Hc)|by rewrite (Hu Hd i c) in Hc|].
    unfold find_qualified in Hq. rewrite Hd, find_column_None in Hq.
    specialize (Hq i c Hi). by apply bool_decide_eq_false in Hq.
  - intros (_ & Hd & j & k & c & d & _ & Hj & Hc & _). by rewrite (Hu Hd j c) in Hc.
Qed.

Lemma GetColumnIdx_lookup s name :
  Z.of_nat (length (columns_ s)) < 2 ^ 31 →
  column_lookup (columns_ s) name (GetColumnIdx s name).
Proof.
  intros Hlen. unfold GetColumnIdx.
  destruct (find_column _ 0 (columns_ s)) as [k|] eqn:Hex.
  { apply cl_found. apply find_column_spec in Hex as (j & c & -> & Hj & Hc & Hm).
    apply (resolves_exact _ _ _ c); [done|by apply bool_decide_eq_true in Hc|].
    intros j' d Hlt Hd. specialize (Hm j' d Hlt Hd). by apply bool_decide_eq_false in Hm. }
  assert (Hno : ∀ j d, columns_ s !! j = Some d → col_name d ≠ name).
  { intros j d Hd. rewrite find_column_None in Hex.
    specialize (Hex j d Hd). by apply bool_decide_eq_false in Hex. }
  destruct (str_find dot name) as [d|] eqn:Hdot; [apply find_qualified_lookup; [done|congruence]|].
  pose proof (find_unqualified_spec name 0 (-1) (columns_ s)) as Hu.
  destruct (find_unqualified name 0 (-1) (columns_ s)) as [r|f]; cbn [obind].
  - destruct Hu as [[-> Hu]|(_ & j & c & -> & Hj & Hc & Huniq)]; [lia|by left| |].
    { cbn. by apply find_qualified_lookup. }
    pose proof (lookup_lt_Some _ _ _ Hj).
    rewrite (proj2 (Z.eqb_neq _ _)) by lia. cbn [negb]. rewrite wrap_u64_id by lia.
    rewrite Nat2Z.id. apply cl_found. eapply resolves_unqualified; eauto.
  - destruct Hu as (-> & j & c & Hj & Hc & (k & d & Hne & Hk & Hd)); [lia|by left|done|].
    apply cl_ambiguous. split_and!; [done|done|]. by exists j, k, c, d.
Qed.

(** C30. Name resolution, both ways and with its errors: [GetColumnIdx] returns
    [i] exactly if the name denotes column [i] (the first exact match, else, for
    an unqualified name, the only column whose unqualified part it is, else the
    first column named like the part after the last dot); it throws "Ambiguous
    column" exactly if no column has the name and two columns share it as their
    unqualified part; and "Column not found" in all other cases. *)
Theorem GetColumnIdx_correct s name r :
  Z.of_nat (length (columns_ s)) < 2 ^ 31 →
  GetColumnIdx s name = r ↔ column_lookup (columns_ s) name r.
Proof.
  intros Hlen. split; [intros <-; by apply GetColumnIdx_lookup|].
  by apply column_lookup_unique, GetColumnIdx_lookup.
Qed.

Definition joined_schema : Schema :=
  Schema_ctor [mkColumn "u.id" ColumnType_Int; mkColumn "o.id" ColumnType_Int;
               mkColumn "o.uid" ColumnType_Int].
Lemma GetColumnIdx_correct_witness :
  resolves (columns_ joined_schema) "uid" 2 ∧ ambiguous (columns_ joined_schema) "id" ∧
  GetColumnIdx joined_schema "name" = Fault (Throw "Column not found: name").
Proof.
  assert (Hlen : Z.of_nat (length (columns_ joined_schema)) < 2 ^ 31) by (vm_compute; reflexivity).
  assert (H1 : GetColumnIdx joined_schema "uid" = Ok 2%nat) by (vm_compute; reflexivity).
  assert (H2 : GetColumnIdx joined_schema "id" = Fault (Throw "Ambiguous column: id"))
    by (vm_compute; reflexivity).
  split; [|split; [|vm_compute; reflexivity]].
  - apply (GetColumnIdx_correct _ _ _ Hlen) in H1. by inversion H1.
  - apply (GetColumnIdx_correct _ _ _ Hlen) in H2. by inversion H2.
Defined.

(** The two sides separately. *)
Lemma GetColumnIdx_sound s name i :
  Z.of_nat (length (columns_ s)) < 2 ^ 31 →
  GetColumnIdx s name = Ok i → resolves (columns_ s) name i.
Proof. intros Hlen H. pose proof (GetColumnIdx_lookup s name Hlen) as Hl. rewrite H in Hl. by inversion Hl. Qed.
Lemma GetColumnIdx_ambiguous s name :
  Z.of_nat (length (columns_ s)) < 2 ^ 31 → ambiguous (columns_ s) name →
  GetColumnIdx s name = Fault (Throw ("Ambiguous column: " +:+ name)).
Proof. intros Hlen Ha. eapply column_lookup_unique; [by apply GetColumnIdx_lookup|by constructor]. Qed.

#[export] Instance to_string_inj : Inj (=) (=) to_string.
Proof. unfold to_string. apply _. Qed.
