(* ===== verification/DiskManager.v ===== *)
(** * Disk manager: [src/src/storage/disk_manager.h], [disk_manager.cpp]

    Fixed-size pages in one file.  The stream [db_io_] is modelled by the bytes
    of the file and its [badbit]: while the bit is set no operation transfers
    bytes; [clear()] resets it.  The device that sets the bit is outside the
    program, so every operation is translated for both values of it. *)
From stdpp Require Import base gmap list strings.
From Stdlib Require Import ZArith Lia Ascii.
From S2P Require Import Prelude Types.

Record DiskManager := mkDiskManager {
  file_name_ : string;
  db_file : list ascii;   (* contents of the file behind [db_io_] *)
  db_bad : bool;          (* [db_io_.bad()] *)
  num_pages_ : Z
}.

(** The file system the constructor meets. *)
Record FileSystem := mkFileSystem {
  fs_files : gmap string (list ascii);
  fs_creatable : string → bool
}.

(** [seekp(off); write(bs)]: a gap after the end of the file reads as zeros. *)
Definition file_write (off : nat) (bs : list ascii) (f : list ascii) : list ascii :=
  let f := f ++ replicate (off - length f) NUL in
  take off f ++ bs ++ drop (off + length bs) f.

(** [seekg(off); read(n)]: the bytes that are there. *)
Definition file_read (off n : nat) (f : list ascii) : list ascii := take n (drop off f).

Definition page_offset (page_id : Z) : nat := Z.to_nat (page_id * PAGE_SIZE).
Definition zero_page : list ascii := memset PAGE_SIZE NUL.

(** The constructor: opens the file or creates it, then counts its pages with
    [static_cast<int>(tellg()) / PAGE_SIZE]. *)
Definition DiskManager_open (name : string) (contents : list ascii) : DiskManager :=
  mkDiskManager name contents false
    (Z.quot (wrap_s32 (Z.of_nat (length contents))) PAGE_SIZE).
Definition DiskManager_ctor (fs : FileSystem) (db_file : string) : outcome DiskManager :=
  match fs_files fs !! db_file with
  | Some contents => Ok (DiskManager_open db_file contents)
  | None =>
      if fs_creatable fs db_file then Ok (DiskManager_open db_file [])
      else Fault (Throw ("Cannot open database file: " +:+ db_file))
  end.

(** [~DiskManager]: the stream is flushed and closed; the file keeps the bytes. *)
Definition DiskManager_dtor (fs : FileSystem) (d : DiskManager) : FileSystem :=
  mkFileSystem (<[file_name_ d := db_file d]> (fs_files fs)) (fs_creatable fs).

(** [ReadPage(page_id, page_data)]: the new contents of [page_data]. *)
Definition ReadPage (page_id : Z) : M DiskManager (list ascii) :=
  d <- getM ;;
  assertM ((0 <=? page_id) && (page_id <? num_pages_ d)) ;;
  let got := if db_bad d then []
             else file_read (page_offset page_id) (Z.to_nat PAGE_SIZE) (db_file d) in
  if (length got =? Z.to_nat PAGE_SIZE)%nat then retM got
  else
    putM (mkDiskManager (file_name_ d) (db_file d) false (num_pages_ d)) ;;
    retM (got ++ memset (PAGE_SIZE - Z.of_nat (length got)) NUL).

Definition WritePage (page_id : Z) (page_data : list ascii) : M DiskManager unit :=
  d <- getM ;;
  assertM (0 <=? page_id) ;;
  if db_bad d then throwM ("I/O error writing page " +:+ to_string page_id)
  else putM (mkDiskManager (file_name_ d)
               (file_write (page_offset page_id) page_data (db_file d)) false (num_pages_ d)).

Definition AllocatePage : M DiskManager Z :=
  d <- getM ;;
  let pid := num_pages_ d in
  n <- liftM (add_s32 (num_pages_ d) 1) ;;
  let f := if db_bad d then db_file d
           else file_write (page_offset pid) zero_page (db_file d) in
  putM (mkDiskManager (file_name_ d) f (db_bad d) n) ;;
  retM pid.

Definition GetNumPages (d : DiskManager) : Z := num_pages_ d.

(** ** Page view and invariant *)

(** Page [pid] as the file holds it. *)
Definition disk_page (d : DiskManager) (pid : Z) : list ascii :=
  file_read (page_offset pid) (Z.to_nat PAGE_SIZE) (db_file d).

(** A healthy manager: the stream is good and the file is exactly its pages. *)
Record disk_ok (d : DiskManager) : Prop := {
  disk_good : db_bad d = false;
  disk_range : 0 ≤ num_pages_ d < 2 ^ 31;
  disk_len : Z.of_nat (length (db_file d)) = num_pages_ d * PAGE_SIZE
}.

Lemma page_offset_eq pid : 0 ≤ pid → Z.of_nat (page_offset pid) = pid * PAGE_SIZE.
Proof. unfold page_offset, PAGE_SIZE. lia. Qed.

Lemma zero_page_length : length zero_page = Z.to_nat PAGE_SIZE.
Proof. apply memset_length. Qed.

Lemma file_write_within off bs f :
  (off ≤ length f)%nat → file_write off bs f = take off f ++ bs ++ drop (off + length bs) f.
Proof.
  intros. unfold file_write. replace (off - length f)%nat with 0%nat by lia.
  simpl. by rewrite app_nil_r.
Qed.

Lemma file_write_length off bs f :
  (off ≤ length f)%nat → length (file_write off bs f) = (length f `max` (off + length bs))%nat.
Proof.
  intros. rewrite file_write_within by done.
  rewrite !length_app, length_take, length_drop. lia.
Qed.

Lemma file_read_write_eq off bs f :
  (off ≤ length f)%nat → file_read off (length bs) (file_write off bs f) = bs.
Proof.
  intros. rewrite file_write_within by done. unfold file_read.
  rewrite drop_app_length' by (rewrite length_take; lia). apply take_app_length.
Qed.

Lemma file_read_write_ne off n off' bs f :
  (off' ≤ length f)%nat →
  (off + n ≤ off' ∨ off' + length bs ≤ off)%nat →
  file_read off n (file_write off' bs f) = file_read off n f.
Proof.
  intros Hle Hd. rewrite file_write_within by done. unfold file_read.
  destruct Hd.
  - rewrite drop_app_le by (rewrite length_take; lia).
    rewrite take_app_le by (rewrite length_drop, length_take; lia).
    rewrite <- (take_drop off' f) at 2.
    rewrite drop_app_le by (rewrite length_take; lia).
    rewrite take_app_le by (rewrite length_drop, length_take; lia). done.
  - rewrite app_assoc, drop_app_ge by (rewrite length_app, length_take; lia).
    rewrite drop_drop. do 2 f_equal. rewrite length_app, length_take. lia.
Qed.

Section disk_ok.
Context (d : DiskManager) (Hd : disk_ok d).

Lemma page_offset_le pid : 0 ≤ pid ≤ num_pages_ d → (page_offset pid ≤ length (db_file d))%nat.
Proof.
  intros. pose proof (disk_len d Hd). pose proof (page_offset_eq pid).
  unfold PAGE_SIZE in *. lia.
Qed.

Lemma disk_page_length pid :
  0 ≤ pid < num_pages_ d → length (disk_page d pid) = Z.to_nat PAGE_SIZE.
Proof.
  intros. unfold disk_page, file_read. rewrite length_take, length_drop.
  pose proof (disk_len d Hd). pose proof (page_offset_eq pid). unfold PAGE_SIZE in *. lia.
Qed.

Lemma ReadPage_ok pid :
  0 ≤ pid < num_pages_ d → ReadPage pid d = (d, Ok (disk_page d pid)).
Proof.
  intros Hp. unfold ReadPage. mstep.
  rewrite bindM_assert by (rewrite andb_true_iff, Z.leb_le, Z.ltb_lt; lia).
  rewrite (disk_good d Hd). fold (disk_page d pid).
  by rewrite disk_page_length, Nat.eqb_refl by done.
Qed.

Lemma WritePage_ok pid data :
  0 ≤ pid < num_pages_ d → length data = Z.to_nat PAGE_SIZE →
  ∃ d', WritePage pid data d = (d', Ok tt) ∧ disk_ok d' ∧ num_pages_ d' = num_pages_ d ∧
    ∀ q, 0 ≤ q < num_pages_ d →
      disk_page d' q = if decide (q = pid) then data else disk_page d q.
Proof.
  intros Hp Hlen. unfold WritePage. mstep.
  rewrite bindM_assert by (apply Z.leb_le; lia). rewrite (disk_good d Hd).
  pose proof (page_offset_le pid). pose proof (disk_len d Hd). pose proof (disk_range d Hd).
  pose proof (page_offset_eq pid).
  eexists. split_and!; [done| |done|].
  - split; simpl; [done|done|]. rewrite file_write_length by lia.
    rewrite Hlen. unfold PAGE_SIZE in *. lia.
  - intros q Hq. unfold disk_page. simpl. pose proof (page_offset_eq q). case_decide as Heq.
    + subst q. rewrite <- Hlen. apply file_read_write_eq. lia.
    + apply file_read_write_ne; [lia|]. rewrite Hlen. unfold PAGE_SIZE in *. lia.
Qed.

Lemma AllocatePage_ok :
  num_pages_ d + 1 < 2 ^ 31 →
  ∃ d', AllocatePage d = (d', Ok (num_pages_ d)) ∧ disk_ok d' ∧
    num_pages_ d' = num_pages_ d + 1 ∧
    disk_page d' (num_pages_ d) = zero_page ∧
    ∀ q, 0 ≤ q < num_pages_ d → disk_page d' q = disk_page d q.
Proof.
  intros Hn. pose proof (disk_len d Hd). pose proof (disk_range d Hd).
  unfold AllocatePage. mstep.
  rewrite (bindM_lift _ (num_pages_ d + 1)).
  2:{ unfold add_s32. by rewrite (proj2 (in_s32_spec _)) by lia. }
  rewrite (disk_good d Hd). mstep.
  pose proof (page_offset_le (num_pages_ d)). pose proof (page_offset_eq (num_pages_ d)).
  eexists. split_and!; [done| |done| |].
  - split; simpl; [done|lia|]. rewrite file_write_length by lia.
    rewrite zero_page_length. unfold PAGE_SIZE in *. lia.
  - unfold disk_page. simpl. rewrite <- zero_page_length. apply file_read_write_eq. lia.
  - intros q Hq. unfold disk_page. simpl. pose proof (page_offset_eq q).
    apply file_read_write_ne; [lia|]. unfold PAGE_SIZE in *. lia.
Qed.
End disk_ok.

(** ** Refinement of an array of pages *)
Inductive disk_op :=
  | DRead (page_id : Z)
  | DWrite (page_id : Z) (page_data : list ascii)
  | DAlloc.

(** A client's calls, in order, with what each hands back. *)
Definition disk_call (o : disk_op) : M DiskManager (list ascii + Z) :=
  match o with
  | DRead p => bs <- ReadPage p ;; retM (inl bs)
  | DWrite p data => WritePage p data ;; retM (inl [])
  | DAlloc => p <- AllocatePage ;; retM (inr p)
  end.
Fixpoint disk_calls (os : list disk_op) : M DiskManager (list (list ascii + Z)) :=
  match os with
  | [] => retM []
  | o :: os => r <- disk_call o ;; rs <- disk_calls os ;; retM (r :: rs)
  end.

(** The specification: an array of pages. *)
Definition array_call (o : disk_op) (pages : list (list ascii))
    : option (list (list ascii) * (list ascii + Z)) :=
  match o with
  | DRead p =>
      if 0 <=? p then pg ← pages !! Z.to_nat p; Some (pages, inl pg) else None
  | DWrite p data =>
      if (0 <=? p) && (p <? Z.of_nat (length pages)) && (length data =? Z.to_nat PAGE_SIZE)%nat
      then Some (<[Z.to_nat p := data]> pages, inl []) else None
  | DAlloc =>
      if Z.of_nat (length pages) + 1 <? 2 ^ 31
      then Some (pages ++ [zero_page], inr (Z.of_nat (length pages))) else None
  end.
Fixpoint array_calls (os : list disk_op) (pages : list (list ascii))
    : option (list (list ascii) * list (list ascii + Z)) :=
  match os with
  | [] => Some (pages, [])
  | o :: os =>
      '(pages, r) ← array_call o pages;
      '(pages, rs) ← array_calls os pages;
      Some (pages, r :: rs)
  end.

Record disk_rep (d : DiskManager) (pages : list (list ascii)) : Prop := {
  rep_ok : disk_ok d;
  rep_num : num_pages_ d = Z.of_nat (length pages);
  rep_page i pg : pages !! i = Some pg → disk_page d (Z.of_nat i) = pg
}.

Lemma disk_call_refines o d pages pages' r :
  disk_rep d pages → array_call o pages = Some (pages', r) →
  ∃ d', disk_call o d = (d', Ok r) ∧ disk_rep d' pages'.
Proof.
  intros [Hok Hnum Hpg]. destruct o as [p|p data|]; simpl.
  - destruct (Z.leb_spec 0 p); [|done].
    destruct (pages !! Z.to_nat p) as [pg|] eqn:Hp; simpl; [|done]. intros [= <- <-].
    pose proof (lookup_lt_Some _ _ _ Hp). exists d. split; [|done].
    erewrite bindM_Ok by (apply ReadPage_ok; [done|lia]).
    rewrite <- (Hpg _ _ Hp), Z2Nat.id by done. done.
  - destruct (_ && _) eqn:E; [|done]. intros [= <- <-].
    rewrite !andb_true_iff, Z.leb_le, Z.ltb_lt, Nat.eqb_eq in E. destruct E as [[??]?].
    destruct (WritePage_ok d Hok p data) as (d' & Hw & Hok' & Hn' & Hpg'); [lia|done|].
    exists d'. erewrite bindM_Ok by exact Hw. split; [done|]. split; [done| |].
    + by rewrite length_insert, Hn'.
    + intros i pg Hi. rewrite list_lookup_insert_Some in Hi.
      rewrite Hpg'; [case_decide|].
      * destruct Hi as [(? & ? & ?)|[Hne Hi]]; [done|lia].
      * destruct Hi as [(? & ? & ?)|[Hne Hi]]; [lia|eauto].
      * destruct Hi as [(? & ? & ?)|[Hne Hi%lookup_lt_Some]]; lia.
  - destruct (Z.ltb_spec (Z.of_nat (length pages) + 1) (2 ^ 31)); [|done]. intros [= <- <-].
    destruct (AllocatePage_ok d Hok) as (d' & Ha & Hok' & Hn' & Hz & Hpg'); [lia|].
    exists d'. erewrite bindM_Ok by exact Ha. rewrite Hnum. split; [done|]. split; [done| |].
    + rewrite length_app, Hn', Hnum. simpl. lia.
    + intros i pg [Hi|[Hi Hx]]%lookup_app_Some.
      * rewrite Hpg' by (apply lookup_lt_Some in Hi; lia). eauto.
      * apply list_lookup_singleton_Some in Hx as [? <-].
        rewrite <- Hz, Hnum. f_equal. lia.
Qed.

(** A reopened file of less than 2 GiB gives the same pages. *)
Lemma disk_reopen_ok name d :
  disk_ok d → num_pages_ d * PAGE_SIZE < 2 ^ 31 →
  disk_ok (DiskManager_open name (db_file d)) ∧
  num_pages_ (DiskManager_open name (db_file d)) = num_pages_ d.
Proof.
  intros [Hg Hr Hl] Hlt.
  assert (Hn : num_pages_ (DiskManager_open name (db_file d)) = num_pages_ d).
  { simpl. unfold PAGE_SIZE in *. rewrite Hl, wrap_s32_id by lia. by apply Z.quot_mul. }
  split; [split; [done|by rewrite Hn..]|done].
Qed.
Lemma disk_reopen_rep name d pages :
  disk_rep d pages → num_pages_ d * PAGE_SIZE < 2 ^ 31 →
  disk_rep (DiskManager_open name (db_file d)) pages.
Proof.
  intros [Hok Hnum Hpg] Hlt. destruct (disk_reopen_ok name d Hok Hlt) as [Hok' Hn].
  split; [done|by rewrite Hn|exact Hpg].
Qed.

(** C26. The disk manager is an array of 4 KB pages: any sequence of page reads,
    writes and allocations the array allows (existing pages, 4 KB of data, fewer
    than [2^31] pages) returns exactly what the array
    returns, and, while the file is under 2 GiB, closing and reopening the
    database file gives the same array back. *)
Theorem DiskManager_refines_array os d pages pages' rs :
  disk_rep d pages → array_calls os pages = Some (pages', rs) →
  ∃ d', disk_calls os d = (d', Ok rs) ∧ disk_rep d' pages' ∧
    (Z.of_nat (length pages') * PAGE_SIZE < 2 ^ 31 →
     disk_rep (DiskManager_open (file_name_ d) (db_file d')) pages').
Proof.
  revert d pages rs. induction os as [|o os IH]; intros d pages rs Hrep; simpl.
  - intros [= -> <-]. exists d. split_and!; [done..|]. intros.
    apply disk_reopen_rep; [done|]. by rewrite (rep_num _ _ Hrep).
  - destruct (array_call o pages) as [[pages1 r]|] eqn:Ho; simpl; [|done].
    destruct (array_calls os pages1) as [[pages2 rs']|] eqn:Hos; simpl; [|done].
    intros [= -> <-]. destruct (disk_call_refines _ _ _ _ _ Hrep Ho) as (d1 & H1 & Hrep1).
    destruct (IH _ _ _ Hrep1 Hos) as (d' & H2 & Hrep' & Hre). exists d'.
    erewrite bindM_Ok by exact H1. erewrite bindM_Ok by exact H2.
    split_and!; [done..|]. intros Hlt. apply disk_reopen_rep; [done|].
    by rewrite (rep_num _ _ Hrep').
Qed.

Definition blank_disk : DiskManager := DiskManager_open "mydb.db" [].

Lemma blank_disk_rep : disk_rep blank_disk [].
Proof.
  split; [split; [done|vm_compute; done|done]|done|].
  intros i pg H. by rewrite lookup_nil in H.
Qed.

Lemma DiskManager_refines_array_witness :
  let data := memset PAGE_SIZE "x"%char in
  ∃ d', disk_calls [DAlloc; DAlloc; DWrite 1 data; DRead 1; DRead 0] blank_disk
        = (d', Ok [inr 0; inr 1; inl []; inl data; inl zero_page]) ∧
    disk_rep d' [zero_page; data].
Proof.
  intros data.
  destruct (DiskManager_refines_array [DAlloc; DAlloc; DWrite 1 data; DRead 1; DRead 0]
    blank_disk [] [zero_page; data] [inr 0; inr 1; inl []; inl data; inl zero_page])
    as (d' & H & Hrep & _); [exact blank_disk_rep|vm_compute; reflexivity|].
  exists d'. split; [exact H|exact Hrep].
Defined.

(** Reopening a database file of 2 to 4 GiB miscounts its pages: the file
    length is cut to [int] before the division, so the page count comes out
    negative although the file holds that many pages. *)
Theorem DiskManager_reopen_2GiB name d :
  disk_ok d → 2 ^ 31 ≤ num_pages_ d * PAGE_SIZE < 2 ^ 32 →
  num_pages_ (DiskManager_open name (db_file d)) = num_pages_ d - 2 ^ 32 / PAGE_SIZE ∧
  num_pages_ (DiskManager_open name (db_file d)) < 0.
Proof.
  intros [Hg Hr Hl] Hn. cbn [DiskManager_open num_pages_].
  assert (wrap_s32 (Z.of_nat (length (db_file d))) = (num_pages_ d - 2 ^ 32 / PAGE_SIZE) * PAGE_SIZE) as ->.
  { rewrite Hl. unfold wrap_s32. change (2 ^ 32 / PAGE_SIZE) with 1048576.
    rewrite (Z.mod_eq _ (2 ^ 32)) by lia.
    replace ((num_pages_ d * PAGE_SIZE + 2 ^ 31) / 2 ^ 32) with 1.
    - unfold PAGE_SIZE. lia.
    - apply Z.div_unique with (num_pages_ d * PAGE_SIZE - 2 ^ 31); lia. }
  rewrite Z.quot_mul by done. change (2 ^ 32 / PAGE_SIZE) with 1048576.
  unfold PAGE_SIZE in *. lia.
Qed.

(** C5 witness: half a million blank pages. *)
Lemma DiskManager_reopen_2GiB_witness :
  let d := mkDiskManager "mydb.db" (replicate (Z.to_nat (2 ^ 31)) NUL) false (2 ^ 19) in
  num_pages_ (DiskManager_open "mydb.db" (db_file d)) = - 2 ^ 19.
Proof.
  intros d.
  assert (Hl : Z.of_nat (length (db_file d)) = 2 ^ 31).
  { unfold d. cbn [db_file]. rewrite length_replicate. apply Z2Nat.id. lia. }
  assert (Hn : num_pages_ d = 2 ^ 19) by reflexivity.
  assert (Hb : db_bad d = false) by reflexivity.
  clearbody d.
  assert (Hd : disk_ok d).
  { split; [exact Hb|rewrite Hn; lia|rewrite Hl, Hn; reflexivity]. }
  rewrite (proj1 (DiskManager_reopen_2GiB "mydb.db" d Hd
    ltac:(rewrite Hn; unfold PAGE_SIZE; lia))), Hn.
  reflexivity.
Defined.
