(* ===== verification/LRUReplacer.v ===== *)
(** * LRU replacer: [src/src/storage/lru_replacer.h], [lru_replacer.cpp]

    The doubly linked [std::list] is a list of nodes, most recent first; a node
    has an address, so that [lru_map_] holds iterators (addresses) as the code
    does and erasing through a dangling iterator is visible as undefined
    behaviour.  [lru_next] is the allocator's next fresh address. *)
From stdpp Require Import base gmap list sorting.
From Stdlib Require Import ZArith Lia.
From S2P Require Import Prelude.

Record LRUReplacer := mkLRU {
  num_frames_ : Z;
  lru_list_ : list (nat * Z);
  lru_map_ : gmap Z nat;
  evictable_ : gset Z;
  lru_next : nat
}.

Definition LRUReplacer_ctor (num_frames : Z) : LRUReplacer := mkLRU num_frames [] ∅ ∅ 0.

(** [lru_list_.erase(it)]: [None] when no node has that address. *)
Fixpoint list_erase (it : nat) (l : list (nat * Z)) : option (list (nat * Z)) :=
  match l with
  | [] => None
  | n :: l => if (n.1 =? it)%nat then Some l else cons n <$> list_erase it l
  end.

(** The reverse scan of [Evict]: first evictable node from the back. *)
Definition find_victim (ev : gset Z) (l : list (nat * Z)) : option (nat * Z) :=
  head (filter (λ n, n.2 ∈ ev) (reverse l)).

(** [Evict(&frame_id)]: the frame, or [None] for [return false]. *)
Definition Evict : M LRUReplacer (option Z) :=
  r <- getM ;;
  match find_victim (evictable_ r) (lru_list_ r) with
  | Some (it, f) =>
      l <- defM (list_erase it (lru_list_ r)) ;;
      putM (mkLRU (num_frames_ r) l (delete f (lru_map_ r)) (evictable_ r ∖ {[f]}) (lru_next r)) ;;
      retM (Some f)
  | None => retM None
  end.

Definition RecordAccess (frame_id : Z) : M LRUReplacer unit :=
  r <- getM ;;
  l <- (match lru_map_ r !! frame_id with
        | Some it => defM (list_erase it (lru_list_ r))
        | None => retM (lru_list_ r)
        end) ;;
  putM (mkLRU (num_frames_ r) ((lru_next r, frame_id) :: l)
          (<[frame_id := lru_next r]> (lru_map_ r)) (evictable_ r) (S (lru_next r))).

Definition SetEvictable (frame_id : Z) (evictable : bool) : M LRUReplacer unit :=
  r <- getM ;;
  putM (mkLRU (num_frames_ r) (lru_list_ r) (lru_map_ r)
          (if evictable then {[frame_id]} ∪ evictable_ r else evictable_ r ∖ {[frame_id]})
          (lru_next r)).

Definition Remove (frame_id : Z) : M LRUReplacer unit :=
  r <- getM ;;
  lm <- (match lru_map_ r !! frame_id with
         | Some it =>
             l <- defM (list_erase it (lru_list_ r)) ;;
             retM (l, delete frame_id (lru_map_ r))
         | None => retM (lru_list_ r, lru_map_ r)
         end) ;;
  putM (mkLRU (num_frames_ r) lm.1 lm.2 (evictable_ r ∖ {[frame_id]}) (lru_next r)).

Definition Size (r : LRUReplacer) : nat := size (evictable_ r).

(** ** Invariant: the iterators are exactly the nodes of the list *)
Definition recency (r : LRUReplacer) : list Z := (lru_list_ r).*2.

Record lru_wf (r : LRUReplacer) : Prop := {
  lru_nodup : NoDup (lru_list_ r).*2;
  lru_addr_nodup : NoDup (lru_list_ r).*1;
  lru_iter f it : lru_map_ r !! f = Some it ↔ (it, f) ∈ lru_list_ r;
  lru_fresh it f : (it, f) ∈ lru_list_ r → (it < lru_next r)%nat
}.

(** The abstract replacer: frames by recency (most recent first) and the set of
    evictable frames. *)
Record alru := mkALRU { al_order : list Z; al_ev : gset Z }.
Definition lru_abs (r : LRUReplacer) : alru := mkALRU (recency r) (evictable_ r).

Definition al_remove (f : Z) (l : list Z) : list Z := filter (λ g, g ≠ f) l.
Definition al_evict (a : alru) : alru * option Z :=
  match last (filter (λ f, f ∈ al_ev a) (al_order a)) with
  | Some f => (mkALRU (al_remove f (al_order a)) (al_ev a ∖ {[f]}), Some f)
  | None => (a, None)
  end.
Definition al_access (f : Z) (a : alru) : alru :=
  mkALRU (f :: al_remove f (al_order a)) (al_ev a).
Definition al_set_evictable (f : Z) (b : bool) (a : alru) : alru :=
  mkALRU (al_order a) (if b then {[f]} ∪ al_ev a else al_ev a ∖ {[f]}).
Definition al_remove_frame (f : Z) (a : alru) : alru :=
  mkALRU (al_remove f (al_order a)) (al_ev a ∖ {[f]}).

(** ** Lemmas *)
Lemma al_remove_id f l : f ∉ l → al_remove f l = l.
Proof.
  induction l as [|g l IH]; intros Hf; [done|]. unfold al_remove in *.
  rewrite filter_cons, decide_True by set_solver. f_equal. apply IH. set_solver.
Qed.

Lemma elem_of_al_remove g f l : g ∈ al_remove f l ↔ g ≠ f ∧ g ∈ l.
Proof. unfold al_remove. by rewrite list_elem_of_filter. Qed.

Lemma filter_snd (P : Z → Prop) `{∀ x, Decision (P x)} (l : list (nat * Z)) :
  filter P l.*2 = (filter (λ n, P n.2) l).*2.
Proof.
  induction l as [|n l IH]; [done|]. cbn [fmap list_fmap]. rewrite !filter_cons.
  case_decide; cbn [fmap list_fmap]; by rewrite IH.
Qed.

Lemma list_erase_spec it f l :
  NoDup l.*1 → NoDup l.*2 → (it, f) ∈ l →
  ∃ l', list_erase it l = Some l' ∧ l'.*2 = al_remove f l.*2 ∧ l' `sublist_of` l ∧
    ∀ n, n ∈ l' ↔ n ∈ l ∧ n.2 ≠ f.
Proof.
  induction l as [|[a g] l IH]; cbn [fmap list_fmap]; intros Ha Hf Hin;
    [by apply elem_of_nil in Hin|].
  apply NoDup_cons in Ha as [Ha1 Ha2]. apply NoDup_cons in Hf as [Hf1 Hf2].
  simpl. destruct (Nat.eqb_spec a it) as [->|Hne].
  - assert (g = f) as ->.
    { apply elem_of_cons in Hin as [[= ->]|Hin]; [done|].
      destruct Ha1. apply list_elem_of_fmap. by exists (it, f). }
    exists l. split_and!; [done| |by constructor|].
    + unfold al_remove. rewrite filter_cons, decide_False by naive_solver.
      symmetry. by apply al_remove_id.
    + intros [b h]. rewrite elem_of_cons. split.
      * intros Hb. split; [by right|]. simpl. intros ->. destruct Hf1.
        apply list_elem_of_fmap. by exists (b, f).
      * intros [[[= -> ->]|?] ?]; [done|done].
  - apply elem_of_cons in Hin as [[= -> ->]|Hin]; [done|].
    assert (g ≠ f). { intros ->. destruct Hf1. apply list_elem_of_fmap. by exists (it, f). }
    destruct (IH Ha2 Hf2 Hin) as (l' & -> & H2 & Hsub & Hmem).
    exists ((a, g) :: l'). split_and!; [done| |by constructor|].
    + unfold al_remove. rewrite filter_cons, decide_True by done.
      cbn [fmap list_fmap]. by rewrite H2.
    + intros n. rewrite !elem_of_cons, Hmem. split; [|naive_solver].
      intros [->|?]; naive_solver.
Qed.

(** [find_victim] is the least recently used evictable frame. *)
Lemma find_victim_spec ev l :
  find_victim ev l = last (filter (λ n, n.2 ∈ ev) l).
Proof. unfold find_victim. by rewrite filter_reverse, head_reverse. Qed.

Lemma find_victim_snd ev l :
  snd <$> find_victim ev l = last (filter (λ f, f ∈ ev) l.*2).
Proof. rewrite find_victim_spec, filter_snd. by rewrite fmap_last. Qed.

Lemma find_victim_elem ev l it f :
  find_victim ev l = Some (it, f) → (it, f) ∈ l ∧ f ∈ ev.
Proof.
  rewrite find_victim_spec. intros H%last_Some_elem_of.
  apply list_elem_of_filter in H. naive_solver.
Qed.

Section wf.
Context (r : LRUReplacer) (Hwf : lru_wf r).

(** Dropping the node of [f] together with its iterator. *)
Lemma lru_drop it f ev :
  (it, f) ∈ lru_list_ r →
  ∃ l', list_erase it (lru_list_ r) = Some l' ∧ l'.*2 = al_remove f (recency r) ∧
    lru_wf (mkLRU (num_frames_ r) l' (delete f (lru_map_ r)) ev (lru_next r)).
Proof.
  destruct Hwf as [Hn Ha Hi Hf]. intros Hin.
  destruct (list_erase_spec it f (lru_list_ r)) as (l' & Hl & H2 & Hsub & Hmem); [done..|].
  exists l'. split_and!; [done..|]. split; simpl.
  - rewrite H2. by apply NoDup_filter.
  - eapply sublist_NoDup; [exact Ha|]. by apply (fmap_sublist fst).
  - intros g k. rewrite lookup_delete_Some, Hi, Hmem. simpl. naive_solver.
  - intros k g [? _]%Hmem. eauto.
Qed.

Lemma Evict_refines :
  ∃ r', Evict r = (r', Ok (al_evict (lru_abs r)).2) ∧
    lru_abs r' = (al_evict (lru_abs r)).1 ∧ lru_wf r'.
Proof.
  unfold Evict. rewrite bindM_get. unfold al_evict, lru_abs. cbn [al_order al_ev].
  unfold recency. rewrite <- find_victim_snd.
  destruct (find_victim _ _) as [[it f]|] eqn:Hv; simpl; [|by exists r].
  destruct (find_victim_elem _ _ _ _ Hv) as [Hin _].
  destruct (lru_drop it f (evictable_ r ∖ {[f]}) Hin) as (l' & Hl & H2 & Hwf').
  rewrite (bindM_def _ _ _ _ Hl). eexists. split_and!; [done| |done].
  unfold lru_abs, recency. simpl. by rewrite H2.
Qed.

Lemma RecordAccess_refines f :
  ∃ r', RecordAccess f r = (r', Ok tt) ∧
    lru_abs r' = al_access f (lru_abs r) ∧ lru_wf r'.
Proof.
  unfold RecordAccess. rewrite bindM_get.
  assert (∃ l, (match lru_map_ r !! f with
      | Some it => defM (list_erase it (lru_list_ r))
      | None => retM (lru_list_ r) end : M LRUReplacer _) r = (r, Ok l) ∧
    l.*2 = al_remove f (recency r) ∧
    lru_wf (mkLRU (num_frames_ r) l (delete f (lru_map_ r)) (evictable_ r) (lru_next r)))
    as (l & Hm & H2 & Hwf').
  { destruct (lru_map_ r !! f) as [it|] eqn:Hit.
    - apply (lru_iter r Hwf) in Hit.
      destruct (lru_drop it f (evictable_ r) Hit) as (l & Hl & H2 & Hw).
      exists l. by rewrite Hl.
    - exists (lru_list_ r). rewrite delete_id by done. split_and!; [done| |by destruct r].
      rewrite al_remove_id; [done|]. intros ([it g] & -> & Hin)%list_elem_of_fmap.
      apply (lru_iter r Hwf) in Hin. simpl in *. congruence. }
  rewrite (bindM_Ok _ _ _ _ _ Hm). eexists. split_and!; [done| |].
  { unfold lru_abs, al_access, recency in *. cbn [lru_list_ fmap list_fmap snd al_order al_ev].
    by rewrite H2. }
  destruct Hwf' as [Hn Ha Hi Hf]; cbn [lru_list_ lru_map_ lru_next] in *.
  split; cbn [lru_list_ lru_map_ lru_next fmap list_fmap fst snd].
  - constructor; [|done]. rewrite H2, elem_of_al_remove. naive_solver.
  - constructor; [|done]. intros ([it g] & ? & Hin)%list_elem_of_fmap. simpl in *.
    subst it. apply Hf in Hin. lia.
  - intros g it. rewrite elem_of_cons, <- Hi, lookup_insert_Some, lookup_delete_Some.
    naive_solver.
  - intros it g [[= -> ->]|Hin]%elem_of_cons; [lia|]. apply Hf in Hin. lia.
Qed.

Lemma SetEvictable_refines f b :
  ∃ r', SetEvictable f b r = (r', Ok tt) ∧
    lru_abs r' = al_set_evictable f b (lru_abs r) ∧ lru_wf r'.
Proof. eexists. split_and!; [done..|]. by destruct Hwf. Qed.

Lemma Remove_refines f :
  ∃ r', Remove f r = (r', Ok tt) ∧
    lru_abs r' = al_remove_frame f (lru_abs r) ∧ lru_wf r'.
Proof.
  unfold Remove. rewrite bindM_get. destruct (lru_map_ r !! f) as [it|] eqn:Hit.
  - apply (lru_iter r Hwf) in Hit.
    destruct (lru_drop it f (evictable_ r ∖ {[f]}) Hit) as (l & Hl & H2 & Hw).
    erewrite bindM_Ok by (rewrite (bindM_def _ _ _ _ Hl); done).
    eexists. split_and!; [done| |done]. unfold lru_abs, recency. simpl. by rewrite H2.
  - rewrite bindM_ret. eexists. split_and!; [done| |].
    + unfold lru_abs, recency, al_remove_frame. simpl. f_equal. symmetry.
      apply al_remove_id. intros ([it g] & -> & Hin)%list_elem_of_fmap.
      apply (lru_iter r Hwf) in Hin. simpl in *. congruence.
    + destruct Hwf as [Hn Ha Hi Hf]. by split.
Qed.
End wf.

Lemma LRUReplacer_ctor_wf n : lru_wf (LRUReplacer_ctor n).
Proof.
  split; simpl; [constructor..| |]; [intros f it|intros it f].
  - rewrite lookup_empty, elem_of_nil. done.
  - by rewrite elem_of_nil.
Qed.

(** ** Histories *)
Inductive lru_op :=
  | OAccess (f : Z)
  | OSetEvictable (f : Z) (b : bool)
  | ORemove (f : Z)
  | OEvict.

Definition lru_call (o : lru_op) : M LRUReplacer (option Z) :=
  match o with
  | OAccess f => RecordAccess f ;; retM None
  | OSetEvictable f b => SetEvictable f b ;; retM None
  | ORemove f => Remove f ;; retM None
  | OEvict => Evict
  end.
(** The replacer after the calls of a history, oldest first. *)
Fixpoint lru_calls (h : list lru_op) : M LRUReplacer unit :=
  match h with
  | [] => retM tt
  | o :: h => lru_call o ;; lru_calls h
  end.

(** The same calls with what each returns. *)
Fixpoint lru_results (h : list lru_op) : M LRUReplacer (list (option Z)) :=
  match h with
  | [] => retM []
  | o :: h => v <- lru_call o ;; vs <- lru_results h ;; retM (v :: vs)
  end.

Definition al_call (o : lru_op) (a : alru) : alru * option Z :=
  match o with
  | OAccess f => (al_access f a, None)
  | OSetEvictable f b => (al_set_evictable f b a, None)
  | ORemove f => (al_remove_frame f a, None)
  | OEvict => al_evict a
  end.

Fixpoint al_results (h : list lru_op) (a : alru) : alru * list (option Z) :=
  match h with
  | [] => (a, [])
  | o :: h =>
      let '(a, v) := al_call o a in
      let '(a, vs) := al_results h a in (a, v :: vs)
  end.

Lemma lru_call_refines o r :
  lru_wf r →
  ∃ r', lru_call o r = (r', Ok (al_call o (lru_abs r)).2) ∧
    lru_abs r' = (al_call o (lru_abs r)).1 ∧ lru_wf r'.
Proof.
  intros Hwf. destruct o as [f|f b|f|]; simpl.
  - destruct (RecordAccess_refines r Hwf f) as (r' & H & Ha & Hw). exists r'.
    by rewrite (bindM_Ok _ _ _ _ _ H).
  - destruct (SetEvictable_refines r Hwf f b) as (r' & H & Ha & Hw). exists r'.
    by rewrite (bindM_Ok _ _ _ _ _ H).
  - destruct (Remove_refines r Hwf f) as (r' & H & Ha & Hw). exists r'.
    by rewrite (bindM_Ok _ _ _ _ _ H).
  - apply Evict_refines. done.
Qed.

(** C24. The replacer refines the abstract recency list: from a well-formed
    state any sequence of calls returns what the abstract replacer returns,
    leaves a well-formed state that abstracts to the abstract result, and never
    follows a dangling list iterator. *)
Theorem LRUReplacer_refines h r :
  lru_wf r →
  ∃ r' vs, lru_results h r = (r', Ok vs) ∧
    al_results h (lru_abs r) = (lru_abs r', vs) ∧ lru_wf r'.
Proof.
  revert r. induction h as [|o h IH]; intros r Hwf; simpl; [by exists r, []|].
  destruct (lru_call_refines o r Hwf) as (r1 & H1 & Ha & Hw1).
  destruct (IH r1 Hw1) as (r' & vs & H & Hvs & Hw). exists r', ((al_call o (lru_abs r)).2 :: vs).
  rewrite (bindM_Ok _ _ _ _ _ H1), (bindM_Ok _ _ _ _ _ H).
  split_and!; [done| |done]. destruct (al_call o (lru_abs r)) as [a v]. simpl in *. subst a.
  by rewrite Hvs.
Qed.

Lemma LRUReplacer_refines_witness :
  ∃ r', lru_results [OAccess 1; OAccess 2; OSetEvictable 1 true; OSetEvictable 2 true;
      OAccess 1; OEvict; OEvict; OEvict] (LRUReplacer_ctor 3)
    = (r', Ok [None; None; None; None; None; Some 2; Some 1; None]).
Proof.
  destruct (LRUReplacer_refines [OAccess 1; OAccess 2; OSetEvictable 1 true;
    OSetEvictable 2 true; OAccess 1; OEvict; OEvict; OEvict] (LRUReplacer_ctor 3))
    as (r' & vs & H & Hvs & _); [exact (LRUReplacer_ctor_wf 3)|].
  exists r'. rewrite H. apply (f_equal snd) in Hvs. vm_compute in Hvs. by subst vs.
Defined.

(** Index of the last access to [f] in a history. *)
Fixpoint last_access_from (i : nat) (h : list lru_op) (f : Z) : option nat :=
  match h with
  | [] => None
  | o :: h =>
      match last_access_from (S i) h f with
      | Some k => Some k
      | None => match o with OAccess g => if decide (g = f) then Some i else None | _ => None end
      end
  end.
Definition last_access : list lru_op → Z → option nat := last_access_from 0.

Lemma last_access_from_snoc i h o f :
  last_access_from i (h ++ [o]) f =
  match o with
  | OAccess g => if decide (g = f) then Some (i + length h)%nat else last_access_from i h f
  | _ => last_access_from i h f
  end.
Proof.
  revert i. induction h as [|p h IH]; intros i; simpl.
  { rewrite Nat.add_0_r. by destruct o. }
  rewrite IH. destruct o as [g| | |]; [case_decide|..]; try done. f_equal. lia.
Qed.

Lemma last_access_from_lt i h f k : last_access_from i h f = Some k → (k < i + length h)%nat.
Proof.
  revert i. induction h as [|o h IH]; intros i; simpl; [done|].
  destruct (last_access_from (S i) h f) as [k'|] eqn:E.
  - intros [= ->]. apply IH in E. lia.
  - destruct o; [case_decide|..]; naive_solver lia.
Qed.

(** [f] was last accessed after [g]. *)
Definition accessed_after (h : list lru_op) (f g : Z) : Prop :=
  ∃ i j, last_access h f = Some i ∧ last_access h g = Some j ∧ (j < i)%nat.

(** The recency list is sorted by last access. *)
Lemma StronglySorted_filter {A} (R : A → A → Prop) P `{∀ x, Decision (P x)} l :
  StronglySorted R l → StronglySorted R (filter P l).
Proof.
  induction 1 as [|x l Hl IH Hx]; [constructor|]. rewrite filter_cons.
  case_decide; [|done]. constructor; [done|].
  rewrite Forall_forall in Hx |- *. intros y [_ ?]%list_elem_of_filter. auto.
Qed.

Definition order_sorted (h : list lru_op) (l : list Z) : Prop :=
  StronglySorted (accessed_after h) l ∧ Forall (λ f, is_Some (last_access h f)) l.

Lemma order_sorted_filter h P `{∀ x : Z, Decision (P x)} l :
  order_sorted h l → order_sorted h (filter P l).
Proof.
  intros [Hs Hf]. split; [by apply StronglySorted_filter|].
  rewrite Forall_forall in Hf |- *. intros y [_ ?]%list_elem_of_filter. auto.
Qed.

Lemma order_sorted_other h o l :
  (∀ f, o ≠ OAccess f) → order_sorted h l → order_sorted (h ++ [o]) l.
Proof.
  intros Ho. assert (Heq : ∀ f, last_access (h ++ [o]) f = last_access h f).
  { intros f. unfold last_access. rewrite last_access_from_snoc.
    destruct o as [g| | |]; [by destruct (Ho g)|done..]. }
  intros [Hs Hf]. split.
  - induction Hs as [|x l Hl IH Hx]; constructor.
    + apply IH. by apply Forall_cons in Hf as [_ ?].
    + eapply Forall_impl; [exact Hx|]. intros y (i & j & ? & ? & ?). exists i, j. by rewrite !Heq.
  - eapply Forall_impl; [exact Hf|]. intros y. by rewrite Heq.
Qed.

Lemma order_sorted_access h g l :
  order_sorted h l → order_sorted (h ++ [OAccess g]) (g :: al_remove g l).
Proof.
  intros Hl. apply (order_sorted_filter h (λ f, f ≠ g)) in Hl as [Hs Hf].
  fold (al_remove g l) in Hs, Hf.
  assert (Hne : ∀ f, f ∈ al_remove g l → last_access (h ++ [OAccess g]) f = last_access h f).
  { intros f [? _]%elem_of_al_remove. unfold last_access.
    by rewrite last_access_from_snoc, decide_False by congruence. }
  assert (Hg : last_access (h ++ [OAccess g]) g = Some (length h)).
  { unfold last_access. by rewrite last_access_from_snoc, decide_True. }
  rewrite Forall_forall in Hf. split.
  - constructor.
    + clear Hf. revert Hs Hne. generalize (al_remove g l). intros k0 Hs Hne.
      induction Hs as [|x k Hk IH Hx]; constructor.
      { apply IH. intros; apply Hne; by right. }
      rewrite Forall_forall in Hx |- *. intros y Hy. destruct (Hx y Hy) as (i & j & ? & ? & ?).
      exists i, j. rewrite (Hne x), (Hne y) by set_solver. done.
    + apply Forall_forall. intros f Hin. destruct (Hf f Hin) as [k Hk].
      exists (length h), k. rewrite (Hne f) by done. split_and!; [done..|].
      apply last_access_from_lt in Hk. simpl in Hk. lia.
  - constructor; [by eexists|]. apply Forall_forall. intros f Hin. rewrite (Hne f) by done. auto.
Qed.

Definition lru_inv (h : list lru_op) (r : LRUReplacer) : Prop :=
  lru_wf r ∧ order_sorted h (recency r).

Lemma lru_call_inv h o r :
  lru_inv h r → ∃ r' v, lru_call o r = (r', Ok v) ∧ lru_inv (h ++ [o]) r'.
Proof.
  intros [Hwf Hs]. destruct (lru_call_refines o r Hwf) as (r' & H & Ha & Hw).
  exists r', (al_call o (lru_abs r)).2. split; [done|]. split; [done|].
  apply (f_equal al_order) in Ha. change (al_order (lru_abs r')) with (recency r') in Ha.
  rewrite Ha. destruct o as [f|f b|f|]; simpl.
  - by apply order_sorted_access.
  - by apply order_sorted_other.
  - apply order_sorted_other; [done|]. by apply order_sorted_filter.
  - apply order_sorted_other; [done|]. unfold al_evict. destruct (last _); simpl; [|done].
    by apply order_sorted_filter.
Qed.

Lemma lru_calls_inv h h0 r :
  lru_inv h0 r → ∃ r', lru_calls h r = (r', Ok tt) ∧ lru_inv (h0 ++ h) r'.
Proof.
  revert h0 r. induction h as [|o h IH]; intros h0 r Hi; simpl.
  { exists r. by rewrite app_nil_r. }
  destruct (lru_call_inv h0 o r Hi) as (r1 & v & H & Hi1). rewrite (bindM_Ok _ _ _ _ _ H).
  destruct (IH _ _ Hi1) as (r' & H' & Hi'). exists r'. by rewrite <- app_assoc in Hi'.
Qed.

(** C25. Least recently used: after any history of calls on a fresh replacer,
    [Evict] fails only when no tracked frame is evictable, and otherwise returns
    an evictable frame that every other evictable frame in the list was accessed
    after. *)
Theorem Evict_least_recently_used n h :
  ∃ r, lru_calls h (LRUReplacer_ctor n) = (r, Ok tt) ∧
    ∃ r' v, Evict r = (r', Ok v) ∧
      match v with
      | None => ∀ g, g ∈ recency r → g ∉ evictable_ r
      | Some f =>
          f ∈ recency r ∧ f ∈ evictable_ r ∧ (f ∉ recency r') ∧ (f ∉ evictable_ r') ∧
          ∀ g, g ∈ recency r → g ∈ evictable_ r → g ≠ f → accessed_after h g f
      end.
Proof.
  destruct (lru_calls_inv h [] (LRUReplacer_ctor n)) as (r & Hr & Hwf & Hs & _).
  { split; [apply LRUReplacer_ctor_wf|]. split; constructor. }
  exists r. split; [exact Hr|].
  destruct (Evict_refines r Hwf) as (r' & He & Ha & _). exists r', (al_evict (lru_abs r)).2.
  split; [done|]. unfold al_evict in *. cbn [lru_abs al_order al_ev] in *.
  destruct (last (filter _ (recency r))) as [f|] eqn:Hl; simpl in *.
  - assert (Hin : f ∈ filter (λ f, f ∈ evictable_ r) (recency r)) by by apply last_Some_elem_of.
    apply list_elem_of_filter in Hin as [Hev Hin]. injection Ha as Ho Hv.
    split_and!; [done..| | |].
    + rewrite Ho, elem_of_al_remove. naive_solver.
    + rewrite Hv. set_solver.
    + intros g Hg Hge Hne. apply last_Some in Hl as [k Hk].
      assert (g ∈ k).
      { assert (g ∈ filter (λ f, f ∈ evictable_ r) (recency r)) as Hgf
          by by apply list_elem_of_filter.
        rewrite Hk in Hgf. set_solver. }
      apply (StronglySorted_filter _ (λ f, f ∈ evictable_ r)) in Hs. rewrite Hk in Hs.
      eapply StronglySorted_app_1_elem_of; [exact Hs|done|set_solver].
  - intros g Hg Hge. apply last_None in Hl.
    assert (g ∈ filter (λ f, f ∈ evictable_ r) (recency r)) as Hgf by by apply list_elem_of_filter.
    rewrite Hl in Hgf. by apply elem_of_nil in Hgf.
Qed.
