(* ===== verification/PageCache.v ===== *)
(** * Interface between the buffer pool and its clients

    What the heap file and the B+ tree use of the buffer pool, as a class of
    operations, and what they rely on, as a class of laws.  The laws speak of
    two ghost values: the contents of every allocated page, and the pages the
    clients hold pinned, each with its pin count and whether it was written
    since the last time it was declared dirty. *)
From stdpp Require Import base gmap list strings.
From Stdlib Require Import ZArith Lia Ascii.
From S2P Require Import Prelude Types.

Abbreviation pages := (gmap Z (list ascii)).
Abbreviation pinmap := (gmap Z (nat * bool)).

Definition pin_of (pins : pinmap) (pid : Z) : nat := default 0%nat (fst <$> pins !! pid).
Definition pending (pins : pinmap) (pid : Z) : bool := default false (snd <$> pins !! pid).

Definition pin_inc (pins : pinmap) (pid : Z) : pinmap :=
  <[pid := (S (pin_of pins pid), pending pins pid)]> pins.
Definition pin_write (pins : pinmap) (pid : Z) : pinmap :=
  <[pid := (pin_of pins pid, true)]> pins.
Definition pin_dec (pins : pinmap) (pid : Z) (dirty : bool) : pinmap :=
  match pins !! pid with
  | Some (S (S n), w) => <[pid := (S n, w && negb dirty)]> pins
  | _ => delete pid pins
  end.

(** The operations. A [Page*] is a frame number. *)
Class PageCache (S : Type) := {
  pc_new : M S (option (Z * Z));
  pc_fetch : Z → M S (option Z);
  pc_unpin : Z → bool → M S bool;
  pc_read : Z → M S (list ascii);
  pc_write : Z → list ascii → M S unit
}.

(** Assigning through the frame pointer. *)
Definition poke {S} `{PageCache S} (fid : Z) (f : list ascii → option (list ascii)) : M S unit :=
  data <- pc_read fid ;; data <- defM (f data) ;; pc_write fid data.

(** The laws. *)
Class PageCacheSpec (S : Type) `{PageCache S} := {
  pc_rep : S → pages → pinmap → Prop;
  pc_cap : S → nat;
  (** The page is in that frame. *)
  pc_at : S → Z → Z → Prop;

  pc_rep_pinned s st pins pid n w :
    pc_rep s st pins → pins !! pid = Some (n, w) →
    (0 < n)%nat ∧ ∃ d, st !! pid = Some d ∧ length d = Z.to_nat PAGE_SIZE;
  pc_rep_page s st pins pid d :
    pc_rep s st pins → st !! pid = Some d →
    0 ≤ pid < Z.of_nat (size st) ∧ length d = Z.to_nat PAGE_SIZE;
  pc_rep_dom s st pins pid :
    pc_rep s st pins → 0 ≤ pid < Z.of_nat (size st) → is_Some (st !! pid);
  pc_rep_size s st pins : pc_rep s st pins → (size pins ≤ pc_cap s)%nat;

  (** [FetchPage]: pins the page, or fails and changes nothing. It succeeds when
      the page is pinned already or a frame is not pinned. *)
  pc_fetch_spec s st pins pid :
    pc_rep s st pins → is_Some (st !! pid) → Z.of_nat (pin_of pins pid) + 1 < 2 ^ 31 →
    ∃ s' r, pc_fetch pid s = (s', Ok r) ∧ pc_cap s' = pc_cap s ∧
      (∀ q g, is_Some (pins !! q) → pc_at s q g → pc_at s' q g) ∧
      match r with
      | Some fid => pc_rep s' st (pin_inc pins pid) ∧ pc_at s' pid fid
      | None => pc_rep s' st pins ∧ pins !! pid = None ∧ (pc_cap s ≤ size pins)%nat
      end;

  (** [NewPage]: allocates the next page id, zeroed and pinned, or fails. *)
  pc_new_spec s st pins :
    pc_rep s st pins → Z.of_nat (size st) + 1 < 2 ^ 31 →
    ∃ s' r, pc_new s = (s', Ok r) ∧ pc_cap s' = pc_cap s ∧
      (∀ q g, is_Some (pins !! q) → pc_at s q g → pc_at s' q g) ∧
      match r with
      | Some (pid, fid) =>
          pid = Z.of_nat (size st) ∧ st !! pid = None ∧
          pc_rep s' (<[pid := memset PAGE_SIZE NUL]> st) (pin_inc pins pid) ∧ pc_at s' pid fid
      | None => pc_rep s' st pins ∧ (pc_cap s ≤ size pins)%nat
      end;

  (** [UnpinPage]: the last unpin must have declared every write. *)
  pc_unpin_spec s st pins pid n w dirty :
    pc_rep s st pins → pins !! pid = Some (n, w) →
    (n = 1%nat → w && negb dirty = false) →
    ∃ s', pc_unpin pid dirty s = (s', Ok true) ∧ pc_cap s' = pc_cap s ∧
      (∀ q g, pc_at s q g → pc_at s' q g) ∧
      pc_rep s' st (pin_dec pins pid dirty);

  (** Access through the frame pointer of a pinned page. *)
  pc_read_spec s st pins pid fid :
    pc_rep s st pins → is_Some (pins !! pid) → pc_at s pid fid →
    ∃ d, st !! pid = Some d ∧ pc_read fid s = (s, Ok d);
  pc_write_spec s st pins pid fid d :
    pc_rep s st pins → is_Some (pins !! pid) → pc_at s pid fid →
    length d = Z.to_nat PAGE_SIZE →
    ∃ s', pc_write fid d s = (s', Ok tt) ∧ pc_cap s' = pc_cap s ∧
      (∀ q g, pc_at s q g → pc_at s' q g) ∧
      pc_rep s' (<[pid := d]> st) (pin_write pins pid)
}.

(** ** Ghost pins *)
Lemma pin_of_None pins pid : pins !! pid = None → pin_of pins pid = 0%nat.
Proof. unfold pin_of. by intros ->. Qed.
Lemma pin_of_Some (pins : pinmap) pid n w : pins !! pid = Some (n, w) → pin_of pins pid = n.
Proof. unfold pin_of. by intros ->. Qed.
Lemma pending_None pins pid : pins !! pid = None → pending pins pid = false.
Proof. unfold pending. by intros ->. Qed.
Lemma pending_Some (pins : pinmap) pid n w : pins !! pid = Some (n, w) → pending pins pid = w.
Proof. unfold pending. by intros ->. Qed.

Lemma pin_of_insert (pins : pinmap) q pid v :
  pin_of (<[pid := v]> pins) q = if decide (pid = q) then v.1 else pin_of pins q.
Proof. unfold pin_of. rewrite lookup_insert. by case_decide. Qed.
Lemma pending_insert (pins : pinmap) q pid v :
  pending (<[pid := v]> pins) q = if decide (pid = q) then v.2 else pending pins q.
Proof. unfold pending. rewrite lookup_insert. by case_decide. Qed.
Lemma pin_of_delete (pins : pinmap) q pid :
  pin_of (delete pid pins) q = if decide (pid = q) then 0%nat else pin_of pins q.
Proof. unfold pin_of. rewrite lookup_delete. by case_decide. Qed.
Lemma pending_delete (pins : pinmap) q pid :
  pending (delete pid pins) q = if decide (pid = q) then false else pending pins q.
Proof. unfold pending. rewrite lookup_delete. by case_decide. Qed.

Lemma pin_inc_lookup pins pid : is_Some (pin_inc pins pid !! pid).
Proof. unfold pin_inc. rewrite lookup_insert_eq. eauto. Qed.
Lemma pin_write_lookup pins pid q : is_Some (pins !! q) → is_Some (pin_write pins pid !! q).
Proof. unfold pin_write. rewrite lookup_insert. case_decide; eauto. Qed.
Lemma pin_write_write pins pid : pin_write (pin_write pins pid) pid = pin_write pins pid.
Proof.
  unfold pin_write, pin_of. rewrite lookup_insert_eq. simpl. by rewrite insert_insert_eq.
Qed.

(** Writes to one page commute with pinning and writing another. *)
Lemma pin_write_inc_ne pins p q :
  p ≠ q →
  pin_write (pin_write (pin_inc pins q) q) p = pin_write (pin_inc (pin_write pins p) q) q.
Proof.
  intros Hne. unfold pin_write, pin_inc.
  rewrite !pin_of_insert, !pending_insert. repeat case_decide; try done. cbn.
  rewrite !insert_insert_eq. by rewrite insert_insert_ne.
Qed.

(** Fetching and releasing without writing restores the pins. *)
Lemma pin_dec_inc pins pid :
  (∀ n w, pins !! pid = Some (n, w) → (0 < n)%nat) → pin_dec (pin_inc pins pid) pid false = pins.
Proof.
  intros Hn. unfold pin_dec, pin_inc, pin_of, pending. rewrite lookup_insert_eq.
  destruct (pins !! pid) as [[[|n] w]|] eqn:Hp; simpl.
  - specialize (Hn _ _ eq_refl). lia.
  - rewrite insert_insert_eq, andb_true_r. by apply insert_id.
  - by apply delete_insert_id.
Qed.

(** Fetching an unpinned page, writing it and releasing it dirty, too. *)
Lemma pin_dec_write_inc pins pid :
  pins !! pid = None → pin_dec (pin_write (pin_inc pins pid) pid) pid true = pins.
Proof.
  intros Hp. unfold pin_dec, pin_write, pin_inc, pin_of, pending.
  rewrite !lookup_insert_eq, Hp. simpl. rewrite insert_insert_eq. by apply delete_insert_id.
Qed.

(** No pin count is near the limit of [int]. *)
Definition pins_low (pins : pinmap) : Prop := ∀ pid, Z.of_nat (pin_of pins pid) + 1 < 2 ^ 31.

Lemma pins_low_empty : pins_low ∅.
Proof. intros pid. unfold pin_of. rewrite lookup_empty. cbn. lia. Qed.

Section client.
Context {S : Type} {PC : PageCache S} {PCS : PageCacheSpec S}.
Implicit Types (s : S) (st : pages) (pins : pinmap).

(** A page fetched, read and released unchanged. *)
Definition fetched (s s' : S) (st : pages) (pins : pinmap) (pid : Z) (r : option Z) : Prop :=
  pc_cap s' = pc_cap s ∧
  match r with
  | Some fid =>
      pc_rep s' st (pin_inc pins pid) ∧ pc_at s' pid fid ∧
      ∃ d, st !! pid = Some d ∧ pc_read fid s' = (s', Ok d) ∧
        ∃ s'', pc_unpin pid false s' = (s'', Ok true) ∧ pc_rep s'' st pins ∧
          pc_cap s'' = pc_cap s
  | None => pc_rep s' st pins ∧ (pc_cap s ≤ size pins)%nat
  end.

Lemma pc_fetch_fetched s st pins pid :
  pc_rep s st pins → is_Some (st !! pid) → Z.of_nat (pin_of pins pid) + 1 < 2 ^ 31 →
  ∃ s' r, pc_fetch pid s = (s', Ok r) ∧ fetched s s' st pins pid r.
Proof.
  intros Hr Hst Hmax. destruct (pc_fetch_spec s st pins pid Hr Hst Hmax)
    as (s' & r & Hf & Hcap & _ & Hres).
  exists s', r. split; [done|]. split; [done|]. destruct r as [fid|].
  2:{ by destruct Hres as (? & _ & ?). }
  destruct Hres as [Hr' Hat]. split; [done|]. split; [done|].
  destruct (pc_read_spec s' st _ pid fid Hr' (pin_inc_lookup _ _) Hat) as (d & Hd & Hrd).
  exists d. split; [done|]. split; [done|].
  destruct (pc_unpin_spec s' st (pin_inc pins pid) pid (Datatypes.S (pin_of pins pid))
    (pending pins pid) false Hr') as (s'' & Hu & Hcap' & _ & Hr'').
  - unfold pin_inc. by rewrite lookup_insert_eq.
  - intros [= Hz]. rewrite andb_true_r. destruct (pins !! pid) as [[n w]|] eqn:Hp.
    + destruct (pc_rep_pinned _ _ _ _ _ _ Hr Hp) as [? _].
      rewrite (pin_of_Some _ _ _ _ Hp) in Hz. lia.
    + by apply pending_None.
  - exists s''. rewrite Hu. split_and!; [done| |congruence].
    rewrite pin_dec_inc in Hr''; [done|]. intros n w Hp.
    by destruct (pc_rep_pinned _ _ _ _ _ _ Hr Hp).
Qed.

(** With a frame to spare the fetch succeeds. *)
Lemma pc_fetch_read s st pins pid d :
  pc_rep s st pins → pins_low pins → (size pins < pc_cap s)%nat → st !! pid = Some d →
  ∃ s1 fid s2, pc_fetch pid s = (s1, Ok (Some fid)) ∧ pc_read fid s1 = (s1, Ok d) ∧
    pc_unpin pid false s1 = (s2, Ok true) ∧ pc_rep s2 st pins ∧ pc_cap s2 = pc_cap s ∧
    pc_rep s1 st (pin_inc pins pid) ∧ pc_at s1 pid fid ∧ pc_cap s1 = pc_cap s.
Proof.
  intros Hr Hlow Hcap Hd.
  destruct (pc_fetch_fetched s st pins pid) as (s1 & [fid|] & Hf & Hc1 & Hres);
    [done|eauto|apply Hlow| |destruct Hres; lia].
  destruct Hres as (Hr1 & Hat & d0 & Hd0 & Hrd & s2 & Hu & Hr2 & Hc2).
  rewrite Hd in Hd0. injection Hd0 as <-. exists s1, fid, s2. split_and!; done.
Qed.

Lemma pinned_in_store s st pins pid :
  pc_rep s st pins → st !! pid = None → pins !! pid = None.
Proof.
  intros Hr Hn. destruct (pins !! pid) as [[n w]|] eqn:E; [|done].
  destruct (pc_rep_pinned _ _ _ _ _ _ Hr E) as (_ & d & ? & _). congruence.
Qed.

Lemma poke_spec s st pins pid fid d d' f :
  pc_rep s st pins → is_Some (pins !! pid) → pc_at s pid fid →
  st !! pid = Some d → f d = Some d' → length d' = length d →
  ∃ s', poke fid f s = (s', Ok tt) ∧ pc_cap s' = pc_cap s ∧
    (∀ q g, pc_at s q g → pc_at s' q g) ∧
    pc_rep s' (<[pid := d']> st) (pin_write pins pid).
Proof.
  intros Hr Hp Hat Hd Hf Hl. unfold poke.
  destruct (pc_read_spec s st pins pid fid Hr Hp Hat) as (d0 & Hd0 & Hrd).
  rewrite Hd in Hd0. injection Hd0 as <-.
  rewrite (bindM_Ok _ _ _ _ _ Hrd), (bindM_def _ _ _ _ Hf).
  destruct (pc_write_spec s st pins pid fid d' Hr Hp Hat) as (s' & Hw & Hc & Ha & Hr').
  { rewrite Hl. by destruct (pc_rep_page _ _ _ _ _ Hr Hd). }
  exists s'. split_and!; eauto.
Qed.

(** Two assignments to a pinned page. *)
Lemma poke2_spec s st pins pid fid d d1 d2 f g :
  pc_rep s st pins → is_Some (pins !! pid) → pc_at s pid fid →
  st !! pid = Some d → f d = Some d1 → g d1 = Some d2 →
  length d1 = length d → length d2 = length d →
  ∃ s1 s', poke fid f s = (s1, Ok tt) ∧ poke fid g s1 = (s', Ok tt) ∧ pc_cap s' = pc_cap s ∧
    pc_rep s' (<[pid := d2]> st) (pin_write pins pid).
Proof.
  intros Hr Hp Hat Hd Hf Hg Hl1 Hl2.
  destruct (poke_spec s st pins pid fid d d1 f) as (s1 & H1 & Hc1 & Ha1 & Hr1); [done..|].
  destruct (poke_spec s1 (<[pid := d1]> st) (pin_write pins pid) pid fid d1 d2 g)
    as (s2 & H2 & Hc2 & _ & Hr2); [done|by apply pin_write_lookup|auto|
    by rewrite lookup_insert_eq|done|congruence|].
  exists s1, s2. rewrite insert_insert_eq, pin_write_write in Hr2.
  split_and!; [done|done|congruence|done].
Qed.

(** A further assignment to a page that is pinned and written already. *)
Lemma poke_again s st pins pid fid d d' f :
  pc_rep s (<[pid := d]> st) (pin_write (pin_inc pins pid) pid) → pc_at s pid fid →
  f d = Some d' → length d' = length d →
  ∃ s', poke fid f s = (s', Ok tt) ∧ pc_cap s' = pc_cap s ∧ pc_at s' pid fid ∧
    pc_rep s' (<[pid := d']> st) (pin_write (pin_inc pins pid) pid).
Proof.
  intros Hr Hat Hf Hl.
  destruct (poke_spec s _ _ pid fid d d' f Hr (pin_write_lookup _ _ _ (pin_inc_lookup _ _)) Hat)
    as (s' & H1 & Hc & Hk & Hr'); [by rewrite lookup_insert_eq|done|done|].
  exists s'. rewrite insert_insert_eq, pin_write_write in Hr'. split_and!; auto.
Qed.

(** Releasing a page that was unpinned before and has been written. *)
Lemma unpin_written s st pins pid :
  pins !! pid = None → pc_rep s st (pin_write (pin_inc pins pid) pid) →
  ∃ s', pc_unpin pid true s = (s', Ok true) ∧ pc_cap s' = pc_cap s ∧ pc_rep s' st pins.
Proof.
  intros Hn Hr. destruct (pc_unpin_spec s st (pin_write (pin_inc pins pid) pid) pid 1 true true Hr)
    as (s' & Hu & Hc & _ & Hr').
  - unfold pin_write, pin_inc. rewrite !pin_of_insert, decide_True by done. simpl.
    by rewrite lookup_insert_eq, pin_of_None.
  - done.
  - exists s'. by rewrite pin_dec_write_inc in Hr'.
Qed.

(** A page with given contents can be added. *)
Lemma pc_add_page s st pins d :
  pc_rep s st pins → (size pins < pc_cap s)%nat → Z.of_nat (size st) + 1 < 2 ^ 31 →
  length d = Z.to_nat PAGE_SIZE →
  ∃ s', pc_rep s' (<[Z.of_nat (size st) := d]> st) pins ∧ pc_cap s' = pc_cap s.
Proof.
  intros Hr Hcap Hsz Hl. destruct (pc_new_spec s st pins Hr Hsz) as (s1 & r & _ & Hc1 & _ & Hres).
  destruct r as [[pid fid]|]; [|destruct Hres; lia]. destruct Hres as (-> & Hnone & Hr1 & Hat).
  destruct (pc_write_spec s1 _ _ _ fid d Hr1 (pin_inc_lookup _ _) Hat Hl) as (s2 & _ & Hc2 & _ & Hr2).
  rewrite insert_insert_eq in Hr2.
  destruct (unpin_written s2 _ pins _ (pinned_in_store s st pins _ Hr Hnone) Hr2) as (s3 & _ & Hc3 & Hr3).
  exists s3. split; [done|congruence].
Qed.
End client.
