(* ===== verification/BufferPool.v ===== *)
(** * Buffer pool: [src/src/storage/page.h], [buffer_pool.h], [buffer_pool.cpp]

    A fixed array of frames over the disk manager.  A [Page*] handed to a caller
    is the index of its frame, so that callers read and write the same bytes the
    pool evicts and flushes.  Every public method holds [latch_] from entry to
    exit, so a method is one atomic step. *)
From stdpp Require Import base gmap list strings.
From Stdlib Require Import ZArith Lia Ascii.
From S2P Require Import Prelude Types DiskManager LRUReplacer PageCache.

Record Page := mkPage {
  pdata_ : list ascii;
  page_id_ : Z;
  pin_count_ : Z;
  is_dirty_ : bool
}.
Definition Page_default : Page := mkPage zero_page INVALID_PAGE_ID 0 false.
Definition ResetMemory (p : Page) : Page :=
  mkPage (memset PAGE_SIZE NUL) (page_id_ p) (pin_count_ p) (is_dirty_ p).
Definition set_pdata (d : list ascii) (p : Page) : Page :=
  mkPage d (page_id_ p) (pin_count_ p) (is_dirty_ p).
Definition set_page_id (i : Z) (p : Page) : Page :=
  mkPage (pdata_ p) i (pin_count_ p) (is_dirty_ p).
Definition set_pin_count (n : Z) (p : Page) : Page :=
  mkPage (pdata_ p) (page_id_ p) n (is_dirty_ p).
Definition set_dirty (b : bool) (p : Page) : Page :=
  mkPage (pdata_ p) (page_id_ p) (pin_count_ p) b.

Record BufferPoolManager := mkBPM {
  pool_size_ : nat;
  disk_manager_ : DiskManager;
  frames_ : list Page;
  page_table_ : gmap Z Z;
  free_list_ : list Z;
  replacer_ : LRUReplacer
}.

Definition set_disk (d : DiskManager) (b : BufferPoolManager) : BufferPoolManager :=
  mkBPM (pool_size_ b) d (frames_ b) (page_table_ b) (free_list_ b) (replacer_ b).
Definition set_frames (l : list Page) (b : BufferPoolManager) : BufferPoolManager :=
  mkBPM (pool_size_ b) (disk_manager_ b) l (page_table_ b) (free_list_ b) (replacer_ b).
Definition set_page_table (m : gmap Z Z) (b : BufferPoolManager) : BufferPoolManager :=
  mkBPM (pool_size_ b) (disk_manager_ b) (frames_ b) m (free_list_ b) (replacer_ b).
Definition set_free_list (l : list Z) (b : BufferPoolManager) : BufferPoolManager :=
  mkBPM (pool_size_ b) (disk_manager_ b) (frames_ b) (page_table_ b) l (replacer_ b).
Definition set_replacer (r : LRUReplacer) (b : BufferPoolManager) : BufferPoolManager :=
  mkBPM (pool_size_ b) (disk_manager_ b) (frames_ b) (page_table_ b) (free_list_ b) r.

Definition on_disk {A} : M DiskManager A → M BufferPoolManager A := zoomM disk_manager_ set_disk.
Definition on_lru {A} : M LRUReplacer A → M BufferPoolManager A := zoomM replacer_ set_replacer.

(** [frames_[fid]]. *)
Definition frame (b : BufferPoolManager) (fid : Z) : option Page :=
  if 0 <=? fid then frames_ b !! Z.to_nat fid else None.
Definition get_frame (fid : Z) : M BufferPoolManager Page :=
  b <- getM ;; defM (frame b fid).
Definition upd_frame (fid : Z) (f : Page → Page) : M BufferPoolManager unit :=
  b <- getM ;;
  p <- defM (frame b fid) ;;
  putM (set_frames (<[Z.to_nat fid := f p]> (frames_ b)) b).

Definition BufferPoolManager_ctor (pool_size : nat) (disk_manager : DiskManager)
    : BufferPoolManager :=
  mkBPM pool_size disk_manager (replicate pool_size Page_default) ∅
    ((λ i, wrap_s32 (Z.of_nat i)) <$> seq 0 pool_size)
    (LRUReplacer_ctor (Z.of_nat pool_size)).

Definition GetFreeFrame : M BufferPoolManager Z :=
  b <- getM ;;
  match free_list_ b with
  | fid :: rest => putM (set_free_list rest b) ;; retM fid
  | [] =>
      v <- on_lru Evict ;;
      match v with
      | Some fid =>
          page <- get_frame fid ;;
          (if is_dirty_ page then
             on_disk (WritePage (page_id_ page) (pdata_ page)) ;;
             upd_frame fid (set_dirty false)
           else retM tt) ;;
          b <- getM ;;
          putM (set_page_table (delete (page_id_ page) (page_table_ b)) b) ;;
          upd_frame fid (set_page_id INVALID_PAGE_ID) ;;
          retM fid
      | None => retM (-1)
      end
  end.

(** [page_table_[pid] = fid; RecordAccess(fid); SetEvictable(fid, false)]. *)
Definition install (pid fid : Z) : M BufferPoolManager unit :=
  b <- getM ;;
  putM (set_page_table (<[pid := fid]> (page_table_ b)) b) ;;
  on_lru (RecordAccess fid) ;;
  on_lru (SetEvictable fid false).

(** [NewPage(&page_id)]: the new page id and the frame, [None] for [nullptr]. *)
Definition NewPage : M BufferPoolManager (option (Z * Z)) :=
  fid <- GetFreeFrame ;;
  if fid =? -1 then retM None else
  pid <- on_disk AllocatePage ;;
  upd_frame fid (λ p, set_dirty false (set_pin_count 1 (set_page_id pid (ResetMemory p)))) ;;
  install pid fid ;;
  retM (Some (pid, fid)).

Definition FetchPage (page_id : Z) : M BufferPoolManager (option Z) :=
  b <- getM ;;
  match page_table_ b !! page_id with
  | Some fid =>
      page <- get_frame fid ;;
      n <- liftM (add_s32 (pin_count_ page) 1) ;;
      upd_frame fid (set_pin_count n) ;;
      on_lru (RecordAccess fid) ;;
      on_lru (SetEvictable fid false) ;;
      retM (Some fid)
  | None =>
      fid <- GetFreeFrame ;;
      if fid =? -1 then retM None else
      upd_frame fid (λ p, set_dirty false (set_pin_count 1 (set_page_id page_id p))) ;;
      bytes <- on_disk (ReadPage page_id) ;;
      upd_frame fid (set_pdata bytes) ;;
      install page_id fid ;;
      retM (Some fid)
  end.

Definition UnpinPage (page_id : Z) (is_dirty : bool) : M BufferPoolManager bool :=
  b <- getM ;;
  match page_table_ b !! page_id with
  | None => retM false
  | Some fid =>
      page <- get_frame fid ;;
      if pin_count_ page =? 0 then retM false else
      upd_frame fid (λ p, set_dirty (is_dirty_ p || is_dirty) p) ;;
      n <- liftM (add_s32 (pin_count_ page) (-1)) ;;
      upd_frame fid (set_pin_count n) ;;
      (if n =? 0 then on_lru (SetEvictable fid true) else retM tt) ;;
      retM true
  end.

Definition FlushPage (page_id : Z) : M BufferPoolManager bool :=
  b <- getM ;;
  match page_table_ b !! page_id with
  | None => retM false
  | Some fid =>
      page <- get_frame fid ;;
      on_disk (WritePage page_id (pdata_ page)) ;;
      upd_frame fid (set_dirty false) ;;
      retM true
  end.

(** The loop of [FlushAllPages] over the entries of [page_table_]. *)
Fixpoint flush_entries (l : list (Z * Z)) : M BufferPoolManager unit :=
  match l with
  | [] => retM tt
  | (pid, fid) :: l =>
      page <- get_frame fid ;;
      (if is_dirty_ page then
         on_disk (WritePage pid (pdata_ page)) ;;
         upd_frame fid (set_dirty false)
       else retM tt) ;;
      flush_entries l
  end.
Definition FlushAllPages : M BufferPoolManager unit :=
  b <- getM ;; flush_entries (map_to_list (page_table_ b)).

Definition DeletePage (page_id : Z) : M BufferPoolManager bool :=
  b <- getM ;;
  match page_table_ b !! page_id with
  | None => retM true
  | Some fid =>
      page <- get_frame fid ;;
      if 0 <? pin_count_ page then retM false else
      putM (set_page_table (delete page_id (page_table_ b)) b) ;;
      on_lru (Remove fid) ;;
      b <- getM ;;
      putM (set_free_list (free_list_ b ++ [fid]) b) ;;
      upd_frame fid (λ p, set_dirty false (set_page_id INVALID_PAGE_ID (ResetMemory p))) ;;
      retM true
  end.

(** The destructor; an exception that leaves a destructor terminates the
    program. *)
Definition noexcept {A} (o : outcome A) : outcome A :=
  match o with Fault (Throw _) => Fault Terminate | o => o end.
Definition BufferPoolManager_dtor : M BufferPoolManager unit := λ b,
  let '(b, r) := FlushAllPages b in (b, noexcept r).

(** [page->GetData()] read and written through a frame pointer. *)
Definition GetData (fid : Z) : M BufferPoolManager (list ascii) :=
  p <- get_frame fid ;; retM (pdata_ p).
Definition SetData (fid : Z) (d : list ascii) : M BufferPoolManager unit :=
  upd_frame fid (set_pdata d).

Example bp_smoke :
  (let m := (r <- NewPage ;;
             match r with
             | Some (pid, fid) =>
                 SetData fid (memset PAGE_SIZE "z"%char) ;; UnpinPage pid true ;;
                 r2 <- NewPage ;;
                 match r2 with
                 | Some (pid2, fid2) => UnpinPage pid2 false ;; r3 <- FetchPage pid ;;
                     match r3 with Some f => d <- GetData f ;; retM (pid, pid2, take 2 d)
                     | None => throwM "x" end
                 | None => throwM "y" end
             | None => throwM "z" end)%mydb in
   (m (BufferPoolManager_ctor 1 blank_disk)).2) = Ok (0, 1, ["z"%char; "z"%char]).
Proof. vm_compute. reflexivity. Qed.
