(* ===== verification/BufferPoolSpec.v ===== *)
(** * Buffer pool: invariant and refinement

    The pool implements the page-cache interface: whatever is resident, dirty or
    on disk, a client sees one map from page ids to page contents.  The
    invariant is stated with an optional frame "in hand", taken from the free
    list or a victim and not yet installed. *)
From stdpp Require Import base gmap list strings.
From Stdlib Require Import ZArith Lia Ascii.
From S2P Require Import Prelude Types DiskManager LRUReplacer PageCache BufferPool.

(** Frame [p] holds page [pid]. *)
Record page_ok (d : DiskManager) (st : pages) (pins : pinmap) (pid : Z) (p : Page) : Prop := {
  po_id : page_id_ p = pid;
  po_pin : pin_count_ p = Z.of_nat (pin_of pins pid);
  po_store : st !! pid = Some (pdata_ p);
  po_len : length (pdata_ p) = Z.to_nat PAGE_SIZE;
  po_clean : is_dirty_ p = false → pending pins pid = false → disk_page d pid = pdata_ p
}.

Record bp_gen (hand : option Z) (b : BufferPoolManager) (st : pages) (pins : pinmap) : Prop := {
  bg_disk : disk_ok (disk_manager_ b);
  bg_lru : lru_wf (replacer_ b);
  bg_len : length (frames_ b) = pool_size_ b;
  bg_pool : Z.of_nat (pool_size_ b) < 2 ^ 31;
  bg_map pid fid : page_table_ b !! pid = Some fid →
    ∃ p, frame b fid = Some p ∧ page_ok (disk_manager_ b) st pins pid p;
  bg_free_nodup : NoDup (free_list_ b);
  bg_free fid : fid ∈ free_list_ b →
    0 ≤ fid < Z.of_nat (pool_size_ b) ∧ hand ≠ Some fid ∧ ∀ pid, page_table_ b !! pid ≠ Some fid;
  bg_hand fid : hand = Some fid →
    0 ≤ fid < Z.of_nat (pool_size_ b) ∧ ∀ pid, page_table_ b !! pid ≠ Some fid;
  bg_cover fid : 0 ≤ fid < Z.of_nat (pool_size_ b) →
    fid ∈ free_list_ b ∨ hand = Some fid ∨ ∃ pid, page_table_ b !! pid = Some fid;
  bg_order fid : fid ∈ recency (replacer_ b) ↔ ∃ pid, page_table_ b !! pid = Some fid;
  bg_ev fid : fid ∈ evictable_ (replacer_ b) ↔
    ∃ pid, page_table_ b !! pid = Some fid ∧ pins !! pid = None;
  bg_pins pid n w : pins !! pid = Some (n, w) →
    (0 < n)%nat ∧ Z.of_nat n < 2 ^ 31 ∧ is_Some (page_table_ b !! pid);
  bg_num : num_pages_ (disk_manager_ b) = Z.of_nat (size st);
  bg_dom pid : is_Some (st !! pid) ↔ 0 ≤ pid < num_pages_ (disk_manager_ b);
  bg_away pid : page_table_ b !! pid = None → 0 ≤ pid < num_pages_ (disk_manager_ b) →
    st !! pid = Some (disk_page (disk_manager_ b) pid)
}.
Definition bp_inv : BufferPoolManager → pages → pinmap → Prop := bp_gen None.

(** ** Frames *)
Lemma frame_is_Some b fid p :
  frame b fid = Some p → 0 ≤ fid < Z.of_nat (length (frames_ b)).
Proof.
  unfold frame. destruct (Z.leb_spec 0 fid); [|done]. intros H1%lookup_lt_Some. lia.
Qed.
Lemma frame_exists b fid :
  0 ≤ fid < Z.of_nat (length (frames_ b)) → ∃ p, frame b fid = Some p.
Proof.
  intros [? ?]. unfold frame. rewrite (proj2 (Z.leb_le 0 fid)) by done.
  apply lookup_lt_is_Some. lia.
Qed.

Definition put_frame (fid : Z) (p : Page) (b : BufferPoolManager) : BufferPoolManager :=
  set_frames (<[Z.to_nat fid := p]> (frames_ b)) b.

Lemma frame_put b fid p q g :
  frame b fid = Some p → frame (put_frame fid q b) g = if decide (g = fid) then Some q else frame b g.
Proof.
  intros H%frame_is_Some. unfold frame. simpl. case_decide as Hg.
  - subst g. rewrite (proj2 (Z.leb_le 0 fid)) by lia. apply list_lookup_insert_eq. lia.
  - destruct (Z.leb_spec 0 g); [|done]. rewrite list_lookup_insert_ne; [done|lia].
Qed.

Lemma get_frame_ok b fid p : frame b fid = Some p → get_frame fid b = (b, Ok p).
Proof. intros H. unfold get_frame. rewrite bindM_get, H. done. Qed.
Lemma upd_frame_ok b fid p f :
  frame b fid = Some p → upd_frame fid f b = (put_frame fid (f p) b, Ok tt).
Proof. intros H. unfold upd_frame. rewrite bindM_get, (bindM_def _ _ _ _ H). done. Qed.

Lemma put_frame_put b fid p q r :
  frame b fid = Some p → put_frame fid r (put_frame fid q b) = put_frame fid r b.
Proof. intros _. unfold put_frame, set_frames. simpl. by rewrite list_insert_insert_eq. Qed.

Lemma on_lru_ok {A} (m : M LRUReplacer A) b r v :
  m (replacer_ b) = (r, Ok v) → on_lru m b = (set_replacer r b, Ok v).
Proof. intros H. unfold on_lru, zoomM. by rewrite H. Qed.
Lemma on_disk_ok {A} (m : M DiskManager A) b d v :
  m (disk_manager_ b) = (d, Ok v) → on_disk m b = (set_disk d b, Ok v).
Proof. intros H. unfold on_disk, zoomM. by rewrite H. Qed.

(** Two resident pages are in different frames. *)
Lemma page_table_inj hand b st pins pid pid' fid :
  bp_gen hand b st pins →
  page_table_ b !! pid = Some fid → page_table_ b !! pid' = Some fid → pid = pid'.
Proof.
  intros Hb H1 H2. destruct (bg_map _ _ _ _ Hb _ _ H1) as (p & Hp & Hok).
  destruct (bg_map _ _ _ _ Hb _ _ H2) as (p' & Hp' & Hok').
  rewrite Hp in Hp'. injection Hp' as <-. by rewrite <- (po_id _ _ _ _ _ Hok), (po_id _ _ _ _ _ Hok').
Qed.

Lemma resident_range hand b st pins pid fid :
  bp_gen hand b st pins → page_table_ b !! pid = Some fid →
  0 ≤ pid < num_pages_ (disk_manager_ b).
Proof.
  intros Hb H. destruct (bg_map _ _ _ _ Hb _ _ H) as (p & _ & Hok).
  apply (bg_dom _ _ _ _ Hb). rewrite (po_store _ _ _ _ _ Hok). eauto.
Qed.

Lemma resident_frame_range hand b st pins pid fid :
  bp_gen hand b st pins → page_table_ b !! pid = Some fid →
  0 ≤ fid < Z.of_nat (pool_size_ b).
Proof.
  intros Hb H. destruct (bg_map _ _ _ _ Hb _ _ H) as (p & Hp & _).
  apply frame_is_Some in Hp. by rewrite <- (bg_len _ _ _ _ Hb).
Qed.

(** Updating the frame in hand changes nothing a client sees. *)
Lemma bp_gen_put_hand b st pins fid p q :
  bp_gen (Some fid) b st pins → frame b fid = Some p →
  bp_gen (Some fid) (put_frame fid q b) st pins.
Proof.
  intros [] Hp. split; simpl; try done.
  - by rewrite length_insert.
  - intros pid g Hg. destruct (bg_map0 _ _ Hg) as (p' & ? & ?). exists p'.
    rewrite (frame_put _ _ _ _ _ Hp). case_decide; [|done]. subst g.
    destruct (bg_hand0 fid eq_refl) as [_ Hno]. by destruct (Hno pid).
Qed.

(** Updating a resident frame with one that still holds its page. *)
Lemma bp_gen_put_page hand b st pins pid fid q :
  bp_gen hand b st pins → page_table_ b !! pid = Some fid →
  page_ok (disk_manager_ b) st pins pid q → bp_gen hand (put_frame fid q b) st pins.
Proof.
  intros Hb Hpid Hq. destruct (bg_map _ _ _ _ Hb _ _ Hpid) as (p & Hp & _).
  pose proof Hb as Hb0.
  destruct Hb. split; simpl; try done.
  - by rewrite length_insert.
  - intros pid' g Hg. rewrite (frame_put _ _ _ _ _ Hp). case_decide; [|auto]. subst g.
    rewrite (page_table_inj _ _ _ _ _ _ _ Hb0 Hpid Hg) in Hq. eauto.
Qed.

Lemma page_ok_mono d d' st st' pins pins' pid p :
  page_ok d st pins pid p →
  st' !! pid = st !! pid → pin_of pins' pid = pin_of pins pid →
  (pending pins' pid = false → pending pins pid = false) →
  disk_page d' pid = disk_page d pid →
  page_ok d' st' pins' pid p.
Proof.
  intros [H1 H2 H3 H4 H5] Hs Hp Hw Hd. split; [done|by rewrite Hp|by rewrite Hs|done|].
  rewrite Hd. auto.
Qed.

(** A write of what the page holds: the disk changes, the contents do not. *)
Lemma bp_gen_write hand b st pins pid data :
  bp_gen hand b st pins → st !! pid = Some data → length data = Z.to_nat PAGE_SIZE →
  ∃ d', WritePage pid data (disk_manager_ b) = (d', Ok tt) ∧
    bp_gen hand (set_disk d' b) st pins ∧ disk_page d' pid = data ∧
    ∀ q, 0 ≤ q < num_pages_ (disk_manager_ b) → q ≠ pid →
      disk_page d' q = disk_page (disk_manager_ b) q.
Proof.
  intros Hb Hst Hlen.
  assert (Hr : 0 ≤ pid < num_pages_ (disk_manager_ b)) by (apply (bg_dom _ _ _ _ Hb); eauto).
  destruct (WritePage_ok _ (bg_disk _ _ _ _ Hb) pid data Hr Hlen) as (d' & Hw & Hok & Hn & Hpg).
  exists d'. split; [done|]. split; [|split].
  2:{ rewrite Hpg by done. by rewrite decide_True. }
  2:{ intros q Hq Hne. rewrite Hpg by done. by rewrite decide_False. }
  pose proof (λ q g, resident_range hand b st pins q g Hb) as Hres. destruct Hb. split; simpl; rewrite ?Hn; try done.
  - intros q fid Hq. destruct (bg_map0 _ _ Hq) as (p & Hp & [H1 H2 H3 H4 H5]).
    exists p. split; [done|]. split; try done. intros Hc Hw'. rewrite Hpg by eauto.
    case_decide; [subst; congruence|auto].
  - intros q Hq Hqr. rewrite Hpg by done. case_decide; [congruence|auto].
Qed.

(** ** Taking a frame *)
Definition all_pinned (b : BufferPoolManager) (pins : pinmap) : Prop :=
  ∀ fid, 0 ≤ fid < Z.of_nat (pool_size_ b) →
    ∃ pid, page_table_ b !! pid = Some fid ∧ is_Some (pins !! pid).

(** What stays true of a frame-level change for the clients' pointers. *)
Definition keeps (b b' : BufferPoolManager) (pins : pinmap) : Prop :=
  pool_size_ b' = pool_size_ b ∧
  ∀ pid fid, is_Some (pins !! pid) → page_table_ b !! pid = Some fid →
    page_table_ b' !! pid = Some fid.

(** Unmapping the unpinned page of a victim frame. *)
Lemma bp_gen_evict b st pins pid fid p r :
  bp_gen None b st pins → page_table_ b !! pid = Some fid → pins !! pid = None →
  frame b fid = Some p → is_dirty_ p = false → lru_wf r →
  lru_abs r = mkALRU (al_remove fid (recency (replacer_ b))) (evictable_ (replacer_ b) ∖ {[fid]}) →
  bp_gen (Some fid) (set_replacer r (set_page_table (delete pid (page_table_ b)) b)) st pins.
Proof.
  intros Hb Hpid Hpin Hp Hc Hwf Habs. injection Habs as Ho He.
  assert (Hinj : ∀ q, page_table_ b !! q = Some fid → q = pid).
  { intros q Hq. symmetry. exact (page_table_inj _ _ _ _ _ _ _ Hb Hpid Hq). }
  pose proof (resident_frame_range _ _ _ _ _ _ Hb Hpid) as Hfr.
  destruct (bg_map _ _ _ _ Hb _ _ Hpid) as (p' & Hp' & Hok).
  rewrite Hp in Hp'. injection Hp' as <-.
  destruct Hb. split; simpl; try done.
  - intros q g [_ Hq]%lookup_delete_Some. eauto.
  - intros g Hg. destruct (bg_free0 g Hg) as (? & _ & Hno). split; [done|split].
    + intros [= ->]. by apply (Hno pid).
    + intros q [_ Hq]%lookup_delete_Some. by apply (Hno q).
  - intros g [= <-]. split; [done|]. intros q [Hne Hq]%lookup_delete_Some.
    by apply Hne, eq_sym, Hinj.
  - intros g Hg. destruct (bg_cover0 g Hg) as [?|[?|[q Hq]]]; [by left|done|].
    destruct (decide (q = pid)) as [->|Hne]; [right; left; congruence|].
    right; right. exists q. by rewrite lookup_delete_ne.
  - intros g. rewrite Ho, elem_of_al_remove, bg_order0. split.
    + intros [Hne [q Hq]]. exists q. rewrite lookup_delete_Some. split; [|done].
      intros ->. congruence.
    + intros [q [Hne Hq]%lookup_delete_Some]. split; [|eauto]. intros ->.
      by apply Hne, eq_sym, Hinj.
  - intros g. rewrite He, elem_of_difference, elem_of_singleton, bg_ev0. split.
    + intros [(q & Hq & Hn) Hne]. exists q. rewrite lookup_delete_Some. split; [|done].
      split; [|done]. intros ->. congruence.
    + intros (q & [Hne Hq]%lookup_delete_Some & Hn). split; [eauto|]. intros ->.
      by apply Hne, eq_sym, Hinj.
  - intros q n w Hq. destruct (bg_pins0 _ _ _ Hq) as (? & ? & ?). split_and!; [done..|].
    rewrite lookup_delete_ne; [done|]. congruence.
  - intros q Hq Hr. destruct (decide (q = pid)) as [->|Hne].
    + rewrite (po_store _ _ _ _ _ Hok). f_equal. symmetry.
      apply (po_clean _ _ _ _ _ Hok); [done|]. by apply pending_None.
    + rewrite lookup_delete_ne in Hq by done. eauto.
Qed.

Lemma bp_gen_take_free b st pins fid rest :
  bp_inv b st pins → free_list_ b = fid :: rest →
  bp_gen (Some fid) (set_free_list rest b) st pins.
Proof.
  intros [] Hf. rewrite Hf in *. apply NoDup_cons in bg_free_nodup0 as [Hni Hnd].
  split; simpl; try done.
  - intros g Hg. destruct (bg_free0 g) as (? & _ & ?); [by right|].
    split; [done|]. split; [|done]. intros [= ->]. done.
  - intros g [= <-]. destruct (bg_free0 fid) as (? & _ & ?); [by left|]. done.
  - intros g Hg. destruct (bg_cover0 g Hg) as [[->|?]%elem_of_cons|[?|?]]; naive_solver.
Qed.

(** Writing back a resident page if it is dirty leaves it clean. *)
Lemma write_back hand b st pins pid fid p :
  bp_gen hand b st pins → page_table_ b !! pid = Some fid → frame b fid = Some p →
  ∃ b', (if is_dirty_ p then
           on_disk (WritePage (page_id_ p) (pdata_ p)) ;; upd_frame fid (set_dirty false)
         else retM tt) b = (b', Ok tt) ∧
    bp_gen hand b' st pins ∧
    (∀ g, frame b' g = if decide (g = fid) then Some (set_dirty false p) else frame b g) ∧
    pool_size_ b' = pool_size_ b ∧ page_table_ b' = page_table_ b ∧
    free_list_ b' = free_list_ b ∧ replacer_ b' = replacer_ b.
Proof.
  intros Hb Hpid Hp. destruct (bg_map _ _ _ _ Hb _ _ Hpid) as (p' & Hp' & Hok).
  rewrite Hp in Hp'. injection Hp' as <-. destruct (is_dirty_ p) eqn:Hd.
  - destruct (bp_gen_write _ _ _ _ pid (pdata_ p) Hb) as (d' & Hw & Hb' & Hpg & _);
      [apply Hok|apply Hok|].
    rewrite (po_id _ _ _ _ _ Hok).
    erewrite bindM_Ok by (apply on_disk_ok; exact Hw).
    assert (Hp2 : frame (set_disk d' b) fid = Some p) by exact Hp.
    rewrite (upd_frame_ok _ _ _ _ Hp2). eexists. split; [done|].
    split_and!; try done.
    + apply (bp_gen_put_page _ _ _ _ pid); [done..|]. simpl.
      destruct Hok as [H1 H2 H3 H4 H5]. by split.
    + intros g. by rewrite (frame_put _ _ _ _ _ Hp2).
  - exists b. assert (set_dirty false p = p) as ->.
    { unfold set_dirty. rewrite <- Hd. by destruct p. }
    split_and!; try done. intros g. case_decide; [by subst|done].
Qed.

(** [GetFreeFrame] takes a frame out of the pool, writing its page back first
    if needed, and fails exactly when every frame is pinned. *)
(** The part of GetFreeFrame on a victim: written back if dirty, unmapped. *)
Lemma evict_victim b st pins pid fid r :
  bp_inv b st pins → page_table_ b !! pid = Some fid → pins !! pid = None → lru_wf r →
  lru_abs r = mkALRU (al_remove fid (recency (replacer_ b))) (evictable_ (replacer_ b) ∖ {[fid]}) →
  ∃ b', (page <- get_frame fid ;;
         (if is_dirty_ page then
            on_disk (WritePage (page_id_ page) (pdata_ page)) ;; upd_frame fid (set_dirty false)
          else retM tt) ;;
         b <- getM ;;
         putM (set_page_table (delete (page_id_ page) (page_table_ b)) b) ;;
         upd_frame fid (set_page_id INVALID_PAGE_ID) ;;
         retM fid)%mydb (set_replacer r b) = (b', Ok fid) ∧
    keeps b b' pins ∧ (∀ q, page_table_ b !! q = None → page_table_ b' !! q = None) ∧
    0 ≤ fid ∧ bp_gen (Some fid) b' st pins ∧ ∃ p, frame b' fid = Some p.
Proof.
  intros Hb Hpid Hpin Hwf Habs. destruct (bg_map _ _ _ _ Hb _ _ Hpid) as (p & Hp & Hok).
  assert (Hp1 : frame (set_replacer r b) fid = Some p) by exact Hp.
  rewrite (bindM_Ok _ _ _ _ _ (get_frame_ok _ _ _ Hp1)).
  destruct (write_back _ _ _ _ _ _ _ Hb Hpid Hp)
    as (b2 & Hwb & Hb2 & Hp2' & Hsz & Hpt & Hfl & Hrp).
  assert (Hp2 : frame b2 fid = Some (set_dirty false p)) by by rewrite Hp2', decide_True.
  assert (Hwb' : (if is_dirty_ p then
      on_disk (WritePage (page_id_ p) (pdata_ p)) ;; upd_frame fid (set_dirty false)
      else retM tt) (set_replacer r b) = (set_replacer r b2, Ok tt)).
  { destruct (is_dirty_ p); [|by injection Hwb as <-].
    unfold bindM, on_disk, zoomM in Hwb |- *. simpl.
    destruct (WritePage _ _ _) as [d [[]|]]; [|done].
    rewrite (upd_frame_ok _ _ p) in Hwb by exact Hp.
    rewrite (upd_frame_ok _ _ p) by exact Hp. injection Hwb as <-. done. }
  rewrite (bindM_Ok _ _ _ _ _ Hwb'), bindM_get, bindM_put.
  pose proof (bp_gen_evict b2 st pins pid fid (set_dirty false p) r Hb2) as Hg.
  rewrite Hpt, Hrp in Hg. specialize (Hg Hpid Hpin Hp2 eq_refl Hwf Habs).
  rewrite (po_id _ _ _ _ _ Hok).
  set (b3 := set_page_table (delete pid (page_table_ (set_replacer r b2))) (set_replacer r b2)).
  assert (Hb3 : bp_gen (Some fid) b3 st pins). { unfold b3. simpl. rewrite Hpt. exact Hg. }
  assert (Hp3 : frame b3 fid = Some (set_dirty false p)) by exact Hp2.
  rewrite (bindM_Ok _ _ _ _ _ (upd_frame_ok _ _ _ _ Hp3)).
  eexists. split; [done|]. split_and!.
  - split; [simpl; by rewrite Hsz|]. simpl. rewrite Hpt. intros q g Hq Hg'.
    rewrite lookup_delete_ne; [done|]. intros ->. rewrite Hpin in Hq. by apply is_Some_None in Hq.
  - simpl. rewrite Hpt. intros q Hq. by rewrite lookup_delete_None; right.
  - apply frame_is_Some in Hp. lia.
  - by apply (bp_gen_put_hand _ _ _ _ _ _ Hb3 Hp3).
  - rewrite (frame_put _ _ _ _ _ Hp3). rewrite decide_True by done. eauto.
Qed.

(** Without a free frame or a victim every page in a frame is pinned. *)
Lemma no_victim_pinned b st pins :
  bp_inv b st pins → free_list_ b = [] →
  last (filter (λ f, f ∈ evictable_ (replacer_ b)) (recency (replacer_ b))) = None → all_pinned b pins.
Proof.
  intros Hb Hf Hl fid Hr. destruct (bg_cover _ _ _ _ Hb fid Hr) as [Hx|[?|[pid Hpid]]];
    [rewrite Hf in Hx; by apply elem_of_nil in Hx|done|].
  exists pid. split; [done|]. destruct (pins !! pid) eqn:Hpin; [eauto|].
  apply last_None in Hl. assert (Hin : fid ∈ filter (λ f, f ∈ evictable_ (replacer_ b))
    (recency (replacer_ b))); [|rewrite Hl in Hin; by apply elem_of_nil in Hin].
  apply list_elem_of_filter. split; [apply (bg_ev _ _ _ _ Hb)|apply (bg_order _ _ _ _ Hb)]; eauto.
Qed.

Lemma GetFreeFrame_spec b st pins :
  bp_inv b st pins →
  ∃ b' fid, GetFreeFrame b = (b', Ok fid) ∧ keeps b b' pins ∧
    (∀ pid, page_table_ b !! pid = None → page_table_ b' !! pid = None) ∧
    ((0 ≤ fid ∧ bp_gen (Some fid) b' st pins ∧ ∃ p, frame b' fid = Some p) ∨
     (fid = -1 ∧ bp_inv b' st pins ∧ free_list_ b = [] ∧ all_pinned b pins)).
Proof.
  intros Hb. unfold GetFreeFrame. rewrite bindM_get.
  destruct (free_list_ b) as [|fid rest] eqn:Hf.
  2:{ pose proof (bp_gen_take_free _ _ _ _ _ Hb Hf) as Hg.
      destruct (bg_hand _ _ _ _ Hg fid eq_refl) as [Hr _].
      exists (set_free_list rest b), fid. split; [done|]. split; [by split|]. split; [done|].
      left. split; [lia|]. split; [done|]. apply frame_exists.
      by rewrite (bg_len _ _ _ _ Hg). }
  destruct (Evict_refines _ (bg_lru _ _ _ _ Hb)) as (r & Hev & Habs & Hwf).
  erewrite bindM_Ok by (apply on_lru_ok; exact Hev). unfold al_evict in *.
  cbn [lru_abs al_order al_ev] in *.
  destruct (last _) as [fid|] eqn:Hl; cbn [fst snd] in *.
  - apply last_Some_elem_of, list_elem_of_filter in Hl as [He _].
    apply (bg_ev _ _ _ _ Hb) in He as (pid & Hpid & Hpin).
    destruct (evict_victim b st pins pid fid r Hb Hpid Hpin Hwf Habs) as (b' & E & Hk & Hn & Hpost).
    exists b', fid. split; [exact E|]. split; [done|]. split; [done|]. by left.
  - exists (set_replacer r b), (-1). split; [done|]. split; [by split|]. split; [done|].
    right. split; [done|]. split; [|split; [done|by eapply no_victim_pinned]].
    injection Habs as Ho He. destruct Hb. split; simpl; rewrite ?Ho, ?He; done.
Qed.

(** [RecordAccess(fid); SetEvictable(fid, false)]. *)
Lemma lru_touch r fid :
  lru_wf r →
  ∃ r1 r2, RecordAccess fid r = (r1, Ok tt) ∧ SetEvictable fid false r1 = (r2, Ok tt) ∧
    lru_wf r2 ∧ (∀ g, g ∈ recency r2 ↔ g = fid ∨ g ∈ recency r) ∧
    evictable_ r2 = evictable_ r ∖ {[fid]}.
Proof.
  intros Hwf. destruct (RecordAccess_refines r Hwf fid) as (r1 & H1 & Ha1 & Hw1).
  destruct (SetEvictable_refines r1 Hw1 fid false) as (r2 & H2 & Ha2 & Hw2).
  exists r1, r2. split_and!; try done.
  - intros g. injection Ha1 as Ho1 _. injection Ha2 as Ho2 _. unfold recency in *.
    rewrite Ho2, Ho1, elem_of_cons, elem_of_al_remove.
    destruct (decide (g = fid)); naive_solver.
  - injection Ha1 as _ He1. injection Ha2 as _ He2. by rewrite He2, He1.
Qed.

Lemma pin_inc_None pins pid : pins !! pid = None → pin_inc pins pid = <[pid := (1%nat, false)]> pins.
Proof. intros H. unfold pin_inc. by rewrite pin_of_None, pending_None. Qed.

Lemma bp_gen_unmapped_unpinned hand b st pins pid :
  bp_gen hand b st pins → page_table_ b !! pid = None → pins !! pid = None.
Proof.
  intros Hb H. destruct (pins !! pid) as [[n w]|] eqn:E; [|done].
  destruct (bg_pins _ _ _ _ Hb _ _ _ E) as (_ & _ & [f Hf]). congruence.
Qed.

(** Mapping a page to the frame in hand. *)
Lemma bp_gen_install b st pins pid fid p r :
  bp_gen (Some fid) b st pins → frame b fid = Some p → page_table_ b !! pid = None →
  page_ok (disk_manager_ b) st (<[pid := (1%nat, false)]> pins) pid p → lru_wf r →
  (∀ g, g ∈ recency r ↔ g = fid ∨ g ∈ recency (replacer_ b)) →
  evictable_ r = evictable_ (replacer_ b) ∖ {[fid]} →
  bp_inv (set_replacer r (set_page_table (<[pid := fid]> (page_table_ b)) b)) st
    (<[pid := (1%nat, false)]> pins).
Proof.
  intros Hb Hp Hnone Hok Hwf Ho He.
  pose proof (bp_gen_unmapped_unpinned _ _ _ _ _ Hb Hnone) as Hpin.
  destruct (bg_hand _ _ _ _ Hb fid eq_refl) as [Hfr Hno].
  destruct Hb. split; simpl; try done.
  - intros q g [[<- <-]|[Hne Hq]]%lookup_insert_Some; [eauto|].
    destruct (bg_map0 _ _ Hq) as (p' & Hp' & Hok'). exists p'. split; [done|].
    eapply page_ok_mono; [exact Hok'|done|..].
    + by rewrite pin_of_insert, decide_False.
    + by rewrite pending_insert, decide_False.
    + done.
  - intros g Hg. destruct (bg_free0 g Hg) as (? & Hh & Hm). split; [done|]. split; [done|].
    intros q [[<- <-]|[Hne Hq]]%lookup_insert_Some; [done|by eapply Hm].
  - intros g Hg. destruct (bg_cover0 g Hg) as [?|[[= ->]|[q Hq]]]; [by left|..]; right; right.
    + exists pid. by rewrite lookup_insert_eq.
    + exists q. rewrite lookup_insert_ne; [done|]. congruence.
  - intros g. rewrite Ho, bg_order0. split.
    + intros [->|[q Hq]]; [exists pid; by rewrite lookup_insert_eq|].
      exists q. rewrite lookup_insert_ne; [done|congruence].
    + intros [q [[<- <-]|[Hne Hq]]%lookup_insert_Some]; eauto.
  - intros g. rewrite He, elem_of_difference, elem_of_singleton, bg_ev0. split.
    + intros [(q & Hq & Hn) Hne]. exists q.
      assert (q ≠ pid) by congruence. by rewrite !lookup_insert_ne by done.
    + intros (q & [[<- <-]|[Hne Hq]]%lookup_insert_Some & Hn).
      { by rewrite lookup_insert_eq in Hn. }
      rewrite lookup_insert_ne in Hn by done. split; [eauto|]. intros ->. by apply (Hno q).
  - intros q n w [[<- [= <- <-]]|[Hne Hq]]%lookup_insert_Some.
    + split; [lia|]. split; [lia|]. rewrite lookup_insert_eq. eauto.
    + destruct (bg_pins0 _ _ _ Hq) as (? & ? & ?). split; [done|]. split; [done|].
      by rewrite lookup_insert_ne.
  - intros q [Hq Hne]%lookup_insert_None Hr. eauto.
Qed.

Lemma install_spec b st pins pid fid p :
  bp_gen (Some fid) b st pins → frame b fid = Some p → page_table_ b !! pid = None →
  page_ok (disk_manager_ b) st (<[pid := (1%nat, false)]> pins) pid p →
  ∃ b', install pid fid b = (b', Ok tt) ∧ pool_size_ b' = pool_size_ b ∧
    page_table_ b' = <[pid := fid]> (page_table_ b) ∧
    bp_inv b' st (pin_inc pins pid).
Proof.
  intros Hb Hp Hn Hok. unfold install. rewrite bindM_get, bindM_put.
  destruct (lru_touch (replacer_ b) fid (bg_lru _ _ _ _ Hb)) as (r1 & r2 & H1 & H2 & Hw & Ho & He).
  set (b1 := set_page_table _ b).
  rewrite (bindM_Ok _ _ _ _ _ (on_lru_ok _ b1 _ _ H1)).
  rewrite (on_lru_ok _ (set_replacer r1 b1) _ _ H2).
  eexists. split_and!; [done..|].
  rewrite pin_inc_None by by eapply bp_gen_unmapped_unpinned.
  by apply (bp_gen_install b st pins pid fid p r2).
Qed.

(** One resident page changes its frame, its contents or its pins. *)
Lemma bp_inv_update b st pins pins' pid fid q r :
  bp_inv b st pins → page_table_ b !! pid = Some fid →
  (∀ k, k ≠ pid → pins' !! k = pins !! k) →
  (∀ n w, pins' !! pid = Some (n, w) → (0 < n)%nat ∧ Z.of_nat n < 2 ^ 31) →
  page_ok (disk_manager_ b) (<[pid := pdata_ q]> st) pins' pid q → lru_wf r →
  (∀ g, g ∈ recency r ↔ g ∈ recency (replacer_ b)) →
  (∀ g, g ∈ evictable_ r ↔
     (g ≠ fid ∧ g ∈ evictable_ (replacer_ b)) ∨ (g = fid ∧ pins' !! pid = None)) →
  bp_inv (set_replacer r (put_frame fid q b)) (<[pid := pdata_ q]> st) pins'.
Proof.
  intros Hb Hpid Hoff Hn Hok Hwf Ho He.
  destruct (bg_map _ _ _ _ Hb _ _ Hpid) as (p & Hp & Hokp).
  assert (Hin : is_Some (st !! pid)) by (rewrite (po_store _ _ _ _ _ Hokp); eauto).
  assert (Hinj : ∀ k, page_table_ b !! k = Some fid → k = pid).
  { intros k Hk. symmetry. exact (page_table_inj _ _ _ _ _ _ _ Hb Hpid Hk). }
  destruct Hb. split; simpl; try done.
  - by rewrite length_insert.
  - intros k g Hk. change (frame (set_replacer r (put_frame fid q b)) g) with
      (frame (put_frame fid q b) g). rewrite (frame_put _ _ _ _ _ Hp).
    case_decide as Hg; [subst g; rewrite (Hinj k Hk); eauto|].
    assert (Hne : k ≠ pid) by congruence.
    destruct (bg_map0 _ _ Hk) as (p' & Hp' & Hok'). exists p'. split; [done|].
    eapply page_ok_mono; [exact Hok'|..].
    + by rewrite lookup_insert_ne.
    + unfold pin_of. by rewrite Hoff.
    + unfold pending. by rewrite Hoff.
    + done.
  - intros g. by rewrite Ho.
  - intros g. rewrite He, bg_ev0. split.
    + intros [[Hne (k & Hk & Hkn)]|[-> Hpn]]; [|by exists pid].
      exists k. rewrite Hoff; [done|congruence].
    + intros (k & Hk & Hkn). destruct (decide (k = pid)) as [->|Hne].
      { right. split; [congruence|done]. }
      left. rewrite Hoff in Hkn by done. split; [|eauto]. intros ->. by apply Hne, Hinj.
  - intros k n w Hk. destruct (decide (k = pid)) as [->|Hne].
    + destruct (Hn _ _ Hk). split; [done|]. split; [done|]. rewrite Hpid. eauto.
    + rewrite Hoff in Hk by done. eauto.
  - rewrite map_size_insert. destruct Hin as [? ->]. done.
  - intros k. rewrite <- bg_dom0, lookup_insert. case_decide; [subst k|done].
    split; [done|eauto].
  - intros k Hk Hr. rewrite lookup_insert_ne by congruence. eauto.
Qed.

Lemma bp_inv_update_same b st pins pins' pid fid p q r :
  bp_inv b st pins → page_table_ b !! pid = Some fid → frame b fid = Some p →
  pdata_ q = pdata_ p →
  (∀ k, k ≠ pid → pins' !! k = pins !! k) →
  (∀ n w, pins' !! pid = Some (n, w) → (0 < n)%nat ∧ Z.of_nat n < 2 ^ 31) →
  page_ok (disk_manager_ b) st pins' pid q → lru_wf r →
  (∀ g, g ∈ recency r ↔ g ∈ recency (replacer_ b)) →
  (∀ g, g ∈ evictable_ r ↔
     (g ≠ fid ∧ g ∈ evictable_ (replacer_ b)) ∨ (g = fid ∧ pins' !! pid = None)) →
  bp_inv (set_replacer r (put_frame fid q b)) st pins'.
Proof.
  intros Hb Hpid Hp Hd Hoff Hn Hok Hwf Ho He.
  rewrite <- (insert_id st pid (pdata_ q)) by apply Hok.
  eapply bp_inv_update; eauto. by rewrite insert_id by apply Hok.
Qed.

Lemma all_pinned_size b st pins :
  bp_inv b st pins → all_pinned b pins → (pool_size_ b ≤ size pins)%nat.
Proof.
  intros Hb Hall. rewrite <- (length_seq (pool_size_ b) 0).
  set (f := λ i, match frame b (Z.of_nat i) with Some p => page_id_ p | None => -1 end).
  assert (Hf : ∀ i, i ∈ seq 0 (pool_size_ b) →
    page_table_ b !! f i = Some (Z.of_nat i) ∧ is_Some (pins !! f i)).
  { intros i Hi%elem_of_seq. destruct (Hall (Z.of_nat i)) as (pid & Hpid & Hpin); [lia|].
    destruct (bg_map _ _ _ _ Hb _ _ Hpid) as (p & Hp & Hok). unfold f. rewrite Hp.
    by rewrite (po_id _ _ _ _ _ Hok). }
  rewrite <- (length_fmap f), <- size_dom.
  rewrite <- (elem_of_list_to_set_size (f <$> seq 0 (pool_size_ b))).
  - apply subseteq_size. intros x. rewrite elem_of_list_to_set, list_elem_of_fmap.
    intros (i & -> & Hi). apply elem_of_dom. by apply Hf.
  - apply NoDup_fmap_2_strong; [|apply NoDup_seq]. intros x y Hx Hy Heq.
    destruct (Hf x Hx) as [H1 _]. destruct (Hf y Hy) as [H2 _]. rewrite Heq, H2 in H1.
    injection H1. lia.
Qed.

(** At most as many pages are pinned as there are frames. *)
Lemma pinned_size b st pins : bp_inv b st pins → (size pins ≤ pool_size_ b)%nat.
Proof.
  intros Hb. rewrite <- (length_seq (pool_size_ b) 0), <- size_dom.
  set (f := λ i, match frame b (Z.of_nat i) with Some p => page_id_ p | None => -1 end).
  rewrite <- (length_fmap f). etrans; [|apply (list_to_set_size_le (f <$> seq 0 (pool_size_ b)))].
  apply subseteq_size. intros pid [[n w] Hp]%elem_of_dom.
  destruct (bg_pins _ _ _ _ Hb _ _ _ Hp) as (_ & _ & fid & Hpid).
  destruct (bg_map _ _ _ _ Hb _ _ Hpid) as (p & Hfr & Hok).
  pose proof (frame_is_Some _ _ _ Hfr) as Hr. rewrite (bg_len _ _ _ _ Hb) in Hr.
  apply elem_of_list_to_set, list_elem_of_fmap. exists (Z.to_nat fid). split.
  - unfold f. rewrite Z2Nat.id, Hfr by lia. symmetry. apply Hok.
  - apply elem_of_seq. lia.
Qed.

(** Dropping an unpinned resident page: its frame is free, its contents are what
    the disk has. *)
Lemma bp_inv_forget b st pins pid fid q r :
  bp_inv b st pins → page_table_ b !! pid = Some fid → pins !! pid = None →
  (∃ p, frame b fid = Some p) → lru_wf r →
  recency r = al_remove fid (recency (replacer_ b)) →
  evictable_ r = evictable_ (replacer_ b) ∖ {[fid]} →
  bp_inv (put_frame fid q (set_free_list (free_list_ b ++ [fid])
    (set_replacer r (set_page_table (delete pid (page_table_ b)) b))))
    (<[pid := disk_page (disk_manager_ b) pid]> st) pins.
Proof.
  intros Hb Hpid Hpin [p Hp] Hwf Ho He.
  assert (Hinj : ∀ k, page_table_ b !! k = Some fid → k = pid).
  { intros k Hk. symmetry. exact (page_table_inj _ _ _ _ _ _ _ Hb Hpid Hk). }
  pose proof (resident_frame_range _ _ _ _ _ _ Hb Hpid) as Hfr.
  pose proof (resident_range _ _ _ _ _ _ Hb Hpid) as Hpr.
  assert (Hin : is_Some (st !! pid)) by by apply (bg_dom _ _ _ _ Hb).
  assert (Hd : ∀ k g, delete pid (page_table_ b) !! k = Some g ↔
    k ≠ pid ∧ g ≠ fid ∧ page_table_ b !! k = Some g).
  { intros k g. rewrite lookup_delete_Some. naive_solver. }
  destruct Hb. split; simpl; try done.
  - by rewrite length_insert.
  - intros k g (Hk & Hg & Hkg)%Hd.
    change (frame (put_frame fid q _) g) with (frame (put_frame fid q b) g).
    rewrite (frame_put _ _ _ _ _ Hp), decide_False by done.
    destruct (bg_map0 _ _ Hkg) as (p' & Hp' & Hok'). exists p'. split; [done|].
    eapply page_ok_mono; [exact Hok'| |done..]. by rewrite lookup_insert_ne.
  - apply NoDup_app. split; [done|]. split; [|apply NoDup_singleton].
    intros g Hg ->%list_elem_of_singleton. destruct (bg_free0 _ Hg) as (_ & _ & Hno).
    by apply (Hno pid).
  - intros g [Hg|Hg%list_elem_of_singleton]%elem_of_app.
    + destruct (bg_free0 _ Hg) as (? & ? & Hno). split; [done|]. split; [done|].
      intros k (_ & _ & Hk)%Hd. by apply (Hno k).
    + subst g. split; [done|]. split; [done|]. by intros k (_ & ? & _)%Hd.
  - intros g Hg. rewrite elem_of_app, list_elem_of_singleton.
    destruct (decide (g = fid)) as [->|Hne]; [by left; right|].
    destruct (bg_cover0 g Hg) as [?|[?|[k Hk]]]; [by left; left|done|].
    right; right. exists k. apply Hd. split; [|done]. congruence.
  - intros g. rewrite Ho, elem_of_al_remove, bg_order0. setoid_rewrite Hd. naive_solver.
  - intros g. rewrite He, elem_of_difference, elem_of_singleton, bg_ev0. setoid_rewrite Hd.
    naive_solver.
  - intros k n w Hk. destruct (bg_pins0 _ _ _ Hk) as (? & ? & ?). split; [done|]. split; [done|].
    rewrite lookup_delete_ne; [done|congruence].
  - rewrite map_size_insert. destruct Hin as [? ->]. done.
  - intros k. rewrite <- bg_dom0, lookup_insert. case_decide; [subst k|done].
    split; [done|eauto].
  - intros k Hk Hr. destruct (decide (k = pid)) as [->|Hne]; [by rewrite lookup_insert_eq|].
    rewrite lookup_insert_ne by done. rewrite lookup_delete_ne in Hk by done. eauto.
Qed.

(** ** The methods *)
Definition fetch_post (b b' : BufferPoolManager) (st : pages) (pins : pinmap) (pid : Z)
    (r : option Z) : Prop :=
  keeps b b' pins ∧
  match r with
  | Some fid => bp_inv b' st (pin_inc pins pid) ∧ page_table_ b' !! pid = Some fid
  | None => bp_inv b' st pins ∧ page_table_ b !! pid = None ∧ all_pinned b pins
  end.

Lemma FetchPage_hit b st pins pid fid :
  bp_inv b st pins → page_table_ b !! pid = Some fid →
  Z.of_nat (pin_of pins pid) + 1 < 2 ^ 31 →
  ∃ b', FetchPage pid b = (b', Ok (Some fid)) ∧ fetch_post b b' st pins pid (Some fid).
Proof.
  intros Hb Hpid Hmax. unfold FetchPage. rewrite bindM_get, Hpid.
  destruct (bg_map _ _ _ _ Hb _ _ Hpid) as (p & Hp & Hok).
  rewrite (bindM_Ok _ _ _ _ _ (get_frame_ok _ _ _ Hp)), (po_pin _ _ _ _ _ Hok).
  rewrite (bindM_lift _ (Z.of_nat (S (pin_of pins pid)))).
  2:{ unfold add_s32. rewrite (proj2 (in_s32_spec _)) by lia. f_equal. lia. }
  rewrite (bindM_Ok _ _ _ _ _ (upd_frame_ok _ _ _ _ Hp)).
  destruct (lru_touch (replacer_ b) fid (bg_lru _ _ _ _ Hb))
    as (r1 & r2 & H1 & H2 & Hw & Ho & He).
  set (b1 := put_frame fid _ b).
  rewrite (bindM_Ok _ _ _ _ _ (on_lru_ok _ b1 _ _ H1)).
  rewrite (bindM_Ok _ _ _ _ _ (on_lru_ok _ (set_replacer r1 b1) _ _ H2)).
  eexists. split; [done|]. split; [by split|]. split; [|done].
  change (bp_inv (set_replacer r2 b1) st (pin_inc pins pid)). unfold b1, pin_inc.
  eapply bp_inv_update_same; try done.
  - intros k Hk. by rewrite lookup_insert_ne.
  - intros n w. rewrite lookup_insert_eq. intros [= <- <-]. lia.
  - destruct Hok as [K1 K2 K3 K4 K5]. split; simpl; try done.
    + by rewrite pin_of_insert, decide_True.
    + by rewrite pending_insert, decide_True.
  - intros g. rewrite Ho. split; [|by right]. intros [->|?]; [|done].
    apply (bg_order _ _ _ _ Hb). eauto.
  - intros g. rewrite He, lookup_insert_eq. set_solver.
Qed.

(** Installing a freshly filled frame after [GetFreeFrame]. *)
Lemma keeps_install b b1 b2 pins pid fid :
  keeps b b1 pins → pins !! pid = None → pool_size_ b2 = pool_size_ b1 →
  page_table_ b2 = <[pid := fid]> (page_table_ b1) → keeps b b2 pins.
Proof.
  intros [H1 H2] Hpin Hsz Hpt. split; [congruence|]. intros k g Hk Hg. rewrite Hpt.
  rewrite lookup_insert_ne; [by apply H2|]. intros ->. rewrite Hpin in Hk.
  by apply is_Some_None in Hk.
Qed.

Lemma FetchPage_miss b st pins pid :
  bp_inv b st pins → is_Some (st !! pid) → page_table_ b !! pid = None →
  ∃ b' r, FetchPage pid b = (b', Ok r) ∧ fetch_post b b' st pins pid r.
Proof.
  intros Hb Hst Hpid. unfold FetchPage. rewrite bindM_get, Hpid.
  destruct (GetFreeFrame_spec b st pins Hb) as (b1 & fid & Hg & Hk & Hsub & Hcase).
  rewrite (bindM_Ok _ _ _ _ _ Hg).
  destruct Hcase as [(Hpos & Hb1 & p & Hp)|(-> & Hb1 & _ & Hall)].
  2:{ by exists b1, None. }
  rewrite (proj2 (Z.eqb_neq fid (-1))) by lia.
  rewrite (bindM_Ok _ _ _ _ _ (upd_frame_ok _ _ _ _ Hp)).
  set (p2 := set_dirty false _). set (b2 := put_frame fid p2 b1).
  pose proof (bp_gen_put_hand _ _ _ _ _ _ Hb1 Hp : bp_gen (Some fid) b2 st pins) as Hb2.
  assert (Hr : 0 ≤ pid < num_pages_ (disk_manager_ b2)) by by apply (bg_dom _ _ _ _ Hb2).
  rewrite (bindM_Ok _ _ _ _ _ (on_disk_ok _ b2 _ _ (ReadPage_ok _ (bg_disk _ _ _ _ Hb2) pid Hr))).
  assert (Hp2 : frame b2 fid = Some p2).
  { unfold b2. by rewrite (frame_put _ _ _ _ _ Hp), decide_True. }
  replace (set_disk (disk_manager_ b2) b2) with b2 by (by destruct b2).
  rewrite (bindM_Ok _ _ _ _ _ (upd_frame_ok _ _ _ _ Hp2)).
  set (p3 := set_pdata _ p2). set (b3 := put_frame fid p3 b2).
  pose proof (bp_gen_put_hand _ _ _ _ _ _ Hb2 Hp2 : bp_gen (Some fid) b3 st pins) as Hb3.
  destruct (install_spec b3 st pins pid fid p3) as (b4 & Hi & Hsz & Hpt & Hb4); [done|..].
  - unfold b3. by rewrite (frame_put _ _ _ _ _ Hp2), decide_True.
  - by apply Hsub.
  - split; simpl; try done.
    + by rewrite pin_of_insert, decide_True.
    + apply (bg_away _ _ _ _ Hb3); [by apply Hsub|done].
    + by apply disk_page_length; [apply (bg_disk _ _ _ _ Hb2)|].
  - rewrite (bindM_Ok _ _ _ _ _ Hi). exists b4, (Some fid). split; [done|].
    split; [|split; [done|by rewrite Hpt, lookup_insert_eq]].
    eapply keeps_install; [exact Hk| |exact Hsz|exact Hpt].
    exact (bp_gen_unmapped_unpinned _ _ _ _ _ Hb Hpid).
Qed.

Lemma FetchPage_spec b st pins pid :
  bp_inv b st pins → is_Some (st !! pid) → Z.of_nat (pin_of pins pid) + 1 < 2 ^ 31 →
  ∃ b' r, FetchPage pid b = (b', Ok r) ∧ fetch_post b b' st pins pid r.
Proof.
  intros Hb Hst Hmax. destruct (page_table_ b !! pid) as [fid|] eqn:Hpid.
  - destruct (FetchPage_hit b st pins pid fid) as (b' & ? & ?); eauto.
  - by apply FetchPage_miss.
Qed.

(** Allocating a page on disk extends the contents with a zero page. *)
Lemma bp_gen_allocate hand b st pins :
  bp_gen hand b st pins → Z.of_nat (size st) + 1 < 2 ^ 31 →
  ∃ d', AllocatePage (disk_manager_ b) = (d', Ok (Z.of_nat (size st))) ∧
    st !! Z.of_nat (size st) = None ∧ disk_page d' (Z.of_nat (size st)) = zero_page ∧
    bp_gen hand (set_disk d' b) (<[Z.of_nat (size st) := zero_page]> st) pins.
Proof.
  intros Hb Hmax. pose proof (bg_num _ _ _ _ Hb) as Hnum.
  destruct (AllocatePage_ok _ (bg_disk _ _ _ _ Hb)) as (d' & Ha & Hok & Hn & Hz & Hpg); [lia|].
  rewrite Hnum in *. set (n := Z.of_nat (size st)) in *.
  assert (Hfresh : st !! n = None).
  { apply eq_None_not_Some. rewrite (bg_dom _ _ _ _ Hb). lia. }
  exists d'. split_and!; try done.
  pose proof (λ q g, resident_range hand b st pins q g Hb) as Hres.
  destruct Hb. split; simpl; try done.
  - intros q g Hq. destruct (bg_map0 _ _ Hq) as (p & Hp & Hokp). exists p. split; [done|].
    specialize (Hres _ _ Hq). eapply page_ok_mono; [exact Hokp| |done|done|].
    + rewrite lookup_insert_ne; [done|lia].
    + apply Hpg. lia.
  - rewrite Hn, map_size_insert_None by done. lia.
  - intros q. rewrite Hn, lookup_insert. case_decide as Hq.
    + split; [lia|eauto].
    + rewrite bg_dom0. lia.
  - intros q Hq Hr. rewrite Hn in Hr. destruct (decide (q = n)) as [->|Hne].
    + by rewrite lookup_insert_eq, Hz.
    + rewrite lookup_insert_ne, Hpg by lia. apply bg_away0; [done|lia].
Qed.

Lemma NewPage_spec b st pins :
  bp_inv b st pins → Z.of_nat (size st) + 1 < 2 ^ 31 →
  ∃ b' r, NewPage b = (b', Ok r) ∧ keeps b b' pins ∧
    match r with
    | Some (pid, fid) =>
        pid = Z.of_nat (size st) ∧ st !! pid = None ∧
        bp_inv b' (<[pid := zero_page]> st) (pin_inc pins pid) ∧
        page_table_ b' !! pid = Some fid
    | None => bp_inv b' st pins ∧ all_pinned b pins
    end.
Proof.
  intros Hb Hmax. unfold NewPage.
  destruct (GetFreeFrame_spec b st pins Hb) as (b1 & fid & Hg & Hk & Hsub & Hcase).
  rewrite (bindM_Ok _ _ _ _ _ Hg).
  destruct Hcase as [(Hpos & Hb1 & p & Hp)|(-> & Hb1 & _ & Hall)].
  2:{ by exists b1, None. }
  rewrite (proj2 (Z.eqb_neq fid (-1))) by lia.
  destruct (bp_gen_allocate _ _ _ _ Hb1 Hmax) as (d' & Ha & Hnone & Hz & Hb2).
  rewrite (bindM_Ok _ _ _ _ _ (on_disk_ok _ b1 _ _ Ha)).
  set (b2 := set_disk d' b1) in *. set (pid := Z.of_nat (size st)) in *.
  assert (Hp2 : frame b2 fid = Some p) by exact Hp.
  rewrite (bindM_Ok _ _ _ _ _ (upd_frame_ok _ _ _ _ Hp2)).
  set (p3 := set_dirty false _). set (b3 := put_frame fid p3 b2).
  pose proof (bp_gen_put_hand _ _ _ _ _ p3 Hb2 Hp2 : bp_gen (Some fid) b3 _ pins) as Hb3.
  assert (Hpid : page_table_ b !! pid = None).
  { apply eq_None_not_Some. intros [g Hg']. pose proof (resident_range _ _ _ _ _ _ Hb Hg').
    rewrite (bg_num _ _ _ _ Hb) in *. lia. }
  destruct (install_spec b3 _ pins pid fid p3 Hb3) as (b4 & Hi & Hsz & Hpt & Hb4).
  - unfold b3. by rewrite (frame_put _ _ _ _ _ Hp2), decide_True.
  - by apply Hsub.
  - split; simpl; try done.
    + by rewrite pin_of_insert, decide_True.
    + by rewrite lookup_insert_eq.
  - rewrite (bindM_Ok _ _ _ _ _ Hi). exists b4, (Some (pid, fid)). split; [done|].
    split; [|by rewrite Hpt, lookup_insert_eq].
    eapply keeps_install; [exact Hk| |exact Hsz|exact Hpt].
    exact (bp_gen_unmapped_unpinned _ _ _ _ _ Hb Hpid).
Qed.

(** The frame of page [pid] after UnpinPage, before the replacer is told. *)
Lemma unpin_frame_inv b st pins pid fid p n w dirty :
  bp_inv b st pins → page_table_ b !! pid = Some fid → frame b fid = Some p →
  pins !! pid = Some (n, w) → page_ok (disk_manager_ b) st pins pid p → (1 < n)%nat →
  bp_inv (put_frame fid (set_pin_count (Z.of_nat (n - 1)) (set_dirty (is_dirty_ p || dirty) p)) b) st
    (<[pid := ((n - 1)%nat, w && negb dirty)]> pins).
Proof.
  intros Hb Hpid Hp Hpin Hok Hn. set (q := set_pin_count _ _).
  change (bp_inv (set_replacer (replacer_ b) (put_frame fid q b)) st
    (<[pid := ((n - 1)%nat, w && negb dirty)]> pins)).
  destruct (bg_pins _ _ _ _ Hb _ _ _ Hpin) as (_ & Hmax & _).
  eapply bp_inv_update_same; try done.
  - intros k Hk. by rewrite lookup_insert_ne.
  - intros n' w'. rewrite lookup_insert_eq. intros [= <- <-]. lia.
  - pose proof (pending_Some _ _ _ _ Hpin) as Hpend. destruct Hok as [K1 K2 K3 K4 K5]. split; simpl; try done.
    + by rewrite pin_of_insert, decide_True.
    + rewrite pending_insert, decide_True by done. simpl.
      intros [Hd1 ->]%orb_false_iff Hw. apply K5; [done|]. by rewrite Hpend, <- Hw, andb_true_r.
  - apply (bg_lru _ _ _ _ Hb).
  - intros g. rewrite lookup_insert_eq. split; [|by intros [[_ ?]|[_ ?]]].
    intros Hg. left. split; [|done]. intros ->.
    apply (bg_ev _ _ _ _ Hb) in Hg as (k & Hk & Hkn).
    rewrite (page_table_inj _ _ _ _ _ _ _ Hb Hpid Hk) in Hpin. congruence.
Qed.
Lemma unpin_last_inv b st pins pid fid p w dirty r :
  bp_inv b st pins → page_table_ b !! pid = Some fid → frame b fid = Some p →
  pins !! pid = Some (1%nat, w) → page_ok (disk_manager_ b) st pins pid p → w && negb dirty = false →
  SetEvictable fid true (replacer_ b) = (r, Ok tt) →
  bp_inv (set_replacer r (put_frame fid (set_pin_count 0 (set_dirty (is_dirty_ p || dirty) p)) b)) st
    (delete pid pins).
Proof.
  intros Hb Hpid Hp Hpin Hok Hlast Hse.
  destruct (SetEvictable_refines _ (bg_lru _ _ _ _ Hb) fid true) as (r' & Hse' & Ha & Hwf).
  rewrite Hse in Hse'. injection Hse' as <-. injection Ha as Ho He.
  eapply bp_inv_update_same; try done.
  - intros k Hk. by rewrite lookup_delete_ne.
  - intros ? ?. by rewrite lookup_delete_eq.
  - destruct Hok as [K1 K2 K3 K4 K5]. split; simpl; try done.
    + by rewrite pin_of_delete, decide_True.
    + intros [Hd1 ->]%orb_false_iff _. apply K5; [done|].
      rewrite (pending_Some _ _ _ _ Hpin). by rewrite andb_true_r in Hlast.
  - intros g. by rewrite Ho.
  - intros g. rewrite He, lookup_delete_eq. destruct (decide (g = fid)); set_solver.
Qed.

Lemma UnpinPage_spec b st pins pid n w dirty :
  bp_inv b st pins → pins !! pid = Some (n, w) → (n = 1%nat → w && negb dirty = false) →
  ∃ b', UnpinPage pid dirty b = (b', Ok true) ∧ pool_size_ b' = pool_size_ b ∧
    page_table_ b' = page_table_ b ∧ bp_inv b' st (pin_dec pins pid dirty).
Proof.
  intros Hb Hpin Hlast. destruct (bg_pins _ _ _ _ Hb _ _ _ Hpin) as (Hpos & Hmax & fid & Hpid).
  unfold UnpinPage. rewrite bindM_get, Hpid.
  destruct (bg_map _ _ _ _ Hb _ _ Hpid) as (p & Hp & Hok).
  rewrite (bindM_Ok _ _ _ _ _ (get_frame_ok _ _ _ Hp)).
  pose proof (po_pin _ _ _ _ _ Hok) as Hpc. rewrite (pin_of_Some _ _ _ _ Hpin) in Hpc.
  rewrite Hpc, (proj2 (Z.eqb_neq _ 0)) by lia.
  rewrite (bindM_Ok _ _ _ _ _ (upd_frame_ok _ _ _ _ Hp)).
  rewrite (bindM_lift _ (Z.of_nat (n - 1))).
  2:{ unfold add_s32. rewrite (proj2 (in_s32_spec _)) by lia. f_equal. lia. }
  set (p1 := set_dirty _ p).
  assert (Hp1 : frame (put_frame fid p1 b) fid = Some p1)
    by by rewrite (frame_put _ _ _ _ _ Hp), decide_True.
  rewrite (bindM_Ok _ _ _ _ _ (upd_frame_ok _ _ _ _ Hp1)), (put_frame_put _ _ _ _ _ Hp).
  destruct (SetEvictable_refines _ (bg_lru _ _ _ _ Hb) fid true) as (r & Hse & _).
  unfold pin_dec. rewrite Hpin. destruct n as [|[|n]]; [lia|..].
  - rewrite Z.eqb_refl. set (q := set_pin_count _ p1).
    rewrite (bindM_Ok _ _ _ _ _ (on_lru_ok _ (put_frame fid q b) _ _ Hse)).
    eexists. split_and!; [done..|]. apply (unpin_last_inv b st pins pid fid p w dirty r); auto.
  - rewrite (proj2 (Z.eqb_neq _ 0)) by lia. rewrite bindM_ret.
    eexists. split_and!; [done..|]. apply (unpin_frame_inv b st pins pid fid p (S (S n)) w dirty); auto. lia.
Qed.

Lemma GetData_spec b st pins pid fid :
  bp_inv b st pins → page_table_ b !! pid = Some fid →
  ∃ d, st !! pid = Some d ∧ GetData fid b = (b, Ok d).
Proof.
  intros Hb Hpid. destruct (bg_map _ _ _ _ Hb _ _ Hpid) as (p & Hp & Hok).
  exists (pdata_ p). split; [apply Hok|]. unfold GetData.
  by rewrite (bindM_Ok _ _ _ _ _ (get_frame_ok _ _ _ Hp)).
Qed.

Lemma SetData_spec b st pins pid fid d :
  bp_inv b st pins → is_Some (pins !! pid) → page_table_ b !! pid = Some fid →
  length d = Z.to_nat PAGE_SIZE →
  ∃ b', SetData fid d b = (b', Ok tt) ∧ pool_size_ b' = pool_size_ b ∧
    page_table_ b' = page_table_ b ∧ bp_inv b' (<[pid := d]> st) (pin_write pins pid).
Proof.
  intros Hb [[n w] Hpin] Hpid Hlen. destruct (bg_map _ _ _ _ Hb _ _ Hpid) as (p & Hp & Hok).
  unfold SetData. rewrite (upd_frame_ok _ _ _ _ Hp). eexists. split_and!; [done..|].
  change (bp_inv (set_replacer (replacer_ b) (put_frame fid (set_pdata d p) b))
    (<[pid := pdata_ (set_pdata d p)]> st) (pin_write pins pid)).
  destruct (bg_pins _ _ _ _ Hb _ _ _ Hpin) as (Hpos & Hmax & _).
  unfold pin_write. rewrite (pin_of_Some _ _ _ _ Hpin).
  apply (bp_inv_update b st pins); try done.
  - intros k Hk. by rewrite lookup_insert_ne.
  - intros n' w'. rewrite lookup_insert_eq. intros [= <- <-]. lia.
  - destruct Hok as [K1 K2 K3 K4 K5]. split; simpl; try done.
    + by rewrite pin_of_insert, decide_True, K2, (pin_of_Some _ _ _ _ Hpin).
    + by rewrite lookup_insert_eq.
    + by rewrite pending_insert, decide_True.
  - apply (bg_lru _ _ _ _ Hb).
  - intros g. rewrite lookup_insert_eq. split; [|by intros [[_ ?]|[_ ?]]].
    intros Hg. left. split; [|done]. intros ->.
    apply (bg_ev _ _ _ _ Hb) in Hg as (k & Hk & Hkn).
    rewrite (page_table_inj _ _ _ _ _ _ _ Hb Hpid Hk) in Hpin. congruence.
Qed.

Lemma FlushPage_spec b st pins pid :
  bp_inv b st pins →
  ∃ b', FlushPage pid b = (b', Ok (bool_decide (is_Some (page_table_ b !! pid)))) ∧
    pool_size_ b' = pool_size_ b ∧ page_table_ b' = page_table_ b ∧ bp_inv b' st pins ∧
    (is_Some (page_table_ b !! pid) → st !! pid = Some (disk_page (disk_manager_ b') pid)).
Proof.
  intros Hb. unfold FlushPage. rewrite bindM_get.
  destruct (page_table_ b !! pid) as [fid|] eqn:Hpid.
  2:{ by exists b. }
  destruct (bg_map _ _ _ _ Hb _ _ Hpid) as (p & Hp & Hok).
  rewrite (bindM_Ok _ _ _ _ _ (get_frame_ok _ _ _ Hp)).
  destruct (bp_gen_write _ _ _ _ pid (pdata_ p) Hb) as (d' & Hw & Hb' & Hpg & _);
    [apply Hok|apply Hok|].
  erewrite bindM_Ok by (apply on_disk_ok; exact Hw).
  assert (Hp2 : frame (set_disk d' b) fid = Some p) by exact Hp.
  rewrite (bindM_Ok _ _ _ _ _ (upd_frame_ok _ _ _ _ Hp2)).
  eexists. split_and!; [by rewrite bool_decide_true by eauto|done|done| |].
  - apply (bp_gen_put_page _ _ _ _ pid); [done..|]. simpl.
    destruct Hok as [H1 H2 H3 H4 H5]. by split.
  - intros _. simpl. rewrite Hpg. apply Hok.
Qed.

(** Every frame of the entries is clean after the loop, and clean frames stay
    clean. *)
Lemma flush_entries_spec l b st pins :
  bp_inv b st pins → Forall (λ e, page_table_ b !! e.1 = Some e.2) l →
  ∃ b', flush_entries l b = (b', Ok tt) ∧ pool_size_ b' = pool_size_ b ∧
    page_table_ b' = page_table_ b ∧ bp_inv b' st pins ∧
    ∀ pid fid p, page_table_ b !! pid = Some fid → frame b' fid = Some p →
      ((pid, fid) ∈ l ∨ ∃ p0, frame b fid = Some p0 ∧ is_dirty_ p0 = false) →
      is_dirty_ p = false.
Proof.
  revert b. induction l as [|[pid fid] l IH]; intros b Hb Hl; simpl.
  { exists b. split_and!; try done.
    intros q g p Hq Hp [H%elem_of_nil|(p0 & Hp0 & Hd)]; [done|congruence]. }
  apply Forall_cons in Hl as [Hpid Hl]. simpl in Hpid.
  destruct (bg_map _ _ _ _ Hb _ _ Hpid) as (p & Hp & Hok).
  rewrite (bindM_Ok _ _ _ _ _ (get_frame_ok _ _ _ Hp)).
  destruct (write_back _ _ _ _ _ _ _ Hb Hpid Hp) as (b1 & Hwb & Hb1 & Hfr & Hsz & Hpt & _).
  rewrite (po_id _ _ _ _ _ Hok) in Hwb. rewrite (bindM_Ok _ _ _ _ _ Hwb).
  destruct (IH b1 Hb1) as (b' & Hf & Hsz' & Hpt' & Hb' & Hcl); [by rewrite Hpt|].
  exists b'. split_and!; [done|congruence|congruence|done|].
  intros q g p' Hq Hp' Hor. apply (Hcl q g p'); [by rewrite Hpt|done|].
  rewrite elem_of_cons in Hor. destruct Hor as [[[= -> ->]|Hin]|(p0 & Hp0 & Hd)].
  - right. rewrite Hfr, decide_True by done. by eexists.
  - by left.
  - right. rewrite Hfr. case_decide; [by eexists|]. by eexists.
Qed.

Lemma DeletePage_spec b st pins pid :
  bp_inv b st pins →
  ∃ b', DeletePage pid b = (b', Ok (bool_decide (pins !! pid = None))) ∧
    pool_size_ b' = pool_size_ b ∧
    (∀ q g, is_Some (pins !! q) → page_table_ b !! q = Some g → page_table_ b' !! q = Some g) ∧
    bp_inv b' (if decide (is_Some (page_table_ b !! pid) ∧ pins !! pid = None)
               then <[pid := disk_page (disk_manager_ b) pid]> st else st) pins.
Proof.
  intros Hb. unfold DeletePage. rewrite bindM_get.
  destruct (page_table_ b !! pid) as [fid|] eqn:Hpid.
  2:{ pose proof (bp_gen_unmapped_unpinned _ _ _ _ _ Hb Hpid) as Hpin.
      exists b. rewrite bool_decide_true by done. split; [done|]. split; [done|].
      split; [done|]. rewrite decide_False; [done|]. intros [[? ?] _]; done. }
  destruct (bg_map _ _ _ _ Hb _ _ Hpid) as (p & Hp & Hok).
  rewrite (bindM_Ok _ _ _ _ _ (get_frame_ok _ _ _ Hp)), (po_pin _ _ _ _ _ Hok).
  destruct (pins !! pid) as [[n w]|] eqn:Hpin.
  { rewrite (pin_of_Some _ _ _ _ Hpin).
    destruct (bg_pins _ _ _ _ Hb _ _ _ Hpin) as (Hpos & _).
    rewrite (proj2 (Z.ltb_lt 0 _)) by lia. exists b.
    rewrite bool_decide_false by done. split; [done|]. split; [done|].
    split; [done|]. rewrite decide_False; [done|]. intros [_ ?]; done. }
  rewrite pin_of_None by done. simpl. rewrite bindM_put.
  destruct (Remove_refines _ (bg_lru _ _ _ _ Hb) fid) as (r & Hr & Ha & Hwf).
  set (b1 := set_page_table _ b).
  rewrite (bindM_Ok _ _ _ _ _ (on_lru_ok _ b1 _ _ Hr)), bindM_get, bindM_put.
  assert (Hp1 : frame (set_free_list (free_list_ (set_replacer r b1) ++ [fid])
    (set_replacer r b1)) fid = Some p) by exact Hp.
  rewrite (bindM_Ok _ _ _ _ _ (upd_frame_ok _ _ _ _ Hp1)).
  eexists. split_and!; [done|done| |].
  { intros q g Hq Hqg. simpl. rewrite lookup_delete_ne; [done|]. intros ->.
    rewrite Hpin in Hq. by apply is_Some_None in Hq. }
  injection Ha as Ho He.
  apply (bp_inv_forget b st pins pid fid _ r Hb Hpid Hpin (ex_intro _ p Hp) Hwf Ho He).
Qed.

Lemma bp_inv_page_length b st pins pid d :
  bp_inv b st pins → st !! pid = Some d → length d = Z.to_nat PAGE_SIZE.
Proof.
  intros Hb Hd. assert (Hr : 0 ≤ pid < num_pages_ (disk_manager_ b))
    by (apply (bg_dom _ _ _ _ Hb); eauto).
  destruct (page_table_ b !! pid) as [fid|] eqn:Hpid.
  - destruct (bg_map _ _ _ _ Hb _ _ Hpid) as (p & _ & Hok).
    rewrite (po_store _ _ _ _ _ Hok) in Hd. injection Hd as <-. apply Hok.
  - rewrite (bg_away _ _ _ _ Hb _ Hpid Hr) in Hd. injection Hd as <-.
    apply disk_page_length; [apply Hb|done].
Qed.

(** A new pool over a healthy disk. *)
Lemma BufferPoolManager_ctor_inv n d st :
  Z.of_nat n < 2 ^ 31 → disk_ok d → num_pages_ d = Z.of_nat (size st) →
  (∀ pid, is_Some (st !! pid) ↔ 0 ≤ pid < num_pages_ d) →
  (∀ pid, 0 ≤ pid < num_pages_ d → st !! pid = Some (disk_page d pid)) →
  bp_inv (BufferPoolManager_ctor n d) st ∅.
Proof.
  intros Hn Hd Hnum Hdom Hpg.
  assert (Hfree : ∀ fid, fid ∈ (λ i, wrap_s32 (Z.of_nat i)) <$> seq 0 n ↔ 0 ≤ fid < Z.of_nat n).
  { intros fid. rewrite list_elem_of_fmap. split.
    - intros (i & -> & Hi%elem_of_seq). rewrite wrap_s32_id; lia.
    - intros Hf. exists (Z.to_nat fid). rewrite wrap_s32_id by lia.
      split; [lia|]. apply elem_of_seq. lia. }
  split; simpl; try done.
  - apply LRUReplacer_ctor_wf.
  - apply length_replicate.
  - apply NoDup_fmap_2_strong; [|apply NoDup_seq].
    intros i j Hi%elem_of_seq Hj%elem_of_seq. rewrite !wrap_s32_id by lia. lia.
  - intros fid Hf%Hfree. done.
  - intros fid Hf. left. by apply Hfree.
  - intros fid. split; [by intros ?%elem_of_nil|]. by intros [pid Hp].
  - intros fid. split; [set_solver|]. by intros (pid & Hp & _).
  - auto.
Qed.

(** ** The page-cache instance *)
#[export] Instance BufferPool_PageCache : PageCache BufferPoolManager := {
  pc_new := NewPage;
  pc_fetch := FetchPage;
  pc_unpin := UnpinPage;
  pc_read := GetData;
  pc_write := SetData
}.

#[export] Program Instance BufferPool_PageCacheSpec : PageCacheSpec BufferPoolManager := {
  pc_rep := bp_inv;
  pc_cap := pool_size_;
  pc_at b pid fid := page_table_ b !! pid = Some fid
}.
Next Obligation.
  intros b st pins pid n w Hb Hp. simpl in *.
  destruct (bg_pins _ _ _ _ Hb _ _ _ Hp) as (? & _ & fid & Hpid). split; [done|].
  destruct (bg_map _ _ _ _ Hb _ _ Hpid) as (p & _ & Hok). exists (pdata_ p).
  split; apply Hok.
Qed.
Next Obligation.
  intros b st pins pid d Hb Hd. simpl in *. rewrite <- (bg_num _ _ _ _ Hb). split.
  - apply (bg_dom _ _ _ _ Hb). eauto.
  - by eapply bp_inv_page_length.
Qed.
Next Obligation.
  intros b st pins pid Hb Hp. simpl in *. rewrite <- (bg_num _ _ _ _ Hb) in Hp.
  by apply (bg_dom _ _ _ _ Hb).
Qed.
Next Obligation. intros b st pins Hb. exact (pinned_size b st pins Hb). Qed.
Next Obligation.
  intros b st pins pid Hb Hp Hmax. simpl in *.
  destruct (FetchPage_spec b st pins pid Hb Hp Hmax) as (b' & r & Hf & [Hsz Hk] & Hr).
  exists b', r. split_and!; [done..|]. destruct r as [fid|]; [done|].
  destruct Hr as (? & Hn & Hall). split; [done|].
  split; [exact (bp_gen_unmapped_unpinned _ _ _ _ _ Hb Hn)|exact (all_pinned_size _ _ _ Hb Hall)].
Qed.
Next Obligation.
  intros b st pins Hb Hmax. simpl in *.
  destruct (NewPage_spec b st pins Hb Hmax) as (b' & r & Hf & [Hsz Hk] & Hr).
  exists b', r. split_and!; [done..|]. destruct r as [[pid fid]|]; [done|].
  destruct Hr as (? & Hall). split; [done|].
  exact (all_pinned_size _ _ _ Hb Hall).
Qed.
Next Obligation.
  intros b st pins pid n w dirty Hb Hp Hl. simpl in *.
  destruct (UnpinPage_spec b st pins pid n w dirty Hb Hp Hl) as (b' & Hu & Hsz & Hpt & Hb').
  exists b'. split_and!; [done..| |done]. by rewrite Hpt.
Qed.
Next Obligation. intros b st pins pid fid Hb _ Hp. by eapply GetData_spec. Qed.
Next Obligation.
  intros b st pins pid fid d Hb Hp Hat Hl. simpl in *.
  destruct (SetData_spec b st pins pid fid d Hb Hp Hat Hl) as (b' & Hu & Hsz & Hpt & Hb').
  exists b'. split_and!; [done..| |done]. by rewrite Hpt.
Qed.

(** ** Refinement over traces of calls

    The abstract cache: page contents and pins. It may refuse to hand out a page
    only when as many pages are pinned as there are frames. *)
Inductive bp_call :=
  | CNew | CFetch (pid : Z) | CUnpin (pid : Z) (dirty : bool)
  | CRead (pid : Z) | CWrite (pid : Z) (data : list ascii)
  | CFlush (pid : Z) | CFlushAll | CDelete (pid : Z).
Inductive bp_ret := RPage (p : option Z) | RBool (b : bool) | RBytes (l : list ascii) | RUnit.

(** Reads and writes go through the pointer to the frame holding the page. *)
Definition bp_exec (c : bp_call) : M BufferPoolManager bp_ret :=
  match c with
  | CNew => r <- NewPage ;; retM (RPage (fst <$> r))
  | CFetch pid => r <- FetchPage pid ;; retM (RPage ((λ _, pid) <$> r))
  | CUnpin pid dirty => r <- UnpinPage pid dirty ;; retM (RBool r)
  | CRead pid =>
      b <- getM ;; fid <- defM (page_table_ b !! pid) ;; d <- GetData fid ;; retM (RBytes d)
  | CWrite pid data =>
      b <- getM ;; fid <- defM (page_table_ b !! pid) ;; SetData fid data ;; retM RUnit
  | CFlush pid => r <- FlushPage pid ;; retM (RBool r)
  | CFlushAll => FlushAllPages ;; retM RUnit
  | CDelete pid => r <- DeletePage pid ;; retM (RBool r)
  end.
Fixpoint bp_run (cs : list bp_call) : M BufferPoolManager (list bp_ret) :=
  match cs with
  | [] => retM []
  | c :: cs => r <- bp_exec c ;; rs <- bp_run cs ;; retM (r :: rs)
  end.

Inductive abs_step (cap : nat) : pages * pinmap → bp_call → bp_ret → pages * pinmap → Prop :=
  | abs_new st pins pid :
      pid = Z.of_nat (size st) → st !! pid = None →
      abs_step cap (st, pins) CNew (RPage (Some pid)) (<[pid := zero_page]> st, pin_inc pins pid)
  | abs_new_fail st pins :
      (cap ≤ size pins)%nat → abs_step cap (st, pins) CNew (RPage None) (st, pins)
  | abs_fetch st pins pid :
      abs_step cap (st, pins) (CFetch pid) (RPage (Some pid)) (st, pin_inc pins pid)
  | abs_fetch_fail st pins pid :
      pins !! pid = None → (cap ≤ size pins)%nat →
      abs_step cap (st, pins) (CFetch pid) (RPage None) (st, pins)
  | abs_unpin st pins pid dirty :
      is_Some (pins !! pid) →
      abs_step cap (st, pins) (CUnpin pid dirty) (RBool true) (st, pin_dec pins pid dirty)
  | abs_unpin_fail st pins pid dirty :
      pins !! pid = None →
      abs_step cap (st, pins) (CUnpin pid dirty) (RBool false) (st, pins)
  | abs_read st pins pid d :
      st !! pid = Some d → abs_step cap (st, pins) (CRead pid) (RBytes d) (st, pins)
  | abs_write st pins pid d :
      abs_step cap (st, pins) (CWrite pid d) RUnit (<[pid := d]> st, pin_write pins pid)
  | abs_flush st pins pid r : abs_step cap (st, pins) (CFlush pid) (RBool r) (st, pins)
  | abs_flush_all st pins : abs_step cap (st, pins) CFlushAll RUnit (st, pins)
  | abs_delete_pinned st pins pid :
      is_Some (pins !! pid) → abs_step cap (st, pins) (CDelete pid) (RBool false) (st, pins)
  | abs_delete st pins pid :
      pins !! pid = None → abs_step cap (st, pins) (CDelete pid) (RBool true) (st, pins)
  | abs_delete_lost st pins pid d :
      (** unflushed changes of the page are lost: it is some older version *)
      pins !! pid = None → is_Some (st !! pid) →
      abs_step cap (st, pins) (CDelete pid) (RBool true) (<[pid := d]> st, pins).

(** The client's side of the contract. *)
Definition permitted (c : bp_call) (s : pages * pinmap) : Prop :=
  match c with
  | CNew => Z.of_nat (size s.1) + 1 < 2 ^ 31
  | CFetch pid => is_Some (s.1 !! pid) ∧ Z.of_nat (pin_of s.2 pid) + 1 < 2 ^ 31
  | CUnpin pid dirty => s.2 !! pid = Some (1%nat, true) → dirty = true
  | CRead pid => is_Some (s.2 !! pid)
  | CWrite pid d => is_Some (s.2 !! pid) ∧ length d = Z.to_nat PAGE_SIZE
  | CFlush _ | CFlushAll | CDelete _ => True
  end.
Fixpoint safe (cap : nat) (cs : list bp_call) (s : pages * pinmap) : Prop :=
  match cs with
  | [] => True
  | c :: cs => permitted c s ∧ ∀ r s', abs_step cap s c r s' → safe cap cs s'
  end.
Inductive abs_trace (cap : nat) : pages * pinmap → list bp_call → list bp_ret →
    pages * pinmap → Prop :=
  | abs_trace_nil s : abs_trace cap s [] [] s
  | abs_trace_cons s s1 s2 c cs r rs :
      abs_step cap s c r s1 → abs_trace cap s1 cs rs s2 →
      abs_trace cap s (c :: cs) (r :: rs) s2.
