(* ===== verification/BufferPoolTheorems.v ===== *)
(** * Buffer pool: main theorems

    Trace refinement of the abstract page cache, durability of
    [FlushAllPages], and what a failing device does to the pool. *)
From stdpp Require Import base gmap list strings.
From Stdlib Require Import ZArith Lia Ascii.
From S2P Require Import Prelude Types DiskManager LRUReplacer PageCache BufferPool BufferPoolSpec.

Lemma UnpinPage_unpinned b st pins pid dirty :
  bp_inv b st pins → pins !! pid = None → UnpinPage pid dirty b = (b, Ok false).
Proof.
  intros Hb Hpin. unfold UnpinPage. rewrite bindM_get.
  destruct (page_table_ b !! pid) as [fid|] eqn:Hpid; [|done].
  destruct (bg_map _ _ _ _ Hb _ _ Hpid) as (p & Hp & Hok).
  rewrite (bindM_Ok _ _ _ _ _ (get_frame_ok _ _ _ Hp)), (po_pin _ _ _ _ _ Hok).
  by rewrite pin_of_None.
Qed.

Lemma pinned_resident b st pins pid :
  bp_inv b st pins → is_Some (pins !! pid) → ∃ fid, page_table_ b !! pid = Some fid.
Proof. intros Hb [[n w] Hp]. destruct (bg_pins _ _ _ _ Hb _ _ _ Hp) as (_ & _ & ?). done. Qed.

(** The loop in any order of the entries, as [unordered_map] iterates. *)
Lemma flush_any_order b st pins l :
  bp_inv b st pins → l ≡ₚ map_to_list (page_table_ b) →
  ∃ b', flush_entries l b = (b', Ok tt) ∧ pool_size_ b' = pool_size_ b ∧
    page_table_ b' = page_table_ b ∧ bp_inv b' st pins ∧
    ∀ pid d, st !! pid = Some d → pending pins pid = false →
      disk_page (disk_manager_ b') pid = d.
Proof.
  intros Hb Hl. destruct (flush_entries_spec l b st pins Hb) as (b' & Hf & Hsz & Hpt & Hb' & Hcl).
  { apply Forall_forall. intros [pid fid] Hin. rewrite Hl in Hin. by apply elem_of_map_to_list. }
  exists b'. split_and!; [done..|]. intros pid d Hd Hpend.
  destruct (page_table_ b' !! pid) as [fid|] eqn:Hpid.
  - destruct (bg_map _ _ _ _ Hb' _ _ Hpid) as (p & Hp & Hok).
    rewrite (po_store _ _ _ _ _ Hok) in Hd. injection Hd as <-.
    apply (po_clean _ _ _ _ _ Hok); [|done]. rewrite Hpt in Hpid.
    apply (Hcl pid fid p); [done..|]. left. rewrite Hl. by apply elem_of_map_to_list.
  - rewrite (bg_away _ _ _ _ Hb' _ Hpid) in Hd; [congruence|].
    apply (bg_dom _ _ _ _ Hb'). eauto.
Qed.

Lemma FlushAllPages_spec b st pins :
  bp_inv b st pins →
  ∃ b', FlushAllPages b = (b', Ok tt) ∧ pool_size_ b' = pool_size_ b ∧
    page_table_ b' = page_table_ b ∧ bp_inv b' st pins.
Proof.
  intros Hb. unfold FlushAllPages. rewrite bindM_get.
  destruct (flush_any_order b st pins _ Hb (reflexivity _)) as (b' & ? & ? & ? & ? & _). eauto 6.
Qed.

Lemma delete_simulates b st pins pid :
  bp_inv b st pins →
  ∃ b' r s', bp_exec (CDelete pid) b = (b', Ok r) ∧ pool_size_ b' = pool_size_ b ∧
    abs_step (pool_size_ b) (st, pins) (CDelete pid) r s' ∧ bp_inv b' s'.1 s'.2.
Proof.
  intros Hb. simpl.
  destruct (DeletePage_spec b st pins pid Hb) as (b' & Hf & Hsz & _ & Hb').
  rewrite (bindM_Ok _ _ _ _ _ Hf). eexists _, _, (_, _). split_and!; [done..| |exact Hb'].
  destruct (pins !! pid) as [v|] eqn:Hp.
  - rewrite bool_decide_false by done. rewrite decide_False by (by intros [_ ?]).
    constructor. eauto.
  - rewrite bool_decide_true by done. case_decide as Hd; [|by constructor].
    destruct Hd as [[fid Hpid] _]. constructor; [done|].
    destruct (bg_map _ _ _ _ Hb _ _ Hpid) as (p & _ & Hok).
    rewrite (po_store _ _ _ _ _ Hok). eauto.
Qed.

(** One call of the client against the abstract cache. *)
Lemma bp_exec_simulates b st pins c :
  bp_inv b st pins → permitted c (st, pins) →
  ∃ b' r s', bp_exec c b = (b', Ok r) ∧ pool_size_ b' = pool_size_ b ∧
    abs_step (pool_size_ b) (st, pins) c r s' ∧ bp_inv b' s'.1 s'.2.
Proof.
  intros Hb Hc. destruct c as [|pid|pid dirty|pid|pid d|pid| |pid]; simpl in Hc |- *.
  - destruct (NewPage_spec b st pins Hb Hc) as (b' & r & Hf & [Hsz _] & Hr).
    rewrite (bindM_Ok _ _ _ _ _ Hf). destruct r as [[pid fid]|].
    + destruct Hr as (-> & Hn & Hb' & _). eexists _, _, (_, _). split_and!; [done..|by constructor|done].
    + destruct Hr as [Hb' Hall]. eexists _, _, (_, _).
      split_and!; [done..| |done]. constructor. exact (all_pinned_size _ _ _ Hb Hall).
  - destruct Hc as [Hin Hmax].
    destruct (FetchPage_spec b st pins pid Hb Hin Hmax) as (b' & r & Hf & [Hsz _] & Hr).
    rewrite (bindM_Ok _ _ _ _ _ Hf). destruct r as [fid|].
    + destruct Hr as [Hb' _]. eexists _, _, (_, _). split_and!; [done..|by constructor|done].
    + destruct Hr as (Hb' & Hn & Hall). eexists _, _, (_, _). split_and!; [done..| |done].
      constructor; [exact (bp_gen_unmapped_unpinned _ _ _ _ _ Hb Hn)|].
      exact (all_pinned_size _ _ _ Hb Hall).
  - destruct (pins !! pid) as [[n w]|] eqn:Hp.
    + destruct (UnpinPage_spec b st pins pid n w dirty Hb Hp) as (b' & Hu & Hsz & _ & Hb').
      { intros ->. destruct w; [|done]. by rewrite Hc. }
      rewrite (bindM_Ok _ _ _ _ _ Hu). eexists _, _, (_, _).
      split_and!; [done..| |done]. constructor. eauto.
    + rewrite (bindM_Ok _ _ _ _ _ (UnpinPage_unpinned _ _ _ _ dirty Hb Hp)).
      eexists _, _, (_, _). split_and!; [done..|by constructor|done].
  - destruct (pinned_resident _ _ _ _ Hb Hc) as [fid Hpid]. rewrite bindM_get.
    rewrite (bindM_def _ _ _ _ Hpid).
    destruct (GetData_spec _ _ _ _ _ Hb Hpid) as (d & Hd & Hg). rewrite (bindM_Ok _ _ _ _ _ Hg).
    eexists _, _, (_, _). split_and!; [done..|by constructor|done].
  - destruct Hc as [Hc Hl]. destruct (pinned_resident _ _ _ _ Hb Hc) as [fid Hpid].
    rewrite bindM_get, (bindM_def _ _ _ _ Hpid).
    destruct (SetData_spec _ _ _ _ _ _ Hb Hc Hpid Hl) as (b' & Hs & Hsz & _ & Hb').
    rewrite (bindM_Ok _ _ _ _ _ Hs). eexists _, _, (_, _). split_and!; [done..|by constructor|done].
  - destruct (FlushPage_spec b st pins pid Hb) as (b' & Hf & Hsz & _ & Hb' & _).
    rewrite (bindM_Ok _ _ _ _ _ Hf). eexists _, _, (_, _). split_and!; [done..|by constructor|done].
  - destruct (FlushAllPages_spec b st pins Hb) as (b' & Hf & Hsz & _ & Hb').
    rewrite (bindM_Ok _ _ _ _ _ Hf). eexists _, _, (_, _). split_and!; [done..|by constructor|done].
  - by apply delete_simulates.
Qed.

(** C3. The buffer pool is a page cache with one view of every page: any
    sequence of calls a client may make (pages it allocated, frames it holds
    pinned, writes declared dirty by the last unpin) runs without undefined
    behaviour or failed assertions and returns what the abstract cache returns,
    through any evictions, write-backs and re-reads; a page is refused only when
    as many pages are pinned as there are frames. *)
Theorem BufferPool_refines cs b s :
  bp_inv b s.1 s.2 → safe (pool_size_ b) cs s →
  ∃ b' rs s', bp_run cs b = (b', Ok rs) ∧ pool_size_ b' = pool_size_ b ∧
    abs_trace (pool_size_ b) s cs rs s' ∧ bp_inv b' s'.1 s'.2.
Proof.
  revert b s. induction cs as [|c cs IH]; intros b [st pins] Hb Hs; simpl.
  { eexists _, _, _. split_and!; [done..|constructor|done]. }
  destruct Hs as [Hc Hs]. destruct (bp_exec_simulates b st pins c Hb Hc)
    as (b1 & r & s1 & H1 & Hsz1 & Hst & Hb1).
  destruct (IH b1 s1 Hb1) as (b' & rs & s' & H2 & Hsz2 & Htr & Hb'); [rewrite Hsz1; eauto|].
  exists b', (r :: rs), s'. rewrite (bindM_Ok _ _ _ _ _ H1), (bindM_Ok _ _ _ _ _ H2).
  split_and!; [done|congruence| |done]. rewrite Hsz1 in Htr. by econstructor.
Qed.

Lemma blank_pool_inv n : Z.of_nat n < 2 ^ 31 → bp_inv (BufferPoolManager_ctor n blank_disk) ∅ ∅.
Proof.
  intros Hn. assert (H0 : num_pages_ blank_disk = 0) by reflexivity.
  apply BufferPoolManager_ctor_inv; [done|apply blank_disk_rep|done| |]; rewrite H0.
  - intros pid. rewrite lookup_empty. split; [by intros [? ?]|lia].
  - lia.
Qed.

(** One frame, two pages: the first page is evicted with its write and read back. *)
Lemma BufferPool_refines_witness :
  let data := memset PAGE_SIZE "x"%char in
  ∃ b' rs s', bp_run [CNew; CWrite 0 data; CUnpin 0 true]
      (BufferPoolManager_ctor 1 blank_disk) = (b', Ok rs) ∧
    abs_trace 1 (∅, ∅) [CNew; CWrite 0 data; CUnpin 0 true] rs s' ∧ bp_inv b' s'.1 s'.2.
Proof.
  intros data. assert (Hlen : length data = Z.to_nat PAGE_SIZE) by apply memset_length.
  clearbody data.
  destruct (BufferPool_refines [CNew; CWrite 0 data; CUnpin 0 true]
    (BufferPoolManager_ctor 1 blank_disk) (∅, ∅)) as (b' & rs & s' & H & _ & Ht & Hi).
  - apply blank_pool_inv. lia.
  - split; [vm_compute; reflexivity|]. intros r s' Hs. inversion Hs as [| ? ? Hcap | | | | | | | | | | |]; subst;
      [|vm_compute in Hcap; lia].
    split; [split; [|done]|].
    { simpl. unfold pin_inc. rewrite lookup_insert_eq. eauto. }
    intros r2 s2 Hs2. inversion Hs2; subst. split; [done|]. done.
  - exists b', rs, s'. split; [exact H|]. split; [exact Ht|exact Hi].
Defined.

(** C28. Durability: [FlushAllPages], whichever order the hash map is walked in,
    leaves every page whose writes were declared on disk, so reopening the file
    finds the pages as the clients last saw them. *)
Theorem FlushAllPages_durable b st pins l :
  bp_inv b st pins → (∀ pid, pending pins pid = false) → l ≡ₚ map_to_list (page_table_ b) →
  ∃ b', flush_entries l b = (b', Ok tt) ∧ bp_inv b' st pins ∧
    (∀ pid d, st !! pid = Some d → disk_page (disk_manager_ b') pid = d) ∧
    disk_rep (disk_manager_ b') ((λ i, default [] (st !! Z.of_nat i)) <$> seq 0 (size st)).
Proof.
  intros Hb Hpend Hl. destruct (flush_any_order b st pins l Hb Hl) as (b' & Hf & _ & _ & Hb' & Hd).
  exists b'. split_and!; [done..|by eauto|]. split.
  - apply Hb'.
  - rewrite length_fmap, length_seq. apply Hb'.
  - intros i pg Hi. rewrite list_lookup_fmap in Hi.
    apply fmap_Some in Hi as (j & Hj & ->).
    apply lookup_seq in Hj as [-> Hlt]. simpl.
    assert (is_Some (st !! Z.of_nat i)) as [d Hdd].
    { apply (bg_dom _ _ _ _ Hb'). rewrite (bg_num _ _ _ _ Hb'). lia. }
    rewrite Hdd. simpl. eauto.
Qed.

(** A pool with one dirty page: page 0 was allocated, written and unpinned. *)
Definition demo_data : list ascii := memset PAGE_SIZE "x"%char.
Definition demo_pool : BufferPoolManager :=
  (bp_run [CNew; CWrite 0 demo_data; CUnpin 0 true] (BufferPoolManager_ctor 1 blank_disk)).1.

Lemma demo_pool_inv : bp_inv demo_pool {[0 := demo_data]} ∅.
Proof.
  destruct (bp_exec_simulates (BufferPoolManager_ctor 1 blank_disk) ∅ ∅ CNew)
    as (b1 & r1 & s1 & H1 & _ & Hs1 & Hi1); [apply blank_pool_inv; lia|vm_compute; reflexivity|].
  inversion Hs1 as [? ? pid Hpid | ? ? Hcap | | | | | | | | | | |]; subst;
    [|vm_compute in Hcap; lia].
  change (Z.of_nat (size ∅)) with 0 in *. simpl in Hi1.
  destruct (bp_exec_simulates b1 _ _ (CWrite 0 demo_data) Hi1)
    as (b2 & r2 & s2 & H2 & _ & Hs2 & Hi2).
  { split; [unfold pin_inc; simpl; rewrite lookup_insert_eq; eauto|apply memset_length]. }
  inversion Hs2; subst. simpl in Hi2.
  destruct (bp_exec_simulates b2 _ _ (CUnpin 0 true) Hi2) as (b3 & r3 & s3 & H3 & _ & Hs3 & Hi3);
    [done|].
  assert (demo_pool = b3) as ->.
  { unfold demo_pool. cbn [bp_run]. unfold bindM. by rewrite H1, H2, H3. }
  unfold pin_write, pin_inc, pin_of, pending in Hs3. rewrite !lookup_insert_eq in Hs3.
  inversion Hs3 as [| | | | ? ? ? ? Hp | ? ? ? ? Hp | | | | | | |]; subst.
  - simpl in Hi3. rewrite insert_insert_eq in Hi3. unfold pin_dec in Hi3.
    rewrite lookup_insert_eq in Hi3. simpl in Hi3.
    by rewrite insert_insert_eq, delete_insert_id in Hi3.
  - by rewrite lookup_insert_eq in Hp.
Qed.

Lemma FlushAllPages_durable_witness :
  ∃ b', flush_entries (map_to_list (page_table_ demo_pool)) demo_pool = (b', Ok tt) ∧
    disk_page (disk_manager_ demo_pool) 0 = zero_page ∧
    disk_page (disk_manager_ b') 0 = demo_data.
Proof.
  destruct (FlushAllPages_durable demo_pool {[0 := demo_data]} ∅ (map_to_list (page_table_ demo_pool)))
    as (b' & Hf & _ & Hd & _).
  - exact demo_pool_inv.
  - intros pid. reflexivity.
  - reflexivity.
  - exists b'. split; [exact Hf|]. split; [vm_compute; reflexivity|].
    apply Hd. apply lookup_singleton_eq.
Defined.



