(* ===== verification/HeapFile.v ===== *)
(** * Heap file: [src/src/storage/heap_file.h], [heap_file.cpp]

    A chain of pages of fixed-size tuples.  The methods work on the bytes of the
    frame a fetched page is in, through the page-cache interface; [bpm_] is the
    cache state [S], the object's other members are the record [HeapFile].
    Loops along the chain take fuel. *)
From stdpp Require Import base gmap list strings.
From Stdlib Require Import ZArith Lia Ascii.
From S2P Require Import Prelude Types PageCache.

Definition HEAP_HEADER_SIZE : Z := 8.

(** [NumTuples(data)], [NextPageId(data)] and assignments to them. *)
Definition NumTuples (data : list ascii) : option Z := load_u32 0 data.
Definition set_NumTuples (v : Z) (data : list ascii) : option (list ascii) := store_32 0 v data.
Definition NextPageId (data : list ascii) : option Z := load_s32 4 data.
Definition set_NextPageId (v : Z) (data : list ascii) : option (list ascii) := store_32 4 v data.
(** The offset of [TupleSlot(data, slot, tuple_size)]; the product is [uint32_t]. *)
Definition TupleSlot (slot tuple_size : Z) : Z := HEAP_HEADER_SIZE + wrap_u32 (slot * tuple_size).

Record HeapFile := mkHeapFile {
  schema_ : Schema;
  first_page_id_ : Z;
  last_page_id_ : Z
}.

(** [(PAGE_SIZE - HEAP_HEADER_SIZE) / GetTupleSize()]: undefined for size 0. *)
Definition MaxTuplesPerPage (schema : Schema) : option Z :=
  if GetTupleSize schema =? 0 then None
  else Some ((PAGE_SIZE - HEAP_HEADER_SIZE) `div` GetTupleSize schema).

Section heap_file.
Context {S : Type} {PC : PageCache S}.

Definition AllocateHeapPage : M S Z :=
  r <- pc_new ;;
  match r with
  | None => throwM "Buffer pool full — cannot allocate heap page"
  | Some (pid, fid) =>
      poke fid (set_NumTuples 0) ;;
      poke fid (set_NextPageId INVALID_PAGE_ID) ;;
      pc_unpin pid true ;;
      retM pid
  end.

(** [HeapFile(bpm, schema)]. *)
Definition HeapFile_create (schema : Schema) : M S HeapFile :=
  pid <- AllocateHeapPage ;; retM (mkHeapFile schema pid pid).

(** [HeapFile(bpm, schema, first_page_id)]: walks to the last page; the result
    of [FetchPage] is dereferenced unchecked. *)
Fixpoint find_last (fuel : nat) (cur : Z) : M S Z :=
  match fuel with
  | O => faultM OutOfFuel
  | Datatypes.S fuel =>
      r <- pc_fetch cur ;;
      fid <- defM r ;;
      data <- pc_read fid ;;
      next <- defM (NextPageId data) ;;
      pc_unpin cur false ;;
      if next =? INVALID_PAGE_ID then retM cur else find_last fuel next
  end.
Definition HeapFile_open (fuel : nat) (schema : Schema) (first_page_id : Z) : M S HeapFile :=
  last <- find_last fuel first_page_id ;; retM (mkHeapFile schema first_page_id last).

Definition on_pool {A} : M S A → M (HeapFile * S) A :=
  zoomM snd (λ s p, (p.1, s)).
Definition set_last (pid : Z) : M (HeapFile * S) unit :=
  p <- getM ;; putM (mkHeapFile (schema_ p.1) (first_page_id_ p.1) pid, p.2).

(** The part of [InsertTuple] after a page with room is pinned in [fid]. *)
Definition append_tuple (tuple : Tuple) (fid : Z) : M (HeapFile * S) (option RID) :=
  p <- getM ;;
  let sz := GetTupleSize (schema_ p.1) in
  data <- on_pool (pc_read fid) ;;
  slot <- defM (NumTuples data) ;;
  bytes <- defM (load 0 sz (data_ tuple)) ;;
  on_pool (poke fid (store (TupleSlot slot sz) bytes)) ;;
  on_pool (poke fid (λ d, n ← NumTuples d; set_NumTuples (wrap_u32 (n + 1)) d)) ;;
  on_pool (pc_unpin (last_page_id_ p.1) true) ;;
  retM (Some (mkRID (last_page_id_ p.1) slot)).

(** The branch of [InsertTuple] for a full last page: a new page is allocated,
    linked behind the last one and becomes the last one. *)
Definition insert_in_new_page (tuple : Tuple) : M (HeapFile * S) (option RID) :=
  p <- getM ;;
  new <- catchM (pid <- on_pool AllocateHeapPage ;; retM (Some pid)) (retM None) ;;
  match new with
  | None => retM None
  | Some new_pid =>
      r <- on_pool (pc_fetch (last_page_id_ p.1)) ;;
      match r with
      | None => retM None
      | Some fid =>
          on_pool (poke fid (set_NextPageId new_pid)) ;;
          on_pool (pc_unpin (last_page_id_ p.1) true) ;;
          set_last new_pid ;;
          r <- on_pool (pc_fetch new_pid) ;;
          match r with
          | None => retM None
          | Some fid => append_tuple tuple fid
          end
      end
  end.

(** [InsertTuple(tuple, rid)]: [Some rid] for [true], [None] for [false]. *)
Definition InsertTuple (tuple : Tuple) : M (HeapFile * S) (option RID) :=
  p <- getM ;;
  r <- on_pool (pc_fetch (last_page_id_ p.1)) ;;
  match r with
  | None => retM None
  | Some fid =>
      data <- on_pool (pc_read fid) ;;
      max <- defM (MaxTuplesPerPage (schema_ p.1)) ;;
      n <- defM (NumTuples data) ;;
      if max <=? n then
        on_pool (pc_unpin (last_page_id_ p.1) false) ;; insert_in_new_page tuple
      else append_tuple tuple fid
  end.

(** The slots of one page, handed to [callback], which returns false to stop. *)
Fixpoint scan_slots {A} (callback : A → RID → Tuple → A * bool) (pid : Z) (data : list ascii)
    (tuple_size : Z) (slot : nat) (n : nat) (acc : A) : outcome (A * bool) :=
  match n with
  | O => Ok (acc, true)
  | Datatypes.S n =>
      t <-! FromBytes (TupleSlot (Z.of_nat slot) tuple_size) tuple_size data ;;
      let '(acc, go) := callback acc (mkRID pid (Z.of_nat slot)) t in
      if go : bool then scan_slots callback pid data tuple_size (Datatypes.S slot) n acc
      else Ok (acc, false)
  end.

(** The loop of [Scan]; a failed fetch ends it. *)
Fixpoint scan_pages {A} (callback : A → RID → Tuple → A * bool) (tuple_size : Z)
    (fuel : nat) (cur : Z) (acc : A) : M S A :=
  match fuel with
  | O => faultM OutOfFuel
  | Datatypes.S fuel =>
      if cur =? INVALID_PAGE_ID then retM acc else
      r <- pc_fetch cur ;;
      match r with
      | None => retM acc
      | Some fid =>
          data <- pc_read fid ;;
          n <- defM (NumTuples data) ;;
          next <- defM (NextPageId data) ;;
          res <- liftM (scan_slots callback cur data tuple_size 0 (Z.to_nat n) acc) ;;
          pc_unpin cur false ;;
          if res.2 : bool then scan_pages callback tuple_size fuel next res.1
          else retM res.1
      end
  end.
Definition Scan {A} (fuel : nat) (hf : HeapFile) (callback : A → RID → Tuple → A * bool)
    (acc : A) : M S A :=
  scan_pages callback (GetTupleSize (schema_ hf)) fuel (first_page_id_ hf) acc.

Fixpoint page_ids (fuel : nat) (cur : Z) : M S (list Z) :=
  match fuel with
  | O => faultM OutOfFuel
  | Datatypes.S fuel =>
      if cur =? INVALID_PAGE_ID then retM [] else
      r <- pc_fetch cur ;;
      match r with
      | None => retM [cur]
      | Some fid =>
          data <- pc_read fid ;;
          next <- defM (NextPageId data) ;;
          pc_unpin cur false ;;
          rest <- page_ids fuel next ;;
          retM (cur :: rest)
      end
  end.
Definition GetPageIds (fuel : nat) (hf : HeapFile) : M S (list Z) :=
  page_ids fuel (first_page_id_ hf).

Definition ScanPage {A} (hf : HeapFile) (page_id : Z)
    (callback : A → RID → Tuple → A) (acc : A) : M S A :=
  r <- pc_fetch page_id ;;
  match r with
  | None => retM acc
  | Some fid =>
      data <- pc_read fid ;;
      n <- defM (NumTuples data) ;;
      res <- liftM (scan_slots (λ a r t, (callback a r t, true)) page_id data
                      (GetTupleSize (schema_ hf)) 0 (Z.to_nat n) acc) ;;
      pc_unpin page_id false ;;
      retM res.1
  end.
End heap_file.
