(* ===== verification/HeapFileSpec.v ===== *)
(** * Heap file: representation and correctness

    A heap file stands for the list of its rows (tuple bytes), in insertion
    order.  Everything is proved against the page-cache interface. *)
From stdpp Require Import base gmap list strings.
From Stdlib Require Import ZArith Lia Ascii.
From S2P Require Import Prelude Types PageCache HeapFile.

(** Number of tuples of size [sz] a page holds. *)
Definition page_max (sz : Z) : Z := (PAGE_SIZE - HEAP_HEADER_SIZE) `div` sz.
Definition size_ok (sz : Z) : Prop := 1 ≤ sz ≤ PAGE_SIZE - HEAP_HEADER_SIZE.

(** The bytes of a page hold these rows and link to [next]. *)
Record page_holds (sz : Z) (d : list ascii) (next : Z) (rows : list (list ascii)) : Prop := {
  ph_len : length d = Z.to_nat PAGE_SIZE;
  ph_num : NumTuples d = Some (Z.of_nat (length rows));
  ph_next : NextPageId d = Some next;
  ph_max : Z.of_nat (length rows) ≤ page_max sz;
  ph_row i r : rows !! i = Some r →
    load (HEAP_HEADER_SIZE + Z.of_nat i * sz) sz d = Some r
}.

Lemma page_max_bounds sz : size_ok sz → 1 ≤ page_max sz ∧ page_max sz * sz ≤ PAGE_SIZE - HEAP_HEADER_SIZE.
Proof.
  unfold size_ok, page_max. intros Hs. set (n := PAGE_SIZE - HEAP_HEADER_SIZE) in *. split.
  - apply Z.div_le_lower_bound; lia.
  - rewrite Z.mul_comm. apply Z.mul_div_le. lia.
Qed.

Lemma TupleSlot_small slot sz :
  0 ≤ slot * sz ≤ PAGE_SIZE → TupleSlot slot sz = HEAP_HEADER_SIZE + slot * sz.
Proof. unfold TupleSlot, PAGE_SIZE. intros. rewrite wrap_u32_id; lia. Qed.

Lemma load_u32_ne off off' bs m m' :
  store off' bs m = Some m' → off + 4 ≤ off' ∨ off' + Z.of_nat (length bs) ≤ off →
  load_u32 off m' = load_u32 off m.
Proof. intros Hs Hd. unfold load_u32. by rewrite (load_store_ne _ _ _ _ _ _ Hs Hd). Qed.
Lemma load_s32_ne off off' bs m m' :
  store off' bs m = Some m' → off + 4 ≤ off' ∨ off' + Z.of_nat (length bs) ≤ off →
  load_s32 off m' = load_s32 off m.
Proof. intros Hs Hd. unfold load_s32. by rewrite (load_store_ne _ _ _ _ _ _ Hs Hd). Qed.

(** A freshly initialised page. *)
Lemma page_holds_init sz d d1 d2 :
  size_ok sz → length d = Z.to_nat PAGE_SIZE →
  set_NumTuples 0 d = Some d1 → set_NextPageId INVALID_PAGE_ID d1 = Some d2 →
  page_holds sz d2 INVALID_PAGE_ID [].
Proof.
  intros Hs Hl H1 H2. pose proof (page_max_bounds sz Hs). split.
  - rewrite (store_32_length _ _ _ _ H2), (store_32_length _ _ _ _ H1). done.
  - unfold NumTuples. rewrite (load_u32_ne _ _ _ _ _ H2) by (left; lia).
    by rewrite (load_u32_store _ _ _ _ H1).
  - unfold NextPageId. by rewrite (load_s32_store _ _ _ _ H2).
  - simpl. lia.
  - intros i r. by rewrite lookup_nil.
Qed.

(** Relinking a page. *)
Lemma page_holds_link sz d d' next next' rows :
  page_holds sz d next rows → - 2 ^ 31 ≤ next' < 2 ^ 31 → size_ok sz →
  set_NextPageId next' d = Some d' → page_holds sz d' next' rows.
Proof.
  intros [Hl Hn Hx Hm Hr] Hrange Hs H1. split.
  - by rewrite (store_32_length _ _ _ _ H1).
  - unfold NumTuples. rewrite (load_u32_ne _ _ _ _ _ H1) by (left; lia). done.
  - unfold NextPageId. rewrite (load_s32_store _ _ _ _ H1). by rewrite wrap_s32_id.
  - done.
  - intros i r Hi. rewrite (load_store_32_ne _ _ _ _ _ _ H1); [eauto|].
    unfold HEAP_HEADER_SIZE, size_ok in *. nia.
Qed.

(** Appending a row. *)
Lemma page_holds_append sz d d1 d2 next rows bytes :
  page_holds sz d next rows → size_ok sz → Z.of_nat (length rows) < page_max sz →
  length bytes = Z.to_nat sz →
  store (TupleSlot (Z.of_nat (length rows)) sz) bytes d = Some d1 →
  set_NumTuples (wrap_u32 (Z.of_nat (length rows) + 1)) d1 = Some d2 →
  page_holds sz d2 next (rows ++ [bytes]).
Proof.
  intros [Hl Hn Hx Hm Hr] Hs Hlt Hb H1 H2. pose proof (page_max_bounds sz Hs) as [Hm1 Hm2].
  assert (Hsz : 0 ≤ Z.of_nat (length rows) * sz ≤ PAGE_SIZE).
  { unfold size_ok, PAGE_SIZE, HEAP_HEADER_SIZE in *. nia. }
  rewrite TupleSlot_small in H1 by done. set (k := Z.of_nat (length rows)) in *.
  assert (Hk : k < 2 ^ 12). { unfold size_ok, PAGE_SIZE, HEAP_HEADER_SIZE in *. nia. }
  assert (Hbz : Z.of_nat (length bytes) = sz) by (unfold size_ok in *; lia).
  split.
  - by rewrite (store_32_length _ _ _ _ H2), (store_length _ _ _ _ H1).
  - unfold NumTuples. rewrite (load_u32_store _ _ _ _ H2). f_equal.
    rewrite length_app. simpl. rewrite !wrap_u32_id; rewrite ?wrap_u32_id; lia.
  - unfold NextPageId. rewrite (load_s32_ne _ _ _ _ _ H2) by (rewrite length_le_bytes; right; lia).
    rewrite (load_s32_ne _ _ _ _ _ H1); [done|]. unfold HEAP_HEADER_SIZE. lia.
  - rewrite length_app. simpl. lia.
  - intros i r Hi. rewrite (load_store_32_ne _ _ _ _ _ _ H2)
      by (unfold HEAP_HEADER_SIZE, size_ok in *; nia).
    apply lookup_app_Some in Hi as [Hi|[Hi Hx']].
    + rewrite (load_store_ne _ _ _ _ _ _ H1); [eauto|]. left.
      apply lookup_lt_Some in Hi. unfold size_ok in *. nia.
    + apply list_lookup_singleton_Some in Hx' as [Hz <-].
      replace (Z.of_nat i) with k by lia. rewrite <- Hbz at 2. by apply load_store_eq in H1.
Qed.

(** There is room for it. *)
Lemma page_holds_room sz d next rows bytes :
  page_holds sz d next rows → size_ok sz → Z.of_nat (length rows) < page_max sz →
  length bytes = Z.to_nat sz →
  ∃ d1 d2, store (TupleSlot (Z.of_nat (length rows)) sz) bytes d = Some d1 ∧
    NumTuples d1 = Some (Z.of_nat (length rows)) ∧
    set_NumTuples (wrap_u32 (Z.of_nat (length rows) + 1)) d1 = Some d2.
Proof.
  intros [Hl Hn _ _ _] Hs Hlt Hb. pose proof (page_max_bounds sz Hs) as [Hm1 Hm2].
  assert (Hsz : 0 ≤ Z.of_nat (length rows) * sz ∧ Z.of_nat (length rows) * sz + sz + 8 ≤ PAGE_SIZE).
  { unfold size_ok, PAGE_SIZE, HEAP_HEADER_SIZE in *. nia. }
  assert (Hbz : Z.of_nat (length bytes) = sz) by (unfold size_ok in *; lia).
  rewrite TupleSlot_small by (unfold size_ok in *; lia).
  destruct (store_exists (HEAP_HEADER_SIZE + Z.of_nat (length rows) * sz) bytes d) as [d1 Hd1];
    [unfold HEAP_HEADER_SIZE; lia|rewrite Hl, Hbz; unfold HEAP_HEADER_SIZE, PAGE_SIZE in *; lia|].
  pose proof (store_length _ _ _ _ Hd1) as Hl1.
  destruct (store_32_exists 0 (wrap_u32 (Z.of_nat (length rows) + 1)) d1) as [d2 Hd2];
    [lia|rewrite Hl1, Hl; unfold PAGE_SIZE; lia|].
  exists d1, d2. split_and!; [done| |done].
  unfold NumTuples. rewrite (load_u32_ne _ _ _ _ _ Hd1); [done|]. left. unfold HEAP_HEADER_SIZE. lia.
Qed.

Lemma NumTuples_length d n : NumTuples d = Some n → 0 ≤ n < 2 ^ 32.
Proof.
  unfold NumTuples, load_u32. destruct (load 0 4 d) as [bs|] eqn:E; [|done].
  intros [= <-]. apply load_is_Some in E as (_ & _ & _ & Hl). pose proof (le_Z_range bs) as Hr.
  rewrite Hl in Hr. exact Hr.
Qed.

Lemma MaxTuples_page_max schema :
  size_ok (GetTupleSize schema) → MaxTuplesPerPage schema = Some (page_max (GetTupleSize schema)).
Proof. unfold size_ok, MaxTuplesPerPage. intros. by rewrite (proj2 (Z.eqb_neq _ 0)) by lia. Qed.

Lemma load_whole sz bs : length bs = Z.to_nat sz → size_ok sz → load 0 sz bs = Some bs.
Proof.
  unfold size_ok. intros Hl Hs. rewrite load_Some by lia.
  rewrite drop_0, take_ge by lia. done.
Qed.

(** ** Chains of pages *)
Abbreviation chain := (list (Z * list (list ascii))).

Definition head_or (next : Z) (ps : chain) : Z :=
  match ps with [] => next | (p, _) :: _ => p end.

(** The pages of [ps], linked in order, the last one to [next]. *)
Fixpoint chain_seg (st : pages) (sz : Z) (ps : chain) (next : Z) : Prop :=
  match ps with
  | [] => True
  | (p, rows) :: ps =>
      (∃ d, st !! p = Some d ∧ page_holds sz d (head_or next ps) rows) ∧ 0 ≤ p ∧
      chain_seg st sz ps next
  end.

Lemma head_or_app next ps qs : head_or next (ps ++ qs) = head_or (head_or next qs) ps.
Proof. by destruct ps as [|[p rows] ps]. Qed.

Lemma chain_seg_app st sz ps qs next :
  chain_seg st sz (ps ++ qs) next ↔
  chain_seg st sz ps (head_or next qs) ∧ chain_seg st sz qs next.
Proof.
  induction ps as [|[p rows] ps IH]; simpl; [naive_solver|].
  rewrite IH, head_or_app. naive_solver.
Qed.

Lemma chain_seg_frame st st' sz ps next :
  (∀ p, p ∈ ps.*1 → st' !! p = st !! p) → chain_seg st sz ps next → chain_seg st' sz ps next.
Proof.
  induction ps as [|[p rows] ps IH]; simpl; [done|].
  intros Heq ((d & Hd & Hp) & H0 & Hs). split_and!; [|done|].
  - exists d. rewrite Heq; [done|by left].
  - apply IH; [|done]. intros q Hq. apply Heq. by right.
Qed.

Lemma chain_seg_in_store st sz ps next p : chain_seg st sz ps next → p ∈ ps.*1 → is_Some (st !! p).
Proof.
  induction ps as [|[q rows] ps IH]; simpl; [by intros _ ?%elem_of_nil|].
  intros ((d & Hd & _) & _ & Hs) [->|Hp]%elem_of_cons; eauto.
Qed.

(** The heap file holds the rows of the chain [ps]. *)
Record heap_rep (hf : HeapFile) (st : pages) (ps : chain) : Prop := {
  hr_size : size_ok (GetTupleSize (schema_ hf));
  hr_chain : chain_seg st (GetTupleSize (schema_ hf)) ps INVALID_PAGE_ID;
  hr_nodup : NoDup ps.*1;
  hr_first : head_or INVALID_PAGE_ID ps = first_page_id_ hf;
  hr_last : last ps.*1 = Some (last_page_id_ hf);
  hr_full qs x : ps = qs ++ [x] →
    Forall (λ pr, Z.of_nat (length pr.2) = page_max (GetTupleSize (schema_ hf))) qs
}.
Definition chain_rows (ps : chain) : list (list ascii) := concat ps.*2.

(** The rows with their record ids, in scan order. *)
Definition page_entries (p : Z) (rows : list (list ascii)) : list (RID * Tuple) :=
  imap (λ i r, (mkRID p (Z.of_nat i), mkTuple r)) rows.
Definition chain_entries (ps : chain) : list (RID * Tuple) :=
  concat ((λ '(p, rows), page_entries p rows) <$> ps).

(** What a callback makes of a list of rows. *)
Fixpoint scan_list {A} (callback : A → RID → Tuple → A * bool) (l : list (RID * Tuple)) (acc : A)
    : A * bool :=
  match l with
  | [] => (acc, true)
  | (rid, t) :: l =>
      let '(acc, go) := callback acc rid t in
      if go : bool then scan_list callback l acc else (acc, false)
  end.

Lemma scan_list_app {A} (cb : A → RID → Tuple → A * bool) l k acc :
  scan_list cb (l ++ k) acc =
  let '(acc', go) := scan_list cb l acc in
  if go : bool then scan_list cb k acc' else (acc', false).
Proof.
  revert acc. induction l as [|[rid t] l IH]; intros acc; simpl; [done|].
  destruct (cb acc rid t) as [acc' []]; [apply IH|done].
Qed.

Lemma scan_list_foldl {A} (cb : A → RID → Tuple → A) l acc :
  scan_list (λ a r t, (cb a r t, true)) l acc = (foldl (λ a e, cb a e.1 e.2) acc l, true).
Proof. revert acc. induction l as [|[r t] l IH]; intros acc; simpl; auto. Qed.

Lemma heap_rep_snoc hf st ps :
  heap_rep hf st ps → ∃ qs rows, ps = qs ++ [(last_page_id_ hf, rows)].
Proof.
  intros Hr. pose proof (hr_last _ _ _ Hr) as Hl.
  destruct ps as [|[p rows] qs _] using rev_ind; [done|].
  rewrite fmap_app, last_app in Hl. injection Hl as <-. eauto.
Qed.

Lemma heap_rep_last hf st qs rows :
  heap_rep hf st (qs ++ [(last_page_id_ hf, rows)]) →
  (∃ d, st !! last_page_id_ hf = Some d ∧
    page_holds (GetTupleSize (schema_ hf)) d INVALID_PAGE_ID rows) ∧
  (last_page_id_ hf ∉ qs.*1) ∧ 0 ≤ last_page_id_ hf.
Proof.
  intros [_ Hc Hn _ _ _]. apply chain_seg_app in Hc as (_ & (d & Hd & Hp) & H0 & _).
  rewrite fmap_app in Hn. apply NoDup_app in Hn as (_ & Hn & _).
  split_and!; [eauto| |done]. intros Hin. apply (Hn _ Hin). cbn. by left.
Qed.

(** The last page gets new contents. *)
Lemma heap_rep_update hf st qs rows rows' d' :
  heap_rep hf st (qs ++ [(last_page_id_ hf, rows)]) →
  page_holds (GetTupleSize (schema_ hf)) d' INVALID_PAGE_ID rows' →
  heap_rep hf (<[last_page_id_ hf := d']> st) (qs ++ [(last_page_id_ hf, rows')]).
Proof.
  intros Hrep Hp. destruct (heap_rep_last _ _ _ _ Hrep) as (_ & Hni & H0).
  destruct Hrep as [Hs Hc Hn Hf Hl Hfull]. split; [done|..].
  - apply chain_seg_app in Hc as (Hc & _). apply chain_seg_app. split.
    + eapply chain_seg_frame, Hc. intros p Hpin. rewrite lookup_insert_ne; [done|congruence].
    + cbn. split_and!; [|done|done]. exists d'. by rewrite lookup_insert_eq.
  - by rewrite fmap_app in *.
  - rewrite head_or_app in *. by destruct qs as [|[??]?].
  - by rewrite fmap_app in *.
  - intros qs' x [<- _]%app_inj_tail. by eapply Hfull.
Qed.

(** A new, empty page is linked at the end. *)
Lemma heap_rep_extend hf st qs rows d' new d0 :
  heap_rep hf st (qs ++ [(last_page_id_ hf, rows)]) →
  Z.of_nat (length rows) = page_max (GetTupleSize (schema_ hf)) →
  st !! new = None → 0 ≤ new →
  page_holds (GetTupleSize (schema_ hf)) d' new rows →
  page_holds (GetTupleSize (schema_ hf)) d0 INVALID_PAGE_ID [] →
  heap_rep (mkHeapFile (schema_ hf) (first_page_id_ hf) new)
    (<[last_page_id_ hf := d']> (<[new := d0]> st))
    ((qs ++ [(last_page_id_ hf, rows)]) ++ [(new, [])]).
Proof.
  intros Hrep Hfr Hnone Hnew Hp Hp0. destruct (heap_rep_last _ _ _ _ Hrep) as ((d & Hd & _) & Hni & H0).
  destruct Hrep as [Hs Hc Hn Hf Hl Hfull].
  assert (Hnq : new ∉ (qs ++ [(last_page_id_ hf, rows)]).*1).
  { intros Hin. destruct (chain_seg_in_store _ _ _ _ _ Hc Hin). congruence. }
  assert (Hne : last_page_id_ hf ≠ new) by congruence.
  split; [done|..]; cbn [schema_ first_page_id_ last_page_id_].
  - apply chain_seg_app in Hc as (Hc & _). rewrite !chain_seg_app. split_and!.
    + eapply chain_seg_frame, Hc. intros p Hpin.
      rewrite !lookup_insert_ne; [done|..]; [|congruence].
      intros <-. apply Hnq. rewrite fmap_app, elem_of_app. by left.
    + cbn. split_and!; [|done|done]. exists d'. by rewrite lookup_insert_eq.
    + cbn. split_and!; [|done|done]. exists d0. by rewrite lookup_insert_ne, lookup_insert_eq.
  - rewrite fmap_app. apply NoDup_app. split_and!; [done| |apply NoDup_singleton].
    intros p Hpin ->%list_elem_of_singleton. done.
  - rewrite head_or_app in *. by destruct qs as [|[??]?].
  - by rewrite fmap_app, last_app.
  - intros qs' x [<- <-]%app_inj_tail. apply Forall_app. split; [by eapply Hfull|]. by constructor.
Qed.

Lemma page_entries_snoc p rows r :
  page_entries p (rows ++ [r]) =
  page_entries p rows ++ [(mkRID p (Z.of_nat (length rows)), mkTuple r)].
Proof. unfold page_entries. rewrite imap_app. cbn. by rewrite Nat.add_0_r. Qed.

Lemma chain_entries_snoc qs p rows :
  chain_entries (qs ++ [(p, rows)]) = chain_entries qs ++ page_entries p rows.
Proof. unfold chain_entries. rewrite fmap_app, concat_app. cbn. by rewrite app_nil_r. Qed.

Lemma in_snoc_ids qs (p : Z) (rows : list (list ascii)) : p ∈ (qs ++ [(p, rows)]).*1.
Proof. rewrite fmap_app, elem_of_app. right. cbn. by left. Qed.

(** ** How a method may change the file: it keeps the schema and the first page,
    adds pages that did not exist at the end of the chain and touches no other
    page. *)
Record file_step (hf hf' : HeapFile) (st st' : pages) (ps ps' : chain) : Prop := {
  fs_heap : heap_rep hf' st' ps';
  fs_schema : schema_ hf' = schema_ hf;
  fs_first : first_page_id_ hf' = first_page_id_ hf;
  fs_mono q : is_Some (st !! q) → is_Some (st' !! q);
  fs_frame q : is_Some (st !! q) → q ∉ ps.*1 → st' !! q = st !! q;
  fs_ids : ∃ new, ps'.*1 = ps.*1 ++ new ∧ Forall (λ q, st !! q = None) new
}.

Lemma file_step_trans hf hf1 hf2 st st1 st2 ps ps1 ps2 :
  file_step hf hf1 st st1 ps ps1 → file_step hf1 hf2 st1 st2 ps1 ps2 →
  file_step hf hf2 st st2 ps ps2.
Proof.
  intros [A1 A2 A3 A4 A5 (new & A6 & A7)] [B1 B2 B3 B4 B5 (new' & B6 & B7)].
  split; [done|congruence|congruence|auto| |].
  - intros q Hq Hn. rewrite B5; [auto|auto|]. rewrite A6, elem_of_app. intros [?|Hin]; [done|].
    rewrite Forall_forall in A7. apply A7 in Hin. rewrite Hin in Hq. by destruct Hq.
  - exists (new ++ new'). split; [by rewrite B6, A6, app_assoc|]. apply Forall_app. split; [done|].
    eapply Forall_impl; [exact B7|]. intros q Hq. apply eq_None_not_Some. intros Hs%A4.
    rewrite Hq in Hs. by destruct Hs.
Qed.

(** Pages outside the file may change. *)
Lemma file_step_outside hf st st' ps :
  heap_rep hf st ps → (∀ q, is_Some (st !! q) → st' !! q = st !! q) → file_step hf hf st st' ps ps.
Proof.
  intros [H1 H2 H3 H4 H5 H6] Hfr. split; [|done|done| |auto|].
  - split; [done| |done..]. eapply chain_seg_frame, H2. intros p Hp.
    by eapply Hfr, chain_seg_in_store.
  - intros q Hq. by rewrite Hfr.
  - exists []. split; [by rewrite app_nil_r|constructor].
Qed.

Lemma file_step_update hf st qs rows rows' d' :
  heap_rep hf st (qs ++ [(last_page_id_ hf, rows)]) →
  page_holds (GetTupleSize (schema_ hf)) d' INVALID_PAGE_ID rows' →
  file_step hf hf st (<[last_page_id_ hf := d']> st)
    (qs ++ [(last_page_id_ hf, rows)]) (qs ++ [(last_page_id_ hf, rows')]).
Proof.
  intros Hrep Hp. split; [exact (heap_rep_update _ _ _ _ _ _ Hrep Hp)|done|done|..].
  - intros q Hq. rewrite lookup_insert. case_decide; eauto.
  - intros q _ Hq. rewrite lookup_insert_ne; [done|]. intros <-. apply Hq, in_snoc_ids.
  - exists []. split; [|constructor]. by rewrite app_nil_r, !fmap_app.
Qed.

Lemma file_step_extend hf st qs rows d' new d0 :
  heap_rep hf st (qs ++ [(last_page_id_ hf, rows)]) →
  Z.of_nat (length rows) = page_max (GetTupleSize (schema_ hf)) →
  st !! new = None → 0 ≤ new →
  page_holds (GetTupleSize (schema_ hf)) d' new rows →
  page_holds (GetTupleSize (schema_ hf)) d0 INVALID_PAGE_ID [] →
  file_step hf (mkHeapFile (schema_ hf) (first_page_id_ hf) new)
    st (<[last_page_id_ hf := d']> (<[new := d0]> st))
    (qs ++ [(last_page_id_ hf, rows)]) ((qs ++ [(last_page_id_ hf, rows)]) ++ [(new, [])]).
Proof.
  intros Hrep Hfull Hnone Hnew Hp Hp0.
  split; [exact (heap_rep_extend _ _ _ _ _ _ _ Hrep Hfull Hnone Hnew Hp Hp0)|done|done|..].
  - intros q Hq. rewrite !lookup_insert. case_decide; [eauto|]. case_decide; eauto.
  - intros q [dq Hq] Hq'. rewrite !lookup_insert_ne; [done|congruence|].
    intros <-. apply Hq', in_snoc_ids.
  - exists [new]. split; [by rewrite fmap_app|by constructor].
Qed.

Lemma scan_slots_spec {A} (cb : A → RID → Tuple → A * bool) p d sz next rows k tail acc :
  page_holds sz d next rows → size_ok sz → drop k rows = tail →
  scan_slots cb p d sz k (length tail) acc =
  Ok (scan_list cb (imap (λ i r, (mkRID p (Z.of_nat (k + i)), mkTuple r)) tail) acc).
Proof.
  intros Hp Hs. pose proof (page_max_bounds sz Hs) as [Hm1 Hm2]. revert k acc.
  induction tail as [|r tail IH]; intros k acc Hk; [done|]. simpl.
  assert (Hr : rows !! k = Some r) by (by rewrite <- (Nat.add_0_r k), <- lookup_drop, Hk).
  pose proof (lookup_lt_Some _ _ _ Hr). pose proof (ph_max _ _ _ _ Hp).
  rewrite TupleSlot_small by (unfold PAGE_SIZE, HEAP_HEADER_SIZE, size_ok in *; nia).
  unfold FromBytes. rewrite (ph_row _ _ _ _ Hp _ _ Hr). simpl. rewrite Nat.add_0_r.
  destruct (cb acc _ _) as [acc' []]; [|done].
  rewrite IH.
  - do 2 f_equal. apply imap_ext. intros i x _. simpl. do 3 f_equal. lia.
  - rewrite <- Nat.add_1_r, <- drop_drop, Hk. done.
Qed.

(** ** The methods against the page-cache interface *)
Section methods.
Context {S : Type} {PC : PageCache S} {PCS : PageCacheSpec S}.
Implicit Types (s : S) (st : pages) (pins : pinmap).

Lemma AllocateHeapPage_spec s st pins sz :
  pc_rep s st pins → Z.of_nat (size st) + 1 < 2 ^ 31 → size_ok sz →
  ∃ s' o, AllocateHeapPage s = (s', o) ∧ pc_cap s' = pc_cap s ∧
    match o with
    | Ok pid =>
        pid = Z.of_nat (size st) ∧ st !! pid = None ∧
        ∃ d, page_holds sz d INVALID_PAGE_ID [] ∧ pc_rep s' (<[pid := d]> st) pins
    | Fault f =>
        (∃ m, f = Throw m) ∧ pc_rep s' st pins ∧ (pc_cap s ≤ size pins)%nat
    end.
Proof.
  intros Hr Hsz Hs. unfold AllocateHeapPage.
  destruct (pc_new_spec s st pins Hr Hsz) as (s1 & r & Hn & Hc & _ & Hres).
  rewrite (bindM_Ok _ _ _ _ _ Hn). destruct r as [[pid fid]|].
  2:{ eexists _, _. split; [done|]. split; [done|]. destruct Hres. eauto. }
  destruct Hres as (Hpid & Hnone & Hr1 & Hat). pose proof (memset_length PAGE_SIZE NUL) as Hl0.
  set (z := memset PAGE_SIZE NUL) in *.
  destruct (store_32_exists 0 0 z) as [d1 Hd1]; [lia|rewrite Hl0; unfold PAGE_SIZE; lia|].
  pose proof (store_32_length _ _ _ _ Hd1) as Hl1.
  destruct (store_32_exists 4 INVALID_PAGE_ID d1) as [d2 Hd2];
    [lia|rewrite Hl1, Hl0; unfold PAGE_SIZE; lia|].
  pose proof (store_32_length _ _ _ _ Hd2) as Hl2.
  destruct (poke2_spec s1 (<[pid := z]> st) (pin_inc pins pid) pid fid z d1 d2 (set_NumTuples 0)
    (set_NextPageId INVALID_PAGE_ID)) as (s1' & s2 & Hk1 & Hk2 & Hc2 & Hr2);
    [exact Hr1|apply pin_inc_lookup|done|by rewrite lookup_insert_eq|done|done|done|congruence|].
  rewrite (bindM_Ok _ _ _ _ _ Hk1), (bindM_Ok _ _ _ _ _ Hk2). rewrite insert_insert_eq in Hr2.
  destruct (unpin_written s2 (<[pid := d2]> st) pins pid) as (s3 & Hu & Hc3 & Hr3);
    [exact (pinned_in_store s st pins pid Hr Hnone)|exact Hr2|].
  rewrite (bindM_Ok _ _ _ _ _ Hu). eexists _, _. split; [done|].
  split; [congruence|]. split_and!; [done..|]. exists d2. split; [|done].
  by apply (page_holds_init sz z d1).
Qed.

Lemma scan_pages_spec {A} (cb : A → RID → Tuple → A * bool) sz ps s st pins fuel acc :
  pc_rep s st pins → pins_low pins → (size pins < pc_cap s)%nat → size_ok sz →
  chain_seg st sz ps INVALID_PAGE_ID → (length ps < fuel)%nat →
  ∃ s', scan_pages cb sz fuel (head_or INVALID_PAGE_ID ps) acc s
      = (s', Ok (scan_list cb (chain_entries ps) acc).1) ∧
    pc_rep s' st pins ∧ pc_cap s' = pc_cap s.
Proof.
  intros Hr Hlow Hcap Hs. revert s Hr Hcap fuel acc.
  induction ps as [|[p rows] ps IH]; intros s Hr Hcap fuel acc Hch Hfuel;
    (destruct fuel as [|fuel]; [simpl in Hfuel; lia|]).
  { simpl. exists s. done. }
  destruct Hch as ((d & Hd & Hp) & H0 & Hch). simpl.
  rewrite (proj2 (Z.eqb_neq p INVALID_PAGE_ID)) by (unfold INVALID_PAGE_ID; lia).
  destruct (pc_fetch_read s st pins p d Hr Hlow Hcap Hd)
    as (s1 & fid & s2 & Hf & Hrd & Hu & Hr2 & Hc2 & _).
  rewrite (bindM_Ok _ _ _ _ _ Hf).
  rewrite (bindM_Ok _ _ _ _ _ Hrd), (bindM_def _ _ _ _ (ph_num _ _ _ _ Hp)).
  rewrite (bindM_def _ _ _ _ (ph_next _ _ _ _ Hp)), Nat2Z.id.
  rewrite (bindM_lift _ _ _ _ (scan_slots_spec cb p d sz _ rows 0 rows acc Hp Hs eq_refl)).
  rewrite (bindM_Ok _ _ _ _ _ Hu). unfold chain_entries. simpl.
  rewrite scan_list_app. unfold page_entries.
  destruct (scan_list cb _ acc) as [acc' []]; simpl; [|by exists s2].
  destruct (IH s2 Hr2 ltac:(lia) fuel acc') as (s3 & H3 & Hr3 & Hc3); [done|simpl in Hfuel; lia|].
  exists s3. split_and!; [done..|congruence].
Qed.

(** More fuel than needed changes nothing. *)
Lemma scan_pages_more {A} (cb : A → RID → Tuple → A * bool) sz n fuel p acc s s' r :
  scan_pages cb sz n p acc s = (s', Ok r) → (n ≤ fuel)%nat →
  scan_pages cb sz fuel p acc s = (s', Ok r).
Proof.
  revert fuel p acc s. induction n as [|n IH]; intros fuel p acc s; [done|].
  destruct fuel as [|fuel]; [lia|]. intros H Hle. cbn [scan_pages] in H |- *.
  destruct (p =? INVALID_PAGE_ID); [done|].
  step_bind H r1. destruct r1 as [fid|]; [|done].
  step_bind H data. step_bind H k. step_bind H next. step_bind H res. step_bind H b.
  destruct (res.2); [|done]. apply IH; [done|lia].
Qed.

Lemma page_ids_spec sz ps s st pins fuel :
  pc_rep s st pins → pins_low pins → (size pins < pc_cap s)%nat →
  chain_seg st sz ps INVALID_PAGE_ID → (length ps < fuel)%nat →
  ∃ s', page_ids fuel (head_or INVALID_PAGE_ID ps) s = (s', Ok ps.*1) ∧
    pc_rep s' st pins ∧ pc_cap s' = pc_cap s.
Proof.
  intros Hr Hlow Hcap. revert s Hr Hcap fuel.
  induction ps as [|[p rows] ps IH]; intros s Hr Hcap fuel Hch Hfuel;
    (destruct fuel as [|fuel]; [simpl in Hfuel; lia|]).
  { simpl. by exists s. }
  destruct Hch as ((d & Hd & Hp) & H0 & Hch). simpl.
  rewrite (proj2 (Z.eqb_neq p INVALID_PAGE_ID)) by (unfold INVALID_PAGE_ID; lia).
  destruct (pc_fetch_read s st pins p d Hr Hlow Hcap Hd)
    as (s1 & fid & s2 & Hf & Hrd & Hu & Hr2 & Hc2 & _).
  rewrite (bindM_Ok _ _ _ _ _ Hf).
  rewrite (bindM_Ok _ _ _ _ _ Hrd), (bindM_def _ _ _ _ (ph_next _ _ _ _ Hp)).
  rewrite (bindM_Ok _ _ _ _ _ Hu).
  destruct (IH s2 Hr2 ltac:(lia) fuel) as (s3 & H3 & Hr3 & Hc3); [done|simpl in Hfuel; lia|].
  rewrite (bindM_Ok _ _ _ _ _ H3). exists s3. split_and!; [done..|congruence].
Qed.
Lemma find_last_spec sz ps s st pins fuel :
  pc_rep s st pins → pins_low pins → (size pins < pc_cap s)%nat →
  chain_seg st sz ps INVALID_PAGE_ID → (length ps ≤ fuel)%nat → ps ≠ [] →
  ∃ s' l, find_last fuel (head_or INVALID_PAGE_ID ps) s = (s', Ok l) ∧ last ps.*1 = Some l ∧
    pc_rep s' st pins ∧ pc_cap s' = pc_cap s.
Proof.
  intros Hr Hlow Hcap. revert s Hr Hcap fuel.
  induction ps as [|[p rows] ps IH]; intros s Hr Hcap fuel Hch Hfuel Hne; [done|].
  destruct fuel as [|fuel]; [simpl in Hfuel; lia|].
  destruct Hch as ((d & Hd & Hp) & H0 & Hch). cbn [find_last head_or].
  destruct (pc_fetch_read s st pins p d Hr Hlow Hcap Hd)
    as (s1 & fid & s2 & Hf & Hrd & Hu & Hr2 & Hc2 & _).
  rewrite (bindM_Ok _ _ _ _ _ Hf). rewrite (bindM_def (Some fid) fid _ _ eq_refl).
  rewrite (bindM_Ok _ _ _ _ _ Hrd), (bindM_def _ _ _ _ (ph_next _ _ _ _ Hp)).
  rewrite (bindM_Ok _ _ _ _ _ Hu). destruct ps as [|[q rows'] ps].
  { exists s2, p. done. }
  rewrite (proj2 (Z.eqb_neq (head_or INVALID_PAGE_ID ((q, rows') :: ps)) INVALID_PAGE_ID))
    by (destruct Hch as (_ & ? & _); unfold INVALID_PAGE_ID; simpl; lia).
  destruct (IH s2 Hr2 ltac:(lia) fuel Hch) as (s3 & l & H3 & Hl & Hr3 & Hc3);
    [simpl in *; lia|done|].
  exists s3, l. split_and!; [done|done|done|congruence].
Qed.

Lemma ScanPage_spec {A} (cb : A → RID → Tuple → A) hf p d next rows s st pins acc :
  pc_rep s st pins → pins_low pins → (size pins < pc_cap s)%nat →
  size_ok (GetTupleSize (schema_ hf)) → st !! p = Some d →
  page_holds (GetTupleSize (schema_ hf)) d next rows →
  ∃ s', ScanPage hf p cb acc s
      = (s', Ok (foldl (λ a e, cb a e.1 e.2) acc (page_entries p rows))) ∧
    pc_rep s' st pins ∧ pc_cap s' = pc_cap s.
Proof.
  intros Hr Hlow Hcap Hs Hd Hp. unfold ScanPage.
  destruct (pc_fetch_read s st pins p d Hr Hlow Hcap Hd)
    as (s1 & fid & s2 & Hf & Hrd & Hu & Hr2 & Hc2 & _).
  rewrite (bindM_Ok _ _ _ _ _ Hf).
  rewrite (bindM_Ok _ _ _ _ _ Hrd), (bindM_def _ _ _ _ (ph_num _ _ _ _ Hp)), Nat2Z.id.
  rewrite (bindM_lift _ _ _ _ (scan_slots_spec _ p d _ _ rows 0 rows acc Hp Hs eq_refl)).
  rewrite (bindM_Ok _ _ _ _ _ Hu). exists s2. split_and!; [|done|done].
  by rewrite scan_list_foldl.
Qed.

(** ** [InsertTuple] *)
Lemma bind_on_pool {A B} (m : M S A) (k : A → M (HeapFile * S) B) hf s s' a :
  m s = (s', Ok a) → bindM (on_pool m) k (hf, s) = k a (hf, s').
Proof. intros Hm. unfold bindM, on_pool, zoomM. cbn. by rewrite Hm. Qed.

(** The last page is pinned once more than before, in frame [fid], and has room. *)
Lemma append_tuple_spec hf s st pins qs rows fid t bytes :
  pc_rep s st (pin_inc pins (last_page_id_ hf)) → pins !! last_page_id_ hf = None →
  pc_at s (last_page_id_ hf) fid → heap_rep hf st (qs ++ [(last_page_id_ hf, rows)]) →
  Z.of_nat (length rows) < page_max (GetTupleSize (schema_ hf)) →
  load 0 (GetTupleSize (schema_ hf)) (data_ t) = Some bytes →
  ∃ s' d', append_tuple t fid (hf, s)
      = ((hf, s'), Ok (Some (mkRID (last_page_id_ hf) (Z.of_nat (length rows))))) ∧
    pc_rep s' (<[last_page_id_ hf := d']> st) pins ∧ pc_cap s' = pc_cap s ∧
    page_holds (GetTupleSize (schema_ hf)) d' INVALID_PAGE_ID (rows ++ [bytes]).
Proof.
  intros Hr Hun Hat Hrep Hroom Ht. pose proof (hr_size _ _ _ Hrep) as Hs.
  destruct (heap_rep_last _ _ _ _ Hrep) as ((d & Hd & Hp) & _ & H0).
  set (sz := GetTupleSize (schema_ hf)) in *. set (l := last_page_id_ hf) in *.
  pose proof (load_is_Some _ _ _ _ Ht) as (_ & _ & _ & Hbl).
  destruct (page_holds_room sz d INVALID_PAGE_ID rows bytes Hp Hs Hroom Hbl) as (d1 & d2 & Hd1 & Hn1 & Hd2).
  pose proof (store_length _ _ _ _ Hd1) as Hl1. pose proof (store_32_length _ _ _ _ Hd2) as Hl2.
  destruct (poke2_spec s st (pin_inc pins l) l fid d d1 d2
    (store (TupleSlot (Z.of_nat (length rows)) sz) bytes)
    (λ d, n ← NumTuples d; set_NumTuples (wrap_u32 (n + 1)) d)) as (s1 & s2 & Hk1 & Hk2 & Hc2 & Hr2);
    [done|apply pin_inc_lookup|done|done|done| |done|congruence|].
  { cbn. by rewrite Hn1. }
  destruct (unpin_written s2 (<[l := d2]> st) pins l Hun Hr2) as (s3 & Hu & Hc3 & Hr3).
  destruct (pc_read_spec s st _ l fid Hr (pin_inc_lookup _ _) Hat) as (d' & Hd' & Hrd).
  rewrite Hd in Hd'. injection Hd' as <-.
  exists s3, d2. split_and!; [|done|congruence|by eapply page_holds_append].
  unfold append_tuple. rewrite bindM_get. cbn [fst]. fold sz l.
  rewrite (bind_on_pool _ _ _ _ _ _ Hrd), (bindM_def _ _ _ _ (ph_num _ _ _ _ Hp)).
  rewrite (bindM_def _ _ _ _ Ht), (bind_on_pool _ _ _ _ _ _ Hk1), (bind_on_pool _ _ _ _ _ _ Hk2).
  by rewrite (bind_on_pool _ _ _ _ _ _ Hu).
Qed.
(** What an insertion does; [None] only when every frame is pinned. *)
Record insert_post (hf hf' : HeapFile) (s s' : S) (st st' : pages) (pins : pinmap)
    (ps ps' : chain) (bytes : list ascii) (r : option RID) : Prop := {
  ip_rep : pc_rep s' st' pins;
  ip_cap : pc_cap s' = pc_cap s;
  ip_step : file_step hf hf' st st' ps ps';
  ip_size : (size st ≤ size st' ≤ Datatypes.S (size st))%nat;
  ip_entries : match r with
    | Some rid => chain_entries ps' = chain_entries ps ++ [(rid, mkTuple bytes)]
    | None => chain_entries ps' = chain_entries ps ∧ (pc_cap s ≤ size pins)%nat
    end
}.

Lemma insert_append hf s s0 st pins qs rows fid t bytes :
  pc_rep s st (pin_inc pins (last_page_id_ hf)) → pins !! last_page_id_ hf = None →
  pc_at s (last_page_id_ hf) fid → heap_rep hf st (qs ++ [(last_page_id_ hf, rows)]) →
  Z.of_nat (length rows) < page_max (GetTupleSize (schema_ hf)) →
  load 0 (GetTupleSize (schema_ hf)) (data_ t) = Some bytes → pc_cap s = pc_cap s0 →
  ∃ s' st' ps' r, append_tuple t fid (hf, s) = ((hf, s'), Ok r) ∧
    insert_post hf hf s0 s' st st' pins (qs ++ [(last_page_id_ hf, rows)]) ps' bytes r ∧
    size st' = size st ∧ is_Some r.
Proof.
  intros Hr Hun Hat Hrep Hroom Ht Hcap.
  destruct (append_tuple_spec hf s st pins qs rows fid t bytes) as (s' & d' & Hs' & Hr' & Hc & Hp); [done..|].
  pose proof (heap_rep_last _ _ _ _ Hrep) as ((d & Hd & _) & _).
  assert (Hsz : size (<[last_page_id_ hf := d']> st) = size st) by (apply map_size_insert_Some; eauto).
  eexists s', _, _, _. split; [exact Hs'|]. split; [|eauto].
  split; [done|congruence|exact (file_step_update _ _ _ _ _ _ Hrep Hp)|lia|].
  rewrite !chain_entries_snoc, page_entries_snoc. by rewrite <- app_assoc.
Qed.

(** The last steps of an insertion that has linked a new page. *)
Lemma insert_in_fresh_page hf hf1 s s0 st st1 pins ps t bytes :
  pc_rep s st1 pins → pins_low pins →
  file_step hf hf1 st st1 ps (ps ++ [(last_page_id_ hf1, [])]) → pc_cap s = pc_cap s0 →
  size st1 = Datatypes.S (size st) → pins !! last_page_id_ hf1 = None →
  load 0 (GetTupleSize (schema_ hf1)) (data_ t) = Some bytes →
  ∃ hf' s' st' ps' r,
    (r <- on_pool (pc_fetch (last_page_id_ hf1)) ;;
     match r with None => retM None | Some fid => append_tuple t fid end) (hf1, s)
    = ((hf', s'), Ok r) ∧ insert_post hf hf' s0 s' st st' pins ps ps' bytes r.
Proof.
  intros Hr Hlow Hstep Hcap Hsz Hun Ht. pose proof (fs_heap _ _ _ _ _ _ Hstep) as Hrep.
  destruct (heap_rep_last _ _ _ _ Hrep) as ((d & Hd & Hp) & _).
  destruct (pc_fetch_spec s st1 pins (last_page_id_ hf1)) as (s5 & r & Hf5 & Hc5 & _ & Hres);
    [done|eauto|apply Hlow|].
  assert (Hent : chain_entries (ps ++ [(last_page_id_ hf1, [])]) = chain_entries ps).
  { rewrite chain_entries_snoc. cbn. by rewrite app_nil_r. }
  rewrite (bind_on_pool _ _ _ _ _ _ Hf5). destruct r as [fid'|].
  2:{ destruct Hres as (Hr5 & _ & Hfull). eexists hf1, s5, st1, _, None. split; [done|].
      split; [done|congruence|exact Hstep|lia|split; [done|lia]]. }
  destruct Hres as [Hr5 Hat5].
  destruct (insert_append hf1 s5 s0 st1 pins ps [] fid' t bytes)
    as (s' & st' & ps' & r & Hap & [P1 P2 P3 P4 P5] & Hsz' & Hr'); [done..| |done|congruence|].
  { cbn. pose proof (page_max_bounds _ (hr_size _ _ _ Hrep)). lia. }
  rewrite Hap. exists hf1, s', st', ps', r. split; [done|].
  split; [done|done|exact (file_step_trans _ _ _ _ _ _ _ _ _ Hstep P3)|lia|].
  destruct Hr' as [rid ->]. by rewrite Hent in P5.
Qed.

(** Relinking the last page: fetch, assign, release. *)
Lemma link_spec s st pins l d new sz rows next :
  pc_rep s st pins → pins_low pins → pins !! l = None → st !! l = Some d → size_ok sz →
  page_holds sz d next rows → 0 ≤ new < 2 ^ 31 →
  ∃ s1 r, pc_fetch l s = (s1, Ok r) ∧ pc_cap s1 = pc_cap s ∧
    match r with
    | None => pc_rep s1 st pins ∧ (pc_cap s ≤ size pins)%nat
    | Some fid => ∃ s2 s3 d', poke fid (set_NextPageId new) s1 = (s2, Ok tt) ∧
        pc_unpin l true s2 = (s3, Ok true) ∧ pc_cap s3 = pc_cap s ∧
        page_holds sz d' new rows ∧ pc_rep s3 (<[l := d']> st) pins
    end.
Proof.
  intros Hr Hlow Hun Hd Hs Hp Hnew.
  destruct (pc_fetch_spec s st pins l Hr ltac:(eauto) (Hlow l)) as (s1 & r & Hf & Hc & _ & Hres).
  exists s1, r. split_and!; [done..|]. destruct r as [fid|]; [|naive_solver].
  destruct Hres as [Hr1 Hat].
  destruct (store_32_exists 4 new d) as [d' Hd'];
    [lia|rewrite (ph_len _ _ _ _ Hp); unfold PAGE_SIZE; lia|].
  destruct (poke_spec s1 st (pin_inc pins l) l fid d d' (set_NextPageId new)) as (s2 & Hk & Hc2 & _ & Hr2);
    [done|apply pin_inc_lookup|done|done|done|by eapply store_32_length|].
  destruct (unpin_written s2 (<[l := d']> st) pins l Hun Hr2) as (s3 & Hu & Hc3 & Hr3).
  exists s2, s3, d'. split_and!; [done|done|congruence| |done].
  eapply page_holds_link; [exact Hp|lia|done|done].
Qed.

Lemma insert_none hf s s' st st' pins ps bytes :
  pc_rep s' st' pins → pc_cap s' = pc_cap s → heap_rep hf st ps → (pc_cap s ≤ size pins)%nat →
  (∀ q, is_Some (st !! q) → st' !! q = st !! q) →
  (size st ≤ size st' ≤ Datatypes.S (size st))%nat →
  insert_post hf hf s s' st st' pins ps ps bytes None.
Proof. intros. split; [done|done|by apply file_step_outside|done|done]. Qed.

Lemma catch_allocate hf s s' o :
  AllocateHeapPage s = (s', o) →
  catchM (pid <- on_pool AllocateHeapPage ;; retM (Some pid)) (retM None) (hf, s) =
  match o with
  | Ok pid => ((hf, s'), Ok (Some pid))
  | Fault (Throw _) => ((hf, s'), Ok None)
  | Fault f => ((hf, s'), Fault f)
  end.
Proof.
  intros Ha. unfold catchM, bindM, on_pool, zoomM. cbn. rewrite Ha. cbn. by destruct o as [?|[]].
Qed.

Lemma insert_in_new_page_spec hf s st pins qs rows t bytes :
  pc_rep s st pins → pins_low pins → Z.of_nat (size st) + 1 < 2 ^ 31 →
  heap_rep hf st (qs ++ [(last_page_id_ hf, rows)]) → pins !! last_page_id_ hf = None →
  Z.of_nat (length rows) = page_max (GetTupleSize (schema_ hf)) →
  load 0 (GetTupleSize (schema_ hf)) (data_ t) = Some bytes →
  ∃ hf' s' st' ps' r, insert_in_new_page t (hf, s) = ((hf', s'), Ok r) ∧
    insert_post hf hf' s s' st st' pins (qs ++ [(last_page_id_ hf, rows)]) ps' bytes r.
Proof.
  intros Hr Hlow Hsz Hrep Hun Hfull Ht. pose proof (hr_size _ _ _ Hrep) as Hs.
  destruct (heap_rep_last _ _ _ _ Hrep) as ((d & Hd & Hp) & _ & H0).
  destruct (AllocateHeapPage_spec s st pins _ Hr Hsz Hs) as (s1 & o & Ha & Hc1 & Hres).
  unfold insert_in_new_page. rewrite bindM_get. cbn [fst].
  pose proof (catch_allocate hf s s1 o Ha) as Hcatch. destruct o as [new|f].
  2:{ destruct Hres as ((m & ->) & Hr1 & Hcap). rewrite (bindM_Ok _ _ _ _ _ Hcatch).
      eexists hf, s1, st, _, None. split; [done|]. apply insert_none; auto. }
  destruct Hres as (Hnew & Hnone & d0 & Hp0 & Hr1). rewrite (bindM_Ok _ _ _ _ _ Hcatch).
  assert (Hne : last_page_id_ hf ≠ new) by congruence.
  assert (Hsize : size (<[new := d0]> st) = Datatypes.S (size st)) by by apply map_size_insert_None.
  destruct (link_spec s1 (<[new := d0]> st) pins (last_page_id_ hf) d new
    (GetTupleSize (schema_ hf)) rows INVALID_PAGE_ID) as (s2 & r & Hf & Hc2 & Hl);
    [done|done|done|by rewrite lookup_insert_ne|done|done|lia|].
  rewrite (bind_on_pool _ _ _ _ _ _ Hf). destruct r as [fid|].
  2:{ destruct Hl as [Hr2 Hcap]. eexists hf, s2, _, _, None. split; [done|].
      apply insert_none; [done|congruence|done|congruence| |lia].
      intros q [dq Hq]. rewrite lookup_insert_ne; [done|congruence]. }
  destruct Hl as (s3 & s4 & d' & Hk & Hu & Hc4 & Hp' & Hr4).
  rewrite (bind_on_pool _ _ _ _ _ _ Hk), (bind_on_pool _ _ _ _ _ _ Hu).
  pose proof (file_step_extend hf st qs rows d' new d0 Hrep Hfull Hnone ltac:(lia) Hp' Hp0) as Hstep.
  change (bindM (set_last new) ?k (hf, s4))
    with (k tt (mkHeapFile (schema_ hf) (first_page_id_ hf) new, s4)). cbv beta.
  assert (Hsize1 : size (<[last_page_id_ hf := d']> (<[new := d0]> st)) = Datatypes.S (size st)).
  { rewrite map_size_insert_Some; [done|]. rewrite lookup_insert_ne; eauto. }
  apply (insert_in_fresh_page hf (mkHeapFile (schema_ hf) (first_page_id_ hf) new) s4 s st
      (<[last_page_id_ hf := d']> (<[new := d0]> st)) pins (qs ++ [(last_page_id_ hf, rows)]));
    [done|done|exact Hstep|congruence|lia|exact (pinned_in_store s st pins new Hr Hnone)|done].
Qed.

Lemma InsertTuple_spec hf s st pins ps t bytes :
  pc_rep s st pins → pins_low pins → Z.of_nat (size st) + 1 < 2 ^ 31 →
  heap_rep hf st ps → pins !! last_page_id_ hf = None →
  load 0 (GetTupleSize (schema_ hf)) (data_ t) = Some bytes →
  ∃ hf' s' st' ps' r, InsertTuple t (hf, s) = ((hf', s'), Ok r) ∧
    insert_post hf hf' s s' st st' pins ps ps' bytes r.
Proof.
  intros Hr Hlow Hsz Hrep Hun Ht. destruct (heap_rep_snoc _ _ _ Hrep) as (qs & rows & ->).
  pose proof (hr_size _ _ _ Hrep) as Hs.
  destruct (heap_rep_last _ _ _ _ Hrep) as ((d & Hd & Hp) & _ & H0).
  unfold InsertTuple. rewrite bindM_get. cbn [fst].
  destruct (pc_fetch_fetched s st pins (last_page_id_ hf)) as (s1 & r & Hf & Hc1 & Hres);
    [done|eauto|apply Hlow|].
  rewrite (bind_on_pool _ _ _ _ _ _ Hf). destruct r as [fid|].
  2:{ destruct Hres as (Hr1 & Hcap). eexists hf, s1, st, _, None. split; [done|].
      apply insert_none; auto. }
  destruct Hres as (Hr1 & Hat & d0 & Hd0 & Hrd & s2 & Hu & Hr2 & Hc2).
  rewrite Hd in Hd0. injection Hd0 as <-.
  rewrite (bind_on_pool _ _ _ _ _ _ Hrd), (bindM_def _ _ _ _ (MaxTuples_page_max _ Hs)).
  rewrite (bindM_def _ _ _ _ (ph_num _ _ _ _ Hp)).
  destruct (Z.leb_spec (page_max (GetTupleSize (schema_ hf))) (Z.of_nat (length rows))) as [Hfull|Hroom].
  - rewrite (bind_on_pool _ _ _ _ _ _ Hu). pose proof (ph_max _ _ _ _ Hp).
    destruct (insert_in_new_page_spec hf s2 st pins qs rows t bytes)
      as (hf' & s' & st' & ps' & r & He & [P1 P2 P3 P4 P5]); [done..|lia|done|].
    exists hf', s', st', ps', r. split; [done|]. rewrite Hc2 in P2, P5. done.
  - destruct (insert_append hf s1 s st pins qs rows fid t bytes)
      as (s' & st' & ps' & r & Hap & Hpost & _); [done..|].
    rewrite Hap. eauto 10.
Qed.

(** ** Creation and histories of insertions *)
Lemma HeapFile_create_spec schema s st pins :
  pc_rep s st pins → Z.of_nat (size st) + 1 < 2 ^ 31 → (size pins < pc_cap s)%nat →
  size_ok (GetTupleSize schema) →
  ∃ s' d, HeapFile_create schema s
      = (s', Ok (mkHeapFile schema (Z.of_nat (size st)) (Z.of_nat (size st)))) ∧
    st !! Z.of_nat (size st) = None ∧ pc_cap s' = pc_cap s ∧
    pc_rep s' (<[Z.of_nat (size st) := d]> st) pins ∧
    heap_rep (mkHeapFile schema (Z.of_nat (size st)) (Z.of_nat (size st)))
      (<[Z.of_nat (size st) := d]> st) [(Z.of_nat (size st), [])].
Proof.
  intros Hr Hsz Hcap Hs. destruct (AllocateHeapPage_spec s st pins _ Hr Hsz Hs)
    as (s' & [pid|f] & Ha & Hc & Hres); [|destruct Hres as (_ & _ & ?); lia].
  destruct Hres as (-> & Hnone & d & Hp & Hr'). exists s', d.
  unfold HeapFile_create. rewrite (bindM_Ok _ _ _ _ _ Ha). split_and!; [done..|].
  split; [done| |apply NoDup_singleton|done|done|].
  - split_and!; [|lia|done]. exists d. by rewrite lookup_insert_eq.
  - intros [|x [|y qs]] z [=]. constructor.
Qed.

Fixpoint insert_all (ts : list Tuple) : M (HeapFile * S) (list (option RID)) :=
  match ts with
  | [] => retM []
  | t :: ts => r <- InsertTuple t ;; rs <- insert_all ts ;; retM (r :: rs)
  end.

Lemma insert_post_some hf hf' s s' st st' pins ps ps' bytes r :
  insert_post hf hf' s s' st st' pins ps ps' bytes r → (size pins < pc_cap s)%nat →
  ∃ rid, r = Some rid ∧ chain_entries ps' = chain_entries ps ++ [(rid, mkTuple bytes)].
Proof. intros [_ _ _ _ Hent] Hcap. destruct r as [rid|]; [eauto|]. destruct Hent. lia. Qed.

(** The new last page is the old one or did not exist. *)
Lemma file_step_unpinned hf hf' s st st' pins ps ps' :
  pc_rep s st pins → file_step hf hf' st st' ps ps' → heap_rep hf st ps →
  pins !! last_page_id_ hf = None → pins !! last_page_id_ hf' = None.
Proof.
  intros Hr [Hh _ _ _ _ (new & Hids & Hnew)] Hrep Hun.
  pose proof (hr_last _ _ _ Hh) as Hl. rewrite Hids, last_app, (hr_last _ _ _ Hrep) in Hl.
  destruct (last new) as [q|] eqn:E; [|by injection Hl as <-]. injection Hl as ->.
  apply (pinned_in_store s st); [done|]. rewrite Forall_forall in Hnew. apply Hnew.
  by apply last_Some_elem_of.
Qed.

Lemma insert_all_spec ts hf s st pins ps :
  pc_rep s st pins → pins_low pins → (size pins < pc_cap s)%nat →
  Z.of_nat (size st) + Z.of_nat (length ts) < 2 ^ 31 →
  heap_rep hf st ps → pins !! last_page_id_ hf = None →
  Forall (λ t, length (data_ t) = Z.to_nat (GetTupleSize (schema_ hf))) ts →
  ∃ hf' s' st' ps' rids, insert_all ts (hf, s) = ((hf', s'), Ok (Some <$> rids)) ∧
    pc_rep s' st' pins ∧ pc_cap s' = pc_cap s ∧ file_step hf hf' st st' ps ps' ∧
    (size st ≤ size st' ≤ size st + length ts)%nat ∧
    length rids = length ts ∧ chain_entries ps' = chain_entries ps ++ zip rids ts.
Proof.
  intros Hr Hlow. revert hf s st ps Hr.
  induction ts as [|t ts IH]; intros hf s st ps Hr Hcap Hsz Hrep Hun Hts.
  { exists hf, s, st, ps, []. cbn. rewrite app_nil_r. split_and!; try done; [|lia..].
    by apply file_step_outside. }
  apply Forall_cons in Hts as [Ht Hts].
  destruct (InsertTuple_spec hf s st pins ps t (data_ t)) as (hf1 & s1 & st1 & ps1 & r & Hi & Hpost);
    [done|done|simpl in Hsz; lia|done|done|by apply load_whole, Hrep|].
  destruct (insert_post_some _ _ _ _ _ _ _ _ _ _ _ Hpost Hcap) as (rid & -> & Hent).
  destruct Hpost as [Hr1 Hc1 Hst1 Hsz1 _].
  destruct (IH hf1 s1 st1 ps1) as (hf2 & s2 & st2 & ps2 & rids & Ha & Hr2 & Hc2 & Hst2 & Hsz2 & Hl & He);
    [done|congruence|simpl in Hsz; lia|apply Hst1|exact (file_step_unpinned _ _ _ _ _ _ _ _ Hr Hst1 Hrep Hun)| |].
  { by rewrite (fs_schema _ _ _ _ _ _ Hst1). }
  exists hf2, s2, st2, ps2, (rid :: rids). cbn [insert_all length].
  rewrite (bindM_Ok _ _ _ _ _ Hi), (bindM_Ok _ _ _ _ _ Ha).
  split_and!; [done|done|congruence|exact (file_step_trans _ _ _ _ _ _ _ _ _ Hst1 Hst2)|lia|lia|lia|].
  rewrite He, Hent, <- app_assoc. destruct t. done.
Qed.
End methods.
