(* ===== verification/HeapFileTheorems.v ===== *)
(** * Heap file: theorems

    Stated for any page cache that meets the interface; the witnesses run them
    on the buffer pool. *)
From stdpp Require Import base gmap list strings.
From Stdlib Require Import ZArith Lia Ascii.
From S2P Require Import Prelude Types DiskManager PageCache BufferPool BufferPoolSpec BufferPoolTheorems HeapFile HeapFileSpec.

Lemma page_entries_rid p rows e : e ∈ page_entries p rows → rid_page_id e.1 = p.
Proof.
  unfold page_entries. intros (i & r & -> & _)%elem_of_lookup_imap_1. done.
Qed.

Lemma page_entries_NoDup p rows : NoDup (page_entries p rows).*1.
Proof.
  apply NoDup_alt. intros i j r. unfold page_entries. rewrite !list_lookup_fmap, !list_lookup_imap.
  destruct (rows !! i), (rows !! j); cbn; try done. intros [= <-] [= ?]. lia.
Qed.

Lemma chain_entries_NoDup (ps : chain) : NoDup ps.*1 → NoDup (chain_entries ps).*1.
Proof.
  induction ps as [|[p rows] ps IH]; [constructor|]. cbn [fmap list_fmap]. intros [Hn Hps]%NoDup_cons.
  unfold chain_entries. cbn. rewrite fmap_app. apply NoDup_app. split_and!.
  - apply page_entries_NoDup.
  - intros rid (e & -> & He)%list_elem_of_fmap (e' & Heq & He')%list_elem_of_fmap.
    apply page_entries_rid in He. apply list_elem_of_In, in_concat in He' as (l & Hl%list_elem_of_In & He'%list_elem_of_In).
    apply list_elem_of_fmap in Hl as ([q rows'] & -> & Hq). apply page_entries_rid in He'.
    apply Hn. rewrite <- He, Heq, He'. apply list_elem_of_fmap. by exists (q, rows').
  - by apply IH.
Qed.

Lemma chain_length st sz (ps : chain) next :
  chain_seg st sz ps next → NoDup ps.*1 → (length ps ≤ size st)%nat.
Proof.
  intros Hc Hn. rewrite <- (length_fmap fst), <- (size_dom st), <- (size_list_to_set (C := gset Z) _ Hn).
  apply subseteq_size. intros p Hp%elem_of_list_to_set. apply elem_of_dom.
  by eapply chain_seg_in_store.
Qed.

Definition collect (acc : list (RID * Tuple)) (rid : RID) (t : Tuple) : list (RID * Tuple) :=
  acc ++ [(rid, t)].

Lemma foldl_collect l acc : foldl (λ a e, collect a e.1 e.2) acc l = acc ++ l.
Proof.
  revert acc. induction l as [|[r t] l IH]; intros acc; cbn; [by rewrite app_nil_r|].
  rewrite IH. unfold collect. by rewrite <- app_assoc.
Qed.

Section theorems.
Context {S : Type} {PC : PageCache S} {PCS : PageCacheSpec S}.
Implicit Types (s : S) (st : pages) (pins : pinmap).

(** C6. A table whose rows have 1 to 4088 bytes is created and [ts] are inserted,
    with one frame not pinned by anybody else and page numbers below [2^31]: every insertion succeeds, the record ids are distinct, and a
    scan hands the callback exactly the tuples of [ts] with their ids, in
    insertion order, until it asks to stop. Pages of other files are untouched
    and no page stays pinned. *)
Theorem heap_insert_scan {A} (callback : A → RID → Tuple → A * bool) acc schema ts s st pins fuel :
  pc_rep s st pins → pins_low pins → (size pins < pc_cap s)%nat →
  Z.of_nat (size st) + Z.of_nat (length ts) + 1 < 2 ^ 31 →
  size_ok (GetTupleSize schema) →
  Forall (λ t, length (data_ t) = Z.to_nat (GetTupleSize schema)) ts →
  (size st + length ts + 1 < fuel)%nat →
  ∃ hf0 s0 hf s1 s2 st' rids,
    HeapFile_create schema s = (s0, Ok hf0) ∧
    insert_all ts (hf0, s0) = ((hf, s1), Ok (Some <$> rids)) ∧
    Scan fuel hf callback acc s1 = (s2, Ok (scan_list callback (zip rids ts) acc).1) ∧
    length rids = length ts ∧ NoDup rids ∧
    pc_rep s2 st' pins ∧ ∀ q, is_Some (st !! q) → st' !! q = st !! q.
Proof.
  intros Hr Hlow Hcap Hsz Hs Hts Hfuel.
  destruct (HeapFile_create_spec schema s st pins) as (s0 & d & Hc & Hnone & Hc0 & Hr0 & Hrep);
    [done|lia|done|done|].
  set (hf0 := mkHeapFile _ _ _) in *. set (st0 := <[_ := d]> st) in *.
  assert (Hsz0 : size st0 = Datatypes.S (size st)) by by apply map_size_insert_None.
  destruct (insert_all_spec ts hf0 s0 st0 pins [(Z.of_nat (size st), [])])
    as (hf & s1 & st' & ps' & rids & Hi & Hr1 & Hc1 & Hst & Hsz1 & Hl & Hent);
    [done|done|congruence|lia|done|exact (pinned_in_store s st pins _ Hr Hnone)|done|].
  pose proof (fs_heap _ _ _ _ _ _ Hst) as Hrep'.
  pose proof (chain_length _ _ _ _ (hr_chain _ _ _ Hrep') (hr_nodup _ _ _ Hrep')) as Hlen.
  cbn in Hent. destruct (scan_pages_spec callback (GetTupleSize (schema_ hf)) ps' s1 st' pins fuel acc)
    as (s2 & Hscan & Hr2 & _); [done|done|congruence|apply Hrep'|apply Hrep'|lia|].
  exists hf0, s0, hf, s1, s2, st', rids. split_and!; [done|done| |done| |done|].
  - unfold Scan. rewrite <- (hr_first _ _ _ Hrep'), Hscan, Hent. done.
  - pose proof (chain_entries_NoDup ps' (hr_nodup _ _ _ Hrep')) as Hn.
    rewrite Hent in Hn. by rewrite fst_zip in Hn by lia.
  - intros q Hq. assert (q ≠ Z.of_nat (size st)) by (intros ->; rewrite Hnone in Hq; by destruct Hq).
    rewrite (fs_frame _ _ _ _ _ _ Hst); unfold st0.
    + by rewrite lookup_insert_ne.
    + by rewrite lookup_insert_ne.
    + cbn. by rewrite list_elem_of_singleton.
Qed.

(** C27. [InsertTuple] of a row of the schema's size on a file holding some rows,
    whose last page nobody pins: it never raises an error; on
    success the new row comes last with the returned id, on failure the rows are
    as before and every frame was pinned. Other pages are untouched, all pins are
    released, and the file is well formed again. *)
Theorem InsertTuple_correct hf s st pins ps t :
  pc_rep s st pins → pins_low pins → Z.of_nat (size st) + 1 < 2 ^ 31 →
  heap_rep hf st ps → pins !! last_page_id_ hf = None →
  length (data_ t) = Z.to_nat (GetTupleSize (schema_ hf)) →
  ∃ hf' s' st' ps' r, InsertTuple t (hf, s) = ((hf', s'), Ok r) ∧
    pc_rep s' st' pins ∧ heap_rep hf' st' ps' ∧
    first_page_id_ hf' = first_page_id_ hf ∧ schema_ hf' = schema_ hf ∧
    (∀ q, is_Some (st !! q) → q ∉ ps.*1 → st' !! q = st !! q) ∧
    match r with
    | Some rid => chain_entries ps' = chain_entries ps ++ [(rid, t)]
    | None => chain_entries ps' = chain_entries ps ∧ (pc_cap s ≤ size pins)%nat
    end.
Proof.
  intros Hr Hlow Hsz Hrep Hun Ht.
  destruct (InsertTuple_spec hf s st pins ps t (data_ t)) as (hf' & s' & st' & ps' & r & Hi & Hp);
    [done..|by apply load_whole, Hrep|].
  destruct Hp as [Hr' _ [Hh Hsch Hf _ Hfr _] _ He]. destruct t.
  exists hf', s', st', ps', r. split_and!; done.
Qed.

(** The work of parallel scanners: each page of the list is scanned by itself. *)
Fixpoint scan_each (hf : HeapFile) (ids : list Z) : M S (list (RID * Tuple)) :=
  match ids with
  | [] => retM []
  | p :: ids =>
      l <- ScanPage hf p collect [] ;; rest <- scan_each hf ids ;; retM (l ++ rest)
  end.

Lemma chain_seg_lookup st sz (ps : chain) next p rows :
  chain_seg st sz ps next → (p, rows) ∈ ps →
  ∃ d n, st !! p = Some d ∧ page_holds sz d n rows.
Proof.
  induction ps as [|[q qrows] ps IH]; [by intros _ ?%elem_of_nil|].
  intros ((d & Hd & Hp) & _ & Hc) [[= -> ->]|Hin]%elem_of_cons; eauto.
Qed.

Lemma scan_each_spec hf qs ps s st pins :
  pc_rep s st pins → pins_low pins → (size pins < pc_cap s)%nat →
  heap_rep hf st ps → qs ⊆ ps →
  ∃ s', scan_each hf qs.*1 s = (s', Ok (chain_entries qs)) ∧ pc_rep s' st pins.
Proof.
  intros Hr Hlow Hcap Hrep. revert s Hr Hcap.
  induction qs as [|[p rows] qs IH]; intros s Hr Hcap Hqs; [by exists s|].
  destruct (chain_seg_lookup _ _ _ _ p rows (hr_chain _ _ _ Hrep)) as (d & n & Hd & Hp).
  { apply Hqs. by left. }
  destruct (ScanPage_spec collect hf p d n rows s st pins []) as (s1 & Hs1 & Hr1 & Hc1);
    [done..|apply Hrep|done|done|].
  rewrite foldl_collect in Hs1.
  destruct (IH s1 Hr1 ltac:(lia)) as (s2 & Hs2 & Hr2).
  { intros x Hx. apply Hqs. by right. }
  exists s2. cbn [scan_each fmap list_fmap fst]. unfold chain_entries in *. cbn.
  by rewrite (bindM_Ok _ _ _ _ _ Hs1), (bindM_Ok _ _ _ _ _ Hs2).
Qed.

(** [GetPageIds] lists each page of the file once, and scanning those pages
    one by one in any order, as parallel workers do, yields the rows a
    sequential [Scan] yields. *)
Theorem parallel_scan_same_rows hf s st pins ps fuel :
  pc_rep s st pins → pins_low pins → (size pins < pc_cap s)%nat →
  heap_rep hf st ps → (size st < fuel)%nat →
  ∃ s1 ids, GetPageIds fuel hf s = (s1, Ok ids) ∧ NoDup ids ∧
    ∃ s2 rows, Scan fuel hf (λ a r t, (collect a r t, true)) [] s1 = (s2, Ok rows) ∧
    ∀ order, order ≡ₚ ids →
      ∃ s3 rows', scan_each hf order s2 = (s3, Ok rows') ∧ rows' ≡ₚ rows ∧ pc_rep s3 st pins.
Proof.
  intros Hr Hlow Hcap Hrep Hfuel.
  pose proof (chain_length _ _ _ _ (hr_chain _ _ _ Hrep) (hr_nodup _ _ _ Hrep)) as Hlen.
  destruct (page_ids_spec (GetTupleSize (schema_ hf)) ps s st pins fuel)
    as (s1 & Hids & Hr1 & Hc1); [done..|apply Hrep|lia|].
  destruct (scan_pages_spec (λ a r t, (collect a r t, true)) (GetTupleSize (schema_ hf)) ps s1 st pins fuel [])
    as (s2 & Hscan & Hr2 & Hc2); [done|done|lia|apply Hrep|apply Hrep|lia|].
  rewrite scan_list_foldl, foldl_collect in Hscan.
  exists s1, ps.*1. unfold GetPageIds, Scan. rewrite <- (hr_first _ _ _ Hrep), Hids.
  split_and!; [done|apply Hrep|]. exists s2, (chain_entries ps). split; [done|].
  intros order Ho. apply Permutation_map_inv in Ho as (qs & -> & Hq).
  destruct (scan_each_spec hf qs ps s2 st pins) as (s3 & H3 & Hr3); [done|done|lia|done| |].
  { intros x Hx. by rewrite Hq. }
  exists s3, (chain_entries qs). split_and!; [done| |done].
  unfold chain_entries. rewrite <- !flat_map_concat_map. symmetry.
  by apply Permutation_flat_map.
Qed.

(** Opening a file again from its first page id gives the object its writer
    had: the walk along the chain ends at the last page. *)
Theorem HeapFile_reopen hf s st pins ps fuel :
  pc_rep s st pins → pins_low pins → (size pins < pc_cap s)%nat →
  heap_rep hf st ps → (size st ≤ fuel)%nat →
  ∃ s', HeapFile_open fuel (schema_ hf) (first_page_id_ hf) s = (s', Ok hf) ∧ pc_rep s' st pins ∧
    pc_cap s' = pc_cap s.
Proof.
  intros Hr Hlow Hcap Hrep Hfuel.
  pose proof (chain_length _ _ _ _ (hr_chain _ _ _ Hrep) (hr_nodup _ _ _ Hrep)) as Hlen.
  destruct (find_last_spec (GetTupleSize (schema_ hf)) ps s st pins fuel)
    as (s' & l & Hf & Hl & Hr' & Hc'); [done..|apply Hrep|lia| |].
  { intros ->. by pose proof (hr_last _ _ _ Hrep). }
  rewrite (hr_last _ _ _ Hrep) in Hl. injection Hl as <-.
  exists s'. split; [|done]. unfold HeapFile_open.
  rewrite <- (hr_first _ _ _ Hrep), (bindM_Ok _ _ _ _ _ Hf). rewrite (hr_first _ _ _ Hrep).
  by destruct hf.
Qed.

(** Inserting into a table whose rows have no bytes (only [VARCHAR(0)]
    columns) divides by zero. *)
Theorem InsertTuple_zero_size hf s st pins t :
  pc_rep s st pins → pins_low pins → (size pins < pc_cap s)%nat →
  is_Some (st !! last_page_id_ hf) → GetTupleSize (schema_ hf) = 0 →
  (InsertTuple t (hf, s)).2 = Fault Undefined.
Proof.
  intros Hr Hlow Hcap Hl Hz. unfold InsertTuple. rewrite bindM_get. cbn [fst].
  destruct (pc_fetch_fetched s st pins (last_page_id_ hf)) as (s1 & r & Hf & _ & Hres);
    [done|done|apply Hlow|].
  rewrite (bind_on_pool _ _ _ _ _ _ Hf). destruct r as [fid|]; [|destruct Hres; lia].
  destruct Hres as (_ & _ & d & _ & Hrd & _). rewrite (bind_on_pool _ _ _ _ _ _ Hrd).
  unfold MaxTuplesPerPage. by rewrite Hz.
Qed.

Lemma size_ok_4 : size_ok 4.
Proof. unfold size_ok, PAGE_SIZE, HEAP_HEADER_SIZE. lia. Qed.

(** The copy of a row that does not fit in a page. *)
Lemma oversized_append hf s st pins d next fid t :
  pc_rep s st (pin_inc pins (last_page_id_ hf)) → pc_at s (last_page_id_ hf) fid →
  st !! last_page_id_ hf = Some d → page_holds 4 d next [] →
  PAGE_SIZE - HEAP_HEADER_SIZE < GetTupleSize (schema_ hf) →
  length (data_ t) = Z.to_nat (GetTupleSize (schema_ hf)) →
  (append_tuple t fid (hf, s)).2 = Fault Undefined.
Proof.
  intros Hr Hat Hd Hp Hbig Ht. unfold append_tuple. rewrite bindM_get. cbn [fst].
  destruct (pc_read_spec s st _ _ fid Hr (pin_inc_lookup _ _) Hat) as (d' & Hd' & Hrd).
  rewrite Hd in Hd'. injection Hd' as <-.
  rewrite (bind_on_pool _ _ _ _ _ _ Hrd), (bindM_def _ _ _ _ (ph_num _ _ _ _ Hp)).
  unfold PAGE_SIZE, HEAP_HEADER_SIZE in *.
  rewrite (bindM_def (load 0 _ _) (data_ t)); cycle 1.
  { rewrite load_Some, drop_0, take_ge by lia. done. }
  cbn [length]. change (Z.of_nat 0) with 0. unfold bindM at 1, on_pool, zoomM, poke. cbn [snd].
  rewrite (bindM_Ok _ _ _ _ _ Hrd).
  destruct (store (TupleSlot 0 (GetTupleSize (schema_ hf))) (data_ t) d) as [d1|] eqn:E;
    [|done].
  apply store_is_Some in E as (_ & E & _). rewrite Ht, (ph_len _ _ _ _ Hp) in E.
  unfold TupleSlot, PAGE_SIZE, HEAP_HEADER_SIZE in E. rewrite wrap_u32_id in E by lia. lia.
Qed.

Lemma oversized_new_page hf s st pins d t :
  pc_rep s st pins → pins_low pins → (size pins < pc_cap s)%nat →
  Z.of_nat (size st) + 1 < 2 ^ 31 → pins !! last_page_id_ hf = None →
  st !! last_page_id_ hf = Some d → page_holds 4 d INVALID_PAGE_ID [] →
  PAGE_SIZE - HEAP_HEADER_SIZE < GetTupleSize (schema_ hf) →
  length (data_ t) = Z.to_nat (GetTupleSize (schema_ hf)) →
  (insert_in_new_page t (hf, s)).2 = Fault Undefined.
Proof.
  intros Hr Hlow Hcap Hsz Hun Hd Hp Hbig Ht. unfold insert_in_new_page. rewrite bindM_get. cbn [fst].
  destruct (AllocateHeapPage_spec s st pins 4 Hr ltac:(lia) size_ok_4)
    as (s0 & [new|f] & Ha & Hc & Hres); [|destruct Hres as (_ & _ & ?); lia].
  rewrite (bindM_Ok _ _ _ _ _ (catch_allocate hf s s0 (Ok new) Ha)).
  destruct Hres as (Hnew & Hnone & d0 & Hp0 & Hr0). set (st0 := <[new := d0]> st) in *.
  assert (Hne : last_page_id_ hf ≠ new) by congruence.
  destruct (link_spec s0 st0 pins (last_page_id_ hf) d new 4 [] INVALID_PAGE_ID)
    as (s2 & r & Hf & Hc2 & Hl);
    [done|done|done|unfold st0; by rewrite lookup_insert_ne|exact size_ok_4|done|lia|].
  rewrite (bind_on_pool _ _ _ _ _ _ Hf). destruct r as [fid|]; [|destruct Hl; lia].
  destruct Hl as (s3 & s4 & d' & Hk & Hu & Hc4 & Hp' & Hr4).
  rewrite (bind_on_pool _ _ _ _ _ _ Hk), (bind_on_pool _ _ _ _ _ _ Hu).
  change (bindM (set_last new) ?k (hf, s4))
    with (k tt (mkHeapFile (schema_ hf) (first_page_id_ hf) new, s4)). cbv beta.
  set (st1 := <[last_page_id_ hf := d']> st0) in *.
  assert (Hd1 : st1 !! new = Some d0).
  { unfold st1, st0. by rewrite lookup_insert_ne, lookup_insert_eq. }
  destruct (pc_fetch_spec s4 st1 pins new) as (s5 & r & Hf5 & Hc5 & _ & Hres);
    [done|eauto|apply Hlow|].
  rewrite (bind_on_pool _ _ _ _ _ _ Hf5).
  destruct r as [fid'|]; [|destruct Hres as (_ & _ & ?); lia]. destruct Hres as [Hr5 Hat5].
  by apply (oversized_append (mkHeapFile (schema_ hf) (first_page_id_ hf) new) s5 st1 pins d0 INVALID_PAGE_ID).
Qed.

(** C34. The first insertion into a table whose rows exceed 4088 bytes (for
    instance one [VARCHAR(5000)] column, which [CREATE TABLE] accepts) writes past
    the end of a page: [MaxTuplesPerPage] is 0, so a new page is added, and the
    copy to its slot 0 is not bounded by it. *)
Theorem InsertTuple_oversized schema t s st pins :
  pc_rep s st pins → pins_low pins → (size pins < pc_cap s)%nat →
  Z.of_nat (size st) + 2 < 2 ^ 31 →
  PAGE_SIZE - HEAP_HEADER_SIZE < GetTupleSize schema →
  length (data_ t) = Z.to_nat (GetTupleSize schema) →
  ∃ s0 hf, HeapFile_create schema s = (s0, Ok hf) ∧ (InsertTuple t (hf, s0)).2 = Fault Undefined.
Proof.
  intros Hr Hlow Hcap Hsz Hbig Ht.
  destruct (AllocateHeapPage_spec s st pins 4 Hr ltac:(lia) size_ok_4)
    as (s0 & [pid|f] & Ha & Hc & Hres); [|destruct Hres as (_ & _ & ?); lia].
  destruct Hres as (Hpid & Hnone & d & Hp & Hr0).
  exists s0, (mkHeapFile schema pid pid). unfold HeapFile_create.
  split; [by rewrite (bindM_Ok _ _ _ _ _ Ha)|].
  set (st0 := <[pid := d]> st) in *. set (hf := mkHeapFile schema pid pid).
  assert (Hsz0 : size st0 = Datatypes.S (size st)) by by apply map_size_insert_None.
  assert (Hd : st0 !! pid = Some d) by apply lookup_insert_eq.
  unfold InsertTuple. rewrite bindM_get. cbn [fst].
  destruct (pc_fetch_fetched s0 st0 pins pid) as (s1 & r & Hf & Hc1 & Hres);
    [done|eauto|apply Hlow|].
  rewrite (bind_on_pool _ _ hf _ _ _ Hf). destruct r as [fid|]; [|destruct Hres; lia].
  destruct Hres as (_ & _ & d1 & Hd1 & Hrd & s2 & Hu & Hr2 & Hc2).
  rewrite Hd in Hd1. injection Hd1 as <-. rewrite (bind_on_pool _ _ hf _ _ _ Hrd).
  assert (Hmax : MaxTuplesPerPage (schema_ hf) = Some 0).
  { unfold MaxTuplesPerPage. cbn. unfold PAGE_SIZE, HEAP_HEADER_SIZE in *.
    rewrite (proj2 (Z.eqb_neq _ 0)) by lia. f_equal. apply Z.div_small. lia. }
  rewrite (bindM_def _ _ _ _ Hmax), (bindM_def _ _ _ _ (ph_num _ _ _ _ Hp)).
  change (0 <=? Z.of_nat (length (@nil (list ascii)))) with true. cbv match beta. rewrite (bind_on_pool _ _ hf _ _ _ Hu).
  apply (oversized_new_page hf s2 st0 pins d t);
    [done|done|lia|lia|exact (pinned_in_store s st pins pid Hr Hnone)|done..].
Qed.
End theorems.

(** ** On the buffer pool *)
Definition demo_schema : Schema :=
  Schema_ctor [mkColumn "id" ColumnType_Int; mkColumn "name" (ColumnType_Varchar 8)].
Definition demo_row (c : ascii) : Tuple := mkTuple (memset 12 c).
Definition wide_schema (n : Z) : Schema := Schema_ctor [mkColumn "v" (ColumnType_Varchar n)].

(** The pool of one frame, with an empty file. *)
Lemma demo_heap :
  ∃ s d, HeapFile_create demo_schema (BufferPoolManager_ctor 1 blank_disk)
      = (s, Ok (mkHeapFile demo_schema 0 0)) ∧
    bp_inv s {[0 := d]} ∅ ∧ pool_size_ s = 1%nat ∧
    heap_rep (mkHeapFile demo_schema 0 0) {[0 := d]} [(0, [])].
Proof.
  destruct (HeapFile_create_spec demo_schema (BufferPoolManager_ctor 1 blank_disk) ∅ ∅)
    as (s & d & Hc & _ & Hcap & Hr & Hrep).
  - apply blank_pool_inv. lia.
  - vm_compute. reflexivity.
  - vm_compute. lia.
  - vm_compute. split; congruence.
  - exists s, d. split_and!; [exact Hc|exact Hr|exact Hcap|exact Hrep].
Qed.

Lemma heap_insert_scan_witness :
  ∃ hf0 s0 hf s1 s2 rids,
    HeapFile_create demo_schema (BufferPoolManager_ctor 1 blank_disk) = (s0, Ok hf0) ∧
    insert_all [demo_row "a"%char; demo_row "b"%char] (hf0, s0) = ((hf, s1), Ok (Some <$> rids)) ∧
    Scan 4 hf (λ a r t, (collect a r t, true)) [] s1
    = (s2, Ok (scan_list (λ a r t, (collect a r t, true))
                 (zip rids [demo_row "a"%char; demo_row "b"%char]) []).1).
Proof.
  destruct (heap_insert_scan (λ a r t, (collect a r t, true)) [] demo_schema
    [demo_row "a"%char; demo_row "b"%char] (BufferPoolManager_ctor 1 blank_disk) ∅ ∅ 4)
    as (hf0 & s0 & hf & s1 & s2 & st' & rids & H1 & H2 & H3 & _).
  - apply blank_pool_inv. lia.
  - apply pins_low_empty.
  - vm_compute. lia.
  - vm_compute. reflexivity.
  - vm_compute. split; congruence.
  - repeat constructor.
  - vm_compute. lia.
  - exists hf0, s0, hf, s1, s2, rids. split; [exact H1|]. split; [exact H2|exact H3].
Defined.

Lemma InsertTuple_correct_witness :
  ∃ s hf' s' ps' r, InsertTuple (demo_row "a"%char) (mkHeapFile demo_schema 0 0, s) = ((hf', s'), Ok r) ∧
    match r with
    | Some rid => chain_entries ps' = [(rid, demo_row "a"%char)]
    | None => False
    end.
Proof.
  destruct demo_heap as (s & d & _ & Hr & Hcap & Hrep).
  destruct (InsertTuple_correct (mkHeapFile demo_schema 0 0) s {[0 := d]} ∅ [(0, [])]
    (demo_row "a"%char)) as (hf' & s' & st' & ps' & r & Hi & _ & _ & _ & _ & _ & He).
  - exact Hr.
  - apply pins_low_empty.
  - rewrite map_size_singleton. vm_compute. reflexivity.
  - exact Hrep.
  - reflexivity.
  - reflexivity.
  - exists s, hf', s', ps', r. split; [exact Hi|]. destruct r as [rid|]; [exact He|].
    destruct He as [_ He]. simpl in He. rewrite Hcap in He. vm_compute in He. lia.
Defined.

Lemma parallel_scan_same_rows_witness :
  ∃ s s1 ids, GetPageIds 2 (mkHeapFile demo_schema 0 0) s = (s1, Ok ids) ∧ NoDup ids.
Proof.
  destruct demo_heap as (s & d & _ & Hr & Hcap & Hrep).
  destruct (parallel_scan_same_rows (mkHeapFile demo_schema 0 0) s {[0 := d]} ∅ [(0, [])] 2)
    as (s1 & ids & Hg & Hn & _).
  - exact Hr.
  - apply pins_low_empty.
  - simpl. rewrite Hcap. vm_compute. lia.
  - exact Hrep.
  - rewrite map_size_singleton. lia.
  - exists s, s1, ids. split; [exact Hg|exact Hn].
Defined.

Lemma HeapFile_reopen_witness :
  ∃ s s', HeapFile_open 1 demo_schema 0 s = (s', Ok (mkHeapFile demo_schema 0 0)).
Proof.
  destruct demo_heap as (s & d & _ & Hr & Hcap & Hrep).
  destruct (HeapFile_reopen (mkHeapFile demo_schema 0 0) s {[0 := d]} ∅ [(0, [])] 1) as (s' & H & _).
  - exact Hr.
  - apply pins_low_empty.
  - simpl. rewrite Hcap. vm_compute. lia.
  - exact Hrep.
  - rewrite map_size_singleton. lia.
  - exists s, s'. exact H.
Defined.

Lemma InsertTuple_zero_size_witness :
  (InsertTuple (mkTuple []) (mkHeapFile (wide_schema 0) 0 0, demo_pool)).2 = Fault Undefined.
Proof.
  apply (InsertTuple_zero_size (mkHeapFile (wide_schema 0) 0 0) demo_pool {[0 := demo_data]} ∅).
  - exact demo_pool_inv.
  - apply pins_low_empty.
  - vm_compute. lia.
  - exists demo_data. reflexivity.
  - reflexivity.
Defined.

Lemma InsertTuple_oversized_witness :
  ∃ s0 hf, HeapFile_create (wide_schema 5000) (BufferPoolManager_ctor 1 blank_disk) = (s0, Ok hf) ∧
    (InsertTuple (mkTuple (memset 5000 NUL)) (hf, s0)).2 = Fault Undefined.
Proof.
  apply (InsertTuple_oversized (wide_schema 5000) (mkTuple (memset 5000 NUL))
    (BufferPoolManager_ctor 1 blank_disk) ∅ ∅).
  - apply blank_pool_inv. lia.
  - apply pins_low_empty.
  - vm_compute. lia.
  - vm_compute. reflexivity.
  - vm_compute. reflexivity.
  - apply memset_length.
Defined.
