(* ===== verification/BPlusTree.v ===== *)
(** * B+ tree: [src/src/storage/bplus_tree.h], [bplus_tree.cpp]

    The node structs are overlaid on the bytes of a page.  [data[i]] of either
    struct is an access at [HEADER_SIZE + i * sizeof(entry)], undefined outside
    the [CAPACITY] of the array.  The methods run on the page-cache interface. *)
From stdpp Require Import base gmap list strings.
From Stdlib Require Import ZArith Lia Ascii.
From S2P Require Import Prelude Types PageCache.

Definition NODE_INTERNAL : Z := 0.
Definition NODE_LEAF : Z := 1.

(** [int] arithmetic: undefined outside the range. *)
Definition s32 (z : Z) : option Z := if in_s32 z then Some z else None.

(** An entry type of a node's array: a key, and the value stored with it. *)
Record layout (V : Type) := mkLayout {
  HEADER_SIZE : Z;
  entry_size : Z;
  CAPACITY : Z;
  enc : Z * V → list ascii;
  dec : list ascii → Z * V
}.
Arguments mkLayout {V}.
Arguments HEADER_SIZE {V}.
Arguments entry_size {V}.
Arguments CAPACITY {V}.
Arguments enc {V}.
Arguments dec {V}.

(** [InternalEntry { int32_t key; page_id_t child; }]. *)
Definition InternalPage : layout Z := {|
  HEADER_SIZE := 12;
  entry_size := 8;
  CAPACITY := (PAGE_SIZE - 12) `div` 8;
  enc e := le_bytes 4 e.1 ++ le_bytes 4 e.2;
  dec bs := (wrap_s32 (le_Z (take 4 bs)), wrap_s32 (le_Z (drop 4 bs)))
|}.

(** [LeafEntry { int32_t key; RID rid; }]. *)
Definition LeafPage : layout RID := {|
  HEADER_SIZE := 16;
  entry_size := 12;
  CAPACITY := (PAGE_SIZE - 16) `div` 12;
  enc e := le_bytes 4 e.1 ++ le_bytes 4 (rid_page_id e.2) ++ le_bytes 4 (rid_slot_num e.2);
  dec bs := (wrap_s32 (le_Z (take 4 bs)),
             mkRID (wrap_s32 (le_Z (take 4 (drop 4 bs)))) (le_Z (drop 8 bs)))
|}.

(** Header fields. *)
Definition page_type (d : list ascii) : option Z := load_u32 0 d.
Definition set_page_type (v : Z) (d : list ascii) : option (list ascii) := store_32 0 v d.
Definition node_size (d : list ascii) : option Z := load_s32 4 d.
Definition set_node_size (v : Z) (d : list ascii) : option (list ascii) := store_32 4 v d.
Definition set_parent_page_id (v : Z) (d : list ascii) : option (list ascii) := store_32 8 v d.
Definition next_page_id (d : list ascii) : option Z := load_s32 12 d.
Definition set_next_page_id (v : Z) (d : list ascii) : option (list ascii) := store_32 12 v d.

Section node.
Context {V : Type} (L : layout V).

Definition entry_off (i : Z) : Z := HEADER_SIZE L + i * entry_size L.
(** [data[i]], and assignment to it. *)
Definition get_entry (i : Z) (d : list ascii) : option (Z * V) :=
  if (0 <=? i) && (i <? CAPACITY L) then dec L <$> load (entry_off i) (entry_size L) d
  else None.
Definition set_entry (i : Z) (e : Z * V) (d : list ascii) : option (list ascii) :=
  if (0 <=? i) && (i <? CAPACITY L) then store (entry_off i) (enc L e) d else None.

(** [for (int i = ...; i < size; ++i) if (data[i].key > key) { pos = i; break; }],
    with [n] entries left to look at; [i] itself when none is greater. *)
Fixpoint find_pos (key : Z) (n : nat) (i : Z) (d : list ascii) : option Z :=
  match n with
  | O => Some i
  | S n => e ← get_entry i d; if key <? e.1 then Some i else find_pos key n (i + 1) d
  end.
(** [for (int i = size; i > pos; --i) data[i] = data[i - 1];], [n] steps left. *)
Fixpoint shift_up (n : nat) (i : Z) (d : list ascii) : option (list ascii) :=
  match n with
  | O => Some d
  | S n => e ← get_entry (i - 1) d; d ← set_entry i e d; shift_up n (i - 1) d
  end.
(** [InsertEntry]; the search starts at [start]. *)
Definition insert_entry (start : Z) (key : Z) (v : V) (d : list ascii) : option (list ascii) :=
  size ← node_size d;
  pos ← (if size <? start then Some size
         else find_pos key (Z.to_nat (size - start)) start d);
  d ← shift_up (Z.to_nat (size - pos)) size d;
  d ← set_entry pos (key, v) d;
  size ← node_size d;
  size ← s32 (size + 1);
  set_node_size size d.

(** [for (i = 0; i < n; ++i) new->data[to + i] = old->data[from + i]]. *)
Fixpoint copy_entries (n : nat) (from to : Z) (old new : list ascii) : option (list ascii) :=
  match n with
  | O => Some new
  | S n =>
      e ← get_entry from old; new ← set_entry to e new;
      copy_entries n (from + 1) (to + 1) old new
  end.
End node.

(** ** [BPlusTreeInternalPage] *)
Definition Internal_Init (parent : Z) (d : list ascii) : option (list ascii) :=
  d ← set_page_type NODE_INTERNAL d; d ← set_node_size 1 d; d ← set_parent_page_id parent d;
  set_entry InternalPage 0 (0, INVALID_PAGE_ID) d.

(** The binary search of [Lookup]. The interval shrinks with each step, so
    [hi - lo + 2] steps are enough. *)
Fixpoint lookup_loop (key : Z) (fuel : nat) (lo hi result : Z) (d : list ascii) : option Z :=
  match fuel with
  | O => None
  | S fuel =>
      if lo <=? hi then
        sum ← s32 (lo + hi);
        let mid := sum `quot` 2 in
        e ← get_entry InternalPage mid d;
        if e.1 <=? key then lookup_loop key fuel (mid + 1) hi mid d
        else lookup_loop key fuel lo (mid - 1) result d
      else Some result
  end.
Definition Internal_Lookup (key : Z) (d : list ascii) : option Z :=
  size ← node_size d;
  hi ← s32 (size - 1);
  result ← lookup_loop key (S (Z.to_nat (hi + 1))) 1 hi 0 d;
  snd <$> get_entry InternalPage result d.

Definition Internal_InsertEntry (new_key new_right : Z) (d : list ascii) : option (list ascii) :=
  insert_entry InternalPage 1 new_key new_right d.
(** [data[0].child = c]: the key of the entry stays. *)
Definition set_first_child (c : Z) (d : list ascii) : option (list ascii) :=
  e ← get_entry InternalPage 0 d; set_entry InternalPage 0 (e.1, c) d.

(** ** [BPlusTreeLeafPage] *)
Definition Leaf_Init (parent : Z) (d : list ascii) : option (list ascii) :=
  d ← set_page_type NODE_LEAF d; d ← set_node_size 0 d; d ← set_parent_page_id parent d;
  set_next_page_id INVALID_PAGE_ID d.
Definition Leaf_InsertEntry (key : Z) (rid : RID) (d : list ascii) : option (list ascii) :=
  insert_entry LeafPage 0 key rid d.

(** [for (i = 0; i < size; ++i) if (data[i].key == key)]: the index found. *)
Fixpoint find_key (key : Z) (n : nat) (i : Z) (d : list ascii) : option (option Z) :=
  match n with
  | O => Some None
  | S n => e ← get_entry LeafPage i d;
           if e.1 =? key then Some (Some i) else find_key key n (i + 1) d
  end.

(** The leaf split of [InsertInLeaf]: the two pages and the separator. *)
Definition split_leaf (new_pid : Z) (leaf new : list ascii)
    : option (list ascii * list ascii * Z) :=
  size ← node_size leaf;
  let mid := size `quot` 2 in
  new ← set_node_size (size - mid) new;
  new ← copy_entries LeafPage (Z.to_nat (size - mid)) mid 0 leaf new;
  next ← next_page_id leaf;
  new ← set_next_page_id next new;
  leaf ← set_next_page_id new_pid leaf;
  leaf ← set_node_size mid leaf;
  e ← get_entry LeafPage 0 new;
  Some (leaf, new, e.1).

(** The internal split of [InsertInInternal]: the two pages and the key pushed up. *)
Definition split_internal (node new : list ascii) : option (list ascii * list ascii * Z) :=
  size ← node_size node;
  let mid := size `quot` 2 in
  e ← get_entry InternalPage mid node;
  new ← set_first_child e.2 new;
  let n := Z.to_nat (size - (mid + 1)) in
  new ← copy_entries InternalPage n (mid + 1) 1 node new;
  new ← set_node_size (1 + Z.of_nat n) new;
  node ← set_node_size mid node;
  Some (node, new, e.1).

(** The binary search of [Search] in a leaf. *)
Fixpoint search_leaf (key : Z) (fuel : nat) (lo hi : Z) (d : list ascii) : option (option RID) :=
  match fuel with
  | O => None
  | S fuel =>
      if lo <=? hi then
        sum ← s32 (lo + hi);
        let mid := sum `quot` 2 in
        e ← get_entry LeafPage mid d;
        if e.1 =? key then Some (Some e.2)
        else if e.1 <? key then search_leaf key fuel (mid + 1) hi d
        else search_leaf key fuel lo (mid - 1) d
      else Some None
  end.
Definition Leaf_Search (key : Z) (d : list ascii) : option (option RID) :=
  size ← node_size d;
  hi ← s32 (size - 1);
  search_leaf key (S (Z.to_nat (hi + 1))) 0 hi d.

(** One leaf of [RangeScan]: the record ids collected, and [done]. *)
Fixpoint range_leaf (low high : Z) (n : nat) (i : Z) (d : list ascii) (results : list RID)
    : option (list RID * bool) :=
  match n with
  | O => Some (results, false)
  | S n =>
      e ← get_entry LeafPage i d;
      if high <? e.1 then Some (results, true)
      else range_leaf low high n (i + 1) d (if low <=? e.1 then results ++ [e.2] else results)
  end.

(** ** [BPlusTree] *)
Record BPlusTree := mkBPlusTree {
  name_ : string;
  root_page_id_ : Z;
  leaf_max_size_ : Z;
  internal_max_size_ : Z
}.

(** The constructor; its asserts stop a debug build. *)
Definition BPlusTree_ctor (name : string) (leaf_max_size internal_max_size : Z)
    : outcome BPlusTree :=
  let leaf_max := if 0 <? leaf_max_size then leaf_max_size else CAPACITY LeafPage in
  let internal_max := if 0 <? internal_max_size then internal_max_size
                      else CAPACITY InternalPage in
  if (2 <=? leaf_max) && (3 <=? internal_max)
  then Ok (mkBPlusTree name INVALID_PAGE_ID leaf_max internal_max)
  else Fault AssertFail.

Record SplitResult := mkSplitResult { split_key : Z; right_pid : Z }.

Section bplus_tree.
Context {S : Type} {PC : PageCache S}.

(** The end of a split: a new page is allocated and initialised, entries move to
    it, both pages are released. The page at [pid] is pinned in [fid]. *)
Definition split_page (msg : string) (init : list ascii → option (list ascii))
    (split : Z → list ascii → list ascii → option (list ascii * list ascii * Z))
    (pid fid : Z) : M S (option SplitResult) :=
  r <- pc_new ;;
  match r with
  | None => throwM msg
  | Some (new_pid, new_fid) =>
      poke new_fid init ;;
      node <- pc_read fid ;;
      new <- pc_read new_fid ;;
      res <- defM (split new_pid node new) ;;
      pc_write new_fid res.1.2 ;;
      pc_write fid res.1.1 ;;
      pc_unpin new_pid true ;;
      pc_unpin pid true ;;
      retM (Some (mkSplitResult res.2 new_pid))
  end.

Definition InsertInLeaf (leaf_max : Z) (pid key : Z) (rid : RID) : M S (option SplitResult) :=
  r <- pc_fetch pid ;;
  fid <- defM r ;;
  leaf <- pc_read fid ;;
  size <- defM (node_size leaf) ;;
  found <- defM (find_key key (Z.to_nat size) 0 leaf) ;;
  match found with
  | Some i =>
      poke fid (λ d, e ← get_entry LeafPage i d; set_entry LeafPage i (e.1, rid) d) ;;
      pc_unpin pid true ;; retM None
  | None =>
      poke fid (Leaf_InsertEntry key rid) ;;
      leaf <- pc_read fid ;;
      size <- defM (node_size leaf) ;;
      if size <? leaf_max then pc_unpin pid true ;; retM None
      else split_page "BPlusTree — buffer pool full during leaf split"
             (Leaf_Init INVALID_PAGE_ID) split_leaf pid fid
  end.

(** The part of [InsertInInternal] after the child has split. *)
Definition insert_separator (internal_max : Z) (pid : Z) (split : SplitResult)
    : M S (option SplitResult) :=
  r <- pc_fetch pid ;;
  fid <- defM r ;;
  poke fid (Internal_InsertEntry (split_key split) (right_pid split)) ;;
  node <- pc_read fid ;;
  size <- defM (node_size node) ;;
  if size <=? internal_max then pc_unpin pid true ;; retM None
  else split_page "BPlusTree — buffer pool full during internal split"
         (Internal_Init INVALID_PAGE_ID) (λ _, split_internal) pid fid.

(** [InsertInInternal], with the recursive call as an argument. *)
Definition InsertInInternal (rec : Z → M S (option SplitResult)) (internal_max : Z)
    (pid key : Z) : M S (option SplitResult) :=
  r <- pc_fetch pid ;;
  fid <- defM r ;;
  node <- pc_read fid ;;
  child_pid <- defM (Internal_Lookup key node) ;;
  pc_unpin pid false ;;
  result <- rec child_pid ;;
  match result with
  | None => retM None
  | Some split => insert_separator internal_max pid split
  end.

(** The recursion goes down one level of the tree per call. *)
Fixpoint InsertInPage (leaf_max internal_max : Z) (fuel : nat) (key : Z) (rid : RID) (pid : Z)
    : M S (option SplitResult) :=
  match fuel with
  | O => faultM OutOfFuel
  | Datatypes.S fuel =>
      r <- pc_fetch pid ;;
      match r with
      | None => throwM "BPlusTree — failed to fetch page"
      | Some fid =>
          d <- pc_read fid ;;
          ty <- defM (page_type d) ;;
          pc_unpin pid false ;;
          if ty =? NODE_LEAF then InsertInLeaf leaf_max pid key rid
          else InsertInInternal (InsertInPage leaf_max internal_max fuel key rid)
                 internal_max pid key
      end
  end.

Definition on_cache {A} : M S A → M (BPlusTree * S) A := zoomM snd (λ s p, (p.1, s)).
Definition set_root (pid : Z) : M (BPlusTree * S) unit :=
  p <- getM ;;
  putM (mkBPlusTree (name_ p.1) pid (leaf_max_size_ p.1) (internal_max_size_ p.1), p.2).

Definition Insert (fuel : nat) (key : Z) (rid : RID) : M (BPlusTree * S) unit :=
  p <- getM ;;
  let t := p.1 in
  if root_page_id_ t =? INVALID_PAGE_ID then
    r <- on_cache pc_new ;;
    match r with
    | None => throwM "BPlusTree::Insert — buffer pool full"
    | Some (pid, fid) =>
        on_cache (poke fid (Leaf_Init INVALID_PAGE_ID)) ;;
        on_cache (poke fid (Leaf_InsertEntry key rid)) ;;
        on_cache (pc_unpin pid true) ;;
        set_root pid
    end
  else
    result <- on_cache (InsertInPage (leaf_max_size_ t) (internal_max_size_ t) fuel key rid
                          (root_page_id_ t)) ;;
    match result with
    | None => retM tt
    | Some split =>
        r <- on_cache pc_new ;;
        match r with
        | None => throwM "BPlusTree::Insert — buffer pool full on root split"
        | Some (new_root_pid, fid) =>
            on_cache (poke fid (Internal_Init INVALID_PAGE_ID)) ;;
            on_cache (poke fid (set_first_child (root_page_id_ t))) ;;
            on_cache (poke fid (Internal_InsertEntry (split_key split) (right_pid split))) ;;
            on_cache (pc_unpin new_root_pid true) ;;
            set_root new_root_pid
        end
    end.

(** [Search(key, rid)]: [Some rid] for [true]. *)
Fixpoint search_from (fuel : nat) (key pid : Z) : M S (option RID) :=
  match fuel with
  | O => faultM OutOfFuel
  | Datatypes.S fuel =>
      r <- pc_fetch pid ;;
      match r with
      | None => retM None
      | Some fid =>
          d <- pc_read fid ;;
          ty <- defM (page_type d) ;;
          if ty =? NODE_LEAF then
            res <- defM (Leaf_Search key d) ;; pc_unpin pid false ;; retM res
          else
            next <- defM (Internal_Lookup key d) ;; pc_unpin pid false ;;
            search_from fuel key next
      end
  end.
Definition Search (fuel : nat) (t : BPlusTree) (key : Z) : M S (option RID) :=
  if root_page_id_ t =? INVALID_PAGE_ID then retM None
  else search_from fuel key (root_page_id_ t).

(** The descent of [RangeScan]; the result of [FetchPage] is not checked. *)
Fixpoint descend (fuel : nat) (key pid : Z) : M S Z :=
  match fuel with
  | O => faultM OutOfFuel
  | Datatypes.S fuel =>
      r <- pc_fetch pid ;;
      fid <- defM r ;;
      d <- pc_read fid ;;
      ty <- defM (page_type d) ;;
      if ty =? NODE_LEAF then pc_unpin pid false ;; retM pid
      else
        next <- defM (Internal_Lookup key d) ;; pc_unpin pid false ;;
        descend fuel key next
  end.
Fixpoint walk_leaves (fuel : nat) (low high pid : Z) (results : list RID) : M S (list RID) :=
  match fuel with
  | O => faultM OutOfFuel
  | Datatypes.S fuel =>
      if pid =? INVALID_PAGE_ID then retM results else
      r <- pc_fetch pid ;;
      fid <- defM r ;;
      d <- pc_read fid ;;
      next <- defM (next_page_id d) ;;
      size <- defM (node_size d) ;;
      res <- defM (range_leaf low high (Z.to_nat size) 0 d results) ;;
      pc_unpin pid false ;;
      if res.2 : bool then retM res.1 else walk_leaves fuel low high next res.1
  end.
Definition RangeScan (fuel : nat) (t : BPlusTree) (low high : Z) (results : list RID)
    : M S (list RID) :=
  if root_page_id_ t =? INVALID_PAGE_ID then retM results
  else pid <- descend fuel low (root_page_id_ t) ;; walk_leaves fuel low high pid results.
End bplus_tree.
