(* ===== verification/BPlusTreeNode.v ===== *)
(** * B+ tree: one node

    What the bytes of a node page hold, and what the node operations of
    [BPlusTreeInternalPage] and [BPlusTreeLeafPage] do to it. *)
From stdpp Require Import base gmap list strings sorting.
From Stdlib Require Import ZArith Lia Ascii.
From S2P Require Import Prelude Types PageCache BPlusTree.

Definition s32_range (z : Z) : Prop := - 2 ^ 31 ≤ z < 2 ^ 31.

(** What is needed of an entry layout; [ok] is the range of the entries. *)
Class LayoutOk {V} (L : layout V) (ok : Z * V → Prop) := {
  lo_header : 12 ≤ HEADER_SIZE L;
  lo_size : 0 < entry_size L;
  lo_cap : 0 < CAPACITY L < 2 ^ 16;
  lo_fits : HEADER_SIZE L + CAPACITY L * entry_size L ≤ PAGE_SIZE;
  lo_enc e : Z.of_nat (length (enc L e)) = entry_size L;
  lo_dec e : ok e → dec L (enc L e) = e;
  lo_ok bs : Z.of_nat (length bs) = entry_size L → ok (dec L bs)
}.

Definition internal_ok (e : Z * Z) : Prop := s32_range e.1 ∧ s32_range e.2.
Definition leaf_ok (e : Z * RID) : Prop :=
  s32_range e.1 ∧ s32_range (rid_page_id e.2) ∧ 0 ≤ rid_slot_num e.2 < 2 ^ 32.

Lemma wrap_le_bytes z : s32_range z → wrap_s32 (le_Z (le_bytes 4 z)) = z.
Proof.
  unfold s32_range. intros Hz. rewrite le_Z_bytes. change (8 * Z.of_nat 4) with 32.
  change (z `mod` 2 ^ 32) with (wrap_u32 z). rewrite wrap_s32_u32. by apply wrap_s32_id.
Qed.

#[export] Instance InternalPage_ok : LayoutOk InternalPage internal_ok.
Proof.
  split; [vm_compute; congruence|done|done|vm_compute; congruence|..].
  - intros [k c]. unfold InternalPage. cbn [enc entry_size fst snd]. rewrite length_app, !length_le_bytes. done.
  - intros [k c] [Hk Hc]. simpl in Hk, Hc. unfold InternalPage. cbn [enc dec fst snd].
    rewrite take_app_length', drop_app_length' by (by rewrite length_le_bytes).
    by rewrite !wrap_le_bytes.
  - intros bs _. split; apply wrap_s32_range.
Qed.

#[export] Instance LeafPage_ok : LayoutOk LeafPage leaf_ok.
Proof.
  split; [vm_compute; congruence|done|done|vm_compute; congruence|..].
  - intros [k r]. unfold LeafPage. cbn [enc entry_size fst snd]. rewrite !length_app, !length_le_bytes. done.
  - intros [k [p n]] (Hk & Hp & Hn). simpl in Hk, Hp, Hn. unfold LeafPage. cbn [enc dec fst snd rid_page_id rid_slot_num].
    rewrite take_app_length', !drop_app_length' by (by rewrite length_le_bytes).
    rewrite take_app_length' by (by rewrite length_le_bytes). rewrite !wrap_le_bytes by done.
    replace 8%nat with (4 + 4)%nat by done. rewrite <- drop_drop.
    rewrite !drop_app_length' by (by rewrite length_le_bytes). rewrite le_Z_bytes.
    change (8 * Z.of_nat 4) with 32. by rewrite Z.mod_small.
  - intros bs Hl. split_and!; try apply wrap_s32_range; simpl.
    + pose proof (le_Z_range (drop 8 bs)). lia.
    + pose proof (le_Z_range (drop 8 bs)) as Hr. simpl in Hl.
      rewrite length_drop in Hr. replace (length bs - 8)%nat with 4%nat in Hr by lia. apply Hr.
Qed.

(** ** Lists of entries *)
Section entries.
Context {V : Type}.
Implicit Types (l : list (Z * V)) (k : Z).

Definition keys_sorted l : Prop := StronglySorted Z.lt l.*1.

(** Number of leading entries with a key at most [k]. *)
Fixpoint rank k l : nat :=
  match l with
  | [] => 0
  | e :: l => if k <? e.1 then 0%nat else S (rank k l)
  end.
(** Insertion before the first greater key. *)
Definition ins_entry k (v : V) l : list (Z * V) := take (rank k l) l ++ (k, v) :: drop (rank k l) l.

Fixpoint lookup_key k l : option V :=
  match l with
  | [] => None
  | e :: l => if e.1 =? k then Some e.2 else lookup_key k l
  end.

Lemma rank_le k l : (rank k l ≤ length l)%nat.
Proof. induction l as [|e l IH]; simpl; [lia|]. destruct (k <? e.1); lia. Qed.

Lemma keys_sorted_cons e l :
  keys_sorted (e :: l) ↔ keys_sorted l ∧ ∀ x, x ∈ l → e.1 < x.1.
Proof.
  unfold keys_sorted. cbn. split.
  - intros [Hs Hf]%StronglySorted_inv. split; [done|]. intros x Hx.
    rewrite Forall_forall in Hf. apply Hf, list_elem_of_fmap. eauto.
  - intros [Hs Hf]. constructor; [done|]. apply Forall_forall.
    intros k (x & -> & Hx)%list_elem_of_fmap. auto.
Qed.

Lemma keys_sorted_lookup l i j e e' :
  keys_sorted l → l !! i = Some e → l !! j = Some e' → (i < j)%nat → e.1 < e'.1.
Proof.
  revert i j. induction l as [|x l IH]; intros i j Hs; [done|].
  apply keys_sorted_cons in Hs as [Hs Hf]. destruct j as [|j]; [lia|]. destruct i as [|i].
  - cbn. intros [= ->] Hj _. apply Hf. by eapply list_elem_of_lookup_2.
  - cbn. intros Hi Hj Hlt. eapply IH; eauto with lia.
Qed.

Lemma keys_sorted_app_2 l l' m :
  keys_sorted l → keys_sorted l' → (∀ e, e ∈ l → e.1 < m) → (∀ e, e ∈ l' → m ≤ e.1) →
  keys_sorted (l ++ l').
Proof.
  intros Hl Hl' Hm Hm'. induction l as [|e l IH]; [done|].
  apply keys_sorted_cons in Hl as [Hl Hf]. apply keys_sorted_cons. split.
  - apply IH; [done|]. intros x Hx. apply Hm. by right.
  - pose proof (Hm e (list_elem_of_here _ _)).
    intros x [Hx%Hf|Hx%Hm']%elem_of_app; lia.
Qed.

Lemma keys_sorted_app l l' : keys_sorted (l ++ l') → keys_sorted l ∧ keys_sorted l'.
Proof.
  induction l as [|e l IH]; [intros; split; [constructor|done]|]. cbn.
  intros [[Hl Hl']%IH Hf]%keys_sorted_cons. split; [|done]. apply keys_sorted_cons.
  split; [done|]. intros x Hx. apply Hf, elem_of_app. by left.
Qed.
Lemma keys_sorted_app_lt l l' :
  keys_sorted (l ++ l') → ∀ e x, e ∈ l → x ∈ l' → e.1 < x.1.
Proof.
  induction l as [|y l IH]; [by intros _ e x ?%elem_of_nil|]. cbn.
  intros [Hs Hf]%keys_sorted_cons e x [->|He]%elem_of_cons Hx.
  - apply Hf, elem_of_app. by right.
  - by apply IH.
Qed.
Lemma keys_sorted_take n l : keys_sorted l → keys_sorted (take n l).
Proof. rewrite <- (take_drop n l) at 1. by intros [? _]%keys_sorted_app. Qed.
Lemma keys_sorted_drop n l : keys_sorted l → keys_sorted (drop n l).
Proof. rewrite <- (take_drop n l) at 1. by intros [_ ?]%keys_sorted_app. Qed.

(** In sorted order, the entries before the rank are those with keys at most [k]. *)
Lemma rank_sorted k l i e : keys_sorted l → l !! i = Some e → e.1 ≤ k ↔ (i < rank k l)%nat.
Proof.
  revert i. induction l as [|x l IH]; intros i Hs; [done|].
  apply keys_sorted_cons in Hs as [Hs Hf]. cbn. destruct (Z.ltb_spec k x.1) as [Hk|Hk].
  - intros Hi. split; [|lia]. destruct i as [|i]; cbn in Hi; [injection Hi as ->; lia|].
    apply list_elem_of_lookup_2, Hf in Hi. lia.
  - destruct i as [|i]; cbn; [intros [= ->]; lia|]. intros Hi. rewrite (IH i) by done. lia.
Qed.

Lemma rank_ge k l i e : keys_sorted l → l !! i = Some e → k < e.1 → (rank k l ≤ i)%nat.
Proof. intros Hs Hi Hk. pose proof (rank_sorted k l i e Hs Hi). lia. Qed.

Lemma lookup_key_Some k v l : keys_sorted l → lookup_key k l = Some v ↔ (k, v) ∈ l.
Proof.
  induction l as [|[k' v'] l IH]; intros Hs; cbn; [by rewrite elem_of_nil|].
  apply keys_sorted_cons in Hs as [Hs Hf]. rewrite elem_of_cons.
  destruct (Z.eqb_spec k' k) as [->|Hne].
  - split; [intros [= ->]; auto|]. intros [[= ->]|Hin%Hf]; [done|]. cbn in Hin. lia.
  - rewrite IH by done. naive_solver.
Qed.

Lemma lookup_key_None k l : (∀ v, (k, v) ∉ l) → lookup_key k l = None.
Proof.
  induction l as [|[k' v'] l IH]; intros Hn; cbn; [done|]. destruct (Z.eqb_spec k' k) as [->|].
  - destruct (Hn v'). by left.
  - apply IH. intros v Hv. apply (Hn v). by right.
Qed.
End entries.

(** ** Reading and writing entries *)
Section node_lemmas.
Context {V : Type} (L : layout V) {ok : Z * V → Prop} {HL : LayoutOk L ok}.
Implicit Types (d : list ascii) (l : list (Z * V)) (e : Z * V).

(** [d'] has the length and the header of [d]. *)
Definition same_header d d' : Prop :=
  length d' = length d ∧
  ∀ off, 0 ≤ off → off + 4 ≤ HEADER_SIZE L → load off 4 d' = load off 4 d.

#[local] Instance same_header_refl : Reflexive same_header.
Proof. done. Qed.
#[local] Instance same_header_trans : Transitive same_header.
Proof. intros a b c [A1 A2] [B1 B2]. split; [congruence|]. intros. rewrite B2, A2; auto. Qed.

Lemma entry_bounds i :
  0 ≤ i < CAPACITY L → HEADER_SIZE L ≤ entry_off L i ∧
    entry_off L i + entry_size L ≤ PAGE_SIZE.
Proof.
  pose proof lo_size. pose proof lo_fits. unfold entry_off. nia.
Qed.

Lemma in_cap_true i : 0 ≤ i < CAPACITY L → (0 <=? i) && (i <? CAPACITY L) = true.
Proof. intros. by rewrite (proj2 (Z.leb_le 0 i)), (proj2 (Z.ltb_lt i _)) by lia. Qed.

Lemma get_entry_exists i d :
  0 ≤ i < CAPACITY L → length d = Z.to_nat PAGE_SIZE → ∃ e, get_entry L i d = Some e ∧ ok e.
Proof.
  intros Hi Hl. pose proof (entry_bounds i Hi). pose proof lo_header. pose proof lo_size.
  unfold get_entry. rewrite in_cap_true, load_Some by (unfold PAGE_SIZE in *; lia).
  eexists. split; [done|]. apply lo_ok. rewrite length_take, length_drop, Hl.
  unfold PAGE_SIZE in *. lia.
Qed.

Lemma get_entry_ok i d e : get_entry L i d = Some e → ok e ∧ 0 ≤ i < CAPACITY L.
Proof.
  unfold get_entry. destruct ((0 <=? i) && _) eqn:E; [|done].
  apply andb_true_iff in E as [E1%Z.leb_le E2%Z.ltb_lt].
  intros (bs & (_ & ? & _ & Hl)%load_is_Some & ->)%fmap_Some. split; [|done].
  apply lo_ok. lia.
Qed.

Lemma set_entry_spec i e d :
  0 ≤ i < CAPACITY L → length d = Z.to_nat PAGE_SIZE → ok e →
  ∃ d', set_entry L i e d = Some d' ∧ same_header d d' ∧
    get_entry L i d' = Some e ∧ ∀ j, j ≠ i → get_entry L j d' = get_entry L j d.
Proof.
  intros Hi Hl He. pose proof (entry_bounds i Hi). pose proof lo_header. pose proof lo_size.
  pose proof (lo_enc e) as Hs.
  destruct (store_exists (entry_off L i) (enc L e) d) as [d' Hd'];
    [lia|rewrite Hs, Hl; unfold PAGE_SIZE in *; lia|].
  exists d'. unfold set_entry. rewrite in_cap_true by done. split_and!; [done| | |].
  - split; [by eapply store_length|]. intros off Ho Hh.
    rewrite (load_store_ne _ _ _ _ _ _ Hd'); [done|]. lia.
  - unfold get_entry. rewrite in_cap_true by done.
    pose proof (load_store_eq _ _ _ _ Hd') as Hld. rewrite Hs in Hld. rewrite Hld. cbn.
    by rewrite lo_dec.
  - intros j Hj. unfold get_entry. destruct ((0 <=? j) && _) eqn:E; [|done].
    apply andb_true_iff in E as [E1%Z.leb_le E2%Z.ltb_lt].
    rewrite (load_store_ne _ _ _ _ _ _ Hd'); [done|]. rewrite Hs. unfold entry_off. nia.
Qed.

(** A header field is written. *)
Lemma set_header_spec off v d :
  0 ≤ off → off + 4 ≤ HEADER_SIZE L → length d = Z.to_nat PAGE_SIZE →
  ∃ d', store_32 off v d = Some d' ∧ length d' = length d ∧
    load_u32 off d' = Some (wrap_u32 v) ∧ load_s32 off d' = Some (wrap_s32 v) ∧
    (∀ o, o + 4 ≤ off ∨ off + 4 ≤ o → load o 4 d' = load o 4 d) ∧
    ∀ j, get_entry L j d' = get_entry L j d.
Proof.
  intros Ho Hh Hl. pose proof lo_fits. pose proof lo_cap. pose proof lo_size.
  destruct (store_32_exists off v d) as [d' Hd'];
    [done|rewrite Hl; unfold PAGE_SIZE in *; nia|].
  exists d'. split_and!; [done|by eapply store_32_length|by eapply load_u32_store|
    by eapply load_s32_store|..].
  - intros o Hor. by rewrite (load_store_32_ne _ _ _ _ _ _ Hd').
  - intros j. unfold get_entry. destruct ((0 <=? j) && _) eqn:E; [|done].
    apply andb_true_iff in E as [E1%Z.leb_le E2%Z.ltb_lt].
    rewrite (load_store_32_ne _ _ _ _ _ _ Hd'); [done|]. unfold entry_off. nia.
Qed.

(** ** A node holds a list of entries *)
Record node_holds d l : Prop := {
  nh_len : length d = Z.to_nat PAGE_SIZE;
  nh_size : node_size d = Some (Z.of_nat (length l));
  nh_cap : Z.of_nat (length l) ≤ CAPACITY L;
  nh_get i e : l !! i = Some e → get_entry L (Z.of_nat i) d = Some e
}.

Lemma nh_get_Z d l i e :
  node_holds d l → 0 ≤ i → l !! Z.to_nat i = Some e → get_entry L i d = Some e.
Proof. intros Hd Hi He. apply (nh_get _ _ Hd) in He. by rewrite Z2Nat.id in He. Qed.

Lemma nh_ok d l i e : node_holds d l → l !! i = Some e → ok e.
Proof. intros Hd He. by apply (nh_get _ _ Hd), get_entry_ok in He as []. Qed.

(** The fields of the header other than the size are kept. *)
Definition same_rest d d' : Prop :=
  ∀ off, 0 ≤ off → off + 4 ≤ HEADER_SIZE L → off + 4 ≤ 4 ∨ 8 ≤ off → load off 4 d' = load off 4 d.

Lemma node_size_header d d' : same_header d d' → node_size d' = node_size d.
Proof.
  intros [_ Hh]. unfold node_size, load_s32. rewrite Hh; [done|lia|]. pose proof lo_header. lia.
Qed.

Lemma set_size_spec d l l' :
  length d = Z.to_nat PAGE_SIZE → Z.of_nat (length l') ≤ CAPACITY L →
  (∀ i e, l' !! i = Some e → get_entry L (Z.of_nat i) d = Some e) →
  ∃ d', set_node_size (Z.of_nat (length l')) d = Some d' ∧ node_holds d' l' ∧ same_rest d d'.
Proof.
  intros Hl Hc Hg. pose proof lo_header. pose proof lo_cap.
  destruct (set_header_spec 4 (Z.of_nat (length l')) d) as (d' & Hd' & Hl' & _ & Hs & Ho & Hj);
    [lia|lia|done|].
  exists d'. split; [done|]. split; [split|].
  - congruence.
  - unfold node_size. rewrite Hs. f_equal. apply wrap_s32_id. lia.
  - done.
  - intros i e He. rewrite Hj. by apply Hg.
  - intros off Hz Hh Hor. apply Ho. lia.
Qed.

(** [data[i] = e] in a held node. *)
Lemma update_entry_spec d l i e :
  node_holds d l → (i < length l)%nat → ok e →
  ∃ d', set_entry L (Z.of_nat i) e d = Some d' ∧ node_holds d' (<[i := e]> l) ∧ same_header d d'.
Proof.
  intros Hd Hi He. pose proof (nh_cap _ _ Hd) as Hc. pose proof (nh_len _ _ Hd) as Hl.
  destruct (set_entry_spec (Z.of_nat i) e d) as (d' & Hd' & Hh & Hg & Hj); [lia|done|done|].
  exists d'. split_and!; [done| |done]. split.
  - destruct Hh as [-> _]. done.
  - by rewrite (node_size_header _ _ Hh), length_insert, (nh_size _ _ Hd).
  - by rewrite length_insert.
  - intros j x. rewrite list_lookup_insert_Some. intros [(<- & -> & _)|[Hne Hx]]; [done|].
    rewrite Hj by lia. by apply (nh_get _ _ Hd).
Qed.

Lemma shift_up_spec n i d :
  length d = Z.to_nat PAGE_SIZE → Z.of_nat n ≤ i < CAPACITY L →
  ∃ d', shift_up L n i d = Some d' ∧ same_header d d' ∧
    (∀ j, j < i - Z.of_nat n ∨ i < j → get_entry L j d' = get_entry L j d) ∧
    ∀ j, i - Z.of_nat n ≤ j < i → get_entry L (j + 1) d' = get_entry L j d.
Proof.
  revert i d. induction n as [|n IH]; intros i d Hl Hi.
  { exists d. split_and!; [done|done|done|lia]. }
  destruct (get_entry_exists (i - 1) d) as (e & He & Hok); [lia|done|].
  destruct (set_entry_spec i e d) as (d1 & Hd1 & Hh1 & Hg1 & Hj1); [lia|done|done|].
  destruct (IH (i - 1) d1) as (d' & Hs & Hh & Hout & Hin); [|lia|].
  { by destruct Hh1 as [-> _]. }
  exists d'. cbn. rewrite He. cbn. rewrite Hd1. cbn. split_and!; [done|by etrans|..].
  - intros j Hj. rewrite Hout by lia. apply Hj1. lia.
  - intros j Hj. destruct (decide (j = i - 1)) as [->|].
    + rewrite Hout by lia. replace (i - 1 + 1) with i by lia. congruence.
    + rewrite Hin by lia. apply Hj1. lia.
Qed.

(** The position [InsertEntry] finds. *)
Lemma find_pos_spec key d pre l i :
  node_holds d (pre ++ l) → Z.of_nat (length pre) = i →
  find_pos L key (length l) i d = Some (i + Z.of_nat (rank key l)).
Proof.
  revert pre i. induction l as [|e l IH]; intros pre i Hd Hi; cbn; [f_equal; lia|].
  rewrite (nh_get_Z d (pre ++ e :: l) i e Hd); [|lia|]; cycle 1.
  { rewrite <- Hi, Nat2Z.id. by apply list_lookup_middle. }
  cbn. destruct (key <? e.1); [f_equal; lia|].
  rewrite (IH (pre ++ [e]) (i + 1)); [f_equal; lia|by rewrite <- app_assoc|].
  rewrite length_app. cbn. lia.
Qed.

Lemma ins_entry_lookup key v l i e :
  ins_entry key v l !! i = Some e →
  ((i < rank key l)%nat ∧ l !! i = Some e) ∨ (i = rank key l ∧ e = (key, v)) ∨
  ∃ j, i = Datatypes.S j ∧ (rank key l ≤ j)%nat ∧ l !! j = Some e.
Proof.
  pose proof (rank_le key l). unfold ins_entry.
  intros [Hi|[Hle Hi]]%lookup_app_Some.
  - left. apply lookup_take_Some in Hi. tauto.
  - rewrite length_take in *. right. destruct (i - _)%nat as [|j] eqn:E.
    + left. injection Hi as <-. split; [lia|done].
    + right. change (drop (rank key l) l !! j = Some e) in Hi. rewrite lookup_drop in Hi. exists (i - 1)%nat.
      split_and!; [lia|lia|]. by replace (i - 1)%nat with (rank key l + j)%nat by lia.
Qed.

Lemma length_ins_entry key v l : length (ins_entry key v l) = Datatypes.S (length l).
Proof.
  unfold ins_entry. pose proof (rank_le key l). rewrite length_app. cbn.
  rewrite length_take, length_drop. lia.
Qed.

Lemma insert_entry_spec start key v d pre l :
  node_holds d (pre ++ l) → Z.of_nat (length pre) = start →
  Z.of_nat (length (pre ++ l)) < CAPACITY L → ok (key, v) →
  ∃ d', insert_entry L start key v d = Some d' ∧
    node_holds d' (pre ++ ins_entry key v l) ∧ same_rest d d'.
Proof.
  intros Hd Hst Hc Hok. pose proof (nh_len _ _ Hd) as Hl. pose proof lo_cap. pose proof (rank_le key l).
  set (pos := start + Z.of_nat (rank key l)).
  assert (Hn : Z.of_nat (length (pre ++ l)) = start + Z.of_nat (length l))
    by (rewrite length_app; lia).
  set (size := Z.of_nat (length (pre ++ l))) in *.
  destruct (shift_up_spec (Z.to_nat (size - pos)) size d Hl) as (d1 & H1 & Hh1 & Hout & Hin);
    [lia|]. replace (size - Z.of_nat (Z.to_nat (size - pos))) with pos in * by lia.
  assert (Hl1 : length d1 = Z.to_nat PAGE_SIZE) by (destruct Hh1; congruence).
  destruct (set_entry_spec pos (key, v) d1) as (d2 & H2 & Hh2 & Hg2 & Hj2); [lia|done|done|].
  assert (Hh : same_header d d2) by (by etrans).
  destruct (set_size_spec d2 (pre ++ l) (pre ++ ins_entry key v l)) as (d3 & H3 & Hd3 & Hr3).
  - destruct Hh; congruence.
  - rewrite length_app, length_ins_entry. lia.
  - intros i e [Hi|[Hle Hi]]%lookup_app_Some.
    { apply lookup_lt_Some in Hi as Hlt. rewrite Hj2, Hout by lia.
      apply (nh_get _ _ Hd). by apply lookup_app_l_Some. }
    apply ins_entry_lookup in Hi as [[Hr Hi]|[[Hr ->]|(j & Hr & Hrj & Hi)]].
    + rewrite Hj2, Hout by lia. apply (nh_get _ _ Hd). by rewrite lookup_app_r.
    + by replace (Z.of_nat i) with pos by lia.
    + apply lookup_lt_Some in Hi as Hlt.
      rewrite Hj2 by lia. replace (Z.of_nat i) with (Z.of_nat (i - 1) + 1) by lia.
      rewrite Hin by lia. apply (nh_get _ _ Hd). rewrite lookup_app_r by lia.
      by replace (i - 1 - length pre)%nat with j by lia.
  - exists d3. split; [|split; [done|]].
    + unfold insert_entry. rewrite (nh_size _ _ Hd). cbn. fold size.
      rewrite (proj2 (Z.ltb_ge size start)) by lia.
      replace (Z.to_nat (size - start)) with (length l) by lia.
      rewrite (find_pos_spec key d pre l start Hd Hst). cbn. fold pos. rewrite H1. cbn.
      rewrite H2. cbn. rewrite (node_size_header _ _ Hh), (nh_size _ _ Hd). cbn. fold size.
      unfold s32. rewrite (proj2 (in_s32_spec (size + 1))) by lia. cbn.
      rewrite <- H3. f_equal. rewrite length_app, length_ins_entry. lia.
    + intros off Hz Hoff Hor. rewrite Hr3 by done. by apply Hh.
Qed.

(** A full array: the entry is written past its end. *)
Lemma insert_entry_full start key v d pre l :
  node_holds d (pre ++ l) → Z.of_nat (length pre) = start →
  Z.of_nat (length (pre ++ l)) = CAPACITY L → insert_entry L start key v d = None.
Proof.
  intros Hd Hst Hc. pose proof (rank_le key l) as Hrk. pose proof lo_cap.
  unfold insert_entry. rewrite (nh_size _ _ Hd). cbn. rewrite length_app in *.
  rewrite (proj2 (Z.ltb_ge _ start)) by lia.
  replace (Z.to_nat (Z.of_nat (length pre + length l) - start)) with (length l) by lia.
  rewrite (find_pos_spec key d pre l start Hd Hst). cbn.
  assert (Hset : ∀ e d, set_entry L (CAPACITY L) e d = None).
  { intros e x. unfold set_entry. rewrite (proj2 (Z.ltb_ge (CAPACITY L) (CAPACITY L))) by lia.
    by rewrite andb_false_r. }
  rewrite Hc.
  destruct (decide (rank key l = length l)) as [Hr|Hr].
  - replace (start + Z.of_nat (rank key l)) with (CAPACITY L) by lia. rewrite Z.sub_diag.
    change (shift_up L (Z.to_nat 0) (CAPACITY L) d) with (Some d).
    rewrite (option_bind_Some d). by rewrite Hset.
  - destruct (Z.to_nat (CAPACITY L - (start + Z.of_nat (rank key l)))) as [|n] eqn:E; [lia|].
    cbn [shift_up]. destruct (get_entry L (CAPACITY L - 1) d) as [e|]; [|done].
    cbn [mbind option_bind]. by rewrite Hset.
Qed.

Lemma copy_entries_spec n from to old new :
  length old = Z.to_nat PAGE_SIZE → length new = Z.to_nat PAGE_SIZE →
  0 ≤ from → from + Z.of_nat n ≤ CAPACITY L → 0 ≤ to → to + Z.of_nat n ≤ CAPACITY L →
  ∃ new', copy_entries L n from to old new = Some new' ∧ same_header new new' ∧
    (∀ j, j < to ∨ to + Z.of_nat n ≤ j → get_entry L j new' = get_entry L j new) ∧
    ∀ j, 0 ≤ j < Z.of_nat n → get_entry L (to + j) new' = get_entry L (from + j) old.
Proof.
  intros Ho. revert from to new. induction n as [|n IH]; intros from to new Hn Hf Hfc Ht Htc.
  { exists new. split_and!; [done|done|done|lia]. }
  destruct (get_entry_exists from old) as (e & He & Hok); [lia|done|].
  destruct (set_entry_spec to e new) as (n1 & Hn1 & Hh1 & Hg1 & Hj1); [lia|done|done|].
  destruct (IH (from + 1) (to + 1) n1) as (new' & Hs & Hh & Hout & Hin);
    [destruct Hh1; congruence|lia..|].
  exists new'. cbn. rewrite He. cbn. rewrite Hn1. cbn. split_and!; [done|by etrans|..].
  - intros j Hj. rewrite Hout by lia. apply Hj1. lia.
  - intros j Hj. destruct (decide (j = 0)) as [->|].
    + rewrite !Z.add_0_r, Hout by lia. congruence.
    + specialize (Hin (j - 1)). replace (to + 1 + (j - 1)) with (to + j) in Hin by lia.
      replace (from + 1 + (j - 1)) with (from + j) in Hin by lia. apply Hin. lia.
Qed.
End node_lemmas.

(** ** [BPlusTreeInternalPage::Lookup] *)
Lemma s32_small z : - 2 ^ 31 ≤ z < 2 ^ 31 → s32 z = Some z.
Proof. intros Hz. unfold s32. by rewrite (proj2 (in_s32_spec z) Hz). Qed.

Lemma lookup_loop_spec key d e0 ents fuel lo hi :
  node_holds InternalPage d (e0 :: ents) → keys_sorted ents →
  1 ≤ lo → hi ≤ Z.of_nat (length ents) → lo ≤ hi + 1 →
  lo - 1 ≤ Z.of_nat (rank key ents) ≤ hi → hi - lo + 1 < Z.of_nat fuel →
  lookup_loop key fuel lo hi (lo - 1) d = Some (Z.of_nat (rank key ents)).
Proof.
  intros Hd Hs. pose proof (nh_cap _ _ _ Hd) as Hcap. vm_compute (CAPACITY InternalPage) in Hcap.
  revert lo hi. induction fuel as [|fuel IH]; intros lo hi Hlo Hhi Hle Hrk Hfuel; [lia|]. cbn.
  destruct (Z.leb_spec lo hi) as [Hlt|Hgt]; [|f_equal; lia].
  simpl in Hcap. rewrite s32_small by lia. cbn. set (mid := (lo + hi) `quot` 2).
  assert (Hmid : lo ≤ mid ≤ hi).
  { unfold mid. rewrite Z.quot_div_nonneg by lia. split;
      [apply Z.div_le_lower_bound|apply Z.div_le_upper_bound]; lia. }
  destruct (lookup_lt_is_Some_2 ents (Z.to_nat (mid - 1))) as [e He]; [lia|].
  rewrite (nh_get_Z _ d (e0 :: ents) mid e Hd); [|lia|]; cycle 1.
  { by replace (Z.to_nat mid) with (S (Z.to_nat (mid - 1))) by lia. }
  cbn. pose proof (rank_sorted key ents _ e Hs He) as Hr. destruct (Z.leb_spec e.1 key) as [Hk|Hk].
  - replace mid with (mid + 1 - 1) at 2 by lia. apply IH; lia.
  - apply IH; lia.
Qed.

Lemma Internal_Lookup_spec key d e0 ents :
  node_holds InternalPage d (e0 :: ents) → keys_sorted ents →
  ∃ e, (e0 :: ents) !! rank key ents = Some e ∧ Internal_Lookup key d = Some e.2.
Proof.
  intros Hd Hs. pose proof (rank_le key ents) as Hr. pose proof (nh_cap _ _ _ Hd) as Hcap.
  vm_compute (CAPACITY InternalPage) in Hcap.
  destruct (lookup_lt_is_Some_2 (e0 :: ents) (rank key ents)) as [e He]; [cbn; lia|].
  exists e. split; [done|]. unfold Internal_Lookup. rewrite (nh_size _ _ _ Hd).
  cbn [mbind option_bind length]. simpl in Hcap. rewrite s32_small by lia.
  rewrite option_bind_Some. set (hi := Z.of_nat (S (length ents)) - 1).
  rewrite (lookup_loop_spec key d e0 ents _ 1 hi); [|done|done|lia..].
  rewrite option_bind_Some, (nh_get _ _ _ Hd _ _ He). done.
Qed.

(** ** Searching a leaf *)
Lemma search_leaf_spec key d l fuel lo hi :
  node_holds LeafPage d l → keys_sorted l →
  0 ≤ lo → hi < Z.of_nat (length l) → lo ≤ hi + 1 →
  (∀ i e, l !! i = Some e → e.1 = key → lo ≤ Z.of_nat i ≤ hi) → hi - lo + 1 < Z.of_nat fuel →
  search_leaf key fuel lo hi d = Some (lookup_key key l).
Proof.
  intros Hd Hs. pose proof (nh_cap _ _ _ Hd) as Hcap. vm_compute (CAPACITY LeafPage) in Hcap.
  revert lo hi. induction fuel as [|fuel IH]; intros lo hi Hlo Hhi Hle Hin Hfuel; [lia|]. cbn.
  destruct (Z.leb_spec lo hi) as [Hlt|Hgt].
  2:{ rewrite lookup_key_None; [done|]. intros v (i & Hi)%list_elem_of_lookup_1.
      apply Hin in Hi; [lia|done]. }
  rewrite s32_small by lia. cbn. set (mid := (lo + hi) `quot` 2).
  assert (Hmid : lo ≤ mid ≤ hi).
  { unfold mid. rewrite Z.quot_div_nonneg by lia. split;
      [apply Z.div_le_lower_bound|apply Z.div_le_upper_bound]; lia. }
  destruct (lookup_lt_is_Some_2 l (Z.to_nat mid)) as [e He]; [lia|].
  rewrite (nh_get_Z _ d l mid e Hd) by (done || lia). cbn.
  destruct (Z.eqb_spec e.1 key) as [Hk|Hk].
  { symmetry. f_equal. apply lookup_key_Some; [done|]. rewrite <- Hk.
    apply list_elem_of_lookup_2 in He. by destruct e. }
  destruct (Z.ltb_spec e.1 key) as [Hlt'|Hge]; apply IH; try lia.
  - intros i x Hi Hx. pose proof (Hin i x Hi Hx). split; [|lia].
    destruct (decide (Z.of_nat i ≤ mid)) as [Hi'|]; [|lia].
    destruct (decide (i = Z.to_nat mid)) as [->|]; [congruence|].
    pose proof (keys_sorted_lookup l i (Z.to_nat mid) x e Hs Hi He). lia.
  - intros i x Hi Hx. pose proof (Hin i x Hi Hx). split; [lia|].
    destruct (decide (mid ≤ Z.of_nat i)) as [Hi'|]; [|lia].
    destruct (decide (i = Z.to_nat mid)) as [->|]; [congruence|].
    pose proof (keys_sorted_lookup l (Z.to_nat mid) i e x Hs He Hi). lia.
Qed.

Lemma Leaf_Search_spec key d l :
  node_holds LeafPage d l → keys_sorted l → Leaf_Search key d = Some (lookup_key key l).
Proof.
  intros Hd Hs. pose proof (nh_cap _ _ _ Hd) as Hcap. vm_compute (CAPACITY LeafPage) in Hcap.
  unfold Leaf_Search. rewrite (nh_size _ _ _ Hd). cbn [mbind option_bind].
  rewrite s32_small, option_bind_Some by lia. apply search_leaf_spec; [done|done|lia..| |lia].
  intros i e Hi%lookup_lt_Some _. lia.
Qed.

(** ** Insertion into a leaf *)
Section put.
Context {V : Type}.
Implicit Types (l : list (Z * V)) (k : Z).

(** The entry of [k] is replaced, or added in order. *)
Fixpoint put k (v : V) l : list (Z * V) :=
  match l with
  | [] => [(k, v)]
  | e :: l => if k <? e.1 then (k, v) :: e :: l
              else if e.1 =? k then (k, v) :: l else e :: put k v l
  end.

Lemma put_present k v v' l n :
  keys_sorted l → l !! n = Some (k, v') → put k v l = <[n := (k, v)]> l.
Proof.
  revert n. induction l as [|e l IH]; intros n Hs; [done|].
  apply keys_sorted_cons in Hs as [Hs Hf]. destruct n as [|n]; cbn.
  - intros [= ->]. cbn. by rewrite Z.ltb_irrefl, Z.eqb_refl.
  - intros Hn. pose proof (Hf _ (list_elem_of_lookup_2 _ _ _ Hn)) as Hlt. cbn in Hlt.
    rewrite (proj2 (Z.ltb_ge k e.1)), (proj2 (Z.eqb_neq e.1 k)) by lia. by rewrite (IH n).
Qed.

Lemma length_put k v l : (length l ≤ length (put k v l))%nat.
Proof.
  induction l as [|e l IH]; cbn; [lia|]. destruct (k <? e.1); [cbn; lia|]. destruct (e.1 =? k); cbn; lia.
Qed.

Lemma put_absent k v l : (∀ v', (k, v') ∉ l) → put k v l = ins_entry k v l.
Proof.
  unfold ins_entry. induction l as [|[k' v'] l IH]; intros Hn; cbn; [done|].
  destruct (k <? k'); [done|]. destruct (Z.eqb_spec k' k) as [->|].
  - destruct (Hn v'). by left.
  - cbn. f_equal. apply IH. intros w Hw. apply (Hn w). by right.
Qed.

Lemma elem_of_put k v l x :
  keys_sorted l → x ∈ put k v l ↔ x = (k, v) ∨ (x.1 ≠ k ∧ x ∈ l).
Proof.
  induction l as [|[k' v'] l IH]; intros Hs; cbn.
  { rewrite list_elem_of_singleton, elem_of_nil. tauto. }
  apply keys_sorted_cons in Hs as [Hs Hf]. cbn in Hf.
  assert (Hl : k ≤ k' → x ∈ l → x.1 ≠ k). { intros Hk Hx%Hf. lia. }
  destruct (Z.ltb_spec k k') as [Hk|Hk].
  { rewrite !elem_of_cons. split; [|tauto]. intros [->|[->|Hx]]; [by left|right; cbn; split; [lia|auto]|].
    right. split; [|by right]. apply Hl; [lia|done]. }
  destruct (Z.eqb_spec k' k) as [->|Hne]; rewrite !elem_of_cons.
  - split; [|intros [->|[Hx [->|Hin]]]; [auto|done|auto]].
    intros [->|Hx]; [by left|]. right. split; [apply Hl; [lia|done]|auto].
  - rewrite IH by done. split; [|naive_solver].
    intros [->|[->|[? ?]]]; [right; cbn; split; [lia|auto]|by left|auto].
Qed.

Lemma put_sorted k v l : keys_sorted l → keys_sorted (put k v l).
Proof.
  induction l as [|[k' v'] l IH]; intros Hs; cbn.
  { apply keys_sorted_cons. split; [done|]. intros x ?%elem_of_nil. done. }
  pose proof Hs as Hs0. apply keys_sorted_cons in Hs as [Hs Hf]. cbn in Hf.
  destruct (Z.ltb_spec k k') as [Hk|Hk].
  { apply keys_sorted_cons. split; [done|]. cbn. intros x [->|Hx%Hf]%elem_of_cons; cbn; lia. }
  destruct (Z.eqb_spec k' k) as [->|Hne]; apply keys_sorted_cons; split; auto.
  cbn. intros x [->|[_ Hx%Hf]]%elem_of_put; [cbn; lia|done|done].
Qed.

Lemma lookup_put k v l k' :
  keys_sorted l → lookup_key k' (put k v l) = if k =? k' then Some v else lookup_key k' l.
Proof.
  intros Hs. destruct (Z.eqb_spec k k') as [<-|Hne].
  - apply lookup_key_Some; [by apply put_sorted|]. apply elem_of_put; [done|]. by left.
  - induction l as [|e l IH]; cbn; [by rewrite (proj2 (Z.eqb_neq k k'))|].
    apply keys_sorted_cons in Hs as [Hs Hf].
    destruct (k <? e.1); cbn; [by rewrite (proj2 (Z.eqb_neq k k'))|].
    destruct (Z.eqb_spec e.1 k) as [Hk|Hk]; cbn.
    + by rewrite (proj2 (Z.eqb_neq k k')), (proj2 (Z.eqb_neq e.1 k')) by lia.
    + by rewrite IH.
Qed.
End put.

Lemma find_key_spec key d pre l i :
  node_holds LeafPage d (pre ++ l) → Z.of_nat (length pre) = i →
  ∃ r, find_key key (length l) i d = Some r ∧
    match r with
    | Some j => ∃ n v, j = i + Z.of_nat n ∧ l !! n = Some (key, v)
    | None => ∀ v, (key, v) ∉ l
    end.
Proof.
  revert pre i. induction l as [|[k v] l IH]; intros pre i Hd Hi; cbn.
  { exists None. split; [done|]. by intros v ?%elem_of_nil. }
  rewrite (nh_get_Z _ d (pre ++ (k, v) :: l) i (k, v) Hd); [|lia|]; cycle 1.
  { rewrite <- Hi, Nat2Z.id. by apply list_lookup_middle. }
  cbn. destruct (Z.eqb_spec k key) as [->|Hne].
  { exists (Some i). split; [done|]. exists 0%nat, v. split; [lia|done]. }
  destruct (IH (pre ++ [(k, v)]) (i + 1)) as (r & Hr & Hres);
    [by rewrite <- app_assoc|rewrite length_app; cbn; lia|].
  exists r. split; [done|]. destruct r as [j|].
  - destruct Hres as (n & w & -> & Hn). exists (S n), w. split; [lia|done].
  - intros w [[= -> ->]|Hin]%elem_of_cons; [done|]. by apply (Hres w).
Qed.

(** ** The pages of a tree *)
Record leaf_page (d : list ascii) (l : list (Z * RID)) (next : Z) : Prop := {
  lp_type : page_type d = Some NODE_LEAF;
  lp_next : next_page_id d = Some next;
  lp_holds : node_holds LeafPage d l
}.
Record internal_page (d : list ascii) (l : list (Z * Z)) : Prop := {
  np_type : page_type d = Some NODE_INTERNAL;
  np_holds : node_holds InternalPage d l
}.

Lemma leaf_same_rest d d' : same_rest LeafPage d d' →
  page_type d' = page_type d ∧ next_page_id d' = next_page_id d.
Proof.
  intros Hr. unfold page_type, next_page_id, load_u32, load_s32.
  rewrite (Hr 0), (Hr 12); try done; cbn; lia.
Qed.
Lemma internal_same_rest d d' : same_rest InternalPage d d' → page_type d' = page_type d.
Proof. intros Hr. unfold page_type, load_u32. rewrite (Hr 0); try done; cbn; lia. Qed.

Lemma same_header_rest {V} (L : layout V) d d' : same_header L d d' → same_rest L d d'.
Proof. intros [_ Hh] off Hz Ho _. by apply Hh. Qed.

(** Inserting into a leaf, on both branches of [InsertInLeaf]. *)
Lemma Leaf_InsertEntry_spec key rid d l next :
  leaf_page d l next → Z.of_nat (length l) < CAPACITY LeafPage → leaf_ok (key, rid) →
  (∀ v, (key, v) ∉ l) →
  ∃ d', Leaf_InsertEntry key rid d = Some d' ∧ leaf_page d' (put key rid l) next.
Proof.
  intros [Ht Hn Hd] Hc Hok Hno.
  destruct (insert_entry_spec LeafPage 0 key rid d [] l) as (d' & Hd' & Hh & Hr); [done..|].
  exists d'. split; [done|]. apply leaf_same_rest in Hr as [Hr1 Hr2].
  rewrite put_absent by done. split; congruence || done.
Qed.

Lemma Leaf_overwrite_spec key rid d l next n v :
  leaf_page d l next → keys_sorted l → leaf_ok (key, rid) → l !! n = Some (key, v) →
  ∃ d', (e ← get_entry LeafPage (Z.of_nat n) d; set_entry LeafPage (Z.of_nat n) (e.1, rid) d)
      = Some d' ∧ leaf_page d' (put key rid l) next.
Proof.
  intros [Ht Hn Hd] Hs Hok Hl. rewrite (nh_get _ _ _ Hd _ _ Hl). cbn [mbind option_bind fst].
  destruct (update_entry_spec LeafPage d l n (key, rid)) as (d' & Hd' & Hh & Hr);
    [done|by eapply lookup_lt_Some|done|].
  exists d'. split; [done|]. apply same_header_rest, leaf_same_rest in Hr as [Hr1 Hr2].
  rewrite (put_present _ _ _ _ _ Hs Hl). split; congruence || done.
Qed.

(** ** Initialisation and splits *)
Lemma node_holds_reader {V} (L : layout V) d d' l :
  node_holds L d l → length d' = length d → node_size d' = node_size d →
  (∀ i, get_entry L i d' = get_entry L i d) → node_holds L d' l.
Proof.
  intros [H1 H2 H3 H4] Hl Hs Hg. split; [congruence|congruence|done|].
  intros i e He. rewrite Hg. by apply H4.
Qed.

Lemma set_next_spec d l next v :
  leaf_page d l next → s32_range v →
  ∃ d', set_next_page_id v d = Some d' ∧ leaf_page d' l v.
Proof.
  intros [Ht Hn Hd] Hv. destruct (set_header_spec LeafPage 12 v d)
    as (d' & Hd' & Hl & _ & Hs & Ho & Hg); [lia|done|apply Hd|].
  exists d'. split; [done|]. split.
  - unfold page_type, load_u32. rewrite Ho by lia. exact Ht.
  - unfold next_page_id. rewrite Hs. by rewrite wrap_s32_id.
  - eapply node_holds_reader; [done|done| |done]. unfold node_size, load_s32. by rewrite Ho by lia.
Qed.

Lemma Leaf_Init_spec parent d :
  length d = Z.to_nat PAGE_SIZE →
  ∃ d', Leaf_Init parent d = Some d' ∧ leaf_page d' [] INVALID_PAGE_ID.
Proof.
  intros Hl. unfold Leaf_Init.
  destruct (set_header_spec LeafPage 0 NODE_LEAF d) as (d1 & Hd1 & Hl1 & Ht & _ & Ho1 & _);
    [lia|done|done|].
  destruct (set_header_spec LeafPage 4 0 d1) as (d2 & Hd2 & Hl2 & _ & Hs & Ho2 & _);
    [lia|done|congruence|].
  destruct (set_header_spec LeafPage 8 parent d2) as (d3 & Hd3 & Hl3 & _ & _ & Ho3 & _);
    [lia|done|congruence|].
  destruct (set_header_spec LeafPage 12 INVALID_PAGE_ID d3) as (d4 & Hd4 & Hl4 & _ & Hn & Ho4 & _);
    [lia|done|congruence|].
  unfold set_page_type, set_node_size, set_parent_page_id, set_next_page_id.
  exists d4. rewrite Hd1. cbn. rewrite Hd2. cbn. rewrite Hd3. cbn. split; [done|]. split.
  - unfold page_type, load_u32 in *. by rewrite Ho4, Ho3, Ho2 by lia.
  - unfold next_page_id. by rewrite Hn.
  - split; [congruence| |done|intros i e; by rewrite lookup_nil].
    unfold node_size, load_s32 in *. by rewrite Ho4, Ho3 by lia.
Qed.

Lemma Internal_Init_spec parent d :
  length d = Z.to_nat PAGE_SIZE →
  ∃ d', Internal_Init parent d = Some d' ∧ internal_page d' [(0, INVALID_PAGE_ID)].
Proof.
  intros Hl. unfold Internal_Init.
  destruct (set_header_spec InternalPage 0 NODE_INTERNAL d) as (d1 & Hd1 & Hl1 & Ht & _ & Ho1 & _);
    [lia|done|done|].
  destruct (set_header_spec InternalPage 4 1 d1) as (d2 & Hd2 & Hl2 & _ & Hs & Ho2 & _);
    [lia|done|congruence|].
  destruct (set_header_spec InternalPage 8 parent d2) as (d3 & Hd3 & Hl3 & _ & _ & Ho3 & _);
    [lia|done|congruence|].
  destruct (set_entry_spec InternalPage 0 (0, INVALID_PAGE_ID) d3) as (d4 & Hd4 & [Hl4 Hh4] & Hg & _);
    [done|congruence|done|].
  unfold set_page_type, set_node_size, set_parent_page_id.
  exists d4. rewrite Hd1. cbn. rewrite Hd2. cbn. rewrite Hd3. cbn. split; [done|]. split.
  - unfold page_type, load_u32 in *. by rewrite Hh4, Ho3, Ho2 by (cbn; lia).
  - split; [congruence| |done|].
    + unfold node_size, load_s32 in *. by rewrite Hh4, Ho3 by (cbn; lia).
    + intros [|i] e; [|done]. intros [= <-]. done.
Qed.

Lemma set_first_child_spec d k c0 l c :
  internal_page d ((k, c0) :: l) → s32_range c →
  ∃ d', set_first_child c d = Some d' ∧ internal_page d' ((k, c) :: l).
Proof.
  intros [Ht Hd] Hc. pose proof (nh_ok _ d ((k, c0) :: l) 0 _ Hd eq_refl) as [Hk _].
  destruct (update_entry_spec InternalPage d ((k, c0) :: l) 0 (k, c)) as (d' & Hd' & Hh & Hr);
    [done|cbn; lia|done|].
  exists d'. unfold set_first_child. pose proof (nh_get _ _ _ Hd 0 _ eq_refl) as Hg.
  change (Z.of_nat 0) with 0 in *. rewrite Hg. split; [done|].
  apply same_header_rest, internal_same_rest in Hr. split; [congruence|done].
Qed.

Lemma Internal_InsertEntry_spec key c d e0 l :
  internal_page d (e0 :: l) → Z.of_nat (length (e0 :: l)) < CAPACITY InternalPage →
  internal_ok (key, c) →
  ∃ d', Internal_InsertEntry key c d = Some d' ∧ internal_page d' (e0 :: ins_entry key c l).
Proof.
  intros [Ht Hd] Hc Hok.
  destruct (insert_entry_spec InternalPage 1 key c d [e0] l) as (d' & Hd' & Hh & Hr); [done..|].
  exists d'. split; [done|]. apply internal_same_rest in Hr. split; [congruence|done].
Qed.

(** The node keeps the first [n] entries. *)
Lemma truncate_spec {V} (L : layout V) {ok} {HL : LayoutOk L ok} d l n :
  node_holds L d l → (n ≤ length l)%nat →
  ∃ d', set_node_size (Z.of_nat n) d = Some d' ∧ node_holds L d' (take n l) ∧ same_rest L d d'.
Proof.
  intros Hd Hn. assert (Hlen : length (take n l) = n) by (rewrite length_take; lia).
  destruct (set_size_spec L d l (take n l)) as (d' & Hd' & Hh & Hr).
  - apply Hd.
  - pose proof (nh_cap _ _ _ Hd). lia.
  - intros i e [He _]%lookup_take_Some. by apply (nh_get _ _ _ Hd).
  - exists d'. by rewrite Hlen in Hd'.
Qed.

Lemma quot_half n : Z.of_nat n `quot` 2 = Z.of_nat (n / 2).
Proof. rewrite Z.quot_div_nonneg by lia. by rewrite Nat2Z.inj_div. Qed.

Lemma half_bounds n : (2 ≤ n)%nat → (1 ≤ n / 2 ∧ n / 2 < n)%nat.
Proof.
  intros Hn. split; [apply Nat.div_le_lower_bound; lia|apply Nat.div_lt; lia].
Qed.

Lemma split_leaf_spec new_pid leaf new l next :
  leaf_page leaf l next → leaf_page new [] INVALID_PAGE_ID → (2 ≤ length l)%nat →
  s32_range new_pid → s32_range next →
  ∃ leaf' new' sep v, split_leaf new_pid leaf new = Some (leaf', new', sep) ∧
    leaf_page leaf' (take (length l / 2) l) new_pid ∧
    leaf_page new' (drop (length l / 2) l) next ∧
    drop (length l / 2) l !! 0%nat = Some (sep, v).
Proof.
  intros Hleaf Hnew Hlen Hp Hx. pose proof (half_bounds _ Hlen) as [Hm1 Hm2].
  pose proof (lp_holds _ _ _ Hleaf) as Hd. pose proof (lp_holds _ _ _ Hnew) as Hd0.
  pose proof (nh_cap _ _ _ Hd) as Hcap. set (mid := (length l / 2)%nat) in *.
  unfold split_leaf. rewrite (nh_size _ _ _ Hd), option_bind_Some, quot_half. fold mid.
  destruct (set_header_spec LeafPage 4 (Z.of_nat (length l) - Z.of_nat mid) new)
    as (n1 & Hn1 & Hl1 & _ & Hs1 & Ho1 & Hg1); [lia|done|apply Hd0|].
  rewrite (Hn1 : set_node_size _ new = _), option_bind_Some.
  destruct (copy_entries_spec LeafPage (Z.to_nat (Z.of_nat (length l) - Z.of_nat mid)) (Z.of_nat mid)
    0 leaf n1) as (n2 & Hn2 & [Hl2 Hh2] & _ & Hin); [apply Hd|rewrite Hl1; apply Hd0|lia..|].
  rewrite Hn2, option_bind_Some, (lp_next _ _ _ Hleaf), option_bind_Some.
  assert (Hp2 : leaf_page n2 (drop mid l) INVALID_PAGE_ID).
  { split.
    - unfold page_type, load_u32. rewrite Hh2, Ho1 by (cbn; lia). exact (lp_type _ _ _ Hnew).
    - unfold next_page_id, load_s32. rewrite Hh2, Ho1 by (cbn; lia). exact (lp_next _ _ _ Hnew).
    - split.
      + rewrite Hl2, Hl1. apply Hd0.
      + unfold node_size, load_s32. rewrite Hh2 by (cbn; lia). fold (load_s32 4 n1).
        rewrite Hs1, length_drop. f_equal. vm_compute (CAPACITY _) in Hcap.
        rewrite wrap_s32_id; lia.
      + rewrite length_drop. lia.
      + intros i e. rewrite lookup_drop. intros He. apply lookup_lt_Some in He as Hlt.
        specialize (Hin (Z.of_nat i)). rewrite Z.add_0_l in Hin. rewrite Hin by lia.
        rewrite <- Nat2Z.inj_add. by apply (nh_get _ _ _ Hd). }
  destruct (set_next_spec n2 _ _ next Hp2 Hx) as (n3 & Hn3 & Hp3).
  destruct (set_next_spec leaf l next new_pid Hleaf Hp) as (d1 & Hd1 & Hq1).
  destruct (truncate_spec LeafPage d1 l mid (lp_holds _ _ _ Hq1)) as (d2 & Hd2 & Hh & Hr); [lia|].
  rewrite Hn3, option_bind_Some, Hd1, option_bind_Some, Hd2, option_bind_Some.
  destruct (lookup_lt_is_Some_2 (drop mid l) 0) as [[sep v] He]; [rewrite length_drop; lia|].
  rewrite (nh_get _ _ _ (lp_holds _ _ _ Hp3) 0 _ He : get_entry LeafPage 0 n3 = _).
  exists d2, n3, sep, v. split_and!; [done| |done|done].
  apply leaf_same_rest in Hr as [Hr1 Hr2].
  split; [rewrite Hr1; apply Hq1|rewrite Hr2; apply Hq1|done].
Qed.

Lemma split_internal_spec node new l sep c c0 :
  internal_page node l → internal_page new [(0, c0)] → (3 ≤ length l)%nat →
  l !! (length l / 2)%nat = Some (sep, c) →
  ∃ node' new', split_internal node new = Some (node', new', sep) ∧
    internal_page node' (take (length l / 2) l) ∧
    internal_page new' ((0, c) :: drop (S (length l / 2)) l).
Proof.
  intros Hnode Hnew Hlen He. pose proof (half_bounds _ (ltac:(lia) : (2 ≤ length l)%nat)) as [Hm1 Hm2].
  pose proof (np_holds _ _ Hnode) as Hd. pose proof (nh_cap _ _ _ Hd) as Hcap.
  set (mid := (length l / 2)%nat) in *. unfold split_internal.
  rewrite (nh_size _ _ _ Hd), option_bind_Some, quot_half. fold mid.
  rewrite (nh_get _ _ _ Hd _ _ He), option_bind_Some.
  destruct (set_first_child_spec new 0 c0 [] c Hnew) as (n1 & Hn1 & Hp1);
    [by apply (nh_ok _ _ _ _ _ Hd) in He as []|].
  cbn [fst snd]. rewrite Hn1, option_bind_Some. pose proof (np_holds _ _ Hp1) as Hd1.
  set (n := Z.to_nat (Z.of_nat (length l) - (Z.of_nat mid + 1))).
  assert (Hn : Z.of_nat n = Z.of_nat (length l) - (Z.of_nat mid + 1)) by (subst n; lia).
  destruct (copy_entries_spec InternalPage n (Z.of_nat mid + 1) 1 node n1)
    as (n2 & Hn2 & Hh2 & Hout & Hin); [apply Hd|apply Hd1|lia..|].
  rewrite Hn2, option_bind_Some.
  assert (Hlen' : length ((0, c) :: drop (S mid) l) = S n) by (cbn [length]; rewrite length_drop; lia).
  destruct (set_size_spec InternalPage n2 [] ((0, c) :: drop (S mid) l)) as (n3 & Hn3 & Hd3 & Hr3).
  - destruct Hh2 as [-> _]. apply Hd1.
  - lia.
  - intros [|i] e Hi.
    + rewrite Hout by lia. exact (nh_get _ _ _ Hd1 0 _ Hi).
    + change (drop (S mid) l !! i = Some e) in Hi. rewrite lookup_drop in Hi. apply lookup_lt_Some in Hi as Hlt.
      replace (Z.of_nat (S i)) with (1 + Z.of_nat i) by lia. rewrite Hin by lia.
      replace (Z.of_nat mid + 1 + Z.of_nat i) with (Z.of_nat (S mid + i)) by lia.
      by apply (nh_get _ _ _ Hd).
  - destruct (truncate_spec InternalPage node l mid Hd) as (d1 & Hd' & Hh & Hr); [lia|].
    rewrite Hlen' in Hn3. replace (1 + Z.of_nat n) with (Z.of_nat (S n)) by lia.
    rewrite Hn3, option_bind_Some, Hd', option_bind_Some. exists d1, n3.
    apply internal_same_rest in Hr, Hr3. apply same_header_rest, internal_same_rest in Hh2.
    split_and!; [done|split; [rewrite Hr; apply Hnode|done]|].
    split; [rewrite Hr3, Hh2; apply Hp1|done].
Qed.

(** ** A leaf of a range scan *)
Definition in_range (low high : Z) (l : list (Z * RID)) : list RID :=
  snd <$> filter (λ e, low ≤ e.1 ≤ high) l.

Lemma in_range_app low high l k : in_range low high (l ++ k) = in_range low high l ++ in_range low high k.
Proof. unfold in_range. by rewrite filter_app, fmap_app. Qed.

Lemma in_range_cons low high e l :
  in_range low high (e :: l) =
  if (low <=? e.1) && (e.1 <=? high) then e.2 :: in_range low high l else in_range low high l.
Proof.
  unfold in_range. rewrite filter_cons. case_decide as Hd.
  - by rewrite (proj2 (Z.leb_le low e.1)), (proj2 (Z.leb_le e.1 high)) by lia.
  - destruct (Z.leb_spec low e.1), (Z.leb_spec e.1 high); try done. lia.
Qed.

Lemma in_range_none low high l :
  (∀ e, e ∈ l → ¬ low ≤ e.1 ≤ high) → in_range low high l = [].
Proof.
  induction l as [|e l IH]; intros Hl; [done|]. rewrite in_range_cons.
  pose proof (Hl e (list_elem_of_here _ _)). rewrite IH by (intros x Hx; apply Hl; by right).
  destruct (Z.leb_spec low e.1), (Z.leb_spec e.1 high); try done. lia.
Qed.

Lemma range_leaf_spec low high d pre l i results :
  node_holds LeafPage d (pre ++ l) → keys_sorted l → Z.of_nat (length pre) = i →
  ∃ done, range_leaf low high (length l) i d results
      = Some (results ++ in_range low high l, done) ∧
    if done : bool then ∃ e, e ∈ l ∧ high < e.1 else ∀ e, e ∈ l → e.1 ≤ high.
Proof.
  revert pre i results. induction l as [|e l IH]; intros pre i results Hd Hs Hi.
  { exists false. cbn. rewrite app_nil_r. split; [done|]. by intros e ?%elem_of_nil. }
  apply keys_sorted_cons in Hs as [Hs Hf]. cbn [length range_leaf].
  rewrite (nh_get_Z _ d (pre ++ e :: l) i e Hd); [|lia|]; cycle 1.
  { rewrite <- Hi, Nat2Z.id. by apply list_lookup_middle. }
  rewrite option_bind_Some. destruct (Z.ltb_spec high e.1) as [Hh|Hh].
  - exists true. rewrite in_range_none.
    + rewrite app_nil_r. split; [done|]. exists e. split; [by left|done].
    + intros x [->|Hx%Hf]%elem_of_cons; lia.
  - destruct (IH (pre ++ [e]) (i + 1) (if low <=? e.1 then results ++ [e.2] else results))
      as (b & Hr & Hb); [by rewrite <- app_assoc|done|rewrite length_app; cbn; lia|].
    exists b. rewrite Hr, in_range_cons, (proj2 (Z.leb_le e.1 high)), andb_true_r by done. split.
    + destruct (low <=? e.1); [by rewrite <- app_assoc|done].
    + destruct b; [destruct Hb as (x & Hx & ?); exists x; split; [by right|done]|].
      intros x [->|Hx]%elem_of_cons; auto.
Qed.
