(* ===== verification/BPlusTreeSpec.v ===== *)
(** * B+ tree: the tree in the pages

    [btree] is the shape of the tree; [tree_rep] ties it to the bytes of the
    pages, the key ranges and the chain of leaves; [root_filled] says that every
    node but the root is at least half full, which bounds the number of pages and
    of children by the number of keys.  The methods are proved against the
    page-cache interface; the tree stands for the sorted list [kvs]. *)
From stdpp Require Import base gmap list strings sorting.
From Stdlib Require Import ZArith Lia Ascii.
From S2P Require Import Prelude Types PageCache BPlusTree BPlusTreeNode.

(** An internal node has its children with the lower bounds of their key ranges;
    the bound of the first is not stored. *)
Inductive btree :=
  | BLeaf (pid : Z) (l : list (Z * RID))
  | BNode (pid : Z) (cs : list (Z * btree)).

Definition root_pid (t : btree) : Z := match t with BLeaf p _ => p | BNode p _ => p end.
Fixpoint kvs (t : btree) : list (Z * RID) :=
  match t with
  | BLeaf _ l => l
  | BNode _ cs => concat (map (λ c, kvs c.2) cs)
  end.
Fixpoint pids (t : btree) : list Z :=
  match t with
  | BLeaf p _ => [p]
  | BNode p cs => p :: concat (map (λ c, pids c.2) cs)
  end.
Fixpoint leaves (t : btree) : list (Z * list (Z * RID)) :=
  match t with
  | BLeaf p l => [(p, l)]
  | BNode _ cs => concat (map (λ c, leaves c.2) cs)
  end.
Definition cs_kvs (cs : list (Z * btree)) : list (Z * RID) := concat (map (λ c, kvs c.2) cs).
Definition cs_pids (cs : list (Z * btree)) : list Z := concat (map (λ c, pids c.2) cs).
Definition cs_leaves (cs : list (Z * btree)) : list (Z * list (Z * RID)) :=
  concat (map (λ c, leaves c.2) cs).

Fixpoint first_leaf (t : btree) : Z :=
  match t with
  | BLeaf p _ => p
  | BNode _ [] => INVALID_PAGE_ID
  | BNode _ (c :: _) => first_leaf c.2
  end.

(** The bound and the leaf that follow, given those behind the list. *)
Definition head_key (hi : Z) (cs : list (Z * btree)) : Z :=
  match cs with [] => hi | c :: _ => c.1 end.
Definition head_leaf (nxt : Z) (cs : list (Z * btree)) : Z :=
  match cs with [] => nxt | c :: _ => first_leaf c.2 end.

(** Children side by side, each in the range up to the next bound. *)
Fixpoint children (R : Z → Z → Z → btree → Prop) (cs : list (Z * btree)) (hi nxt : Z) : Prop :=
  match cs with
  | [] => True
  | (k, c) :: cs =>
      R k (head_key hi cs) (head_leaf nxt cs) c ∧ k < head_key hi cs ∧ children R cs hi nxt
  end.

(** The entries of the node's page; the first key is arbitrary. *)
Definition node_ents (k0 : Z) (cs : list (Z * btree)) : list (Z * Z) :=
  match cs with
  | [] => []
  | c :: cs => (k0, root_pid c.2) :: (prod_map id root_pid <$> cs)
  end.

Lemma length_node_ents k0 cs : length (node_ents k0 cs) = length cs.
Proof. destruct cs as [|c cs]; [done|]. cbn. by rewrite length_fmap. Qed.

Lemma node_ents_keep k0 l k c t' r :
  root_pid t' = root_pid c → node_ents k0 (l ++ (k, t') :: r) = node_ents k0 (l ++ (k, c) :: r).
Proof.
  intros Ht. destruct l as [|x l]; cbn; [by rewrite Ht|]. rewrite !fmap_app. cbn. by rewrite Ht.
Qed.

Lemma node_ents_take k0 m cs : node_ents k0 (take m cs) = take m (node_ents k0 cs).
Proof. destruct cs as [|c cs], m as [|m]; try done. cbn. by rewrite fmap_take. Qed.

Lemma node_ents_lookup k0 cs m k c :
  (1 ≤ m)%nat → cs !! m = Some (k, c) → node_ents k0 cs !! m = Some (k, root_pid c).
Proof.
  destruct cs as [|x cs], m as [|m]; try done || lia. cbn. intros _ Hm.
  change ((prod_map id root_pid <$> cs) !! m = Some (k, root_pid c)).
  rewrite list_lookup_fmap. change (cs !! m = Some (k, c)) in Hm. by rewrite Hm.
Qed.

Lemma node_ents_drop k0 k1 cs m k c :
  cs !! m = Some (k, c) →
  node_ents k1 (drop m cs) = (k1, root_pid c) :: drop (S m) (node_ents k0 cs).
Proof.
  intros Hm. rewrite (drop_S _ _ _ Hm). cbn [node_ents snd]. f_equal.
  destruct cs as [|x cs]; [done|]. cbn. by rewrite fmap_drop.
Qed.

Lemma ins_entry_between {V} sep (v : V) a b :
  (∀ e, e ∈ a → e.1 ≤ sep) → (∀ e, e ∈ b → sep < e.1) →
  ins_entry sep v (a ++ b) = a ++ (sep, v) :: b.
Proof.
  intros Ha Hb. assert (Hr : rank sep (a ++ b) = length a).
  { induction a as [|e a IH]; cbn.
    - destruct b as [|e b]; [done|]. cbn. pose proof (Hb e (list_elem_of_here _ _)).
      by rewrite (proj2 (Z.ltb_lt sep e.1)).
    - pose proof (Ha e (list_elem_of_here _ _)). rewrite (proj2 (Z.ltb_ge sep e.1)) by lia.
      f_equal. apply IH. intros x Hx. apply Ha. by right. }
  unfold ins_entry. by rewrite Hr, take_app_length, drop_app_length.
Qed.

Section rep.
Context (lmax imax : Z).

Fixpoint tree_rep (st : pages) (h : nat) (lo hi nxt : Z) (t : btree) : Prop :=
  match h, t with
  | O, BLeaf pid l =>
      (∃ d, st !! pid = Some d ∧ leaf_page d l nxt) ∧ 0 ≤ pid ∧ keys_sorted l ∧
      (∀ e, e ∈ l → lo ≤ e.1 < hi) ∧ Z.of_nat (length l) < lmax
  | S h, BNode pid cs =>
      (∃ d k0, st !! pid = Some d ∧ internal_page d (node_ents k0 cs)) ∧ 0 ≤ pid ∧
      cs ≠ [] ∧ head_key hi cs = lo ∧ Z.of_nat (length cs) ≤ imax ∧
      children (tree_rep st h) cs hi nxt
  | _, _ => False
  end.

(** Occupancy: a split leaves at least these many entries and children. *)
Definition min_leaf : nat := Z.to_nat (lmax / 2).
Definition min_node : nat := Z.to_nat ((imax + 1) / 2).
Fixpoint filled (t : btree) : Prop :=
  match t with
  | BLeaf _ l => (min_leaf ≤ length l)%nat
  | BNode _ cs => (min_node ≤ length cs)%nat ∧ foldr (λ c P, filled c.2 ∧ P) True cs
  end.
Definition all_filled (cs : list (Z * btree)) : Prop := Forall (λ c, filled c.2) cs.
(** The root may hold less. *)
Definition root_filled (t : btree) : Prop :=
  match t with BLeaf _ _ => True | BNode _ cs => (2 ≤ length cs)%nat ∧ all_filled cs end.
(** A tree that has become the trees [rs] stays occupied. *)
Definition stays_filled (t : btree) (rs : list (Z * btree)) : Prop :=
  (filled t → all_filled rs) ∧
  (root_filled t → match rs with [(_, t')] => root_filled t' | _ => all_filled rs end).
(** A node never gets more than [CAPACITY] children, in a tree of [n] keys. *)
Definition room (n : nat) : Prop :=
  imax < CAPACITY InternalPage ∨ Z.of_nat n < (CAPACITY InternalPage + 1) * (lmax / 2).
End rep.

Section occupancy.
Context (lmax imax : Z).
Hypothesis Hlmax : 2 ≤ lmax.
Hypothesis Himax : 3 ≤ imax.

Lemma min_leaf_Z : Z.of_nat (min_leaf lmax) = lmax / 2 ∧ (1 ≤ min_leaf lmax)%nat.
Proof. unfold min_leaf. pose proof (Z.div_le_lower_bound lmax 2 1). lia. Qed.
Lemma min_node_Z : Z.of_nat (min_node imax) = (imax + 1) / 2 ∧ (2 ≤ min_node imax)%nat.
Proof. unfold min_node. pose proof (Z.div_le_lower_bound (imax + 1) 2 2). lia. Qed.
Lemma filled_node pid cs :
  filled lmax imax (BNode pid cs) ↔ (min_node imax ≤ length cs)%nat ∧ all_filled lmax imax cs.
Proof.
  cbn [filled]. apply and_iff_compat_l. unfold all_filled.
  induction cs as [|c cs IH]; cbn; [by rewrite Forall_nil|by rewrite Forall_cons, IH].
Qed.
Lemma filled_root t : filled lmax imax t → root_filled lmax imax t.
Proof.
  destruct t as [|pid cs]; [done|]. intros [H1 H2]%filled_node. pose proof min_node_Z. split; [lia|done].
Qed.
(** The keys of occupied trees. *)
Lemma filled_kvs t : filled lmax imax t → (min_leaf lmax ≤ length (kvs t))%nat.
Proof.
  assert (∀ k t', (length (pids t') ≤ k)%nat → filled lmax imax t' → (min_leaf lmax ≤ length (kvs t'))%nat) as H;
    [|by apply (H (length (pids t)))].
  clear t. intros k. induction k as [|k IH]; intros [pid l|pid cs] Hk Hf; cbn in Hk; try lia; [exact Hf|].
  apply filled_node in Hf as [H1 H2]. pose proof min_node_Z. destruct cs as [|[k' c] cs]; [cbn in H1; lia|].
  apply Forall_cons in H2 as [Hc _]. cbn in *. rewrite length_app in *. specialize (IH c ltac:(lia) Hc). lia.
Qed.
Lemma all_filled_kvs cs : all_filled lmax imax cs → (length cs * min_leaf lmax ≤ length (cs_kvs cs))%nat.
Proof.
  induction 1 as [|[k c] cs Hc _ IH]; [done|]. change (cs_kvs ((k, c) :: cs)) with (kvs c ++ cs_kvs cs).
  rewrite length_app. pose proof (filled_kvs c Hc). cbn. lia.
Qed.
Lemma room_le n m : (n ≤ m)%nat → room lmax imax m → room lmax imax n.
Proof. intros Hle [?|?]; [by left|right; lia]. Qed.
(** There is room for the children that stand for [n] keys. *)
Lemma room_children cs n :
  room lmax imax n → all_filled lmax imax cs → (length (cs_kvs cs) ≤ n)%nat → Z.of_nat (length cs) ≤ imax + 1 →
  Z.of_nat (length cs) ≤ CAPACITY InternalPage.
Proof.
  intros [?|Hn] Hf Hle Hlen; [lia|]. apply all_filled_kvs in Hf. destruct min_leaf_Z as [Hm ?]. nia.
Qed.

(** A tree of [n] keys has at most [n] leaves, and fewer other nodes. *)
Lemma filled_pages t :
  filled lmax imax t → (length (pids t) + 1 ≤ 2 * length (kvs t))%nat.
Proof.
  assert (∀ k t', (length (pids t') ≤ k)%nat → filled lmax imax t' →
    (length (pids t') + 1 ≤ 2 * length (kvs t'))%nat) as H; [|by apply (H (length (pids t)))].
  clear t. intros k. induction k as [|k IH]; intros [pid l|pid cs] Hk Hf; cbn in Hk; try lia.
  { cbn in *. destruct min_leaf_Z. lia. }
  apply filled_node in Hf as [H1 H2]. destruct min_node_Z as [_ Hm].
  change (pids (BNode pid cs)) with (pid :: cs_pids cs). change (kvs (BNode pid cs)) with (cs_kvs cs).
  change (concat _) with (cs_pids cs) in Hk.
  assert (length (cs_pids cs) + length cs ≤ 2 * length (cs_kvs cs))%nat; [|cbn [length]; lia].
  clear H1. induction H2 as [|[k' c] cs Hc _ IHcs]; [done|].
  change (cs_kvs ((k', c) :: cs)) with (kvs c ++ cs_kvs cs). change (cs_pids ((k', c) :: cs)) with (pids c ++ cs_pids cs) in *.
  rewrite !length_app in *. specialize (IH c ltac:(lia) Hc). specialize (IHcs ltac:(lia)). cbn [length]. lia.
Qed.
Lemma root_filled_pages t : root_filled lmax imax t → (length (pids t) ≤ 2 * length (kvs t) + 1)%nat.
Proof.
  destruct t as [pid l|pid cs]; [cbn; lia|]. intros [H1 H2].
  change (pids (BNode pid cs)) with (pid :: cs_pids cs). change (kvs (BNode pid cs)) with (cs_kvs cs).
  cbn [length]. clear H1. induction H2 as [|[k' c] cs Hc _ IHcs]; [cbn; lia|].
  change (cs_kvs ((k', c) :: cs)) with (kvs c ++ cs_kvs cs). change (cs_pids ((k', c) :: cs)) with (pids c ++ cs_pids cs) in *.
  rewrite !length_app. pose proof (filled_pages c Hc). lia.
Qed.

Lemma stays_leaf pid l l' lo :
  (length l ≤ length l')%nat → stays_filled lmax imax (BLeaf pid l) [(lo, BLeaf pid l')].
Proof. intros Hl. split; [|done]. cbn. intros Hf. repeat constructor. cbn. lia. Qed.
Lemma stays_leaf_split pid l l' lo sep new :
  Z.of_nat (length l') = lmax →
  stays_filled lmax imax (BLeaf pid l)
    [(lo, BLeaf pid (take (length l' / 2) l')); (sep, BLeaf new (drop (length l' / 2) l'))].
Proof.
  intros Hl. assert (all_filled lmax imax
    [(lo, BLeaf pid (take (length l' / 2) l')); (sep, BLeaf new (drop (length l' / 2) l'))]) as Hf; [|by split].
  destruct min_leaf_Z as [Hm _]. pose proof (Nat2Z.inj_div (length l') 2) as Hd. rewrite Hl in Hd.
  change (Z.of_nat 2) with 2 in Hd. pose proof (Z.mul_div_le lmax 2 ltac:(lia)).
  repeat constructor; cbn [filled snd]; rewrite ?length_take, ?length_drop; lia.
Qed.
Lemma stays_node pid cs cs' lo :
  (length cs ≤ length cs')%nat → (all_filled lmax imax cs → all_filled lmax imax cs') →
  stays_filled lmax imax (BNode pid cs) [(lo, BNode pid cs')].
Proof.
  intros Hl Hf. split.
  - intros [H1 H2]%filled_node. apply Forall_singleton, filled_node. split; [lia|auto].
  - intros [H1 H2]. split; [lia|auto].
Qed.
Lemma stays_node_split pid cs cs' lo sep np :
  Z.of_nat (length cs') = imax + 1 → (all_filled lmax imax cs → all_filled lmax imax cs') →
  stays_filled lmax imax (BNode pid cs)
    [(lo, BNode pid (take (length cs' / 2) cs')); (sep, BNode np (drop (length cs' / 2) cs'))].
Proof.
  intros Hl Hf. assert (all_filled lmax imax cs →
    all_filled lmax imax [(lo, BNode pid (take (length cs' / 2) cs')); (sep, BNode np (drop (length cs' / 2) cs'))]) as H.
  { intros Hcs%Hf. destruct min_node_Z as [Hm _]. pose proof (Nat2Z.inj_div (length cs') 2) as Hd. rewrite Hl in Hd.
    change (Z.of_nat 2) with 2 in Hd. pose proof (Z.mul_div_le (imax + 1) 2 ltac:(lia)).
    apply Forall_cons. split; [|apply Forall_singleton]; apply filled_node; rewrite ?length_take, ?length_drop;
      (split; [lia|by (apply Forall_take || apply Forall_drop)]). }
  split; [intros [_ ?]%filled_node|intros [_ ?]]; auto.
Qed.
Lemma stays_child l k c rs r :
  stays_filled lmax imax c rs → all_filled lmax imax (l ++ (k, c) :: r) → all_filled lmax imax (l ++ rs ++ r).
Proof.
  intros [Hc _]. unfold all_filled. rewrite !Forall_app, Forall_cons. intros (H1 & H2 & H3).
  split_and!; [done|by apply Hc|done].
Qed.
End occupancy.

Lemma cs_kvs_app a b : cs_kvs (a ++ b) = cs_kvs a ++ cs_kvs b.
Proof. unfold cs_kvs. by rewrite map_app, concat_app. Qed.
Lemma cs_pids_app a b : cs_pids (a ++ b) = cs_pids a ++ cs_pids b.
Proof. unfold cs_pids. by rewrite map_app, concat_app. Qed.
Lemma cs_leaves_app a b : cs_leaves (a ++ b) = cs_leaves a ++ cs_leaves b.
Proof. unfold cs_leaves. by rewrite map_app, concat_app. Qed.

Lemma head_key_app hi a b : head_key hi (a ++ b) = head_key (head_key hi b) a.
Proof. by destruct a. Qed.
Lemma head_leaf_app nxt a b : head_leaf nxt (a ++ b) = head_leaf (head_leaf nxt b) a.
Proof. by destruct a. Qed.

Lemma children_app R a b hi nxt :
  children R (a ++ b) hi nxt ↔
  children R a (head_key hi b) (head_leaf nxt b) ∧ children R b hi nxt.
Proof.
  induction a as [|[k c] a IH]; cbn; [tauto|].
  rewrite IH, head_key_app, head_leaf_app. tauto.
Qed.

Lemma children_impl (R R' : Z → Z → Z → btree → Prop) cs hi nxt :
  (∀ k c lo hi nxt, (k, c) ∈ cs → R lo hi nxt c → R' lo hi nxt c) →
  children R cs hi nxt → children R' cs hi nxt.
Proof.
  induction cs as [|[k c] cs IH]; cbn; [done|]. intros Himp (HR & Hk & Hcs). split_and!; [|done|].
  - eapply Himp; [by left|done].
  - apply IH; [|done]. intros k' c' lo' hi' nxt' Hin. apply (Himp k' c'). by right.
Qed.

Lemma elem_of_cs_pids k c cs p : (k, c) ∈ cs → p ∈ pids c → p ∈ cs_pids cs.
Proof.
  intros Hc Hp. apply list_elem_of_In, in_concat. exists (pids c).
  split; [|by apply list_elem_of_In]. apply in_map_iff. exists (k, c).
  split; [done|by apply list_elem_of_In].
Qed.

Section rep_lemmas.
Context (lmax imax : Z).
Abbreviation tree_rep := (tree_rep lmax imax).
Implicit Types (st : pages) (t : btree) (cs : list (Z * btree)).

Lemma tree_frame st st' h lo hi nxt t :
  (∀ p, p ∈ pids t → st' !! p = st !! p) → tree_rep st h lo hi nxt t → tree_rep st' h lo hi nxt t.
Proof.
  revert lo hi nxt t. induction h as [|h IH]; intros lo hi nxt [pid l|pid cs] Hfr; try done.
  - intros ((d & Hd & Hp) & Hrest). split; [|done]. exists d. rewrite Hfr; [done|by left].
  - intros ((d & k0 & Hd & Hp) & H1 & H2 & H3 & H4 & Hcs). split.
    { exists d, k0. rewrite Hfr; [done|by left]. }
    split_and!; [done..|]. eapply children_impl, Hcs. intros k c lo' hi' nxt' Hin. apply IH.
    intros p Hp'. apply Hfr. right. by eapply elem_of_cs_pids.
Qed.

Lemma children_frame st st' h cs hi nxt :
  (∀ p, p ∈ cs_pids cs → st' !! p = st !! p) →
  children (tree_rep st h) cs hi nxt → children (tree_rep st' h) cs hi nxt.
Proof.
  intros Hfr. apply children_impl. intros k c lo' hi' nxt' Hin. apply tree_frame.
  intros p Hp. apply Hfr. by eapply elem_of_cs_pids.
Qed.

Lemma children_le (R : Z → Z → Z → btree → Prop) cs hi nxt k c :
  children R cs hi nxt → (k, c) ∈ cs → head_key hi cs ≤ k < hi.
Proof.
  revert k c. induction cs as [|[k' c'] cs IH]; cbn; intros k c; [by intros _ ?%elem_of_nil|].
  intros (_ & Hk & Hcs) [[= -> ->]|Hin]%elem_of_cons.
  - split; [lia|]. destruct cs as [|[k1 c1] cs]; [done|]. cbn in *.
    destruct (IH k1 c1 Hcs (list_elem_of_here _ _)). lia.
  - pose proof (IH k c Hcs Hin). lia.
Qed.

Lemma children_keys_sorted (R : Z → Z → Z → btree → Prop) cs hi nxt :
  children R cs hi nxt → keys_sorted (prod_map id root_pid <$> cs).
Proof.
  induction cs as [|[k c] cs IH]; cbn; [intros _; constructor|]. intros (_ & Hk & Hcs).
  apply keys_sorted_cons. split; [by apply IH|].
  intros x ([k' c'] & -> & Hx)%list_elem_of_fmap. cbn.
  pose proof (children_le _ _ _ _ _ _ Hcs Hx). lia.
Qed.

(** The keys of a tree are in its range and sorted. *)
Lemma tree_kvs st h lo hi nxt t :
  tree_rep st h lo hi nxt t → keys_sorted (kvs t) ∧ ∀ e, e ∈ kvs t → lo ≤ e.1 < hi.
Proof.
  revert lo hi nxt t. induction h as [|h IH]; intros lo hi nxt [pid l|pid cs]; try done.
  { intros (_ & _ & ? & ? & _). done. }
  intros (_ & _ & _ & <- & _ & Hcs). change (kvs (BNode pid cs)) with (cs_kvs cs).
  induction cs as [|[k c] cs IHcs]; cbn; [split; [constructor|by intros e ?%elem_of_nil]|].
  destruct Hcs as (Hc & Hk & Hcs). destruct (IHcs Hcs) as [Hs Hb].
  destruct (IH _ _ _ _ Hc) as [Hsc Hbc].
  assert (Hhi : head_key hi cs ≤ hi).
  { destruct cs as [|[k1 c1] cs']; [done|]. cbn.
    destruct (children_le _ _ _ _ k1 c1 Hcs (list_elem_of_here _ _)). lia. }
  split.
  - by apply keys_sorted_app_2 with (m := head_key hi cs); [..|naive_solver|naive_solver].
  - intros e [He%Hbc|He%Hb]%elem_of_app; lia.
Qed.

(** The child [Lookup] finds: the one whose range has the key. *)
Lemma lookup_child (R : Z → Z → Z → btree → Prop) cs hi nxt key d k0 :
  children R cs hi nxt → cs ≠ [] → head_key hi cs ≤ key < hi →
  internal_page d (node_ents k0 cs) →
  ∃ l k c r, cs = l ++ (k, c) :: r ∧ k ≤ key < head_key hi r ∧
    Internal_Lookup key d = Some (root_pid c).
Proof.
  intros Hcs Hne Hkey [_ Hd]. destruct cs as [|[kc c0] tl]; [done|]. cbn [node_ents] in Hd.
  pose proof Hcs as (_ & Hk0 & Htl). pose proof (children_keys_sorted _ _ _ _ Htl) as Hs.
  destruct (Internal_Lookup_spec key d _ _ Hd Hs) as (e & He & Hlk).
  set (i := rank key _) in He.
  assert (Hi : ∃ k c, ((kc, c0) :: tl) !! i = Some (k, c) ∧ e.2 = root_pid c ∧ k ≤ key).
  { destruct i as [|j] eqn:Ei.
    - injection He as <-. exists kc, c0. cbn in *. split_and!; [done|done|lia].
    - cbn [lookup list_lookup] in He. change ((prod_map id root_pid <$> tl) !! j = Some e) in He.
      pose proof (rank_sorted key _ j e Hs He) as Hr.
      rewrite list_lookup_fmap in He. apply fmap_Some in He as ([k c] & Hc & ->).
      exists k, c. cbn in *. split_and!; [done|done|lia]. }
  destruct Hi as (k & c & Hi & Hec & Hle).
  exists (take i ((kc, c0) :: tl)), k, c, (drop (S i) ((kc, c0) :: tl)).
  rewrite take_drop_middle by done. rewrite <- Hec. split_and!; [done|done| |done].
  cbn [drop]. destruct (drop i tl) as [|[k1 c1] r] eqn:Hr; cbn; [lia|].
  assert (H1 : tl !! i = Some (k1, c1)) by (by rewrite <- (Nat.add_0_r i), <- lookup_drop, Hr).
  pose proof (rank_sorted key _ i (k1, root_pid c1) Hs) as Hrk.
  rewrite list_lookup_fmap, H1 in Hrk. specialize (Hrk eq_refl). cbn in Hrk. lia.
Qed.

(** Everything left of a child's range is smaller, everything right greater. *)
Lemma children_bounds st h cs hi nxt l k c r :
  children (tree_rep st h) cs hi nxt → cs = l ++ (k, c) :: r →
  (∀ e, e ∈ cs_kvs l → e.1 < k) ∧ (∀ e, e ∈ cs_kvs r → head_key hi r ≤ e.1).
Proof.
  intros Hcs ->. apply children_app in Hcs as (Hl & Hc & _ & Hr). cbn [head_key fst] in Hl.
  assert (Hgen : ∀ cs hi nxt, children (tree_rep st h) cs hi nxt →
    ∀ e, e ∈ cs_kvs cs → head_key hi cs ≤ e.1 < hi).
  { intros cs' hi' nxt' H' e He. apply list_elem_of_In, in_concat in He as (x & Hx & He).
    apply in_map_iff in Hx as ([k' c'] & <- & Hin%list_elem_of_In).
    apply list_elem_of_split in Hin as (a & b & ->).
    pose proof H' as (_ & Hc' & Hk' & Hb')%children_app.
    apply list_elem_of_In, (proj2 (tree_kvs _ _ _ _ _ _ Hc')) in He.
    assert (Hin : (k', c') ∈ a ++ (k', c') :: b) by (apply elem_of_app; right; by left).
    pose proof (children_le _ _ _ _ _ _ H' Hin).
    destruct b as [|[k1 c1] b]; cbn in *; [lia|].
    assert (Hin1 : (k1, c1) ∈ a ++ (k', c') :: (k1, c1) :: b)
      by (apply elem_of_app; right; right; by left).
    pose proof (children_le _ _ _ _ _ _ H' Hin1). lia. }
  split; intros e He.
  - by destruct (Hgen _ _ _ Hl e He).
  - by destruct (Hgen _ _ _ Hr e He).
Qed.

Lemma lookup_key_app_l {V} key (a b : list (Z * V)) :
  (∀ e, e ∈ a → e.1 ≠ key) → lookup_key key (a ++ b) = lookup_key key b.
Proof.
  induction a as [|e a IH]; intros Ha; [done|]. cbn.
  rewrite (proj2 (Z.eqb_neq e.1 key)) by (apply Ha; by left).
  apply IH. intros x Hx. apply Ha. by right.
Qed.
Lemma lookup_key_app_r {V} key (a b : list (Z * V)) :
  (∀ e, e ∈ b → e.1 ≠ key) → lookup_key key (a ++ b) = lookup_key key a.
Proof.
  intros Hb. induction a as [|e a IH]; cbn; [|by destruct (e.1 =? key)].
  apply lookup_key_None. intros v Hv. by apply (Hb _ Hv).
Qed.
Lemma put_app_l {V} key (v : V) (a b : list (Z * V)) :
  (∀ e, e ∈ a → e.1 < key) → put key v (a ++ b) = a ++ put key v b.
Proof.
  induction a as [|e a IH]; intros Ha; [done|]. cbn. pose proof (Ha e (list_elem_of_here _ _)).
  rewrite (proj2 (Z.ltb_ge key e.1)), (proj2 (Z.eqb_neq e.1 key)) by lia.
  f_equal. apply IH. intros x Hx. apply Ha. by right.
Qed.
Lemma put_app_r {V} key (v : V) (a b : list (Z * V)) :
  (∀ e, e ∈ b → key < e.1) → put key v (a ++ b) = put key v a ++ b.
Proof.
  intros Hb. induction a as [|e a IH]; cbn.
  - destruct b as [|e b]; [done|]. cbn. pose proof (Hb e (list_elem_of_here _ _)).
    by rewrite (proj2 (Z.ltb_lt key e.1)).
  - destruct (key <? e.1); [done|]. destruct (e.1 =? key); [done|]. by rewrite IH.
Qed.
End rep_lemmas.

(** ** The methods against the page-cache interface *)
Section methods.
Context {S : Type} {PC : PageCache S} {PCS : PageCacheSpec S}.
Context (lmax imax : Z).
Abbreviation tree_rep := (tree_rep lmax imax).
Implicit Types (s : S) (st : pages) (pins : pinmap) (t : btree) (cs : list (Z * btree)).

Lemma search_from_spec h s st pins lo hi nxt t key fuel :
  pc_rep s st pins → pins_low pins → (size pins < pc_cap s)%nat →
  tree_rep st h lo hi nxt t → lo ≤ key < hi → (h < fuel)%nat →
  ∃ s', search_from fuel key (root_pid t) s = (s', Ok (lookup_key key (kvs t))) ∧
    pc_rep s' st pins ∧ pc_cap s' = pc_cap s.
Proof.
  intros Hr Hlow. revert s lo hi nxt t fuel Hr.
  induction h as [|h IH]; intros s lo hi nxt [pid l|pid cs] fuel Hr Hcap Ht Hkey Hfuel; try done;
    (destruct fuel as [|fuel]; [lia|]); cbn [search_from root_pid].
  - destruct Ht as ((d & Hd & Hp) & _ & Hs & _).
    destruct (pc_fetch_read s st pins pid d Hr Hlow Hcap Hd)
      as (s1 & fid & s2 & Hf & Hrd & Hu & Hr2 & Hc2 & _).
    rewrite (bindM_Ok _ _ _ _ _ Hf), (bindM_Ok _ _ _ _ _ Hrd), (bindM_def _ _ _ _ (lp_type _ _ _ Hp)).
    cbn [Z.eqb]. rewrite Z.eqb_refl, (bindM_def _ _ _ _ (Leaf_Search_spec key d l (lp_holds _ _ _ Hp) Hs)).
    rewrite (bindM_Ok _ _ _ _ _ Hu). by exists s2.
  - destruct Ht as ((d & k0 & Hd & Hp) & _ & Hne & Hlo & _ & Hcs). subst lo.
    destruct (pc_fetch_read s st pins pid d Hr Hlow Hcap Hd)
      as (s1 & fid & s2 & Hf & Hrd & Hu & Hr2 & Hc2 & _).
    rewrite (bindM_Ok _ _ _ _ _ Hf), (bindM_Ok _ _ _ _ _ Hrd), (bindM_def _ _ _ _ (np_type _ _ Hp)).
    cbn [Z.eqb NODE_LEAF NODE_INTERNAL].
    destruct (lookup_child _ cs hi nxt key d k0 Hcs Hne Hkey Hp) as (l & k & c & r & -> & Hk & Hlk).
    rewrite (bindM_def _ _ _ _ Hlk), (bindM_Ok _ _ _ _ _ Hu).
    destruct (children_bounds _ _ _ _ _ _ _ l k c r Hcs eq_refl) as [Hbl Hbr].
    apply children_app in Hcs as (_ & Hc & _ & _).
    destruct (IH s2 k (head_key hi r) (head_leaf nxt r) c fuel Hr2) as (s3 & H3 & Hr3 & Hc3);
      [lia|exact Hc|done|lia|].
    exists s3. rewrite H3. split_and!; [|done|congruence].
    change (kvs (BNode pid (l ++ (k, c) :: r))) with (cs_kvs (l ++ (k, c) :: r)).
    rewrite cs_kvs_app, lookup_key_app_l by (intros e He%Hbl; lia).
    change (cs_kvs ((k, c) :: r)) with (kvs c ++ cs_kvs r).
    by rewrite lookup_key_app_r by (intros e He%Hbr; lia).
Qed.

(** ** Splitting a page: the page [pid] is pinned and written, [d] its bytes. *)
Lemma split_page_spec s st pins pid fid d msg init split n0 d' n' sep :
  pc_rep s st (pin_write (pin_inc pins pid) pid) → pins !! pid = None →
  pc_at s pid fid → st !! pid = Some d →
  Z.of_nat (size st) + 1 < 2 ^ 31 → (size pins + 1 < pc_cap s)%nat →
  init (memset PAGE_SIZE NUL) = Some n0 → length n0 = Z.to_nat PAGE_SIZE →
  split (Z.of_nat (size st)) d n0 = Some (d', n', sep) →
  length d' = Z.to_nat PAGE_SIZE → length n' = Z.to_nat PAGE_SIZE →
  ∃ s', split_page msg init split pid fid s
      = (s', Ok (Some (mkSplitResult sep (Z.of_nat (size st))))) ∧
    pc_cap s' = pc_cap s ∧ st !! Z.of_nat (size st) = None ∧
    pc_rep s' (<[pid := d']> (<[Z.of_nat (size st) := n']> st)) pins.
Proof.
  intros Hr Hun Hat Hd Hsz Hcap Hinit Hn0 Hsplit Hd' Hn'. unfold split_page.
  set (P := pin_write (pin_inc pins pid) pid) in *.
  destruct (pc_new_spec s st P Hr Hsz) as (s1 & r & Hn & Hc1 & Hk1 & Hres).
  rewrite (bindM_Ok _ _ _ _ _ Hn). destruct r as [[new nfid]|].
  2:{ destruct Hres as [_ Hle]. unfold P, pin_write, pin_inc in Hle.
      rewrite insert_insert_eq, map_size_insert_None in Hle by done. lia. }
  destruct Hres as (-> & Hnone & Hr1 & Hat1). set (new := Z.of_nat (size st)) in *.
  assert (Hne : pid ≠ new) by congruence. assert (HP : P !! pid = Some (1%nat, true)).
  { unfold P, pin_write, pin_inc, pin_of. rewrite !lookup_insert_eq, Hun. done. }
  pose proof (pinned_in_store s st P new Hr Hnone) as HPn.
  apply Hk1 in Hat; [|eauto].
  destruct (poke_spec s1 _ _ new nfid (memset PAGE_SIZE NUL) n0 init Hr1 (pin_inc_lookup _ _) Hat1)
    as (s2 & H2 & Hc2 & Hk2 & Hr2); [by rewrite lookup_insert_eq|done|by rewrite memset_length|].
  rewrite insert_insert_eq in Hr2. apply Hk2 in Hat, Hat1.
  assert (Hpin : is_Some (pin_write (pin_inc P new) new !! pid)).
  { unfold pin_write, pin_inc. rewrite !lookup_insert_ne by done. eauto. }
  assert (Hpin' : is_Some (pin_write (pin_inc P new) new !! new))
    by (apply pin_write_lookup, pin_inc_lookup).
  destruct (pc_read_spec s2 _ _ pid fid Hr2 Hpin Hat) as (x & Hx & Hrd).
  rewrite lookup_insert_ne, Hd in Hx by done. injection Hx as <-.
  destruct (pc_read_spec s2 _ _ new nfid Hr2 Hpin' Hat1) as (x & Hx & Hrd1).
  rewrite lookup_insert_eq in Hx. injection Hx as <-.
  rewrite (bindM_Ok _ _ _ _ _ H2), (bindM_Ok _ _ _ _ _ Hrd), (bindM_Ok _ _ _ _ _ Hrd1).
  rewrite (bindM_def _ _ _ _ Hsplit). cbn [fst snd].
  destruct (pc_write_spec s2 _ _ new nfid n' Hr2 Hpin' Hat1 Hn') as (s3 & H3 & Hc3 & Hk3 & Hr3).
  rewrite insert_insert_eq, pin_write_write in Hr3. apply Hk3 in Hat.
  destruct (pc_write_spec s3 _ _ pid fid d' Hr3 Hpin Hat Hd') as (s4 & H4 & Hc4 & Hk4 & Hr4).
  rewrite pin_write_inc_ne in Hr4 by done.
  rewrite (bindM_Ok _ _ _ _ _ H3), (bindM_Ok _ _ _ _ _ H4).
  assert (HPw : pin_write P pid = P) by apply pin_write_write. rewrite HPw in Hr4.
  destruct (unpin_written s4 _ P new HPn Hr4) as (s5 & H5 & Hc5 & Hr5).
  destruct (unpin_written s5 _ pins pid Hun Hr5) as (s6 & H6 & Hc6 & Hr6).
  rewrite (bindM_Ok _ _ _ _ _ H5), (bindM_Ok _ _ _ _ _ H6).
  exists s6. split_and!; [done|congruence|done|done].
Qed.

(** ** What an insertion below a page does

    The tree [t], made of the pages [ps], becomes trees side by side, with fresh
    pages [new] added and no page outside [t] touched. *)
Definition split_shape t (r : option SplitResult) (rs : list (Z * btree)) : Prop :=
  match r with
  | None => ∃ k t', rs = [(k, t')] ∧ root_pid t' = root_pid t
  | Some sp => ∃ k t1 t2, rs = [(k, t1); (split_key sp, t2)] ∧ root_pid t1 = root_pid t ∧
      root_pid t2 = right_pid sp
  end.

Record grown h lo hi nxt t (ps : list Z) key rid st st' (rs : list (Z * btree)) (new : list Z)
    : Prop := {
  gr_children : children (tree_rep st' h) rs hi nxt;
  gr_lo : head_key hi rs = lo;
  gr_leaf : head_leaf nxt rs = first_leaf t;
  gr_kvs : cs_kvs rs = put key rid (kvs t);
  gr_pids : cs_pids rs ≡ₚ ps ++ new;
  gr_nodup : NoDup new;
  gr_new q : q ∈ new → st !! q = None;
  gr_frame q : is_Some (st !! q) → q ∉ pids t → st' !! q = st !! q;
  gr_mono q : is_Some (st !! q) → is_Some (st' !! q);
  gr_size : size st' = (size st + length new)%nat
}.

Record ins_post h lo hi nxt t key rid s s' st st' pins (r : option SplitResult) : Prop := {
  io_rep : pc_rep s' st' pins;
  io_cap : pc_cap s' = pc_cap s;
  io_size : (size st ≤ size st' ≤ size st + Datatypes.S h)%nat;
  io_grown : ∃ rs new, grown h lo hi nxt t (pids t) key rid st st' rs new ∧ split_shape t r rs ∧
    stays_filled lmax imax t rs
}.

Lemma put_bounds l key rid lo hi :
  keys_sorted l → (∀ e : Z * RID, e ∈ l → lo ≤ e.1 < hi) → lo ≤ key < hi →
  ∀ e, e ∈ put key rid l → lo ≤ e.1 < hi.
Proof. intros Hs Hb Hk e [->|[_ He]]%elem_of_put; auto. Qed.

(** The leaf's bytes change, nothing else. *)
Lemma leaf_grown st pid l lo hi nxt key rid d' :
  tree_rep st 0 lo hi nxt (BLeaf pid l) → lo ≤ key < hi →
  leaf_page d' (put key rid l) nxt → Z.of_nat (length (put key rid l)) < lmax →
  grown 0 lo hi nxt (BLeaf pid l) [pid] key rid st (<[pid := d']> st) [(lo, BLeaf pid (put key rid l))] [].
Proof.
  intros ((d & Hd & _) & H0 & Hs & Hb & _) Hk Hp Hlen. split; cbn.
  - split_and!; [exists d'; by rewrite lookup_insert_eq|done|by apply put_sorted|
      by apply put_bounds|done|lia|done].
  - done.
  - done.
  - by rewrite app_nil_r.
  - done.
  - constructor.
  - by intros q ?%elem_of_nil.
  - intros q _ Hq. rewrite lookup_insert_ne; [done|]. intros <-. apply Hq. by left.
  - intros q Hq. rewrite lookup_insert. case_decide; eauto.
  - rewrite map_size_insert_Some by eauto. lia.
Qed.

(** The leaf is split in two. *)
Lemma leaf_split_grown st pid l lo hi nxt key rid d' n' sep v new m :
  tree_rep st 0 lo hi nxt (BLeaf pid l) → lo ≤ key < hi → st !! new = None → 0 ≤ new →
  (1 ≤ m < length (put key rid l))%nat → Z.of_nat (length (put key rid l)) ≤ lmax →
  leaf_page d' (take m (put key rid l)) new → leaf_page n' (drop m (put key rid l)) nxt →
  drop m (put key rid l) !! 0%nat = Some (sep, v) →
  grown 0 lo hi nxt (BLeaf pid l) [pid] key rid st (<[pid := d']> (<[new := n']> st))
    [(lo, BLeaf pid (take m (put key rid l))); (sep, BLeaf new (drop m (put key rid l)))] [new].
Proof.
  intros ((d & Hd & _) & H0 & Hs & Hb & _) Hk Hnone Hnew Hm Hlen Hp Hn Hsep.
  pose proof (put_sorted key rid l Hs) as Hs'. pose proof (put_bounds l key rid lo hi Hs Hb Hk) as Hb'.
  set (l' := put key rid l) in *. rewrite lookup_drop, Nat.add_0_r in Hsep.
  assert (Hne : pid ≠ new) by congruence.
  assert (Hin : (sep, v) ∈ l') by by eapply list_elem_of_lookup_2.
  assert (Hlo : lo < sep).
  { destruct (lookup_lt_is_Some_2 l' 0) as [e He]; [lia|].
    pose proof (keys_sorted_lookup l' 0 m e (sep, v) Hs' He Hsep ltac:(lia)).
    pose proof (Hb' e (list_elem_of_lookup_2 _ _ _ He)). cbn in *. lia. }
  pose proof (Hb' _ Hin) as Hhi. cbn in Hhi.
  assert (Hsub : ∀ i e, l' !! i = Some e → (i < m)%nat → e.1 < sep).
  { intros i e He Hi. exact (keys_sorted_lookup l' i m e (sep, v) Hs' He Hsep Hi). }
  split; cbn.
  - split_and!; [exists d'; by rewrite lookup_insert_eq|done|by apply keys_sorted_take| | |done| |
      done|by apply keys_sorted_drop| | |lia|done].
    + intros e (i & He)%list_elem_of_lookup_1. apply lookup_take_Some in He as [He Hi].
      split; [apply (Hb' e); by eapply list_elem_of_lookup_2|eauto].
    + rewrite length_take. lia.
    + exists n'. by rewrite lookup_insert_ne, lookup_insert_eq.
    + intros e (i & He)%list_elem_of_lookup_1. rewrite lookup_drop in He.
      split; [|apply (Hb' e); by eapply list_elem_of_lookup_2].
      destruct i as [|i]; [rewrite Nat.add_0_r, Hsep in He; injection He as <-; done|].
      pose proof (keys_sorted_lookup l' m (m + Datatypes.S i) (sep, v) e Hs' Hsep He ltac:(lia)).
      cbn in *. lia.
    + rewrite length_drop. lia.
  - done.
  - done.
  - by rewrite app_nil_r, take_drop.
  - done.
  - apply NoDup_singleton.
  - by intros q ->%list_elem_of_singleton.
  - intros q [x Hq] Hq'. rewrite !lookup_insert_ne; [done|congruence|].
    intros <-. apply Hq'. by left.
  - intros q Hq. rewrite !lookup_insert. repeat case_decide; eauto.
  - rewrite map_size_insert_Some, map_size_insert_None; [lia|done|rewrite lookup_insert_ne; eauto].
Qed.

(** The split of [InsertInLeaf], after the entry has been written. *)
Lemma leaf_split_post s s2 st pins pid fid l lo hi nxt key rid d' :
  pc_rep s2 (<[pid := d']> st) (pin_write (pin_inc pins pid) pid) → pins !! pid = None →
  pc_at s2 pid fid → tree_rep st 0 lo hi nxt (BLeaf pid l) → lo ≤ key < hi → s32_range nxt →
  leaf_page d' (put key rid l) nxt → Z.of_nat (size st) + 1 < 2 ^ 31 →
  Z.of_nat (length (put key rid l)) = lmax → 2 ≤ lmax → (size pins + 1 < pc_cap s2)%nat →
  pc_cap s2 = pc_cap s →
  ∃ s' st' r, split_page "BPlusTree — buffer pool full during leaf split"
      (Leaf_Init INVALID_PAGE_ID) split_leaf pid fid s2 = (s', Ok r) ∧
    ins_post 0 lo hi nxt (BLeaf pid l) key rid s s' st st' pins r.
Proof.
  intros Hr2 Hun Hat Ht Hkey Hnxt Hp' Hsz Hlen H2 Hcap Hc2. pose proof Ht as ((d & Hd & _) & _).
  assert (Hsz' : size (<[pid := d']> st) = size st) by (apply map_size_insert_Some; eauto).
  destruct (Leaf_Init_spec INVALID_PAGE_ID (memset PAGE_SIZE NUL) (memset_length _ _))
    as (n0 & Hn0 & Hp0).
  destruct (split_leaf_spec (Z.of_nat (size st)) d' n0 (put key rid l) nxt Hp' Hp0)
    as (d2 & n' & sep & v & Hsp & Hq & Hq' & Hsep); [lia|unfold s32_range; lia|done|].
  destruct (half_bounds (length (put key rid l))) as [Hm1 Hm2]; [lia|].
  destruct (split_page_spec s2 (<[pid := d']> st) pins pid fid d'
    "BPlusTree — buffer pool full during leaf split" (Leaf_Init INVALID_PAGE_ID) split_leaf
    n0 d2 n' sep) as (s3 & H3 & Hc3 & Hnone & Hr3);
    [done|done|done|by rewrite lookup_insert_eq|lia|lia|done|apply Hp0|by rewrite Hsz'|
     apply Hq|apply Hq'|].
  rewrite Hsz' in *. set (new := Z.of_nat (size st)) in *.
  assert (Hne : pid ≠ new) by (intros ->; by rewrite lookup_insert_eq in Hnone).
  rewrite lookup_insert_ne in Hnone by done.
  rewrite (insert_insert_ne _ new pid), insert_insert_eq in Hr3 by done.
  eexists s3, _, _. split; [exact H3|]. split; [exact Hr3|congruence| |].
  - rewrite map_size_insert_Some, map_size_insert_None;
      [lia|done|rewrite lookup_insert_ne; eauto].
  - exists [(lo, BLeaf pid (take (length (put key rid l) / 2) (put key rid l)));
            (sep, BLeaf new (drop (length (put key rid l) / 2) (put key rid l)))], [new].
    split; [|split; [exists lo; eexists _, _; split; [reflexivity|split; reflexivity]|by apply stays_leaf_split]].
    apply (leaf_split_grown st pid l lo hi nxt key rid d2 n' sep v new);
      [exact Ht|exact Hkey|exact Hnone|apply Zle_0_nat|lia|lia|exact Hq|exact Hq'|exact Hsep].
Qed.

(** A leaf that was written and is not split. *)
Lemma leaf_unsplit_post s s2 st pins pid l lo hi nxt key rid d' :
  pc_rep s2 (<[pid := d']> st) (pin_write (pin_inc pins pid) pid) → pins !! pid = None →
  tree_rep st 0 lo hi nxt (BLeaf pid l) → lo ≤ key < hi → leaf_page d' (put key rid l) nxt →
  Z.of_nat (length (put key rid l)) < lmax → pc_cap s2 = pc_cap s →
  ∃ s', (pc_unpin pid true ;; retM (@None SplitResult))%mydb s2 = (s', Ok None) ∧
    ins_post 0 lo hi nxt (BLeaf pid l) key rid s s' st (<[pid := d']> st) pins None.
Proof.
  intros Hr2 Hun Ht Hkey Hp' Hlen Hc2. pose proof Ht as ((d & Hd & _) & _).
  destruct (unpin_written s2 _ pins pid Hun Hr2) as (s3 & H3 & Hc3 & Hr3).
  exists s3. rewrite (bindM_Ok _ _ _ _ _ H3). split; [done|].
  split; [done|congruence|rewrite map_size_insert_Some by eauto; lia|].
  exists [(lo, BLeaf pid (put key rid l))], [].
  split; [|split; [by eexists lo, _|apply stays_leaf, length_put]].
  by apply (leaf_grown st pid l lo hi nxt key rid d').
Qed.

Lemma InsertInLeaf_spec s st pins pid l lo hi nxt key rid :
  pc_rep s st pins → pins_low pins → (size pins + 1 < pc_cap s)%nat → pins !! pid = None →
  2 ≤ lmax ≤ CAPACITY LeafPage → Z.of_nat (size st) + 1 < 2 ^ 31 →
  tree_rep st 0 lo hi nxt (BLeaf pid l) → lo ≤ key < hi → leaf_ok (key, rid) → s32_range nxt →
  ∃ s' st' r, InsertInLeaf lmax pid key rid s = (s', Ok r) ∧
    ins_post 0 lo hi nxt (BLeaf pid l) key rid s s' st st' pins r.
Proof.
  intros Hr Hlow Hcap Hun Hmax Hsz Ht Hkey Hok Hnxt.
  pose proof Ht as ((d & Hd & Hp) & H0 & Hs & Hb & Hlen).
  destruct (pc_fetch_read s st pins pid d Hr Hlow ltac:(lia) Hd)
    as (s1 & fid & _ & Hf & Hrd & _ & _ & _ & Hr1 & Hat & Hc1).
  pose proof (lp_holds _ _ _ Hp) as Hh. unfold InsertInLeaf.
  rewrite (bindM_Ok _ _ _ _ _ Hf), (bindM_def (Some fid) fid _ _ eq_refl), (bindM_Ok _ _ _ _ _ Hrd).
  rewrite (bindM_def _ _ _ _ (nh_size _ _ _ Hh)), Nat2Z.id.
  destruct (find_key_spec key d [] l 0 Hh eq_refl) as (r & Hfk & Hres).
  rewrite (bindM_def _ _ _ _ Hfk). destruct r as [j|].
  - destruct Hres as (n & v & -> & Hn). rewrite Z.add_0_l.
    destruct (Leaf_overwrite_spec key rid d l nxt n v Hp Hs Hok Hn) as (d' & Hd' & Hp').
    pose proof (nh_len _ _ _ (lp_holds _ _ _ Hp')) as Hl'.
    destruct (poke_spec s1 st (pin_inc pins pid) pid fid d d'
      (λ d, e ← get_entry LeafPage (Z.of_nat n) d; set_entry LeafPage (Z.of_nat n) (e.1, rid) d)
      Hr1 (pin_inc_lookup _ _) Hat Hd Hd')
      as (s2 & H2 & Hc2 & _ & Hr2); [by rewrite Hl', (nh_len _ _ _ Hh)|].
    rewrite (bindM_Ok _ _ _ _ _ H2).
    destruct (leaf_unsplit_post s s2 st pins pid l lo hi nxt key rid d') as (s3 & H3 & Hpost); [done..| |congruence|eauto].
    rewrite (put_present _ _ _ _ _ Hs Hn), length_insert. done.
  - destruct (Leaf_InsertEntry_spec key rid d l nxt Hp ltac:(lia) Hok Hres) as (d' & Hd' & Hp').
    pose proof (lp_holds _ _ _ Hp') as Hh'. pose proof (nh_len _ _ _ Hh') as Hl'.
    destruct (poke_spec s1 st (pin_inc pins pid) pid fid d d' _ Hr1 (pin_inc_lookup _ _) Hat Hd Hd')
      as (s2 & H2 & Hc2 & Hk2 & Hr2); [by rewrite Hl', (nh_len _ _ _ Hh)|].
    apply Hk2 in Hat.
    destruct (pc_read_spec s2 _ _ pid fid Hr2 (pin_write_lookup _ _ _ (pin_inc_lookup _ _)) Hat)
      as (x & Hx & Hrd2). rewrite lookup_insert_eq in Hx. injection Hx as <-.
    rewrite (bindM_Ok _ _ _ _ _ H2), (bindM_Ok _ _ _ _ _ Hrd2), (bindM_def _ _ _ _ (nh_size _ _ _ Hh')).
    assert (Hlp : length (put key rid l) = Datatypes.S (length l))
      by (by rewrite put_absent, length_ins_entry).
    destruct (Z.ltb_spec (Z.of_nat (length (put key rid l))) lmax) as [Hlt|Hge].
    + destruct (leaf_unsplit_post s s2 st pins pid l lo hi nxt key rid d') as (s3 & H3 & Hpost);
        [done..|congruence|eauto].
    + destruct (leaf_split_post s s2 st pins pid fid l lo hi nxt key rid d')
        as (s3 & st' & r & H3 & Hpost); [done..|lia|lia|lia|congruence|]. rewrite H3. eauto.
Qed.

(** ** Internal nodes *)
Lemma tree_in_store st h lo hi nxt t p : tree_rep st h lo hi nxt t → p ∈ pids t → is_Some (st !! p).
Proof.
  revert lo hi nxt t. induction h as [|h IH]; intros lo hi nxt [pid l|pid cs]; try done.
  - intros ((d & Hd & _) & _) ->%list_elem_of_singleton. eauto.
  - intros ((d & k0 & Hd & _) & _ & _ & _ & _ & Hcs) [->|Hp]%elem_of_cons; [eauto|].
    apply list_elem_of_In, in_concat in Hp as (x & Hx & Hp%list_elem_of_In).
    apply in_map_iff in Hx as ([k c] & <- & Hin%list_elem_of_In).
    apply list_elem_of_split in Hin as (a & b & ->).
    apply children_app in Hcs as (_ & Hc & _). by eapply IH.
Qed.

Lemma children_in_store st h cs hi nxt p :
  children (tree_rep st h) cs hi nxt → p ∈ cs_pids cs → is_Some (st !! p).
Proof.
  induction cs as [|[k c] cs IH]; [by intros _ ?%elem_of_nil|].
  intros (Hc & _ & Hcs) [Hp|Hp]%elem_of_app; [by eapply tree_in_store|auto].
Qed.

(** A child has grown: so have the children of its node. *)
Lemma regrow h hi nxt pid l k c r key rid st st1 rs new :
  children (tree_rep st h) (l ++ (k, c) :: r) hi nxt → k ≤ key < head_key hi r →
  NoDup (cs_pids (l ++ (k, c) :: r)) →
  grown h k (head_key hi r) (head_leaf nxt r) c (pids c) key rid st st1 rs new →
  grown h (head_key hi (l ++ (k, c) :: r)) hi nxt (BNode pid (l ++ (k, c) :: r))
    (cs_pids (l ++ (k, c) :: r)) key rid st st1 (l ++ rs ++ r) new.
Proof.
  intros Hcs Hkey Hnd [G1 G2 G3 G4 G5 G6 G7 G8 G9 G10].
  destruct (children_bounds _ _ _ _ _ _ _ l k c r Hcs eq_refl) as [Hbl Hbr].
  pose proof Hcs as (Hl & Hc & Hk & Hr)%children_app. cbn in Hl.
  rewrite cs_pids_app in Hnd. change (cs_pids ((k, c) :: r)) with (pids c ++ cs_pids r) in Hnd.
  apply NoDup_app in Hnd as (_ & Hdl & (_ & Hdr & _)%NoDup_app).
  split.
  - apply children_app. rewrite children_app, head_key_app, head_leaf_app, G2, G3. split_and!.
    + eapply children_frame, Hl. intros p Hp. apply G8; [exact (children_in_store _ _ _ _ _ _ Hl Hp)|].
      intros Hpc. apply (Hdl p Hp), elem_of_app. by left.
    + done.
    + eapply children_frame, Hr. intros p Hp. apply G8; [exact (children_in_store _ _ _ _ _ _ Hr Hp)|].
      intros Hpc. by apply (Hdr p Hpc).
  - rewrite !head_key_app, G2. done.
  - rewrite !head_leaf_app, G3. by destruct l.
  - change (kvs (BNode pid ?x)) with (cs_kvs x). rewrite !cs_kvs_app, G4.
    change (cs_kvs ((k, c) :: r)) with (kvs c ++ cs_kvs r).
    rewrite put_app_l by (intros e He%Hbl; lia).
    by rewrite put_app_r by (intros e He%Hbr; lia).
  - rewrite !cs_pids_app, G5. change (cs_pids ((k, c) :: r)) with (pids c ++ cs_pids r).
    by rewrite <- !app_assoc, (Permutation_app_comm new).
  - done.
  - done.
  - intros q Hq Hn. apply G8; [done|]. intros Hqc. apply Hn. right.
    eapply (elem_of_cs_pids k c); [|done]. apply elem_of_app. right. by left.
  - done.
  - done.
Qed.

(** The children of a node have grown, and its page holds them. *)
Lemma grown_node h lo hi nxt pid cs key rid st st1 cs' new d k0 :
  grown h lo hi nxt (BNode pid cs) (cs_pids cs) key rid st st1 cs' new →
  st1 !! pid = Some d → internal_page d (node_ents k0 cs') → 0 ≤ pid → cs' ≠ [] →
  Z.of_nat (length cs') ≤ imax →
  grown (Datatypes.S h) lo hi nxt (BNode pid cs) (pids (BNode pid cs)) key rid st st1
    [(lo, BNode pid cs')] new.
Proof.
  intros [G1 G2 G3 G4 G5 G6 G7 G8 G9 G10] Hd Hp H0 Hne Hlen. split; try done.
  - cbn. split_and!; [eauto|done|done|done|done|done| |done].
    destruct cs' as [|[k1 c1] cs']; [done|]. cbn in G2. subst k1.
    by destruct (children_le _ _ _ _ lo c1 G1 (list_elem_of_here _ _)).
  - destruct cs' as [|[k1 c1] cs']; done.
  - cbn. by rewrite app_nil_r.
  - cbn. rewrite app_nil_r. by rewrite G5.
Qed.

(** The node's own page is written. *)
Lemma grown_write h lo hi nxt pid cs key rid st st1 cs' new d' :
  grown h lo hi nxt (BNode pid cs) (cs_pids cs) key rid st st1 cs' new →
  pid ∉ cs_pids cs' → is_Some (st1 !! pid) →
  grown h lo hi nxt (BNode pid cs) (cs_pids cs) key rid st (<[pid := d']> st1) cs' new.
Proof.
  intros [G1 G2 G3 G4 G5 G6 G7 G8 G9 G10] Hni Hin. split; try done.
  - eapply children_frame, G1. intros p Hp. rewrite lookup_insert_ne; [done|congruence].
  - intros q Hq Hn. rewrite lookup_insert_ne; [by apply G8|]. intros <-. apply Hn. by left.
  - intros q Hq. rewrite lookup_insert. case_decide; eauto.
  - by rewrite map_size_insert_Some.
Qed.

(** The entries of a node whose child at [k] has split. *)
Lemma node_ents_insert (R : Z → Z → Z → btree → Prop) k0 l k c t1 sep t2 r hi nxt :
  children R (l ++ (k, t1) :: (sep, t2) :: r) hi nxt → root_pid t1 = root_pid c →
  ∃ e0 ents, node_ents k0 (l ++ (k, c) :: r) = e0 :: ents ∧
    node_ents k0 (l ++ (k, t1) :: (sep, t2) :: r) = e0 :: ins_entry sep (root_pid t2) ents.
Proof.
  intros Hcs Ht. set (f := prod_map id root_pid : Z * btree → Z * Z).
  assert (Hkr : ∀ e, e ∈ f <$> r → sep < e.1).
  { intros e ([k' c'] & -> & Hin)%list_elem_of_fmap. cbn.
    apply children_app in Hcs as (_ & _ & _ & _ & Hs & Hr). cbn in Hs.
    pose proof (children_le _ _ _ _ _ _ Hr Hin). lia. }
  assert (Hkl : ∀ e, e ∈ f <$> (l ++ [(k, c)]) → e.1 ≤ sep).
  { intros e ([k' c'] & -> & Hin)%list_elem_of_fmap. cbn.
    apply children_app in Hcs as (Hl & _ & Hk & _). cbn in Hl, Hk.
    apply elem_of_app in Hin as [Hin|[= -> ->]%list_elem_of_singleton]; [|lia].
    pose proof (children_le _ _ _ _ _ _ Hl Hin). lia. }
  destruct l as [|[k' c'] l].
  - exists (k0, root_pid c), (f <$> r). split; [done|].
    cbn [node_ents app snd]. rewrite Ht. f_equal. symmetry.
    pose proof (ins_entry_between sep (root_pid t2) [] (f <$> r)) as Hi.
    cbn [app] in Hi. rewrite Hi; [done| |done]. by intros e ?%elem_of_nil.
  - exists (k0, root_pid c'), (f <$> (l ++ (k, c) :: r)). split; [done|].
    cbn [node_ents app snd]. f_equal. rewrite (cons_middle (k, c)), app_assoc, (fmap_app _ (l ++ _)).
    rewrite ins_entry_between; [|intros e He; apply Hkl; by right|done].
    rewrite !fmap_app. cbn. rewrite <- app_assoc. cbn. unfold f, prod_map. cbn. by rewrite Ht.
Qed.

(** The node is split, its upper half going to the new page [np]. *)
(** Children cut in two at position [m]: the separator lies strictly between the
    bounds. *)
Lemma children_cut st h lo hi nxt cs m sep c :
  children (tree_rep st h) cs hi nxt → head_key hi cs = lo → (1 ≤ m)%nat → cs !! m = Some (sep, c) →
  children (tree_rep st h) (take m cs) sep (head_leaf nxt (drop m cs)) ∧
  children (tree_rep st h) (drop m cs) hi nxt ∧ head_key sep (take m cs) = lo ∧ lo < sep ∧ sep < hi.
Proof.
  intros Hst G2 Hm Hc. pose proof (lookup_lt_Some _ _ _ Hc) as Hml. pose proof (drop_S _ _ _ Hc) as Hdr.
  rewrite <- (take_drop m cs) in Hst. apply children_app in Hst as [Htk Hdp].
  assert (Hhk : head_key sep (take m cs) = lo).
  { rewrite <- G2. rewrite <- (take_drop m cs) at 2. by rewrite head_key_app, Hdr. }
  rewrite Hdr in Htk. cbn [head_key fst] in Htk. rewrite <- Hdr in Htk.
  split_and!; [exact Htk|exact Hdp|done| |].
  - destruct (take m cs) as [|[k1 c1] q] eqn:E; [|cbn in Hhk; subst k1].
    + apply (f_equal length) in E. rewrite length_take in E. cbn in E. lia.
    + by destruct (children_le _ _ _ _ lo c1 Htk (list_elem_of_here _ _)).
  - eapply (children_le _ _ _ _ sep c Hdp). rewrite Hdr. by left.
Qed.

Lemma grown_split h lo hi nxt pid cs key rid st st1 cs' new d' n' k0 m sep c np :
  grown h lo hi nxt (BNode pid cs) (cs_pids cs) key rid st st1 cs' new →
  pid ∉ cs_pids cs' → is_Some (st1 !! pid) → st1 !! np = None → np ≠ pid → 0 ≤ np → 0 ≤ pid →
  (1 ≤ m)%nat → cs' !! m = Some (sep, c) → Z.of_nat (length cs') ≤ imax + 1 →
  internal_page d' (node_ents k0 (take m cs')) → internal_page n' (node_ents 0 (drop m cs')) →
  grown (Datatypes.S h) lo hi nxt (BNode pid cs) (pids (BNode pid cs)) key rid st
    (<[pid := d']> (<[np := n']> st1))
    [(lo, BNode pid (take m cs')); (sep, BNode np (drop m cs'))] (new ++ [np]).
Proof.
  intros [G1 G2 G3 G4 G5 G6 G7 G8 G9 G10] Hni Hsm Hnp Hne H1 H0 Hm Hc Hlen Hd Hn.
  assert (Hnn : st !! np = None).
  { apply eq_None_not_Some. intros Hs%G9. rewrite Hnp in Hs. by destruct Hs. }
  assert (Hnp' : np ∉ cs_pids cs').
  { intros Hin. destruct (children_in_store _ _ _ _ _ _ G1 Hin). congruence. }
  assert (Hst : children (tree_rep (<[pid := d']> (<[np := n']> st1)) h) cs' hi nxt).
  { eapply children_frame, G1. intros p Hp. rewrite !lookup_insert_ne; congruence. }
  pose proof (lookup_lt_Some _ _ _ Hc) as Hml. pose proof (drop_S _ _ _ Hc) as Hdr.
  destruct (children_cut _ _ lo hi nxt cs' m sep c Hst G2 Hm Hc) as (Htk & Hdp & Hhk & Hlt & Hhi).
  rewrite Hdr in Htk. cbn in Htk.
  split.
  - cbn. rewrite Hdr at 1. cbn. split_and!; [|done| |done|rewrite length_take; lia| |done| |done| | | | |done|done].
    + exists d', k0. by rewrite lookup_insert_eq.
    + intros E. apply (f_equal length) in E. rewrite length_take in E. cbn in E. lia.
    + exact Htk.
    + exists n', 0. by rewrite lookup_insert_ne, lookup_insert_eq.
    + by rewrite Hdr.
    + by rewrite Hdr.
    + rewrite length_drop. lia.
    + done.
  - done.
  - rewrite <- G3. destruct cs' as [|x cs']; [done|]. destruct m as [|m]; [lia|]. done.
  - rewrite <- G4. cbn. rewrite app_nil_r. change (concat (map ?f ?x)) with (cs_kvs x).
    by rewrite <- cs_kvs_app, take_drop.
  - cbn. rewrite app_nil_r. change (concat (map ?f ?x)) with (cs_pids x).
    rewrite <- Permutation_middle, <- cs_pids_app, take_drop, G5.
    rewrite app_assoc, (Permutation_app_comm _ [np]). done.
  - apply NoDup_app. split_and!; [done| |apply NoDup_singleton].
    intros q Hq ->%list_elem_of_singleton. apply Hnp'. rewrite G5. apply elem_of_app. by right.
  - intros q [Hq|Hq%list_elem_of_singleton]%elem_of_app; [auto|by subst].
  - intros q Hq Hn'. rewrite !lookup_insert_ne; [by apply G8|..].
    + intros <-. rewrite Hnn in Hq. by destruct Hq.
    + intros <-. apply Hn'. by left.
  - intros q Hq%G9. rewrite !lookup_insert. repeat case_decide; eauto.
  - rewrite map_size_insert_Some, map_size_insert_None; [rewrite length_app; cbn; lia|done|by rewrite lookup_insert_ne].
Qed.

(** The split of an internal node whose page holds one entry too many. *)
Lemma node_split_post s s2 st st1 pins pid fid h lo hi nxt cs key rid cs' new d' k0 :
  pc_rep s2 (<[pid := d']> st1) (pin_write (pin_inc pins pid) pid) → pins !! pid = None →
  pc_at s2 pid fid → grown h lo hi nxt (BNode pid cs) (cs_pids cs) key rid st st1 cs' new →
  is_Some (st1 !! pid) → internal_page d' (node_ents k0 cs') → pid ∉ cs_pids cs' → 0 ≤ pid →
  Z.of_nat (length cs') = imax + 1 → 3 ≤ imax → (all_filled lmax imax cs → all_filled lmax imax cs') →
  Z.of_nat (size st1) + 1 < 2 ^ 31 →
  (size st ≤ size st1 ≤ size st + Datatypes.S h)%nat → (size pins + 1 < pc_cap s2)%nat →
  pc_cap s2 = pc_cap s →
  ∃ s' st' r, split_page "BPlusTree — buffer pool full during internal split"
      (Internal_Init INVALID_PAGE_ID) (λ _, split_internal) pid fid s2 = (s', Ok r) ∧
    ins_post (Datatypes.S h) lo hi nxt (BNode pid cs) key rid s s' st st' pins r.
Proof.
  intros Hr2 Hun Hat G Hsome Hp' Hni H0 Hlen H3' Hocc Hsz Hszs Hcap Hc2.
  assert (Hsz' : size (<[pid := d']> st1) = size st1) by (by apply map_size_insert_Some).
  destruct (Internal_Init_spec INVALID_PAGE_ID (memset PAGE_SIZE NUL) (memset_length _ _))
    as (n0 & Hn0 & Hp0).
  destruct (half_bounds (length cs')) as [Hm1 Hm2]; [lia|]. set (m := (length cs' / 2)%nat) in *.
  destruct (lookup_lt_is_Some_2 cs' m Hm2) as [[sep c] Hc].
  destruct (split_internal_spec d' n0 (node_ents k0 cs') sep (root_pid c) INVALID_PAGE_ID Hp' Hp0)
    as (d2 & n' & Hsp & Hq & Hq').
  { rewrite length_node_ents. lia. }
  { rewrite length_node_ents. by apply node_ents_lookup. }
  rewrite length_node_ents in Hq, Hq'. fold m in Hq, Hq'.
  rewrite <- node_ents_take in Hq. rewrite <- (node_ents_drop k0 0 cs' m sep c Hc) in Hq'.
  destruct (split_page_spec s2 (<[pid := d']> st1) pins pid fid d'
    "BPlusTree — buffer pool full during internal split" (Internal_Init INVALID_PAGE_ID)
    (λ _, split_internal) n0 d2 n' sep) as (s3 & H3 & Hc3 & Hnone & Hr3);
    [done|done|done|by rewrite lookup_insert_eq|lia|lia|done|apply Hp0|done|apply Hq|apply Hq'|].
  rewrite Hsz' in *. set (np := Z.of_nat (size st1)) in *.
  assert (Hne : pid ≠ np) by (intros ->; by rewrite lookup_insert_eq in Hnone).
  rewrite lookup_insert_ne in Hnone by done.
  rewrite (insert_insert_ne _ np pid), insert_insert_eq in Hr3 by done.
  eexists s3, _, _. split; [exact H3|]. split; [exact Hr3|congruence| |].
  - rewrite map_size_insert_Some, map_size_insert_None;
      [lia|done|by rewrite lookup_insert_ne].
  - exists [(lo, BNode pid (take m cs')); (sep, BNode np (drop m cs'))], (new ++ [np]).
    split; [|split; [exists lo; eexists _, _; split; [reflexivity|split; reflexivity]|by apply stays_node_split]].
    apply (grown_split h lo hi nxt pid cs key rid st st1 cs' new d2 n' k0 m sep c np);
      [exact G|exact Hni|exact Hsome|exact Hnone|congruence|apply Zle_0_nat|exact H0|exact Hm1|exact Hc|lia|
       exact Hq|exact Hq'].
Qed.

Lemma insert_separator_spec s s1 st st1 pins pid h lo hi nxt cs key rid cs' new d k0 e0 ents sp :
  pc_rep s1 st1 pins → pins_low pins → (size pins + 1 < pc_cap s1)%nat → pc_cap s1 = pc_cap s →
  pins !! pid = None → 3 ≤ imax → Z.of_nat (size st1) + 1 < 2 ^ 31 →
  (size st ≤ size st1 ≤ size st + Datatypes.S h)%nat →
  grown h lo hi nxt (BNode pid cs) (cs_pids cs) key rid st st1 cs' new →
  st1 !! pid = Some d → internal_page d (e0 :: ents) →
  node_ents k0 cs' = e0 :: ins_entry (split_key sp) (right_pid sp) ents →
  internal_ok (split_key sp, right_pid sp) → pid ∉ cs_pids cs' → 0 ≤ pid →
  length cs' = Datatypes.S (length cs) → Z.of_nat (length cs') ≤ imax + 1 →
  Z.of_nat (length cs') ≤ CAPACITY InternalPage → (all_filled lmax imax cs → all_filled lmax imax cs') →
  ∃ s' st' r, insert_separator imax pid sp s1 = (s', Ok r) ∧
    ins_post (Datatypes.S h) lo hi nxt (BNode pid cs) key rid s s' st st' pins r.
Proof.
  intros Hr Hlow Hcap Hcs Hun Himax Hsz Hszs G Hd Hp Hents Hok Hni H0 Hgrow Hlen Hroom Hocc.
  assert (Hle : length cs' = Datatypes.S (Datatypes.S (length ents))).
  { rewrite <- (length_node_ents k0), Hents. cbn. by rewrite length_ins_entry. }
  destruct (pc_fetch_read s1 st1 pins pid d Hr Hlow ltac:(lia) Hd)
    as (s2 & fid & _ & Hf & _ & _ & _ & _ & Hr2 & Hat & Hc2).
  destruct (Internal_InsertEntry_spec (split_key sp) (right_pid sp) d e0 ents Hp) as (d' & Hd' & Hp');
    [cbn [length]; lia|done|]. rewrite <- Hents in Hp'.
  pose proof (np_holds _ _ Hp') as Hh'.
  destruct (poke_spec s2 st1 (pin_inc pins pid) pid fid d d' _ Hr2 (pin_inc_lookup _ _) Hat Hd Hd')
    as (s3 & H3 & Hc3 & Hk3 & Hr3).
  { by rewrite (nh_len _ _ _ Hh'), (nh_len _ _ _ (np_holds _ _ Hp)). }
  apply Hk3 in Hat.
  destruct (pc_read_spec s3 _ _ pid fid Hr3 (pin_write_lookup _ _ _ (pin_inc_lookup _ _)) Hat)
    as (x & Hx & Hrd3). rewrite lookup_insert_eq in Hx. injection Hx as <-.
  unfold insert_separator.
  rewrite (bindM_Ok _ _ _ _ _ Hf), (bindM_def (Some fid) fid _ _ eq_refl), (bindM_Ok _ _ _ _ _ H3).
  rewrite (bindM_Ok _ _ _ _ _ Hrd3), (bindM_def _ _ _ _ (nh_size _ _ _ Hh')), length_node_ents.
  destruct (Z.leb_spec (Z.of_nat (length cs')) imax) as [Hfit|Hbig].
  - destruct (unpin_written s3 _ pins pid Hun Hr3) as (s4 & H4 & Hc4 & Hr4).
    rewrite (bindM_Ok _ _ _ _ _ H4). exists s4, (<[pid := d']> st1), None. split; [done|].
    split; [done|congruence|rewrite map_size_insert_Some by eauto; lia|].
    exists [(lo, BNode pid cs')], new.
    split; [|split; [by exists lo, (BNode pid cs')|apply stays_node; [lia|done]]].
    eapply grown_node; [apply grown_write; eauto|apply lookup_insert_eq|exact Hp'|done| |done].
    intros ->. by cbn in Hle.
  - destruct (node_split_post s s3 st st1 pins pid fid h lo hi nxt cs key rid cs' new d' k0)
      as (s4 & st' & r & H4 & Hpost);
      [done|done|done|done|eauto|done|done|done|lia|lia|done|lia|lia|lia|congruence|].
    rewrite H4. eauto.
Qed.

Lemma root_in_pids t : root_pid t ∈ pids t.
Proof. destruct t; by left. Qed.

Lemma first_leaf_in_pids st h lo hi nxt t : tree_rep st h lo hi nxt t → first_leaf t ∈ pids t.
Proof.
  revert lo hi nxt t. induction h as [|h IH]; intros lo hi nxt [pid l|pid cs]; try done.
  - intros _. by left.
  - intros (_ & _ & Hne & _ & _ & Hcs). destruct cs as [|[k c] cs]; [done|].
    destruct Hcs as (Hc & _). cbn. right. apply elem_of_app. left. by eapply IH.
Qed.

(** Page ids of the tree are small. *)
Lemma stored_pid s st pins p :
  pc_rep s st pins → is_Some (st !! p) → Z.of_nat (size st) < 2 ^ 31 → s32_range p ∧ 0 ≤ p.
Proof. intros Hr [d Hd] Hsz. pose proof (pc_rep_page _ _ _ _ _ Hr Hd). unfold s32_range. lia. Qed.

Lemma next_leaf_range s st pins h cs hi nxt :
  pc_rep s st pins → Z.of_nat (size st) < 2 ^ 31 → children (tree_rep st h) cs hi nxt →
  s32_range nxt → s32_range (head_leaf nxt cs).
Proof.
  intros Hr Hsz Hcs Hn. destruct cs as [|[k c] cs]; [done|]. destruct Hcs as (Hc & _). cbn.
  eapply stored_pid; [done| |done]. eapply tree_in_store; [done|by eapply first_leaf_in_pids].
Qed.

(** The node [pid] after its child [c] has grown into [rs]. *)
Lemma child_grown_post s s1 st st1 pins h lo hi nxt pid l k c r key rid d k0 sp :
  pc_rep s st pins → pins_low pins → (size pins + 1 < pc_cap s)%nat →
  2 ≤ lmax → 3 ≤ imax → Z.of_nat (size st) + Z.of_nat h + 2 < 2 ^ 31 →
  - 2 ^ 31 ≤ lo → hi ≤ 2 ^ 31 → all_filled lmax imax (l ++ (k, c) :: r) →
  room lmax imax (length (put key rid (kvs (BNode pid (l ++ (k, c) :: r))))) →
  tree_rep st (Datatypes.S h) lo hi nxt (BNode pid (l ++ (k, c) :: r)) →
  NoDup (pids (BNode pid (l ++ (k, c) :: r))) → pins !! pid = None →
  st !! pid = Some d → internal_page d (node_ents k0 (l ++ (k, c) :: r)) →
  k ≤ key < head_key hi r →
  ins_post h k (head_key hi r) (head_leaf nxt r) c key rid s s1 st st1 pins sp →
  ∃ s' st' res,
    match sp with
    | None => retM None
    | Some split => insert_separator imax pid split
    end s1 = (s', Ok res) ∧
    ins_post (Datatypes.S h) lo hi nxt (BNode pid (l ++ (k, c) :: r)) key rid s s' st st' pins res.
Proof.
  intros Hr Hlow Hcap Hlmax Himax Hsz Hlo Hhi Hfill Hroom Ht Hnd Hun Hd Hp Hk
    [Hr1 Hc1 Hsz1 (rs & new & G & Hshape & Hocc)].
  destruct Ht as (_ & H0 & _ & Hlo' & Hlen & Hcs). apply NoDup_cons in Hnd as [Hni Hnd].
  change (pid ∉ cs_pids (l ++ (k, c) :: r)) in Hni.
  pose proof (regrow h hi nxt pid l k c r key rid st st1 rs new Hcs Hk Hnd G) as G'.
  rewrite Hlo' in G'. pose proof (stays_child lmax imax l k c rs r Hocc) as Hkeep.
  assert (Hpc : pid ∉ pids c).
  { intros Hin. apply Hni. eapply (elem_of_cs_pids k c); [|done]. apply elem_of_app. right. by left. }
  assert (Hd1 : st1 !! pid = Some d) by (rewrite (gr_frame _ _ _ _ _ _ _ _ _ _ _ _ G); eauto).
  assert (Hni' : pid ∉ cs_pids (l ++ rs ++ r)).
  { rewrite (gr_pids _ _ _ _ _ _ _ _ _ _ _ _ G'), elem_of_app. intros [?|Hin]; [done|].
    apply (gr_new _ _ _ _ _ _ _ _ _ _ _ _ G') in Hin. congruence. }
  pose proof (gr_lo _ _ _ _ _ _ _ _ _ _ _ _ G) as Hk'. destruct sp as [sp|].
  - destruct Hshape as (k' & t1 & t2 & -> & Ht1 & Ht2). cbn in Hk'. subst k'.
    pose proof (gr_children _ _ _ _ _ _ _ _ _ _ _ _ G') as Hch. cbn [app] in Hch, G', Hni'.
    destruct (node_ents_insert _ k0 l k c t1 (split_key sp) t2 r hi nxt Hch Ht1)
      as (e0 & ents & He & He'). rewrite He in Hp. rewrite Ht2 in He'.
    assert (Hin : (split_key sp, t2) ∈ l ++ (k, t1) :: (split_key sp, t2) :: r)
      by (apply elem_of_app; right; right; by left).
    pose proof (children_le _ _ _ _ _ _ Hch Hin) as Hsep.
    rewrite (gr_lo _ _ _ _ _ _ _ _ _ _ _ _ G') in Hsep.
    assert (Hst2 : is_Some (st1 !! root_pid t2)).
    { eapply children_in_store; [exact Hch|]. eapply elem_of_cs_pids; [exact Hin|apply root_in_pids]. }
    destruct (stored_pid s1 st1 pins _ Hr1 Hst2) as [Hrp _]; [lia|].
    assert (Hlen' : length (l ++ (k, t1) :: (split_key sp, t2) :: r) = Datatypes.S (length (l ++ (k, c) :: r)))
      by (rewrite !length_app; cbn; lia).
    eapply (insert_separator_spec s s1 st st1 pins pid h lo hi nxt); try done; [lia|lia| |lia|].
    + split; cbn; [unfold s32_range; lia|by rewrite <- Ht2].
    + eapply (room_children lmax imax); [done|done|exact Hroom|by apply Hkeep| |lia].
      by rewrite (gr_kvs _ _ _ _ _ _ _ _ _ _ _ _ G').
  - destruct Hshape as (k' & t' & -> & Ht'). cbn in Hk'. subst k'. cbn [app] in G', Hni'.
    exists s1, st1, None. split; [done|]. split; [done|done|lia|].
    exists [(lo, BNode pid (l ++ (k, t') :: r))], new.
    split; [|split; [by eexists _, _|apply stays_node; [by rewrite !length_app|exact Hkeep]]].
    eapply grown_node; [done|done| |done| |].
    + by rewrite (node_ents_keep _ _ _ c).
    + by destruct l.
    + rewrite length_app in *. done.
Qed.

(** The keys below a child are among those of its node. *)
Lemma put_child_length st h hi nxt pid l k c r key rid :
  children (tree_rep st h) (l ++ (k, c) :: r) hi nxt → k ≤ key < head_key hi r →
  (length (put key rid (kvs c)) ≤ length (put key rid (kvs (BNode pid (l ++ (k, c) :: r)))))%nat.
Proof.
  intros Hcs Hkey. destruct (children_bounds _ _ _ _ _ _ _ l k c r Hcs eq_refl) as [Hbl Hbr].
  change (kvs (BNode pid ?x)) with (cs_kvs x). rewrite cs_kvs_app.
  change (cs_kvs ((k, c) :: r)) with (kvs c ++ cs_kvs r).
  rewrite put_app_l by (intros e He%Hbl; lia). rewrite put_app_r by (intros e He%Hbr; lia).
  rewrite !length_app. lia.
Qed.

Lemma InsertInPage_spec h s st pins lo hi nxt t key rid fuel :
  pc_rep s st pins → pins_low pins → (size pins + 1 < pc_cap s)%nat →
  2 ≤ lmax ≤ CAPACITY LeafPage → 3 ≤ imax →
  Z.of_nat (size st) + Z.of_nat h + 1 < 2 ^ 31 →
  root_filled lmax imax t → room lmax imax (length (put key rid (kvs t))) →
  tree_rep st h lo hi nxt t → NoDup (pids t) → (∀ p, p ∈ pids t → pins !! p = None) →
  lo ≤ key < hi → leaf_ok (key, rid) → s32_range nxt → - 2 ^ 31 ≤ lo → hi ≤ 2 ^ 31 →
  (h < fuel)%nat →
  ∃ s' st' r, InsertInPage lmax imax fuel key rid (root_pid t) s = (s', Ok r) ∧
    ins_post h lo hi nxt t key rid s s' st st' pins r.
Proof.
  intros Hr Hlow Hcap Hlmax Himax. revert s lo hi nxt t fuel Hr Hcap.
  induction h as [|h IH]; intros s lo hi nxt [pid l|pid cs] fuel Hr Hcap Hsz Hfill Hroom Ht Hnd Hun Hkey Hok Hnxt
    Hlo Hhi Hfuel; try done; (destruct fuel as [|fuel]; [lia|]); cbn [InsertInPage root_pid].
  - pose proof Ht as ((d & Hd & Hp) & _).
    destruct (pc_fetch_read s st pins pid d Hr Hlow ltac:(lia) Hd)
      as (s1 & fid & s2 & Hf & Hrd & Hu & Hr2 & Hc2 & _).
    rewrite (bindM_Ok _ _ _ _ _ Hf), (bindM_Ok _ _ _ _ _ Hrd), (bindM_def _ _ _ _ (lp_type _ _ _ Hp)).
    rewrite (bindM_Ok _ _ _ _ _ Hu), Z.eqb_refl.
    destruct (InsertInLeaf_spec s2 st pins pid l lo hi nxt key rid)
      as (s' & st' & r & H' & [P1 P2 P3 P4]);
      [done|done|lia|apply Hun; by left|done|lia|done|done|done|done|].
    exists s', st', r. split; [done|]. split; [done|congruence|done|done].
  - pose proof Ht as ((d & k0 & Hd & Hp) & _ & Hne & Hlo' & _ & Hcs).
    destruct (pc_fetch_read s st pins pid d Hr Hlow ltac:(lia) Hd)
      as (s1 & fid & s2 & Hf & Hrd & Hu & Hr2 & Hc2 & _).
    rewrite (bindM_Ok _ _ _ _ _ Hf), (bindM_Ok _ _ _ _ _ Hrd), (bindM_def _ _ _ _ (np_type _ _ Hp)).
    rewrite (bindM_Ok _ _ _ _ _ Hu). cbn [Z.eqb NODE_LEAF NODE_INTERNAL]. unfold InsertInInternal.
    destruct (pc_fetch_read s2 st pins pid d Hr2 Hlow ltac:(lia) Hd)
      as (s3 & fid' & s4 & Hf' & Hrd' & Hu' & Hr4 & Hc4 & _).
    destruct (lookup_child _ cs hi nxt key d k0 Hcs Hne ltac:(lia) Hp)
      as (l & k & c & r & -> & Hk & Hlk).
    rewrite (bindM_Ok _ _ _ _ _ Hf'), (bindM_def (Some fid') fid' _ _ eq_refl), (bindM_Ok _ _ _ _ _ Hrd').
    rewrite (bindM_def _ _ _ _ Hlk), (bindM_Ok _ _ _ _ _ Hu').
    pose proof Hcs as (_ & Hc & _ & Hcr)%children_app.
    assert (Hin : (k, c) ∈ l ++ (k, c) :: r) by (apply elem_of_app; right; by left).
    pose proof (children_le _ _ _ _ _ _ Hcs Hin) as Hkb.
    assert (Hhr : head_key hi r ≤ hi).
    { destruct r as [|[k1 c1] r]; [done|].
      by destruct (children_le _ _ _ _ k1 c1 Hcr (list_elem_of_here _ _)); cbn; lia. }
    destruct Hfill as [_ Hfill]. pose proof Hfill as [_ [Hfc _]%Forall_cons]%Forall_app.
    destruct (IH s4 k (head_key hi r) (head_leaf nxt r) c fuel Hr4) as (s5 & st5 & sp & H5 & Hpost);
      [lia|lia|by apply filled_root| |exact Hc| | |lia|done| |lia|lia|lia|].
    + eapply room_le; [|exact Hroom]. eapply put_child_length; [exact Hcs|lia].
    + apply NoDup_cons in Hnd as [_ Hnd]. change (NoDup (cs_pids (l ++ (k, c) :: r))) in Hnd.
      rewrite cs_pids_app in Hnd. by apply NoDup_app in Hnd as (_ & _ & (? & _)%NoDup_app).
    + intros p Hp'. apply Hun. right. by eapply elem_of_cs_pids.
    + by eapply next_leaf_range; [done|lia|done|].
    + rewrite (bindM_Ok _ _ _ _ _ H5).
      destruct (child_grown_post s4 s5 st st5 pins h lo hi nxt pid l k c r key rid d k0 sp)
        as (s' & st' & res & H' & [P1 P2 P3 P4]);
        [done|done|lia|lia|done|lia|done|done|done|done|done|done|apply Hun; by left|done|done|done|done|].
      exists s', st', res. split; [done|]. split; [done|congruence|done|done].
Qed.

(** ** The root *)
Lemma bind_on_cache {A B} (m : M S A) (k : A → M (BPlusTree * S) B) bt s s' a :
  m s = (s', Ok a) → bindM (on_cache m) k (bt, s) = k a (bt, s').
Proof. intros Hm. unfold bindM, on_cache, zoomM. cbn. by rewrite Hm. Qed.

(** The first leaf of an empty tree. *)
Lemma first_leaf_spec s st pins key rid :
  pc_rep s st pins → (size pins < pc_cap s)%nat → Z.of_nat (size st) + 1 < 2 ^ 31 →
  2 ≤ lmax → leaf_ok (key, rid) →
  ∃ s1 fid s2 s3 s4 d, let pid := Z.of_nat (size st) in
    pc_new s = (s1, Ok (Some (pid, fid))) ∧
    poke fid (Leaf_Init INVALID_PAGE_ID) s1 = (s2, Ok tt) ∧
    poke fid (Leaf_InsertEntry key rid) s2 = (s3, Ok tt) ∧
    pc_unpin pid true s3 = (s4, Ok true) ∧ pc_cap s4 = pc_cap s ∧ st !! pid = None ∧
    pc_rep s4 (<[pid := d]> st) pins ∧
    tree_rep (<[pid := d]> st) 0 (- 2 ^ 31) (2 ^ 31) INVALID_PAGE_ID (BLeaf pid [(key, rid)]).
Proof.
  intros Hr Hcap Hsz Hmax Hok. destruct (pc_new_spec s st pins Hr Hsz) as (s1 & r & Hn & Hc1 & _ & Hres).
  destruct r as [[pid fid]|]; [|destruct Hres; lia]. destruct Hres as (-> & Hnone & Hr1 & Hat).
  set (pid := Z.of_nat (size st)) in *.
  destruct (Leaf_Init_spec INVALID_PAGE_ID (memset PAGE_SIZE NUL) (memset_length _ _)) as (d0 & Hd0 & Hp0).
  destruct (poke_spec s1 _ _ pid fid _ d0 _ Hr1 (pin_inc_lookup _ _) Hat (lookup_insert_eq _ _ _) Hd0)
    as (s2 & H2 & Hc2 & Hk2 & Hr2); [rewrite memset_length; apply Hp0|].
  rewrite insert_insert_eq in Hr2.
  destruct (Leaf_InsertEntry_spec key rid d0 [] INVALID_PAGE_ID Hp0) as (d1 & Hd1 & Hp1);
    [done|done|by intros v ?%elem_of_nil|].
  destruct (poke_again s2 st pins pid fid d0 d1 _ Hr2 (Hk2 _ _ Hat) Hd1) as (s3 & H3 & Hc3 & _ & Hr3).
  { transitivity (Z.to_nat PAGE_SIZE); [apply Hp1|symmetry; apply Hp0]. }
  destruct (unpin_written s3 _ pins pid (pinned_in_store s st pins pid Hr Hnone) Hr3)
    as (s4 & H4 & Hc4 & Hr4).
  exists s1, fid, s2, s3, s4, d1. split_and!; [done..|congruence|done|done|].
  split_and!; [exists d1; split; [apply lookup_insert_eq|exact Hp1]|apply Zle_0_nat| | |cbn; lia].
  - apply keys_sorted_cons. split; [constructor|]. intros x []%elem_of_nil.
  - intros e ->%list_elem_of_singleton. apply Hok.
Qed.

(** A new root above two trees. *)
Lemma new_root_spec s st pins h hi nxt lo t1 sep t2 :
  pc_rep s st pins → (size pins < pc_cap s)%nat → Z.of_nat (size st) + 1 < 2 ^ 31 →
  3 ≤ imax → s32_range sep →
  children (tree_rep st h) [(lo, t1); (sep, t2)] hi nxt →
  ∃ s1 fid s2 s3 s4 s5 d, let pid := Z.of_nat (size st) in
    pc_new s = (s1, Ok (Some (pid, fid))) ∧
    poke fid (Internal_Init INVALID_PAGE_ID) s1 = (s2, Ok tt) ∧
    poke fid (set_first_child (root_pid t1)) s2 = (s3, Ok tt) ∧
    poke fid (Internal_InsertEntry sep (root_pid t2)) s3 = (s4, Ok tt) ∧
    pc_unpin pid true s4 = (s5, Ok true) ∧ pc_cap s5 = pc_cap s ∧ st !! pid = None ∧
    pc_rep s5 (<[pid := d]> st) pins ∧
    tree_rep (<[pid := d]> st) (Datatypes.S h) lo hi nxt (BNode pid [(lo, t1); (sep, t2)]).
Proof.
  intros Hr Hcap Hsz Hmax Hsep Hcs. destruct (pc_new_spec s st pins Hr Hsz) as (s1 & r & Hn & Hc1 & _ & Hres).
  destruct r as [[pid fid]|]; [|destruct Hres; lia]. destruct Hres as (-> & Hnone & Hr1 & Hat).
  set (pid := Z.of_nat (size st)) in *.
  destruct (Internal_Init_spec INVALID_PAGE_ID (memset PAGE_SIZE NUL) (memset_length _ _))
    as (d0 & Hd0 & Hp0).
  destruct (poke_spec s1 _ _ pid fid _ d0 _ Hr1 (pin_inc_lookup _ _) Hat (lookup_insert_eq _ _ _) Hd0)
    as (s2 & H2 & Hc2 & Hk2 & Hr2); [rewrite memset_length; apply Hp0|].
  rewrite insert_insert_eq in Hr2.
  assert (Hin : ∀ t, t = t1 ∨ t = t2 → s32_range (root_pid t)).
  { intros t Ht. eapply stored_pid; [exact Hr| |lia].
    eapply children_in_store; [exact Hcs|]. pose proof (root_in_pids t).
    destruct Ht as [->| ->]; (eapply elem_of_cs_pids; [|done]); [by left|right; by left]. }
  destruct (set_first_child_spec d0 0 INVALID_PAGE_ID [] (root_pid t1) Hp0) as (d1 & Hd1 & Hp1); [auto|].
  destruct (poke_again s2 st pins pid fid d0 d1 _ Hr2 (Hk2 _ _ Hat) Hd1) as (s3 & H3 & Hc3 & Hat3 & Hr3).
  { transitivity (Z.to_nat PAGE_SIZE); [apply Hp1|symmetry; apply Hp0]. }
  destruct (Internal_InsertEntry_spec sep (root_pid t2) d1 (0, root_pid t1) [] Hp1) as (d2 & Hd2 & Hp2);
    [done|split; cbn; auto|].
  destruct (poke_again s3 st pins pid fid d1 d2 _ Hr3 Hat3 Hd2) as (s4 & H4 & Hc4 & _ & Hr4).
  { transitivity (Z.to_nat PAGE_SIZE); [apply Hp2|symmetry; apply Hp1]. }
  destruct (unpin_written s4 _ pins pid (pinned_in_store s st pins pid Hr Hnone) Hr4)
    as (s5 & H5 & Hc5 & Hr5).
  exists s1, fid, s2, s3, s4, s5, d2. split_and!; [done..|congruence|done|done|].
  split_and!; [exists d2, 0; split; [apply lookup_insert_eq|exact Hp2]|apply Zle_0_nat|done|done|cbn; lia|].
  eapply children_frame, Hcs. intros p Hp. rewrite lookup_insert_ne; [done|].
  intros <-. destruct (children_in_store _ _ _ _ _ _ Hcs Hp). congruence.
Qed.
End methods.

(** ** The index object: the sorted list of its entries, its height and its pages *)
Record index_rep (bt : BPlusTree) (st : pages) (h : nat) (ps : list Z) (kv : list (Z * RID))
    : Prop := {
  ix_lmax : 2 ≤ leaf_max_size_ bt ≤ CAPACITY LeafPage;
  ix_imax : 3 ≤ internal_max_size_ bt ≤ CAPACITY InternalPage;
  ix_tree :
    (root_page_id_ bt = INVALID_PAGE_ID ∧ kv = [] ∧ ps = [] ∧ h = 0%nat) ∨
    ∃ t, root_page_id_ bt = root_pid t ∧ kv = kvs t ∧ ps = pids t ∧ NoDup ps ∧
      root_filled (leaf_max_size_ bt) (internal_max_size_ bt) t ∧
      tree_rep (leaf_max_size_ bt) (internal_max_size_ bt) st h (- 2 ^ 31) (2 ^ 31) INVALID_PAGE_ID t
}.

Lemma tree_height lmax imax st h lo hi nxt t :
  tree_rep lmax imax st h lo hi nxt t → (h < length (pids t))%nat.
Proof.
  revert lo hi nxt t. induction h as [|h IH]; intros lo hi nxt [pid l|pid cs]; try done.
  { intros _. cbn. lia. }
  intros (_ & _ & Hne & _ & _ & Hcs). destruct cs as [|[k c] cs]; [done|].
  destruct Hcs as (Hc & _). apply IH in Hc. cbn. rewrite length_app. lia.
Qed.

Lemma tree_root_nonneg lmax imax st h lo hi nxt t :
  tree_rep lmax imax st h lo hi nxt t → 0 ≤ root_pid t.
Proof. destruct h, t; try done; by intros (_ & ? & _). Qed.

Lemma index_sorted bt st h ps kv : index_rep bt st h ps kv → keys_sorted kv.
Proof.
  intros [_ _ [(_ & -> & _)|(t & _ & -> & _ & _ & _ & Ht)]]; [constructor|].
  by destruct (tree_kvs _ _ _ _ _ _ _ _ Ht).
Qed.

Lemma index_pages bt st h ps kv :
  index_rep bt st h ps kv → NoDup ps ∧ (∀ p, p ∈ ps → is_Some (st !! p)) ∧
  (h ≤ length ps)%nat ∧ (length ps ≤ size st)%nat ∧ (length ps ≤ 2 * length kv + 1)%nat.
Proof.
  intros [Hl Hi Ht]. assert (Hin : NoDup ps ∧ (∀ p, p ∈ ps → is_Some (st !! p)) ∧ (h ≤ length ps)%nat).
  { destruct Ht as [(_ & _ & -> & ->)|(t & _ & _ & -> & Hn & _ & Ht)].
    - split_and!; [constructor|by intros p ?%elem_of_nil|done].
    - split_and!; [done|intros p; by eapply tree_in_store|apply tree_height in Ht; lia]. }
  destruct Hin as (Hn & Hin & Hh). split_and!; [done..| |].
  2: { destruct Ht as [(_ & -> & -> & _)|(t & _ & -> & -> & _ & Hf & _)]; [cbn; lia|].
       apply (root_filled_pages (leaf_max_size_ bt) (internal_max_size_ bt)); [lia|lia|done]. }
  rewrite <- (size_dom st), <- (size_list_to_set (C := gset Z) _ Hn).
  apply subseteq_size. intros p Hp%elem_of_list_to_set. apply elem_of_dom. auto.
Qed.
