(* ===== verification/BPlusTreeTheorems.v ===== *)
(** * B+ tree: the methods of the index, and its theorems

    Stated for any page cache that meets the interface; the witnesses run them
    on the buffer pool. *)
From stdpp Require Import base gmap list strings sorting.
From Stdlib Require Import ZArith Lia Ascii.
From S2P Require Import Prelude Types DiskManager PageCache BufferPool BufferPoolSpec BufferPoolTheorems BPlusTree BPlusTreeNode BPlusTreeSpec.

Section index.
Context {S : Type} {PC : PageCache S} {PCS : PageCacheSpec S}.
Implicit Types (s : S) (st : pages) (pins : pinmap) (bt : BPlusTree).

(** What [Insert] does to the index and to the store. *)
Record insert_done bt bt' s s' st st' pins (h h' : nat) (ps ps' : list Z) (kv' : list (Z * RID))
    : Prop := {
  id_rep : pc_rep s' st' pins;
  id_cap : pc_cap s' = pc_cap s;
  id_index : index_rep bt' st' h' ps' kv';
  id_height : (h ≤ h' ≤ h + 1)%nat;
  id_size : (size st' + length ps = size st + length ps')%nat;
  id_frame q : is_Some (st !! q) → q ∉ ps → st' !! q = st !! q;
  id_pages q : q ∈ ps' → q ∈ ps ∨ st !! q = None;
  id_max : leaf_max_size_ bt' = leaf_max_size_ bt ∧ internal_max_size_ bt' = internal_max_size_ bt
}.

Lemma insert_first bt s st pins key rid fuel :
  pc_rep s st pins → (size pins < pc_cap s)%nat → Z.of_nat (size st) + 1 < 2 ^ 31 →
  leaf_ok (key, rid) → index_rep bt st 0 [] [] → root_page_id_ bt = INVALID_PAGE_ID →
  ∃ bt' s' st' ps', Insert fuel key rid (bt, s) = ((bt', s'), Ok tt) ∧
    insert_done bt bt' s s' st st' pins 0 0 [] ps' [(key, rid)].
Proof.
  intros Hr Hcap Hsz Hok [Hl Hi _] Hroot.
  destruct (first_leaf_spec (leaf_max_size_ bt) (internal_max_size_ bt) s st pins key rid)
    as (s1 & fid & s2 & s3 & s4 & d & H1 & H2 & H3 & H4 & Hc & Hnone & Hr4 & Ht); [done|done|lia|lia|done|].
  set (pid := Z.of_nat (size st)) in *.
  set (bt' := mkBPlusTree (name_ bt) pid (leaf_max_size_ bt) (internal_max_size_ bt)).
  exists bt', s4, (<[pid := d]> st), [pid]. split.
  - unfold Insert. rewrite bindM_get. cbn [fst]. rewrite Hroot, Z.eqb_refl.
    rewrite (bind_on_cache _ _ _ _ _ _ H1), (bind_on_cache _ _ _ _ _ _ H2).
    rewrite (bind_on_cache _ _ _ _ _ _ H3), (bind_on_cache _ _ _ _ _ _ H4). done.
  - split; [done|done| |lia|rewrite map_size_insert_None by done; cbn; lia|..].
    + split; [done|done|right]. exists (BLeaf pid [(key, rid)]).
      split_and!; [done|done|done|apply NoDup_singleton|done|exact Ht].
    + intros q [x Hq] _. rewrite lookup_insert_ne; [done|congruence].
    + intros q ->%list_elem_of_singleton. by right.
    + done.
Qed.

(** The pages of the grown tree. *)
Lemma grown_pages lmax imax h lo hi nxt t key rid st st' rs new :
  grown lmax imax h lo hi nxt t (pids t) key rid st st' rs new → NoDup (pids t) →
  (∀ p, p ∈ pids t → is_Some (st !! p)) →
  NoDup (cs_pids rs) ∧ (size st' + length (pids t) = size st + length (cs_pids rs))%nat ∧
  ∀ q, q ∈ cs_pids rs → q ∈ pids t ∨ st !! q = None.
Proof.
  intros G Hn Hin. pose proof (gr_pids _ _ _ _ _ _ _ _ _ _ _ _ _ _ G) as Hp. split.
  - rewrite Hp. apply NoDup_app. split_and!; [done| |apply G]. intros p Hp1 Hp2%G.
    destruct (Hin _ Hp1). congruence.
  - split; [|intros q; rewrite Hp, elem_of_app; intros [?|Hq%G]; auto].
    rewrite Hp, length_app, (gr_size _ _ _ _ _ _ _ _ _ _ _ _ _ _ G). lia.
Qed.

(** The index after a split of the root, under the new root [pid]. *)
Lemma root_split_done bt s s' st st1 pins key rid h t t1 sep t2 new pid d :
  2 ≤ leaf_max_size_ bt ≤ CAPACITY LeafPage → 3 ≤ internal_max_size_ bt ≤ CAPACITY InternalPage →
  grown (leaf_max_size_ bt) (internal_max_size_ bt) h (- 2 ^ 31) (2 ^ 31) INVALID_PAGE_ID t (pids t)
    key rid st st1 [(- 2 ^ 31, t1); (sep, t2)] new →
  NoDup (cs_pids [(- 2 ^ 31, t1); (sep, t2)]) →
  (∀ q, q ∈ cs_pids [(- 2 ^ 31, t1); (sep, t2)] → q ∈ pids t ∨ st !! q = None) →
  (size st1 + length (pids t) = size st + length (cs_pids [(- 2 ^ 31, t1); (sep, t2)]))%nat → st1 !! pid = None →
  all_filled (leaf_max_size_ bt) (internal_max_size_ bt) [(- 2 ^ 31, t1); (sep, t2)] →
  pc_rep s' (<[pid := d]> st1) pins → pc_cap s' = pc_cap s →
  tree_rep (leaf_max_size_ bt) (internal_max_size_ bt) (<[pid := d]> st1) (Datatypes.S h)
    (- 2 ^ 31) (2 ^ 31) INVALID_PAGE_ID (BNode pid [(- 2 ^ 31, t1); (sep, t2)]) →
  insert_done bt (mkBPlusTree (name_ bt) pid (leaf_max_size_ bt) (internal_max_size_ bt)) s s'
    st (<[pid := d]> st1) pins h (Datatypes.S h) (pids t)
    (pids (BNode pid [(- 2 ^ 31, t1); (sep, t2)])) (put key rid (kvs t)).
Proof.
  intros Hl Hi G Hn1 Hpg Hsz Hnone Hfill Hr Hc Ht. pose proof (gr_children _ _ _ _ _ _ _ _ _ _ _ _ _ _ G) as Hch.
  assert (Hpn : pid ∉ cs_pids [(- 2 ^ 31, t1); (sep, t2)]).
  { intros Hp. destruct (children_in_store _ _ _ _ _ _ _ _ Hch Hp). congruence. }
  assert (Hst : st !! pid = None).
  { apply eq_None_not_Some. intros Hs%(gr_mono _ _ _ _ _ _ _ _ _ _ _ _ _ _ G).
    rewrite Hnone in Hs. by destruct Hs. }
  split; [exact Hr|exact Hc| |lia| |..].
  - split; [exact Hl|exact Hi|right]. eexists. split_and!; [..|exact Ht]; [done| |done| |].
    + symmetry. exact (gr_kvs _ _ _ _ _ _ _ _ _ _ _ _ _ _ G).
    + apply NoDup_cons. split; [exact Hpn|exact Hn1].
    + by split.
  - rewrite map_size_insert_None by done.
    change (pids (BNode pid ?x)) with (pid :: cs_pids x). cbn [length]. lia.
  - intros q Hq Hq'. rewrite lookup_insert_ne; [by apply G|].
    intros <-. rewrite Hst in Hq. by destruct Hq.
  - intros q [->|Hq]%elem_of_cons; [by right|by apply Hpg].
  - done.
Qed.

Lemma insert_below bt s st pins key rid h t fuel :
  pc_rep s st pins → pins_low pins → (size pins + 1 < pc_cap s)%nat →
  Z.of_nat (size st) + Z.of_nat h + 2 < 2 ^ 31 → leaf_ok (key, rid) →
  2 ≤ leaf_max_size_ bt ≤ CAPACITY LeafPage → 3 ≤ internal_max_size_ bt ≤ CAPACITY InternalPage →
  root_page_id_ bt = root_pid t → NoDup (pids t) → (∀ p, p ∈ pids t → pins !! p = None) →
  root_filled (leaf_max_size_ bt) (internal_max_size_ bt) t →
  room (leaf_max_size_ bt) (internal_max_size_ bt) (length (put key rid (kvs t))) →
  tree_rep (leaf_max_size_ bt) (internal_max_size_ bt) st h (- 2 ^ 31) (2 ^ 31) INVALID_PAGE_ID t →
  (h < fuel)%nat →
  ∃ bt' s' st' h' ps', Insert fuel key rid (bt, s) = ((bt', s'), Ok tt) ∧
    insert_done bt bt' s s' st st' pins h h' (pids t) ps' (put key rid (kvs t)).
Proof.
  intros Hr Hlow Hcap Hsz Hok Hl Hi Hroot Hn Hun Hfill Hroom Ht Hfuel.
  assert (Hin : ∀ p, p ∈ pids t → is_Some (st !! p)) by (intros p; by eapply tree_in_store).
  destruct (InsertInPage_spec _ _ h s st pins _ _ _ t key rid fuel Hr Hlow Hcap Hl (proj1 Hi) ltac:(lia) Hfill Hroom Ht Hn Hun)
    as (s1 & st1 & r & H1 & [Hr1 Hc1 Hsz1 (rs & new & G & Hshape & [_ Hocc])]);
    [apply Hok|done|done|lia|lia|done|].
  destruct (grown_pages _ _ _ _ _ _ _ _ _ _ _ _ _ G Hn Hin) as (Hn1 & Hcount & Hpg). specialize (Hocc Hfill).
  pose proof (tree_root_nonneg _ _ _ _ _ _ _ _ Ht) as Hr0.
  unfold Insert. rewrite bindM_get. cbn [fst].
  rewrite Hroot, (proj2 (Z.eqb_neq _ INVALID_PAGE_ID)) by (unfold INVALID_PAGE_ID; lia).
  rewrite (bind_on_cache _ _ _ _ _ _ H1). pose proof (gr_children _ _ _ _ _ _ _ _ _ _ _ _ _ _ G) as Hch.
  destruct r as [sp|].
  - destruct Hshape as (k & t1 & t2 & -> & Ht1 & Ht2).
    pose proof (gr_lo _ _ _ _ _ _ _ _ _ _ _ _ _ _ G) as Hlo. cbn in Hlo. subst k.
    assert (Hsp : s32_range (split_key sp)).
    { assert (Hin2 : (split_key sp, t2) ∈ [(- 2 ^ 31, t1); (split_key sp, t2)]) by (right; by left).
      pose proof (children_le _ _ _ _ _ _ Hch Hin2). unfold s32_range. cbn in *. lia. }
    destruct (new_root_spec (leaf_max_size_ bt) (internal_max_size_ bt) s1 st1 pins h (2 ^ 31)
      INVALID_PAGE_ID (- 2 ^ 31) t1 (split_key sp) t2 Hr1) as
      (s2 & fid & s3 & s4 & s5 & s6 & d & A1 & A2 & A3 & A4 & A5 & Hc6 & Hnone & Hr6 & Ht6);
      [lia|lia|exact (proj1 Hi)|done|exact Hch|]. rewrite Ht1 in A3. rewrite Ht2 in A4.
    set (pid := Z.of_nat (size st1)) in *.
    eexists (mkBPlusTree (name_ bt) pid (leaf_max_size_ bt) (internal_max_size_ bt)), s6,
      (<[pid := d]> st1), (Datatypes.S h), (pids (BNode pid [(- 2 ^ 31, t1); (split_key sp, t2)])). split.
    { rewrite (bind_on_cache _ _ _ _ _ _ A1), (bind_on_cache _ _ _ _ _ _ A2).
      rewrite (bind_on_cache _ _ _ _ _ _ A3), (bind_on_cache _ _ _ _ _ _ A4).
      by rewrite (bind_on_cache _ _ _ _ _ _ A5). }
    eapply root_split_done; [exact Hl|exact Hi|exact G|exact Hn1|exact Hpg|exact Hcount|exact Hnone|exact Hocc|exact Hr6|
      congruence|exact Ht6].
  - destruct Hshape as (k & t' & -> & Ht'). exists bt, s1, st1, h, (pids t'). split; [done|].
    pose proof (gr_lo _ _ _ _ _ _ _ _ _ _ _ _ _ _ G) as Hlo. cbn in Hlo. subst k.
    cbn in Hn1, Hpg, Hcount. rewrite app_nil_r in *. destruct Hch as (Ht1 & _).
    split; [done|done| |lia|exact Hcount|apply G|exact Hpg|done].
    split; [exact Hl|exact Hi|right]. exists t'. split_and!; [congruence| |done|done|exact Hocc|exact Ht1].
    pose proof (gr_kvs _ _ _ _ _ _ _ _ _ _ _ _ _ _ G) as Hkv. cbn in Hkv.
    by rewrite app_nil_r in Hkv.
Qed.

Lemma Insert_spec bt s st pins key rid h ps kv fuel :
  pc_rep s st pins → pins_low pins → (size pins + 1 < pc_cap s)%nat →
  Z.of_nat (size st) + Z.of_nat h + 2 < 2 ^ 31 → leaf_ok (key, rid) →
  index_rep bt st h ps kv → (∀ p, p ∈ ps → pins !! p = None) →
  room (leaf_max_size_ bt) (internal_max_size_ bt) (length (put key rid kv)) → (h < fuel)%nat →
  ∃ bt' s' st' h' ps', Insert fuel key rid (bt, s) = ((bt', s'), Ok tt) ∧
    insert_done bt bt' s s' st st' pins h h' ps ps' (put key rid kv).
Proof.
  intros Hr Hlow Hcap Hsz Hok Hix Hun Hroom Hfuel. pose proof Hix as [Hl Hi Ht].
  destruct Ht as [(Hroot & -> & -> & ->)|(t & Hroot & -> & -> & Hn & Hfill & Ht)].
  - destruct (insert_first bt s st pins key rid fuel) as (bt' & s' & st' & ps' & H1 & H2);
      [done|lia|lia|done|done|done|]. eauto 10.
  - by apply insert_below.
Qed.

Lemma Search_spec bt s st pins key h ps kv fuel :
  pc_rep s st pins → pins_low pins → (size pins < pc_cap s)%nat → s32_range key →
  index_rep bt st h ps kv → (h < fuel)%nat →
  ∃ s', Search fuel bt key s = (s', Ok (lookup_key key kv)) ∧ pc_rep s' st pins ∧ pc_cap s' = pc_cap s.
Proof.
  intros Hr Hlow Hcap Hk [_ _ Ht] Hfuel. unfold Search.
  destruct Ht as [(-> & -> & -> & ->)|(t & -> & -> & -> & Hn & _ & Ht)].
  - rewrite Z.eqb_refl. by exists s.
  - pose proof (tree_root_nonneg _ _ _ _ _ _ _ _ Ht) as Hr0.
    rewrite (proj2 (Z.eqb_neq _ INVALID_PAGE_ID)) by (unfold INVALID_PAGE_ID; lia).
    by eapply search_from_spec.
Qed.

(** ** The chain of leaves *)
Definition head_pid (nxt : Z) (ls : list (Z * list (Z * RID))) : Z :=
  match ls with [] => nxt | (p, _) :: _ => p end.
Fixpoint leaves_in (st : pages) (ls : list (Z * list (Z * RID))) (nxt : Z) : Prop :=
  match ls with
  | [] => True
  | (p, l) :: ls =>
      (∃ d, st !! p = Some d ∧ leaf_page d l (head_pid nxt ls)) ∧ 0 ≤ p ∧ leaves_in st ls nxt
  end.

Lemma leaves_in_app st a b nxt :
  leaves_in st (a ++ b) nxt ↔ leaves_in st a (head_pid nxt b) ∧ leaves_in st b nxt.
Proof.
  induction a as [|[p l] a IH]; cbn; [tauto|]. rewrite IH.
  assert (Hh : head_pid nxt (a ++ b) = head_pid (head_pid nxt b) a) by (by destruct a as [|[??]?]).
  rewrite Hh. tauto.
Qed.

Lemma tree_leaves lmax imax st h lo hi nxt t :
  tree_rep lmax imax st h lo hi nxt t →
  leaves_in st (leaves t) nxt ∧ head_pid nxt (leaves t) = first_leaf t ∧
  kvs t = concat (leaves t).*2 ∧ (length (leaves t) ≤ length (pids t))%nat.
Proof.
  revert lo hi nxt t. induction h as [|h IH]; intros lo hi nxt [pid l|pid cs]; try done.
  { intros ((d & Hd & Hp) & H0 & _). cbn. rewrite app_nil_r. split_and!; eauto. }
  intros (_ & _ & Hne & _ & _ & Hcs).
  assert (Hgen : leaves_in st (cs_leaves cs) nxt ∧ head_pid nxt (cs_leaves cs) = head_leaf nxt cs ∧
    cs_kvs cs = concat (cs_leaves cs).*2 ∧ (length (cs_leaves cs) ≤ length (cs_pids cs))%nat).
  { clear Hne. induction cs as [|[k c] cs IHcs]; [done|]. destruct Hcs as (Hc & _ & Hcs).
    destruct (IHcs Hcs) as (A1 & A2 & A3 & A4). destruct (IH _ _ _ _ Hc) as (B1 & B2 & B3 & B4).
    change (cs_leaves ((k, c) :: cs)) with (leaves c ++ cs_leaves cs).
    change (cs_kvs ((k, c) :: cs)) with (kvs c ++ cs_kvs cs).
    change (cs_pids ((k, c) :: cs)) with (pids c ++ cs_pids cs). split_and!.
    - apply leaves_in_app. by rewrite A2.
    - cbn [head_leaf snd]. rewrite <- B2. destruct (leaves c) as [|[p l] ls]; [|done]. cbn. by rewrite A2.
    - by rewrite fmap_app, concat_app, A3, B3.
    - rewrite !length_app. lia. }
  destruct Hgen as (A1 & A2 & A3 & A4). destruct cs as [|c cs]; [done|].
  split_and!; [exact A1|exact A2|exact A3|]. change (pids (BNode pid (c :: cs))) with (pid :: cs_pids (c :: cs)).
  change (leaves (BNode pid (c :: cs))) with (cs_leaves (c :: cs)). cbn [length]. lia.
Qed.

Lemma children_leaves lmax imax st h cs hi nxt :
  children (tree_rep lmax imax st h) cs hi nxt → cs_kvs cs = concat (cs_leaves cs).*2.
Proof.
  induction cs as [|[k c] cs IH]; [done|]. intros (Hc & _ & Hcs).
  change (cs_leaves ((k, c) :: cs)) with (leaves c ++ cs_leaves cs).
  change (cs_kvs ((k, c) :: cs)) with (kvs c ++ cs_kvs cs).
  apply tree_leaves in Hc as (_ & _ & Hc & _). by rewrite fmap_app, concat_app, <- IH, Hc.
Qed.

Lemma descend_spec lmax imax h s st pins lo hi nxt t key fuel :
  pc_rep s st pins → pins_low pins → (size pins < pc_cap s)%nat →
  tree_rep lmax imax st h lo hi nxt t → lo ≤ key < hi → (h < fuel)%nat →
  ∃ s' a p l b, descend fuel key (root_pid t) s = (s', Ok p) ∧ leaves t = a ++ (p, l) :: b ∧
    (∀ e, e ∈ concat a.*2 → e.1 < key) ∧ pc_rep s' st pins ∧ pc_cap s' = pc_cap s.
Proof.
  intros Hr Hlow. revert s lo hi nxt t fuel Hr.
  induction h as [|h IH]; intros s lo hi nxt [pid l|pid cs] fuel Hr Hcap Ht Hkey Hfuel; try done;
    (destruct fuel as [|fuel]; [lia|]); cbn [descend root_pid].
  - destruct Ht as ((d & Hd & Hp) & _).
    destruct (pc_fetch_read s st pins pid d Hr Hlow Hcap Hd)
      as (s1 & fid & s2 & Hf & Hrd & Hu & Hr2 & Hc2 & _).
    rewrite (bindM_Ok _ _ _ _ _ Hf), (bindM_def (Some fid) fid _ _ eq_refl), (bindM_Ok _ _ _ _ _ Hrd).
    rewrite (bindM_def _ _ _ _ (lp_type _ _ _ Hp)), Z.eqb_refl, (bindM_Ok _ _ _ _ _ Hu).
    exists s2, [], pid, l, []. split_and!; [done|done|by intros e ?%elem_of_nil|done|done].
  - destruct Ht as ((d & k0 & Hd & Hp) & _ & Hne & Hlo & _ & Hcs). subst lo.
    destruct (pc_fetch_read s st pins pid d Hr Hlow Hcap Hd)
      as (s1 & fid & s2 & Hf & Hrd & Hu & Hr2 & Hc2 & _).
    rewrite (bindM_Ok _ _ _ _ _ Hf), (bindM_def (Some fid) fid _ _ eq_refl), (bindM_Ok _ _ _ _ _ Hrd).
    rewrite (bindM_def _ _ _ _ (np_type _ _ Hp)). cbn [Z.eqb NODE_LEAF NODE_INTERNAL].
    destruct (lookup_child _ cs hi nxt key d k0 Hcs Hne Hkey Hp) as (L & k & c & R & -> & Hk & Hlk).
    rewrite (bindM_def _ _ _ _ Hlk), (bindM_Ok _ _ _ _ _ Hu).
    destruct (children_bounds _ _ _ _ _ _ _ L k c R Hcs eq_refl) as [Hbl _].
    apply children_app in Hcs as (HL & Hc & _ & _).
    destruct (IH s2 k (head_key hi R) (head_leaf nxt R) c fuel Hr2)
      as (s3 & a & p & l & b & H3 & Hlv & Ha & Hr3 & Hc3); [lia|exact Hc|done|lia|].
    exists s3, (cs_leaves L ++ a), p, l, (b ++ cs_leaves R). rewrite H3.
    split_and!; [done| | |done|congruence].
    + change (leaves (BNode pid ?x)) with (cs_leaves x). rewrite cs_leaves_app.
      change (cs_leaves ((k, c) :: R)) with (leaves c ++ cs_leaves R). rewrite Hlv.
      by rewrite <- !app_assoc.
    + intros e. rewrite fmap_app, concat_app, <- (children_leaves _ _ _ _ _ _ _ HL), elem_of_app.
      intros [He%Hbl|He%Ha]; lia.
Qed.

Lemma walk_leaves_spec ls s st pins low high results fuel :
  pc_rep s st pins → pins_low pins → (size pins < pc_cap s)%nat →
  leaves_in st ls INVALID_PAGE_ID → keys_sorted (concat ls.*2) → (length ls < fuel)%nat →
  ∃ s', walk_leaves fuel low high (head_pid INVALID_PAGE_ID ls) results s
      = (s', Ok (results ++ in_range low high (concat ls.*2))) ∧
    pc_rep s' st pins ∧ pc_cap s' = pc_cap s.
Proof.
  intros Hr Hlow. revert s results fuel Hr.
  induction ls as [|[p l] ls IH]; intros s results fuel Hr Hcap Hin Hs Hfuel;
    (destruct fuel as [|fuel]; [cbn in Hfuel; lia|]); cbn [walk_leaves head_pid].
  { exists s. rewrite app_nil_r. done. }
  destruct Hin as ((d & Hd & Hp) & H0 & Hin).
  rewrite (proj2 (Z.eqb_neq p INVALID_PAGE_ID)) by (unfold INVALID_PAGE_ID; lia).
  destruct (pc_fetch_read s st pins p d Hr Hlow Hcap Hd)
    as (s1 & fid & s2 & Hf & Hrd & Hu & Hr2 & Hc2 & _).
  rewrite (bindM_Ok _ _ _ _ _ Hf), (bindM_def (Some fid) fid _ _ eq_refl), (bindM_Ok _ _ _ _ _ Hrd).
  pose proof (lp_holds _ _ _ Hp) as Hh.
  rewrite (bindM_def _ _ _ _ (lp_next _ _ _ Hp)), (bindM_def _ _ _ _ (nh_size _ _ _ Hh)), Nat2Z.id.
  cbn [fmap list_fmap snd concat] in *. pose proof Hs as [Hsl Hsr]%keys_sorted_app.
  destruct (range_leaf_spec low high d [] l 0 results Hh Hsl eq_refl) as (b & Hb & Hdone).
  rewrite (bindM_def _ _ _ _ Hb), (bindM_Ok _ _ _ _ _ Hu). cbn [fst snd]. rewrite in_range_app, app_assoc.
  destruct b.
  - exists s2. destruct Hdone as (e & He & Hgt).
    rewrite (in_range_none low high (concat ls.*2)), app_nil_r; [done|].
    intros x Hx. pose proof (keys_sorted_app_lt _ _ Hs e x He Hx). lia.
  - destruct (IH s2 (results ++ in_range low high l) fuel Hr2) as (s3 & H3 & Hr3 & Hc3);
      [lia|done|done|cbn in Hfuel; lia|].
    exists s3. split_and!; [done|done|congruence].
Qed.

Lemma RangeScan_spec bt s st pins low high results h ps kv fuel :
  pc_rep s st pins → pins_low pins → (size pins < pc_cap s)%nat → s32_range low →
  index_rep bt st h ps kv → (length ps < fuel)%nat →
  ∃ s', RangeScan fuel bt low high results s = (s', Ok (results ++ in_range low high kv)) ∧
    pc_rep s' st pins ∧ pc_cap s' = pc_cap s.
Proof.
  intros Hr Hlow Hcap Hk [_ _ Ht] Hfuel. unfold RangeScan.
  destruct Ht as [(-> & -> & -> & ->)|(t & -> & -> & -> & Hn & _ & Ht)].
  { rewrite Z.eqb_refl. exists s. by rewrite app_nil_r. }
  pose proof (tree_root_nonneg _ _ _ _ _ _ _ _ Ht) as Hr0.
  rewrite (proj2 (Z.eqb_neq _ INVALID_PAGE_ID)) by (unfold INVALID_PAGE_ID; lia).
  pose proof (tree_height _ _ _ _ _ _ _ _ Ht) as Hh.
  destruct (tree_leaves _ _ _ _ _ _ _ _ Ht) as (Hlv & _ & Hkv & Hlen).
  destruct (tree_kvs _ _ _ _ _ _ _ _ Ht) as [Hs _].
  destruct (descend_spec _ _ h s st pins _ _ _ t low fuel Hr Hlow Hcap Ht Hk)
    as (s1 & a & p & l & b & H1 & Hsplit & Ha & Hr1 & Hc1); [lia|].
  rewrite (bindM_Ok _ _ _ _ _ H1). rewrite Hkv in *. rewrite Hsplit in *.
  apply leaves_in_app in Hlv as [_ Hlv]. rewrite fmap_app, concat_app in *.
  apply keys_sorted_app in Hs as [_ Hs].
  destruct (walk_leaves_spec ((p, l) :: b) s1 st pins low high results fuel Hr1 Hlow)
    as (s2 & H2 & Hr2 & Hc2); [lia|done|done|rewrite length_app in Hlen; lia|].
  exists s2. split_and!; [|done|congruence]. cbn [head_pid] in H2. rewrite H2, in_range_app.
  rewrite (in_range_none _ _ (concat a.*2)); [done|]. intros e He%Ha. lia.
Qed.

(** ** Histories of insertions *)
Fixpoint insert_many (fuel : nat) (es : list (Z * RID)) : M (BPlusTree * S) unit :=
  match es with
  | [] => retM tt
  | e :: es => Insert fuel e.1 e.2 ;; insert_many fuel es
  end.

Abbreviation puts := (foldl (λ kv e, put e.1 e.2 kv)).
Lemma length_puts (es kv : list (Z * RID)) : (length kv ≤ length (puts kv es))%nat.
Proof.
  revert kv. induction es as [|e es IH]; intros kv; [done|]. cbn [foldl].
  pose proof (length_put e.1 e.2 kv). specialize (IH (put e.1 e.2 kv)). lia.
Qed.

(** With [n] keys in the end, the index has at most [2 * n + 1] pages. *)
Lemma insert_many_spec es bt s st pins h ps kv fuel n :
  pc_rep s st pins → pins_low pins → (size pins + 1 < pc_cap s)%nat →
  index_rep bt st h ps kv → (∀ p, p ∈ ps → pins !! p = None) → Forall leaf_ok es →
  (length (puts kv es) ≤ n)%nat → room (leaf_max_size_ bt) (internal_max_size_ bt) n →
  (2 * n + 1 < fuel)%nat → Z.of_nat (size st + 4 * n) + 4 < 2 ^ 31 + Z.of_nat (length ps) →
  ∃ bt' s' st' h' ps', insert_many fuel es (bt, s) = ((bt', s'), Ok tt) ∧
    pc_rep s' st' pins ∧ pc_cap s' = pc_cap s ∧ index_rep bt' st' h' ps' (puts kv es) ∧
    ∀ q, is_Some (st !! q) → q ∉ ps → st' !! q = st !! q.
Proof.
  intros Hr Hlow. revert bt s st h ps kv Hr.
  induction es as [|e es IH]; intros bt s st h ps kv Hr Hcap Hix Hun Hok Hn Hroom Hfuel Hsz.
  { by exists bt, s, st, h, ps. }
  apply Forall_cons in Hok as [He Hok]. destruct e as [k v].
  destruct (index_pages _ _ _ _ _ Hix) as (_ & _ & Hh & _ & Hps).
  cbn [foldl fst snd] in Hn. pose proof (length_puts es (put k v kv)). pose proof (length_put k v kv).
  destruct (Insert_spec bt s st pins k v h ps kv fuel) as (bt1 & s1 & st1 & h1 & ps1 & H1 & D);
    [done|done|done|lia|done|done|done|eapply room_le; [|exact Hroom]; lia|lia|].
  destruct D as [Hr1 Hc1 Hix1 Hh1 Hsz1 Hfr1 Hpg1 Hmax1].
  destruct (IH bt1 s1 st1 h1 ps1 (put k v kv) Hr1)
    as (bt2 & s2 & st2 & h2 & ps2 & H2 & Hr2 & Hc2 & Hix2 & Hfr2);
    [lia|done| |done|lia|by rewrite (proj1 Hmax1), (proj2 Hmax1)|lia|lia|].
  { intros p [Hp|Hp]%Hpg1; [auto|]. exact (pinned_in_store s st pins p Hr Hp). }
  exists bt2, s2, st2, h2, ps2. cbn [insert_many foldl fst snd].
  rewrite (bindM_Ok _ _ _ _ _ H1). split_and!; [done|done|congruence|done|].
  intros q Hq Hn'. rewrite Hfr2; [by apply Hfr1|rewrite Hfr1; done|].
  intros [?|Hx]%Hpg1; [done|]. rewrite Hx in Hq. by destruct Hq.
Qed.
End index.

(** The map a list of insertions stands for. *)
Definition entries_map (es : list (Z * RID)) : gmap Z RID :=
  foldl (λ m e, <[e.1 := e.2]> m) ∅ es.

Lemma foldl_put_map es kv (m : gmap Z RID) :
  keys_sorted kv → (∀ k, lookup_key k kv = m !! k) →
  keys_sorted (foldl (λ kv e, put e.1 e.2 kv) kv es) ∧
  ∀ k, lookup_key k (foldl (λ kv e, put e.1 e.2 kv) kv es) = foldl (λ m e, <[e.1 := e.2]> m) m es !! k.
Proof.
  revert kv m. induction es as [|[k v] es IH]; intros kv m Hs Hm; [done|]. cbn. apply IH.
  - by apply put_sorted.
  - intros k'. rewrite lookup_put, lookup_insert by done.
    destruct (Z.eqb_spec k k'); case_decide; done.
Qed.

Lemma sorted_map_size kv (m : gmap Z RID) :
  keys_sorted kv → (∀ k, lookup_key k kv = m !! k) → length kv = size m.
Proof.
  intros Hs Hm. assert (Hnd : NoDup kv.*1).
  { clear Hm. induction kv as [|e kv IH]; [constructor|]. apply keys_sorted_cons in Hs as [Hs Hf].
    apply NoDup_cons. split; [|by apply IH]. intros (x & Hx & Hin)%list_elem_of_fmap. specialize (Hf x Hin). lia. }
  assert (m = list_to_map kv) as ->; [|by rewrite map_size_list_to_map].
  apply map_eq. intros k. apply option_eq. intros v. rewrite <- Hm, lookup_key_Some by done.
  by apply elem_of_list_to_map.
Qed.

Section theorems.
Context {S : Type} {PC : PageCache S} {PCS : PageCacheSpec S}.
Implicit Types (s : S) (st : pages) (pins : pinmap) (bt : BPlusTree).

(** C4. The index refines a finite map. Entries are inserted one after the other
    into a new tree, two frames being free: every insertion succeeds, whatever
    splits it causes; then [Search] returns what the map of the insertions has
    (the last record id of a key), and [RangeScan] returns the ids of exactly the
    keys in the range, in ascending order of the keys. Other pages are untouched.
    The limits, for [n] distinct keys: the maximal sizes given to the constructor
    are at most what a page holds (it does not check that); the page numbers stay
    below [2^31], for which about half a billion keys are few enough; and where
    internal nodes may fill their page, as with the default sizes, [n] is less
    than 511 times half a leaf (86870 keys by default), so that no node gets a
    511th child, which does not fit (C31). *)
Theorem BPlusTree_refines_map name lm im bt es s st pins fuel :
  let n := size (entries_map es) in
  BPlusTree_ctor name lm im = Ok bt →
  leaf_max_size_ bt ≤ CAPACITY LeafPage → internal_max_size_ bt ≤ CAPACITY InternalPage →
  internal_max_size_ bt < CAPACITY InternalPage ∨
    Z.of_nat n < (CAPACITY InternalPage + 1) * (leaf_max_size_ bt / 2) →
  pc_rep s st pins → pins_low pins → (size pins + 1 < pc_cap s)%nat → Forall leaf_ok es →
  Z.of_nat (size st + 4 * n) + 4 < 2 ^ 31 → (2 * n + 1 < fuel)%nat →
  ∃ bt' s' st' kv, insert_many fuel es (bt, s) = ((bt', s'), Ok tt) ∧
    pc_rep s' st' pins ∧ (∀ q, is_Some (st !! q) → st' !! q = st !! q) ∧
    keys_sorted kv ∧ (∀ k v, (k, v) ∈ kv ↔ entries_map es !! k = Some v) ∧
    (∀ key, s32_range key → ∃ s'', Search fuel bt' key s' = (s'', Ok (entries_map es !! key))) ∧
    ∀ low high, s32_range low →
      ∃ s'', RangeScan fuel bt' low high [] s' = (s'', Ok (in_range low high kv)).
Proof.
  intros n Hct Hl Hi Hroom Hr Hlow Hcap Hok Hsz Hfuel.
  assert (Hix : index_rep bt st 0 [] []).
  { unfold BPlusTree_ctor in Hct. case_match eqn:E; [|done]. injection Hct as <-.
    apply andb_true_iff in E as [E1%Z.leb_le E2%Z.leb_le].
    split; [split; [exact E1|exact Hl]|split; [exact E2|exact Hi]|by left]. }
  destruct (foldl_put_map es [] ∅) as [Hs Hm]; [constructor|done|]. fold (entries_map es) in Hm.
  pose proof (sorted_map_size _ _ Hs Hm) as Hn. fold n in Hn.
  destruct (insert_many_spec es bt s st pins 0 [] [] fuel n)
    as (bt' & s' & st' & h' & ps' & H1 & Hr' & Hc' & Hix' & Hfr);
    [done|done|done|done|by intros p ?%elem_of_nil|done|lia|exact Hroom|lia|cbn [length]; lia|].
  set (kv := foldl _ [] es) in *. pose proof (index_pages _ _ _ _ _ Hix') as (_ & _ & Hhp & _ & Hps).
  exists bt', s', st', kv. split_and!; [done|done| |done| | |].
  - intros q Hq. apply Hfr; [done|]. intros Hx. by apply elem_of_nil in Hx.
  - intros k v. by rewrite <- Hm, lookup_key_Some.
  - intros key Hk. destruct (Search_spec bt' s' st' pins key h' ps' kv fuel) as (s2 & H2 & _);
      [done|done|lia|done|done|lia|]. exists s2. by rewrite H2, Hm.
  - intros low high Hk.
    destruct (RangeScan_spec bt' s' st' pins low high [] h' ps' kv fuel) as (s2 & H2 & _);
      [done|done|lia|done|done|lia|]. by exists s2.
Qed.

(** C12. One [Insert] into a well-formed index: it succeeds when two frames are
    free, and the index is well formed again (all leaves at one depth, separators
    in order and bounding their subtrees, leaves linked in key order, no page
    shared, no node over its maximum, every node but the root at least half
    full), with the entry added or replaced. The height grows by at most one;
    pages outside the index keep their bytes. Where an internal node may fill its
    page, the index must have few enough keys that none does. *)
Theorem Insert_correct bt s st pins key rid h ps kv fuel :
  pc_rep s st pins → pins_low pins → (size pins + 1 < pc_cap s)%nat →
  Z.of_nat (size st) + Z.of_nat h + 2 < 2 ^ 31 → leaf_ok (key, rid) →
  index_rep bt st h ps kv → (∀ p, p ∈ ps → pins !! p = None) → (h < fuel)%nat →
  internal_max_size_ bt < CAPACITY InternalPage ∨
    Z.of_nat (length (put key rid kv)) < (CAPACITY InternalPage + 1) * (leaf_max_size_ bt / 2) →
  ∃ bt' s' st' h' ps', Insert fuel key rid (bt, s) = ((bt', s'), Ok tt) ∧
    pc_rep s' st' pins ∧ index_rep bt' st' h' ps' (put key rid kv) ∧ (h ≤ h' ≤ h + 1)%nat ∧
    (∀ q, is_Some (st !! q) → q ∉ ps → st' !! q = st !! q) ∧
    ∀ k, lookup_key k (put key rid kv) = if key =? k then Some rid else lookup_key k kv.
Proof.
  intros Hr Hlow Hcap Hsz Hok Hix Hun Hfuel Hroom.
  destruct (Insert_spec bt s st pins key rid h ps kv fuel)
    as (bt' & s' & st' & h' & ps' & H1 & [D1 _ D3 D4 _ D6 _ _]); [done..|].
  exists bt', s', st', h', ps'. split_and!; [done|done|done|lia|lia|done|].
  intros k. apply lookup_put. by eapply index_sorted.
Qed.

(** C31. A node of [CAPACITY] entries, which the default [internal_max_size] of
    the constructor allows, gets one more separator: [InsertEntry] writes
    [data[CAPACITY]], outside the array and past the end of the page, before the
    size is compared with the maximum. *)
Theorem internal_node_overflow name s st pins pid d l sp :
  pc_rep s st pins → pins_low pins → (size pins < pc_cap s)%nat →
  st !! pid = Some d → internal_page d l → Z.of_nat (length l) = CAPACITY InternalPage →
  ∃ bt, BPlusTree_ctor name 0 0 = Ok bt ∧ Z.of_nat (length l) ≤ internal_max_size_ bt ∧
    (insert_separator (internal_max_size_ bt) pid sp s).2 = Fault Undefined.
Proof.
  intros Hr Hlow Hcap Hd [_ Hp] Hlen.
  exists (mkBPlusTree name INVALID_PAGE_ID (CAPACITY LeafPage) (CAPACITY InternalPage)).
  split_and!; [done|cbn [internal_max_size_]; lia|].
  destruct (pc_fetch_read s st pins pid d Hr Hlow Hcap Hd) as (s1 & fid & _ & Hf & Hrd & _).
  unfold insert_separator. rewrite (bindM_Ok _ _ _ _ _ Hf), (bindM_def (Some fid) fid _ _ eq_refl).
  destruct l as [|e0 l]; [done|].
  pose proof (insert_entry_full InternalPage 1 (split_key sp) (right_pid sp) d [e0] l Hp eq_refl Hlen) as Hn.
  unfold bindM at 1, poke. rewrite (bindM_Ok _ _ _ _ _ Hrd).
  unfold Internal_InsertEntry. rewrite Hn. done.
Qed.

(** C32. A leaf split when the new page cannot be had: [InsertInLeaf] throws, and
    leaves the leaf pinned (one pin more than before, for good) and holding
    [leaf_max_size] entries, the new one among them. *)
Theorem leaf_split_leaks_pin lmax imax s st pins pid l lo hi nxt key rid :
  pc_rep s st pins → pins_low pins → (size pins + 1 = pc_cap s)%nat → pins !! pid = None →
  2 ≤ lmax ≤ CAPACITY LeafPage → Z.of_nat (size st) + 1 < 2 ^ 31 →
  tree_rep lmax imax st 0 lo hi nxt (BLeaf pid l) → leaf_ok (key, rid) →
  Z.of_nat (length l) = lmax - 1 → (∀ v, (key, v) ∉ l) →
  ∃ s' d', InsertInLeaf lmax pid key rid s
      = (s', Fault (Throw "BPlusTree — buffer pool full during leaf split")) ∧
    leaf_page d' (put key rid l) nxt ∧
    pc_rep s' (<[pid := d']> st) (<[pid := (1%nat, true)]> pins).
Proof.
  intros Hr Hlow Hcap Hun Hmax Hsz ((d & Hd & Hp) & _) Hok Hlen Hno.
  destruct (pc_fetch_read s st pins pid d Hr Hlow ltac:(lia) Hd)
    as (s1 & fid & _ & Hf & Hrd & _ & _ & _ & Hr1 & Hat & Hc1).
  pose proof (lp_holds _ _ _ Hp) as Hh. unfold InsertInLeaf.
  rewrite (bindM_Ok _ _ _ _ _ Hf), (bindM_def (Some fid) fid _ _ eq_refl), (bindM_Ok _ _ _ _ _ Hrd).
  rewrite (bindM_def _ _ _ _ (nh_size _ _ _ Hh)), Nat2Z.id.
  destruct (find_key_spec key d [] l 0 Hh eq_refl) as (r & Hfk & Hres).
  rewrite (bindM_def _ _ _ _ Hfk). destruct r as [j|].
  { destruct Hres as (n & v & _ & Hn%list_elem_of_lookup_2). by destruct (Hno v). }
  destruct (Leaf_InsertEntry_spec key rid d l nxt Hp ltac:(lia) Hok Hno) as (d' & Hd' & Hp').
  pose proof (lp_holds _ _ _ Hp') as Hh'.
  destruct (poke_spec s1 st (pin_inc pins pid) pid fid d d' _ Hr1 (pin_inc_lookup _ _) Hat Hd Hd')
    as (s2 & H2 & Hc2 & Hk2 & Hr2); [by rewrite (nh_len _ _ _ Hh'), (nh_len _ _ _ Hh)|].
  apply Hk2 in Hat.
  destruct (pc_read_spec s2 _ _ pid fid Hr2 (pin_write_lookup _ _ _ (pin_inc_lookup _ _)) Hat)
    as (x & Hx & Hrd2). rewrite lookup_insert_eq in Hx. injection Hx as <-.
  rewrite (bindM_Ok _ _ _ _ _ H2), (bindM_Ok _ _ _ _ _ Hrd2), (bindM_def _ _ _ _ (nh_size _ _ _ Hh')).
  rewrite put_absent, length_ins_entry, (proj2 (Z.ltb_ge _ lmax)) by (done || lia).
  assert (HP : pin_write (pin_inc pins pid) pid = <[pid := (1%nat, true)]> pins).
  { unfold pin_write, pin_inc, pin_of. by rewrite lookup_insert_eq, insert_insert_eq, Hun. }
  rewrite HP in Hr2. set (P := <[pid := (1%nat, true)]> pins) in *.
  assert (HPs : size P = Datatypes.S (size pins)) by (by apply map_size_insert_None).
  destruct (pc_new_spec s2 (<[pid := d']> st) P Hr2) as (s3 & r & Hn & Hc3 & _ & Hres3).
  { rewrite map_size_insert_Some by eauto. lia. }
  unfold split_page. rewrite (bindM_Ok _ _ _ _ _ Hn). destruct r as [[new nfid]|].
  - destruct Hres3 as (_ & Hnone & Hr3 & _). pose proof (pc_rep_size _ _ _ Hr3) as Hle.
    unfold pin_inc in Hle. rewrite map_size_insert_None in Hle; [lia|].
    exact (pinned_in_store _ _ _ _ Hr2 Hnone).
  - exists s3, d'. split_and!; [done|by rewrite <- put_absent|apply Hres3].
Qed.
End theorems.

(** The reference for the binary searches: a walk along the entries. *)
Fixpoint linear_child (key : Z) (child : Z) (ents : list (Z * Z)) : Z :=
  match ents with
  | [] => child
  | (k, c) :: ents => if k <=? key then linear_child key c ents else child
  end.

Lemma linear_child_rank key k0 c0 ents :
  ∃ e, ((k0, c0) :: ents) !! rank key ents = Some e ∧ linear_child key c0 ents = e.2.
Proof.
  revert k0 c0. induction ents as [|[k c] ents IH]; intros k0 c0; cbn; [eauto|].
  destruct (Z.leb_spec k key), (Z.ltb_spec key k); try lia; [|eauto].
  destruct (IH k c) as (e & He & Hl). exists e. split; [exact He|done].
Qed.

(** C29. On sorted entries the binary search of [Lookup] takes the child a walk
    along the separators would take, the one after the last separator not above
    the key, and the binary search of a leaf finds the entry of the key when there
    is one. *)
Theorem binary_searches_correct key d e0 ents dl l :
  node_holds InternalPage d (e0 :: ents) → keys_sorted ents →
  node_holds LeafPage dl l → keys_sorted l →
  Internal_Lookup key d = Some (linear_child key e0.2 ents) ∧
  ∃ r, Leaf_Search key dl = Some r ∧ ∀ rid, r = Some rid ↔ (key, rid) ∈ l.
Proof.
  intros Hd Hs Hl Hsl. destruct e0 as [k0 c0]. cbn [snd]. split.
  - destruct (Internal_Lookup_spec key d (k0, c0) ents Hd Hs) as (e & He & ->).
    destruct (linear_child_rank key k0 c0 ents) as (e' & He' & ->). congruence.
  - exists (lookup_key key l). split; [by apply Leaf_Search_spec|].
    intros rid. by apply lookup_key_Some.
Qed.

(** ** On the buffer pool *)
Definition demo_entries : list (Z * RID) :=
  [(5, mkRID 0 0); (1, mkRID 0 1); (9, mkRID 0 2); (3, mkRID 0 3); (5, mkRID 1 0)].
Definition demo_index : BPlusTree := mkBPlusTree "idx" INVALID_PAGE_ID 3 3.

Lemma demo_entries_ok : Forall leaf_ok demo_entries.
Proof. repeat constructor; cbn; lia. Qed.

(** A tree of small nodes, and one of the default sizes. *)
Definition default_index : BPlusTree := mkBPlusTree "idx" INVALID_PAGE_ID 340 510.
Lemma BPlusTree_refines_map_witness :
  (∃ bt' s' s'', insert_many 40 demo_entries (demo_index, BufferPoolManager_ctor 2 blank_disk)
      = ((bt', s'), Ok tt) ∧
    Search 40 bt' 5 s' = (s'', Ok (Some (mkRID 1 0)))) ∧
  ∃ bt' s' kv s'', insert_many 40 demo_entries (default_index, BufferPoolManager_ctor 2 blank_disk)
      = ((bt', s'), Ok tt) ∧
    RangeScan 40 bt' 2 6 [] s' = (s'', Ok (in_range 2 6 kv)).
Proof.
  split.
  - destruct (BPlusTree_refines_map "idx" 3 3 demo_index demo_entries
      (BufferPoolManager_ctor 2 blank_disk) ∅ ∅ 40)
      as (bt' & s' & st' & kv & H1 & _ & _ & _ & _ & Hs & _).
    + reflexivity.
    + vm_compute. congruence.
    + vm_compute. congruence.
    + left. reflexivity.
    + apply blank_pool_inv. lia.
    + apply pins_low_empty.
    + vm_compute. lia.
    + apply demo_entries_ok.
    + vm_compute. reflexivity.
    + vm_compute. lia.
    + destruct (Hs 5) as (s'' & H2); [unfold s32_range; lia|].
      exists bt', s', s''. split; [exact H1|exact H2].
  - destruct (BPlusTree_refines_map "idx" 0 0 default_index demo_entries
      (BufferPoolManager_ctor 2 blank_disk) ∅ ∅ 40)
      as (bt' & s' & st' & kv & H1 & _ & _ & _ & _ & _ & Hs).
    + reflexivity.
    + vm_compute. congruence.
    + vm_compute. congruence.
    + right. vm_compute. reflexivity.
    + apply blank_pool_inv. lia.
    + apply pins_low_empty.
    + vm_compute. lia.
    + apply demo_entries_ok.
    + vm_compute. reflexivity.
    + vm_compute. lia.
    + destruct (Hs 2 6) as (s'' & H2); [unfold s32_range; lia|].
      exists bt', s', kv, s''. split; [exact H1|exact H2].
Defined.

Lemma Insert_correct_witness :
  ∃ bt' s' st' h' ps', Insert 1 7 (mkRID 2 0) (demo_index, BufferPoolManager_ctor 2 blank_disk)
      = ((bt', s'), Ok tt) ∧ index_rep bt' st' h' ps' [(7, mkRID 2 0)].
Proof.
  destruct (Insert_correct demo_index (BufferPoolManager_ctor 2 blank_disk) ∅ ∅ 7 (mkRID 2 0) 0 [] [] 1)
    as (bt' & s' & st' & h' & ps' & H1 & _ & H2 & _).
  - apply blank_pool_inv. lia.
  - apply pins_low_empty.
  - vm_compute. lia.
  - vm_compute. reflexivity.
  - repeat split; cbn; lia.
  - split; [split; vm_compute; congruence|split; vm_compute; congruence|].
    left. repeat split.
  - intros p Hp. apply elem_of_nil in Hp. destruct Hp.
  - lia.
  - left. reflexivity.
  - exists bt', s', st', h', ps'. split; [exact H1|exact H2].
Defined.

(** A page with a full internal node. *)
Definition full_node : list ascii := le_bytes 4 0 ++ le_bytes 4 510 ++ memset 4088 NUL.
Lemma full_node_page : internal_page full_node (replicate 510 (0, 0)).
Proof.
  split; [vm_compute; reflexivity|].
  assert (Hall : forallb (λ i, bool_decide (get_entry InternalPage (Z.of_nat i) full_node = Some (0, 0)))
    (seq 0 510) = true) by (vm_compute; reflexivity).
  split; [vm_compute; reflexivity|vm_compute; reflexivity|vm_compute; congruence|].
  intros i e Hi. apply lookup_replicate in Hi as [-> Hi].
  rewrite forallb_forall in Hall. apply (bool_decide_eq_true_1 _), Hall, in_seq. lia.
Qed.

Lemma internal_node_overflow_witness :
  ∃ s bt, BPlusTree_ctor "idx" 0 0 = Ok bt ∧
    (insert_separator (S := BufferPoolManager) (internal_max_size_ bt) 0 (mkSplitResult 1 1) s).2
    = Fault Undefined.
Proof.
  destruct (pc_add_page (BufferPoolManager_ctor 1 blank_disk) ∅ ∅ full_node) as (s & Hr & Hcap).
  - apply blank_pool_inv. lia.
  - vm_compute. lia.
  - vm_compute. reflexivity.
  - vm_compute. reflexivity.
  - destruct (internal_node_overflow "idx" s {[0 := full_node]} ∅ 0 full_node (replicate 510 (0, 0))
      (mkSplitResult 1 1)) as (bt & H1 & _ & H2).
    + exact Hr.
    + apply pins_low_empty.
    + rewrite Hcap. vm_compute. lia.
    + apply lookup_singleton_eq.
    + apply full_node_page.
    + vm_compute. reflexivity.
    + exists s, bt. split; [exact H1|exact H2].
Defined.

Lemma leaf_split_leaks_pin_witness :
  ∃ s s', InsertInLeaf (S := BufferPoolManager) 2 0 8 (mkRID 2 1) s
      = (s', Fault (Throw "BPlusTree — buffer pool full during leaf split")).
Proof.
  destruct (first_leaf_spec 2 3 (BufferPoolManager_ctor 1 blank_disk) ∅ ∅ 7 (mkRID 2 0))
    as (s1 & fid & s2 & s3 & s4 & d & _ & _ & _ & _ & Hcap & _ & Hr & Ht).
  - apply blank_pool_inv. lia.
  - vm_compute. lia.
  - vm_compute. reflexivity.
  - lia.
  - repeat split; cbn; lia.
  - destruct (leaf_split_leaks_pin 2 3 s4 {[0 := d]} ∅ 0 [(7, mkRID 2 0)] (- 2 ^ 31) (2 ^ 31)
      INVALID_PAGE_ID 8 (mkRID 2 1)) as (s' & d' & H & _).
    + exact Hr.
    + apply pins_low_empty.
    + rewrite Hcap. vm_compute. reflexivity.
    + reflexivity.
    + split; vm_compute; congruence.
    + rewrite map_size_singleton. vm_compute. reflexivity.
    + exact Ht.
    + repeat split; cbn; lia.
    + reflexivity.
    + intros v Hv. apply list_elem_of_singleton in Hv. congruence.
    + exists s4, s'. exact H.
Defined.

Lemma binary_searches_correct_witness :
  ∃ d dl, Internal_Lookup 6 d = Some 7 ∧ Leaf_Search 4 dl = Some (Some (mkRID 1 1)).
Proof.
  destruct (Internal_Init_spec 0 (memset PAGE_SIZE NUL) (memset_length _ _)) as (d0 & _ & H0).
  destruct (Internal_InsertEntry_spec 5 7 d0 (0, INVALID_PAGE_ID) [] H0) as (d & _ & Hd).
  { vm_compute. reflexivity. }
  { repeat split; cbn; lia. }
  destruct (Leaf_Init_spec 0 (memset PAGE_SIZE NUL) (memset_length _ _)) as (l0 & _ & Hl0).
  destruct (Leaf_InsertEntry_spec 4 (mkRID 1 1) l0 [] INVALID_PAGE_ID Hl0) as (dl & _ & Hdl).
  { vm_compute. reflexivity. }
  { repeat split; cbn; lia. }
  { intros v Hv. apply elem_of_nil in Hv. destruct Hv. }
  assert (Hs : ∀ V (e : Z * V), keys_sorted [e]).
  { intros V e. apply keys_sorted_cons. split; [constructor|]. intros x Hx.
    apply elem_of_nil in Hx. destruct Hx. }
  exists d, dl. destruct (binary_searches_correct 6 d (0, INVALID_PAGE_ID) [(5, 7)] dl [(4, mkRID 1 1)])
    as [H1 _]; [apply Hd|apply Hs|apply Hdl|apply Hs|].
  destruct (binary_searches_correct 4 d (0, INVALID_PAGE_ID) [(5, 7)] dl [(4, mkRID 1 1)])
    as [_ (r & H2 & H3)]; [apply Hd|apply Hs|apply Hdl|apply Hs|].
  split; [exact H1|]. rewrite H2. f_equal. apply H3. apply list_elem_of_singleton. reflexivity.
Defined.
