(* ===== verification/Lexer.v ===== *)
(** * The SQL lexer: [src/src/parser/token.h], [lexer.h], [lexer.cpp]

    The lexer object is the record [Lexer] with the source's three fields; its
    methods are state transformers on it.  [std::isspace] and the other
    character classes are those of the C locale, the only one the program uses.
    A pure, position-free description of one token ([blank_len], [lex_token])
    is the reference the stateful methods are proved against. *)
From stdpp Require Import base gmap list strings.
From Stdlib Require Import ZArith Lia Ascii.
From Stdlib Require String.
From S2P Require Import Prelude Types.

(** ** token.h *)
Module TokenType.
Inductive TokenType :=
  | CREATE | TABLE | INSERT | INTO | VALUES
  | SELECT | FROM | WHERE | AS
  | JOIN | ON | AND | OR | NOT
  | GROUP | BY | ORDER | ASC | DESC
  | EXPLAIN
  | INT_KW | VARCHAR_KW
  | COUNT | SUM | AVG | MIN | MAX
  | INT_LITERAL | STRING_LITERAL
  | IDENTIFIER
  | LPAREN | RPAREN | COMMA | SEMICOLON | DOT | STAR
  | EQ | LT | GT | LEQ | GEQ | NEQ
  | EOF_TOKEN.
End TokenType.
Abbreviation TokenType := TokenType.TokenType.

#[export] Instance TokenType_eq_dec : EqDecision TokenType.
Proof. solve_decision. Defined.

Record Token := mkToken { tok_type : TokenType; tok_value : string; tok_line : Z }.
#[export] Instance Token_eq_dec : EqDecision Token.
Proof. solve_decision. Defined.

(** ** Character classes of [<cctype>] in the C locale *)
Definition between (lo hi : Z) (c : ascii) : bool :=
  (lo <=? Z_of_char c) && (Z_of_char c <=? hi).
Definition isdigit (c : ascii) : bool := between 48 57 c.
Definition isupper (c : ascii) : bool := between 65 90 c.
Definition islower (c : ascii) : bool := between 97 122 c.
Definition isalpha (c : ascii) : bool := isupper c || islower c.
Definition isalnum (c : ascii) : bool := isalpha c || isdigit c.
Definition isspace (c : ascii) : bool := (Z_of_char c =? 32) || between 9 13 c.
Definition toupper (c : ascii) : ascii :=
  if islower c then char_of_Z (Z_of_char c - 32) else c.

Definition newline : ascii := "010"%char.
Definition quote : ascii := "'"%char.
Definition dash : ascii := "-"%char.
Definition underscore : ascii := "_"%char.
Definition ceq (a b : ascii) : bool := bool_decide (a = b).

Import TokenType.
Definition KEYWORDS : gmap string TokenType := list_to_map [
  ("CREATE", CREATE); ("TABLE", TABLE);
  ("INSERT", INSERT); ("INTO", INTO);
  ("VALUES", VALUES); ("SELECT", SELECT);
  ("FROM", FROM); ("WHERE", WHERE);
  ("AS", AS); ("JOIN", JOIN);
  ("ON", ON); ("AND", AND);
  ("OR", OR); ("NOT", NOT);
  ("GROUP", GROUP); ("BY", BY);
  ("ORDER", ORDER); ("ASC", ASC);
  ("DESC", DESC); ("EXPLAIN", EXPLAIN);
  ("INT", INT_KW); ("VARCHAR", VARCHAR_KW);
  ("COUNT", COUNT); ("SUM", SUM);
  ("AVG", AVG); ("MIN", MIN);
  ("MAX", MAX) ]%string.

(** ** The lexer object *)
Record Lexer := mkLexer { input_ : list ascii; pos_ : nat; line_ : Z }.
Definition Lexer_ctor (input : string) : Lexer := mkLexer (to_chars input) 0 1.

Definition IsAtEnd (l : Lexer) : bool := (length (input_ l) <=? pos_ l)%nat.
(** [input_[i]]: the terminator is readable, anything beyond is not. *)
Definition char_at (s : list ascii) (i : nat) : option ascii :=
  if (i =? length s)%nat then Some NUL else s !! i.
Definition Peek (l : Lexer) : ascii :=
  if IsAtEnd l then NUL else default NUL (char_at (input_ l) (pos_ l)).

(** [++pos_] and [++line_]; the latter is a signed [int]. *)
Definition inc_pos : M Lexer unit := λ l, (mkLexer (input_ l) (S (pos_ l)) (line_ l), Ok tt).
Definition inc_line : M Lexer unit :=
  l <- getM ;;
  n <- liftM (add_s32 (line_ l) 1) ;;
  putM (mkLexer (input_ l) (pos_ l) n).
Definition Advance : M Lexer ascii :=
  l <- getM ;;
  c <- defM (char_at (input_ l) (pos_ l)) ;;
  inc_pos ;;
  retM c.

(** [while (!IsAtEnd() && p(Peek())) body]. *)
Fixpoint while_peek (p : ascii → bool) (body : M Lexer unit) (fuel : nat) : M Lexer unit :=
  match fuel with
  | O => faultM OutOfFuel
  | S fuel =>
      l <- getM ;;
      if negb (IsAtEnd l) && p (Peek l) then body ;; while_peek p body fuel
      else retM tt
  end.
Definition loop_fuel (l : Lexer) : nat := S (length (input_ l)).

(** The comment test of [SkipWhitespace]: [c == '-' && pos_ + 1 < size() &&
    input_[pos_+1] == '-']. *)
Definition at_comment (l : Lexer) (c : ascii) : bool :=
  ceq c dash && (pos_ l + 1 <? length (input_ l))%nat &&
  ceq (default NUL (char_at (input_ l) (pos_ l + 1))) dash.

Fixpoint skip_loop (fuel : nat) : M Lexer unit :=
  match fuel with
  | O => faultM OutOfFuel
  | S fuel =>
      l <- getM ;;
      if IsAtEnd l then retM tt else
      let c := Peek l in
      if ceq c newline then inc_line ;; inc_pos ;; skip_loop fuel
      else if isspace c then inc_pos ;; skip_loop fuel
      else if at_comment l c then
        while_peek (λ c, negb (ceq c newline)) inc_pos (loop_fuel l) ;; skip_loop fuel
      else retM tt
  end.
Definition SkipWhitespace : M Lexer unit :=
  l <- getM ;; skip_loop (loop_fuel l).

(** [input_.substr(start, n)]. *)
Definition substr (l : Lexer) (start n : nat) : string :=
  of_chars (take n (drop start (input_ l))).

Definition ReadNumber : M Lexer Token :=
  l0 <- getM ;;
  while_peek isdigit (Advance ;; retM tt) (loop_fuel l0) ;;
  l <- getM ;;
  retM (mkToken INT_LITERAL (substr l (pos_ l0) (pos_ l - pos_ l0)) (line_ l)).

Definition ReadString : M Lexer Token :=
  Advance ;;
  l0 <- getM ;;
  while_peek (λ c, negb (ceq c quote))
    (l <- getM ;;
     (if ceq (Peek l) newline then inc_line else retM tt) ;;
     Advance ;; retM tt) (loop_fuel l0) ;;
  l <- getM ;;
  if IsAtEnd l then throwM "Unterminated string literal" else
  let val := substr l (pos_ l0) (pos_ l - pos_ l0) in
  Advance ;;
  l <- getM ;;
  retM (mkToken STRING_LITERAL val (line_ l)).

Definition is_ident_char (c : ascii) : bool := isalnum c || ceq c underscore.
Definition upper (s : string) : string := of_chars (toupper <$> to_chars s).

Definition ReadIdentifierOrKeyword : M Lexer Token :=
  l0 <- getM ;;
  while_peek is_ident_char (Advance ;; retM tt) (loop_fuel l0) ;;
  l <- getM ;;
  let raw := substr l (pos_ l0) (pos_ l - pos_ l0) in
  retM (match KEYWORDS !! upper raw with
        | Some k => mkToken k (upper raw) (line_ l)
        | None => mkToken IDENTIFIER raw (line_ l)
        end).

(** [return {type, text, line_}]. *)
Definition emit (type : TokenType) (text : string) : M Lexer Token :=
  l <- getM ;; retM (mkToken type text (line_ l)).
(** [if (!IsAtEnd() && Peek() == c) { Advance(); return then_; } else_]. *)
Definition if_next (c : ascii) (then_ else_ : M Lexer Token) : M Lexer Token :=
  l <- getM ;;
  if negb (IsAtEnd l) && ceq (Peek l) c then Advance ;; then_ else else_.

(** The final [switch]. *)
Definition punctuation (c : ascii) : M Lexer Token :=
  match c with
  | "(" => emit LPAREN "("
  | ")" => emit RPAREN ")"
  | "," => emit COMMA ","
  | ";" => emit SEMICOLON ";"
  | "." => emit DOT "."
  | "*" => emit STAR "*"
  | "=" => emit EQ "="
  | "<" => if_next "=" (emit LEQ "<=") (if_next ">" (emit NEQ "<>") (emit LT "<"))
  | ">" => if_next "=" (emit GEQ ">=") (emit GT ">")
  | "!" => if_next "=" (emit NEQ "!=") (throwM "Unexpected character: !")
  | c => throwM ("Unexpected character: " +:+ String c EmptyString)
  end%char.

Definition NextToken : M Lexer Token :=
  SkipWhitespace ;;
  l <- getM ;;
  if IsAtEnd l then retM (mkToken EOF_TOKEN "" (line_ l)) else
  let c := Peek l in
  if isdigit c then ReadNumber
  else if ceq c quote then ReadString
  else if isalpha c || ceq c underscore then ReadIdentifierOrKeyword
  else Advance ;; punctuation c.

Fixpoint tokenize_loop (fuel : nat) (tokens : list Token) : M Lexer (list Token) :=
  match fuel with
  | O => faultM OutOfFuel
  | S fuel =>
      t <- NextToken ;;
      let tokens := tokens ++ [t] in
      if bool_decide (tok_type t = EOF_TOKEN) then retM tokens
      else tokenize_loop fuel tokens
  end.
Definition Tokenize : M Lexer (list Token) :=
  l <- getM ;; tokenize_loop (loop_fuel l) [].
(** [Lexer lexer(sql); lexer.Tokenize()]. *)
Definition tokenize (sql : string) : outcome (list Token) := (Tokenize (Lexer_ctor sql)).2.
