(* ===== verification/LexerTheorems.v ===== *)
(** * Properties of the lexer

    [NextToken_spec] relates the stateful [NextToken] to the position-free
    reference [blanks]/[lex_token]; totality, line numbers and the round trip
    "print tokens, then tokenize" follow from it. *)
From stdpp Require Import base gmap list strings.
From Stdlib Require Import ZArith Lia Ascii.
From Stdlib Require String.
From S2P Require Import Prelude Types Lexer.
Import TokenType.

(** ** The reference: blanks and one token of a text *)
Definition starts_with (c : ascii) (s : list ascii) : bool :=
  match s with [] => false | d :: _ => ceq d c end.

(** White space and [--] comments at the head of [s]; [cm]: inside a comment. *)
Fixpoint blanks (cm : bool) (s : list ascii) : list ascii :=
  match s with
  | [] => []
  | c :: s =>
      if cm then c :: blanks (negb (ceq c newline)) s
      else if isspace c then c :: blanks false s
      else if ceq c dash && starts_with dash s then c :: blanks true s
      else []
  end.
Definition after_blanks (s : list ascii) : list ascii := drop (length (blanks false s)) s.

(** Type, value and number of characters of a token. *)
Definition lexed : Type := TokenType * string * nat.

Definition lex_punctuation (c : ascii) (s : list ascii) : outcome lexed :=
  match c with
  | "(" => Ok (LPAREN, "("%string, 1%nat)
  | ")" => Ok (RPAREN, ")"%string, 1%nat)
  | "," => Ok (COMMA, ","%string, 1%nat)
  | ";" => Ok (SEMICOLON, ";"%string, 1%nat)
  | "." => Ok (DOT, "."%string, 1%nat)
  | "*" => Ok (STAR, "*"%string, 1%nat)
  | "=" => Ok (EQ, "="%string, 1%nat)
  | "<" => if starts_with "=" s then Ok (LEQ, "<="%string, 2%nat)
           else if starts_with ">" s then Ok (NEQ, "<>"%string, 2%nat)
           else Ok (LT, "<"%string, 1%nat)
  | ">" => if starts_with "=" s then Ok (GEQ, ">="%string, 2%nat)
           else Ok (GT, ">"%string, 1%nat)
  | "!" => if starts_with "=" s then Ok (NEQ, "!="%string, 2%nat)
           else Fault (Throw "Unexpected character: !")
  | c => Fault (Throw ("Unexpected character: " +:+ String c EmptyString))
  end%char.

Definition word_token (raw : string) : TokenType * string :=
  match KEYWORDS !! upper raw with
  | Some k => (k, upper raw)
  | None => (IDENTIFIER, raw)
  end.

Definition is_word_start (c : ascii) : bool := isalpha c || ceq c underscore.

Definition lex_token (s : list ascii) : outcome lexed :=
  match s with
  | [] => Ok (EOF_TOKEN, ""%string, 0%nat)
  | c :: s' =>
      if isdigit c then
        Ok (INT_LITERAL, of_chars (takew isdigit s), length (takew isdigit s))
      else if ceq c quote then
        let body := takew (λ c, negb (ceq c quote)) s' in
        if (length s' <=? length body)%nat then Fault (Throw "Unterminated string literal")
        else Ok (STRING_LITERAL, of_chars body, (2 + length body)%nat)
      else if is_word_start c then
        let raw := takew is_ident_char s in
        Ok (word_token (of_chars raw), length raw)
      else lex_punctuation c s'
  end.

(** ** Canonical lexer states: [pre] read, [rest] to come *)
Definition nl (s : list ascii) : Z := Z.of_nat (length (filter (λ c, c = newline) s)).
Definition lex_at (pre rest : list ascii) : Lexer :=
  mkLexer (pre ++ rest) (length pre) (1 + nl pre).
(** The [int] line counter does not overflow. *)
Definition lines_ok (s : list ascii) : Prop := nl s < 2 ^ 31 - 1.

Lemma nl_app a b : nl (a ++ b) = nl a + nl b.
Proof. unfold nl. rewrite filter_app, length_app. lia. Qed.
Lemma nl_nonneg a : 0 ≤ nl a.
Proof. unfold nl. lia. Qed.
Lemma nl_newline : nl [newline] = 1.
Proof. done. Qed.
Lemma nl_other c : ceq c newline = false → nl [c] = 0.
Proof.
  intros H%bool_decide_eq_false. unfold nl.
  by rewrite filter_cons_False by done.
Qed.
Lemma nl_le_length s : nl s ≤ Z.of_nat (length s).
Proof. unfold nl. pose proof (length_filter (λ c, c = newline) s). lia. Qed.

Section canonical.
Implicit Types (pre rest : list ascii) (c : ascii).

Lemma lex_at_app pre a rest :
  mkLexer (pre ++ a ++ rest) (length pre + length a) (1 + nl (pre ++ a)) =
  lex_at (pre ++ a) rest.
Proof. unfold lex_at. by rewrite length_app, <- app_assoc. Qed.

Lemma IsAtEnd_at pre rest :
  IsAtEnd (lex_at pre rest) = match rest with [] => true | _ => false end.
Proof.
  unfold IsAtEnd, lex_at. cbn [input_ pos_]. rewrite length_app.
  destruct rest; simpl; [apply Nat.leb_le|apply Nat.leb_gt]; lia.
Qed.

Lemma char_at_cons pre c rest : char_at (pre ++ c :: rest) (length pre) = Some c.
Proof.
  unfold char_at. rewrite length_app. simpl length.
  rewrite (proj2 (Nat.eqb_neq _ _)) by lia.
  rewrite lookup_app_r by lia. by rewrite Nat.sub_diag.
Qed.

Lemma Peek_at pre c rest : Peek (lex_at pre (c :: rest)) = c.
Proof.
  unfold Peek. rewrite IsAtEnd_at. unfold lex_at. cbn [input_ pos_].
  by rewrite char_at_cons.
Qed.

Lemma snoc_at pre c rest line :
  line = 1 + nl (pre ++ [c]) →
  mkLexer (pre ++ c :: rest) (S (length pre)) line = lex_at (pre ++ [c]) rest.
Proof.
  intros ->. rewrite <- lex_at_app. simpl length. rewrite Nat.add_1_r. done.
Qed.

Lemma inc_pos_at pre c rest :
  ceq c newline = false → inc_pos (lex_at pre (c :: rest)) = (lex_at (pre ++ [c]) rest, Ok tt).
Proof.
  intros Hc. unfold inc_pos. f_equal. apply snoc_at. cbn [line_ lex_at].
  rewrite nl_app, (nl_other _ Hc). lia.
Qed.

Lemma Advance_at pre c rest :
  ceq c newline = false → Advance (lex_at pre (c :: rest)) = (lex_at (pre ++ [c]) rest, Ok c).
Proof.
  intros Hc. unfold Advance. rewrite bindM_get.
  rewrite (bindM_def _ c) by apply char_at_cons.
  by rewrite (bindM_Ok _ _ _ _ _ (inc_pos_at pre c rest Hc)).
Qed.

Lemma inc_line_at pre rest :
  lines_ok (pre ++ newline :: rest) →
  inc_line (lex_at pre (newline :: rest)) =
    (mkLexer (pre ++ newline :: rest) (length pre) (1 + nl (pre ++ [newline])), Ok tt).
Proof.
  intros H. unfold lines_ok in H. rewrite cons_middle, !nl_app, nl_newline in H.
  pose proof (nl_nonneg rest). pose proof (nl_nonneg pre).
  unfold inc_line, add_s32. rewrite bindM_get. cbn [line_ lex_at].
  rewrite (proj2 (in_s32_spec _)) by lia.
  unfold bindM, liftM, putM. cbn [input_ pos_ lex_at]. rewrite nl_app, nl_newline.
  do 2 f_equal. lia.
Qed.

Lemma newline_at pre rest :
  lines_ok (pre ++ newline :: rest) →
  (inc_line ;; inc_pos) (lex_at pre (newline :: rest)) = (lex_at (pre ++ [newline]) rest, Ok tt).
Proof.
  intros H. rewrite (bindM_Ok _ _ _ _ _ (inc_line_at _ _ H)).
  unfold inc_pos. cbn [input_ pos_ line_]. f_equal. by apply snoc_at.
Qed.

(** A loop body that reads one character accepted by [p]. *)
Definition reads_one (p : ascii → bool) (body : M Lexer unit) : Prop :=
  ∀ pre c rest, p c = true → lines_ok (pre ++ c :: rest) →
    body (lex_at pre (c :: rest)) = (lex_at (pre ++ [c]) rest, Ok tt).

Lemma while_peek_at p body fuel pre rest :
  reads_one p body → lines_ok (pre ++ rest) → (length rest < fuel)%nat →
  while_peek p body fuel (lex_at pre rest) =
    (lex_at (pre ++ takew p rest) (dropw p rest), Ok tt).
Proof.
  intros Hb. revert pre rest. induction fuel as [|fuel IH]; intros pre rest Hl Hf; [lia|].
  cbn [while_peek]. rewrite bindM_get, IsAtEnd_at.
  destruct rest as [|c rest]; [by rewrite app_nil_r|].
  rewrite Peek_at. cbn [takew dropw negb andb]. destruct (p c) eqn:Hp.
  - rewrite (bindM_Ok _ _ _ _ _ (Hb pre c rest Hp Hl)).
    rewrite IH; [by rewrite <- app_assoc|by rewrite <- app_assoc|simpl in Hf; lia].
  - by rewrite app_nil_r.
Qed.

Lemma reads_one_inc_pos : reads_one (λ c, negb (ceq c newline)) inc_pos.
Proof. intros pre c rest Hc%negb_true_iff _. by apply inc_pos_at. Qed.

Lemma reads_one_Advance p :
  (∀ c, p c = true → ceq c newline = false) → reads_one p (Advance ;; retM tt).
Proof.
  intros Hp pre c rest Hc _.
  by rewrite (bindM_Ok _ _ _ _ _ (Advance_at pre c rest (Hp c Hc))).
Qed.

Lemma Advance_newline_at pre rest line :
  line = 1 + nl (pre ++ [newline]) →
  Advance (mkLexer (pre ++ newline :: rest) (length pre) line) =
    (lex_at (pre ++ [newline]) rest, Ok newline).
Proof.
  intros Hl. unfold Advance. rewrite bindM_get. cbn [input_ pos_].
  rewrite (bindM_def _ newline) by apply char_at_cons.
  unfold bindM, inc_pos, retM. cbn [input_ pos_ line_]. by rewrite snoc_at.
Qed.

Lemma reads_one_string :
  reads_one (λ c, negb (ceq c quote))
    (l <- getM ;; (if ceq (Peek l) newline then inc_line else retM tt) ;; Advance ;; retM tt).
Proof.
  intros pre c rest _ Hl. rewrite bindM_get, Peek_at. destruct (ceq c newline) eqn:Hc.
  - pose proof Hc as ->%bool_decide_eq_true. rewrite (bindM_Ok _ _ _ _ _ (inc_line_at _ _ Hl)).
    by rewrite (bindM_Ok _ _ _ _ _ (Advance_newline_at _ _ _ eq_refl)).
  - rewrite bindM_ret. by rewrite (bindM_Ok _ _ _ _ _ (Advance_at _ _ _ Hc)).
Qed.
End canonical.

(** ** Skipping blanks *)
Lemma isspace_newline : isspace newline = true.
Proof. done. Qed.

Lemma blanks_prefix cm s : blanks cm s ++ drop (length (blanks cm s)) s = s.
Proof.
  revert cm. induction s as [|c s IH]; intros cm; [done|]. cbn [blanks].
  repeat case_match; cbn [length drop app]; by rewrite ?IH.
Qed.

(** A comment ends at the newline, which is then skipped as white space. *)
Lemma blanks_comment s :
  blanks true s =
    takew (λ c, negb (ceq c newline)) s ++
    blanks false (dropw (λ c, negb (ceq c newline)) s).
Proof.
  induction s as [|c s IH]; [done|]. cbn [blanks takew dropw].
  destruct (ceq c newline) eqn:Hc; cbn [negb].
  - pose proof Hc as ->%bool_decide_eq_true. done.
  - by rewrite IH.
Qed.

Lemma at_comment_at pre c rest :
  at_comment (lex_at pre (c :: rest)) c = ceq c dash && starts_with dash rest.
Proof.
  unfold at_comment. destruct (ceq c dash); [|done]. cbn [andb input_ pos_ lex_at].
  rewrite length_app. destruct rest as [|d rest]; cbn [length starts_with].
  - by rewrite (proj2 (Nat.ltb_ge _ _)) by lia.
  - rewrite (proj2 (Nat.ltb_lt _ _)) by lia. cbn [andb].
    rewrite (cons_middle c), app_assoc.
    replace (length pre + 1)%nat with (length (pre ++ [c])) by (rewrite length_app; done).
    by rewrite char_at_cons.
Qed.

Lemma skip_loop_at fuel pre rest :
  lines_ok (pre ++ rest) → (length rest < fuel)%nat →
  skip_loop fuel (lex_at pre rest) =
    (lex_at (pre ++ blanks false rest) (after_blanks rest), Ok tt).
Proof.
  revert pre rest. induction fuel as [|fuel IH]; intros pre rest Hl Hf; [lia|].
  cbn [skip_loop]. rewrite bindM_get, IsAtEnd_at.
  destruct rest as [|c rest]; [by rewrite app_nil_r|]. rewrite Peek_at, at_comment_at.
  unfold after_blanks. cbn [blanks]. simpl in Hf.
  destruct (ceq c newline) eqn:Hn.
  { pose proof Hn as ->%bool_decide_eq_true. rewrite isspace_newline.
    rewrite (bindM_Ok _ _ _ _ _ (inc_line_at _ _ Hl)).
    erewrite bindM_Ok by (unfold inc_pos; cbn [input_ pos_ line_]; by rewrite snoc_at).
    rewrite IH; [by rewrite <- app_assoc|by rewrite <- app_assoc|lia]. }
  destruct (isspace c).
  { rewrite (bindM_Ok _ _ _ _ _ (inc_pos_at _ _ _ Hn)).
    rewrite IH; [by rewrite <- app_assoc|by rewrite <- app_assoc|lia]. }
  destruct (ceq c dash && _) eqn:Hc; [|by rewrite app_nil_r].
  erewrite bindM_Ok by (apply while_peek_at; [apply reads_one_inc_pos|done|];
    unfold loop_fuel; cbn [input_ lex_at]; rewrite length_app; simpl; lia).
  cbn [takew dropw]. rewrite Hn. cbn [negb].
  rewrite IH.
  - rewrite blanks_comment. unfold after_blanks.
    rewrite <- !app_assoc. cbn [length drop app]. f_equal. f_equal.
    rewrite length_app, <- drop_drop, drop_takew. done.
  - rewrite <- app_assoc. cbn [app]. by rewrite takew_dropw.
  - pose proof (takew_dropw (λ c, negb (ceq c newline)) rest) as Heq.
    apply (f_equal length) in Heq. rewrite length_app in Heq. lia.
Qed.

Lemma loop_fuel_at pre rest : (length rest < loop_fuel (lex_at pre rest))%nat.
Proof. unfold loop_fuel. cbn [input_ lex_at]. rewrite length_app. lia. Qed.

Lemma SkipWhitespace_at pre rest :
  lines_ok (pre ++ rest) →
  SkipWhitespace (lex_at pre rest) =
    (lex_at (pre ++ blanks false rest) (after_blanks rest), Ok tt).
Proof. intros H. apply skip_loop_at; [done|apply loop_fuel_at]. Qed.

(** ** Reading one token *)
Lemma between_newline lo hi c :
  (10 <? lo) || (hi <? 10) = true → between lo hi c = true → ceq c newline = false.
Proof.
  intros H1 H2. apply bool_decide_eq_false. intros ->. unfold between in H2.
  change (Z_of_char newline) with 10 in H2.
  apply orb_true_iff in H1 as [H1%Z.ltb_lt|H1%Z.ltb_lt];
  apply andb_true_iff in H2 as [H2%Z.leb_le H3%Z.leb_le]; lia.
Qed.
Lemma isdigit_newline c : isdigit c = true → ceq c newline = false.
Proof. by apply between_newline. Qed.
Lemma is_ident_newline c : is_ident_char c = true → ceq c newline = false.
Proof.
  unfold is_ident_char, isalnum, isalpha.
  rewrite !orb_true_iff. intros [[[H|H]|H]|H];
    [by apply (between_newline 65 90)|by apply (between_newline 97 122)|
     by apply (between_newline 48 57)|].
  by apply bool_decide_eq_true in H as ->.
Qed.

Lemma substr_at pre raw rest :
  substr (lex_at (pre ++ raw) rest) (length pre)
    (pos_ (lex_at (pre ++ raw) rest) - length pre) = of_chars raw.
Proof.
  unfold substr. cbn [input_ pos_ lex_at]. rewrite length_app.
  replace (length pre + length raw - length pre)%nat with (length raw) by lia.
  by rewrite <- app_assoc, drop_app_length, take_app_length.
Qed.

(** The state reached and the token returned when [lex_token] yields [r]. *)
Definition token_at (pre s : list ascii) (r : lexed) : Lexer * outcome Token :=
  let '(ty, v, n) := r in
  (lex_at (pre ++ take n s) (drop n s), Ok (mkToken ty v (1 + nl (pre ++ take n s)))).

Lemma ReadNumber_at pre s :
  lines_ok (pre ++ s) →
  ReadNumber (lex_at pre s) =
    token_at pre s (INT_LITERAL, of_chars (takew isdigit s), length (takew isdigit s)).
Proof.
  intros Hl. unfold ReadNumber. rewrite bindM_get.
  erewrite bindM_Ok by (apply while_peek_at; [apply reads_one_Advance, isdigit_newline|done|
    apply loop_fuel_at]).
  rewrite bindM_get. cbn [token_at]. rewrite take_takew, drop_takew.
  by rewrite (substr_at pre).
Qed.

Lemma ReadIdentifierOrKeyword_at pre s :
  lines_ok (pre ++ s) →
  ReadIdentifierOrKeyword (lex_at pre s) =
    token_at pre s
      (word_token (of_chars (takew is_ident_char s)), length (takew is_ident_char s)).
Proof.
  intros Hl. unfold ReadIdentifierOrKeyword. rewrite bindM_get.
  erewrite bindM_Ok by (apply while_peek_at; [apply reads_one_Advance, is_ident_newline|done|
    apply loop_fuel_at]).
  rewrite bindM_get, (substr_at pre). unfold word_token.
  case_match; cbn [token_at]; by rewrite take_takew, drop_takew.
Qed.

Lemma ReadString_at pre s :
  lines_ok (pre ++ quote :: s) →
  let body := takew (λ c, negb (ceq c quote)) s in
  if (length s <=? length body)%nat
  then (ReadString (lex_at pre (quote :: s))).2 = Fault (Throw "Unterminated string literal")
  else ReadString (lex_at pre (quote :: s)) =
    token_at pre (quote :: s) (STRING_LITERAL, of_chars body, (2 + length body)%nat).
Proof.
  intros Hl body. unfold ReadString.
  rewrite (bindM_Ok _ _ _ _ _ (Advance_at pre quote s eq_refl)), bindM_get.
  erewrite bindM_Ok by (apply while_peek_at; [apply reads_one_string|
    by rewrite <- app_assoc|apply loop_fuel_at]).
  rewrite bindM_get, IsAtEnd_at.
  pose proof (takew_dropw (λ c, negb (ceq c quote)) s) as Heq. fold body in Heq |- *.
  destruct (dropw _ s) as [|d r] eqn:Hd.
  - rewrite app_nil_r in Heq. rewrite Heq. by rewrite Nat.leb_refl.
  - apply dropw_head in Hd. apply negb_false_iff in Hd. clearbody body. subst s.
    rewrite length_app. rewrite (proj2 (Nat.leb_gt _ _)) by (simpl; lia).
    pose proof Hd as ->%bool_decide_eq_true.
    rewrite (bindM_Ok _ _ _ _ _ (Advance_at _ quote r eq_refl)), bindM_get.
    rewrite (substr_at (pre ++ [quote])). cbn [token_at plus take drop].
    rewrite take_app_ge, drop_app_ge by lia.
    replace (S (length body) - length body)%nat with 1%nat by lia.
    cbn [take drop line_ lex_at]. by rewrite <- !app_assoc.
Qed.

Lemma emit_at pre rest ty v :
  emit ty v (lex_at pre rest) = (lex_at pre rest, Ok (mkToken ty v (1 + nl pre))).
Proof. done. Qed.

Lemma if_next_at d k1 k2 pre rest :
  ceq d newline = false →
  if_next d k1 k2 (lex_at pre rest) =
    if starts_with d rest then k1 (lex_at (pre ++ [d]) (tail rest))
    else k2 (lex_at pre rest).
Proof.
  intros Hd. unfold if_next. rewrite bindM_get, IsAtEnd_at.
  destruct rest as [|c rest]; [done|]. rewrite Peek_at. cbn [negb andb starts_with].
  destruct (ceq c d) eqn:E; [|done]. apply bool_decide_eq_true in E as ->.
  by rewrite (bindM_Ok _ _ _ _ _ (Advance_at _ _ _ Hd)).
Qed.

Lemma starts_with_cons c s : starts_with c s = true → s = c :: tail s.
Proof. destruct s as [|d s]; [done|]. by intros ->%bool_decide_eq_true. Qed.

(** [NextToken] returned what the reference says, or threw what it throws. *)
Definition follows (pre s : list ascii) (r : Lexer * outcome Token) (o : outcome lexed) : Prop :=
  match o with
  | Ok x => r = token_at pre s x
  | Fault f => r.2 = Fault f
  end.

Lemma lex_at_1 pre c s x :
  (lex_at (pre ++ [c]) s, Ok (mkToken x.1 x.2 (1 + nl (pre ++ [c])))) =
  token_at pre (c :: s) (x, 1%nat).
Proof. by destruct x. Qed.

Ltac punct_case :=
  rewrite ?if_next_at by reflexivity;
  repeat match goal with
  | |- context [starts_with ?d ?s] =>
      let E := fresh in
      destruct (starts_with d s) eqn:E; [apply starts_with_cons in E|]
  end;
  cbn [follows token_at take drop];
  first [ reflexivity
        | match goal with
          | E : ?s = ?d :: tail ?s |- context [?s] =>
              rewrite E; cbn [take drop tail]; rewrite emit_at, <- !app_assoc; reflexivity
          end ].

Lemma punctuation_at pre c s :
  follows pre (c :: s) (punctuation c (lex_at (pre ++ [c]) s)) (lex_punctuation c s).
Proof.
  destruct c as [[] [] [] [] [] [] [] []]; unfold punctuation, lex_punctuation; punct_case.
Qed.

Lemma NextToken_spec pre rest :
  lines_ok (pre ++ rest) →
  follows (pre ++ blanks false rest) (after_blanks rest) (NextToken (lex_at pre rest))
    (lex_token (after_blanks rest)).
Proof.
  intros Hl. unfold NextToken. rewrite (bindM_Ok _ _ _ _ _ (SkipWhitespace_at _ _ Hl)).
  rewrite bindM_get, IsAtEnd_at.
  assert (lines_ok ((pre ++ blanks false rest) ++ after_blanks rest)) as Hl'.
  { rewrite <- app_assoc. unfold after_blanks. by rewrite blanks_prefix. }
  revert Hl'. generalize (pre ++ blanks false rest), (after_blanks rest).
  intros p [|c s] Hl'; [by cbn; rewrite app_nil_r|].
  rewrite Peek_at. cbn [lex_token]. unfold is_word_start.
  destruct (isdigit c); [by apply ReadNumber_at|].
  destruct (ceq c quote) eqn:Hq.
  { pose proof Hq as ->%bool_decide_eq_true. pose proof (ReadString_at p s Hl') as H.
    cbv zeta in H |- *. by case_match. }
  destruct (isalpha c || ceq c underscore); [by apply ReadIdentifierOrKeyword_at|].
  destruct (ceq c newline) eqn:Hn.
  - pose proof Hn as ->%bool_decide_eq_true. unfold Advance, bindM, getM. cbn [input_ pos_ lex_at].
    by rewrite char_at_cons.
  - rewrite (bindM_Ok _ _ _ _ _ (Advance_at _ _ _ Hn)). apply punctuation_at.
Qed.

(** ** Totality *)
Definition lex_error (msg : string) : Prop :=
  msg = "Unterminated string literal"%string ∨
  ∃ c, msg = ("Unexpected character: " +:+ String c EmptyString)%string.

Lemma KEYWORDS_not_EOF s : KEYWORDS !! s ≠ Some EOF_TOKEN.
Proof.
  intros H%elem_of_list_to_map_2%list_elem_of_In. simpl in H. intuition congruence.
Qed.

Lemma lex_punctuation_cases c s :
  (∃ ty v n, lex_punctuation c s = Ok (ty, v, n) ∧ ty ≠ EOF_TOKEN ∧
     (1 ≤ n ≤ length (c :: s))%nat) ∨
  (∃ msg, lex_punctuation c s = Fault (Throw msg) ∧ lex_error msg).
Proof.
  destruct c as [[] [] [] [] [] [] [] []]; unfold lex_punctuation, lex_error;
    repeat case_match;
    repeat match goal with H : starts_with _ s = true |- _ =>
      apply starts_with_cons, (f_equal length) in H; simpl in H end;
    first [ left; do 3 eexists; split; [reflexivity|]; split; [done|]; simpl; lia
          | right; eexists; split; [reflexivity|]; eauto ].
Qed.

(** A token other than the end marker has a character; only the two messages
    of the source are thrown. *)
Lemma lex_token_cases s :
  (s = [] ∧ lex_token s = Ok (EOF_TOKEN, ""%string, 0%nat)) ∨
  (∃ ty v n, lex_token s = Ok (ty, v, n) ∧ ty ≠ EOF_TOKEN ∧ (1 ≤ n ≤ length s)%nat) ∨
  (∃ msg, lex_token s = Fault (Throw msg) ∧ lex_error msg).
Proof.
  destruct s as [|c s]; [by left|right]. cbn [lex_token].
  pose proof (length_takew_le isdigit s). pose proof (length_takew_le is_ident_char s).
  destruct (isdigit c) eqn:Hd.
  { left. do 3 eexists. split; [reflexivity|]. split; [done|]. cbn [takew]. rewrite Hd. simpl. lia. }
  destruct (ceq c quote).
  { case_match eqn:Hb; [right; eexists; split; [reflexivity|by left]|].
    apply Nat.leb_gt in Hb. left. do 3 eexists. split; [reflexivity|]. split; [done|].
    cbn [length]. lia. }
  destruct (is_word_start c) eqn:Hw; [|apply lex_punctuation_cases].
  left. unfold word_token. assert (is_ident_char c = true) as Hi.
  { revert Hw. unfold is_word_start, is_ident_char, isalnum. rewrite Hd. by destruct (isalpha c). }
  case_match eqn:HK; do 3 eexists; (split; [reflexivity|]); (split; [|cbn [takew]; rewrite Hi; simpl; lia]).
  - intros ->. by apply KEYWORDS_not_EOF in HK.
  - done.
Qed.

(** What a complete run from a state with [rest] to read yields. *)
Definition tokens_ok (pre rest : list ascii) (acc : list Token) (o : outcome (list Token)) : Prop :=
  (∃ toks, o = Ok (acc ++ toks ++ [mkToken EOF_TOKEN "" (1 + nl (pre ++ rest))]) ∧
     Forall (λ t, tok_type t ≠ EOF_TOKEN) toks ∧ (length toks ≤ length rest)%nat) ∨
  (∃ msg, o = Fault (Throw msg) ∧ lex_error msg).

Lemma after_blanks_split pre rest n :
  pre ++ rest =
  ((pre ++ blanks false rest) ++ take n (after_blanks rest)) ++ drop n (after_blanks rest).
Proof.
  rewrite <- app_assoc, take_drop, <- app_assoc. unfold after_blanks.
  by rewrite blanks_prefix.
Qed.

Lemma tokenize_loop_total fuel pre rest acc :
  lines_ok (pre ++ rest) → (length rest < fuel)%nat →
  tokens_ok pre rest acc (tokenize_loop fuel acc (lex_at pre rest)).2.
Proof.
  revert pre rest acc. induction fuel as [|fuel IH]; intros pre rest acc Hl Hf; [lia|].
  pose proof (NextToken_spec pre rest Hl) as HN. cbn [tokenize_loop].
  destruct (lex_token_cases (after_blanks rest)) as
    [[He Ht]|[(ty & v & n & Ht & Hty & Hn)|(msg & Ht & Hm)]];
    rewrite Ht in HN; cbn [follows] in HN.
  - unfold token_at in HN. rewrite (bindM_Ok _ _ _ _ _ HN). rewrite bool_decide_true by done.
    left. exists []. rewrite (after_blanks_split pre rest 0), He.
    cbn [take drop app]. rewrite !app_nil_r. split; [reflexivity|]. split; [constructor|simpl; lia].
  - unfold token_at in HN. rewrite (bindM_Ok _ _ _ _ _ HN). rewrite bool_decide_false by done.
    pose proof (after_blanks_split pre rest n) as Hs.
    assert (length (drop n (after_blanks rest)) < length rest)%nat as Hlt.
    { apply (f_equal length) in Hs. rewrite !length_app, length_take in Hs. lia. }
    rewrite Hs in Hl.
    destruct (IH _ _ (acc ++ [mkToken ty v (1 + nl ((pre ++ blanks false rest) ++
      take n (after_blanks rest)))]) Hl ltac:(lia)) as [(toks & HO & HF & Hlen)|(msg & HO & Hm)].
    + left. eexists (_ :: toks). rewrite HO, Hs, <- (app_assoc acc). split; [reflexivity|].
      split; [by constructor|simpl; lia].
    + right. by exists msg.
  - right. exists msg. unfold bindM. destruct (NextToken _) as [l' o]. simpl in HN. by subst o.
Qed.

(** ** Printed tokens *)

(** A complete run of white space and comments: no comment is left open. *)
Fixpoint is_gap (cm : bool) (g : list ascii) : bool :=
  match g with
  | [] => negb cm
  | c :: g =>
      if cm then is_gap (negb (ceq c newline)) g
      else if isspace c then is_gap false g
      else ceq c dash && starts_with dash g && is_gap true g
  end.

(** [c] right after the token spelled [raw] would be read as part of it. *)
Definition extends (raw : list ascii) (c : ascii) : bool :=
  match raw with
  | [] => false
  | d :: r =>
      if isdigit d then isdigit c
      else if ceq d quote then false
      else if is_word_start d then is_ident_char c
      else match r with
           | [] => (ceq d "<" && (ceq c "=" || ceq c ">")) || (ceq d ">" && ceq c "=")
           | _ => false
           end
  end%char.
Definition separated (raw next : list ascii) : bool :=
  match next with [] => true | c :: _ => negb (extends raw c) end.

(** The spellings of a token: any case of a keyword, both forms of NEQ. *)
Inductive spelling : TokenType * string → list ascii → Prop :=
  | spell_int ds :
      ds ≠ [] → forallb isdigit ds = true → spelling (INT_LITERAL, of_chars ds) ds
  | spell_string body :
      forallb (λ c, negb (ceq c quote)) body = true →
      spelling (STRING_LITERAL, of_chars body) (quote :: body ++ [quote])
  | spell_word c r :
      is_word_start c = true → forallb is_ident_char r = true →
      spelling (word_token (of_chars (c :: r))) (c :: r)
  | spell_punctuation ty text :
      (ty, text) ∈ [(LPAREN, "("); (RPAREN, ")"); (COMMA, ","); (SEMICOLON, ";");
        (DOT, "."); (STAR, "*"); (EQ, "="); (LT, "<"); (GT, ">"); (LEQ, "<=");
        (GEQ, ">="); (NEQ, "!=")]%string →
      spelling (ty, text) (to_chars text)
  | spell_neq : spelling (NEQ, "<>"%string) ["<"%char; ">"%char].

Definition is_word (raw : list ascii) : bool :=
  match raw with [] => false | c :: r => is_word_start c && forallb is_ident_char r end.
Lemma spell_word_as t raw :
  is_word raw = true → word_token (of_chars raw) = t → spelling t raw.
Proof.
  destruct raw as [|c r]; [done|]. intros [Hc Hr]%andb_true_iff <-. by constructor.
Qed.

(** Pieces of a text: each token with the blanks before it and its spelling. *)
Record piece := mkPiece {
  piece_gap : list ascii;
  piece_raw : list ascii;
  piece_token : TokenType * string
}.
Fixpoint render (ps : list piece) (last : list ascii) : list ascii :=
  match ps with
  | [] => last
  | p :: ps => piece_gap p ++ piece_raw p ++ render ps last
  end.
Fixpoint pieces_ok (ps : list piece) (last : list ascii) : Prop :=
  match ps with
  | [] => is_gap false last = true
  | p :: ps =>
      is_gap false (piece_gap p) = true ∧ spelling (piece_token p) (piece_raw p) ∧
      separated (piece_raw p) (render ps last) = true ∧ pieces_ok ps last
  end.

(** What may follow a gap: the end or the head of a token. *)
Definition token_head (s : list ascii) : bool :=
  match s with [] => true | c :: _ => negb (isspace c) && negb (ceq c dash) end.

Lemma blanks_gap cm g s :
  is_gap cm g = true → token_head s = true → blanks cm (g ++ s) = g.
Proof.
  revert cm. induction g as [|c g IH]; intros cm Hg Hs; simpl in *.
  - apply negb_true_iff in Hg as ->. destruct s as [|c s]; [done|]. simpl in *.
    apply andb_true_iff in Hs as [->%negb_true_iff ->%negb_true_iff]. done.
  - destruct cm; [by rewrite IH|]. destruct (isspace c); [by rewrite IH|].
    apply andb_true_iff in Hg as [[-> Hd]%andb_true_iff Hg].
    destruct g as [|d g]; [done|]. simpl starts_with in *. rewrite Hd. cbn [andb].
    by rewrite (IH true).
Qed.
Lemma after_blanks_gap g s :
  is_gap false g = true → token_head s = true →
  blanks false (g ++ s) = g ∧ after_blanks (g ++ s) = s.
Proof.
  intros Hg Hs. unfold after_blanks. rewrite (blanks_gap false g s Hg Hs).
  by rewrite drop_app_length.
Qed.

Lemma word_start_facts c :
  is_word_start c = true →
  isdigit c = false ∧ ceq c quote = false ∧ isspace c = false ∧ ceq c dash = false ∧
  is_ident_char c = true.
Proof. by destruct c as [[] [] [] [] [] [] [] []]. Qed.
Lemma digit_facts c : isdigit c = true → isspace c = false ∧ ceq c dash = false.
Proof. by destruct c as [[] [] [] [] [] [] [] []]. Qed.

Lemma spelling_head t raw s : spelling t raw → token_head (raw ++ s) = true.
Proof.
  destruct 1 as [ds Hne Hd|body _|c r Hc _|ty text Ht|].
  - destruct ds as [|d ds]; [done|]. simpl in *. apply andb_true_iff in Hd as [Hd _].
    by destruct (digit_facts d Hd) as [-> ->].
  - done.
  - simpl. by destruct (word_start_facts c Hc) as (_ & _ & -> & -> & _).
  - repeat (apply elem_of_cons in Ht as [[= -> ->]|Ht]; [done|]). by apply elem_of_nil in Ht.
  - done.
Qed.

Lemma separated_takew (raw s : list ascii) (p : ascii → bool) :
  (∀ c, extends raw c = p c) → separated raw s = true →
  match s with [] => true | c :: _ => negb (p c) end = true.
Proof. intros He. destruct s as [|c s]; [done|]. simpl. by rewrite He. Qed.

Lemma separated_lt s :
  separated ["<"%char] s = true → starts_with "=" s = false ∧ starts_with ">" s = false.
Proof.
  destruct s as [|d s]; [done|]. cbn [starts_with separated].
  change (extends ["<"%char] d) with ((ceq d "=" || ceq d ">") || false).
  rewrite orb_false_r, negb_true_iff, orb_false_iff. done.
Qed.
Lemma separated_gt s : separated [">"%char] s = true → starts_with "=" s = false.
Proof.
  destruct s as [|d s]; [done|]. cbn [starts_with separated].
  change (extends [">"%char] d) with (ceq d "="). by rewrite negb_true_iff.
Qed.

(** Maximal munch: a separated spelling is read back as its token. *)
Lemma spelling_lexed t raw s :
  spelling t raw → separated raw s = true → lex_token (raw ++ s) = Ok (t, length raw).
Proof.
  destruct 1 as [ds Hne Hd|body Hb|c r Hc Hr|ty text Ht|]; intros Hs.
  - destruct ds as [|d ds]; [done|]. cbn [app lex_token].
    assert (isdigit d = true) as Hd0 by (simpl in Hd; by apply andb_true_iff in Hd as [? _]).
    rewrite Hd0. change (d :: ds ++ s) with ((d :: ds) ++ s).
    rewrite takew_app; [done|done|]. eapply separated_takew, Hs. intros c. simpl. by rewrite Hd0.
  - cbn [app lex_token]. change (isdigit quote) with false. change (ceq quote quote) with true.
    cbv iota zeta. rewrite <- app_assoc, takew_app by done.
    rewrite !length_app. rewrite (proj2 (Nat.leb_gt _ _)) by (simpl; lia).
    do 2 f_equal. cbn [length]. rewrite length_app. simpl. lia.
  - destruct (word_start_facts c Hc) as (Hd & Hq & _ & _ & Hi). cbn [app lex_token].
    rewrite Hd, Hq, Hc. change (c :: r ++ s) with ((c :: r) ++ s).
    rewrite takew_app; [done|by simpl; rewrite Hi|].
    eapply separated_takew, Hs. intros d. simpl. by rewrite Hd, Hq, Hc.
  - repeat (apply elem_of_cons in Ht as [[= -> ->]|Ht]; [try reflexivity|]);
      [..|by apply elem_of_nil in Ht].
    + change (lex_punctuation "<" s = Ok (LT, "<"%string, 1%nat)). cbv [lex_punctuation].
      by destruct (separated_lt s Hs) as [-> ->].
    + change (lex_punctuation ">" s = Ok (GT, ">"%string, 1%nat)). cbv [lex_punctuation].
      by rewrite (separated_gt s Hs).
  - done.
Qed.

Lemma spelling_not_EOF t raw : spelling t raw → t.1 ≠ EOF_TOKEN ∧ raw ≠ [].
Proof.
  destruct 1 as [ds Hne _|body _|c r _ _|ty text Ht|]; [done|done| | |done].
  - split; [|done]. unfold word_token. case_match eqn:HK; [|done].
    simpl. intros ->. by apply KEYWORDS_not_EOF in HK.
  - repeat (apply elem_of_cons in Ht as [[= -> ->]|Ht]; [done|]). by apply elem_of_nil in Ht.
Qed.

Definition token_pair (t : Token) : TokenType * string := (tok_type t, tok_value t).

Lemma tokenize_loop_pieces ps last pre acc fuel :
  pieces_ok ps last → lines_ok (pre ++ render ps last) →
  (length (render ps last) < fuel)%nat →
  ∃ toks, (tokenize_loop fuel acc (lex_at pre (render ps last))).2 = Ok (acc ++ toks) ∧
    token_pair <$> toks = (piece_token <$> ps) ++ [(EOF_TOKEN, ""%string)].
Proof.
  revert pre acc fuel. induction ps as [|p ps IH]; intros pre acc fuel Hok Hl Hf;
    (destruct fuel as [|fuel]; [lia|]); cbn [render pieces_ok tokenize_loop] in *.
  - pose proof (NextToken_spec pre last Hl) as HN.
    destruct (after_blanks_gap last [] Hok eq_refl) as [_ Ha]. rewrite app_nil_r in Ha.
    rewrite Ha in HN. cbn [lex_token follows token_at] in HN.
    rewrite (bindM_Ok _ _ _ _ _ HN). rewrite bool_decide_true by done.
    eexists [_]. split; reflexivity.
  - destruct Hok as (Hg & Hsp & Hsep & Hok).
    pose proof (NextToken_spec pre _ Hl) as HN.
    destruct (after_blanks_gap _ _ Hg (spelling_head _ _ (render ps last) Hsp)) as [Hb Ha].
    destruct (spelling_not_EOF _ _ Hsp) as [Hty Hne].
    rewrite Ha, Hb, (spelling_lexed _ _ _ Hsp Hsep) in HN. destruct p as [g raw [ty v]].
    cbn [follows token_at piece_gap piece_raw piece_token fst] in *.
    rewrite take_app_length, drop_app_length in HN. rewrite (bindM_Ok _ _ _ _ _ HN).
    rewrite bool_decide_false by done.
    edestruct (IH ((pre ++ g) ++ raw)) as (toks & HO & Hm); [done| | |].
    { by rewrite <- !app_assoc. }
    2: { rewrite HO. eexists (_ :: toks). rewrite <- (app_assoc acc).
         split; [reflexivity|]. cbn. by f_equal. }
    rewrite !length_app in Hf. destruct raw; [done|]. simpl in Hf. lia.
Qed.

Lemma tokenize_cases sql :
  lines_ok (to_chars sql) → tokens_ok [] (to_chars sql) [] (tokenize sql).
Proof.
  intros Hl. apply (tokenize_loop_total (S (length (to_chars sql))) [] (to_chars sql) [] Hl). lia.
Qed.
Lemma tokenize_pieces ps last :
  pieces_ok ps last → lines_ok (render ps last) →
  ∃ toks, tokenize (of_chars (render ps last)) = Ok toks ∧
    token_pair <$> toks = (piece_token <$> ps) ++ [(EOF_TOKEN, ""%string)].
Proof.
  intros Hok Hl. unfold tokenize, Tokenize, Lexer_ctor.
  rewrite String.list_ascii_of_string_of_list_ascii.
  destruct (tokenize_loop_pieces ps last [] [] (S (length (render ps last))) Hok Hl
    ltac:(lia)) as (toks & HO & Hm).
  exists toks. split; [exact HO|exact Hm].
Qed.

(** On every text with fewer than [2^31 - 1] newlines [Tokenize] ends: it
    returns the tokens of the text followed by one [EOF_TOKEN] carrying the last
    line's number, never an inner one and at most one token per character, or it
    throws one of the two messages of the source.  It never reads outside
    [input_]. *)
Theorem Tokenize_total (sql : string) :
  lines_ok (to_chars sql) →
  (∃ toks, tokenize sql = Ok (toks ++ [mkToken EOF_TOKEN "" (1 + nl (to_chars sql))]) ∧
     Forall (λ t, tok_type t ≠ EOF_TOKEN) toks ∧
     (length toks ≤ length (to_chars sql))%nat) ∨
  (∃ msg, tokenize sql = Fault (Throw msg) ∧
     (msg = "Unterminated string literal"%string ∨
      ∃ c, msg = ("Unexpected character: " +:+ String c EmptyString)%string)).
Proof.
  intros Hl. destruct (tokenize_cases sql Hl) as [(toks & HO & HF & Hlen)|(msg & HO & Hm)].
  - left. by exists toks.
  - right. by exists msg.
Qed.

Lemma Tokenize_total_witness :
  (∃ toks, tokenize "SELECT a" = Ok (toks ++ [mkToken EOF_TOKEN "" 1]) ∧
     Forall (λ t, tok_type t ≠ EOF_TOKEN) toks ∧ (length toks ≤ 8)%nat) ∨
  (∃ msg, tokenize "SELECT a" = Fault (Throw msg) ∧
     (msg = "Unterminated string literal"%string ∨
      ∃ c, msg = ("Unexpected character: " +:+ String c EmptyString)%string)).
Proof. apply (Tokenize_total "SELECT a"). vm_compute. reflexivity. Defined.

(** C36. Printing tokens and tokenizing the text gives the tokens back: for any
    blanks and comments between them, any letter case of the keywords, and no
    blanks where none are needed to keep two tokens apart. *)
Theorem Tokenize_print (ps : list piece) (last : list ascii) :
  pieces_ok ps last → lines_ok (render ps last) →
  ∃ toks, tokenize (of_chars (render ps last)) = Ok toks ∧
    token_pair <$> toks = (piece_token <$> ps) ++ [(EOF_TOKEN, ""%string)].
Proof. apply tokenize_pieces. Qed.

(** [select*from t--x] followed by a newline. *)
Definition demo_pieces : list piece :=
  [mkPiece [] (to_chars "select") (SELECT, "SELECT"%string);
   mkPiece [] (to_chars "*") (STAR, "*"%string);
   mkPiece [] (to_chars "from") (FROM, "FROM"%string);
   mkPiece (to_chars " ") (to_chars "t") (IDENTIFIER, "t"%string)].
Lemma Tokenize_print_witness :
  ∃ toks, tokenize "select*from t--x
" = Ok toks ∧
    token_pair <$> toks = [(SELECT, "SELECT"); (STAR, "*"); (FROM, "FROM");
      (IDENTIFIER, "t"); (EOF_TOKEN, "")]%string.
Proof.
  apply (Tokenize_print demo_pieces (to_chars "--x
")); [|vm_compute; reflexivity].
  unfold demo_pieces. cbn [pieces_ok piece_gap piece_raw piece_token].
  repeat (split; [reflexivity|]; split;
    [first [apply spell_word_as; reflexivity | apply spell_punctuation; set_solver]|];
    split; [reflexivity|]). exact eq_refl.
Defined.
