(* ===== verification/Ast.v ===== *)
(** * The syntax tree: [src/src/parser/ast.h]

    [Expr] is a tagged struct in the source, whose tag says which fields are
    meaningful: here one constructor per tag, with those fields.  An aggregate's
    [left] is null exactly when [is_star_arg] holds. *)
From stdpp Require Import base list strings.
From Stdlib Require Import ZArith.
From S2P Require Import Prelude Types.

Module Expr.
Inductive Expr : Type :=
  | COLUMN_REF (table_alias col_name : string)
  | INT_LITERAL (int_val : Z)
  | STRING_LITERAL (str_val : string)
  | BINARY_OP (op : string) (left right : Expr)
  | UNARY_OP (op : string) (left : Expr)
  | STAR
  | AGGREGATE (func_name : string) (left : option Expr).
End Expr.
Abbreviation Expr := Expr.Expr.

(** Structural induction that reaches the argument of an aggregate. *)
Section Expr_induction.
Variable P : Expr → Prop.
Hypotheses
  (Hcol : ∀ t c, P (Expr.COLUMN_REF t c))
  (Hint : ∀ z, P (Expr.INT_LITERAL z))
  (Hstr : ∀ s, P (Expr.STRING_LITERAL s))
  (Hbin : ∀ op l r, P l → P r → P (Expr.BINARY_OP op l r))
  (Hun : ∀ op l, P l → P (Expr.UNARY_OP op l))
  (Hstar : P Expr.STAR)
  (Hagg0 : ∀ f, P (Expr.AGGREGATE f None))
  (Hagg : ∀ f e, P e → P (Expr.AGGREGATE f (Some e))).
Fixpoint Expr_induction (e : Expr) : P e :=
  match e with
  | Expr.COLUMN_REF t c => Hcol t c
  | Expr.INT_LITERAL z => Hint z
  | Expr.STRING_LITERAL s => Hstr s
  | Expr.BINARY_OP op l r => Hbin op l r (Expr_induction l) (Expr_induction r)
  | Expr.UNARY_OP op l => Hun op l (Expr_induction l)
  | Expr.STAR => Hstar
  | Expr.AGGREGATE f None => Hagg0 f
  | Expr.AGGREGATE f (Some e) => Hagg f e (Expr_induction e)
  end.
End Expr_induction.

Fixpoint Expr_beq (x y : Expr) : bool :=
  match x, y with
  | Expr.COLUMN_REF t c, Expr.COLUMN_REF t' c' =>
      bool_decide (t = t') && bool_decide (c = c')
  | Expr.INT_LITERAL z, Expr.INT_LITERAL z' => bool_decide (z = z')
  | Expr.STRING_LITERAL s, Expr.STRING_LITERAL s' => bool_decide (s = s')
  | Expr.BINARY_OP op l r, Expr.BINARY_OP op' l' r' =>
      bool_decide (op = op') && Expr_beq l l' && Expr_beq r r'
  | Expr.UNARY_OP op l, Expr.UNARY_OP op' l' => bool_decide (op = op') && Expr_beq l l'
  | Expr.STAR, Expr.STAR => true
  | Expr.AGGREGATE f None, Expr.AGGREGATE f' None => bool_decide (f = f')
  | Expr.AGGREGATE f (Some e), Expr.AGGREGATE f' (Some e') =>
      bool_decide (f = f') && Expr_beq e e'
  | _, _ => false
  end.

Lemma Expr_beq_eq x y : Expr_beq x y = true ↔ x = y.
Proof.
  revert y. induction x using Expr_induction; intros [| | | | | |f' [e'|]];
    cbn [Expr_beq]; rewrite ?andb_true_iff, ?bool_decide_eq_true;
    try (split; [done|]; by intros [=]); naive_solver.
Qed.

#[export] Instance Expr_eq_dec : EqDecision Expr.
Proof.
  intros x y. destruct (Expr_beq x y) eqn:E; [left|right].
  - by apply Expr_beq_eq.
  - intros H%Expr_beq_eq. congruence.
Defined.

(** ** Statements *)
Record ColumnDef := mkColumnDef { cd_name : string; cd_type_id : TypeId; cd_max_len : Z }.

Record CreateTableStmt := mkCreateTable {
  ct_table_name : string;
  ct_columns : list ColumnDef
}.
Record InsertStmt := mkInsert { ins_table_name : string; ins_values : list Expr }.
Record SelectItem := mkSelectItem { si_expr : Expr; si_alias : string }.
Record JoinClause := mkJoinClause {
  j_table_name : string;
  j_alias : string;
  j_condition : Expr
}.
Record OrderByItem := mkOrderByItem { ob_expr : Expr; ob_ascending : bool }.
Record SelectStmt := mkSelect {
  select_list : list SelectItem;
  from_table : string;
  from_alias : string;
  joins : list JoinClause;
  where_clause : option Expr;
  group_by : list Expr;
  order_by : list OrderByItem
}.
Record ExplainStmt := mkExplain { ex_select : SelectStmt }.

Inductive Statement :=
  | CreateTableS (s : CreateTableStmt)
  | InsertS (s : InsertStmt)
  | SelectS (s : SelectStmt)
  | ExplainS (s : ExplainStmt).
