(* ===== verification/Parser.v ===== *)
(** * The SQL parser: [src/src/parser/parser.h], [parser.cpp]

    The parser object is its token vector and position; reading a token outside
    the vector is undefined.  Expressions recurse only through [ParsePrimary]
    (parentheses and aggregate arguments), so the methods take the nested
    [ParseExpr] as an argument and [ParseExpr] ties the knot with fuel; loops
    are bounded by the number of tokens. *)
From stdpp Require Import base gmap list strings.
From Stdlib Require Import ZArith Lia Ascii.
From S2P Require Import Prelude Types Lexer Ast.

(** ** [std::stoi]: blanks, a sign, digits; both its exceptions say "stoi". *)
Definition digit_val (c : ascii) : Z := Z_of_char c - 48.
Fixpoint digits_val (acc : Z) (ds : list ascii) : Z :=
  match ds with
  | [] => acc
  | d :: ds => digits_val (10 * acc + digit_val d) ds
  end.
Definition split_sign (cs : list ascii) : Z * list ascii :=
  match cs with
  | [] => (1, [])
  | c :: r =>
      if ceq c "-" then (-1, r) else if ceq c "+" then (1, r) else (1, cs)
  end.
Definition stoi (s : string) : outcome Z :=
  let cs := dropw isspace (to_chars s) in
  let '(sign, ds) := split_sign cs in
  match takew isdigit ds with
  | [] => Fault (Throw "stoi")
  | ds => let v := sign * digits_val 0 ds in
          if in_s32 v then Ok v else Fault (Throw "stoi")
  end.

(** ** Token helpers *)
Record Parser := mkParser { tokens_ : list Token; ppos_ : nat }.
Definition Parser_ctor (tokens : list Token) : Parser := mkParser tokens 0.

Definition Current : M Parser Token :=
  p <- getM ;; defM (tokens_ p !! ppos_ p).
Definition Consume : M Parser Token :=
  p <- getM ;;
  t <- defM (tokens_ p !! ppos_ p) ;;
  putM (mkParser (tokens_ p) (S (ppos_ p))) ;;
  retM t.
Definition Check_tok (t : TokenType) : M Parser bool :=
  c <- Current ;; retM (bool_decide (tok_type c = t)).
Definition Match_tok (t : TokenType) : M Parser bool :=
  b <- Check_tok t ;;
  if b then p <- getM ;; putM (mkParser (tokens_ p) (S (ppos_ p))) ;; retM true
  else retM false.
Definition Expect (type : TokenType) (msg : string) : M Parser Token :=
  b <- Check_tok type ;;
  if b then Consume
  else c <- Current ;; throwM ("Parse error at '" +:+ tok_value c +:+ "': " +:+ msg).

(** [Expect(type, msg).value]. *)
Definition ExpectValue (type : TokenType) (msg : string) : M Parser string :=
  t <- Expect type msg ;; retM (tok_value t).

Definition list_fuel (p : Parser) : nat := S (length (tokens_ p)).

(** [do { list.push_back(item()); } while (Match(COMMA));]. *)
Fixpoint do_list {A} (item : M Parser A) (fuel : nat) (items : list A) : M Parser (list A) :=
  match fuel with
  | O => faultM OutOfFuel
  | S fuel =>
      x <- item ;;
      let items := items ++ [x] in
      b <- Match_tok TokenType.COMMA ;;
      if b then do_list item fuel items else retM items
  end.
Definition comma_list {A} (item : M Parser A) : M Parser (list A) :=
  p <- getM ;; do_list item (list_fuel p) [].

(** ** Expressions *)
Definition OPS : list (TokenType * string) :=
  [(TokenType.EQ, "="); (TokenType.LT, "<"); (TokenType.GT, ">");
   (TokenType.LEQ, "<="); (TokenType.GEQ, ">="); (TokenType.NEQ, "!=")]%string.
Definition AGG_NAMES : list (TokenType * string) :=
  [(TokenType.COUNT, "COUNT"); (TokenType.SUM, "SUM"); (TokenType.AVG, "AVG");
   (TokenType.MIN, "MIN"); (TokenType.MAX, "MAX")]%string.

(** [for (auto& [tt, name] : table) if (Check(tt)) return body(name);] and what
    follows the loop.  The tables are unordered maps; at most one entry has the
    current token's type, so their order does not show. *)
Fixpoint for_check {A} (table : list (TokenType * string)) (body : string → M Parser A)
    (after : M Parser A) : M Parser A :=
  match table with
  | [] => after
  | (ty, name) :: table =>
      b <- Check_tok ty ;; if b then body name else for_check table body after
  end.
Fixpoint for_match {A} (table : list (TokenType * string)) (body : string → M Parser A)
    (after : M Parser A) : M Parser A :=
  match table with
  | [] => after
  | (ty, name) :: table =>
      b <- Match_tok ty ;; if b then body name else for_match table body after
  end.

(** [while (Match(tt)) left = {op, left, operand()};]. *)
Fixpoint left_loop (ty : TokenType) (op : string) (operand : M Parser Expr) (fuel : nat)
    (left : Expr) : M Parser Expr :=
  match fuel with
  | O => faultM OutOfFuel
  | S fuel =>
      b <- Match_tok ty ;;
      if b then
        right <- operand ;;
        left_loop ty op operand fuel (Expr.BINARY_OP op left right)
      else retM left
  end.

Section expressions.
(** The nested [ParseExpr]. *)
Variable ParseExpr_rec : M Parser Expr.

(** The aggregate branch of [ParsePrimary], after [Check(tt)]. *)
Definition parse_aggregate (name : string) : M Parser Expr :=
  Consume ;;
  Expect TokenType.LPAREN ("Expected '(' after " +:+ name) ;;
  star <- Match_tok TokenType.STAR ;;
  left <- (if star then retM None else e <- ParseExpr_rec ;; retM (Some e)) ;;
  Expect TokenType.RPAREN "Expected ')'" ;;
  retM (Expr.AGGREGATE name left).

(** The column branch and the final throw. *)
Definition parse_column : M Parser Expr :=
  ident <- Check_tok TokenType.IDENTIFIER ;;
  if ident then
    t <- Consume ;;
    let name := tok_value t in
    dotted <- Match_tok TokenType.DOT ;;
    if dotted then
      col <- ExpectValue TokenType.IDENTIFIER "Expected column name after '.'" ;;
      retM (Expr.COLUMN_REF name col)
    else retM (Expr.COLUMN_REF "" name)
  else
    c <- Current ;;
    throwM ("Unexpected token in expression: '" +:+ tok_value c +:+ "'").

Definition ParsePrimary_body : M Parser Expr :=
  lparen <- Match_tok TokenType.LPAREN ;;
  if lparen then
    e <- ParseExpr_rec ;;
    Expect TokenType.RPAREN "Expected ')'" ;;
    retM e
  else
  star <- Match_tok TokenType.STAR ;;
  if star then retM Expr.STAR else
  int <- Check_tok TokenType.INT_LITERAL ;;
  if int then
    t <- Consume ;;
    v <- liftM (stoi (tok_value t)) ;;
    retM (Expr.INT_LITERAL v)
  else
  str <- Check_tok TokenType.STRING_LITERAL ;;
  if str then
    t <- Consume ;;
    retM (Expr.STRING_LITERAL (tok_value t))
  else for_check AGG_NAMES parse_aggregate parse_column.

Definition ParseComparison : M Parser Expr :=
  left <- ParsePrimary_body ;;
  for_match OPS
    (λ op_str, right <- ParsePrimary_body ;; retM (Expr.BINARY_OP op_str left right))
    (retM left).

Definition ParseNot : M Parser Expr :=
  not <- Match_tok TokenType.NOT ;;
  if not then
    left <- ParseComparison ;; retM (Expr.UNARY_OP "NOT" left)
  else ParseComparison.

Definition ParseAnd : M Parser Expr :=
  left <- ParseNot ;;
  p <- getM ;;
  left_loop TokenType.AND "AND" ParseNot (list_fuel p) left.

Definition ParseOr : M Parser Expr :=
  left <- ParseAnd ;;
  p <- getM ;;
  left_loop TokenType.OR "OR" ParseAnd (list_fuel p) left.
End expressions.

Fixpoint ParseExpr_fuel (fuel : nat) : M Parser Expr :=
  match fuel with
  | O => faultM OutOfFuel
  | S fuel => ParseOr (ParseExpr_fuel fuel)
  end.
Definition ParseExpr : M Parser Expr := p <- getM ;; ParseExpr_fuel (list_fuel p).
Definition ParsePrimary : M Parser Expr := ParsePrimary_body ParseExpr.

(** ** CREATE TABLE and INSERT *)

(** One round of the column loop. *)
Definition parse_column_def : M Parser ColumnDef :=
  name <- ExpectValue TokenType.IDENTIFIER "Expected column name" ;;
  int <- Match_tok TokenType.INT_KW ;;
  if int then retM (mkColumnDef name INT 0) else
  varchar <- Match_tok TokenType.VARCHAR_KW ;;
  if varchar then
    Expect TokenType.LPAREN "Expected '(' after VARCHAR" ;;
    v <- ExpectValue TokenType.INT_LITERAL "Expected length" ;;
    n <- liftM (stoi v) ;;
    Expect TokenType.RPAREN "Expected ')'" ;;
    retM (mkColumnDef name VARCHAR (wrap_u16 n))
  else throwM "Expected type (INT or VARCHAR)".

Definition ParseCreateTable : M Parser CreateTableStmt :=
  Expect TokenType.TABLE "Expected TABLE" ;;
  name <- ExpectValue TokenType.IDENTIFIER "Expected table name" ;;
  Expect TokenType.LPAREN "Expected '('" ;;
  columns <- comma_list parse_column_def ;;
  Expect TokenType.RPAREN "Expected ')'" ;;
  retM (mkCreateTable name columns).

Definition ParseInsert : M Parser InsertStmt :=
  Expect TokenType.INTO "Expected INTO" ;;
  name <- ExpectValue TokenType.IDENTIFIER "Expected table name" ;;
  Expect TokenType.VALUES "Expected VALUES" ;;
  Expect TokenType.LPAREN "Expected '('" ;;
  values <- comma_list ParsePrimary ;;
  Expect TokenType.RPAREN "Expected ')'" ;;
  retM (mkInsert name values).

(** ** SELECT *)
Definition ParseSelectItem : M Parser SelectItem :=
  e <- ParseExpr ;;
  as_ <- Match_tok TokenType.AS ;;
  if as_ then
    alias <- ExpectValue TokenType.IDENTIFIER "Expected alias" ;;
    retM (mkSelectItem e alias)
  else retM (mkSelectItem e "").
Definition ParseSelectList : M Parser (list SelectItem) := comma_list ParseSelectItem.

(** [AS alias], an implicit alias, or none; the further tests of [ParseSelect]'s
    implicit alias compare the same token with other types than IDENTIFIER and
    are always true. *)
Definition parse_alias : M Parser string :=
  as_ <- Match_tok TokenType.AS ;;
  if as_ then ExpectValue TokenType.IDENTIFIER "Expected alias" else
  ident <- Check_tok TokenType.IDENTIFIER ;;
  if ident then t <- Consume ;; retM (tok_value t) else retM "".

Fixpoint joins_loop (fuel : nat) (joins : list JoinClause) : M Parser (list JoinClause) :=
  match fuel with
  | O => faultM OutOfFuel
  | S fuel =>
      b <- Match_tok TokenType.JOIN ;;
      if b then
        name <- ExpectValue TokenType.IDENTIFIER "Expected table name" ;;
        alias <- parse_alias ;;
        Expect TokenType.ON "Expected ON" ;;
        cond <- ParseExpr ;;
        joins_loop fuel (joins ++ [mkJoinClause name alias cond])
      else retM joins
  end.
Definition ParseJoins : M Parser (list JoinClause) :=
  p <- getM ;; joins_loop (list_fuel p) [].

Definition ParseWhere : M Parser (option Expr) :=
  b <- Match_tok TokenType.WHERE ;;
  if b then e <- ParseExpr ;; retM (Some e) else retM None.

Definition ParseGroupBy : M Parser (list Expr) :=
  b <- Match_tok TokenType.GROUP ;;
  if b then
    Expect TokenType.BY "Expected BY after GROUP" ;; comma_list ParsePrimary
  else retM [].

Definition parse_order_item : M Parser OrderByItem :=
  e <- ParsePrimary ;;
  desc <- Match_tok TokenType.DESC ;;
  if desc then retM (mkOrderByItem e false)
  else Match_tok TokenType.ASC ;; retM (mkOrderByItem e true).
Definition ParseOrderBy : M Parser (list OrderByItem) :=
  b <- Match_tok TokenType.ORDER ;;
  if b then
    Expect TokenType.BY "Expected BY after ORDER" ;; comma_list parse_order_item
  else retM [].

Definition ParseSelect : M Parser SelectStmt :=
  select_list <- ParseSelectList ;;
  Expect TokenType.FROM "Expected FROM" ;;
  from_table <- ExpectValue TokenType.IDENTIFIER "Expected table name" ;;
  from_alias <- parse_alias ;;
  joins <- ParseJoins ;;
  where_clause <- ParseWhere ;;
  group_by <- ParseGroupBy ;;
  order_by <- ParseOrderBy ;;
  retM (mkSelect select_list from_table from_alias joins where_clause group_by order_by).

Definition ParseExplain : M Parser ExplainStmt :=
  Expect TokenType.SELECT "EXPLAIN only supports SELECT" ;;
  s <- ParseSelect ;;
  retM (mkExplain s).

(** ** Top level *)
Definition parse_statement : M Parser Statement :=
  create <- Match_tok TokenType.CREATE ;;
  if create then s <- ParseCreateTable ;; retM (CreateTableS s) else
  insert <- Match_tok TokenType.INSERT ;;
  if insert then s <- ParseInsert ;; retM (InsertS s) else
  select <- Match_tok TokenType.SELECT ;;
  if select then s <- ParseSelect ;; retM (SelectS s) else
  explain <- Match_tok TokenType.EXPLAIN ;;
  if explain then s <- ParseExplain ;; retM (ExplainS s) else
  throwM "Expected CREATE, INSERT, SELECT, or EXPLAIN".
Definition Parse : M Parser Statement :=
  stmt <- parse_statement ;;
  Match_tok TokenType.SEMICOLON ;;
  retM stmt.

(** [Parser(Lexer(sql).Tokenize()).Parse()]. *)
Definition parse_sql (sql : string) : outcome Statement :=
  toks <-! tokenize sql ;; (Parse (Parser_ctor toks)).2.
