(* ===== verification/ParserSafety.v ===== *)
(** * The parser stays inside its token vector and terminates

    [safe n strict m]: from any state whose remaining tokens end with the end
    marker and are at most [n], the method [m] returns having consumed a prefix
    of them that leaves the end marker (a non-empty prefix when [strict]), or
    throws. *)
From stdpp Require Import base gmap list strings.
From Stdlib Require Import ZArith Lia Ascii.
From S2P Require Import Prelude Types Lexer LexerTheorems Ast Parser.
Import TokenType.

Definition lexeme : Type := TokenType * string.

(** Tokens from their types and values; [ln] gives the line of the [i]-th. *)
Definition mk_token (ln : nat → Z) (i : nat) (p : lexeme) : Token :=
  mkToken p.1 p.2 (ln i).
Definition p_at (ln : nat → Z) (pre rest : list lexeme) : Parser :=
  mkParser (imap (mk_token ln) (pre ++ rest)) (length pre).

Inductive terminated : list lexeme → Prop :=
  | terminated_eof v : terminated [(EOF_TOKEN, v)]
  | terminated_cons p rest : terminated rest → terminated (p :: rest).

Lemma terminated_tail p rest : terminated (p :: rest) → p.1 ≠ EOF_TOKEN → terminated rest.
Proof. by inversion 1; subst. Qed.

(** Every token vector is of this form. *)
Lemma imap_mk_token (toks : list Token) :
  imap (mk_token (λ i, default 0 (tok_line <$> toks !! i))) (token_pair <$> toks) = toks.
Proof.
  apply list_eq. intros i. rewrite list_lookup_imap, list_lookup_fmap.
  destruct (toks !! i) as [t|] eqn:E; [|done].
  cbn. unfold mk_token. rewrite E. by destruct t.
Qed.

Section states.
Context (ln : nat → Z).
Implicit Types (pre rest : list lexeme).

Lemma p_at_snoc pre p rest :
  mkParser (imap (mk_token ln) (pre ++ p :: rest)) (S (length pre)) = p_at ln (pre ++ [p]) rest.
Proof. unfold p_at. by rewrite <- app_assoc, length_app, Nat.add_1_r. Qed.

Lemma Current_at pre p rest :
  Current (p_at ln pre (p :: rest)) =
    (p_at ln pre (p :: rest), Ok (mk_token ln (length pre) p)).
Proof.
  unfold Current, bindM, getM. cbn [tokens_ ppos_ p_at].
  rewrite list_lookup_imap, lookup_app_r, Nat.sub_diag by lia. done.
Qed.
Lemma Check_at ty pre p rest :
  Check_tok ty (p_at ln pre (p :: rest)) = (p_at ln pre (p :: rest), Ok (bool_decide (p.1 = ty))).
Proof. unfold Check_tok. by rewrite (bindM_Ok _ _ _ _ _ (Current_at pre p rest)). Qed.
Lemma Consume_at pre p rest :
  Consume (p_at ln pre (p :: rest)) = (p_at ln (pre ++ [p]) rest, Ok (mk_token ln (length pre) p)).
Proof.
  unfold Consume, bindM, getM, defM. cbn [tokens_ ppos_ p_at].
  rewrite list_lookup_imap, lookup_app_r, Nat.sub_diag by lia.
  cbn. unfold putM, retM. by rewrite <- p_at_snoc.
Qed.
Lemma Match_at ty pre p rest :
  Match_tok ty (p_at ln pre (p :: rest)) =
    if bool_decide (p.1 = ty) then (p_at ln (pre ++ [p]) rest, Ok true)
    else (p_at ln pre (p :: rest), Ok false).
Proof.
  unfold Match_tok. rewrite (bindM_Ok _ _ _ _ _ (Check_at _ _ _ _)).
  case_bool_decide; [|done]. rewrite bindM_get, bindM_put. cbn [tokens_ ppos_ p_at].
  by rewrite p_at_snoc.
Qed.
Lemma Expect_at ty msg pre p rest :
  p.1 = ty →
  Expect ty msg (p_at ln pre (p :: rest)) =
    (p_at ln (pre ++ [p]) rest, Ok (mk_token ln (length pre) p)).
Proof.
  intros H. unfold Expect. rewrite (bindM_Ok _ _ _ _ _ (Check_at _ _ _ _)).
  rewrite bool_decide_true by done. apply Consume_at.
Qed.
Lemma Expect_at_throws ty msg pre p rest :
  p.1 ≠ ty →
  Expect ty msg (p_at ln pre (p :: rest)) =
    (p_at ln pre (p :: rest), Fault (Throw ("Parse error at '" +:+ p.2 +:+ "': " +:+ msg))).
Proof.
  intros H. unfold Expect. rewrite (bindM_Ok _ _ _ _ _ (Check_at _ _ _ _)).
  rewrite bool_decide_false by done. by rewrite (bindM_Ok _ _ _ _ _ (Current_at _ _ _)).
Qed.

(** ** Safety *)
Definition safe {A} (n : nat) (strict : bool) (m : M Parser A) : Prop :=
  ∀ pre rest, terminated rest → (length rest ≤ n)%nat →
    (∃ a rest' x, rest = a ++ rest' ∧ m (p_at ln pre rest) = (p_at ln (pre ++ a) rest', Ok x) ∧
       terminated rest' ∧ (strict = true → a ≠ [])) ∨
    (∃ s msg, m (p_at ln pre rest) = (s, Fault (Throw msg))).

Lemma safe_0 {A} s (m : M Parser A) : safe 0 s m.
Proof. intros pre rest Ht Hl. destruct Ht; simpl in Hl; lia. Qed.
Lemma safe_le {A} n n' s (m : M Parser A) : safe n s m → (n' ≤ n)%nat → safe n' s m.
Proof. intros H ? pre rest Ht Hl. apply H; [done|lia]. Qed.
Lemma safe_weak {A} n s (m : M Parser A) : safe n true m → safe n s m.
Proof.
  intros H pre rest Ht Hl. destruct (H pre rest Ht Hl) as [(a & r & x & ? & ? & ? & ?)|?];
    [left|by right]. exists a, r, x. auto.
Qed.
Lemma safe_throw {A} n s msg : safe n s (throwM msg : M Parser A).
Proof. intros pre rest _ _. right. by do 2 eexists. Qed.
Lemma safe_ret {A} n (x : A) : safe n false (retM x).
Proof. intros pre rest Ht _. left. exists [], rest, x. by rewrite app_nil_r. Qed.
Lemma safe_stoi n v : safe n false (liftM (stoi v)).
Proof.
  intros pre rest Ht _. unfold liftM, stoi. repeat case_match.
  all: first [ right; by do 2 eexists | left; exists [], rest; eexists; by rewrite app_nil_r ].
Qed.

(** Sequencing: after a strict method one token fewer remains. *)
Lemma safe_bind {A B} n s (m : M Parser A) (k : A → M Parser B) :
  safe n false m → (∀ x, safe n s (k x)) → safe n s (bindM m k).
Proof.
  intros Hm Hk pre rest Ht Hl. destruct (Hm pre rest Ht Hl) as
    [(a & r & x & -> & E & Ht' & _)|(s' & msg & E)].
  2: { right. exists s', msg. by rewrite (bindM_Fault _ _ _ _ _ E). }
  rewrite (bindM_Ok _ _ _ _ _ E). rewrite length_app in Hl.
  destruct (Hk x (pre ++ a) r Ht' ltac:(lia)) as [(b & r' & y & -> & E' & ? & Hs)|?];
    [left|by right].
  exists (a ++ b), r', y. rewrite <- !app_assoc in *. split_and!; [done..|].
  intros Hst [_ Hb]%app_nil. by apply Hs.
Qed.
Lemma safe_bind_strict {A B} n s (m : M Parser A) (k : A → M Parser B) :
  safe n true m → (∀ x, safe (n - 1) false (k x)) → safe n s (bindM m k).
Proof.
  intros Hm Hk pre rest Ht Hl. destruct (Hm pre rest Ht Hl) as
    [(a & r & x & -> & E & Ht' & Ha)|(s1 & msg & E)].
  2: { right. exists s1, msg. by rewrite (bindM_Fault _ _ _ _ _ E). }
  rewrite (bindM_Ok _ _ _ _ _ E). rewrite length_app in Hl. specialize (Ha eq_refl).
  assert (length a ≠ 0)%nat by (by destruct a).
  destruct (Hk x (pre ++ a) r Ht' ltac:(lia)) as [(b & r' & y & -> & E' & ? & _)|?];
    [left|by right].
  exists (a ++ b), r', y. rewrite <- !app_assoc in *. split_and!; [done..|].
  intros _ [Hb _]%app_nil. done.
Qed.

Lemma terminated_inv rest : terminated rest → ∃ p r, rest = p :: r.
Proof. destruct 1; eauto. Qed.

Lemma safe_Current {B} n s (k : Token → M Parser B) :
  (∀ t, safe n s (k t)) → safe n s (bindM Current k).
Proof.
  intros Hk pre rest Ht Hl. destruct (terminated_inv _ Ht) as (p & r & ->).
  rewrite (bindM_Ok _ _ _ _ _ (Current_at _ _ _)). by apply Hk.
Qed.

Lemma safe_Expect n ty msg : ty ≠ EOF_TOKEN → safe n true (Expect ty msg).
Proof.
  intros Hty pre rest Ht Hl. destruct (terminated_inv _ Ht) as (p & r & ->).
  destruct (decide (p.1 = ty)) as [E|E].
  - left. exists [p], r. eexists. split; [done|]. split; [by apply Expect_at|].
    split; [|done]. eapply terminated_tail; [done|]. congruence.
  - right. do 2 eexists. by apply Expect_at_throws.
Qed.
Lemma safe_ExpectValue n ty msg : ty ≠ EOF_TOKEN → safe n true (ExpectValue ty msg).
Proof.
  intros H. eapply safe_bind_strict; [by apply safe_Expect|]. intros t.
  apply safe_ret.
Qed.

(** [if (Match(ty)) ... else ...]. *)
Lemma safe_Match {B} n s s' ty (k : bool → M Parser B) :
  ty ≠ EOF_TOKEN → safe (n - 1) s' (k true) → safe n s (k false) →
  safe n s (bindM (Match_tok ty) k).
Proof.
  intros Hty H1 H2 pre rest Ht Hl. destruct (terminated_inv _ Ht) as (p & r & ->).
  unfold bindM. rewrite Match_at. case_bool_decide as E; [|by apply H2].
  simpl in Hl. destruct (H1 (pre ++ [p]) r) as [(a & r' & x & -> & -> & ? & _)|?];
    [eapply terminated_tail; [done|congruence]|lia|left|by right].
  exists (p :: a), r', x. by rewrite <- app_assoc.
Qed.

(** [if (Check(ty)) { ... Consume() ... } else ...]. *)
Lemma safe_Check {B} n s s' ty (k : Token → M Parser B) (k2 : M Parser B) :
  ty ≠ EOF_TOKEN → (∀ t, safe (n - 1) s' (k t)) → safe n s k2 →
  safe n s (bindM (Check_tok ty) (λ b, if b then bindM Consume k else k2)).
Proof.
  intros Hty H1 H2 pre rest Ht Hl. destruct (terminated_inv _ Ht) as (p & r & ->).
  rewrite (bindM_Ok _ _ _ _ _ (Check_at _ _ _ _)). case_bool_decide as E; [|by apply H2].
  rewrite (bindM_Ok _ _ _ _ _ (Consume_at _ _ _)). simpl in Hl.
  destruct (H1 (mk_token ln (length pre) p) (pre ++ [p]) r) as
    [(a & r' & x & -> & -> & ? & _)|?];
    [eapply terminated_tail; [done|congruence]|lia|left|by right].
  exists (p :: a), r', x. by rewrite <- app_assoc.
Qed.

(** A method that sizes its fuel from the token vector. *)
Lemma safe_get {B} n s (k : Parser → M Parser B) :
  (∀ p m, (m ≤ n)%nat → (m ≤ length (tokens_ p))%nat → safe m s (k p)) →
  safe n s (bindM getM k).
Proof.
  intros Hk pre rest Ht Hl. rewrite bindM_get. eapply (Hk _ (length rest)); [done| |done|done].
  cbn [tokens_ p_at]. rewrite length_imap, length_app. lia.
Qed.

Lemma safe_do_list {A} n fuel (item : M Parser A) acc :
  (n ≤ fuel)%nat → safe n true item → safe n true (do_list item fuel acc).
Proof.
  revert n acc. induction fuel as [|fuel IH]; intros n acc Hf Hi.
  { replace n with 0%nat by lia. apply safe_0. }
  cbn [do_list]. eapply safe_bind_strict; [done|]. intros x.
  apply (safe_Match _ false true); [done| |apply safe_ret].
  apply IH; [lia|]. eapply safe_le; [done|lia].
Qed.
Lemma safe_comma_list {A} n (item : M Parser A) : safe n true item → safe n true (comma_list item).
Proof.
  intros Hi. apply safe_get. intros p m Hm Hp. apply safe_do_list.
  - unfold list_fuel. lia.
  - by eapply safe_le.
Qed.
Lemma safe_left_loop n fuel ty op operand left :
  ty ≠ EOF_TOKEN → (n ≤ fuel)%nat → safe n true operand →
  safe n false (left_loop ty op operand fuel left).
Proof.
  intros Hty. revert n left. induction fuel as [|fuel IH]; intros n left Hf Ho.
  { replace n with 0%nat by lia. apply safe_0. }
  cbn [left_loop]. apply (safe_Match _ false false); [done| |apply safe_ret].
  assert (∀ m, (m ≤ n)%nat → safe m true operand) as Ho' by (intros; by eapply safe_le).
  apply safe_bind; [apply safe_weak, Ho'; lia|]. intros r. apply IH; [lia|]. apply Ho'. lia.
Qed.

(** ** Expressions *)
Section expr.
Context (n : nat) (rec : M Parser Expr) (Hrec : safe (n - 1) true rec).

Lemma safe_aggregate_tail m s name : (m ≤ n - 1)%nat →
  safe m s (Expect LPAREN ("Expected '(' after " +:+ name) ;;
    star <- Match_tok STAR ;;
    left <- (if star then retM None else e <- rec ;; retM (Some e)) ;;
    Expect RPAREN "Expected ')'" ;;
    retM (Expr.AGGREGATE name left)).
Proof.
  intros Hm. eapply safe_bind_strict; [by apply safe_Expect|]. intros _.
  eapply (safe_Match _ false false); [done|..]; apply safe_bind;
    [apply safe_ret| | |].
  - intros x. eapply safe_bind_strict; [by apply safe_Expect|]. intros; apply safe_ret.
  - eapply safe_bind_strict; [eapply safe_le; [exact Hrec|lia]|]. intros; apply safe_ret.
  - intros x. eapply safe_bind_strict; [by apply safe_Expect|]. intros; apply safe_ret.
Qed.

Lemma safe_column : safe n true parse_column.
Proof.
  apply (safe_Check _ true false); [done| |].
  - intros t. apply (safe_Match _ false false); [done| |apply safe_ret].
    eapply safe_bind_strict; [by apply safe_ExpectValue|]. intros; apply safe_ret.
  - apply safe_Current. intros t. apply safe_throw.
Qed.

Lemma safe_for_aggregate table :
  Forall (λ x, x.1 ≠ EOF_TOKEN) table →
  safe n true (for_check table (parse_aggregate rec) parse_column).
Proof.
  induction 1 as [|[ty name] table Hty _ IH]; [apply safe_column|]. cbn [for_check].
  apply (safe_Check _ true false); [done| |done]. intros _. by apply safe_aggregate_tail.
Qed.

Lemma safe_ParsePrimary_body : safe n true (ParsePrimary_body rec).
Proof.
  apply (safe_Match _ true false); [done| |].
  { eapply safe_bind_strict; [exact Hrec|]. intros e.
    eapply safe_bind_strict; [by apply safe_Expect|]. intros; apply safe_ret. }
  apply (safe_Match _ true false); [done|apply safe_ret|].
  apply (safe_Check _ true false); [done| |].
  { intros t. apply safe_bind; [apply safe_stoi|]. intros; apply safe_ret. }
  apply (safe_Check _ true false); [done|intros; apply safe_ret|].
  apply safe_for_aggregate. by repeat constructor.
Qed.
End expr.

Lemma safe_for_match table n s (body : string → M Parser Expr) after :
  Forall (λ x, x.1 ≠ EOF_TOKEN) table → (∀ op, safe (n - 1) false (body op)) →
  safe n s after → safe n s (for_match table body after).
Proof.
  intros Ht Hb Ha. induction Ht as [|[ty name] table Hty _ IH]; [done|]. cbn [for_match].
  by apply (safe_Match _ _ false).
Qed.

Lemma safe_ParseComparison n rec : safe (n - 1) true rec → safe n true (ParseComparison rec).
Proof.
  intros Hr. eapply safe_bind_strict; [by apply safe_ParsePrimary_body|]. intros l.
  apply safe_for_match; [by repeat constructor| |apply safe_ret]. intros op.
  eapply safe_bind_strict; [|intros; apply safe_ret].
  eapply safe_le; [apply (safe_ParsePrimary_body n), Hr|lia].
Qed.
Lemma safe_ParseNot n rec : safe (n - 1) true rec → safe n true (ParseNot rec).
Proof.
  intros Hr. apply (safe_Match _ true false); [done| |by apply safe_ParseComparison].
  eapply safe_bind_strict; [|intros; apply safe_ret].
  eapply safe_le; [apply (safe_ParseComparison n), Hr|lia].
Qed.
Lemma safe_chain n ty op operand :
  ty ≠ EOF_TOKEN → safe n true operand →
  safe n true (left <- operand ;; p <- getM ;; left_loop ty op operand (list_fuel p) left).
Proof.
  intros Hty Ho. eapply safe_bind_strict; [done|]. intros l. apply safe_get. intros p m Hm Hp.
  apply safe_left_loop; [done|unfold list_fuel; lia|]. eapply safe_le; [done|lia].
Qed.
Lemma safe_ParseOr n rec : safe (n - 1) true rec → safe n true (ParseOr rec).
Proof. intros Hr. apply safe_chain; [done|]. apply safe_chain; [done|]. by apply safe_ParseNot. Qed.

Lemma safe_ParseExpr_fuel fuel n : (n ≤ fuel)%nat → safe n true (ParseExpr_fuel fuel).
Proof.
  revert n. induction fuel as [|fuel IH]; intros n Hn.
  { replace n with 0%nat by lia. apply safe_0. }
  apply safe_ParseOr, IH. lia.
Qed.
Lemma safe_ParseExpr n : safe n true ParseExpr.
Proof. apply safe_get. intros p m _ Hp. apply safe_ParseExpr_fuel. unfold list_fuel. lia. Qed.
Lemma safe_ParsePrimary n : safe n true ParsePrimary.
Proof. apply safe_ParsePrimary_body, safe_ParseExpr. Qed.

(** ** Statements *)
Ltac safe_step :=
  lazymatch goal with
  | |- safe _ _ (retM _) => apply safe_ret
  | |- safe _ _ (throwM _) => apply safe_throw
  | |- safe _ _ (bindM (Match_tok _) _) =>
      apply (safe_Match _ _ false); [discriminate| |]; cbv beta iota
  | |- safe _ _ (bindM (Expect _ _) _) =>
      eapply safe_bind_strict; [by apply safe_Expect|intros ?]
  | |- safe _ _ (bindM (ExpectValue _ _) _) =>
      eapply safe_bind_strict; [by apply safe_ExpectValue|intros ?]
  | |- safe _ _ (bindM (liftM (stoi _)) _) => apply safe_bind; [apply safe_stoi|intros ?]
  | |- safe _ _ (bindM ParseExpr _) =>
      eapply safe_bind_strict; [apply safe_ParseExpr|intros ?]
  | |- safe _ _ (bindM ParsePrimary _) =>
      eapply safe_bind_strict; [apply safe_ParsePrimary|intros ?]
  end.
Ltac safe_steps := repeat safe_step.

Lemma safe_column_def n : safe n true parse_column_def.
Proof. unfold parse_column_def. safe_steps. Qed.
Lemma safe_ParseCreateTable n : safe n true ParseCreateTable.
Proof.
  unfold ParseCreateTable. safe_steps.
  eapply safe_bind_strict; [apply safe_comma_list, safe_column_def|]. intros ?. safe_steps.
Qed.
Lemma safe_ParseInsert n : safe n true ParseInsert.
Proof.
  unfold ParseInsert. safe_steps.
  eapply safe_bind_strict; [apply safe_comma_list, safe_ParsePrimary|]. intros ?. safe_steps.
Qed.
Lemma safe_alias n : safe n false parse_alias.
Proof.
  unfold parse_alias. safe_steps.
  - apply safe_weak. by apply safe_ExpectValue.
  - apply (safe_Check _ false false); [done|intros; safe_steps..].
Qed.
Lemma safe_SelectItem n : safe n true ParseSelectItem.
Proof. unfold ParseSelectItem. safe_steps. Qed.
Lemma safe_order_item n : safe n true parse_order_item.
Proof. unfold parse_order_item. safe_steps. Qed.
Lemma safe_joins_loop fuel n acc : (n ≤ fuel)%nat → safe n false (joins_loop fuel acc).
Proof.
  revert n acc. induction fuel as [|fuel IH]; intros n acc Hf.
  { replace n with 0%nat by lia. apply safe_0. }
  cbn [joins_loop]. safe_steps. apply safe_bind; [apply safe_alias|]. intros ?.
  safe_steps. apply IH. lia.
Qed.
Lemma safe_ParseJoins n : safe n false ParseJoins.
Proof. apply safe_get. intros p m _ Hp. apply safe_joins_loop. unfold list_fuel. lia. Qed.
Lemma safe_ParseWhere n : safe n false ParseWhere.
Proof. unfold ParseWhere. safe_steps. Qed.
Lemma safe_ParseGroupBy n : safe n false ParseGroupBy.
Proof. unfold ParseGroupBy. safe_steps. apply safe_weak, safe_comma_list, safe_ParsePrimary. Qed.
Lemma safe_ParseOrderBy n : safe n false ParseOrderBy.
Proof. unfold ParseOrderBy. safe_steps. apply safe_weak, safe_comma_list, safe_order_item. Qed.
Lemma safe_ParseSelect n : safe n true ParseSelect.
Proof.
  eapply safe_bind_strict; [apply safe_comma_list, safe_SelectItem|]. intros ?. safe_steps.
  apply safe_bind; [apply safe_alias|intros ?]. apply safe_bind; [apply safe_ParseJoins|intros ?].
  apply safe_bind; [apply safe_ParseWhere|intros ?].
  apply safe_bind; [apply safe_ParseGroupBy|intros ?].
  apply safe_bind; [apply safe_ParseOrderBy|intros ?]. safe_steps.
Qed.
Lemma safe_ParseExplain n : safe n true ParseExplain.
Proof.
  unfold ParseExplain. safe_steps. eapply safe_bind_strict; [apply safe_ParseSelect|intros ?].
  safe_steps.
Qed.
Lemma safe_Parse n : safe n true Parse.
Proof.
  eapply safe_bind_strict; [|intros ?; safe_steps]. unfold parse_statement. safe_steps.
  all: eapply safe_bind_strict; [|intros ?; safe_steps].
  - apply safe_ParseCreateTable.
  - apply safe_ParseInsert.
  - apply safe_ParseSelect.
  - apply safe_ParseExplain.
Qed.
End states.

Lemma terminated_app (l : list lexeme) v : terminated (l ++ [(EOF_TOKEN, v)]).
Proof. induction l; constructor; done. Qed.
Lemma terminated_not_nil l : terminated l → l ≠ [].
Proof. by destruct 1. Qed.

(** On a token vector that ends with [EOF_TOKEN] [Parse] returns a statement with the
    position still on a token of the vector, or throws; no [tokens_[pos_]] is
    read outside the vector and no loop runs on. *)
Lemma Parse_safe (toks : list Token) (eof : Token) :
  tok_type eof = EOF_TOKEN →
  (∃ p stmt, Parse (Parser_ctor (toks ++ [eof])) = (p, Ok stmt) ∧
     tokens_ p = toks ++ [eof] ∧ (0 < ppos_ p ≤ length toks)%nat) ∨
  (∃ p msg, Parse (Parser_ctor (toks ++ [eof])) = (p, Fault (Throw msg))).
Proof.
  intros Heof. set (all := toks ++ [eof]).
  pose proof (imap_mk_token all) as Hall. set (ln := λ i, _) in Hall.
  assert (terminated (token_pair <$> all)) as Ht.
  { unfold all. rewrite fmap_app. cbn. unfold token_pair at 2. rewrite Heof. apply terminated_app. }
  assert (Parser_ctor all = p_at ln [] (token_pair <$> all)) as ->.
  { unfold Parser_ctor, p_at. cbn [app length]. by rewrite Hall. }
  destruct (safe_Parse ln _ [] _ Ht (le_n _)) as [(a & r & x & Ea & -> & Hr & Hs)|H];
    [left|by right].
  eexists _, x. split; [done|]. cbn [tokens_ ppos_ p_at app]. rewrite <- Ea, Hall.
  split; [done|]. apply (f_equal length) in Ea. unfold all in Ea.
  rewrite length_fmap, !length_app in Ea. simpl in Ea.
  pose proof (Hs eq_refl). assert (length a ≠ 0)%nat by (by destruct a).
  assert (length r ≠ 0)%nat by (pose proof (terminated_not_nil r Hr); by destruct r). lia.
Qed.

(** C35. The front end is total: on every text with fewer than [2^31 - 1] newlines
    lexing and parsing return a statement or throw an exception.  No character
    outside [input_] and no token outside [tokens_] is read, and every loop and
    recursion of both ends. *)
Theorem parse_sql_total (sql : string) :
  lines_ok (to_chars sql) →
  (∃ stmt, parse_sql sql = Ok stmt) ∨ (∃ msg, parse_sql sql = Fault (Throw msg)).
Proof.
  intros Hl. unfold parse_sql.
  destruct (tokenize_cases sql Hl) as [(toks & -> & _ & _)|(msg & -> & _)]; [|right; by eexists].
  cbn [obind app]. edestruct (Parse_safe toks) as [(p & stmt & -> & _)|(p & msg & ->)];
    [reflexivity|left; by eexists|right; by eexists].
Qed.

Lemma parse_sql_total_witness :
  (∃ stmt, parse_sql "SELECT (" = Ok stmt) ∨
  (∃ msg, parse_sql "SELECT (" = Fault (Throw msg)).
Proof. apply parse_sql_total. vm_compute. reflexivity. Defined.
