(* ===== verification/ParserPrint.v ===== *)
(** * Printing expressions and reading them back

    [print_expr] prints with the fewest parentheses the grammar's precedence and
    left associativity allow.  [parses m t x ok]: on the tokens [t] followed by
    anything [ok] accepts, the method [m] consumes exactly [t] and returns [x]. *)
From stdpp Require Import base gmap list strings pretty.
From Stdlib Require Import ZArith Lia Ascii.
From S2P Require Import Prelude Types Lexer LexerTheorems Ast Parser ParserSafety.
Import TokenType.

(** ** [stoi] reads what [to_string] wrote *)
Lemma digits_val_app acc a b : digits_val acc (a ++ b) = digits_val (digits_val acc a) b.
Proof. revert acc. induction a as [|c a IH]; intros; simpl; auto. Qed.

Lemma pretty_N_char_facts (x : N) :
  (x < 10)%N → isdigit (pretty_N_char x) = true ∧ digit_val (pretty_N_char x) = Z.of_N x.
Proof.
  intros H. assert (x ∈ [0;1;2;3;4;5;6;7;8;9]%N) as Hx.
  { rewrite !elem_of_cons. lia. }
  repeat (apply elem_of_cons in Hx as [->|Hx]; [done|]). by apply elem_of_nil in Hx.
Qed.

Lemma pretty_N_go_digits x s :
  forallb isdigit (to_chars s) = true → forallb isdigit (to_chars (pretty_N_go x s)) = true.
Proof.
  revert s. induction (N.lt_wf_0 x) as [x _ IH]; intros s Hs.
  assert (x = 0 ∨ 0 < x)%N as [->|Hx] by lia; [by rewrite pretty_N_go_0|].
  rewrite pretty_N_go_step by done. apply IH; [apply N.div_lt; lia|]. cbn.
  destruct (pretty_N_char_facts (x `mod` 10)) as [-> _]; [apply N.mod_lt; lia|done].
Qed.

Lemma pretty_N_go_val x s :
  digits_val 0 (to_chars (pretty_N_go x s)) = digits_val (Z.of_N x) (to_chars s).
Proof.
  revert s. induction (N.lt_wf_0 x) as [x _ IH]; intros s.
  assert (x = 0 ∨ 0 < x)%N as [->|Hx] by lia; [by rewrite pretty_N_go_0|].
  rewrite pretty_N_go_step by done. rewrite IH by (apply N.div_lt; lia). cbn [to_chars digits_val].
  destruct (pretty_N_char_facts (x `mod` 10)) as [_ Hd]; [apply N.mod_lt; lia|].
  cbn. rewrite Hd. f_equal. rewrite N2Z.inj_div, N2Z.inj_mod.
  pose proof (Z.div_mod (Z.of_N x) 10). lia.
Qed.

(** Decimal text of a non-negative number. *)
Lemma to_string_digits z :
  0 ≤ z → ∃ ds, to_chars (to_string z) = ds ∧ ds ≠ [] ∧ forallb isdigit ds = true ∧
    digits_val 0 ds = z.
Proof.
  intros Hz. destruct z as [|x|x]; [|..|lia].
  { exists ["0"%char]. done. }
  eexists. split; [reflexivity|]. change (to_string (Z.pos x)) with (pretty_N (N.pos x)).
  unfold pretty_N. rewrite decide_False by done.
  pose proof (pretty_N_go_digits (N.pos x) "" eq_refl) as Hd.
  pose proof (pretty_N_go_val (N.pos x) "") as Hv. cbn [to_chars digits_val] in Hv.
  split_and!; [|done..]. intros Hn. rewrite Hn in Hv. done.
Qed.

Lemma takew_forallb {A} (p : A → bool) s : forallb p s = true → takew p s = s.
Proof. intros H. rewrite <- (app_nil_r s) at 1. by apply takew_app. Qed.

Lemma stoi_digits s ds :
  to_chars s = ds → ds ≠ [] → forallb isdigit ds = true → in_s32 (digits_val 0 ds) = true →
  stoi s = Ok (digits_val 0 ds).
Proof.
  intros E Hne Hd Hr. unfold stoi. rewrite E. destruct ds as [|c ds]; [done|].
  pose proof Hd as Hd'. cbn [forallb] in Hd'. apply andb_true_iff in Hd' as [Hc _].
  assert (dropw isspace (c :: ds) = c :: ds) as ->.
  { cbn [dropw]. by destruct (digit_facts c Hc) as [-> _]. }
  assert (split_sign (c :: ds) = (1, c :: ds)) as ->.
  { clear -Hc. by destruct c as [[] [] [] [] [] [] [] []]. }
  rewrite takew_forallb by done. cbv beta iota zeta. by rewrite Z.mul_1_l, Hr.
Qed.

Lemma stoi_to_string z : 0 ≤ z < 2 ^ 31 → stoi (to_string z) = Ok z.
Proof.
  intros [Hz Hlt]. destruct (to_string_digits z Hz) as (ds & E & Hne & Hd & <-).
  apply stoi_digits; [done..|]. apply in_s32_spec. lia.
Qed.

(** ** The printer *)
Definition name_type (table : list (TokenType * string)) (name : string) : TokenType :=
  default EOF_TOKEN (fst <$> (list_find (λ x, x.2 = name) table ≫= λ x, Some x.2)).
Definition in_names (table : list (TokenType * string)) (name : string) : bool :=
  existsb (λ x, bool_decide (x.2 = name)) table.

Definition is_ident (s : string) : bool :=
  is_word (to_chars s) && bool_decide (KEYWORDS !! upper s = None).

(** Levels: 0 OR, 1 AND, 2 NOT, 3 comparison, 4 primary. *)
Definition level (e : Expr) : nat :=
  match e with
  | Expr.BINARY_OP op _ _ =>
      if bool_decide (op = "OR"%string) then 0
      else if bool_decide (op = "AND"%string) then 1 else 3
  | Expr.UNARY_OP _ _ => 2
  | _ => 4
  end%nat.

Definition parens (t : list lexeme) : list lexeme :=
  (LPAREN, "("%string) :: t ++ [(RPAREN, ")"%string)].
Definition starts_star (t : list lexeme) : bool :=
  match t with [] => false | p :: _ => bool_decide (p.1 = STAR) end.

Fixpoint print_expr (lvl : nat) (e : Expr) : list lexeme :=
  let body :=
    match e with
    | Expr.COLUMN_REF t c =>
        if bool_decide (t = ""%string) then [(IDENTIFIER, c)]
        else [(IDENTIFIER, t); (DOT, "."%string); (IDENTIFIER, c)]
    | Expr.INT_LITERAL z => [(INT_LITERAL, to_string z)]
    | Expr.STRING_LITERAL s => [(STRING_LITERAL, s)]
    | Expr.BINARY_OP op l r =>
        if bool_decide (op = "OR"%string)
        then print_expr 0 l ++ (OR, "OR"%string) :: print_expr 1 r
        else if bool_decide (op = "AND"%string)
        then print_expr 1 l ++ (AND, "AND"%string) :: print_expr 2 r
        else print_expr 4 l ++ (name_type OPS op, op) :: print_expr 4 r
    | Expr.UNARY_OP op l => (NOT, "NOT"%string) :: print_expr 3 l
    | Expr.STAR => [(STAR, "*"%string)]
    | Expr.AGGREGATE f None =>
        [(name_type AGG_NAMES f, f); (LPAREN, "("%string); (STAR, "*"%string); (RPAREN, ")"%string)]
    | Expr.AGGREGATE f (Some e) =>
        (name_type AGG_NAMES f, f) :: parens (print_expr 0 e)
    end in
  if (level e <? lvl)%nat then parens body else body.

(** The expressions the grammar can produce from text: known operators and
    functions, identifiers and literals a token can carry, and no aggregate whose
    argument begins with the star, which reads as the argument itself. *)
Fixpoint wf_expr (e : Expr) : bool :=
  match e with
  | Expr.COLUMN_REF t c => (bool_decide (t = ""%string) || is_ident t) && is_ident c
  | Expr.INT_LITERAL z => (0 <=? z) && (z <? 2 ^ 31)
  | Expr.STRING_LITERAL s => forallb (λ c, negb (ceq c quote)) (to_chars s)
  | Expr.BINARY_OP op l r =>
      (bool_decide (op = "OR"%string) || bool_decide (op = "AND"%string) || in_names OPS op)
      && wf_expr l && wf_expr r
  | Expr.UNARY_OP op l => bool_decide (op = "NOT"%string) && wf_expr l
  | Expr.STAR => true
  | Expr.AGGREGATE f None => in_names AGG_NAMES f
  | Expr.AGGREGATE f (Some e) =>
      in_names AGG_NAMES f && negb (starts_star (print_expr 0 e)) && wf_expr e
  end.

(** Token types that would continue an expression of a level. *)
Definition stops (lvl : nat) (ty : TokenType) : bool :=
  match ty with
  | DOT => true
  | EQ | LT | GT | LEQ | GEQ | NEQ => (lvl <=? 3)%nat
  | AND => (lvl <=? 1)%nat
  | OR => (lvl <=? 0)%nat
  | _ => false
  end.
Definition follow (lvl : nat) (rest : list lexeme) : bool :=
  match rest with [] => false | p :: _ => negb (stops lvl p.1) end.
Definition head_not (ty : TokenType) (rest : list lexeme) : bool :=
  match rest with [] => false | p :: _ => negb (bool_decide (p.1 = ty)) end.

(** Case analysis on membership in a literal list. *)
Ltac in_cases H :=
  repeat (apply elem_of_cons in H as [H|H]; [|]); [..|by apply elem_of_nil in H].

(** ** Reading back *)
Section parses.
Context (ln : nat → Z).

Definition parses {A} (m : M Parser A) (t : list lexeme) (x : A) (ok : list lexeme → bool) : Prop :=
  ∀ pre rest, ok rest = true → m (p_at ln pre (t ++ rest)) = (p_at ln (pre ++ t) rest, Ok x).

Lemma parses_bind {A B} (m : M Parser A) (k : A → M Parser B) t1 t2 x y ok1 ok2 :
  parses m t1 x ok1 → (∀ rest, ok2 rest = true → ok1 (t2 ++ rest) = true) →
  parses (k x) t2 y ok2 → parses (bindM m k) (t1 ++ t2) y ok2.
Proof.
  intros Hm Hok Hk pre rest Hr. rewrite <- app_assoc.
  rewrite (bindM_Ok _ _ _ _ _ (Hm pre (t2 ++ rest) (Hok _ Hr))).
  rewrite app_assoc. by apply Hk.
Qed.
Lemma parses_ret {A} (x : A) ok : parses (retM x) [] x ok.
Proof. intros pre rest _. by rewrite app_nil_r. Qed.
Lemma parses_weak {A} (m : M Parser A) t x (ok1 ok2 : list lexeme → bool) :
  parses m t x ok1 → (∀ rest, ok2 rest = true → ok1 rest = true) → parses m t x ok2.
Proof. intros H Hi pre rest Hr. by apply H, Hi. Qed.

Lemma parses_Match_yes {B} ty v (k : bool → M Parser B) t y ok :
  parses (k true) t y ok → parses (bindM (Match_tok ty) k) ((ty, v) :: t) y ok.
Proof.
  intros Hk pre rest Hr. unfold bindM. cbn [app]. rewrite Match_at.
  rewrite bool_decide_true by done. rewrite Hk by done. by rewrite <- app_assoc.
Qed.
Lemma parses_Match_no {B} ty (k : bool → M Parser B) t y ok :
  (∀ rest, ok rest = true → head_not ty (t ++ rest) = true) →
  parses (k false) t y ok → parses (bindM (Match_tok ty) k) t y ok.
Proof.
  intros Hn Hk pre rest Hr. specialize (Hn rest Hr). unfold bindM.
  rewrite <- Hk by done. destruct (t ++ rest) as [|p r]; [done|]. rewrite Match_at.
  simpl in Hn. apply negb_true_iff in Hn. by rewrite Hn.
Qed.
Lemma parses_Check_yes {B} ty v (k : Token → M Parser B) (k2 : M Parser B) t y ok :
  (∀ tok, tok_value tok = v → parses (k tok) t y ok) →
  parses (bindM (Check_tok ty) (λ b, if b then bindM Consume k else k2)) ((ty, v) :: t) y ok.
Proof.
  intros Hk pre rest Hr. cbn [app]. rewrite (bindM_Ok _ _ _ _ _ (Check_at _ _ _ _ _)).
  rewrite bool_decide_true by done. rewrite (bindM_Ok _ _ _ _ _ (Consume_at _ _ _ _)).
  rewrite Hk by done. by rewrite <- app_assoc.
Qed.
Lemma parses_Check_no {B} ty (k : bool → M Parser B) t y ok :
  (∀ rest, ok rest = true → head_not ty (t ++ rest) = true) →
  parses (k false) t y ok → parses (bindM (Check_tok ty) k) t y ok.
Proof.
  intros Hn Hk pre rest Hr. specialize (Hn rest Hr).
  rewrite <- Hk by done. destruct (t ++ rest) as [|p r]; [done|].
  rewrite (bindM_Ok _ _ _ _ _ (Check_at _ _ _ _ _)).
  simpl in Hn. apply negb_true_iff in Hn. by rewrite Hn.
Qed.
Lemma parses_Expect {B} ty msg v (k : Token → M Parser B) t y ok :
  (∀ tok, parses (k tok) t y ok) → parses (bindM (Expect ty msg) k) ((ty, v) :: t) y ok.
Proof.
  intros Hk pre rest Hr. cbn [app].
  rewrite (bindM_Ok _ _ _ _ _ (Expect_at _ ty msg _ (ty, v) _ eq_refl)).
  rewrite Hk by done. by rewrite <- app_assoc.
Qed.
Lemma parses_Consume {B} ty v (k : Token → M Parser B) t y ok :
  (∀ tok, parses (k tok) t y ok) → parses (bindM Consume k) ((ty, v) :: t) y ok.
Proof.
  intros Hk pre rest Hr. cbn [app]. rewrite (bindM_Ok _ _ _ _ _ (Consume_at _ _ _ _)).
  rewrite Hk by done. by rewrite <- app_assoc.
Qed.
Lemma parses_ExpectValue {B} ty msg v (k : string → M Parser B) t y ok :
  parses (k v) t y ok → parses (bindM (ExpectValue ty msg) k) ((ty, v) :: t) y ok.
Proof.
  intros Hk pre rest Hr. cbn [app].
  assert (ExpectValue ty msg (p_at ln pre ((ty, v) :: t ++ rest)) =
    (p_at ln (pre ++ [(ty, v)]) (t ++ rest), Ok v)) as HE.
  { unfold ExpectValue.
    by rewrite (bindM_Ok _ _ _ _ _ (Expect_at _ ty msg _ (ty, v) _ eq_refl)). }
  rewrite (bindM_Ok _ _ _ _ _ HE), Hk by done. by rewrite <- app_assoc.
Qed.

(** ** Expressions, level by level *)
Lemma print_nonempty lvl e : print_expr lvl e ≠ [].
Proof.
  destruct e as [t c|z|s|op l r|op l| |f [e|]]; cbn [print_expr];
    repeat (case_match; try done);
    intros Hn; apply (f_equal length) in Hn; rewrite length_app in Hn; simpl in Hn; lia.
Qed.

(** Above its own level an expression is printed as a primary. *)
Lemma print_lvl lvl e : level e ≠ lvl → (lvl ≤ 4)%nat → print_expr lvl e = print_expr (S lvl) e.
Proof.
  intros H Hl. assert (((level e <? lvl) = (level e <? S lvl))%nat) as Hb.
  { destruct (Nat.ltb_spec (level e) lvl), (Nat.ltb_spec (level e) (S lvl)); lia || done. }
  destruct e; cbn [print_expr]; by rewrite Hb.
Qed.
Lemma print_own lvl e : level e = lvl → print_expr lvl e = print_expr 0 e.
Proof.
  intros <-. assert (((level e <? level e) = false)%nat) as Hb by apply Nat.ltb_irrefl.
  destruct e; cbn [print_expr]; by rewrite Hb.
Qed.
Lemma print_primary e : level e ≠ 4%nat → print_expr 4 e = parens (print_expr 0 e).
Proof.
  intros H. destruct e as [t c|z|s|op l r|op l| |f [e|]]; try done. cbn [print_expr level].
  by repeat case_bool_decide.
Qed.

Lemma name_type_in table name :
  in_names table name = true → (name_type table name, name) ∈ table.
Proof.
  unfold in_names, name_type. rewrite existsb_exists. intros (x & Hin & Hx).
  apply bool_decide_eq_true in Hx. apply list_elem_of_In in Hin.
  destruct (list_find_elem_of (λ x : TokenType * string, x.2 = name) table x Hin Hx) as [[i [ty n]] Hf].
  rewrite Hf. apply list_find_Some in Hf as (Hi & <- & _). cbn.
  by eapply list_elem_of_lookup_2.
Qed.

(** [for] over a table reaches the entry of the current token's type. *)
Lemma parses_for_check {B} table (body : string → M Parser B) after ty v name t y ok :
  (∀ x, x ∈ table → x.1 = ty → x.2 = name) → (ty, name) ∈ table →
  parses (body name) ((ty, v) :: t) y ok →
  parses (for_check table body after) ((ty, v) :: t) y ok.
Proof.
  intros Hu Hin Hb. induction table as [|[ty' n'] table IH]; [by apply elem_of_nil in Hin|].
  cbn [for_check]. intros pre rest Hr. cbn [app].
  rewrite (bindM_Ok _ _ _ _ _ (Check_at _ _ _ _ _)). cbn [fst]. case_bool_decide as E.
  - subst ty'. assert (n' = name) as -> by (apply (Hu (ty, n')); [set_solver|done]). by apply Hb.
  - apply IH; [set_solver| |done].
    apply elem_of_cons in Hin as [[= -> _]|?]; done.
Qed.
Lemma parses_for_check_no {B} table (body : string → M Parser B) after t y ok :
  (∀ x rest, x ∈ table → ok rest = true → head_not x.1 (t ++ rest) = true) →
  parses after t y ok → parses (for_check table body after) t y ok.
Proof.
  intros Hn Ha. induction table as [|[ty' n'] table IH]; [done|]. cbn [for_check].
  apply parses_Check_no; [|apply IH; set_solver].
  intros rest Hr. apply (Hn (ty', n')); [set_solver|done].
Qed.
Lemma parses_for_match {B} table (body : string → M Parser B) after ty v name t y ok :
  (∀ x, x ∈ table → x.1 = ty → x.2 = name) → (ty, name) ∈ table →
  parses (body name) t y ok → parses (for_match table body after) ((ty, v) :: t) y ok.
Proof.
  intros Hu Hin Hb. induction table as [|[ty' n'] table IH]; [by apply elem_of_nil in Hin|].
  cbn [for_match]. destruct (decide (ty' = ty)) as [->|E].
  - assert (n' = name) as -> by (apply (Hu (ty, n')); [set_solver|done]).
    by apply parses_Match_yes.
  - apply parses_Match_no; [intros rest _; simpl; by rewrite bool_decide_false by done|].
    apply IH; [set_solver|]. apply elem_of_cons in Hin as [[= -> _]|?]; done.
Qed.
Lemma parses_for_match_no {B} table (body : string → M Parser B) after t y ok :
  (∀ x rest, x ∈ table → ok rest = true → head_not x.1 (t ++ rest) = true) →
  parses after t y ok → parses (for_match table body after) t y ok.
Proof.
  intros Hn Ha. induction table as [|[ty' n'] table IH]; [done|]. cbn [for_match].
  apply parses_Match_no; [|apply IH; set_solver].
  intros rest Hr. apply (Hn (ty', n')); [set_solver|done].
Qed.

Lemma table_functional table :
  table = OPS ∨ table = AGG_NAMES →
  ∀ ty name, (ty, name) ∈ table → ∀ x, x ∈ table → x.1 = ty → x.2 = name.
Proof.
  intros Ht ty name H [ty' name'] H'.
  destruct Ht as [->| ->]; in_cases H; in_cases H'; simplify_eq; done.
Qed.

Lemma follow_le lvl lvl' rest : (lvl ≤ lvl')%nat → follow lvl rest = true → follow lvl' rest = true.
Proof.
  intros Hl. destruct rest as [|[ty v] rest]; [done|]. unfold follow. cbn [fst].
  rewrite !negb_true_iff. destruct ty; cbn [stops]; rewrite ?Nat.leb_gt; lia || done.
Qed.
Lemma follow_not lvl ty rest :
  follow lvl rest = true → stops lvl ty = true → head_not ty rest = true.
Proof.
  destruct rest as [|[ty' v] rest]; [done|]. cbn. rewrite !negb_true_iff. intros H H'.
  apply bool_decide_eq_false. intros ->. congruence.
Qed.

Ltac skip_branch :=
  first [apply parses_Match_no | apply parses_Check_no]; [intros ? ?; reflexivity|]; cbv beta iota.

Section levels.
Context (n : nat) (rec : M Parser Expr).
Hypothesis Hrec : ∀ e, wf_expr e = true → (length (print_expr 0 e) ≤ n)%nat →
  parses rec (print_expr 0 e) e (follow 0).

Lemma parses_parens e :
  wf_expr e = true → (length (print_expr 0 e) ≤ n)%nat →
  parses (ParsePrimary_body rec) (parens (print_expr 0 e)) e (follow 4).
Proof.
  intros Hw Hl. apply parses_Match_yes. cbv iota.
  eapply parses_bind; [by apply Hrec|done|].
  apply parses_Expect. intros _. apply parses_ret.
Qed.

(** The aggregate's tokens after its name. *)
Lemma parses_aggregate ty v f t arg :
  (t = [(STAR, "*"%string)] ∧ arg = None) ∨
  (∃ e, arg = Some e ∧ starts_star t = false ∧ t ≠ [] ∧ parses rec t e (follow 0)) →
  parses (parse_aggregate rec f) ((ty, v) :: parens t) (Expr.AGGREGATE f arg) (follow 4).
Proof.
  intros Ht. apply parses_Consume. intros _. apply parses_Expect. intros _.
  destruct Ht as [[-> ->]|(e & -> & Hs & Hne & He)].
  - apply parses_Match_yes. apply (parses_bind _ _ [] _ None _ (λ _, true));
      [apply parses_ret|done|]. apply parses_Expect. intros _. apply parses_ret.
  - apply parses_Match_no.
    { intros rest _. destruct t as [|p t]; [done|]. simpl in *. by rewrite Hs. }
    apply (parses_bind _ _ _ _ (Some e) _ (follow 0)); [|done|].
    + rewrite <- (app_nil_r t). eapply parses_bind; [exact He|done|apply parses_ret].
    + apply parses_Expect. intros _. apply parses_ret.
Qed.

Lemma AGG_NAMES_tokens x rest :
  x ∈ AGG_NAMES → ∀ ty v, (∀ y, y ∈ AGG_NAMES → y.1 ≠ ty) → head_not x.1 ((ty, v) :: rest) = true.
Proof.
  intros Hx ty v Hn. cbn. rewrite bool_decide_false; [done|]. intros E. by eapply Hn.
Qed.

Lemma parses_column t c :
  wf_expr (Expr.COLUMN_REF t c) = true →
  parses (ParsePrimary_body rec) (print_expr 4 (Expr.COLUMN_REF t c))
    (Expr.COLUMN_REF t c) (follow 4).
Proof.
  intros _. cbn [print_expr level Nat.ltb Nat.leb]. unfold ParsePrimary_body.
  case_bool_decide as Ht; do 4 skip_branch.
  all: apply parses_for_check_no;
    [intros x rest Hx _; cbn [app]; apply AGG_NAMES_tokens; [done|];
     intros y Hy; in_cases Hy; by subst y|].
  all: apply parses_Check_yes; intros tok <-; cbv zeta.
  - apply parses_Match_no; [intros rest Hr; by apply (follow_not 4)|]. subst t. apply parses_ret.
  - apply parses_Match_yes. apply parses_ExpectValue. apply parses_ret.
Qed.

Lemma parses_aggregate_expr f arg :
  wf_expr (Expr.AGGREGATE f arg) = true →
  (length (print_expr 4 (Expr.AGGREGATE f arg)) ≤ S n)%nat →
  parses (ParsePrimary_body rec) (print_expr 4 (Expr.AGGREGATE f arg))
    (Expr.AGGREGATE f arg) (follow 4).
Proof.
  intros Hw Hl. assert (in_names AGG_NAMES f = true) as Hf.
  { destruct arg; cbn [wf_expr] in Hw; [|done]. rewrite !andb_true_iff in Hw. tauto. }
  pose proof (name_type_in _ _ Hf) as Hin. set (ty := name_type AGG_NAMES f) in *.
  assert (∃ t, print_expr 4 (Expr.AGGREGATE f arg) = (ty, f) :: parens t ∧
    ((t = [(STAR, "*"%string)] ∧ arg = None) ∨
     (∃ e, arg = Some e ∧ starts_star t = false ∧ t ≠ [] ∧ parses rec t e (follow 0))))
    as (t & Ht & Hcase).
  { destruct arg as [e|]; [|by exists [(STAR, "*"%string)]; eauto].
    cbn [wf_expr] in Hw. rewrite !andb_true_iff, negb_true_iff in Hw. destruct Hw as [[_ Hs] Hw].
    exists (print_expr 0 e). split; [done|right]. exists e. split; [done|].
    split; [done|]. split; [apply print_nonempty|]. apply Hrec; [done|].
    change (length ((ty, f) :: parens (print_expr 0 e)) ≤ S n)%nat in Hl.
    unfold parens in Hl. cbn [length] in Hl. rewrite length_app in Hl. simpl in Hl. lia. }
  rewrite Ht. unfold ParsePrimary_body.
  assert (∀ ty', ty' ∉ AGG_NAMES.*1 → ∀ rest, head_not ty' (((ty, f) :: parens t) ++ rest) = true) as Hh.
  { intros ty' Hn rest. cbn. rewrite bool_decide_false; [done|]. intros E. apply Hn.
    apply list_elem_of_fmap. by exists (ty', f); subst. }
  do 2 (apply parses_Match_no; [intros rest _; apply Hh; set_solver|]; cbv iota).
  do 2 (apply parses_Check_no; [intros rest _; apply Hh; set_solver|]; cbv iota).
  eapply parses_for_check; [|exact Hin|by apply parses_aggregate].
  by apply table_functional; [right|].
Qed.

Lemma parses_primary e :
  wf_expr e = true → (length (print_expr 4 e) ≤ S n)%nat →
  parses (ParsePrimary_body rec) (print_expr 4 e) e (follow 4).
Proof.
  intros Hw Hl. destruct (decide (level e = 4%nat)) as [He|He].
  - destruct e as [t c|z|s|op l r|op l| |f arg].
    + by apply parses_column.
    + cbn [print_expr level Nat.ltb Nat.leb]. unfold ParsePrimary_body. do 2 skip_branch.
      apply parses_Check_yes. intros tok ->. intros pre rest Hr.
      cbn [wf_expr] in Hw. apply andb_true_iff in Hw as [?%Z.leb_le ?%Z.ltb_lt].
      rewrite (bindM_lift _ z) by (by apply stoi_to_string). exact (parses_ret _ (follow 4) pre rest Hr).
    + cbn [print_expr level Nat.ltb Nat.leb]. unfold ParsePrimary_body. do 3 skip_branch.
      apply parses_Check_yes. intros tok ->. apply parses_ret.
    + cbn in He. by repeat case_bool_decide.
    + done.
    + unfold ParsePrimary_body. skip_branch. by apply parses_Match_yes, parses_ret.
    + by apply parses_aggregate_expr.
  - rewrite print_primary in Hl |- * by done. apply parses_parens; [done|].
    unfold parens in Hl. cbn [length] in Hl. rewrite length_app in Hl. simpl in Hl. lia.
Qed.

Lemma parses_comparison e :
  wf_expr e = true → (length (print_expr 3 e) ≤ S n)%nat →
  parses (ParseComparison rec) (print_expr 3 e) e (follow 3).
Proof.
  intros Hw Hl. unfold ParseComparison. destruct (decide (level e = 3%nat)) as [He|He].
  - destruct e as [| | |op l r| | |]; try done. cbn [level] in He.
    rewrite print_own in Hl |- * by done. cbn [print_expr level Nat.ltb Nat.leb] in Hl |- *.
    do 2 (case_bool_decide; [done|]). cbn [wf_expr] in Hw.
    rewrite !bool_decide_false in Hw by done. rewrite !andb_true_iff in Hw.
    destruct Hw as [[Hop Hwl] Hwr]. pose proof (name_type_in _ _ Hop) as Hin.
    rewrite length_app in Hl. simpl in Hl.
    eapply parses_bind; [apply parses_primary; [done|lia]| |].
    { intros rest Hr. clear -Hin. unfold follow. cbn [app fst].
      in_cases Hin; injection Hin as Hty _; by rewrite Hty. }
    eapply parses_for_match; [|exact Hin|]; [by apply table_functional; [left|]|].
    rewrite <- (app_nil_r (print_expr 4 r)).
    eapply parses_bind; [apply parses_primary; [done|lia]| |apply parses_ret].
    intros rest Hr. by apply (follow_le 3); [lia|].
  - rewrite print_lvl in Hl |- * by (done || lia). rewrite <- (app_nil_r (print_expr 4 e)).
    eapply parses_bind; [by apply parses_primary| |].
    { intros rest Hr. by apply (follow_le 3); [lia|]. }
    apply parses_for_match_no; [|apply parses_ret].
    intros x rest Hx Hr. apply (follow_not 3 _ rest Hr). clear -Hx. in_cases Hx; by subst x.
Qed.

(** A comparison does not begin with NOT. *)
Lemma print_head_primary e rest : wf_expr e = true → head_not NOT (print_expr 4 e ++ rest) = true.
Proof.
  intros Hw. destruct (decide (level e = 4%nat)) as [He|He];
    [|by rewrite print_primary by done].
  destruct e as [t c|z|s|op l r|op l| |f arg]; try done.
  - cbn [print_expr level Nat.ltb Nat.leb]. by case_bool_decide.
  - cbn in He. by repeat case_bool_decide.
  - assert (in_names AGG_NAMES f = true) as Hin%name_type_in.
    { destruct arg; cbn [wf_expr] in Hw; [|done]. rewrite !andb_true_iff in Hw. tauto. }
    assert (∃ t, print_expr 4 (Expr.AGGREGATE f arg) = (name_type AGG_NAMES f, f) :: t) as [t ->]
      by (destruct arg; by eexists).
    unfold head_not. cbn [app fst]. in_cases Hin; injection Hin as Hty _; by rewrite Hty.
Qed.
Lemma print_head_comparison e rest :
  wf_expr e = true → head_not NOT (print_expr 3 e ++ rest) = true.
Proof.
  intros Hw. destruct (decide (level e = 3%nat)) as [He|He].
  - destruct e as [| | |op l r| | |]; try done. cbn [level] in He.
    rewrite print_own by done. cbn [print_expr level Nat.ltb Nat.leb].
    do 2 (case_bool_decide; [done|]). rewrite <- app_assoc. apply print_head_primary.
    cbn [wf_expr] in Hw. rewrite !andb_true_iff in Hw. tauto.
  - rewrite print_lvl by (done || lia). by apply print_head_primary.
Qed.

Lemma parses_not e :
  wf_expr e = true → (length (print_expr 2 e) ≤ S n)%nat →
  parses (ParseNot rec) (print_expr 2 e) e (follow 2).
Proof.
  intros Hw Hl. unfold ParseNot. destruct (decide (level e = 2%nat)) as [He|He].
  - destruct e as [| | |op l r|op l| |]; try done; [cbn in He; by repeat case_bool_decide|].
    cbn [wf_expr] in Hw. apply andb_true_iff in Hw as [->%bool_decide_eq_true Hw].
    cbn [print_expr level Nat.ltb Nat.leb length] in Hl |- *. apply parses_Match_yes.
    rewrite <- (app_nil_r (print_expr 3 l)).
    eapply parses_bind; [apply parses_comparison; [done|lia]| |apply parses_ret].
    intros rest Hr. by apply (follow_le 2); [lia|].
  - rewrite print_lvl in Hl |- * by (done || lia). apply parses_Match_no.
    { intros rest _. by apply print_head_comparison. }
    eapply parses_weak; [by apply parses_comparison|].
    intros rest Hr. by apply (follow_le 2); [lia|].
Qed.

(** A left-associative chain of one operator. *)
Section chain.
Context (lvl : nat) (ty : TokenType) (op : string) (operand : M Parser Expr).
Hypotheses
  (Hlvl : ∀ e, level e = lvl → ∃ l r, e = Expr.BINARY_OP op l r)
  (Hbin : ∀ l r, print_expr lvl (Expr.BINARY_OP op l r) =
     print_expr lvl l ++ (ty, op) :: print_expr (S lvl) r)
  (Hlvl1 : (lvl ≤ 1)%nat)
  (Hstop : stops (S lvl) ty = false)
  (Hstop' : stops lvl ty = true)
  (Hoperand : ∀ e, wf_expr e = true → (length (print_expr (S lvl) e) ≤ S n)%nat →
     parses operand (print_expr (S lvl) e) e (follow (S lvl))).

Lemma parses_chain_end e pre rest :
  level e ≠ lvl → wf_expr e = true → (length (print_expr lvl e) ≤ S n)%nat →
  follow (S lvl) rest = true →
  ∃ fuel, (length rest ≤ fuel)%nat ∧
    (left <- operand ;; p <- getM ;; left_loop ty op operand (list_fuel p) left)
      (p_at ln pre (print_expr lvl e ++ rest)) =
    left_loop ty op operand fuel e (p_at ln (pre ++ print_expr lvl e) rest).
Proof.
  intros He Hw Hl Hr. rewrite print_lvl in Hl |- * by (done || lia).
  rewrite (bindM_Ok _ _ _ _ _ (Hoperand e Hw Hl pre rest Hr)), bindM_get.
  eexists. split; [|reflexivity].
  unfold list_fuel. cbn [tokens_ p_at]. rewrite length_imap, !length_app. lia.
Qed.

Lemma parses_chain_loop e :
  wf_expr e = true → (length (print_expr lvl e) ≤ S n)%nat →
  ∀ pre rest, follow (S lvl) rest = true →
  ∃ fuel, (length rest ≤ fuel)%nat ∧
    (left <- operand ;; p <- getM ;; left_loop ty op operand (list_fuel p) left)
      (p_at ln pre (print_expr lvl e ++ rest)) =
    left_loop ty op operand fuel e (p_at ln (pre ++ print_expr lvl e) rest).
Proof.
  induction e as [t c|z|s|op' l r IHl _|op' l _| |f|f e _] using Expr_induction;
    intros Hw Hl pre rest Hr;
    match type of Hw with wf_expr ?x = _ =>
      destruct (decide (level x = lvl)) as [He|He]; [|by apply parses_chain_end] end.
  all: try (exfalso; clear -He Hlvl; by destruct (Hlvl _ He) as (? & ? & [=])).
  destruct (Hlvl _ He) as (l' & r' & [= -> -> ->]).
  rewrite Hbin in Hl |- *. rewrite length_app in Hl. simpl in Hl.
  cbn [wf_expr] in Hw. rewrite !andb_true_iff in Hw. destruct Hw as [[_ Hwl] Hwr].
  destruct (IHl Hwl ltac:(lia) pre ((ty, op) :: print_expr (S lvl) r' ++ rest)) as (fuel & Hf & E).
  { cbn. by rewrite Hstop. }
  simpl in Hf. destruct fuel as [|fuel]; [lia|].
  exists fuel. split; [rewrite length_app in Hf; lia|].
  rewrite <- (app_assoc (print_expr lvl l')). etransitivity; [exact E|]. cbn [left_loop].
  unfold bindM at 1. rewrite Match_at, bool_decide_true by done. cbv iota beta.
  rewrite (bindM_Ok _ _ _ _ _ (Hoperand r' Hwr ltac:(lia) _ rest Hr)).
  by rewrite <- !app_assoc.
Qed.

Lemma parses_chain e :
  wf_expr e = true → (length (print_expr lvl e) ≤ S n)%nat →
  parses (left <- operand ;; p <- getM ;; left_loop ty op operand (list_fuel p) left)
    (print_expr lvl e) e (follow lvl).
Proof.
  intros Hw Hl pre rest Hr.
  destruct (parses_chain_loop e Hw Hl pre rest) as (fuel & Hf & ->);
    [by apply (follow_le lvl); [lia|]|].
  pose proof (follow_not lvl ty rest Hr Hstop') as Hn.
  destruct rest as [|p rest]; [done|]. destruct fuel as [|fuel]; [simpl in Hf; lia|].
  cbn [left_loop]. unfold bindM at 1. rewrite Match_at. simpl in Hn.
  apply negb_true_iff in Hn. by rewrite Hn.
Qed.
End chain.

Lemma parses_and e :
  wf_expr e = true → (length (print_expr 1 e) ≤ S n)%nat →
  parses (ParseAnd rec) (print_expr 1 e) e (follow 1).
Proof.
  apply parses_chain; [| |lia|done|done|exact parses_not].
  - intros [| | |op l r| | |]; try done. cbn. repeat case_bool_decide; try done.
    subst. by eexists _, _.
  - intros l r. by cbn [print_expr level Nat.ltb Nat.leb].
Qed.
Lemma parses_or e :
  wf_expr e = true → (length (print_expr 0 e) ≤ S n)%nat →
  parses (ParseOr rec) (print_expr 0 e) e (follow 0).
Proof.
  apply parses_chain; [| |lia|done|done|exact parses_and].
  - intros [| | |op l r| | |]; try done. cbn. repeat case_bool_decide; try done.
    subst. by eexists _, _.
  - intros l r. by cbn [print_expr level Nat.ltb Nat.leb].
Qed.
End levels.

Lemma parses_ParseExpr_fuel fuel e :
  wf_expr e = true → (length (print_expr 0 e) ≤ fuel)%nat →
  parses (ParseExpr_fuel fuel) (print_expr 0 e) e (follow 0).
Proof.
  revert e. induction fuel as [|fuel IH]; intros e Hw Hl.
  { pose proof (print_nonempty 0 e). destruct (print_expr 0 e); [done|simpl in Hl; lia]. }
  by apply (parses_or fuel).
Qed.
Lemma parses_ParseExpr e :
  wf_expr e = true → parses ParseExpr (print_expr 0 e) e (follow 0).
Proof.
  intros Hw pre rest Hr. unfold ParseExpr. rewrite bindM_get.
  apply parses_ParseExpr_fuel; [done| |done].
  unfold list_fuel. cbn [tokens_ p_at]. rewrite length_imap, !length_app. lia.
Qed.
Lemma parses_ParsePrimary e :
  wf_expr e = true → parses ParsePrimary (print_expr 4 e) e (follow 4).
Proof.
  intros Hw. apply (parses_primary (length (print_expr 4 e))); [|done|lia].
  intros e' Hw' _. by apply parses_ParseExpr.
Qed.
End parses.
