(* ===== verification/ParserTheorems.v ===== *)
(** * Statements: print, then parse

    The printer of statements and the round trips of the parser, on tokens and
    on text. *)
From stdpp Require Import base gmap list strings pretty.
From Stdlib Require Import ZArith Lia Ascii.
From S2P Require Import Prelude Types Lexer LexerTheorems Ast Parser ParserSafety ParserPrint.
Import TokenType.

(** ** The printer *)
Fixpoint print_list {A} (f : A → list lexeme) (l : list A) : list lexeme :=
  match l with
  | [] => []
  | [x] => f x
  | x :: l => f x ++ (COMMA, ","%string) :: print_list f l
  end.
Definition print_alias (a : string) : list lexeme :=
  if bool_decide (a = ""%string) then [] else [(AS, "AS"%string); (IDENTIFIER, a)].
Definition print_column (c : ColumnDef) : list lexeme :=
  (IDENTIFIER, cd_name c) ::
  match cd_type_id c with
  | INT => [(INT_KW, "INT"%string)]
  | VARCHAR => (VARCHAR_KW, "VARCHAR"%string) :: parens [(INT_LITERAL, to_string (cd_max_len c))]
  end.
Definition print_item (i : SelectItem) : list lexeme :=
  print_expr 0 (si_expr i) ++ print_alias (si_alias i).
Definition print_join (j : JoinClause) : list lexeme :=
  (JOIN, "JOIN"%string) :: (IDENTIFIER, j_table_name j) :: print_alias (j_alias j) ++
  (ON, "ON"%string) :: print_expr 0 (j_condition j).
Fixpoint print_joins (js : list JoinClause) : list lexeme :=
  match js with [] => [] | j :: js => print_join j ++ print_joins js end.
Definition print_where (w : option Expr) : list lexeme :=
  match w with None => [] | Some e => (WHERE, "WHERE"%string) :: print_expr 0 e end.
Definition print_group_by (g : list Expr) : list lexeme :=
  match g with
  | [] => []
  | _ => (GROUP, "GROUP"%string) :: (BY, "BY"%string) :: print_list (print_expr 4) g
  end.
Definition print_order_item (o : OrderByItem) : list lexeme :=
  print_expr 4 (ob_expr o) ++ if ob_ascending o then [] else [(DESC, "DESC"%string)].
Definition print_order_by (o : list OrderByItem) : list lexeme :=
  match o with
  | [] => []
  | _ => (ORDER, "ORDER"%string) :: (BY, "BY"%string) :: print_list print_order_item o
  end.
(** A SELECT after its keyword. *)
Definition print_select (s : SelectStmt) : list lexeme :=
  print_list print_item (select_list s) ++
  (FROM, "FROM"%string) :: (IDENTIFIER, from_table s) ::
  print_alias (from_alias s) ++ print_joins (joins s) ++ print_where (where_clause s) ++
  print_group_by (group_by s) ++ print_order_by (order_by s).
Definition print_stmt (s : Statement) : list lexeme :=
  match s with
  | CreateTableS s =>
      (CREATE, "CREATE"%string) :: (TABLE, "TABLE"%string) :: (IDENTIFIER, ct_table_name s) ::
      parens (print_list print_column (ct_columns s))
  | InsertS s =>
      (INSERT, "INSERT"%string) :: (INTO, "INTO"%string) :: (IDENTIFIER, ins_table_name s) ::
      (VALUES, "VALUES"%string) :: parens (print_list (print_expr 4) (ins_values s))
  | SelectS s => (SELECT, "SELECT"%string) :: print_select s
  | ExplainS s =>
      (EXPLAIN, "EXPLAIN"%string) :: (SELECT, "SELECT"%string) :: print_select (ex_select s)
  end.

(** ** Statements the grammar can produce *)
Definition nonempty {A} (l : list A) : bool := negb (bool_decide (length l = 0%nat)).
Definition wf_alias (a : string) : bool := bool_decide (a = ""%string) || is_ident a.
Definition wf_column (c : ColumnDef) : bool :=
  is_ident (cd_name c) &&
  match cd_type_id c with INT => cd_max_len c =? 0 | VARCHAR => in_u16 (cd_max_len c) end.
Definition wf_item (i : SelectItem) : bool := wf_expr (si_expr i) && wf_alias (si_alias i).
Definition wf_join (j : JoinClause) : bool :=
  is_ident (j_table_name j) && wf_alias (j_alias j) && wf_expr (j_condition j).
Definition wf_select (s : SelectStmt) : bool :=
  nonempty (select_list s) && forallb wf_item (select_list s) &&
  is_ident (from_table s) && wf_alias (from_alias s) && forallb wf_join (joins s) &&
  match where_clause s with None => true | Some e => wf_expr e end &&
  forallb wf_expr (group_by s) && forallb (wf_expr ∘ ob_expr) (order_by s).
Definition wf_stmt (s : Statement) : bool :=
  match s with
  | CreateTableS s =>
      is_ident (ct_table_name s) && nonempty (ct_columns s) && forallb wf_column (ct_columns s)
  | InsertS s =>
      is_ident (ins_table_name s) && nonempty (ins_values s) && forallb wf_expr (ins_values s)
  | SelectS s => wf_select s
  | ExplainS s => wf_select (ex_select s)
  end.

(** The next token is one of [l]. *)
Definition ends (l : list TokenType) (rest : list lexeme) : bool :=
  match rest with [] => false | p :: _ => existsb (λ ty, bool_decide (p.1 = ty)) l end.
Definition stmt_end : list TokenType := [SEMICOLON; EOF_TOKEN].

Lemma ends_head l rest (f : TokenType → bool) :
  ends l rest = true → forallb f l = true →
  ∃ p r, rest = p :: r ∧ f p.1 = true.
Proof.
  destruct rest as [|p r]; [done|]. unfold ends. rewrite existsb_exists, forallb_forall.
  intros (ty & Hin & E%bool_decide_eq_true) Hf. exists p, r. split; [done|]. rewrite E. by apply Hf.
Qed.
Lemma ends_follow l lvl rest :
  ends l rest = true → forallb (λ ty, negb (stops lvl ty)) l = true → follow lvl rest = true.
Proof. intros H Hf. by destruct (ends_head _ _ _ H Hf) as (p & r & -> & ?). Qed.
Lemma ends_head_not l ty rest :
  ends l rest = true → forallb (λ t, negb (bool_decide (t = ty))) l = true → head_not ty rest = true.
Proof. intros H Hf. by destruct (ends_head _ _ _ H Hf) as (p & r & -> & ?). Qed.
Lemma ends_incl l l' rest :
  ends l rest = true → forallb (λ t, existsb (λ ty, bool_decide (t = ty)) l') l = true →
  ends l' rest = true.
Proof. intros H Hf. by destruct (ends_head _ _ _ H Hf) as (p & r & -> & ?). Qed.

Section parses.
Context (ln : nat → Z).
Local Abbreviation parses := (parses ln).

Lemma parses_list {A} (item : M Parser A) (f : A → list lexeme) (l : list A) ok1 ok2 :
  (∀ x, x ∈ l → parses item (f x) x ok1) →
  (∀ rest, ok1 ((COMMA, ","%string) :: rest) = true) →
  (∀ rest, ok2 rest = true → ok1 rest = true ∧ head_not COMMA rest = true) →
  l ≠ [] →
  parses (comma_list item) (print_list f l) l ok2.
Proof.
  intros Hi Hc Hok Hne.
  assert (∀ fuel acc, (length l ≤ fuel)%nat →
    parses (do_list item fuel acc) (print_list f l) (acc ++ l) ok2) as Hloop.
  { induction l as [|x l IH]; [done|]. intros [|fuel] acc Hf; simpl in Hf; [lia|].
    cbn [do_list]. destruct l as [|y l].
    - cbn [print_list]. rewrite <- (app_nil_r (f x)).
      eapply parses_bind; [apply Hi; set_solver|intros rest Hr; apply Hok, Hr|].
      apply parses_Match_no; [intros rest Hr; apply Hok, Hr|apply parses_ret].
    - change (print_list f (x :: y :: l)) with
        (f x ++ (COMMA, ","%string) :: print_list f (y :: l)).
      eapply parses_bind; [apply Hi; set_solver|intros rest _; apply Hc|].
      apply parses_Match_yes.
      replace (acc ++ x :: y :: l) with ((acc ++ [x]) ++ y :: l) by (by rewrite <- app_assoc).
      apply IH; [set_solver|done|lia]. }
  intros pre rest Hr. unfold comma_list. rewrite bindM_get. apply (Hloop _ []); [|done].
  unfold list_fuel. cbn [tokens_ p_at]. rewrite length_imap, !length_app.
  assert (∀ l : list A, (length l ≤ S (length (print_list f l)))%nat) as Hlen.
  { clear. intros l. induction l as [|x [|y l] IH]; [simpl; lia..|].
    change (print_list f (x :: y :: l)) with (f x ++ (COMMA, ","%string) :: print_list f (y :: l)).
    rewrite length_app. simpl in *. lia. }
  specialize (Hlen l). lia.
Qed.

Lemma parses_alias a ok :
  (∀ rest, ok rest = true → head_not AS rest = true ∧ head_not IDENTIFIER rest = true) →
  parses parse_alias (print_alias a) a ok.
Proof.
  intros Hok. unfold print_alias, parse_alias. case_bool_decide as E.
  - subst a. apply parses_Match_no; [intros rest Hr; apply Hok, Hr|].
    apply parses_Check_no; [intros rest Hr; apply Hok, Hr|]. apply parses_ret.
  - apply parses_Match_yes. intros pre rest Hr. cbn [app].
    unfold ExpectValue. by rewrite (bindM_Ok _ _ _ _ _ (Expect_at _ IDENTIFIER _ _ (IDENTIFIER, a) _ eq_refl)).
Qed.

Lemma parses_column_def c : wf_column c = true →
  parses parse_column_def (print_column c) c (λ _, true).
Proof.
  destruct c as [name [] len]; unfold wf_column, print_column, parse_column_def;
    cbn [cd_name cd_type_id cd_max_len]; intros [_ Hl]%andb_true_iff.
  - apply Z.eqb_eq in Hl as ->. apply parses_ExpectValue, parses_Match_yes, parses_ret.
  - apply in_u16_spec in Hl. apply parses_ExpectValue.
    apply parses_Match_no; [done|]. apply parses_Match_yes. cbn [parens app].
    apply parses_Expect. intros _. apply parses_ExpectValue. intros pre rest _.
    rewrite (bindM_lift _ len) by (apply stoi_to_string; lia).
    revert pre rest. assert (parses (Expect RPAREN "Expected ')'" ;;
      retM (mkColumnDef name VARCHAR (wrap_u16 len))) [(RPAREN, ")"%string)]
      (mkColumnDef name VARCHAR len) (λ _, true)) as H; [|by intros; apply H].
    rewrite wrap_u16_id by lia. apply parses_Expect. intros _. apply parses_ret.
Qed.

Lemma parses_SelectItem i : wf_item i = true →
  parses ParseSelectItem (print_item i) i (ends [COMMA; FROM]).
Proof.
  destruct i as [e a]. unfold wf_item, print_item, ParseSelectItem, print_alias. cbn [si_expr si_alias].
  intros [He Ha]%andb_true_iff. case_bool_decide as E.
  - subst a. eapply parses_bind; [by apply parses_ParseExpr| |].
    + intros rest Hr. by eapply ends_follow.
    + apply parses_Match_no; [intros rest Hr; by eapply ends_head_not|]. apply parses_ret.
  - eapply parses_bind; [by apply parses_ParseExpr|done|].
    apply parses_Match_yes, parses_ExpectValue, parses_ret.
Qed.

(** What can follow a table reference or a join. *)
Definition clause_start : list TokenType := [JOIN; WHERE; GROUP; ORDER; SEMICOLON; EOF_TOKEN].

Lemma ends_joins js rest :
  ends [WHERE; GROUP; ORDER; SEMICOLON; EOF_TOKEN] rest = true →
  ends clause_start (print_joins js ++ rest) = true.
Proof. destruct js; [|done]. intros H. by eapply ends_incl. Qed.
Lemma ends_where w rest :
  ends [GROUP; ORDER; SEMICOLON; EOF_TOKEN] rest = true →
  ends [WHERE; GROUP; ORDER; SEMICOLON; EOF_TOKEN] (print_where w ++ rest) = true.
Proof. destruct w; [done|]. intros H. by eapply ends_incl. Qed.
Lemma ends_group_by g rest :
  ends [ORDER; SEMICOLON; EOF_TOKEN] rest = true →
  ends [GROUP; ORDER; SEMICOLON; EOF_TOKEN] (print_group_by g ++ rest) = true.
Proof. destruct g; [|done]. intros H. by eapply ends_incl. Qed.
Lemma ends_order_by o rest :
  ends stmt_end rest = true → ends [ORDER; SEMICOLON; EOF_TOKEN] (print_order_by o ++ rest) = true.
Proof. destruct o; [|done]. intros H. by eapply ends_incl. Qed.

Lemma forallb_elem {A} (f : A → bool) l x : forallb f l = true → x ∈ l → f x = true.
Proof. rewrite forallb_forall. intros H Hx. by apply H, list_elem_of_In. Qed.

Lemma parses_join j fuel acc t js ok :
  wf_join j = true → (∀ rest, ok rest = true → ends clause_start (t ++ rest) = true) →
  parses (joins_loop fuel (acc ++ [j])) t js ok →
  parses (joins_loop (S fuel) acc) (print_join j ++ t) js ok.
Proof.
  destruct j as [name a c]. unfold wf_join, print_join. cbn [j_table_name j_alias j_condition].
  intros [[_ _]%andb_true_iff Hc]%andb_true_iff Hok Ht. cbn [joins_loop app].
  apply parses_Match_yes, parses_ExpectValue. rewrite <- app_assoc.
  eapply parses_bind; [apply (parses_alias a (ends [ON]))|done|].
  { intros rest Hr. split; by eapply ends_head_not. }
  cbn [app]. apply parses_Expect. intros _.
  eapply parses_bind; [by apply parses_ParseExpr| |exact Ht].
  intros rest Hr. by eapply ends_follow; [apply Hok|].
Qed.

Lemma parses_joins_loop js fuel acc :
  forallb wf_join js = true → (length js < fuel)%nat →
  parses (joins_loop fuel acc) (print_joins js) (acc ++ js)
    (ends [WHERE; GROUP; ORDER; SEMICOLON; EOF_TOKEN]).
Proof.
  revert fuel acc. induction js as [|j js IH]; intros [|fuel] acc Hw Hf; simpl in Hf; try lia.
  - rewrite app_nil_r. cbn [joins_loop print_joins].
    apply parses_Match_no; [intros rest Hr; by eapply ends_head_not|]. apply parses_ret.
  - cbn [forallb] in Hw. apply andb_true_iff in Hw as [Hj Hw]. cbn [print_joins].
    apply parses_join; [done|intros rest; apply ends_joins|].
    replace (acc ++ j :: js) with ((acc ++ [j]) ++ js) by (by rewrite <- app_assoc).
    apply IH; [done|lia].
Qed.

Lemma parses_ParseJoins js :
  forallb wf_join js = true →
  parses ParseJoins (print_joins js) js (ends [WHERE; GROUP; ORDER; SEMICOLON; EOF_TOKEN]).
Proof.
  intros Hw pre rest Hr. unfold ParseJoins. rewrite bindM_get.
  apply (parses_joins_loop js _ []); [done| |done].
  unfold list_fuel. cbn [tokens_ p_at]. rewrite length_imap, !length_app.
  assert (length js ≤ length (print_joins js))%nat; [|lia].
  clear. induction js as [|j js IH]; [done|]. cbn [print_joins]. rewrite length_app.
  unfold print_join. simpl. lia.
Qed.

Lemma parses_where w :
  match w with None => true | Some e => wf_expr e end = true →
  parses ParseWhere (print_where w) w (ends [GROUP; ORDER; SEMICOLON; EOF_TOKEN]).
Proof.
  unfold ParseWhere. destruct w as [e|]; intros Hw; cbn [print_where].
  - apply parses_Match_yes. rewrite <- (app_nil_r (print_expr 0 e)).
    eapply parses_bind; [by apply parses_ParseExpr| |apply parses_ret].
    intros rest Hr. by eapply ends_follow.
  - apply parses_Match_no; [intros rest Hr; by eapply ends_head_not|]. apply parses_ret.
Qed.

Lemma parses_primaries l (stop : list TokenType) :
  forallb wf_expr l = true → l ≠ [] →
  forallb (λ ty, negb (stops 4 ty)) stop = true →
  forallb (λ t, negb (bool_decide (t = COMMA))) stop = true →
  parses (comma_list ParsePrimary) (print_list (print_expr 4) l) l (ends stop).
Proof.
  intros Hw Hne H1 H2. apply (parses_list _ _ _ (follow 4)); [| | |done].
  - intros x Hx. by apply parses_ParsePrimary, (forallb_elem _ l).
  - done.
  - intros rest Hr. split; [by eapply ends_follow|by eapply ends_head_not].
Qed.

Lemma parses_group_by g :
  forallb wf_expr g = true →
  parses ParseGroupBy (print_group_by g) g (ends [ORDER; SEMICOLON; EOF_TOKEN]).
Proof.
  intros Hw. unfold ParseGroupBy. destruct g as [|e g].
  - apply parses_Match_no; [intros rest Hr; by eapply ends_head_not|]. apply parses_ret.
  - cbn [print_group_by]. apply parses_Match_yes, parses_Expect. intros _.
    by apply parses_primaries.
Qed.

Lemma parses_order_item o ok :
  wf_expr (ob_expr o) = true →
  (∀ rest, ok rest = true → follow 4 rest = true ∧ head_not DESC rest = true ∧
     head_not ASC rest = true) →
  parses parse_order_item (print_order_item o) o ok.
Proof.
  destruct o as [e []]; unfold print_order_item, parse_order_item; cbn [ob_expr ob_ascending];
    intros Hw Hok; (eapply parses_bind; [by apply parses_ParsePrimary| |]).
  - intros rest Hr. apply Hok, Hr.
  - apply parses_Match_no; [intros rest Hr; apply Hok, Hr|].
    apply parses_Match_no; [intros rest Hr; apply Hok, Hr|]. apply parses_ret.
  - done.
  - apply parses_Match_yes, parses_ret.
Qed.

Lemma parses_order_by o :
  forallb (wf_expr ∘ ob_expr) o = true →
  parses ParseOrderBy (print_order_by o) o (ends stmt_end).
Proof.
  intros Hw. unfold ParseOrderBy. destruct o as [|i o].
  - apply parses_Match_no; [intros rest Hr; by eapply ends_head_not|]. apply parses_ret.
  - cbn [print_order_by]. apply parses_Match_yes, parses_Expect. intros _.
    apply (parses_list _ _ _ (ends [COMMA; SEMICOLON; EOF_TOKEN])); [| | |done].
    + intros x Hx. apply parses_order_item; [by apply (forallb_elem (wf_expr ∘ ob_expr) (i :: o))|].
      intros rest Hr. split_and!; [by eapply ends_follow|by eapply ends_head_not..].
    + done.
    + intros rest Hr. split; [by eapply ends_incl|by eapply ends_head_not].
Qed.

Lemma nonempty_ne {A} (l : list A) : nonempty l = true → l ≠ [].
Proof. by destruct l. Qed.

Lemma parses_select s :
  wf_select s = true → parses ParseSelect (print_select s) s (ends stmt_end).
Proof.
  destruct s as [items tbl a js w g o]. unfold wf_select, print_select, ParseSelect.
  cbn [select_list from_table from_alias joins where_clause group_by order_by].
  rewrite !andb_true_iff. intros [[[[[[[Hne Hi] Ht] Ha] Hj] Hw] Hg] Ho].
  eapply parses_bind.
  { apply (parses_list _ _ _ (ends [COMMA; FROM]) (ends [FROM])).
    - intros x Hx. by apply parses_SelectItem, (forallb_elem _ items).
    - done.
    - intros rest Hr. split; [by eapply ends_incl|by eapply ends_head_not].
    - by apply nonempty_ne. }
  { done. }
  apply parses_Expect. intros _. apply parses_ExpectValue.
  eapply parses_bind; [apply (parses_alias a (ends clause_start))| |].
  { intros rest Hr. split; by eapply ends_head_not. }
  { intros rest Hr. rewrite <- !app_assoc.
    by apply ends_joins, ends_where, ends_group_by, ends_order_by. }
  eapply parses_bind; [by apply parses_ParseJoins| |].
  { intros rest Hr. rewrite <- !app_assoc. by apply ends_where, ends_group_by, ends_order_by. }
  eapply parses_bind; [by apply parses_where| |].
  { intros rest Hr. rewrite <- !app_assoc. by apply ends_group_by, ends_order_by. }
  eapply parses_bind; [by apply parses_group_by| |].
  { intros rest Hr. by apply ends_order_by. }
  rewrite <- (app_nil_r (print_order_by o)).
  eapply parses_bind; [by apply parses_order_by|done|apply parses_ret].
Qed.

Lemma parses_statement s :
  wf_stmt s = true → parses parse_statement (print_stmt s) s (ends stmt_end).
Proof.
  destruct s as [[name cols]|[name vals]|s|[s]]; unfold wf_stmt, parse_statement; cbn [print_stmt
    ct_table_name ct_columns ins_table_name ins_values ex_select]; rewrite ?andb_true_iff; intros Hw.
  - destruct Hw as [[_ Hne] Hw]. apply parses_Match_yes. unfold ParseCreateTable.
    rewrite <- (app_nil_r (_ :: _)). eapply (parses_bind _ _ _ _ _ _ _ (λ _, true)); [|done|apply parses_ret].
    apply parses_Expect. intros _. apply parses_ExpectValue, parses_Expect. intros _.
    eapply parses_bind; [apply (parses_list _ _ cols (λ _, true) (ends [RPAREN]))|done|].
    + intros x Hx. by apply parses_column_def, (forallb_elem _ cols).
    + done.
    + intros rest Hr. split; [done|by eapply ends_head_not].
    + by apply nonempty_ne.
    + apply parses_Expect. intros _. apply parses_ret.
  - destruct Hw as [[_ Hne] Hw]. apply parses_Match_no; [done|]. apply parses_Match_yes.
    rewrite <- (app_nil_r (_ :: _)). eapply (parses_bind _ _ _ _ _ _ _ (λ _, true)); [|done|apply parses_ret].
    apply parses_Expect. intros _. apply parses_ExpectValue, parses_Expect. intros _.
    apply parses_Expect. intros _.
    eapply parses_bind; [apply (parses_primaries vals [RPAREN]); try done; by apply nonempty_ne|done|].
    apply parses_Expect. intros _. apply parses_ret.
  - do 2 (apply parses_Match_no; [done|]). apply parses_Match_yes.
    rewrite <- (app_nil_r (print_select s)).
    eapply parses_bind; [by apply parses_select|done|apply parses_ret].
  - do 3 (apply parses_Match_no; [done|]). apply parses_Match_yes.
    rewrite <- (app_nil_r (_ :: _)).
    eapply (parses_bind _ _ _ _ _ (mkExplain s) _ (ends stmt_end)); [|done|apply parses_ret].
    apply parses_Expect. intros _. rewrite <- (app_nil_r (print_select s)).
    eapply parses_bind; [by apply parses_select|done|apply parses_ret].
Qed.
End parses.

(** On the tokens of a printed statement followed by [;] or the end marker. *)
Lemma Parse_printed (s : Statement) (toks : list Token) (rest : list lexeme) :
  wf_stmt s = true → token_pair <$> toks = print_stmt s ++ rest →
  ends stmt_end rest = true →
  (Parse (Parser_ctor toks)).2 = Ok s.
Proof.
  intros Hw Ht Hr. pose proof (imap_mk_token toks) as Hall. set (ln := λ i, _) in Hall.
  assert (Parser_ctor toks = p_at ln [] (print_stmt s ++ rest)) as ->.
  { unfold Parser_ctor, p_at. cbn [app length]. by rewrite <- Ht, Hall. }
  unfold Parse. rewrite (bindM_Ok _ _ _ _ _ (parses_statement ln s Hw [] rest Hr)).
  destruct rest as [|p rest]; [done|]. unfold bindM. rewrite Match_at. by case_bool_decide.
Qed.

(** ** Text *)
Definition spell (p : lexeme) : list ascii :=
  if bool_decide (p.1 = STRING_LITERAL) then quote :: to_chars p.2 ++ [quote]
  else to_chars p.2.
Definition spellable (p : lexeme) : Prop := spelling p (spell p).
Definition space : ascii := " "%char.
(** A statement as text: a blank before every token. *)
Definition print_sql (s : Statement) : string :=
  of_chars (render ((λ p, mkPiece [space] (spell p) p) <$> print_stmt s) []).

Lemma is_ident_spellable s : is_ident s = true → spellable (IDENTIFIER, s).
Proof.
  unfold is_ident. intros [Hw Hk%bool_decide_eq_true]%andb_true_iff.
  apply (spell_word_as _ (to_chars s)); [done|].
  rewrite String.string_of_list_ascii_of_string. unfold word_token. by rewrite Hk.
Qed.
Lemma int_spellable z : 0 ≤ z → spellable (INT_LITERAL, to_string z).
Proof.
  intros Hz. destruct (to_string_digits z Hz) as (ds & E & Hne & Hd & _).
  unfold spellable, spell. cbn [fst snd]. rewrite bool_decide_false by done.
  rewrite <- (String.string_of_list_ascii_of_string (to_string z)) at 1. rewrite E. by constructor.
Qed.
Lemma string_spellable s :
  forallb (λ c, negb (ceq c quote)) (to_chars s) = true → spellable (STRING_LITERAL, s).
Proof.
  intros H. unfold spellable, spell. cbn [fst snd]. rewrite bool_decide_true by done.
  rewrite <- (String.string_of_list_ascii_of_string s) at 1. by constructor.
Qed.

Ltac list_forall := repeat first [apply List.Forall_cons | apply List.Forall_nil].
Ltac spell_concrete :=
  first [ apply spell_word_as; [reflexivity|vm_compute; reflexivity]
        | apply spell_punctuation; set_solver ].

Lemma table_spellable table name :
  table = OPS ∨ table = AGG_NAMES → in_names table name = true →
  spellable (name_type table name, name).
Proof.
  intros Ht Hin%name_type_in. revert Hin. generalize (name_type table name) as ty. intros ty Hin.
  destruct Ht as [->| ->]; in_cases Hin; injection Hin as -> ->; spell_concrete.
Qed.

Lemma parens_spellable t : Forall spellable t → Forall spellable (parens t).
Proof.
  intros H. unfold parens. constructor; [spell_concrete|]. apply Forall_app; split; [done|].
  constructor; [spell_concrete|constructor].
Qed.

Lemma print_expr_spellable e lvl : wf_expr e = true → Forall spellable (print_expr lvl e).
Proof.
  assert (∀ (b : bool) t, Forall spellable t → Forall spellable (if b then parens t else t)) as Hb.
  { intros [] t H; [by apply parens_spellable|done]. }
  revert lvl. induction e as [t c|z|s|op l r IHl IHr|op l IHl| |f|f e IHe] using Expr_induction;
    intros lvl Hw; cbn [wf_expr print_expr] in *; rewrite ?andb_true_iff in Hw; apply Hb.
  - destruct Hw as [Ht Hc%is_ident_spellable]. case_bool_decide as E.
    + by constructor.
    + rewrite orb_false_l in Ht. apply is_ident_spellable in Ht.
      list_forall; [done|spell_concrete|done].
  - list_forall. apply int_spellable, Z.leb_le, Hw.
  - list_forall. by apply string_spellable.
  - destruct Hw as [[Hop Hl] Hr]. repeat case_bool_decide; apply Forall_app; (split; [by apply IHl|]);
      (constructor; [|by apply IHr]); [spell_concrete..|].
    apply table_spellable; [by left|exact Hop].
  - destruct Hw as [_ Hl]. constructor; [spell_concrete|by apply IHl].
  - list_forall. spell_concrete.
  - constructor; [by apply table_spellable; [right|]|].
    apply (parens_spellable [_]). list_forall. spell_concrete.
  - destruct Hw as [[Hf _] He]. constructor; [by apply table_spellable; [right|]|].
    by apply parens_spellable, IHe.
Qed.

Lemma print_list_spellable {A} (f : A → list lexeme) l :
  (∀ x, x ∈ l → Forall spellable (f x)) → Forall spellable (print_list f l).
Proof.
  induction l as [|x [|y l] IH]; intros Hf; [constructor|apply Hf; set_solver|].
  change (print_list f (x :: y :: l)) with (f x ++ (COMMA, ","%string) :: print_list f (y :: l)).
  apply Forall_app; split; [apply Hf; set_solver|]. constructor; [spell_concrete|].
  apply IH. set_solver.
Qed.
Lemma print_alias_spellable a : wf_alias a = true → Forall spellable (print_alias a).
Proof.
  unfold wf_alias, print_alias. case_bool_decide; [constructor|]. simpl. intros Ha.
  list_forall; [spell_concrete|by apply is_ident_spellable].
Qed.
Lemma print_column_spellable c : wf_column c = true → Forall spellable (print_column c).
Proof.
  unfold wf_column, print_column. intros [Hn Hl]%andb_true_iff.
  constructor; [by apply is_ident_spellable|]. destruct (cd_type_id c).
  - list_forall. spell_concrete.
  - constructor; [spell_concrete|]. apply parens_spellable. list_forall.
    apply int_spellable. apply in_u16_spec in Hl. lia.
Qed.
Lemma print_joins_spellable js :
  forallb wf_join js = true → Forall spellable (print_joins js).
Proof.
  induction js as [|j js IH]; [constructor|]. cbn [forallb print_joins].
  unfold wf_join, print_join. rewrite !andb_true_iff. intros [[[Hn Ha] Hc] Hw].
  apply Forall_app; split; [|by apply IH].
  constructor; [spell_concrete|]. constructor; [by apply is_ident_spellable|].
  apply Forall_app; split; [by apply print_alias_spellable|].
  constructor; [spell_concrete|by apply print_expr_spellable].
Qed.

Lemma print_select_spellable s : wf_select s = true → Forall spellable (print_select s).
Proof.
  unfold wf_select, print_select. rewrite !andb_true_iff.
  intros [[[[[[[_ Hi] Ht] Ha] Hj] Hw] Hg] Ho]. apply Forall_app; split.
  { apply print_list_spellable. intros x Hx. pose proof (forallb_elem _ _ _ Hi Hx) as H.
    unfold wf_item in H. apply andb_true_iff in H as [He Hal].
    apply Forall_app; split; [by apply print_expr_spellable|by apply print_alias_spellable]. }
  constructor; [spell_concrete|]. constructor; [by apply is_ident_spellable|].
  apply Forall_app; split; [by apply print_alias_spellable|].
  apply Forall_app; split; [by apply print_joins_spellable|].
  apply Forall_app; split.
  { destruct (where_clause s) as [e|]; [|constructor].
    constructor; [spell_concrete|by apply print_expr_spellable]. }
  apply Forall_app; split.
  - destruct (group_by s) as [|e g]; [constructor|]. do 2 (constructor; [spell_concrete|]).
    apply print_list_spellable. intros x Hx. apply print_expr_spellable. by eapply forallb_elem.
  - destruct (order_by s) as [|e g]; [constructor|]. do 2 (constructor; [spell_concrete|]).
    apply print_list_spellable. intros x Hx. apply Forall_app; split.
    + apply print_expr_spellable. by apply (forallb_elem (wf_expr ∘ ob_expr) _ _ Ho).
    + destruct (ob_ascending x); list_forall. spell_concrete.
Qed.

Lemma print_stmt_spellable s : wf_stmt s = true → Forall spellable (print_stmt s).
Proof.
  destruct s as [s|s|s|s]; cbn [wf_stmt print_stmt]; rewrite ?andb_true_iff; intros Hw.
  - destruct Hw as [[Hn _] Hw]. do 2 (constructor; [spell_concrete|]).
    constructor; [by apply is_ident_spellable|]. apply parens_spellable, print_list_spellable.
    intros x Hx. apply print_column_spellable. by eapply forallb_elem.
  - destruct Hw as [[Hn _] Hw]. do 2 (constructor; [spell_concrete|]).
    constructor; [by apply is_ident_spellable|]. constructor; [spell_concrete|].
    apply parens_spellable, print_list_spellable.
    intros x Hx. apply print_expr_spellable. by eapply forallb_elem.
  - constructor; [spell_concrete|by apply print_select_spellable].
  - do 2 (constructor; [spell_concrete|]). by apply print_select_spellable.
Qed.

Lemma extends_space raw : extends raw space = false.
Proof.
  destruct raw as [|c r]; [done|]. unfold extends.
  repeat (case_match; try done).
  by rewrite !andb_false_r.
Qed.

Lemma spaced_pieces_ok t :
  Forall spellable t → pieces_ok ((λ p, mkPiece [space] (spell p) p) <$> t) [].
Proof.
  induction 1 as [|p t Hp Ht IH]; [done|]. cbn [fmap list_fmap pieces_ok piece_gap piece_raw piece_token].
  split; [done|]. split; [exact Hp|]. split; [|exact IH].
  destruct t as [|q t]; [done|]. cbn. by rewrite extends_space.
Qed.

(** C8. SQL text round trip, lexer and parser together, for all four kinds of
    statement: the printed text of a statement parses to that statement, with the
    precedence OR < AND < NOT < comparison, left-associative chains and
    parentheses only where these need them. *)
Theorem parse_sql_print (s : Statement) :
  wf_stmt s = true → lines_ok (to_chars (print_sql s)) →
  parse_sql (print_sql s) = Ok s.
Proof.
  intros Hw Hl. unfold parse_sql, print_sql in *.
  rewrite String.list_ascii_of_string_of_list_ascii in Hl.
  destruct (tokenize_pieces _ [] (spaced_pieces_ok _ (print_stmt_spellable s Hw)) Hl)
    as (toks & -> & Ht).
  cbn [obind]. eapply Parse_printed; [done| |].
  - rewrite Ht. f_equal. rewrite <- list_fmap_compose. apply list_fmap_id.
  - done.
Qed.

(** [SELECT a . b FROM t WHERE NOT ( a OR b ) AND c = 1 OR d]. *)
Definition demo_select : Statement :=
  let col := Expr.COLUMN_REF "" in
  SelectS (mkSelect [mkSelectItem (Expr.COLUMN_REF "a" "b") "x"] "t" "" []
    (Some (Expr.BINARY_OP "OR"
      (Expr.BINARY_OP "AND"
        (Expr.UNARY_OP "NOT" (Expr.BINARY_OP "OR" (col "a") (col "b")))
        (Expr.BINARY_OP "=" (col "c") (Expr.INT_LITERAL 1)))
      (col "d")))
    [] [mkOrderByItem (col "a") false]).
Lemma parse_sql_print_witness :
  print_sql demo_select =
    " SELECT a . b AS x FROM t WHERE NOT ( a OR b ) AND c = 1 OR d ORDER BY a DESC"%string ∧
  parse_sql (print_sql demo_select) = Ok demo_select.
Proof.
  split; [vm_compute; reflexivity|].
  apply (parse_sql_print demo_select); vm_compute; reflexivity.
Defined.

(** What follows a complete statement is silently dropped: with any tokens
    after the [;], well-formed or not, the parser returns the statement as if they
    were not there. *)
Theorem Parse_ignores_trailing (s : Statement) (toks junk : list Token) (semi : Token) :
  wf_stmt s = true → token_pair <$> toks = print_stmt s → tok_type semi = SEMICOLON →
  (Parse (Parser_ctor (toks ++ semi :: junk))).2 = Ok s.
Proof.
  intros Hw Ht Hs. apply (Parse_printed s _ (token_pair <$> semi :: junk)); [done| |].
  - by rewrite fmap_app, Ht.
  - cbn. by rewrite Hs.
Qed.

Definition demo_star : Statement :=
  SelectS (mkSelect [mkSelectItem Expr.STAR ""] "t" "" [] None [] []).
Lemma Parse_ignores_trailing_witness :
  (Parse (Parser_ctor
    ([mkToken SELECT "SELECT" 1; mkToken STAR "*" 1; mkToken FROM "FROM" 1;
      mkToken IDENTIFIER "t" 1] ++
     mkToken SEMICOLON ";" 1 ::
     [mkToken RPAREN ")" 1; mkToken EOF_TOKEN "" 1]))).2 = Ok demo_star.
Proof. apply Parse_ignores_trailing; reflexivity. Defined.

(** The declared length of a VARCHAR column is kept modulo [2^16]: whatever
    number the text denotes, the column gets its low 16 bits and no error is
    reported. *)
Theorem varchar_length_wraps (name text : string) (n : Z) (line : Z) (rest : list Token) :
  stoi text = Ok n →
  (parse_column_def (Parser_ctor
    (mkToken IDENTIFIER name line :: mkToken VARCHAR_KW "VARCHAR" line :: mkToken LPAREN "(" line ::
     mkToken INT_LITERAL text line :: mkToken RPAREN ")" line :: rest))).2 =
  Ok (mkColumnDef name VARCHAR (n `mod` 2 ^ 16)).
Proof. intros H. cbv -[stoi Z.modulo Z.pow]. by rewrite H. Qed.

Lemma varchar_length_wraps_witness :
  (parse_column_def (Parser_ctor
    [mkToken IDENTIFIER "c" 1; mkToken VARCHAR_KW "VARCHAR" 1; mkToken LPAREN "(" 1;
     mkToken INT_LITERAL "65536" 1; mkToken RPAREN ")" 1])).2 =
  Ok (mkColumnDef "c" VARCHAR (65536 `mod` 2 ^ 16)).
Proof. apply (varchar_length_wraps "c" "65536" 65536 1 []). vm_compute. reflexivity. Defined.
