(* ===== verification/Catalog.v ===== *)
(** * The catalog: [src/src/catalog/catalog.h], [catalog.cpp]

    [tables_] is a map from names to table entries; [bpm_] is the page cache. *)
From stdpp Require Import base gmap list strings.
From Stdlib Require Import ZArith Lia.
From S2P Require Import Prelude Types PageCache HeapFile.

Record TableInfo := mkTableInfo {
  ti_name : string;
  ti_schema : Schema;
  ti_heap_file : HeapFile;
  ti_first_page_id : Z
}.
Record Catalog := mkCatalog { tables_ : gmap string TableInfo }.
Definition Catalog_ctor : Catalog := mkCatalog ∅.

Definition TableExists (c : Catalog) (name : string) : bool :=
  bool_decide (is_Some (tables_ c !! name)).

Definition GetTable (c : Catalog) (name : string) : outcome TableInfo :=
  match tables_ c !! name with
  | Some info => Ok info
  | None => Fault (Throw ("Table not found: " +:+ name))
  end.

Section catalog.
Context {S : Type} {PC : PageCache S}.

Definition CreateTable (name : string) (schema : Schema) : M (Catalog * S) unit :=
  p <- getM ;;
  if TableExists p.1 name then throwM ("Table already exists: " +:+ name) else
  hf <- zoomM snd (λ s p, (p.1, s)) (HeapFile_create schema) ;;
  q <- getM ;;
  putM (mkCatalog (<[name := mkTableInfo name schema hf (first_page_id_ hf)]> (tables_ q.1)), q.2).
End catalog.
