(* ===== verification/Executor.v ===== *)
(** * Query operators: [src/src/executor/executor.h], [seq_scan], [filter],
    [projection], [sort], [hash_join], [aggregate]

    The virtual methods of the C++ class [Operator] are the type class
    [Operator]: an instance per operator, built on the instance of its child.
    [Init] also acts on the page cache, through the scans at the leaves; [Next]
    works on what [Init] buffered.  Loops take fuel. *)
From stdpp Require Import base gmap list strings.
From Stdlib Require Import ZArith Lia Ascii.
From S2P Require Import Prelude Types PageCache HeapFile Catalog Ast.

(** ** Expression evaluation (executor.h) *)
Definition column_key (table_alias col_name : string) : string :=
  if bool_decide (table_alias = ""%string) then col_name
  else table_alias +:+ "." +:+ col_name.

Definition EvalExpr (e : Expr) (t : Tuple) (schema : Schema) : outcome Value :=
  match e with
  | Expr.INT_LITERAL v => Ok (MakeInt v)
  | Expr.STRING_LITERAL s => Ok (MakeVarchar s 255)
  | Expr.COLUMN_REF alias col =>
      i <-! GetColumnIdx schema (column_key alias col) ;; GetValue t schema i
  | _ => Fault (Throw "EvalExpr: unsupported expression type")
  end.

(** [std::string]'s order: lexicographic on unsigned characters. *)
Fixpoint chars_ltb (a b : list ascii) : bool :=
  match a, b with
  | _, [] => false
  | [], _ :: _ => true
  | x :: a, y :: b =>
      (Z_of_char x <? Z_of_char y) || ((Z_of_char x =? Z_of_char y) && chars_ltb a b)
  end.
Definition str_ltb (a b : string) : bool := chars_ltb (to_chars a) (to_chars b).
Definition str_eqb (a b : string) : bool := bool_decide (a = b).

(** The two chains of comparisons; [None]: no branch returns. *)
Definition compare_int (op : string) (l r : Z) : option bool :=
  if str_eqb op "=" then Some (l =? r)
  else if str_eqb op "<" then Some (l <? r)
  else if str_eqb op ">" then Some (r <? l)
  else if str_eqb op "<=" then Some (l <=? r)
  else if str_eqb op ">=" then Some (r <=? l)
  else if str_eqb op "!=" then Some (negb (l =? r))
  else None.
Definition compare_str (op : string) (l r : string) : option bool :=
  if str_eqb op "=" then Some (str_eqb l r)
  else if str_eqb op "!=" then Some (negb (str_eqb l r))
  else if str_eqb op "<" then Some (str_ltb l r)
  else if str_eqb op ">" then Some (str_ltb r l)
  else if str_eqb op "<=" then Some (negb (str_ltb r l))
  else if str_eqb op ">=" then Some (negb (str_ltb l r))
  else None.
Definition compare_values (op : string) (lv rv : Value) : option bool :=
  match GetType lv, GetType rv with
  | INT, INT => compare_int op (AsInt lv) (AsInt rv)
  | _, _ => compare_str op (AsVarchar lv) (AsVarchar rv)
  end.

Fixpoint EvalPred (e : Expr) (t : Tuple) (schema : Schema) : outcome bool :=
  let unsupported := Fault (Throw "EvalPred: unsupported predicate") in
  match e with
  | Expr.UNARY_OP op l =>
      if str_eqb op "NOT" then b <-! EvalPred l t schema ;; Ok (negb b) else unsupported
  | Expr.BINARY_OP op l r =>
      if str_eqb op "AND" then
        b <-! EvalPred l t schema ;; if b : bool then EvalPred r t schema else Ok false
      else if str_eqb op "OR" then
        b <-! EvalPred l t schema ;; if b : bool then Ok true else EvalPred r t schema
      else
        lv <-! EvalExpr l t schema ;;
        rv <-! EvalExpr r t schema ;;
        match compare_values op lv rv with
        | Some b => Ok b
        | None => unsupported
        end
  | _ => unsupported
  end.

(** ** The interface *)
Class Operator (S C : Type) := {
  Init : nat → M (C * S) unit;
  Next : nat → M C (option Tuple);
  Close : M C unit;
  GetOutputSchema : C → Schema
}.

(** [while (child->Next(&t)) body(t);]: the tuples, in order. *)
Fixpoint drain {S C} `{Operator S C} (fuel n : nat) : M C (list Tuple) :=
  match n with
  | O => faultM OutOfFuel
  | Datatypes.S n =>
      r <- Next fuel ;;
      match r with
      | None => retM []
      | Some t => rest <- drain fuel n ;; retM (t :: rest)
      end
  end.

(** A method of the first or second component. *)
Definition on_op {S C A} (m : M C A) : M (C * S) A := zoomM fst (λ o p, (o, p.2)) m.
Definition on_store {S C A} (m : M S A) : M (C * S) A := zoomM snd (λ s p, (p.1, s)) m.

Definition modifyM {T} (f : T → T) : M T unit := o <- getM ;; putM (f o).

(** ** SeqScan *)
Record SeqScan := mkSeqScan {
  ss_table_info : TableInfo;
  ss_output_schema : Schema;
  ss_buffer : list Tuple;
  ss_cursor : nat
}.
Definition MakeOutputSchema (base : Schema) (alias : string) : Schema :=
  if bool_decide (alias = ""%string) then base
  else Schema_ctor ((λ c, mkColumn (alias +:+ "." +:+ col_name c) (col_type c)) <$> columns_ base).
Definition SeqScan_ctor (info : TableInfo) (alias : string) : SeqScan :=
  mkSeqScan info (MakeOutputSchema (ti_schema info) alias) [] 0.

Section seq_scan.
Context {S : Type} {PC : PageCache S}.
Definition SeqScan_Init (fuel : nat) : M (SeqScan * S) unit :=
  on_op (o <- getM ;; putM (mkSeqScan (ss_table_info o) (ss_output_schema o) [] 0)) ;;
  p <- getM ;;
  buffer <- on_store (Scan fuel (ti_heap_file (ss_table_info p.1))
                        (λ buffer _ t, (buffer ++ [t], true)) (ss_buffer p.1)) ;;
  on_op (o <- getM ;;
         putM (mkSeqScan (ss_table_info o) (ss_output_schema o) buffer (ss_cursor o))).
Definition SeqScan_Next (fuel : nat) : M SeqScan (option Tuple) :=
  o <- getM ;;
  match ss_buffer o !! ss_cursor o with
  | None => retM None
  | Some t =>
      putM (mkSeqScan (ss_table_info o) (ss_output_schema o) (ss_buffer o)
              (Datatypes.S (ss_cursor o))) ;;
      retM (Some t)
  end.
Definition SeqScan_Close : M SeqScan unit :=
  o <- getM ;; putM (mkSeqScan (ss_table_info o) (ss_output_schema o) [] (ss_cursor o)).
#[global] Instance SeqScan_Operator : Operator S SeqScan := {
  Init := SeqScan_Init;
  Next := SeqScan_Next;
  Close := SeqScan_Close;
  GetOutputSchema := ss_output_schema
}.
End seq_scan.

(** ** Filter *)
Record Filter (C : Type) := mkFilter { f_child : C; f_predicate : Expr }.
Arguments mkFilter {C}. Arguments f_child {C}. Arguments f_predicate {C}.

Section filter.
Context {S C : Type} `{Operator S C}.
Definition on_filter_child {A} (m : M C A) : M (Filter C) A :=
  zoomM f_child (λ c o, mkFilter c (f_predicate o)) m.
Definition Filter_Init (fuel : nat) : M (Filter C * S) unit :=
  zoomM (λ p, (f_child p.1, p.2)) (λ c p, (mkFilter c.1 (f_predicate p.1), c.2)) (Init fuel).
Fixpoint filter_loop (fuel n : nat) : M (Filter C) (option Tuple) :=
  match n with
  | O => faultM OutOfFuel
  | Datatypes.S n =>
      r <- on_filter_child (Next fuel) ;;
      match r with
      | None => retM None
      | Some t =>
          o <- getM ;;
          b <- liftM (EvalPred (f_predicate o) t (GetOutputSchema (f_child o))) ;;
          if b : bool then retM (Some t) else filter_loop fuel n
      end
  end.
Definition Filter_Next (fuel : nat) : M (Filter C) (option Tuple) := filter_loop fuel fuel.
#[global] Instance Filter_Operator : Operator S (Filter C) := {
  Init := Filter_Init;
  Next := Filter_Next;
  Close := on_filter_child Close;
  GetOutputSchema o := GetOutputSchema (f_child o)
}.
End filter.

(** ** Projection *)
Record Projection (C : Type) := mkProjection {
  p_child : C;
  p_exprs : list Expr;
  p_col_names : list string;
  p_output_schema : Schema
}.
Arguments mkProjection {C}. Arguments p_child {C}. Arguments p_exprs {C}.
Arguments p_col_names {C}. Arguments p_output_schema {C}.

(** [for (e : exprs) vals.push_back(EvalExpr(e, t, schema));]. *)
Fixpoint eval_exprs (exprs : list Expr) (t : Tuple) (schema : Schema) : outcome (list Value) :=
  match exprs with
  | [] => Ok []
  | e :: exprs =>
      v <-! EvalExpr e t schema ;; vs <-! eval_exprs exprs t schema ;; Ok (v :: vs)
  end.

Section projection.
Context {S C : Type} `{Operator S C}.
Definition set_p_child (c : C) (o : Projection C) : Projection C :=
  mkProjection c (p_exprs o) (p_col_names o) (p_output_schema o).
Definition on_projection_child {A} (m : M C A) : M (Projection C) A := zoomM p_child set_p_child m.
Definition Projection_Init (fuel : nat) : M (Projection C * S) unit :=
  zoomM (λ p, (p_child p.1, p.2)) (λ c p, (set_p_child c.1 p.1, c.2)) (Init fuel).
Definition Projection_Next (fuel : nat) : M (Projection C) (option Tuple) :=
  r <- on_projection_child (Next fuel) ;;
  match r with
  | None => retM None
  | Some t =>
      o <- getM ;;
      vals <- liftM (eval_exprs (p_exprs o) t (GetOutputSchema (p_child o))) ;;
      out <- liftM (Tuple_ctor vals (p_output_schema o)) ;;
      retM (Some out)
  end.
#[global] Instance Projection_Operator : Operator S (Projection C) := {
  Init := Projection_Init;
  Next := Projection_Next;
  Close := on_projection_child Close;
  GetOutputSchema := p_output_schema
}.
End projection.

(** ** Sort *)
Record Sort (C : Type) := mkSort {
  so_child : C;
  so_order_by : list OrderByItem;
  so_buffer : list Tuple;
  so_cursor : nat
}.
Arguments mkSort {C}. Arguments so_child {C}. Arguments so_order_by {C}.
Arguments so_buffer {C}. Arguments so_cursor {C}.
Definition Sort_ctor {C} (child : C) (order_by : list OrderByItem) : Sort C :=
  mkSort child order_by [] 0.

(** The comparator. *)
Fixpoint sort_less (order_by : list OrderByItem) (schema : Schema) (a b : Tuple) : outcome bool :=
  match order_by with
  | [] => Ok false
  | item :: order_by =>
      va <-! EvalExpr (ob_expr item) a schema ;;
      vb <-! EvalExpr (ob_expr item) b schema ;;
      match GetType va with
      | INT =>
          if negb (AsInt va =? AsInt vb) then
            Ok (if ob_ascending item then AsInt va <? AsInt vb else AsInt vb <? AsInt va)
          else sort_less order_by schema a b
      | VARCHAR =>
          if negb (str_eqb (AsVarchar va) (AsVarchar vb)) then
            Ok (if ob_ascending item then str_ltb (AsVarchar va) (AsVarchar vb)
                else str_ltb (AsVarchar vb) (AsVarchar va))
          else sort_less order_by schema a b
      end
  end.

(** [std::sort(begin, end, comp)] with a comparator that may throw: which of the
    orders the comparator allows comes out is up to the library. *)
Class StdSort := std_sort : (Tuple → Tuple → outcome bool) → list Tuple → outcome (list Tuple).

Section sort.
Context {S C : Type} `{Operator S C} `{StdSort}.
Definition set_so (c : C) (buffer : list Tuple) (cursor : nat) (o : Sort C) : Sort C :=
  mkSort c (so_order_by o) buffer cursor.
Definition on_sort_child {A} (m : M C A) : M (Sort C) A :=
  zoomM so_child (λ c o, set_so c (so_buffer o) (so_cursor o) o) m.
Definition Sort_Init (fuel : nat) : M (Sort C * S) unit :=
  on_op (o <- getM ;; putM (set_so (so_child o) [] 0 o)) ;;
  zoomM (λ p, (so_child p.1, p.2))
    (λ c p, (set_so c.1 (so_buffer p.1) (so_cursor p.1) p.1, c.2)) (Init fuel) ;;
  on_op (
    ts <- on_sort_child (drain fuel fuel) ;;
    on_sort_child Close ;;
    o <- getM ;;
    sorted <- liftM (std_sort (sort_less (so_order_by o) (GetOutputSchema (so_child o)))
                       (so_buffer o ++ ts)) ;;
    putM (set_so (so_child o) sorted (so_cursor o) o)).
Definition Sort_Next (fuel : nat) : M (Sort C) (option Tuple) :=
  o <- getM ;;
  match so_buffer o !! so_cursor o with
  | None => retM None
  | Some t =>
      putM (set_so (so_child o) (so_buffer o) (Datatypes.S (so_cursor o)) o) ;; retM (Some t)
  end.
Definition Sort_Close : M (Sort C) unit :=
  o <- getM ;; putM (set_so (so_child o) [] (so_cursor o) o).
#[global] Instance Sort_Operator : Operator S (Sort C) := {
  Init := Sort_Init;
  Next := Sort_Next;
  Close := Sort_Close;
  GetOutputSchema o := GetOutputSchema (so_child o)
}.
End sort.

(** ** HashJoin *)
Record HashJoin (L R : Type) := mkHashJoin {
  hj_left : L;
  hj_right : R;
  hj_left_key : Expr;
  hj_right_key : Expr;
  hj_output_schema : Schema;
  hj_hash_table : gmap string (list Tuple);
  hj_right_buffer : list Tuple;
  hj_right_cursor : nat;
  hj_match_cursor : nat;
  hj_current_key : string
}.
Arguments mkHashJoin {L R}. Arguments hj_left {L R}. Arguments hj_right {L R}.
Arguments hj_left_key {L R}. Arguments hj_right_key {L R}. Arguments hj_output_schema {L R}.
Arguments hj_hash_table {L R}. Arguments hj_right_buffer {L R}.
Arguments hj_right_cursor {L R}. Arguments hj_match_cursor {L R}. Arguments hj_current_key {L R}.

Definition ConcatSchemas (l r : Schema) : Schema := Schema_ctor (columns_ l ++ columns_ r).

(** The static [Concat]. *)
Definition Concat (l r : Tuple) (ls rs : Schema) : outcome Tuple :=
  let total := wrap_u32 (GetTupleSize ls + GetTupleSize rs) in
  let buf := memset total NUL in
  bl <-! odef (load 0 (GetTupleSize ls) (data_ l)) ;;
  buf <-! odef (store 0 bl buf) ;;
  br <-! odef (load 0 (GetTupleSize rs) (data_ r)) ;;
  buf <-! odef (store (GetTupleSize ls) br buf) ;;
  FromBytes 0 total buf.

(** [EvalExpr(key, t, schema).ToString()]. *)
Definition key_string (e : Expr) (t : Tuple) (schema : Schema) : outcome string :=
  v <-! EvalExpr e t schema ;; Ok (ToString v).

Section hash_join.
Context {S L R : Type} `{Operator S L} `{Operator S R}.
Local Abbreviation J := (HashJoin L R).

Definition HashJoin_ctor (left : L) (right : R) (left_key right_key : Expr) : J :=
  mkHashJoin left right left_key right_key
    (ConcatSchemas (GetOutputSchema left) (GetOutputSchema right)) ∅ [] 0 0 "".

Definition set_left (l : L) (o : J) : J :=
  mkHashJoin l (hj_right o) (hj_left_key o) (hj_right_key o) (hj_output_schema o)
    (hj_hash_table o) (hj_right_buffer o) (hj_right_cursor o) (hj_match_cursor o) (hj_current_key o).
Definition set_right (r : R) (o : J) : J :=
  mkHashJoin (hj_left o) r (hj_left_key o) (hj_right_key o) (hj_output_schema o)
    (hj_hash_table o) (hj_right_buffer o) (hj_right_cursor o) (hj_match_cursor o) (hj_current_key o).
Definition set_tables (ht : gmap string (list Tuple)) (buffer : list Tuple) (o : J) : J :=
  mkHashJoin (hj_left o) (hj_right o) (hj_left_key o) (hj_right_key o) (hj_output_schema o)
    ht buffer (hj_right_cursor o) (hj_match_cursor o) (hj_current_key o).
Definition set_probe (rc mc : nat) (key : string) (o : J) : J :=
  mkHashJoin (hj_left o) (hj_right o) (hj_left_key o) (hj_right_key o) (hj_output_schema o)
    (hj_hash_table o) (hj_right_buffer o) rc mc key.

Definition on_left {A} (m : M L A) : M J A := zoomM hj_left set_left m.
Definition on_right {A} (m : M R A) : M J A := zoomM hj_right set_right m.

(** [hash_table_[key].push_back(t)]. *)
Definition ht_push (key : string) (t : Tuple) (ht : gmap string (list Tuple))
    : gmap string (list Tuple) :=
  <[key := default [] (ht !! key) ++ [t]]> ht.

(** The build phase. *)
Fixpoint build_loop (fuel n : nat) : M J unit :=
  match n with
  | O => faultM OutOfFuel
  | Datatypes.S n =>
      r <- on_left (Next fuel) ;;
      match r with
      | None => retM tt
      | Some t =>
          o <- getM ;;
          key <- liftM (key_string (hj_left_key o) t (GetOutputSchema (hj_left o))) ;;
          modifyM (λ o, set_tables (ht_push key t (hj_hash_table o)) (hj_right_buffer o) o) ;;
          build_loop fuel n
      end
  end.

Definition HashJoin_Init (fuel : nat) : M (J * S) unit :=
  on_op (modifyM (λ o, set_probe 0 0 (hj_current_key o) (set_tables ∅ [] o))) ;;
  zoomM (λ p, (hj_left p.1, p.2)) (λ c p, (set_left c.1 p.1, c.2)) (Init fuel) ;;
  on_op (build_loop fuel fuel ;; on_left Close) ;;
  zoomM (λ p, (hj_right p.1, p.2)) (λ c p, (set_right c.1 p.1, c.2)) (Init fuel) ;;
  on_op (
    ts <- on_right (drain fuel fuel) ;;
    modifyM (λ o, set_tables (hj_hash_table o) (hj_right_buffer o ++ ts) o) ;;
    on_right Close).

(** One turn of the loop of [Next]: a match of the current key, or the next
    right tuple. *)
Fixpoint probe_loop (n : nat) : M J (option Tuple) :=
  match n with
  | O => faultM OutOfFuel
  | Datatypes.S n =>
      o <- getM ;;
      let next_right : M J (option Tuple) :=
        o <- getM ;;
        match hj_right_buffer o !! hj_right_cursor o with
        | None => retM None
        | Some right_t =>
            modifyM (λ o, set_probe (Datatypes.S (hj_right_cursor o)) (hj_match_cursor o)
                            (hj_current_key o) o) ;;
            key <- liftM (key_string (hj_right_key o) right_t (GetOutputSchema (hj_right o))) ;;
            modifyM (λ o, set_probe (hj_right_cursor o) 0 key o) ;;
            probe_loop n
        end in
      if str_eqb (hj_current_key o) "" then next_right else
      match hj_hash_table o !! hj_current_key o ≫= λ bucket, bucket !! hj_match_cursor o with
      | Some left_t =>
          modifyM (λ o, set_probe (hj_right_cursor o) (Datatypes.S (hj_match_cursor o))
                          (hj_current_key o) o) ;;
          right_t <- defM (match hj_right_cursor o with
                           | O => None
                           | Datatypes.S c => hj_right_buffer o !! c
                           end) ;;
          out <- liftM (Concat left_t right_t (GetOutputSchema (hj_left o))
                          (GetOutputSchema (hj_right o))) ;;
          retM (Some out)
      | None =>
          modifyM (λ o, set_probe (hj_right_cursor o) 0 "" o) ;; next_right
      end
  end.
Definition HashJoin_Next (fuel : nat) : M J (option Tuple) := probe_loop fuel.
Definition HashJoin_Close : M J unit := modifyM (set_tables ∅ []).
#[global] Instance HashJoin_Operator : Operator S J := {
  Init := HashJoin_Init;
  Next := HashJoin_Next;
  Close := HashJoin_Close;
  GetOutputSchema := hj_output_schema
}.
End hash_join.

(** ** HashAggregate *)
Record AggExpr := mkAggExpr {
  ae_func : string;
  ae_arg : option Expr;
  ae_is_star : bool;
  ae_output_name : string
}.
Record Group := mkGroup {
  key_vals : list Value;
  counts : list Z;
  sums : list Z;
  mins : list Z;
  maxs : list Z
}.
Definition Group_default : Group := mkGroup [] [] [] [] [].

Record HashAggregate (C : Type) := mkHashAggregate {
  ha_child : C;
  ha_group_by : list Expr;
  ha_agg_exprs : list AggExpr;
  ha_output_schema : Schema;
  ha_groups : gmap string Group;
  ha_group_order : list string;
  ha_cursor : nat
}.
Arguments mkHashAggregate {C}. Arguments ha_child {C}. Arguments ha_group_by {C}.
Arguments ha_agg_exprs {C}. Arguments ha_output_schema {C}. Arguments ha_groups {C}.
Arguments ha_group_order {C}. Arguments ha_cursor {C}.

(** 64-bit signed addition. *)
Definition add_s64 (a b : Z) : outcome Z :=
  if (- 2 ^ 63 <=? a + b) && (a + b <? 2 ^ 63) then Ok (a + b) else Fault Undefined.

(** [key += EvalExpr(e, t, schema).ToString() + "|"] over [group_by_]. *)
Fixpoint make_key (group_by : list Expr) (t : Tuple) (schema : Schema) (key : string)
    : outcome string :=
  match group_by with
  | [] => Ok key
  | e :: group_by =>
      v <-! EvalExpr e t schema ;;
      make_key group_by t schema (key +:+ (ToString v +:+ "|"))
  end.

Definition new_group (key_vals : list Value) (n_agg : nat) : Group :=
  mkGroup key_vals (replicate n_agg 0) (replicate n_agg 0)
    (replicate n_agg INT32_MAX) (replicate n_agg INT32_MIN).

(** One round of the inner loop, for aggregate [i]. *)
Definition update_agg (i : nat) (ae : AggExpr) (t : Tuple) (schema : Schema) (g : Group)
    : outcome Group :=
  c <-! odef (counts g !! i) ;;
  c <-! add_s64 c 1 ;;
  let g := mkGroup (key_vals g) (<[i := c]> (counts g)) (sums g) (mins g) (maxs g) in
  if str_eqb (ae_func ae) "COUNT" then Ok g else
  arg <-! odef (ae_arg ae) ;;
  value <-! EvalExpr arg t schema ;;
  let v := AsInt value in
  s <-! odef (sums g !! i) ;;
  s <-! add_s64 s v ;;
  mn <-! odef (mins g !! i) ;;
  mx <-! odef (maxs g !! i) ;;
  Ok (mkGroup (key_vals g) (counts g) (<[i := s]> (sums g))
        (if v <? mn then <[i := v]> (mins g) else mins g)
        (if mx <? v then <[i := v]> (maxs g) else maxs g)).
Fixpoint update_aggs (i : nat) (aggs : list AggExpr) (t : Tuple) (schema : Schema) (g : Group)
    : outcome Group :=
  match aggs with
  | [] => Ok g
  | ae :: aggs => g <-! update_agg i ae t schema g ;; update_aggs (Datatypes.S i) aggs t schema g
  end.

(** The [for] over the aggregates in [Next]; an unknown function adds nothing. *)
Definition agg_value (i : nat) (ae : AggExpr) (g : Group) : outcome (list Value) :=
  let int z := Ok [MakeInt z] in
  if str_eqb (ae_func ae) "COUNT" then c <-! odef (counts g !! i) ;; int (wrap_s32 c)
  else if str_eqb (ae_func ae) "SUM" then s <-! odef (sums g !! i) ;; int (wrap_s32 s)
  else if str_eqb (ae_func ae) "AVG" then
    s <-! odef (sums g !! i) ;;
    c <-! odef (counts g !! i) ;;
    int (wrap_s32 (s `quot` (if 0 <? c then c else 1)))
  else if str_eqb (ae_func ae) "MIN" then m <-! odef (mins g !! i) ;; int m
  else if str_eqb (ae_func ae) "MAX" then m <-! odef (maxs g !! i) ;; int m
  else Ok [].
Fixpoint agg_values (i : nat) (aggs : list AggExpr) (g : Group) : outcome (list Value) :=
  match aggs with
  | [] => Ok []
  | ae :: aggs =>
      v <-! agg_value i ae g ;; vs <-! agg_values (Datatypes.S i) aggs g ;; Ok (v ++ vs)
  end.

Section aggregate.
Context {S C : Type} `{Operator S C}.
Local Abbreviation A := (HashAggregate C).

Definition HashAggregate_ctor (child : C) (group_by : list Expr) (aggs : list AggExpr)
    (schema : Schema) : A :=
  mkHashAggregate child group_by aggs schema ∅ [] 0.
Definition set_ha_child (c : C) (o : A) : A :=
  mkHashAggregate c (ha_group_by o) (ha_agg_exprs o) (ha_output_schema o)
    (ha_groups o) (ha_group_order o) (ha_cursor o).
Definition set_groups (groups : gmap string Group) (order : list string) (o : A) : A :=
  mkHashAggregate (ha_child o) (ha_group_by o) (ha_agg_exprs o) (ha_output_schema o)
    groups order (ha_cursor o).
Definition set_ha_cursor (cursor : nat) (o : A) : A :=
  mkHashAggregate (ha_child o) (ha_group_by o) (ha_agg_exprs o) (ha_output_schema o)
    (ha_groups o) (ha_group_order o) cursor.
Definition on_agg_child {B} (m : M C B) : M A B := zoomM ha_child set_ha_child m.

(** [MakeKey(t)]. *)
Definition MakeKey (t : Tuple) (o : A) : outcome string :=
  make_key (ha_group_by o) t (GetOutputSchema (ha_child o)) "".

(** The body of the loop of [Init] for one tuple. *)
Definition add_row (t : Tuple) : M A unit :=
  o <- getM ;;
  let schema := GetOutputSchema (ha_child o) in
  key <- liftM (MakeKey t o) ;;
  (match ha_groups o !! key with
   | Some _ => retM tt
   | None =>
       vals <- liftM (eval_exprs (ha_group_by o) t schema) ;;
       modifyM (λ o, set_groups (<[key := new_group vals (length (ha_agg_exprs o))]> (ha_groups o))
                       (ha_group_order o ++ [key]) o)
   end) ;;
  o <- getM ;;
  g <- liftM (update_aggs 0 (ha_agg_exprs o) t schema
                (default Group_default (ha_groups o !! key))) ;;
  modifyM (λ o, set_groups (<[key := g]> (ha_groups o)) (ha_group_order o) o).

Fixpoint aggregate_loop (fuel n : nat) : M A unit :=
  match n with
  | O => faultM OutOfFuel
  | Datatypes.S n =>
      r <- on_agg_child (Next fuel) ;;
      match r with
      | None => retM tt
      | Some t => add_row t ;; aggregate_loop fuel n
      end
  end.

Definition HashAggregate_Init (fuel : nat) : M (A * S) unit :=
  on_op (modifyM (λ o, set_ha_cursor 0 (set_groups ∅ [] o))) ;;
  zoomM (λ p, (ha_child p.1, p.2)) (λ c p, (set_ha_child c.1 p.1, c.2)) (Init fuel) ;;
  on_op (aggregate_loop fuel fuel ;; on_agg_child Close).

(** [groups_[key]] creates an empty group for an unknown key. *)
Definition HashAggregate_Next (fuel : nat) : M A (option Tuple) :=
  o <- getM ;;
  match ha_group_order o !! ha_cursor o with
  | None => retM None
  | Some key =>
      let g := default Group_default (ha_groups o !! key) in
      modifyM (λ o, set_ha_cursor (Datatypes.S (ha_cursor o))
                      (set_groups (<[key := g]> (ha_groups o)) (ha_group_order o) o)) ;;
      aggs <- liftM (agg_values 0 (ha_agg_exprs o) g) ;;
      out <- liftM (Tuple_ctor (key_vals g ++ aggs) (ha_output_schema o)) ;;
      retM (Some out)
  end.
Definition HashAggregate_Close : M A unit := modifyM (set_groups ∅ []).
#[global] Instance HashAggregate_Operator : Operator S A := {
  Init := HashAggregate_Init;
  Next := HashAggregate_Next;
  Close := HashAggregate_Close;
  GetOutputSchema := ha_output_schema
}.
End aggregate.
