(* ===== verification/ExecutorSpec.v ===== *)
(** * What operators promise: streams of rows

    A stream is the rows an operator hands out and the fault that ends it, if
    one does.  [yields N o st]: with loop fuel [N] or more, calling [Next] on
    [o] until it stops gives exactly [st].  [produces I o st]: in every storage
    state of [I], [Init] succeeds, keeps [I] and leaves an operator that yields
    [st]; [refuses I o f]: [Init] ends in the fault [f] and keeps [I].  A run
    ([runs_as]) is one or the other.  Each operator's lemma transforms the runs of
    its children. *)
From stdpp Require Import base gmap list strings sorting.
From Stdlib Require Import ZArith Lia Ascii.
From S2P Require Import Prelude Types PageCache HeapFile HeapFileSpec Catalog Ast Executor.

Record stream := mkStream { rows : list Tuple; failure : option fault }.
Definition st_cons (t : Tuple) (st : stream) : stream := mkStream (t :: rows st) (failure st).
(** All rows of a stream, for an operator that reads it to the end. *)
Definition ended (st : stream) : outcome (list Tuple) :=
  match failure st with None => Ok (rows st) | Some f => Fault f end.
(** The fault that ends a run, in [Init] or in a [Next]. *)
Definition run_failure (x : outcome stream) : option fault :=
  match x with Ok st => failure st | Fault f => Some f end.
(** What a row by row operator makes of the run of its child. *)
Definition on_stream (g : list Tuple → option fault → stream) (x : outcome stream) : outcome stream :=
  st <-! x ;; Ok (g (rows st) (failure st)).

(** [Close] succeeds and keeps the schema. *)
Class OperatorLaws (S C : Type) `{Operator S C} :=
  Close_ok : ∀ o : C, ∃ o', Close o = (o', Ok tt) ∧ GetOutputSchema o' = GetOutputSchema o.

Section yields.
Context {S C : Type} `{Operator S C}.

Inductive yields (N : nat) : C → stream → Prop :=
  | yields_end o o' :
      (∀ fuel, (N ≤ fuel)%nat → Next fuel o = (o', Ok None)) →
      GetOutputSchema o' = GetOutputSchema o →
      yields N o (mkStream [] None)
  | yields_fault o o' f :
      (∀ fuel, (N ≤ fuel)%nat → Next fuel o = (o', Fault f)) →
      yields N o (mkStream [] (Some f))
  | yields_row o o' t st :
      (∀ fuel, (N ≤ fuel)%nat → Next fuel o = (o', Ok (Some t))) →
      GetOutputSchema o' = GetOutputSchema o →
      yields N o' st → yields N o (st_cons t st).

Lemma yields_le N N' o st : yields N o st → (N ≤ N')%nat → yields N' o st.
Proof.
  intros Hy Hle. induction Hy as [o o' Hn Hs|o o' f Hn|o o' t st Hn Hs Hy IH].
  - eapply yields_end; [|done]. intros fuel ?. apply Hn. lia.
  - eapply yields_fault. intros fuel ?. apply Hn. lia.
  - eapply yields_row; [|done|done]. intros fuel ?. apply Hn. lia.
Qed.

(** A first [Next] that does what another state's [Next] does. *)
Lemma yields_step N N' o o2 st :
  (∀ fuel, (N' ≤ fuel)%nat → ∃ fuel', (N ≤ fuel')%nat ∧ Next fuel o = Next fuel' o2) →
  GetOutputSchema o2 = GetOutputSchema o → (N ≤ N')%nat →
  yields N o2 st → yields N' o st.
Proof.
  intros Hstep Hsch Hle Hy.
  assert (∀ r, (∀ fuel, (N ≤ fuel)%nat → Next fuel o2 = r) →
    ∀ fuel, (N' ≤ fuel)%nat → Next fuel o = r) as Hn.
  { intros r Hr fuel Hf. destruct (Hstep fuel Hf) as (fuel' & Hf' & ->). by apply Hr. }
  destruct Hy as [o2 o' Hn2 Hs|o2 o' f Hn2|o2 o' t st Hn2 Hs Hy].
  - eapply yields_end; [apply Hn, Hn2|congruence].
  - eapply yields_fault. apply Hn, Hn2.
  - eapply yields_row; [apply Hn, Hn2|congruence|by eapply yields_le].
Qed.

Definition produces (I : S → Prop) (o : C) (st : stream) : Prop :=
  ∃ N, ∀ s, I s →
    ∃ o' s', (∀ fuel, (N ≤ fuel)%nat → Init fuel (o, s) = ((o', s'), Ok tt)) ∧ I s' ∧
      GetOutputSchema o' = GetOutputSchema o ∧ yields N o' st.

(** [Init] ends in the fault [f]; the storage stays in [I]. *)
Definition refuses (I : S → Prop) (o : C) (f : fault) : Prop :=
  ∃ N, ∀ s, I s →
    ∃ o' s', (∀ fuel, (N ≤ fuel)%nat → Init fuel (o, s) = ((o', s'), Fault f)) ∧ I s'.
(** A run: the fault of [Init], or the stream of [Next]. *)
Definition runs_as (I : S → Prop) (o : C) (x : outcome stream) : Prop :=
  match x with Ok st => produces I o st | Fault f => refuses I o f end.

(** Draining a stream collects its rows, unless it fails. *)
Lemma drain_ended N o st :
  yields N o st →
  ∃ o', (failure st = None → GetOutputSchema o' = GetOutputSchema o) ∧
    ∀ fuel n, (N ≤ fuel)%nat → (length (rows st) < n)%nat → drain fuel n o = (o', ended st).
Proof.
  intros Hy. induction Hy as [o o' Hn Hs|o o' f Hn|o o' t st Hn Hs Hy (o2 & Hs2 & Hd)].
  - exists o'. split; [done|]. intros fuel [|n] Hf Hl; [simpl in Hl; lia|]. cbn [drain].
    by rewrite (bindM_Ok _ _ _ _ _ (Hn fuel Hf)).
  - exists o'. split; [done|]. intros fuel [|n] Hf Hl; [simpl in Hl; lia|]. cbn [drain].
    unfold bindM. by rewrite (Hn fuel Hf).
  - exists o2. split; [intros Hf; rewrite Hs2; [congruence|exact Hf]|].
    intros fuel [|n] Hf Hl; simpl in Hl; [lia|]. cbn [drain].
    rewrite (bindM_Ok _ _ _ _ _ (Hn fuel Hf)). unfold bindM. rewrite Hd by lia.
    unfold ended. cbn. by destruct (failure st).
Qed.
Lemma drain_yields N o l :
  yields N o (mkStream l None) →
  ∃ o', GetOutputSchema o' = GetOutputSchema o ∧
    ∀ fuel n, (N ≤ fuel)%nat → (length l < n)%nat → drain fuel n o = (o', Ok l).
Proof. intros (o' & Hs & Hd)%drain_ended. exists o'. split; [by apply Hs|exact Hd]. Qed.
End yields.
#[global] Hint Mode OperatorLaws - - - : typeclass_instances.

(** ** SeqScan *)
Section seq_scan.
Context {S : Type} {PC : PageCache S} {PCS : PageCacheSpec S}.

#[global] Instance SeqScan_laws : OperatorLaws S SeqScan.
Proof. intros o. by eexists. Qed.

Lemma SeqScan_yields ti sch buf cur :
  yields (S := S) 0 (mkSeqScan ti sch buf cur) (mkStream (drop cur buf) None).
Proof.
  remember (length buf - cur)%nat as k eqn:Hk. revert cur Hk. induction k as [|k IH]; intros cur Hk.
  - rewrite drop_ge by lia. eapply yields_end; [|reflexivity]. intros fuel _.
    cbn. unfold SeqScan_Next, bindM, getM. cbn. by rewrite lookup_ge_None_2 by lia.
  - destruct (lookup_lt_is_Some_2 buf cur) as [t Ht]; [lia|].
    rewrite (drop_S _ _ _ Ht). apply (yields_row 0 _ (mkSeqScan ti sch buf (Datatypes.S cur)) t
      (mkStream _ None)); [|done|apply IH; lia].
    intros fuel _. cbn. unfold SeqScan_Next, bindM, getM. cbn. by rewrite Ht.
Qed.

(** The storage states in which the pages of [st] are current and pinned as in
    [pins]. *)
Definition stored (st : pages) (pins : pinmap) (cap : nat) (s : S) : Prop :=
  pc_rep s st pins ∧ pc_cap s = cap.

Lemma scan_collect l acc :
  scan_list (λ buffer _ t, (buffer ++ [t], true)) l acc = (acc ++ l.*2, true).
Proof.
  revert acc. induction l as [|[r t] l IH]; intros acc; cbn; [by rewrite app_nil_r|].
  rewrite IH. by rewrite <- app_assoc.
Qed.

Lemma SeqScan_produces ti alias st pins cap ps :
  pins_low pins → (size pins < cap)%nat → heap_rep (ti_heap_file ti) st ps →
  produces (stored st pins cap) (SeqScan_ctor ti alias) (mkStream (chain_entries ps).*2 None).
Proof.
  intros Hlow Hcap Hrep. exists (Datatypes.S (length ps)). intros s [Hr Hc].
  destruct (scan_pages_spec (λ buffer _ t, (buffer ++ [t], true))
    (GetTupleSize (schema_ (ti_heap_file ti))) ps s st pins (Datatypes.S (length ps)) [])
    as (s' & Hscan & Hr' & Hc'); [done|done|lia|apply Hrep|apply Hrep|lia|].
  rewrite scan_collect, (hr_first _ _ _ Hrep) in Hscan. cbn [fst app] in Hscan.
  exists (mkSeqScan ti (MakeOutputSchema (ti_schema ti) alias) (chain_entries ps).*2 0), s'.
  split; [|split; [by split; [|congruence]|split; [reflexivity|]]].
  - intros fuel Hf. cbn. unfold SeqScan_Init, on_op, on_store, zoomM, bindM, getM, putM. cbn.
    unfold Scan. rewrite (scan_pages_more _ _ _ _ _ _ _ _ _ Hscan Hf). reflexivity.
  - eapply yields_le; [apply (SeqScan_yields _ _ _ 0)|lia].
Qed.
End seq_scan.

(** ** Filter *)
Fixpoint filter_rows (p : Expr) (schema : Schema) (l : list Tuple) (fail : option fault) : stream :=
  match l with
  | [] => mkStream [] fail
  | t :: l =>
      match EvalPred p t schema with
      | Ok true => st_cons t (filter_rows p schema l fail)
      | Ok false => filter_rows p schema l fail
      | Fault f => mkStream [] (Some f)
      end
  end.

Section filter.
Context {S C : Type} `{Operator S C} `{!OperatorLaws S C}.

#[global] Instance Filter_laws : OperatorLaws S (Filter C).
Proof.
  intros [c p]. destruct (Close_ok c) as (c' & Hc & Hs). exists (mkFilter c' p).
  split; [|done]. cbn. unfold on_filter_child, zoomM. cbn. by rewrite Hc.
Qed.

(** What one [Next] of the filter does, from the stream of the child. *)
Inductive filter_next (N : nat) (p : Expr) (c : C) (l : list Tuple) (fail : option fault)
    : Filter C → outcome (option Tuple) → Prop :=
  | fn_row c' t l' : yields N c' (mkStream l' fail) → GetOutputSchema c' = GetOutputSchema c →
      (length l' < length l)%nat →
      filter_rows p (GetOutputSchema c) l fail =
        st_cons t (filter_rows p (GetOutputSchema c) l' fail) →
      filter_next N p c l fail (mkFilter c' p) (Ok (Some t))
  | fn_end c' : GetOutputSchema c' = GetOutputSchema c →
      filter_rows p (GetOutputSchema c) l fail = mkStream [] None →
      filter_next N p c l fail (mkFilter c' p) (Ok None)
  | fn_fault o' f :
      filter_rows p (GetOutputSchema c) l fail = mkStream [] (Some f) →
      filter_next N p c l fail o' (Fault f).

Lemma filter_loop_spec N p c l fail :
  yields N c (mkStream l fail) →
  ∃ o' r, filter_next N p c l fail o' r ∧
    ∀ fuel n, (N ≤ fuel)%nat → (length l < n)%nat → filter_loop fuel n (mkFilter c p) = (o', r).
Proof.
  intros Hy. remember (mkStream l fail) as st eqn:E. revert l E.
  induction Hy as [c c' Hn Hs|c c' f Hn|c c' t st Hn Hs Hy IH]; intros l [=]; subst.
  - exists (mkFilter c' p), (Ok None). split; [by constructor|]. intros fuel [|n] Hf Hl; [simpl in Hl; lia|].
    cbn [filter_loop]. unfold bindM, on_filter_child, zoomM. cbn. by rewrite (Hn fuel Hf).
  - exists (mkFilter c' p), (Fault f). split; [by constructor|]. intros fuel [|n] Hf Hl; [simpl in Hl; lia|].
    cbn [filter_loop]. unfold bindM, on_filter_child, zoomM. cbn. by rewrite (Hn fuel Hf).
  - destruct (EvalPred p t (GetOutputSchema c)) as [[]|f] eqn:Ep.
    + exists (mkFilter c' p), (Ok (Some t)). split.
      { apply (fn_row _ _ _ _ _ c' t (rows st)); [by destruct st|done|simpl; lia|cbn; by rewrite Ep]. }
      intros fuel [|n] Hf Hl; [simpl in Hl; lia|]. cbn [filter_loop].
      unfold bindM, on_filter_child, zoomM, getM, liftM. cbn. rewrite (Hn fuel Hf). cbn.
      by rewrite Hs, Ep.
    + destruct (IH (rows st)) as (o' & r & Hr & Hloop); [by destruct st|].
      exists o', r. split.
      { destruct Hr as [c2 t2 l2 Hy2 Hs2 Hl2 He2|c2 Hs2 He2|o2 f He2].
        - apply (fn_row _ _ _ _ _ c2 t2 l2); [done|congruence|simpl; lia|]. cbn. rewrite Ep, <- Hs. done.
        - constructor; [congruence|]. cbn. rewrite Ep, <- Hs. done.
        - constructor. cbn. rewrite Ep, <- Hs. done. }
      intros fuel [|n] Hf Hl; [simpl in Hl; lia|]. cbn [filter_loop].
      unfold bindM, on_filter_child, zoomM, getM, liftM. cbn. rewrite (Hn fuel Hf). cbn.
      rewrite Hs, Ep. apply Hloop; [done|simpl in Hl; lia].
    + exists (mkFilter c' p), (Fault f). split; [constructor; cbn; by rewrite Ep|].
      intros fuel [|n] Hf Hl; [simpl in Hl; lia|]. cbn [filter_loop].
      unfold bindM, on_filter_child, zoomM, getM, liftM. cbn. rewrite (Hn fuel Hf). cbn.
      by rewrite Hs, Ep.
Qed.

Lemma Filter_yields N p c l fail :
  yields N c (mkStream l fail) →
  yields (N + Datatypes.S (length l)) (mkFilter c p) (filter_rows p (GetOutputSchema c) l fail).
Proof.
  remember (length l) as k eqn:Hk. revert c l Hk. induction (lt_wf k) as [k _ IH]; intros c l -> Hy.
  destruct (filter_loop_spec N p c l fail Hy) as (o' & r & Hr & Hloop).
  assert (∀ fuel, (N + Datatypes.S (length l) ≤ fuel)%nat → Next fuel (mkFilter c p) = (o', r)) as Hn.
  { intros fuel Hf. apply Hloop; lia. }
  destruct Hr as [c2 t2 l2 Hy2 Hs2 Hl2 He2|c2 Hs2 He2|o2 f He2]; rewrite ?He2.
  - eapply yields_row; [exact Hn|done|]. rewrite <- Hs2.
    eapply yields_le; [by apply IH|lia].
  - by eapply yields_end.
  - by eapply yields_fault.
Qed.

Lemma Filter_runs (I : S → Prop) p c x :
  runs_as I c x → runs_as I (mkFilter c p) (on_stream (filter_rows p (GetOutputSchema c)) x).
Proof.
  destruct x as [st|f]; cbn.
  - intros [N Hp]. exists (N + Datatypes.S (length (rows st)))%nat. intros s Hs.
    destruct (Hp s Hs) as (c' & s' & Hi & Hs' & Hsch & Hy).
    exists (mkFilter c' p), s'. split_and!; [|done|done|].
    + intros fuel Hf. cbn. unfold Filter_Init, zoomM. cbn. by rewrite Hi by lia.
    + rewrite <- Hsch. apply Filter_yields. by destruct st.
  - intros [N Hp]. exists N. intros s Hs. destruct (Hp s Hs) as (c' & s' & Hi & Hs').
    exists (mkFilter c' p), s'. split; [|done]. intros fuel Hf. cbn. unfold Filter_Init, zoomM. cbn.
    by rewrite Hi.
Qed.
End filter.

(** ** Projection *)
Definition project_row (exprs : list Expr) (input output : Schema) (t : Tuple) : outcome Tuple :=
  vals <-! eval_exprs exprs t input ;; Tuple_ctor vals output.
Fixpoint project_rows (exprs : list Expr) (input output : Schema) (l : list Tuple)
    (fail : option fault) : stream :=
  match l with
  | [] => mkStream [] fail
  | t :: l =>
      match project_row exprs input output t with
      | Ok t' => st_cons t' (project_rows exprs input output l fail)
      | Fault f => mkStream [] (Some f)
      end
  end.

Section projection.
Context {S C : Type} `{Operator S C} `{!OperatorLaws S C}.

#[global] Instance Projection_laws : OperatorLaws S (Projection C).
Proof.
  intros [c e n sch]. destruct (Close_ok c) as (c' & Hc & Hs). exists (mkProjection c' e n sch).
  split; [|done]. cbn. unfold on_projection_child, zoomM. cbn. by rewrite Hc.
Qed.

Lemma Projection_yields N c exprs names sch st :
  yields N c st →
  yields N (mkProjection c exprs names sch)
    (project_rows exprs (GetOutputSchema c) sch (rows st) (failure st)).
Proof.
  induction 1 as [c c' Hn Hs|c c' f Hn|c c' t st Hn Hs Hy IH]; cbn [rows failure project_rows st_cons].
  - eapply (yields_end _ _ (mkProjection c' exprs names sch)); [|done]. intros fuel Hf. cbn.
    unfold Projection_Next, bindM, on_projection_child, zoomM. cbn. by rewrite (Hn fuel Hf).
  - eapply (yields_fault _ _ (mkProjection c' exprs names sch)). intros fuel Hf. cbn.
    unfold Projection_Next, bindM, on_projection_child, zoomM. cbn. by rewrite (Hn fuel Hf).
  - rewrite Hs in IH.
    assert (∀ fuel, (N ≤ fuel)%nat → Next fuel (mkProjection c exprs names sch) =
      (mkProjection c' exprs names sch,
       t' <-! project_row exprs (GetOutputSchema c) sch t ;; Ok (Some t'))) as HN.
    { intros fuel Hf. cbn. unfold Projection_Next, bindM, on_projection_child, zoomM. cbn.
      rewrite (Hn fuel Hf). cbn. rewrite Hs. unfold project_row, getM, liftM.
      destruct (eval_exprs _ _ _) as [vals|]; [|done]. cbn. by destruct (Tuple_ctor _ _). }
    destruct (project_row _ _ _ t) as [t'|f]; [by eapply yields_row|by eapply yields_fault].
Qed.

Lemma Projection_runs (I : S → Prop) c exprs names sch x :
  runs_as I c x →
  runs_as I (mkProjection c exprs names sch)
    (on_stream (project_rows exprs (GetOutputSchema c) sch) x).
Proof.
  destruct x as [st|f]; cbn.
  - intros [N Hp]. exists N. intros s Hs.
    destruct (Hp s Hs) as (c' & s' & Hi & Hs' & Hsch & Hy).
    exists (mkProjection c' exprs names sch), s'. split_and!; [|done|done|].
    + intros fuel Hf. cbn. unfold Projection_Init, zoomM. cbn. by rewrite Hi.
    + rewrite <- Hsch. by apply Projection_yields.
  - intros [N Hp]. exists N. intros s Hs. destruct (Hp s Hs) as (c' & s' & Hi & Hs').
    exists (mkProjection c' exprs names sch), s'. split; [|done]. intros fuel Hf. cbn.
    unfold Projection_Init, zoomM. cbn. by rewrite Hi.
Qed.
End projection.

(** ** Sort *)

(** [std::sort]'s contract: with a comparator that is a strict weak order on the
    elements it permutes them into an order the comparator allows; an exception
    comes from a comparison, and two or more elements are not sorted without
    one. *)
Record strict_weak {A} (l : list A) (lt : A → A → bool) : Prop := {
  sw_irrefl a : a ∈ l → lt a a = false;
  sw_trans a b c : a ∈ l → b ∈ l → c ∈ l → lt a b = true → lt b c = true → lt a c = true;
  sw_incomp a b c : a ∈ l → b ∈ l → c ∈ l → lt a b = false → lt b c = false → lt a c = false
}.
Class StdSortSpec `{StdSort} := {
  std_sort_sorts less l lt :
    (∀ a b, a ∈ l → b ∈ l → less a b = Ok (lt a b)) → strict_weak l lt →
    ∃ l', std_sort less l = Ok l' ∧ l ≡ₚ l' ∧ StronglySorted (λ a b, lt b a = false) l';
  std_sort_fault less l f :
    std_sort less l = Fault f → ∃ a b, a ∈ l ∧ b ∈ l ∧ less a b = Fault f;
  std_sort_compares less l f :
    (2 ≤ length l)%nat → (∀ a b, a ∈ l → b ∈ l → less a b = Fault f) → std_sort less l = Fault f
}.

Section sort.
Context {S C : Type} `{Operator S C} `{!OperatorLaws S C} `{StdSort}.

#[global] Instance Sort_laws : OperatorLaws S (Sort C).
Proof. intros o. by eexists. Qed.

Lemma Sort_yields c items buf cur :
  yields 0 (mkSort c items buf cur) (mkStream (drop cur buf) None).
Proof.
  remember (length buf - cur)%nat as k eqn:Hk. revert cur Hk. induction k as [|k IH]; intros cur Hk.
  - rewrite drop_ge by lia. eapply yields_end; [|reflexivity]. intros fuel _.
    cbn. unfold Sort_Next, bindM, getM. cbn. by rewrite lookup_ge_None_2 by lia.
  - destruct (lookup_lt_is_Some_2 buf cur) as [t Ht]; [lia|].
    rewrite (drop_S _ _ _ Ht). apply (yields_row 0 _ (mkSort c items buf (Datatypes.S cur)) t
      (mkStream _ None)); [|done|apply IH; lia].
    intros fuel _. cbn. unfold Sort_Next, bindM, getM. cbn. by rewrite Ht.
Qed.

(** The run of [Sort]: it reads its child to the end and sorts. *)
Definition sort_run (items : list OrderByItem) (sch : Schema) (x : outcome stream) : outcome stream :=
  st <-! x ;; l <-! ended st ;; l' <-! std_sort (sort_less items sch) l ;; Ok (mkStream l' None).

Lemma Sort_produces (I : S → Prop) c items l l' :
  produces I c (mkStream l None) →
  std_sort (sort_less items (GetOutputSchema c)) l = Ok l' →
  produces I (Sort_ctor c items) (mkStream l' None).
Proof.
  intros [N Hp] Hsort. exists (N + Datatypes.S (length l))%nat. intros s Hs.
  destruct (Hp s Hs) as (c' & s' & Hi & Hs' & Hsch & Hy).
  destruct (drain_yields N c' l Hy) as (c2 & Hs2 & Hd).
  destruct (Close_ok c2) as (c3 & Hc3 & Hs3).
  exists (mkSort c3 items l' 0), s'. split_and!; [|done|by cbn; congruence|].
  - intros fuel Hf. cbn. unfold Sort_Init, on_op, on_sort_child, zoomM, bindM, getM, putM, liftM. cbn.
    rewrite Hi by lia. cbn. rewrite Hd by lia. cbn. rewrite Hc3. cbn.
    rewrite Hs3, Hs2, Hsch, Hsort. done.
  - eapply yields_le; [apply (Sort_yields c3 items l' 0)|lia].
Qed.
Lemma Sort_refuses (I : S → Prop) c items x f :
  runs_as I c x → sort_run items (GetOutputSchema c) x = Fault f → refuses I (Sort_ctor c items) f.
Proof.
  destruct x as [st|f0]; cbn [sort_run obind].
  2: { intros [N Hp] [= ->]. exists N. intros s Hs. destruct (Hp s Hs) as (c' & s' & Hi & Hs').
    exists (mkSort c' items [] 0), s'. split; [|done]. intros fuel Hf. cbn.
    unfold Sort_Init, on_op, zoomM, bindM, getM, putM. cbn. by rewrite Hi. }
  intros [N Hp] Hsort. exists (N + Datatypes.S (length (rows st)))%nat. intros s Hs.
  destruct (Hp s Hs) as (c' & s' & Hi & Hs' & Hsch & Hy).
  destruct (drain_ended N c' st Hy) as (c2 & Hs2 & Hd).
  destruct (Close_ok c2) as (c3 & Hc3 & Hs3). unfold ended in Hd, Hsort.
  exists (mkSort (match failure st with Some _ => c2 | None => c3 end) items [] 0), s'. split; [|done].
  intros fuel Hf. cbn. unfold Sort_Init, on_op, on_sort_child, zoomM, bindM, getM, putM, liftM. cbn.
  rewrite Hi by lia. cbn. rewrite Hd by lia.
  destruct (failure st) as [f0|]; cbn in *; [by simplify_eq|].
  rewrite Hc3. cbn. rewrite Hs3, Hs2, Hsch by done. by destruct (std_sort _ _); simplify_eq/=.
Qed.

Lemma Sort_runs (I : S → Prop) c items x :
  runs_as I c x → runs_as I (Sort_ctor c items) (sort_run items (GetOutputSchema c) x).
Proof.
  intros Hx. destruct (sort_run _ _ x) as [st|f] eqn:E; [|by eapply Sort_refuses].
  destruct x as [[l fl]|]; [|done]. cbn in E. apply obind_Ok_inv in E as (l0 & Hl & E).
  destruct fl; [done|]. injection Hl as <-. apply obind_Ok_inv in E as (l' & Hsort & [= <-]).
  by eapply Sort_produces.
Qed.
End sort.
