(* ===== verification/ExecutorSort.v ===== *)
(** * The order of ORDER BY

    The comparator [sort_less] decides the lexicographic order of the evaluated
    sort keys, ascending or descending per item, which is a strict weak order;
    so [std::sort] may be used with it and its result is sorted. *)
From stdpp Require Import base gmap list strings sorting.
From Stdlib Require Import ZArith Lia Ascii.
From S2P Require Import Prelude Types PageCache HeapFile Catalog Ast Executor ExecutorSpec.

(** ** Comparison functions *)
Record good_cmp {A} (P : A → Prop) (f : A → A → comparison) : Prop := {
  gc_antisym a b : P a → P b → f b a = CompOpp (f a b);
  gc_trans a b c : P a → P b → P c → f a b ≠ Gt → f b c ≠ Gt → f a c ≠ Gt
}.
Definition cmp_then (x y : comparison) : comparison := match x with Eq => y | _ => x end.

Section good_cmp.
Context {A : Type} (P : A → Prop).
Implicit Types f g : A → A → comparison.

Lemma gc_eq_le f a b c :
  good_cmp P f → P a → P b → P c →
  (f a b = Lt → f b c ≠ Gt → f a c = Lt) ∧ (f a b ≠ Gt → f b c = Lt → f a c = Lt).
Proof.
  intros [Ha Ht] Pa Pb Pc.
  assert (f a b ≠ Gt → f b c ≠ Gt → f a c = Eq → f a b = Eq ∧ f b c = Eq) as Heq.
  { intros H1 H2 H3. assert (f c a = Eq) as H4 by by rewrite (Ha a c), H3.
    pose proof (Ht c a b Pc Pa Pb ltac:(congruence) H1) as H5.
    pose proof (Ht b c a Pb Pc Pa H2 ltac:(congruence)) as H6.
    rewrite (Ha b c) in H5 by done. rewrite (Ha a b) in H6 by done.
    destruct (f a b), (f b c); done. }
  split; intros H1 H2; pose proof (Ht a b c Pa Pb Pc ltac:(congruence) ltac:(congruence)) as H3;
    destruct (f a c) eqn:E; try done; destruct Heq; congruence.
Qed.

Lemma good_cmp_then f g :
  good_cmp P f → good_cmp P g → good_cmp P (λ a b, cmp_then (f a b) (g a b)).
Proof.
  intros Hf Hg. split.
  - intros a b Pa Pb. rewrite (gc_antisym P f Hf a b Pa Pb), (gc_antisym P g Hg a b Pa Pb).
    by destruct (f a b).
  - intros a b c Pa Pb Pc. destruct (gc_eq_le f a b c Hf Pa Pb Pc) as [H1 H2].
    pose proof (gc_trans P f Hf a b c Pa Pb Pc) as H3.
    pose proof (gc_trans P g Hg a b c Pa Pb Pc) as H4.
    unfold cmp_then. destruct (f a b) eqn:E1, (f b c) eqn:E2; intros; try done.
    all: try (rewrite H1 by done; done). all: try (rewrite H2 by done; done).
    destruct (f a c) eqn:E3; [by apply H4|done|]. by destruct H3.
Qed.
Lemma good_cmp_flip f : good_cmp P f → good_cmp P (λ a b, f b a).
Proof.
  intros Hf. split.
  - intros a b Pa Pb. by apply (gc_antisym P f Hf).
  - intros a b c Pa Pb Pc H1 H2. by apply (gc_trans P f Hf c b a).
Qed.
Lemma good_cmp_ext f g :
  good_cmp P f → (∀ a b, P a → P b → f a b = g a b) → good_cmp P g.
Proof.
  intros Hf E. split.
  - intros a b Pa Pb. rewrite <- !E by done. by apply (gc_antisym P f Hf).
  - intros a b c Pa Pb Pc. rewrite <- !E by done. by apply (gc_trans P f Hf).
Qed.
Lemma good_cmp_pull {B} (Q : B → Prop) (h : A → B) (f : B → B → comparison) :
  good_cmp Q f → (∀ a, P a → Q (h a)) → good_cmp P (λ a b, f (h a) (h b)).
Proof.
  intros Hf Hh. split.
  - intros a b Pa Pb. apply (gc_antisym Q f Hf); auto.
  - intros a b c Pa Pb Pc. apply (gc_trans Q f Hf); auto.
Qed.
Lemma good_cmp_eq : good_cmp P (λ _ _, Eq).
Proof. by split. Qed.
End good_cmp.

Lemma good_cmp_Z : good_cmp (λ _, True) Z.compare.
Proof.
  split.
  - intros a b _ _. apply Z.compare_antisym.
  - intros a b c _ _ _. rewrite !Z.compare_le_iff. lia.
Qed.

(** ** Strings *)
Fixpoint chars_cmp (a b : list ascii) : comparison :=
  match a, b with
  | [], [] => Eq
  | [], _ :: _ => Lt
  | _ :: _, [] => Gt
  | x :: a, y :: b => cmp_then (Z_of_char x ?= Z_of_char y) (chars_cmp a b)
  end.
Definition str_cmp (a b : string) : comparison := chars_cmp (to_chars a) (to_chars b).

Lemma good_cmp_chars : good_cmp (λ _, True) chars_cmp.
Proof.
  split.
  - intros a b _ _. revert b. induction a as [|x a IH]; intros [|y b]; try done. cbn.
    rewrite (Z.compare_antisym (Z_of_char x)), IH. by destruct (_ ?= _).
  - intros a b c _ _ _. revert b c. induction a as [|x a IH]; intros [|y b] [|z c]; try done. cbn.
    unfold cmp_then. specialize (IH b c).
    destruct (Z.compare_spec (Z_of_char x) (Z_of_char y)) as [E1|E1|E1],
      (Z.compare_spec (Z_of_char y) (Z_of_char z)) as [E2|E2|E2],
      (Z.compare_spec (Z_of_char x) (Z_of_char z)) as [E3|E3|E3]; auto; lia.
Qed.

Lemma chars_cmp_eq a b : chars_cmp a b = Eq ↔ a = b.
Proof.
  revert b. induction a as [|x a IH]; intros [|y b]; cbn; try done.
  unfold cmp_then. destruct (Z.compare_spec (Z_of_char x) (Z_of_char y)) as [E|E|E].
  - rewrite IH. assert (x = y) as -> by (by rewrite <- (char_of_Z_of_char x), E, char_of_Z_of_char).
    split; congruence.
  - split; [done|]. intros [= -> ->]. lia.
  - split; [done|]. intros [= -> ->]. lia.
Qed.
Lemma chars_ltb_cmp a b : chars_ltb a b = true ↔ chars_cmp a b = Lt.
Proof.
  revert b. induction a as [|x a IH]; intros [|y b]; cbn; try done.
  unfold cmp_then. destruct (Z.compare_spec (Z_of_char x) (Z_of_char y)) as [E|E|E].
  - rewrite (proj2 (Z.ltb_ge _ _)), (proj2 (Z.eqb_eq _ _)) by lia. cbn. apply IH.
  - by rewrite (proj2 (Z.ltb_lt _ _)) by lia.
  - rewrite (proj2 (Z.ltb_ge _ _)), (proj2 (Z.eqb_neq _ _)) by lia. done.
Qed.
Lemma str_eqb_cmp a b : str_eqb a b = true ↔ str_cmp a b = Eq.
Proof.
  unfold str_eqb, str_cmp. rewrite bool_decide_eq_true, chars_cmp_eq. split; [by intros ->|].
  intros E. by rewrite <- (String.string_of_list_ascii_of_string a), E,
    String.string_of_list_ascii_of_string.
Qed.
Lemma str_ltb_cmp a b : str_ltb a b = match str_cmp a b with Lt => true | _ => false end.
Proof.
  unfold str_ltb, str_cmp. destruct (chars_ltb _ _) eqn:E.
  - by rewrite (proj1 (chars_ltb_cmp _ _) E).
  - destruct (chars_cmp _ _) eqn:E'; try done. apply chars_ltb_cmp in E'. congruence.
Qed.

(** ** Sort keys *)

(** Values of one type, compared as integers or as strings. *)
Definition value_cmp (ty : TypeId) (a b : Value) : comparison :=
  match ty with
  | INT => int_val_ a ?= int_val_ b
  | VARCHAR => str_cmp (str_val_ a) (str_val_ b)
  end.
(** The value of a sort expression on a row. *)
Definition sort_key (item : OrderByItem) (schema : Schema) (t : Tuple) : Value :=
  match EvalExpr (ob_expr item) t schema with Ok v => v | Fault _ => Value_default end.
Definition item_cmp (item : OrderByItem) (schema : Schema) (a b : Tuple) : comparison :=
  let c := value_cmp (GetType (sort_key item schema a)) (sort_key item schema a)
             (sort_key item schema b) in
  if ob_ascending item then c else CompOpp c.
Fixpoint rows_cmp (items : list OrderByItem) (schema : Schema) (a b : Tuple) : comparison :=
  match items with
  | [] => Eq
  | item :: items => cmp_then (item_cmp item schema a b) (rows_cmp items schema a b)
  end.

(** Every sort expression has a value on every row, of one type per item. *)
Definition sortable (items : list OrderByItem) (schema : Schema) (l : list Tuple) : Prop :=
  Forall (λ item, ∃ ty, ∀ t, t ∈ l → ∃ v, EvalExpr (ob_expr item) t schema = Ok v ∧ GetType v = ty)
    items.

Lemma good_cmp_value ty : good_cmp (λ _, True) (value_cmp ty).
Proof.
  destruct ty; unfold value_cmp.
  - by apply (good_cmp_pull _ (λ _, True) int_val_ Z.compare good_cmp_Z).
  - by apply (good_cmp_pull _ (λ _, True) (λ v, to_chars (str_val_ v)) chars_cmp good_cmp_chars).
Qed.

Lemma good_cmp_item item schema (l : list Tuple) ty :
  (∀ t, t ∈ l → ∃ v, EvalExpr (ob_expr item) t schema = Ok v ∧ GetType v = ty) →
  good_cmp (λ t, t ∈ l) (item_cmp item schema).
Proof.
  intros Hty. pose proof (good_cmp_pull (λ t, t ∈ l) (λ _, True) (sort_key item schema)
    (value_cmp ty) (good_cmp_value ty) (λ _ _, I)) as Hg.
  assert (∀ t, t ∈ l → GetType (sort_key item schema t) = ty) as Ht.
  { intros t Hin. unfold sort_key. by destruct (Hty t Hin) as (v & -> & ?). }
  unfold item_cmp. destruct (ob_ascending item).
  - eapply good_cmp_ext; [exact Hg|]. intros a b Pa Pb. by rewrite (Ht a Pa).
  - eapply good_cmp_ext; [apply good_cmp_flip, Hg|]. intros a b Pa Pb. cbn.
    rewrite (Ht a Pa). symmetry. rewrite (gc_antisym _ _ Hg b a Pb Pa). by destruct (value_cmp _ _ _).
Qed.

Lemma good_cmp_rows items schema l :
  sortable items schema l → good_cmp (λ t, t ∈ l) (rows_cmp items schema).
Proof.
  induction 1 as [|item items [ty Hty] _ IH]; [apply good_cmp_eq|]. cbn [rows_cmp].
  apply good_cmp_then; [|done]. by eapply good_cmp_item.
Qed.

(** The comparator decides the order of the keys. *)
Lemma sort_less_cmp items schema l a b :
  sortable items schema l → a ∈ l → b ∈ l →
  sort_less items schema a b = Ok (match rows_cmp items schema a b with Lt => true | _ => false end).
Proof.
  intros Hs Ha Hb. induction Hs as [|item items [ty Hty] _ IH]; [done|]. cbn [sort_less rows_cmp].
  unfold item_cmp, sort_key. destruct (Hty a Ha) as (va & -> & Hva), (Hty b Hb) as (vb & -> & _).
  cbn [obind]. unfold value_cmp, GetType, AsInt, AsVarchar in *. rewrite Hva. destruct ty.
  - rewrite IH. destruct (Z.compare_spec (int_val_ va) (int_val_ vb)) as [E|E|E].
    + rewrite (proj2 (Z.eqb_eq _ _)) by done. by destruct (ob_ascending item).
    + rewrite (proj2 (Z.eqb_neq _ _)) by lia. cbn [negb].
      destruct (ob_ascending item); cbn; f_equal; [apply Z.ltb_lt|apply Z.ltb_ge]; lia.
    + rewrite (proj2 (Z.eqb_neq _ _)) by lia. cbn [negb].
      destruct (ob_ascending item); cbn; f_equal; [apply Z.ltb_ge|apply Z.ltb_lt]; lia.
  - rewrite IH, !str_ltb_cmp. pose proof (str_eqb_cmp (str_val_ va) (str_val_ vb)) as He.
    assert (str_cmp (str_val_ vb) (str_val_ va) = CompOpp (str_cmp (str_val_ va) (str_val_ vb))) as Ho
      by by apply (gc_antisym _ _ good_cmp_chars).
    rewrite Ho. destruct (str_eqb _ _) eqn:E.
    + rewrite (proj1 He eq_refl). by destruct (ob_ascending item).
    + destruct (str_cmp _ _) eqn:E'; [by pose proof (proj2 He eq_refl)|..]; by destruct (ob_ascending item).
Qed.

Lemma rows_cmp_strict_weak items schema l :
  sortable items schema l →
  strict_weak l (λ a b, match rows_cmp items schema a b with Lt => true | _ => false end).
Proof.
  intros Hs. pose proof (good_cmp_rows _ _ _ Hs) as Hg.
  assert (∀ a b, a ∈ l → b ∈ l →
    rows_cmp items schema b a = CompOpp (rows_cmp items schema a b)) as Ho by apply Hg.
  split.
  - intros a Ha. pose proof (Ho a a Ha Ha). by destruct (rows_cmp _ _ a a).
  - intros a b c Ha Hb Hc H1 H2. destruct (gc_eq_le _ _ a b c Hg Ha Hb Hc) as [H3 _].
    rewrite H3; [done|by destruct (rows_cmp _ _ a b)|by destruct (rows_cmp _ _ b c)].
  - intros a b c Ha Hb Hc H1 H2. pose proof (gc_trans _ _ Hg c b a Hc Hb Ha) as H3.
    rewrite (Ho b c), (Ho a b), (Ho a c) in H3 by done.
    destruct (rows_cmp _ _ a b), (rows_cmp _ _ b c), (rows_cmp _ _ a c); try done;
      exfalso; by apply H3.
Qed.

(** [std::sort] with the comparator of ORDER BY. *)
Lemma std_sort_with `{StdSortSpec} less items sch l :
  (∀ a b, less a b = sort_less items sch a b) → sortable items sch l →
  ∃ l', std_sort less l = Ok l' ∧ l ≡ₚ l' ∧ StronglySorted (λ a b, rows_cmp items sch a b ≠ Gt) l'.
Proof.
  intros Hless Hs. destruct (std_sort_sorts less l _
    (λ a b Ha Hb, eq_trans (Hless a b) (sort_less_cmp items sch l a b Hs Ha Hb))
    (rows_cmp_strict_weak items sch l Hs))
    as (l' & Hl & Hp & Hss). exists l'. split_and!; [done|done|].
  pose proof (good_cmp_rows _ _ _ Hs) as Hg.
  assert (∀ x, x ∈ l' → x ∈ l) as Hin by (intros x; by rewrite Hp). clear Hl Hp.
  induction Hss as [|a l' Hss IH Ha]; constructor; [apply IH; set_solver|].
  rewrite Forall_forall in Ha |- *. intros b Hb E. specialize (Ha b Hb).
  rewrite (gc_antisym _ _ Hg a b) in Ha by set_solver. by rewrite E in Ha.
Qed.
Lemma std_sort_rows `{StdSortSpec} items sch l :
  sortable items sch l →
  ∃ l', std_sort (sort_less items sch) l = Ok l' ∧ l ≡ₚ l' ∧
    StronglySorted (λ a b, rows_cmp items sch a b ≠ Gt) l'.
Proof. by apply std_sort_with. Qed.
Lemma sortable_subset items sch l l' : l' ⊆ l → sortable items sch l → sortable items sch l'.
Proof.
  intros Hsub Hs. eapply Forall_impl; [exact Hs|]. intros item [ty Hty]. exists ty. intros t Ht.
  apply Hty. by apply Hsub.
Qed.

(** ** A sorting function that meets the contract of [std::sort] *)
Fixpoint insert_sorted {A} (less : A → A → outcome bool) (t : A) (l : list A)
    : outcome (list A) :=
  match l with
  | [] => Ok [t]
  | u :: l' =>
      b <-! less u t ;;
      if b : bool then r <-! insert_sorted less t l' ;; Ok (u :: r) else Ok (t :: l)
  end.
Fixpoint insertion_sort {A} (less : A → A → outcome bool) (l : list A) : outcome (list A) :=
  match l with
  | [] => Ok []
  | t :: l => r <-! insertion_sort less l ;; insert_sorted less t r
  end.
#[local] Instance InsertionSort : StdSort := insertion_sort.

Section insertion.
Context {A : Type} (less : A → A → outcome bool) (lt : A → A → bool) (l : list A).
Hypotheses (Hless : ∀ a b, a ∈ l → b ∈ l → less a b = Ok (lt a b)) (Hsw : strict_weak l lt).
Local Abbreviation le := (λ a b, lt b a = false).

Lemma insert_sorted_spec t k :
  t ∈ l → k ⊆ l → StronglySorted le k →
  ∃ k', insert_sorted less t k = Ok k' ∧ t :: k ≡ₚ k' ∧ StronglySorted le k'.
Proof.
  intros Ht Hk Hs. induction Hs as [|u k Hs IH Hu]; cbn.
  { exists [t]. split_and!; [done..|]. repeat constructor. }
  assert (u ∈ l) as Hul by set_solver. assert (k ⊆ l) as Hkl by set_solver.
  rewrite Hless by done. cbn. destruct (lt u t) eqn:E.
  - destruct (IH Hkl) as (k' & -> & Hp & Hs'). exists (u :: k'). split_and!; [done|..].
    + rewrite <- Hp. apply Permutation_swap.
    + constructor; [done|]. rewrite <- Hp. constructor; [|done].
      destruct (lt t u) eqn:E'; [|done].
      pose proof (sw_trans l lt Hsw t u t Ht Hul Ht E' E) as H1.
      by rewrite (sw_irrefl l lt Hsw t Ht) in H1.
  - exists (t :: u :: k). split_and!; [done..|]. constructor; [by constructor|].
    constructor; [done|]. rewrite Forall_forall in Hu |- *. intros x Hx.
    apply (sw_incomp l lt Hsw x u t); [set_solver|done|done|by apply Hu|done].
Qed.
Lemma insertion_sort_spec k :
  k ⊆ l → ∃ k', insertion_sort less k = Ok k' ∧ k ≡ₚ k' ∧ StronglySorted le k'.
Proof.
  induction k as [|t k IH]; intros Hk; cbn.
  { exists []. split_and!; [done..|constructor]. }
  destruct IH as (r & -> & Hp & Hs); [set_solver|]. cbn.
  destruct (insert_sorted_spec t r) as (k' & -> & Hp' & Hs'); [set_solver| |done|].
  { intros x Hx. apply Hk. rewrite Hp. set_solver. }
  exists k'. split_and!; [done| |done]. by rewrite Hp, Hp'.
Qed.
End insertion.

Lemma insert_sorted_fault {A} less (t : A) k f :
  insert_sorted less t k = Fault f → ∃ u, u ∈ k ∧ less u t = Fault f.
Proof.
  induction k as [|u k IH]; cbn; [done|]. destruct (less u t) as [[]|f'] eqn:E; cbn.
  - destruct (insert_sorted less t k); [done|]. intros [= ->]. destruct IH as (x & ? & ?); [done|].
    exists x. set_solver.
  - done.
  - intros [= ->]. exists u. set_solver.
Qed.
Lemma insert_sorted_perm {A} less (t : A) k k' : insert_sorted less t k = Ok k' → t :: k ≡ₚ k'.
Proof.
  revert k'. induction k as [|u k IH]; cbn; intros k'; [by intros [= <-]|].
  destruct (less u t) as [[]|]; cbn; [|by intros [= <-]|done].
  destruct (insert_sorted less t k) as [r|]; [|done]. intros [= <-].
  rewrite <- (IH r eq_refl). apply Permutation_swap.
Qed.
Lemma insertion_sort_perm {A} less (l : list A) l' : insertion_sort less l = Ok l' → l ≡ₚ l'.
Proof.
  revert l'. induction l as [|t l IH]; cbn; intros l'; [by intros [= <-]|].
  destruct (insertion_sort less l) as [r|]; [|done]. cbn. intros H%insert_sorted_perm.
  by rewrite <- H, (IH r eq_refl).
Qed.

#[local] Instance InsertionSort_spec : StdSortSpec.
Proof.
  split.
  - intros less l lt Hl Hsw. by apply (insertion_sort_spec less lt l Hl Hsw l).
  - intros less l f. change (insertion_sort less l = Fault f → ∃ a b, a ∈ l ∧ b ∈ l ∧ less a b = Fault f).
    induction l as [|t l IH]; cbn; [done|].
    destruct (insertion_sort less l) as [r|f'] eqn:E; cbn.
    + intros (u & Hu & Hf)%insert_sorted_fault. exists u, t.
      rewrite <- (insertion_sort_perm _ _ _ E) in Hu. set_solver.
    + intros [= ->]. destruct IH as (a & b & ? & ? & ?); [done|]. exists a, b. set_solver.
  - intros less l f. change (2 ≤ length l → (∀ a b, a ∈ l → b ∈ l → less a b = Fault f) →
      insertion_sort less l = Fault f)%nat.
    induction l as [|t k IH]; cbn [length insertion_sort]; [lia|]. intros Hlen Hf.
    destruct k as [|u [|v l]]; cbn [length] in Hlen; [lia| |].
    + cbn. rewrite Hf; [done|set_solver..].
    + rewrite IH; [done|cbn; lia|]. intros a b Ha Hb. apply Hf; set_solver.
Qed.
