(* ===== verification/ExecutorJoin.v ===== *)
(** * Hash join

    The stream of a [HashJoin] from the streams of its children: for every right
    row in order, the left rows of its key in order.  A right row whose key is
    the empty string has no matches, because the empty string is also the mark
    "no current key". *)
From stdpp Require Import base gmap list strings.
From Stdlib Require Import ZArith Lia Ascii.
From S2P Require Import Prelude Types PageCache HeapFile Catalog Ast Executor ExecutorSpec.

(** ** The hash table *)
Fixpoint build_table (key : Expr) (schema : Schema) (l : list Tuple)
    (ht : gmap string (list Tuple)) : outcome (gmap string (list Tuple)) :=
  match l with
  | [] => Ok ht
  | t :: l => k <-! key_string key t schema ;; build_table key schema l (ht_push k t ht)
  end.

(** The rows of [l] with key [k]. *)
Definition rows_with_key (key : Expr) (schema : Schema) (k : string) (l : list Tuple) : list Tuple :=
  List.filter (λ t, match key_string key t schema with Ok k' => str_eqb k' k | Fault _ => false end) l.

Lemma build_table_lookup key schema l ht ht' k :
  build_table key schema l ht = Ok ht' →
  default [] (ht' !! k) = default [] (ht !! k) ++ rows_with_key key schema k l.
Proof.
  revert ht. induction l as [|t l IH]; intros ht; cbn.
  { intros [= ->]. by rewrite app_nil_r. }
  destruct (key_string key t schema) as [k'|]; cbn; [|done]. intros H%IH. rewrite H.
  unfold ht_push, str_eqb. case_bool_decide as E.
  - subst k'. rewrite lookup_insert_eq. cbn. by rewrite <- app_assoc.
  - by rewrite lookup_insert_ne.
Qed.

(** The rows of a stream, and the fault that ends it. *)
Definition build_stream (key : Expr) (schema : Schema) (st : stream)
    (ht : gmap string (list Tuple)) : outcome (gmap string (list Tuple)) :=
  ht <-! build_table key schema (rows st) ht ;;
  match failure st with None => Ok ht | Some f => Fault f end.

(** ** The joined stream *)
Fixpoint join_bucket (bucket : list Tuple) (r : Tuple) (ls rs : Schema) (rest : stream) : stream :=
  match bucket with
  | [] => rest
  | l :: bucket =>
      match Concat l r ls rs with
      | Ok t => st_cons t (join_bucket bucket r ls rs rest)
      | Fault f => mkStream [] (Some f)
      end
  end.
Definition matches (left_key : Expr) (ls : Schema) (lrows : list Tuple) (k : string) : list Tuple :=
  if str_eqb k "" then [] else rows_with_key left_key ls k lrows.
Fixpoint join_rows (left_key right_key : Expr) (ls rs : Schema) (lrows rrows : list Tuple) : stream :=
  match rrows with
  | [] => mkStream [] None
  | r :: rrows =>
      match key_string right_key r rs with
      | Ok k => join_bucket (matches left_key ls lrows k) r ls rs
                  (join_rows left_key right_key ls rs lrows rrows)
      | Fault f => mkStream [] (Some f)
      end
  end.

(** The run of a join from the runs of its children: the left side is read and
    hashed, then the right side is read, both to the end. *)
Definition join_run (left_key right_key : Expr) (ls rs : Schema) (xl xr : outcome stream)
    : outcome stream :=
  lst <-! xl ;;
  _ <-! build_stream left_key ls lst ∅ ;;
  rst <-! xr ;;
  rrows <-! ended rst ;;
  Ok (join_rows left_key right_key ls rs (rows lst) rrows).

Section join.
Context {S L R : Type} `{!Operator S L} `{!Operator S R}.
Context `{!OperatorLaws S L} `{!OperatorLaws S R}.

#[global] Instance HashJoin_laws : OperatorLaws S (HashJoin L R).
Proof. intros o. by eexists. Qed.

Section probe.
Context (l : L) (r : R) (lk rk : Expr) (out : Schema) (lrows buf : list Tuple)
  (ht : gmap string (list Tuple)).
Hypothesis Hht : build_table lk (GetOutputSchema l) lrows ∅ = Ok ht.
Let J (rc mc : nat) (key : string) : HashJoin L R := mkHashJoin l r lk rk out ht buf rc mc key.

Lemma yields_bucket N c t mc k rest :
  k ≠ ""%string → buf !! c = Some t → (1 ≤ N)%nat →
  yields (S := S) N (J (Datatypes.S c) 0 "") rest →
  yields (S := S) N (J (Datatypes.S c) mc k)
    (join_bucket (drop mc (default [] (ht !! k))) t (GetOutputSchema l) (GetOutputSchema r) rest).
Proof.
  intros Hk Ht HN Hrest. remember (drop mc (default [] (ht !! k))) as b eqn:Hb.
  revert mc Hb. induction b as [|x b IH]; intros mc Hb; cbn [join_bucket].
  - assert (ht !! k ≫= (λ bucket, bucket !! mc) = None) as Hnone.
    { destruct (ht !! k) as [bucket|]; [|done]. cbn in *. apply lookup_ge_None_2.
      apply (f_equal length) in Hb. rewrite length_drop in Hb. simpl in Hb. lia. }
    apply (yields_step N N _ (J (Datatypes.S c) 0 "")); [|done|done|done].
    intros fuel Hf. exists fuel. split; [done|]. destruct fuel as [|fuel]; [lia|].
    cbn. unfold HashJoin_Next. cbn. unfold bindM, getM, str_eqb. cbn.
    rewrite bool_decide_false by done. by rewrite Hnone.
  - assert (drop mc (default [] (ht !! k)) !! 0%nat = Some x) as Hx by by rewrite <- Hb.
    rewrite lookup_drop, Nat.add_0_r in Hx.
    assert (ht !! k ≫= (λ bucket, bucket !! mc) = Some x) as Hsome
      by by destruct (ht !! k).
    assert (b = drop (Datatypes.S mc) (default [] (ht !! k))) as Hb'.
    { rewrite (drop_S _ _ _ Hx) in Hb. by injection Hb. }
    assert (∀ fuel, (N ≤ fuel)%nat → Next (S := S) fuel (J (Datatypes.S c) mc k) =
      (J (Datatypes.S c) (Datatypes.S mc) k,
       out <-! Concat x t (GetOutputSchema l) (GetOutputSchema r) ;; Ok (Some out))) as Hn.
    { intros [|fuel] Hf; [lia|]. cbn. unfold HashJoin_Next. cbn.
      unfold bindM, getM, str_eqb, defM, liftM, modifyM, putM. cbn.
      rewrite bool_decide_false by done. rewrite Hsome. cbn.
      unfold bindM, getM. cbn. rewrite Ht. cbn. by destruct (Concat _ _ _ _). }
    destruct (Concat x t _ _) as [u|f]; [|by eapply yields_fault].
    eapply yields_row; [exact Hn|done|by apply IH].
Qed.

Lemma yields_probe rrows : ∀ c mc,
  rrows = drop c buf → (c ≤ length buf)%nat →
  yields (S := S) (Datatypes.S (length rrows)) (J c mc "")
    (join_rows lk rk (GetOutputSchema l) (GetOutputSchema r) lrows rrows).
Proof.
  induction rrows as [|t rrows IH]; intros c mc Hd Hc; cbn [join_rows].
  - assert (length buf = c) as Hl.
    { apply (f_equal length) in Hd. rewrite length_drop in Hd. simpl in Hd. lia. }
    eapply (yields_end _ _ (J c mc "")); [|done]. intros [|fuel] Hf; [lia|]. cbn.
    unfold HashJoin_Next. cbn. unfold bindM, getM, str_eqb. cbn.
    rewrite bool_decide_true by done. cbn. by rewrite lookup_ge_None_2 by lia.
  - assert (buf !! c = Some t) as Ht.
    { rewrite <- (Nat.add_0_r c), <- lookup_drop, <- Hd. done. }
    assert (rrows = drop (Datatypes.S c) buf) as Hd'.
    { rewrite (drop_S _ _ _ Ht) in Hd. by injection Hd. }
    pose proof (lookup_lt_Some _ _ _ Ht) as Hlt.
    assert (∀ fuel, Next (S := S) (Datatypes.S fuel) (J c mc "") =
      match key_string rk t (GetOutputSchema r) with
      | Ok k => Next (S := S) fuel (J (Datatypes.S c) 0 k)
      | Fault f => (J (Datatypes.S c) mc "", Fault f)
      end) as Hn.
    { intros fuel. cbn. unfold HashJoin_Next. cbn. unfold bindM, getM, str_eqb. cbn.
      rewrite bool_decide_true by done. cbn. rewrite Ht. unfold modifyM, bindM, getM, putM, liftM. cbn.
      by destruct (key_string _ _ _). }
    destruct (key_string rk t (GetOutputSchema r)) as [k|f].
    2: { eapply yields_fault. intros [|fuel] Hf; [simpl in Hf; lia|]. apply Hn. }
    apply (yields_step (Datatypes.S (length rrows)) _ _ (J (Datatypes.S c) 0 k));
      [|done|simpl; lia|].
    { intros [|fuel] Hf; [simpl in Hf; lia|]. exists fuel. simpl in Hf. split; [lia|]. apply Hn. }
    unfold matches, str_eqb. case_bool_decide as Hk.
    + subst k. cbn [join_bucket]. by apply IH.
    + pose proof (build_table_lookup _ _ _ _ _ k Hht) as Hbk. rewrite lookup_empty in Hbk.
      cbn in Hbk. rewrite <- Hbk. apply (yields_bucket _ c t 0 k); [done|done|lia|by apply IH].
Qed.
End probe.

(** The build phase. *)
Lemma build_loop_run N (o : HashJoin L R) st :
  yields N (hj_left o) st →
  let b := build_stream (hj_left_key o) (GetOutputSchema (hj_left o)) st (hj_hash_table o) in
  ∃ o', (∀ ht', b = Ok ht' → ∃ l', GetOutputSchema l' = GetOutputSchema (hj_left o) ∧
           o' = set_left l' (set_tables ht' (hj_right_buffer o) o)) ∧
    ∀ fuel n, (N ≤ fuel)%nat → (length (rows st) < n)%nat →
      build_loop (S := S) fuel n o = (o', _ <-! b ;; Ok tt).
Proof.
  intros Hy. remember (hj_left o) as l eqn:El. revert o El.
  induction Hy as [l l' Hn Hs|l l' f Hn|l l' t st Hn Hs Hy IH]; intros o ->; cbn zeta.
  - exists (set_left l' o). split; [cbn; intros ht' [= <-]; exists l'; by destruct o|].
    intros fuel [|n] Hf Hl; [simpl in Hl; lia|]. cbn [build_loop].
    unfold bindM, on_left, zoomM. by rewrite (Hn fuel Hf).
  - exists (set_left l' o). split; [by cbn|]. intros fuel [|n] Hf Hl; [simpl in Hl; lia|]. cbn [build_loop].
    unfold bindM, on_left, zoomM. by rewrite (Hn fuel Hf).
  - unfold build_stream. cbn [rows failure st_cons build_table].
    destruct (key_string (hj_left_key o) t (GetOutputSchema (hj_left o))) as [k|f] eqn:Ek; cbn [obind].
    + destruct (IH (set_tables (ht_push k t (hj_hash_table o)) (hj_right_buffer o) (set_left l' o)))
        as (o' & Ho' & Hloop); [by destruct o|]. cbn in Ho', Hloop. rewrite Hs in Ho', Hloop.
      exists o'. split.
      { intros ht' Hb. destruct (Ho' ht' Hb) as (l2 & Hs2 & ->). exists l2.
        split; [exact Hs2|by destruct o]. }
      intros fuel [|n] Hf Hl; simpl in Hl; [lia|].
      cbn [build_loop]. unfold bindM at 1, on_left, zoomM. rewrite (Hn fuel Hf).
      unfold bindM at 1, getM at 1. unfold bindM at 1, liftM. cbn [hj_left hj_left_key set_left].
      rewrite Hs, Ek. unfold bindM at 1, modifyM. rewrite bindM_get. unfold putM.
      apply (Hloop fuel n Hf); lia.
    + exists (set_left l' o). split; [done|]. intros fuel [|n] Hf Hl; simpl in Hl; [lia|].
      cbn [build_loop]. unfold bindM at 1, on_left, zoomM. rewrite (Hn fuel Hf).
      unfold bindM, getM, liftM. cbn [hj_left hj_left_key set_left]. by rewrite Hs, Ek.
Qed.

(** The two halves of [Init]. *)
Definition join_build (fuel : nat) : M (HashJoin L R * S) unit :=
  on_op (modifyM (λ o, set_probe 0 0 (hj_current_key o) (set_tables ∅ [] o))) ;;
  zoomM (λ p, (hj_left p.1, p.2)) (λ c p, (set_left c.1 p.1, c.2)) (Init fuel) ;;
  on_op (build_loop (S := S) fuel fuel ;; on_left Close).
Definition join_read (fuel : nat) : M (HashJoin L R * S) unit :=
  zoomM (λ p, (hj_right p.1, p.2)) (λ c p, (set_right c.1 p.1, c.2)) (Init fuel) ;;
  on_op (
    ts <- on_right (drain (S := S) fuel fuel) ;;
    modifyM (λ o, set_tables (hj_hash_table o) (hj_right_buffer o ++ ts) o) ;;
    on_right Close).
Lemma HashJoin_Init_halves fuel (x : HashJoin L R * S) :
  Init fuel x = (join_build fuel ;; join_read fuel) x.
Proof.
  cbn [Init HashJoin_Operator]. unfold HashJoin_Init, join_build, join_read, bindM.
  repeat match goal with |- context [let '(_, _) := ?m in _] => destruct m as [? []]; [|done] end.
  done.
Qed.

Lemma join_build_run (I : S → Prop) (l : L) (r : R) lk rk xl :
  let out := ConcatSchemas (GetOutputSchema l) (GetOutputSchema r) in
  let b := lst <-! xl ;; build_stream lk (GetOutputSchema l) lst ∅ in
  runs_as I l xl →
  ∃ N, ∀ s, I s → ∃ o' s', I s' ∧
    (∀ ht, b = Ok ht → ∃ l', GetOutputSchema l' = GetOutputSchema l ∧ o' = mkHashJoin l' r lk rk out ht [] 0 0 "") ∧
    ∀ fuel, (N ≤ fuel)%nat →
      join_build fuel (HashJoin_ctor (S := S) l r lk rk, s) = ((o', s'), _ <-! b ;; Ok tt).
Proof.
  intros out b. destruct xl as [lst|f]; cbn [runs_as] in *; intros [N HL].
  2: { exists N. intros s Hs. destruct (HL s Hs) as (l1 & s1 & Hi & Hs1).
    exists (mkHashJoin l1 r lk rk out ∅ [] 0 0 ""), s1. split_and!; [done|done|]. intros fuel Hf.
    unfold join_build, on_op, zoomM, bindM, modifyM, getM, putM. cbn. by rewrite Hi. }
  exists (N + Datatypes.S (length (rows lst)))%nat. intros s Hs.
  destruct (HL s Hs) as (l1 & s1 & Hi & Hs1 & Hsch & Hy).
  set (o1 := mkHashJoin l1 r lk rk out ∅ [] 0 0 "").
  destruct (build_loop_run N o1 lst Hy) as (o' & Ho' & Hloop). cbn in Ho', Hloop, b.
  rewrite Hsch in Ho', Hloop. fold b in Ho', Hloop.
  assert (∀ fuel, (N + Datatypes.S (length (rows lst)) ≤ fuel)%nat →
    join_build fuel (HashJoin_ctor (S := S) l r lk rk, s) =
    on_op (_ <- (λ _, (o', _ <-! b ;; Ok tt)) ;; on_left Close) (o', s1)) as Hb.
  { intros fuel Hf. unfold join_build, on_op, zoomM, bindM, modifyM, getM, putM. cbn. rewrite Hi by lia. cbn.
    change (set_left l1 _) with o1. by rewrite Hloop by lia. }
  destruct b as [ht|f].
  - destruct (Ho' ht eq_refl) as (l2 & Hl2 & ->). destruct (Close_ok l2) as (l3 & Hc & Hl3).
    exists (mkHashJoin l3 r lk rk out ht [] 0 0 ""), s1. split_and!; [done| |].
    + intros ? [= <-]. exists l3. split; [congruence|done].
    + intros fuel Hf. rewrite (Hb fuel Hf). unfold on_op, on_left, zoomM, bindM. cbn. by rewrite Hc.
  - exists o', s1. split_and!; [done|done|]. intros fuel Hf. by rewrite (Hb fuel Hf).
Qed.

Lemma join_read_run (I : S → Prop) (r : R) lk rk out xr :
  let b := rst <-! xr ;; ended rst in
  runs_as I r xr →
  ∃ N, ∀ s (l : L) ht, I s → ∃ o' s', I s' ∧
    (∀ rrows, b = Ok rrows → ∃ r', GetOutputSchema r' = GetOutputSchema r ∧ o' = mkHashJoin l r' lk rk out ht rrows 0 0 "") ∧
    ∀ fuel, (N ≤ fuel)%nat →
      join_read fuel (mkHashJoin l r lk rk out ht [] 0 0 "", s) = ((o', s'), _ <-! b ;; Ok tt).
Proof.
  intros b. destruct xr as [rst|f]; cbn [runs_as] in *; intros [N HR].
  2: { exists N. intros s l ht Hs. destruct (HR s Hs) as (r1 & s1 & Hi & Hs1).
    exists (mkHashJoin l r1 lk rk out ht [] 0 0 ""), s1. split_and!; [done|done|]. intros fuel Hf.
    unfold join_read, on_op, zoomM, bindM. cbn. by rewrite Hi. }
  exists (N + Datatypes.S (length (rows rst)))%nat. intros s l ht Hs.
  destruct (HR s Hs) as (r1 & s1 & Hi & Hs1 & Hsch & Hy).
  destruct (drain_ended N r1 rst Hy) as (r2 & Hr2 & Hd). destruct (Close_ok r2) as (r3 & Hc & Hr3).
  cbn [obind] in b. subst b. unfold ended in *.
  assert (∀ fuel, (N + Datatypes.S (length (rows rst)) ≤ fuel)%nat → join_read fuel (mkHashJoin l r lk rk out ht [] 0 0 "", s) =
    on_op (ts <- (λ _, (mkHashJoin l r2 lk rk out ht [] 0 0 "", ended rst)) ;;
           modifyM (λ o, set_tables (hj_hash_table o) (hj_right_buffer o ++ ts) o) ;; on_right Close)
      (mkHashJoin l r lk rk out ht [] 0 0 "", s1)) as Hb.
  { intros fuel Hf. unfold join_read, on_op, on_right, zoomM, bindM. cbn. rewrite Hi by lia. cbn.
    rewrite Hd by lia. done. }
  unfold ended in Hb. destruct (failure rst) as [f|]; cbn [obind].
  - exists (mkHashJoin l r2 lk rk out ht [] 0 0 ""), s1. split_and!; [done|done|].
    intros fuel Hf. by rewrite (Hb fuel Hf).
  - exists (mkHashJoin l r3 lk rk out ht (rows rst) 0 0 ""), s1. split_and!; [done| |].
    + intros ? [= <-]. exists r3. split; [rewrite Hr3, Hr2; done|done].
    + intros fuel Hf. rewrite (Hb fuel Hf). unfold on_op, on_right, modifyM, zoomM, bindM, getM, putM. cbn.
      by rewrite Hc.
Qed.

(** The run of a join from the runs of its children. *)
Lemma HashJoin_runs (I : S → Prop) (l : L) (r : R) lk rk xl xr :
  runs_as I l xl → runs_as I r xr →
  runs_as I (HashJoin_ctor (S := S) l r lk rk)
    (join_run lk rk (GetOutputSchema l) (GetOutputSchema r) xl xr).
Proof.
  intros HL HR. set (out := ConcatSchemas (GetOutputSchema l) (GetOutputSchema r)).
  destruct (join_build_run I l r lk rk xl HL) as [N1 H1].
  destruct (join_read_run I r lk rk out xr HR) as [N2 H2]. unfold join_run.
  assert (∀ f, (lst <-! xl ;; build_stream lk (GetOutputSchema l) lst ∅) = Fault f →
    refuses I (HashJoin_ctor (S := S) l r lk rk) f) as Hbuild.
  { intros f Hf. rewrite Hf in H1. exists N1. intros s Hs.
    destruct (H1 s Hs) as (o1 & s1 & Hs1 & _ & Hb). exists o1, s1. split; [|done].
    intros fuel Hfu. rewrite HashJoin_Init_halves. unfold bindM. by rewrite Hb. }
  destruct xl as [lst|f]; cbn [obind] in *; [|by apply Hbuild].
  destruct (build_stream lk (GetOutputSchema l) lst ∅) as [ht|f] eqn:Eb; cbn [obind] in *; [|by apply Hbuild].
  assert (∀ s, I s → ∃ l' o' s', I s' ∧ GetOutputSchema l' = GetOutputSchema l ∧
    (∀ rrows, (rst <-! xr ;; ended rst) = Ok rrows → ∃ r', GetOutputSchema r' = GetOutputSchema r ∧
       o' = mkHashJoin l' r' lk rk out ht rrows 0 0 "") ∧
    ∀ fuel, (N1 + N2 ≤ fuel)%nat → Init fuel (HashJoin_ctor (S := S) l r lk rk, s) =
      ((o', s'), _ <-! (rst <-! xr ;; ended rst) ;; Ok tt)) as Hinit.
  { intros s Hs. destruct (H1 s Hs) as (o1 & s1 & Hs1 & Ho1 & Hb1).
    destruct (Ho1 ht eq_refl) as (l' & Hl' & ->).
    destruct (H2 s1 l' ht Hs1) as (o2 & s2 & Hs2 & Ho2 & Hb2). exists l', o2, s2.
    split_and!; [done..|]. intros fuel Hf. rewrite HashJoin_Init_halves. unfold bindM.
    rewrite Hb1 by lia. by rewrite Hb2 by lia. }
  clear H1 H2 Hbuild. destruct xr as [rst|f]; cbn [obind] in *.
  2: { exists (N1 + N2)%nat. intros s Hs. destruct (Hinit s Hs) as (_ & o' & s' & Hs' & _ & _ & Hi). eauto. }
  destruct (ended rst) as [rrows|f]; cbn [obind] in *.
  2: { exists (N1 + N2)%nat. intros s Hs. destruct (Hinit s Hs) as (_ & o' & s' & Hs' & _ & _ & Hi). eauto. }
  apply obind_Ok_inv in Eb as (ht' & Hht & Hf). destruct (failure lst); [done|]. injection Hf as ->.
  exists (N1 + N2 + Datatypes.S (length rrows))%nat. intros s Hs.
  destruct (Hinit s Hs) as (l' & o' & s' & Hs' & Hl' & Ho & Hi).
  destruct (Ho rrows eq_refl) as (r' & Hr' & ->). eexists _, s'. split_and!.
  - intros fuel Hf. apply Hi. lia.
  - done.
  - done.
  - eapply yields_le; [|instantiate (1 := Datatypes.S (length rrows)); lia].
    rewrite <- Hl', <- Hr' in *.
    by apply (yields_probe l' r' lk rk _ (rows lst) rrows ht Hht rrows 0 0); [|lia].
Qed.

Lemma HashJoin_produces (I : S → Prop) (l : L) (r : R) lk rk lrows rrows ht :
  produces I l (mkStream lrows None) → produces I r (mkStream rrows None) →
  build_table lk (GetOutputSchema l) lrows ∅ = Ok ht →
  produces I (HashJoin_ctor (S := S) l r lk rk)
    (join_rows lk rk (GetOutputSchema l) (GetOutputSchema r) lrows rrows).
Proof.
  intros HL HR Hb. pose proof (HashJoin_runs I l r lk rk (Ok _) (Ok _) HL HR) as Hr.
  unfold join_run, build_stream in Hr. cbn [obind rows failure] in Hr. by rewrite Hb in Hr.
Qed.
End join.
