(* ===== verification/ExecutorAggregate.v ===== *)
(** * Hash aggregation

    The groups of [HashAggregate] are the sets of rows with one key string, in
    the order of their first rows; the accumulators of a group are the count,
    sum, minimum and maximum of its members. *)
From stdpp Require Import base gmap list strings pretty.
From Stdlib Require Import ZArith Lia Ascii.
From S2P Require Import Prelude Types PageCache HeapFile Catalog Ast Executor ExecutorSpec.

(** ** Keys *)
Definition key_of_values (key : string) (vs : list Value) : string :=
  foldl (λ k v, k +:+ (ToString v +:+ "|")) key vs.

Lemma make_key_values group_by t schema key vs :
  eval_exprs group_by t schema = Ok vs → make_key group_by t schema key = Ok (key_of_values key vs).
Proof.
  revert key vs. induction group_by as [|e group_by IH]; intros key vs; cbn; [by intros [= <-]|].
  destruct (EvalExpr e t schema) as [v|]; cbn; [|done].
  destruct (eval_exprs group_by t schema) as [vs'|]; cbn; [|done]. intros [= <-]. cbn. by apply IH.
Qed.

Lemma make_key_fault group_by t schema key f :
  eval_exprs group_by t schema = Fault f → make_key group_by t schema key = Fault f.
Proof.
  revert key. induction group_by as [|e group_by IH]; intros key; cbn; [done|].
  destruct (EvalExpr e t schema) as [v|]; cbn; [|congruence].
  destruct (eval_exprs group_by t schema) as [vs'|]; cbn; [done|]. intros [= ->]. by apply IH.
Qed.

(** ** Accumulators from the members of a group *)
Section spec.
Context (group_by : list Expr) (aggs : list AggExpr) (schema : Schema).

Definition row_values (t : Tuple) : list Value :=
  match eval_exprs group_by t schema with Ok vs => vs | Fault _ => [] end.
Definition row_key (t : Tuple) : string := key_of_values "" (row_values t).
Definition agg_arg (ae : AggExpr) (t : Tuple) : Z :=
  match ae_arg ae with
  | Some e => match EvalExpr e t schema with Ok v => AsInt v | Fault _ => 0 end
  | None => 0
  end.
Definition is_count (ae : AggExpr) : bool := str_eqb (ae_func ae) "COUNT".

(** A row on which the key and every argument can be evaluated. *)
Record row_ok (t : Tuple) : Prop := {
  ro_key : ∃ vs, eval_exprs group_by t schema = Ok vs;
  ro_args ae : ae ∈ aggs → is_count ae = false →
    ∃ e v, ae_arg ae = Some e ∧ EvalExpr e t schema = Ok v ∧ - 2 ^ 31 ≤ AsInt v < 2 ^ 31
}.

(** The argument of an aggregate, and whether it is a 32-bit value. *)
Definition agg_input (ae : AggExpr) (t : Tuple) : outcome Value :=
  match ae_arg ae with Some e => EvalExpr e t schema | None => Fault Undefined end.
Definition arg_ok (t : Tuple) (ae : AggExpr) : Prop :=
  is_count ae = false →
    ∃ e v, ae_arg ae = Some e ∧ EvalExpr e t schema = Ok v ∧ - 2 ^ 31 ≤ AsInt v < 2 ^ 31.

(** How a row ends the aggregation: its key cannot be evaluated, or the first
    argument that cannot. *)
Inductive row_fails (t : Tuple) (f : fault) : Prop :=
  | rf_key : eval_exprs group_by t schema = Fault f → row_fails t f
  | rf_arg vs done ae rest :
      eval_exprs group_by t schema = Ok vs → aggs = done ++ ae :: rest → Forall (arg_ok t) done →
      is_count ae = false → agg_input ae t = Fault f → row_fails t f.

Definition sum_of (ae : AggExpr) (ms : list Tuple) : Z :=
  foldr (λ t n, agg_arg ae t + n) 0 ms.
Definition min_of (ae : AggExpr) (ms : list Tuple) : Z :=
  foldr (λ t n, Z.min (agg_arg ae t) n) INT32_MAX ms.
Definition max_of (ae : AggExpr) (ms : list Tuple) : Z :=
  foldr (λ t n, Z.max (agg_arg ae t) n) INT32_MIN ms.

Definition acc (f : AggExpr → list Tuple → Z) (init : Z) (ms : list Tuple) (ae : AggExpr) : Z :=
  if is_count ae then init else f ae ms.
Definition group_of (ms : list Tuple) : Group :=
  mkGroup (default [] (row_values <$> head ms))
    ((λ _, Z.of_nat (length ms)) <$> aggs)
    (acc sum_of 0 ms <$> aggs)
    (acc min_of INT32_MAX ms <$> aggs)
    (acc max_of INT32_MIN ms <$> aggs).

Lemma sum_of_snoc ae ms t : sum_of ae (ms ++ [t]) = sum_of ae ms + agg_arg ae t.
Proof. unfold sum_of. induction ms as [|m ms IH]; cbn; lia. Qed.
Lemma min_of_snoc ae ms t : min_of ae (ms ++ [t]) = Z.min (min_of ae ms) (agg_arg ae t).
Proof. unfold min_of. induction ms as [|m ms IH]; cbn [app foldr]; lia. Qed.
Lemma max_of_snoc ae ms t : max_of ae (ms ++ [t]) = Z.max (max_of ae ms) (agg_arg ae t).
Proof. unfold max_of. induction ms as [|m ms IH]; cbn [app foldr]; lia. Qed.

Lemma agg_arg_range ae t :
  row_ok t → ae ∈ aggs → is_count ae = false → - 2 ^ 31 ≤ agg_arg ae t < 2 ^ 31.
Proof.
  intros Hr Ha Hc. destruct (ro_args t Hr ae Ha Hc) as (e & v & He & Hv & ?).
  unfold agg_arg. by rewrite He, Hv.
Qed.
Lemma sum_of_range ae ms :
  Forall row_ok ms → ae ∈ aggs → is_count ae = false →
  - 2 ^ 31 * Z.of_nat (length ms) ≤ sum_of ae ms ≤ 2 ^ 31 * Z.of_nat (length ms).
Proof.
  intros Hms Ha Hc. unfold sum_of. induction Hms as [|m ms Hm _ IH]; cbn [foldr length]; [lia|].
  pose proof (agg_arg_range ae m Hm Ha Hc). lia.
Qed.

(** The groups while the aggregates [done] of [done ++ rest] are updated. *)
Definition half_updated (done rest : list AggExpr) (ms : list Tuple) (t : Tuple) : Group :=
  let half (f : list Tuple → AggExpr → Z) := (f (ms ++ [t]) <$> done) ++ (f ms <$> rest) in
  mkGroup (default [] (row_values <$> head (ms ++ [t])))
    (half (λ ms _, Z.of_nat (length ms))) (half (acc sum_of 0))
    (half (acc min_of INT32_MAX)) (half (acc max_of INT32_MIN)).

Lemma lookup_half (f g : AggExpr → Z) done ae rest :
  ((f <$> done) ++ (g <$> ae :: rest)) !! length done = Some (g ae).
Proof. rewrite lookup_app_r by (rewrite length_fmap; lia). by rewrite length_fmap, Nat.sub_diag. Qed.
Lemma insert_half (f g : AggExpr → Z) done ae rest x :
  x = f ae →
  <[length done := x]> ((f <$> done) ++ (g <$> ae :: rest)) = (f <$> done ++ [ae]) ++ (g <$> rest).
Proof.
  intros ->. rewrite fmap_cons, fmap_app, <- app_assoc. cbn.
  replace (length done) with (length (f <$> done) + 0)%nat by (rewrite length_fmap; lia).
  by rewrite insert_app_r.
Qed.
Lemma keep_half (f g : AggExpr → Z) done ae rest :
  f ae = g ae → (f <$> done) ++ (g <$> ae :: rest) = (f <$> done ++ [ae]) ++ (g <$> rest).
Proof. intros E. rewrite fmap_cons, fmap_app, <- app_assoc. cbn. by rewrite E. Qed.

Lemma update_agg_half done ae rest ms t :
  arg_ok t ae → Forall row_ok ms → ae ∈ aggs → Z.of_nat (length ms) < 2 ^ 31 →
  update_agg (length done) ae t schema (half_updated done (ae :: rest) ms t) =
    Ok (half_updated (done ++ [ae]) rest ms t).
Proof.
  intros Ht Hms Ha Hlen. unfold update_agg, half_updated. cbn [counts sums mins maxs key_vals].
  rewrite lookup_half. cbn [odef obind]. unfold add_s64 at 1.
  rewrite (proj2 (Z.leb_le _ _)), (proj2 (Z.ltb_lt _ _)) by lia. cbn [andb obind counts sums mins maxs key_vals].
  rewrite (insert_half _ _ done ae rest) by (rewrite length_app; simpl; lia).
  fold (is_count ae). destruct (is_count ae) eqn:Hc.
  - rewrite !(keep_half _ _ done ae rest) by (unfold acc; by rewrite Hc). done.
  - destruct (Ht Hc) as (e & v & He & Hv & Hrange).
    rewrite He. cbn [odef obind]. rewrite Hv. cbn [obind]. rewrite !lookup_half. cbn [odef obind].
    assert (agg_arg ae t = AsInt v) as Harg by (unfold agg_arg; by rewrite He, Hv).
    pose proof (sum_of_range ae ms Hms Ha Hc). unfold add_s64.
    assert (∀ f init ms, acc f init ms ae = f ae ms) as Hacc by (intros; unfold acc; by rewrite Hc).
    rewrite !Hacc. rewrite (proj2 (Z.leb_le _ _)), (proj2 (Z.ltb_lt _ _)) by lia.
    cbn [andb obind].
    rewrite (insert_half _ _ done ae rest) by (rewrite Hacc, sum_of_snoc; lia).
    do 2 f_equal.
    + destruct (AsInt v <? min_of ae ms) eqn:E.
      * apply insert_half. apply Z.ltb_lt in E. rewrite ?Hacc, min_of_snoc. lia.
      * apply keep_half. apply Z.ltb_ge in E. rewrite ?Hacc, min_of_snoc. lia.
    + destruct (max_of ae ms <? AsInt v) eqn:E.
      * apply insert_half. apply Z.ltb_lt in E. rewrite ?Hacc, max_of_snoc. lia.
      * apply keep_half. apply Z.ltb_ge in E. rewrite ?Hacc, max_of_snoc. lia.
Qed.

Lemma update_agg_fault done ae rest ms t f :
  is_count ae = false → agg_input ae t = Fault f → Z.of_nat (length ms) < 2 ^ 31 →
  update_agg (length done) ae t schema (half_updated done (ae :: rest) ms t) = Fault f.
Proof.
  intros Hc Hf Hlen. unfold update_agg, half_updated. cbn [counts sums mins maxs key_vals].
  rewrite lookup_half. cbn [odef obind]. unfold add_s64 at 1.
  rewrite (proj2 (Z.leb_le _ _)), (proj2 (Z.ltb_lt _ _)) by lia. cbn [andb obind].
  fold (is_count ae). rewrite Hc. unfold agg_input in Hf.
  destruct (ae_arg ae) as [e|]; cbn [odef obind]; [by rewrite Hf|congruence].
Qed.

Lemma update_aggs_prefix done mid rest ms t :
  done ++ mid ++ rest = aggs → Forall (arg_ok t) mid → Forall row_ok ms → Z.of_nat (length ms) < 2 ^ 31 →
  update_aggs (length done) (mid ++ rest) t schema (half_updated done (mid ++ rest) ms t) =
    update_aggs (length (done ++ mid)) rest t schema (half_updated (done ++ mid) rest ms t).
Proof.
  intros E Ht Hms Hlen. revert done E. induction Ht as [|ae mid Ha _ IH]; intros done E.
  { by rewrite app_nil_r. }
  cbn [app update_aggs]. rewrite update_agg_half; [|done|done| |done].
  2: { rewrite <- E. set_solver. }
  cbn [obind]. specialize (IH (done ++ [ae])). rewrite length_app, Nat.add_1_r, <- !app_assoc in IH.
  apply IH. done.
Qed.
Lemma update_aggs_half ms t :
  row_ok t → Forall row_ok ms → Z.of_nat (length ms) < 2 ^ 31 →
  update_aggs 0 aggs t schema (half_updated [] aggs ms t) = Ok (half_updated aggs [] ms t).
Proof.
  intros Ht Hms Hlen. pose proof (update_aggs_prefix [] aggs [] ms t) as H.
  rewrite !app_nil_r in H. cbn in H. apply H; [done| |done|done].
  apply Forall_forall. intros ae Ha. exact (ro_args t Ht ae Ha).
Qed.
Lemma update_aggs_fault done ae rest ms t f :
  aggs = done ++ ae :: rest → Forall (arg_ok t) done → is_count ae = false → agg_input ae t = Fault f →
  Forall row_ok ms → Z.of_nat (length ms) < 2 ^ 31 →
  update_aggs 0 aggs t schema (half_updated [] aggs ms t) = Fault f.
Proof.
  intros E Hd Hc Hf Hms Hlen.
  pose proof (update_aggs_prefix [] done (ae :: rest) ms t (eq_sym E) Hd Hms Hlen) as H.
  rewrite <- E in H. cbn [app length] in H. rewrite H. cbn [update_aggs]. by rewrite (update_agg_fault _ _ _ _ _ f).
Qed.

Lemma fmap_const {A B} (x : B) (l : list A) : (λ _, x) <$> l = replicate (length l) x.
Proof. induction l as [|a l IH]; [done|]. cbn. by rewrite IH. Qed.

Lemma half_new t : half_updated [] aggs [] t = new_group (row_values t) (length aggs).
Proof.
  unfold half_updated, new_group. cbn.
  assert (∀ f x, (∀ ae, f ae [] = x) → acc f x [] <$> aggs = replicate (length aggs) x) as Hr.
  { intros f x Hx. rewrite <- fmap_const. apply list_fmap_ext. intros i ae _. unfold acc.
    by rewrite Hx; destruct (is_count ae). }
  rewrite fmap_const, !Hr by done. done.
Qed.
Lemma half_start ms t : ms ≠ [] → half_updated [] aggs ms t = group_of ms.
Proof. by destruct ms. Qed.
Lemma half_end ms t : half_updated aggs [] ms t = group_of (ms ++ [t]).
Proof. unfold half_updated, group_of. cbn. by rewrite !app_nil_r. Qed.

(** The group a row is added to. *)
Definition start_group (ms : list Tuple) (t : Tuple) : Group :=
  match ms with [] => new_group (row_values t) (length aggs) | _ => group_of ms end.
Lemma start_group_half ms t : start_group ms t = half_updated [] aggs ms t.
Proof. destruct ms; [by rewrite half_new|by rewrite half_start]. Qed.
Lemma update_aggs_group ms t :
  row_ok t → Forall row_ok ms → Z.of_nat (length ms) < 2 ^ 31 →
  update_aggs 0 aggs t schema (start_group ms t) = Ok (group_of (ms ++ [t])).
Proof. intros Ht Hms Hlen. rewrite start_group_half, <- half_end. by apply update_aggs_half. Qed.

(** ** Groups of a list of rows *)
Definition members (k : string) (l : list Tuple) : list Tuple :=
  List.filter (λ t, str_eqb (row_key t) k) l.
Definition push_key (order : list string) (t : Tuple) : list string :=
  if bool_decide (row_key t ∈ order) then order else order ++ [row_key t].
Definition group_order (l : list Tuple) : list string := foldl push_key [] l.

Lemma members_snoc k l t :
  members k (l ++ [t]) = if str_eqb (row_key t) k then members k l ++ [t] else members k l.
Proof.
  unfold members. rewrite List.filter_app. cbn. destruct (str_eqb _ _); [done|by rewrite app_nil_r].
Qed.
Lemma group_order_snoc l t : group_order (l ++ [t]) = push_key (group_order l) t.
Proof. apply foldl_snoc. Qed.
Lemma elem_of_group_order l k : k ∈ group_order l ↔ members k l ≠ [].
Proof.
  induction l as [|t l IH] using rev_ind; [split; [by intros ?%elem_of_nil|done]|].
  rewrite group_order_snoc, members_snoc. unfold push_key, str_eqb.
  destruct (decide (row_key t = k)) as [->|E].
  - rewrite (bool_decide_true (k = k)) by done. split; [by destruct (members k l)|].
    case_bool_decide; set_solver.
  - rewrite (bool_decide_false (_ = k)) by done. case_bool_decide; rewrite <- IH; set_solver.
Qed.
Lemma group_order_NoDup l : NoDup (group_order l).
Proof.
  induction l as [|t l IH] using rev_ind; [constructor|]. rewrite group_order_snoc. unfold push_key.
  case_bool_decide; [done|]. apply NoDup_app. split_and!; [done|set_solver|apply NoDup_singleton].
Qed.

Record groups_ok (l : list Tuple) (groups : gmap string Group) (order : list string) : Prop := {
  go_order : order = group_order l;
  go_groups k : groups !! k = match members k l with [] => None | ms => Some (group_of ms) end
}.

(** ** Output rows *)

(** The value of an aggregate over the members of a group: integers of 32 bits,
    the average truncated towards zero. *)
Definition agg_result (ms : list Tuple) (ae : AggExpr) : list Value :=
  if is_count ae then [MakeInt (wrap_s32 (Z.of_nat (length ms)))]
  else if str_eqb (ae_func ae) "SUM" then [MakeInt (wrap_s32 (sum_of ae ms))]
  else if str_eqb (ae_func ae) "AVG" then
    [MakeInt (wrap_s32 (sum_of ae ms `quot` Z.of_nat (length ms)))]
  else if str_eqb (ae_func ae) "MIN" then [MakeInt (min_of ae ms)]
  else if str_eqb (ae_func ae) "MAX" then [MakeInt (max_of ae ms)]
  else [].
Definition group_row (out : Schema) (ms : list Tuple) : outcome Tuple :=
  Tuple_ctor (default [] (row_values <$> head ms) ++ concat (agg_result ms <$> aggs)) out.
Fixpoint group_rows (out : Schema) (l : list Tuple) (keys : list string) : stream :=
  match keys with
  | [] => mkStream [] None
  | k :: keys =>
      match group_row out (members k l) with
      | Ok t => st_cons t (group_rows out l keys)
      | Fault f => mkStream [] (Some f)
      end
  end.

(** Reading the rows one after the other: all of them, or until the child or a
    row fails. *)
Inductive agg_reads : list Tuple → list Tuple → option fault → outcome (list Tuple) → Prop :=
  | ag_end l : agg_reads l [] None (Ok l)
  | ag_child_fails l f : agg_reads l [] (Some f) (Fault f)
  | ag_row l t rest fail r :
      row_ok t → agg_reads (l ++ [t]) rest fail r → agg_reads l (t :: rest) fail r
  | ag_row_fails l t rest fail f : row_fails t f → agg_reads l (t :: rest) fail (Fault f).
Inductive agg_run (out : Schema) : outcome stream → outcome stream → Prop :=
  | au_child f : agg_run out (Fault f) (Fault f)
  | au_rows st r :
      Z.of_nat (length (rows st)) < 2 ^ 31 → agg_reads [] (rows st) (failure st) r →
      agg_run out (Ok st) (l <-! r ;; Ok (group_rows out l (group_order l))).

Lemma agg_reads_all l rest : Forall row_ok rest → agg_reads l rest None (Ok (l ++ rest)).
Proof.
  intros Hr. revert l. induction Hr as [|t rest Ht _ IH]; intros l; [rewrite app_nil_r; constructor|].
  apply ag_row; [done|]. specialize (IH (l ++ [t])). by rewrite <- app_assoc in IH.
Qed.
Lemma agg_run_rows out l :
  Forall row_ok l → Z.of_nat (length l) < 2 ^ 31 →
  agg_run out (Ok (mkStream l None)) (Ok (group_rows out l (group_order l))).
Proof. intros Hok Hlen. exact (au_rows out (mkStream l None) (Ok l) Hlen (agg_reads_all [] l Hok)). Qed.

Lemma agg_value_group pre ae rest ms :
  pre ++ ae :: rest = aggs → ms ≠ [] →
  agg_value (length pre) ae (group_of ms) = Ok (agg_result ms ae).
Proof.
  intros E Hms. assert (∀ f : AggExpr → Z, (f <$> aggs) !! length pre = Some (f ae)) as Hl.
  { intros f. rewrite <- E, list_lookup_fmap, lookup_app_r, Nat.sub_diag by lia. done. }
  unfold agg_value, agg_result. unfold group_of. cbn [counts sums mins maxs]. rewrite !Hl.
  unfold acc. fold (is_count ae). destruct (is_count ae) eqn:Hc; [done|]. cbn [odef obind].
  assert ((0 <? Z.of_nat (length ms)) = true) as Hp by (destruct ms; [done|apply Z.ltb_lt; simpl; lia]).
  rewrite Hp. by repeat case_match.
Qed.
Lemma agg_values_group pre rest ms :
  pre ++ rest = aggs → ms ≠ [] →
  agg_values (length pre) rest (group_of ms) = Ok (concat (agg_result ms <$> rest)).
Proof.
  intros E Hms. revert pre E. induction rest as [|ae rest IH]; intros pre E; [done|].
  cbn [agg_values]. rewrite (agg_value_group pre ae rest ms E Hms). cbn [obind].
  specialize (IH (pre ++ [ae])). rewrite length_app, Nat.add_1_r in IH.
  rewrite IH by (by rewrite <- app_assoc). done.
Qed.
End spec.

Section aggregate.
Context {S C : Type} `{Operator S C} `{!OperatorLaws S C}.

#[global] Instance HashAggregate_laws : OperatorLaws S (HashAggregate C).
Proof. intros o. by eexists. Qed.

Lemma Forall_members gb sch k (P : Tuple → Prop) l :
  Forall P l → Forall P (members gb sch k l).
Proof.
  rewrite !Forall_forall. intros Hl x Hx. apply Hl. apply list_elem_of_In in Hx.
  apply List.filter_In in Hx as [Hx _]. by apply list_elem_of_In.
Qed.
Lemma length_members gb sch k l : (length (members gb sch k l) ≤ length l)%nat.
Proof. apply List.filter_length_le. Qed.

(** What [add_row] does to the row's group. *)
Lemma add_row_group (o : HashAggregate C) l t vs :
  let gb := ha_group_by o in let aggs := ha_agg_exprs o in
  let schema := GetOutputSchema (ha_child o) in
  let k := row_key gb schema t in
  groups_ok gb aggs schema l (ha_groups o) (ha_group_order o) → eval_exprs gb t schema = Ok vs →
  ∃ groups, (∀ k', k' ≠ k → groups !! k' = ha_groups o !! k') ∧
    add_row t o = (g <- liftM (update_aggs 0 aggs t schema (start_group gb aggs schema (members gb schema k l) t)) ;;
      modifyM (λ o, set_groups (<[k := g]> (ha_groups o)) (ha_group_order o) o))
      (set_groups groups (push_key gb schema (ha_group_order o) t) o).
Proof.
  intros gb aggs schema k [Ho Hg] Hvs.
  assert (row_values gb schema t = vs) as Hrv by (unfold row_values; by rewrite Hvs).
  assert (MakeKey t o = Ok k) as Hk.
  { unfold MakeKey, k, row_key. rewrite Hrv. by apply make_key_values. }
  set (ms := members gb schema k l).
  unfold add_row. rewrite bindM_get. rewrite (bindM_lift _ k) by done.
  assert (bool_decide (k ∈ ha_group_order o) = match ms with [] => false | _ => true end) as Hin.
  { rewrite Ho. unfold ms. destruct (members gb schema k l) eqn:E.
    - apply bool_decide_false. intros Hk'%elem_of_group_order. by apply Hk'.
    - apply bool_decide_true. rewrite elem_of_group_order. by rewrite E. }
  unfold push_key. fold k. rewrite Hin, Hg. fold ms. unfold start_group. rewrite Hrv.
  destruct ms as [|m ms'] eqn:Ems.
  - exists (<[k := new_group vs (length aggs)]> (ha_groups o)).
    split; [intros k' ?; by rewrite lookup_insert_ne|].
    fold gb schema. rewrite Hvs. unfold bindM, liftM, modifyM, getM, putM. cbn.
    rewrite lookup_insert_eq. done.
  - exists (ha_groups o). split; [done|]. rewrite bindM_ret, bindM_get, Hg. fold k ms. rewrite Ems.
    by destruct o.
Qed.

Lemma add_row_spec (o : HashAggregate C) l t :
  let gb := ha_group_by o in let aggs := ha_agg_exprs o in
  let schema := GetOutputSchema (ha_child o) in
  groups_ok gb aggs schema l (ha_groups o) (ha_group_order o) →
  row_ok gb aggs schema t → Forall (row_ok gb aggs schema) l → Z.of_nat (length l) < 2 ^ 31 →
  ∃ groups order, add_row t o = (set_groups groups order o, Ok tt) ∧
    groups_ok gb aggs schema (l ++ [t]) groups order.
Proof.
  intros gb aggs schema Hok Ht Hl Hlen. destruct (ro_key gb aggs schema t Ht) as [vs Hvs].
  destruct (add_row_group o l t vs Hok Hvs) as (groups & Hgr & Ha). fold gb aggs schema in Ha, Hgr.
  set (k := row_key gb schema t) in *. set (ms := members gb schema k l) in *.
  assert (Hu : update_aggs 0 aggs t schema (start_group gb aggs schema ms t) =
    Ok (group_of gb aggs schema (ms ++ [t]))).
  { apply update_aggs_group; [done|by apply Forall_members|].
    pose proof (length_members gb schema k l). unfold ms. lia. }
  rewrite (bindM_lift _ _ _ _ Hu) in Ha. unfold modifyM in Ha. rewrite bindM_get in Ha.
  eexists _, _. split; [exact Ha|]. destruct Hok as [Ho Hg]. cbn.
  split; [by rewrite group_order_snoc, Ho|]. intros k'.
  rewrite members_snoc. fold k. unfold str_eqb. case_bool_decide as E.
  - subst k'. rewrite lookup_insert_eq. fold ms. by destruct ms.
  - rewrite lookup_insert_ne, Hgr, Hg by done. done.
Qed.

Lemma add_row_fails (o : HashAggregate C) l t f :
  let gb := ha_group_by o in let aggs := ha_agg_exprs o in
  let schema := GetOutputSchema (ha_child o) in
  groups_ok gb aggs schema l (ha_groups o) (ha_group_order o) →
  row_fails gb aggs schema t f → Forall (row_ok gb aggs schema) l → Z.of_nat (length l) < 2 ^ 31 →
  ∃ o', add_row t o = (o', Fault f).
Proof.
  intros gb aggs schema Hok Ht Hl Hlen. destruct Ht as [Hf|vs done ae rest Hvs E Hd Hc Hf].
  { exists o. unfold add_row. rewrite bindM_get. unfold bindM, liftM, MakeKey.
    by rewrite (make_key_fault _ _ _ _ _ Hf). }
  destruct (add_row_group o l t vs Hok Hvs) as (groups & _ & Ha). fold gb aggs schema in Ha.
  eexists. rewrite Ha. rewrite start_group_half. unfold bindM, liftM.
  erewrite update_aggs_fault; [reflexivity|exact E|done|done|done|by apply Forall_members|].
  pose proof (length_members gb schema (row_key gb schema t) l). lia.
Qed.

Lemma aggregate_loop_run N (o : HashAggregate C) l st r :
  let gb := ha_group_by o in let aggs := ha_agg_exprs o in
  let schema := GetOutputSchema (ha_child o) in
  yields N (ha_child o) st →
  groups_ok gb aggs schema l (ha_groups o) (ha_group_order o) →
  Forall (row_ok gb aggs schema) l → Z.of_nat (length l + length (rows st)) < 2 ^ 31 →
  agg_reads gb aggs schema l (rows st) (failure st) r →
  ∃ o', (∀ all, r = Ok all → ∃ c groups order, GetOutputSchema c = schema ∧
           groups_ok gb aggs schema all groups order ∧ o' = set_ha_child c (set_groups groups order o)) ∧
    ∀ fuel n, (N ≤ fuel)%nat → (length (rows st) < n)%nat →
      aggregate_loop fuel n o = (o', _ <-! r ;; Ok tt).
Proof.
  intros gb aggs schema Hy. subst gb aggs schema. remember (ha_child o) as c eqn:Ec. revert o l Ec.
  induction Hy as [c c' Hn Hs|c c' f Hn|c c' t st Hn Hs Hy IH]; intros o l -> Hg Hl Hlen Hr;
    cbn [rows failure st_cons length] in *.
  - inversion Hr; subst. exists (set_ha_child c' o). split.
    { intros all [= <-]. exists c', (ha_groups o), (ha_group_order o). by destruct o. }
    intros fuel [|n] Hf Hl'; [lia|]. cbn [aggregate_loop].
    unfold bindM, on_agg_child, zoomM. by rewrite (Hn fuel Hf).
  - inversion Hr; subst. exists (set_ha_child c' o). split; [done|].
    intros fuel [|n] Hf Hl'; [lia|]. cbn [aggregate_loop].
    unfold bindM, on_agg_child, zoomM. by rewrite (Hn fuel Hf).
  - set (o1 := set_ha_child c' o).
    assert (∀ fuel n, (N ≤ fuel)%nat → aggregate_loop fuel (Datatypes.S n) o =
      (add_row t ;; aggregate_loop fuel n) o1) as Hloop.
    { intros fuel n Hf. cbn [aggregate_loop]. unfold bindM at 1, on_agg_child, zoomM. by rewrite (Hn fuel Hf). }
    rewrite <- Hs in Hg, Hl, Hr |- *.
    inversion Hr as [| |? ? ? ? ? Ht Hr'|? ? ? ? f Ht]; subst.
    + destruct (add_row_spec o1 l t Hg Ht Hl ltac:(lia)) as (groups & order & Ha & Hg1).
      destruct (IH (set_groups groups order o1) (l ++ [t])) as (o' & Ho' & Hloop'); [done|exact Hg1| | |exact Hr'|].
      { apply Forall_app. split; [exact Hl|]. constructor; [exact Ht|constructor]. }
      { rewrite length_app. simpl. lia. }
      exists o'. split.
      { intros all Hall. destruct (Ho' all Hall) as (c2 & g2 & or2 & Hs2 & Hg2 & ->).
        exists c2, g2, or2. split_and!; [exact Hs2|exact Hg2|by destruct o]. }
      intros fuel [|n] Hf Hn'; [lia|]. rewrite (Hloop fuel n Hf), (bindM_Ok _ _ _ _ _ Ha).
      apply Hloop'; [done|lia].
    + destruct (add_row_fails o1 l t f Hg Ht Hl ltac:(lia)) as (o' & Ha). exists o'. split; [done|].
      intros fuel [|n] Hf Hn'; [lia|]. rewrite (Hloop fuel n Hf). unfold bindM. by rewrite Ha.
Qed.

Lemma HashAggregate_yields (o : HashAggregate C) gb aggs schema l :
  ha_group_by o = gb → ha_agg_exprs o = aggs →
  groups_ok gb aggs schema l (ha_groups o) (ha_group_order o) →
  yields 0 o (group_rows gb aggs schema (ha_output_schema o) l (drop (ha_cursor o) (ha_group_order o))).
Proof.
  remember (drop (ha_cursor o) (ha_group_order o)) as keys eqn:Hk.
  revert o Hk. induction keys as [|k keys IH]; intros o Hk Hgb Hag [Ho Hg]; cbn [group_rows].
  - assert (ha_group_order o !! ha_cursor o = None) as Hnone.
    { apply lookup_ge_None_2. apply (f_equal length) in Hk. rewrite length_drop in Hk. simpl in Hk. lia. }
    eapply (yields_end _ _ o); [|done]. intros fuel _. cbn. unfold HashAggregate_Next, bindM, getM.
    by rewrite Hnone.
  - assert (ha_group_order o !! ha_cursor o = Some k) as Hsome.
    { rewrite <- (Nat.add_0_r (ha_cursor o)), <- lookup_drop, <- Hk. done. }
    assert (members gb schema k l ≠ []) as Hms.
    { apply elem_of_group_order. rewrite <- Ho. by eapply list_elem_of_lookup_2. }
    assert (ha_groups o !! k = Some (group_of gb aggs schema (members gb schema k l))) as Hgk
      by (rewrite Hg; by destruct (members gb schema k l)).
    set (o' := set_ha_cursor (Datatypes.S (ha_cursor o)) o).
    assert (∀ fuel, Next (S := S) fuel o = (o',
      t <-! group_row gb aggs schema (ha_output_schema o) (members gb schema k l) ;; Ok (Some t))) as Hn.
    { intros fuel. cbn. unfold HashAggregate_Next, bindM, getM. rewrite Hsome, Hgk. cbn [default id].
      unfold modifyM, bindM, getM, putM, liftM. rewrite insert_id by done.
      pose proof (agg_values_group gb aggs schema [] aggs _ eq_refl Hms) as Hv. cbn [length] in Hv.
      rewrite Hag, Hv.
      unfold group_row. cbn [key_vals group_of]. destruct o. cbn in *. subst.
      by destruct (Tuple_ctor _ _). }
    destruct (group_row _ _ _ _ _) as [t|f].
    + eapply yields_row; [intros; apply Hn|done|].
      apply (IH o'); [|done..]. rewrite (drop_S _ _ _ Hsome) in Hk. by injection Hk.
    + eapply yields_fault. intros; apply Hn.
Qed.

(** The run of an aggregation from the run of its child. *)
Lemma HashAggregate_runs (I : S → Prop) (c : C) gb aggs out x x' :
  runs_as I c x → agg_run gb aggs (GetOutputSchema c) out x x' →
  runs_as I (HashAggregate_ctor c gb aggs out) x'.
Proof.
  intros Hx Hrun. destruct Hrun as [f|st r Hlen Hr]; cbn [runs_as] in Hx; destruct Hx as [N Hp].
  { exists N. intros s Hs. destruct (Hp s Hs) as (c1 & s1 & Hi & Hs1).
    exists (mkHashAggregate c1 gb aggs out ∅ [] 0), s1. split; [|done]. intros fuel Hf. cbn.
    unfold HashAggregate_Init, on_op, zoomM, bindM, modifyM, getM, putM. cbn. by rewrite Hi. }
  assert (∀ s, I s → ∃ o' c3 groups order s', I s' ∧
    (∀ l, r = Ok l → groups_ok gb aggs (GetOutputSchema c) l groups order) ∧
    ∀ fuel, (N + Datatypes.S (length (rows st)) ≤ fuel)%nat →
      Init fuel (HashAggregate_ctor c gb aggs out, s) =
        match r with
        | Ok _ => ((mkHashAggregate c3 gb aggs out groups order 0, s'), Ok tt)
        | Fault f => ((o', s'), Fault f)
        end) as Hinit.
  { intros s Hs. destruct (Hp s Hs) as (c1 & s1 & Hi & Hs1 & Hsch & Hy).
    set (o1 := mkHashAggregate c1 gb aggs out ∅ [] 0). rewrite <- Hsch in Hr |- *.
    destruct (aggregate_loop_run N o1 [] st r) as (o' & Ho' & Hloop);
      [done|by split|constructor|done|exact Hr|]. cbn in Ho'.
    assert (∀ fuel, (N + Datatypes.S (length (rows st)) ≤ fuel)%nat →
      Init fuel (HashAggregate_ctor c gb aggs out, s) =
      on_op (_ <- (λ _, (o', _ <-! r ;; Ok tt)) ;; on_agg_child Close) (o1, s1)) as Hb.
    { intros fuel Hf. cbn. unfold HashAggregate_Init, on_op, zoomM, bindM, modifyM, getM, putM. cbn.
      rewrite Hi by lia. cbn. change (set_ha_child c1 _) with o1. by rewrite Hloop by lia. }
    destruct r as [l|f]; cbn [obind] in Hb.
    - destruct (Ho' l eq_refl) as (c2 & groups & order & Hs2 & Hg & ->).
      destruct (Close_ok c2) as (c3 & Hc3 & _). exists o1, c3, groups, order, s1.
      split_and!; [done|by intros ? [= <-]|]. intros fuel Hf. rewrite (Hb fuel Hf).
      unfold on_op, on_agg_child, zoomM, bindM. cbn. by rewrite Hc3.
    - exists o', c, ∅, [], s1. split_and!; [done|done|]. intros fuel Hf. by rewrite (Hb fuel Hf). }
  destruct r as [l|f]; cbn [obind runs_as].
  - exists (N + Datatypes.S (length (rows st)))%nat. intros s Hs.
    destruct (Hinit s Hs) as (_ & c3 & groups & order & s1 & Hs1 & Hg & Hi). specialize (Hg l eq_refl).
    eexists _, s1. split_and!; [exact Hi|done|done|].
    pose proof (HashAggregate_yields (mkHashAggregate c3 gb aggs out groups order 0) gb aggs
      (GetOutputSchema c) l eq_refl eq_refl Hg) as Hyo.
    cbn in Hyo. rewrite (go_order _ _ _ _ _ _ Hg) in Hyo at 2. eapply yields_le; [exact Hyo|lia].
  - exists (N + Datatypes.S (length (rows st)))%nat. intros s Hs.
    destruct (Hinit s Hs) as (o' & _ & _ & _ & s1 & Hs1 & _ & Hi). eauto.
Qed.

Lemma HashAggregate_produces (I : S → Prop) (c : C) gb aggs out l :
  produces I c (mkStream l None) →
  Forall (row_ok gb aggs (GetOutputSchema c)) l → Z.of_nat (length l) < 2 ^ 31 →
  produces I (HashAggregate_ctor c gb aggs out)
    (group_rows gb aggs (GetOutputSchema c) out l (group_order gb (GetOutputSchema c) l)).
Proof.
  intros Hp Hok Hlen. apply (HashAggregate_runs I c gb aggs out (Ok (mkStream l None)) (Ok _)); [exact Hp|].
  by apply agg_run_rows.
Qed.
End aggregate.
