(* ===== verification/Planner.v ===== *)
(** * The planner: [src/src/planner/planner.h], [planner.cpp]

    A plan is a tree of operators; a [std::unique_ptr<Operator>] is a value of
    the inductive [PlanOp], and the virtual calls on it dispatch to the instance
    of its constructor.  [Init] and [Next] go one level down the tree with
    operators whose state changes, so their dispatch is defined by recursion on a
    bound for the depth of the tree. *)
From stdpp Require Import base gmap list strings.
From Stdlib Require Import ZArith Lia Ascii.
From S2P Require Import Prelude Types PageCache HeapFile Catalog Ast Executor.

Inductive PlanOp : Type :=
  | P_SeqScan (o : SeqScan)
  | P_Filter (o : Filter PlanOp)
  | P_Projection (o : Projection PlanOp)
  | P_Sort (o : Sort PlanOp)
  | P_HashJoin (o : HashJoin PlanOp PlanOp)
  | P_HashAggregate (o : HashAggregate PlanOp).

(** The virtual [GetOutputSchema]. *)
Fixpoint plan_schema (o : PlanOp) : Schema :=
  match o with
  | P_SeqScan o => ss_output_schema o
  | P_Filter o => plan_schema (f_child o)
  | P_Projection o => p_output_schema o
  | P_Sort o => plan_schema (so_child o)
  | P_HashJoin o => hj_output_schema o
  | P_HashAggregate o => ha_output_schema o
  end.

(** Running a method of the object under a constructor. *)
Definition under {T A} (wrap : T → PlanOp) (m : M T A) (x : T) : PlanOp * outcome A :=
  let '(x', r) := m x in (wrap x', r).

(** The virtual [Close]. *)
Fixpoint plan_close (o : PlanOp) : PlanOp * outcome unit :=
  match o with
  | P_SeqScan x => under P_SeqScan SeqScan_Close x
  | P_Filter x =>
      let '(c, r) := plan_close (f_child x) in (P_Filter (mkFilter c (f_predicate x)), r)
  | P_Projection x =>
      let '(c, r) := plan_close (p_child x) in (P_Projection (set_p_child c x), r)
  | P_Sort x => under P_Sort Sort_Close x
  | P_HashJoin x => under P_HashJoin HashJoin_Close x
  | P_HashAggregate x => under P_HashAggregate HashAggregate_Close x
  end.

Section dispatch.
Context {S : Type} {PC : PageCache S} `{StdSort}.

Definition under_init {T A} (wrap : T → PlanOp) (m : M (T * S) A) (x : T) (s : S)
    : (PlanOp * S) * outcome A :=
  let '((x', s'), r) := m (x, s) in ((wrap x', s'), r).

Fixpoint plan_operator (depth : nat) : Operator S PlanOp :=
  match depth with
  | O => {| Init _ := faultM OutOfFuel; Next _ := faultM OutOfFuel;
            Close := plan_close; GetOutputSchema := plan_schema |}
  | Datatypes.S depth =>
      let child := plan_operator depth in
      {| Init fuel := λ '(o, s),
           match o with
           | P_SeqScan x => under_init P_SeqScan (Init fuel) x s
           | P_Filter x => under_init P_Filter (Init fuel) x s
           | P_Projection x => under_init P_Projection (Init fuel) x s
           | P_Sort x => under_init P_Sort (Init fuel) x s
           | P_HashJoin x => under_init P_HashJoin (Init fuel) x s
           | P_HashAggregate x => under_init P_HashAggregate (Init fuel) x s
           end;
         Next fuel := λ o,
           match o with
           | P_SeqScan x => under P_SeqScan (Next (S := S) fuel) x
           | P_Filter x => under P_Filter (Next (S := S) fuel) x
           | P_Projection x => under P_Projection (Next (S := S) fuel) x
           | P_Sort x => under P_Sort (Next (S := S) fuel) x
           | P_HashJoin x => under P_HashJoin (Next (S := S) fuel) x
           | P_HashAggregate x => under P_HashAggregate (Next (S := S) fuel) x
           end;
         Close := plan_close;
         GetOutputSchema := plan_schema |}
  end.
End dispatch.

(** ** The planner *)
Definition is_aggregate (e : Expr) : bool :=
  match e with Expr.AGGREGATE _ _ => true | _ => false end.
Definition HasAggregate (l : list SelectItem) : bool := existsb (is_aggregate ∘ si_expr) l.

(** [s.empty() ? t : s]. *)
Definition or_else (s t : string) : string := if str_eqb s "" then t else s.

Fixpoint build_projection_columns (l : list SelectItem) (input : Schema) : outcome (list Column) :=
  match l with
  | [] => Ok []
  | item :: l =>
      col <-! (match si_expr item with
               | Expr.COLUMN_REF alias col =>
                   idx <-! GetColumnIdx input (column_key alias col) ;;
                   c <-! GetColumn input idx ;;
                   Ok (mkColumn (or_else (si_alias item) col) (col_type c))
               | _ => Ok (mkColumn (or_else (si_alias item) "?") ColumnType_Int)
               end) ;;
      cols <-! build_projection_columns l input ;;
      Ok (col :: cols)
  end.
Definition BuildProjectionSchema (l : list SelectItem) (input : Schema) : outcome Schema :=
  cols <-! build_projection_columns l input ;; Ok (Schema_ctor cols).

(** [e->table_alias] and [e->col_name]: empty for other expressions. *)
Definition expr_column (e : Expr) : string * string :=
  match e with Expr.COLUMN_REF alias col => (alias, col) | _ => (""%string, ""%string) end.
Fixpoint group_columns (group_by : list Expr) (input : Schema) : outcome (list Column) :=
  match group_by with
  | [] => Ok []
  | e :: group_by =>
      let '(alias, col) := expr_column e in
      idx <-! GetColumnIdx input (column_key alias col) ;;
      c <-! GetColumn input idx ;;
      cols <-! group_columns group_by input ;;
      Ok (mkColumn col (col_type c) :: cols)
  end.
Definition BuildAggSchema (group_by : list Expr) (aggs : list AggExpr) (input : Schema)
    : outcome Schema :=
  cols <-! group_columns group_by input ;;
  Ok (Schema_ctor (cols ++ ((λ ae, mkColumn (ae_output_name ae) ColumnType_Int) <$> aggs))).

(** The aggregates of the select list. *)
Definition agg_expr (item : SelectItem) : list AggExpr :=
  match si_expr item with
  | Expr.AGGREGATE f arg =>
      [mkAggExpr f arg (bool_decide (arg = None)) (or_else (si_alias item) f)]
  | _ => []
  end.
Definition agg_exprs (l : list SelectItem) : list AggExpr := concat (agg_expr <$> l).

Section planner.
Context {S : Type} {PC : PageCache S} `{StdSort}.
Local Instance plan_op0 : Operator S PlanOp := plan_operator 0.

Definition plan_scan (c : Catalog) (table alias : string) : outcome PlanOp :=
  info <-! GetTable c table ;; Ok (P_SeqScan (SeqScan_ctor info (or_else alias table))).

Fixpoint plan_joins (c : Catalog) (plan : PlanOp) (js : list JoinClause) : outcome PlanOp :=
  match js with
  | [] => Ok plan
  | join :: js =>
      right <-! plan_scan c (j_table_name join) (j_alias join) ;;
      match j_condition join with
      | Expr.BINARY_OP op l r =>
          if str_eqb op "=" then
            plan_joins c (P_HashJoin (HashJoin_ctor (S := S) plan right l r)) js
          else Fault (Throw "Only equality join conditions are supported")
      | _ => Fault (Throw "Only equality join conditions are supported")
      end
  end.

Definition is_star_list (l : list SelectItem) : bool :=
  match l with [item] => bool_decide (si_expr item = Expr.STAR) | _ => false end.

(** [if (!stmt.order_by.empty()) plan = Sort(plan, items)]. *)
Definition plan_sort (items : list OrderByItem) (plan : PlanOp) : PlanOp :=
  match items with [] => plan | _ => P_Sort (Sort_ctor plan items) end.

Definition item_name (item : SelectItem) : string :=
  match si_expr item with
  | Expr.COLUMN_REF _ col => or_else (si_alias item) col
  | _ => si_alias item
  end.

Definition Plan (c : Catalog) (stmt : SelectStmt) : outcome PlanOp :=
  plan <-! plan_scan c (from_table stmt) (from_alias stmt) ;;
  plan <-! plan_joins c plan (joins stmt) ;;
  let plan := match where_clause stmt with
              | Some e => P_Filter (mkFilter plan e)
              | None => plan
              end in
  let is_star := is_star_list (select_list stmt) in
  if negb is_star && (HasAggregate (select_list stmt) || negb (bool_decide (group_by stmt = []))) then
    let aggs := agg_exprs (select_list stmt) in
    agg_schema <-! BuildAggSchema (group_by stmt) aggs (plan_schema plan) ;;
    Ok (plan_sort (order_by stmt)
          (P_HashAggregate (HashAggregate_ctor plan (group_by stmt) aggs agg_schema)))
  else if negb is_star then
    let plan := plan_sort (order_by stmt) plan in
    proj_schema <-! BuildProjectionSchema (select_list stmt) (plan_schema plan) ;;
    Ok (P_Projection (mkProjection plan (si_expr <$> select_list stmt)
                        (item_name <$> select_list stmt) proj_schema))
  else Ok (plan_sort (order_by stmt) plan).
End planner.

(** A bound for the depth of a plan: the scan, a level per join, and at most a
    filter, an aggregate or projection, and a sort. *)
Definition plan_depth (stmt : SelectStmt) : nat := 4 + length (joins stmt).

(** ** EXPLAIN *)
Fixpoint spaces (n : nat) : string :=
  match n with O => "" | Datatypes.S n => " " +:+ spaces n end.
Definition indent (depth : nat) : string := spaces (depth * 2).

(** The optional lines above the scans: each one indents what follows. *)
Fixpoint explain_lines (depth : nat) (lines : list (bool * string)) : string * nat :=
  match lines with
  | [] => (""%string, depth)
  | (true, name) :: lines =>
      let '(s, d) := explain_lines (Datatypes.S depth) lines in
      (indent depth +:+ name +:+ String "010"%char EmptyString +:+ s, d)
  | (false, _) :: lines => explain_lines depth lines
  end.
Definition explain_scan (depth : nat) (table : string) : string :=
  indent depth +:+ "SeqScan [" +:+ table +:+ "]" +:+ String "010"%char EmptyString.
Definition Explain (stmt : SelectStmt) : string :=
  let has_agg := HasAggregate (select_list stmt) || negb (bool_decide (group_by stmt = [])) in
  let is_star := is_star_list (select_list stmt) in
  let has_joins := negb (bool_decide (length (joins stmt) = 0%nat)) in
  let '(s, depth) := explain_lines 0
    [(negb (bool_decide (length (order_by stmt) = 0%nat)), "Sort"%string);
     (has_agg, "HashAggregate"%string);
     (negb has_agg && negb is_star, "Projection"%string);
     (bool_decide (is_Some (where_clause stmt)), "Filter"%string);
     (has_joins, "HashJoin"%string)] in
  s +:+ explain_scan depth (from_table stmt) +:+
  foldr (λ j acc, explain_scan depth (j_table_name j) +:+ acc) ""%string (joins stmt).
