(* ===== verification/PlannerSpec.v ===== *)
(** * Plans and their streams

    Dispatching through a plan tree adds nothing to an operator: each
    constructor runs as its operator runs on its children.  The relational
    meaning of the operators on lists of rows ([ref_filter], [ref_join], ...) is
    what their streams are when nothing fails. *)
From stdpp Require Import base gmap list strings sorting.
From Stdlib Require Import ZArith Lia Ascii.
From S2P Require Import Prelude Types PageCache HeapFile HeapFileSpec Catalog Ast Executor ExecutorSpec ExecutorSort ExecutorJoin ExecutorAggregate Planner.

(** ** Closing a plan *)
Definition closes (o : PlanOp) : Prop :=
  ∃ o', plan_close o = (o', Ok tt) ∧ plan_schema o' = plan_schema o.
Lemma plan_close_ok : ∀ o, closes o.
Proof.
  fix IH 1. intros [o|[c p]|[c e n s]|o|o|o]; unfold closes; cbn.
  - by eexists.
  - destruct (IH c) as (c' & -> & Hs). eexists. split; [done|exact Hs].
  - destruct (IH c) as (c' & -> & Hs). by eexists.
  - by eexists.
  - by eexists.
  - by eexists.
Qed.

Section lift.
Context {S : Type} {PC : PageCache S} `{StdSort}.
Local Abbreviation plan_yields d := (@yields S PlanOp (plan_operator d)).
Local Abbreviation plan_runs_as d := (@runs_as S PlanOp (plan_operator d)).

#[global] Instance plan_laws d : OperatorLaws S PlanOp (H := plan_operator d).
Proof. intros o. destruct d; exact (plan_close_ok o). Qed.

Lemma plan_operator_schema d o : @GetOutputSchema S PlanOp (plan_operator d) o = plan_schema o.
Proof. by destruct d. Qed.

(** An operator under its constructor. *)
Section wrapped.
Context {T : Type} `{opT : !Operator S T} (d : nat) (wrap : T → PlanOp).
Hypothesis wrap_Init : ∀ fuel x s,
  @Init S PlanOp (plan_operator d) fuel (wrap x, s) = under_init wrap (Init fuel) x s.
Hypothesis wrap_Next : ∀ fuel x,
  @Next S PlanOp (plan_operator d) fuel (wrap x) = under wrap (Next (S := S) fuel) x.
Hypothesis wrap_schema : ∀ x, plan_schema (wrap x) = GetOutputSchema x.

Lemma wrapped_yields N x st : yields N x st → plan_yields d N (wrap x) st.
Proof.
  induction 1 as [o o' Hn Hs|o o' f Hn|o o' t st Hn Hs Hy IH].
  - apply (yields_end _ _ (wrap o')).
    + intros fuel Hf. rewrite wrap_Next. unfold under. by rewrite (Hn fuel Hf).
    + rewrite !plan_operator_schema, !wrap_schema. done.
  - apply (yields_fault _ _ (wrap o')). intros fuel Hf. rewrite wrap_Next. unfold under.
    by rewrite (Hn fuel Hf).
  - apply (yields_row _ _ (wrap o')); [| |exact IH].
    + intros fuel Hf. rewrite wrap_Next. unfold under. by rewrite (Hn fuel Hf).
    + rewrite !plan_operator_schema, !wrap_schema. done.
Qed.
Lemma wrapped_runs I x r : runs_as I x r → plan_runs_as d I (wrap x) r.
Proof.
  destruct r as [st|f]; intros [N Hp]; exists N; intros s Hs.
  - destruct (Hp s Hs) as (x' & s' & Hi & Hs' & Hsch & Hy). exists (wrap x'), s'.
    split_and!; [|done| |by apply wrapped_yields].
    { intros fuel Hf. rewrite wrap_Init. unfold under_init. by rewrite Hi. }
    rewrite !plan_operator_schema, !wrap_schema. done.
  - destruct (Hp s Hs) as (x' & s' & Hi & Hs'). exists (wrap x'), s'. split; [|done].
    intros fuel Hf. rewrite wrap_Init. unfold under_init. by rewrite Hi.
Qed.
End wrapped.

Section constructors.
Context (I : S → Prop) (d : nat).
Local Instance child : Operator S PlanOp := plan_operator d.

Lemma runs_SeqScan x r : runs_as I x r → plan_runs_as (Datatypes.S d) I (P_SeqScan x) r.
Proof. by apply wrapped_runs. Qed.
Lemma runs_Filter x r :
  @runs_as _ _ (Filter_Operator (H := child)) I x r → plan_runs_as (Datatypes.S d) I (P_Filter x) r.
Proof.
  apply wrapped_runs; [done|done|]. intros y. exact (eq_sym (plan_operator_schema d (f_child y))).
Qed.
Lemma runs_Projection x r :
  @runs_as _ _ (Projection_Operator (H := child)) I x r →
  plan_runs_as (Datatypes.S d) I (P_Projection x) r.
Proof. by apply wrapped_runs. Qed.
Lemma runs_Sort x r :
  @runs_as _ _ (Sort_Operator (H := child)) I x r → plan_runs_as (Datatypes.S d) I (P_Sort x) r.
Proof.
  apply wrapped_runs; [done|done|]. intros y. exact (eq_sym (plan_operator_schema d (so_child y))).
Qed.
Lemma runs_HashJoin x r :
  @runs_as _ _ (HashJoin_Operator (H := child) (H0 := child)) I x r →
  plan_runs_as (Datatypes.S d) I (P_HashJoin x) r.
Proof. by apply wrapped_runs. Qed.
Lemma runs_HashAggregate x r :
  @runs_as _ _ (HashAggregate_Operator (H := child)) I x r →
  plan_runs_as (Datatypes.S d) I (P_HashAggregate x) r.
Proof. by apply wrapped_runs. Qed.
End constructors.
End lift.

(** ** Relational meaning *)

(** A computation for every element; the first fault ends it. *)
Fixpoint oall {A B} (f : A → outcome B) (l : list A) : outcome (list B) :=
  match l with
  | [] => Ok []
  | x :: l => y <-! f x ;; ys <-! oall f l ;; Ok (y :: ys)
  end.
Lemma oall_Forall2 {A B} (f : A → outcome B) l r :
  oall f l = Ok r ↔ Forall2 (λ x y, f x = Ok y) l r.
Proof.
  revert r. induction l as [|x l IH]; intros r; cbn.
  { split; [intros [= <-]; constructor|by inversion 1]. }
  split.
  - intros (y & Hy & (ys & Hys & [= <-])%obind_Ok_inv)%obind_Ok_inv. constructor; [done|by apply IH].
  - inversion 1 as [|? y ? ys Hy Hys]; subst. rewrite Hy. cbn. by rewrite (proj2 (IH ys) Hys).
Qed.
Lemma oall_perm {A B} (f : A → outcome B) l l' r :
  l ≡ₚ l' → oall f l = Ok r → ∃ r', oall f l' = Ok r' ∧ r ≡ₚ r'.
Proof.
  intros Hp Hr%oall_Forall2. destruct (Permutation_Forall2 Hp Hr) as (r' & ? & ?).
  exists r'. by rewrite oall_Forall2.
Qed.

Definition ref_filter (p : Expr) (sch : Schema) (l : list Tuple) : outcome (list Tuple) :=
  bs <-! oall (λ t, b <-! EvalPred p t sch ;; Ok (t, b)) l ;;
  Ok (List.filter snd bs).*1.
Lemma ref_filter_stream p sch l fail l' :
  (fail = None ∧ ref_filter p sch l = Ok l') ↔ filter_rows p sch l fail = mkStream l' None.
Proof.
  unfold ref_filter. revert l'. induction l as [|t l IH]; intros l'; cbn.
  { split; [by intros [-> [= <-]]|by intros [= <- ->]]. }
  destruct (EvalPred p t sch) as [b|f]; cbn; [|by split; [intros []|]].
  destruct (oall _ l) as [bs|f] eqn:E; cbn in *.
  - destruct b; cbn; [|by apply IH]. split.
    + intros [-> [= <-]]. by rewrite (proj1 (IH _) (conj eq_refl eq_refl)).
    + destruct (filter_rows p sch l fail) as [l2 fl] eqn:E2. intros [= <- ->].
      destruct (proj2 (IH l2) eq_refl) as [-> [= <-]]. done.
  - split; [by intros []|]. destruct (filter_rows p sch l fail) as [l2 fl] eqn:E2.
    destruct b; intros [= <- ->]; by destruct (proj2 (IH l2) eq_refl).
Qed.

Definition ref_project (exprs : list Expr) (sch out : Schema) : list Tuple → outcome (list Tuple) :=
  oall (project_row exprs sch out).
Lemma ref_project_stream exprs sch out l fail l' :
  (fail = None ∧ ref_project exprs sch out l = Ok l') ↔
  project_rows exprs sch out l fail = mkStream l' None.
Proof.
  unfold ref_project. revert l'. induction l as [|t l IH]; intros l'; cbn.
  { split; [by intros [-> [= <-]]|by intros [= <- ->]]. }
  destruct (project_row exprs sch out t) as [t'|f]; cbn; [|by split; [intros []|]].
  split.
  - intros [-> (ys & Hys & [= <-])%obind_Ok_inv]. by rewrite (proj1 (IH ys) (conj eq_refl Hys)).
  - destruct (project_rows exprs sch out l fail) as [l2 fl] eqn:E2. intros [= <- ->].
    destruct (proj2 (IH l2) eq_refl) as [-> ->]. done.
Qed.

(** The pairs of a left and a right row with the same non-empty key, ordered by
    the right row. *)
Definition keyed (key : Expr) (sch : Schema) : list Tuple → outcome (list (string * Tuple)) :=
  oall (λ t, k <-! key_string key t sch ;; Ok (k, t)).
Definition same_key (l r : string * Tuple) : bool := str_eqb l.1 r.1 && negb (str_eqb r.1 "").
Definition join_pairs (lrows rrows : list (string * Tuple)) : list (Tuple * Tuple) :=
  concat ((λ r, (λ l, (l.2, r.2)) <$> List.filter (λ l, same_key l r) lrows) <$> rrows).
Definition ref_join (lk rk : Expr) (ls rs : Schema) (lrows rrows : list Tuple)
    : outcome (list Tuple) :=
  kl <-! keyed lk ls lrows ;;
  kr <-! keyed rk rs rrows ;;
  oall (λ p, Concat p.1 p.2 ls rs) (join_pairs kl kr).

Lemma keyed_build lk ls lrows ht :
  (∃ kl, keyed lk ls lrows = Ok kl) ↔ ∃ ht', build_table lk ls lrows ht = Ok ht'.
Proof.
  revert ht. induction lrows as [|t l IH]; intros ht; cbn; [by split; eauto|].
  destruct (key_string lk t ls) as [k|f]; cbn; [|by split; intros []].
  rewrite <- IH. split.
  - intros (kl & (kl' & Hk & _)%obind_Ok_inv). eauto.
  - intros (kl & Hk). unfold keyed in *. rewrite Hk. cbn. eauto.
Qed.
Lemma keyed_matches lk ls lrows kl k t :
  keyed lk ls lrows = Ok kl →
  matches lk ls lrows k = (List.filter (λ l, same_key l (k, t)) kl).*2.
Proof.
  intros H%oall_Forall2. unfold matches, same_key. cbn. destruct (str_eqb k "") eqn:E.
  - clear H. induction kl as [|x kl IH]; [done|]. cbn. by rewrite andb_false_r.
  - unfold rows_with_key. induction H as [|u [k' u'] l kl Hu _ IH]; [done|]. cbn.
    apply obind_Ok_inv in Hu as (k2 & -> & [= <- <-]). rewrite andb_true_r.
    destruct (str_eqb k2 k); cbn; by rewrite IH.
Qed.
Lemma join_bucket_ok bucket r ls rs rest out :
  join_bucket bucket r ls rs rest = mkStream out None ↔
  ∃ out1 out2, oall (λ l, Concat l r ls rs) bucket = Ok out1 ∧ rest = mkStream out2 None ∧ out = out1 ++ out2.
Proof.
  revert out. induction bucket as [|l bucket IH]; intros out; cbn.
  { split; [intros ->; by exists [], out|by intros (? & ? & [= <-] & -> & ->)]. }
  destruct (Concat l r ls rs) as [t|f]; cbn; [|by split; [|intros (? & ? & ? & _)]].
  split.
  - destruct (join_bucket _ _ _ _ _) as [l2 fl] eqn:E. intros [= <- ->].
    destruct (proj1 (IH l2) eq_refl) as (o1 & o2 & -> & -> & ->). by exists (t :: o1), o2.
  - intros (o1 & o2 & (ys & Hys & [= <-])%obind_Ok_inv & -> & ->).
    rewrite (proj2 (IH (ys ++ o2))); [done|]. by exists ys, o2.
Qed.
Lemma oall_app {A B} (f : A → outcome B) l k r :
  oall f (l ++ k) = Ok r ↔ ∃ r1 r2, r = r1 ++ r2 ∧ oall f l = Ok r1 ∧ oall f k = Ok r2.
Proof.
  split.
  - intros (r1 & r2 & H1 & H2 & ->)%oall_Forall2%Forall2_app_inv_l.
    exists r1, r2. by rewrite !oall_Forall2.
  - intros (r1 & r2 & -> & H1%oall_Forall2 & H2%oall_Forall2). apply oall_Forall2. by apply Forall2_app.
Qed.
Lemma oall_fmap {A B C} (f : B → outcome C) (g : A → B) l : oall f (g <$> l) = oall (f ∘ g) l.
Proof. induction l as [|x l IH]; [done|]. cbn. by rewrite IH. Qed.

Lemma ref_join_stream lk rk ls rs lrows rrows out :
  ref_join lk rk ls rs lrows rrows = Ok out ↔
  (∃ ht, build_table lk ls lrows ∅ = Ok ht) ∧
  join_rows lk rk ls rs lrows rrows = mkStream out None.
Proof.
  rewrite <- (keyed_build lk ls lrows ∅). unfold ref_join.
  destruct (keyed lk ls lrows) as [kl|f] eqn:Hkl; cbn [obind]; [|by split; [|intros [[] ?]]].
  trans (join_rows lk rk ls rs lrows rrows = mkStream out None); [|by split; [eauto|intros []]].
  revert out. induction rrows as [|t rrows IH]; intros out; cbn.
  { by split; intros [= <-]. }
  destruct (key_string rk t rs) as [k|f]; cbn; [|done].
  rewrite (keyed_matches lk ls lrows kl k t Hkl), join_bucket_ok. unfold keyed in IH |- *.
  destruct (oall _ rrows) as [kr|f]; cbn [obind] in *.
  - unfold join_pairs. cbn [fmap list_fmap concat]. rewrite oall_app, oall_fmap. split.
    + intros (o1 & o2 & -> & H1 & H2%IH). exists o1, o2. split_and!; [|done|done].
      by rewrite oall_fmap.
    + intros (o1 & o2 & H1 & H2%IH & ->). exists o1, o2. split_and!; [done| |done].
      by rewrite oall_fmap in H1.
  - split; [done|]. intros (o1 & o2 & _ & H2%IH & _). done.
Qed.

(** GROUP BY: a row per group, in the order the groups appear. *)
Definition ref_aggregate (gb : list Expr) (aggs : list AggExpr) (sch out : Schema) (l : list Tuple)
    : outcome (list Tuple) :=
  oall (λ k, group_row gb aggs sch out (members gb sch k l)) (group_order gb sch l).
Lemma ref_aggregate_stream gb aggs sch out l l' :
  ref_aggregate gb aggs sch out l = Ok l' ↔
  group_rows gb aggs sch out l (group_order gb sch l) = mkStream l' None.
Proof.
  unfold ref_aggregate. revert l'. induction (group_order gb sch l) as [|k keys IH]; intros l'; cbn.
  { by split; intros [= <-]. }
  destruct (group_row _ _ _ _ _) as [t|f]; cbn; [|done]. split.
  - intros (ys & Hys & [= <-])%obind_Ok_inv. by rewrite (proj1 (IH ys) Hys).
  - destruct (group_rows _ _ _ _ _ _) as [l2 fl]. intros [= <- ->]. by rewrite (proj2 (IH l2) eq_refl).
Qed.

(** ORDER BY: equal keys may come in any order. *)
Definition sorts (items : list OrderByItem) (sch : Schema) (l l' : list Tuple) : Prop :=
  match items with
  | [] => l' = l
  | _ => sortable items sch l ∧ l ≡ₚ l' ∧ StronglySorted (λ a b, rows_cmp items sch a b ≠ Gt) l'
  end.
Lemma sorts_perm items sch l l' : sorts items sch l l' → l ≡ₚ l'.
Proof. destruct items; [by intros ->|by intros (_ & ? & _)]. Qed.
