(* ===== verification/QueryExec.v ===== *)
(** * Running a query

    What a SELECT statement does on tables given as lists of rows, failures
    included: the schema and the run of every operator of its plan as functions
    and relations on runs ([query_exec]), and the faults it can end in
    ([query_fails]).  Each operator of a plan has the run that this reference
    says. *)
From stdpp Require Import base gmap list strings sorting.
From Stdlib Require Import ZArith Lia Ascii.
From S2P Require Import Prelude Types PageCache HeapFile HeapFileSpec Catalog Ast Executor ExecutorSpec ExecutorSort ExecutorJoin ExecutorAggregate Planner PlannerSpec.

Abbreviation relation := (Schema * list Tuple)%type.
(** A schema and the run of the operator that has it. *)
Abbreviation execution := (Schema * outcome stream)%type.

(** The abstract database: a schema and a list of rows per table name. *)
Abbreviation abs_db := (gmap string (Schema * list Tuple)).

(** The run that hands out [l]. *)
Definition rows_run (l : list Tuple) : outcome stream := Ok (mkStream l None).
#[export] Instance rows_run_inj : Inj (=) (=) rows_run.
Proof. by intros l l' [=]. Qed.
(** Every row of a run, for an operator that reads it to the end. *)
Definition read_all (x : outcome stream) : outcome (list Tuple) := st <-! x ;; ended st.

Section source.
Context (db : abs_db).

Definition ref_table (table : string) : outcome relation :=
  match db !! table with
  | Some r => Ok r
  | None => Fault (Throw ("Table not found: " +:+ table))
  end.
Definition ref_scan (table alias : string) : outcome relation :=
  r <-! ref_table table ;; Ok (MakeOutputSchema r.1 (or_else alias table), r.2).
Definition equi_keys (e : Expr) : option (Expr * Expr) :=
  match e with
  | Expr.BINARY_OP op l r => if str_eqb op "=" then Some (l, r) else None
  | _ => None
  end.

(** The outer outcome is that of planning, the run that of the operator. *)
Definition exec_scan (table alias : string) : outcome execution :=
  r <-! ref_scan table alias ;; Ok (r.1, rows_run r.2).
Fixpoint exec_joins (x : execution) (js : list JoinClause) : outcome execution :=
  match js with
  | [] => Ok x
  | j :: js =>
      right <-! exec_scan (j_table_name j) (j_alias j) ;;
      match equi_keys (j_condition j) with
      | Some (lk, rk) =>
          exec_joins (ConcatSchemas x.1 right.1, join_run lk rk x.1 right.1 x.2 right.2) js
      | None => Fault (Throw "Only equality join conditions are supported")
      end
  end.
Definition exec_where (w : option Expr) (x : execution) : execution :=
  match w with
  | Some e => (x.1, on_stream (filter_rows e x.1) x.2)
  | None => x
  end.
(** FROM, JOIN and WHERE. *)
Definition exec_source (stmt : SelectStmt) : outcome execution :=
  x <-! exec_scan (from_table stmt) (from_alias stmt) ;;
  x <-! exec_joins x (joins stmt) ;;
  Ok (exec_where (where_clause stmt) x).
End source.

Definition aggregates (stmt : SelectStmt) : bool :=
  HasAggregate (select_list stmt) || negb (bool_decide (group_by stmt = [])).
(** The schema of the result, which planning computes. *)
Definition select_columns (stmt : SelectStmt) (sch : Schema) : outcome Schema :=
  if is_star_list (select_list stmt) then Ok sch
  else if aggregates stmt then BuildAggSchema (group_by stmt) (agg_exprs (select_list stmt)) sch
  else BuildProjectionSchema (select_list stmt) sch.
Definition query_schema (db : abs_db) (stmt : SelectStmt) : outcome Schema :=
  x <-! exec_source db stmt ;; select_columns stmt x.1.

(** ORDER BY: sorted rows; or the fault of the child; or, when no two of at least
    two rows can be compared, the fault of the comparisons. *)
Inductive sorts_run (items : list OrderByItem) (sch : Schema) : outcome stream → outcome stream → Prop :=
  | sr_none x : items = [] → sorts_run items sch x x
  | sr_child x f : items ≠ [] → read_all x = Fault f → sorts_run items sch x (Fault f)
  | sr_sorted x l l' :
      items ≠ [] → read_all x = Ok l → sorts items sch l l' → sorts_run items sch x (rows_run l')
  | sr_uncomparable x l f :
      items ≠ [] → read_all x = Ok l → (2 ≤ length l)%nat →
      (∀ a b, a ∈ l → b ∈ l → sort_less items sch a b = Fault f) → sorts_run items sch x (Fault f).

Inductive query_exec (db : abs_db) (stmt : SelectStmt) : Schema → outcome stream → Prop :=
  | qx_aggregate sch src out x x' :
      exec_source db stmt = Ok (sch, src) →
      is_star_list (select_list stmt) = false → aggregates stmt = true →
      select_columns stmt sch = Ok out →
      agg_run (group_by stmt) (agg_exprs (select_list stmt)) sch out src x →
      sorts_run (order_by stmt) out x x' → query_exec db stmt out x'
  | qx_project sch src out x :
      exec_source db stmt = Ok (sch, src) →
      is_star_list (select_list stmt) = false → aggregates stmt = false →
      select_columns stmt sch = Ok out → sorts_run (order_by stmt) sch src x →
      query_exec db stmt out (on_stream (project_rows (si_expr <$> select_list stmt) sch out) x)
  | qx_star sch src x :
      exec_source db stmt = Ok (sch, src) →
      is_star_list (select_list stmt) = true → sorts_run (order_by stmt) sch src x →
      query_exec db stmt sch x.

(** How a query fails: in the planner, in [Init] or in a [Next]. *)
Inductive query_fails (db : abs_db) (stmt : SelectStmt) (f : fault) : Prop :=
  | qf_plan : query_schema db stmt = Fault f → query_fails db stmt f
  | qf_run out x : query_exec db stmt out x → run_failure x = Some f → query_fails db stmt f.

(** The catalog has the tables of [db], and the pages [st] hold their rows. *)
Definition tables_stored (c : Catalog) (db : abs_db) (st : pages) : Prop :=
  ∀ name, match tables_ c !! name with
    | Some info => ∃ ps, heap_rep (ti_heap_file info) st ps ∧
                     db !! name = Some (ti_schema info, (chain_entries ps).*2)
    | None => db !! name = None
    end.

(** ** The two halves of [Plan] *)
Section halves.
Context {S : Type} {PC : PageCache S} `{StdSort}.
Definition plan_source (c : Catalog) (stmt : SelectStmt) : outcome PlanOp :=
  plan <-! plan_scan c (from_table stmt) (from_alias stmt) ;;
  plan <-! plan_joins (S := S) c plan (joins stmt) ;;
  Ok (match where_clause stmt with Some e => P_Filter (mkFilter plan e) | None => plan end).
Definition plan_select (stmt : SelectStmt) (plan : PlanOp) : outcome PlanOp :=
  out <-! select_columns stmt (plan_schema plan) ;;
  if is_star_list (select_list stmt) then Ok (plan_sort (order_by stmt) plan)
  else if aggregates stmt then
    Ok (plan_sort (order_by stmt) (P_HashAggregate
      (HashAggregate_ctor plan (group_by stmt) (agg_exprs (select_list stmt)) out)))
  else Ok (P_Projection (mkProjection (plan_sort (order_by stmt) plan) (si_expr <$> select_list stmt)
             (item_name <$> select_list stmt) out)).
Lemma plan_sort_schema items plan : plan_schema (plan_sort items plan) = plan_schema plan.
Proof. by destruct items. Qed.
Lemma Plan_halves c stmt : Plan (S := S) c stmt = (plan <-! plan_source c stmt ;; plan_select stmt plan).
Proof.
  unfold Plan, plan_source, plan_select, select_columns.
  destruct (plan_scan _ _ _) as [scan|]; cbn [obind]; [|done].
  destruct (plan_joins _ _ _) as [plan|]; cbn [obind]; [|done].
  fold (aggregates stmt). rewrite !plan_sort_schema.
  destruct (is_star_list _), (aggregates stmt); done.
Qed.
End halves.

(** ** Plans run as the reference says *)
Section plans.
Context {S : Type} {PC : PageCache S} {PCS : PageCacheSpec S} `{StdSort} `{!StdSortSpec}.
Context (st : pages) (pins : pinmap) (cap : nat).

(** The plan, run at any depth of [k] or more, has the execution [x]. *)
Definition plan_execs (k : nat) (plan : PlanOp) (x : execution) : Prop :=
  plan_schema plan = x.1 ∧
  ∀ d, (k ≤ d)%nat → @runs_as S PlanOp (plan_operator d) (stored st pins cap) plan x.2.

Lemma plan_execs_le k k' plan x : plan_execs k plan x → (k ≤ k')%nat → plan_execs k' plan x.
Proof. intros [Hs Hp] Hle. split; [done|]. intros d Hd. apply Hp. lia. Qed.

(** One more level. *)
Lemma plan_execs_S k plan x :
  plan_schema plan = x.1 →
  (∀ d, (k ≤ d)%nat →
    @runs_as S PlanOp (plan_operator (Datatypes.S d)) (stored st pins cap) plan x.2) →
  plan_execs (Datatypes.S k) plan x.
Proof. intros Hs Hp. split; [done|]. intros [|d] Hd; [lia|]. apply Hp. lia. Qed.

Lemma join_execs k lplan rplan lk rk lx rx :
  plan_execs k lplan lx → plan_execs k rplan rx →
  plan_execs (Datatypes.S k) (P_HashJoin (HashJoin_ctor (H := plan_operator 0) (H0 := plan_operator 0)
    lplan rplan lk rk)) (ConcatSchemas lx.1 rx.1, join_run lk rk lx.1 rx.1 lx.2 rx.2).
Proof.
  intros [Hls Hlp] [Hrs Hrp].
  apply plan_execs_S; [cbn; by rewrite Hls, Hrs|]. intros d Hd. apply runs_HashJoin.
  cbn [snd]. rewrite <- Hls, <- Hrs. rewrite <- !(plan_operator_schema d).
  replace (HashJoin_ctor lplan rplan lk rk) with
    (HashJoin_ctor (H := plan_operator d) (H0 := plan_operator d) lplan rplan lk rk).
  - apply HashJoin_runs; [by apply Hlp|by apply Hrp].
  - unfold HashJoin_ctor. by rewrite !plan_operator_schema.
Qed.

Lemma filter_execs k plan x p :
  plan_execs k plan x →
  plan_execs (Datatypes.S k) (P_Filter (mkFilter plan p)) (x.1, on_stream (filter_rows p x.1) x.2).
Proof.
  intros [Hs Hp]. apply plan_execs_S; [done|]. intros d Hd. apply runs_Filter.
  cbn [snd]. rewrite <- Hs, <- (plan_operator_schema d plan). apply Filter_runs. by apply Hp.
Qed.
Lemma where_execs k plan x w :
  plan_execs k plan x →
  plan_execs (Datatypes.S k)
    (match w with Some e => P_Filter (mkFilter plan e) | None => plan end) (exec_where w x).
Proof.
  destruct w as [e|]; cbn [exec_where]; [apply filter_execs|]. intros Hp. eapply plan_execs_le; [exact Hp|lia].
Qed.

Lemma aggregate_execs k plan sch x gb aggs out x' :
  plan_execs k plan (sch, x) → agg_run gb aggs sch out x x' →
  plan_execs (Datatypes.S k) (P_HashAggregate (HashAggregate_ctor plan gb aggs out)) (out, x').
Proof.
  intros [Hs Hp] Ha. apply plan_execs_S; [done|]. intros d Hd. apply runs_HashAggregate.
  cbn [fst snd] in *. subst sch. rewrite <- (plan_operator_schema d plan) in Ha.
  eapply HashAggregate_runs; [by apply Hp|done].
Qed.

Lemma project_execs k plan sch x exprs names out :
  plan_execs k plan (sch, x) →
  plan_execs (Datatypes.S k) (P_Projection (mkProjection plan exprs names out))
    (out, on_stream (project_rows exprs sch out) x).
Proof.
  intros [Hs Hp]. apply plan_execs_S; [done|]. intros d Hd. apply runs_Projection.
  cbn [fst snd] in *. rewrite <- Hs, <- (plan_operator_schema d plan). apply Projection_runs. by apply Hp.
Qed.

(** [std::sort] may choose another order of equal rows. *)
Definition same_rows (x x' : outcome stream) : Prop :=
  x = x' ∨ ∃ l l', x = rows_run l ∧ x' = rows_run l' ∧ l ≡ₚ l'.

Lemma sort_execs k plan sch x items x0 :
  plan_execs k plan (sch, x) → sorts_run items sch x x0 →
  ∃ x', sorts_run items sch x x' ∧ same_rows x0 x' ∧
    plan_execs (Datatypes.S k) (plan_sort items plan) (sch, x').
Proof.
  intros Hr Hs.
  assert (items ≠ [] → ∀ x', (l <-! read_all x ;; l' <-! std_sort (sort_less items sch) l ;;
    Ok (mkStream l' None)) = x' → plan_execs (Datatypes.S k) (plan_sort items plan) (sch, x')) as Hsort.
  { intros Hi x' <-. destruct items as [|i items]; [done|]. destruct Hr as [Hsch Hp].
    apply plan_execs_S; [done|]. intros d Hd. apply runs_Sort. cbn [fst snd] in *.
    specialize (Hp d Hd). apply (Sort_runs _ plan (i :: items)) in Hp.
    rewrite plan_operator_schema, Hsch in Hp. unfold sort_run, read_all in *. by destruct x. }
  destruct Hs as [x Hi|x f Hi Hx|x l l' Hi Hx Hs|x l f Hi Hx Hlen Hf].
  - subst items. exists x. split_and!; [by constructor|by left|]. eapply plan_execs_le; [exact Hr|lia].
  - exists (Fault f). split_and!; [by apply sr_child|by left|]. apply Hsort; [done|]. by rewrite Hx.
  - pose proof Hs as Hs'. destruct items as [|i items]; [done|]. destruct Hs' as (Hsb & Hpm & _).
    destruct (std_sort_rows _ _ _ Hsb) as (l2 & Hl2 & Hpm2 & Hss). exists (rows_run l2). split_and!.
    + by eapply sr_sorted.
    + right. exists l', l2. split_and!; [done..|]. by rewrite <- Hpm, <- Hpm2.
    + apply Hsort; [done|]. rewrite Hx. cbn [obind]. by rewrite Hl2.
  - exists (Fault f). split_and!; [by eapply sr_uncomparable|by left|]. apply Hsort; [done|].
    rewrite Hx. cbn [obind]. by rewrite (std_sort_compares _ l f Hlen Hf).
Qed.

Section source_plans.
Hypotheses (Hlow : pins_low pins) (Hcap : (size pins < cap)%nat).
Lemma scan_execs c db table alias :
  tables_stored c db st →
  match exec_scan db table alias with
  | Ok x => ∃ plan, plan_scan c table alias = Ok plan ∧ plan_execs 1 plan x
  | Fault f => plan_scan c table alias = Fault f
  end.
Proof.
  unfold exec_scan, ref_scan, ref_table, plan_scan, GetTable. intros Ht. specialize (Ht table).
  destruct (tables_ c !! table) as [info|]; [|by rewrite Ht].
  destruct Ht as (ps & Hrep & ->). cbn. eexists. split; [done|].
  apply plan_execs_S; [done|]. intros d _. apply runs_SeqScan. by apply SeqScan_produces.
Qed.

Lemma joins_exec c db plan x js k :
  tables_stored c db st → (1 ≤ k)%nat → plan_execs k plan x →
  match exec_joins db x js with
  | Ok x' => ∃ plan', plan_joins (S := S) c plan js = Ok plan' ∧ plan_execs (k + length js) plan' x'
  | Fault f => plan_joins (S := S) c plan js = Fault f
  end.
Proof.
  intros Ht. revert plan x k. induction js as [|j js IH]; intros plan x k Hk Hp; cbn [exec_joins plan_joins].
  { exists plan. rewrite Nat.add_0_r. done. }
  pose proof (scan_execs c db (j_table_name j) (j_alias j) Ht) as Hsc.
  destruct (exec_scan db _ _) as [right|f]; cbn [obind]; [|by rewrite Hsc].
  destruct Hsc as (rplan & -> & Hrp). cbn [obind].
  destruct (j_condition j) as [| | |op l r2| | |]; try done. cbn [equi_keys].
  destruct (str_eqb op "="); [|done].
  cbn [length]. rewrite Nat.add_succ_r, <- Nat.add_succ_l. apply IH; [lia|].
  apply (join_execs k plan rplan l r2 x right Hp). by eapply plan_execs_le.
Qed.

(** FROM, JOIN and WHERE. *)
Lemma source_execs c db stmt :
  tables_stored c db st →
  match exec_source db stmt with
  | Ok x => ∃ plan, plan_source (S := S) c stmt = Ok plan ∧ plan_execs (2 + length (joins stmt)) plan x
  | Fault f => plan_source (S := S) c stmt = Fault f
  end.
Proof.
  intros Ht. unfold exec_source, plan_source.
  pose proof (scan_execs c db (from_table stmt) (from_alias stmt) Ht) as Hsc.
  destruct (exec_scan db _ _) as [x1|f]; cbn [obind]; [|by rewrite Hsc].
  destruct Hsc as (scan & -> & Hx1). cbn [obind].
  pose proof (joins_exec c db scan x1 (joins stmt) 1 Ht (le_n 1) Hx1) as Hj.
  destruct (exec_joins db _ _) as [x2|f]; cbn [obind]; [|by rewrite Hj].
  destruct Hj as (plan & -> & Hx2). cbn [obind]. eexists. split; [done|]. by apply where_execs.
Qed.
End source_plans.
End plans.
