(* ===== verification/QuerySpec.v ===== *)
(** * The meaning of SELECT, and plans that compute it

    [query_result] says which rows a SELECT statement may return, in terms of
    the rows of the tables: scans, joins, filter, grouping, order and projection
    as functions and relations on lists.  It is what [query_exec] says of runs
    that do not fail ([query_result_exec]); the planner's plans return such a
    result, or fail as [query_fails] says. *)
From stdpp Require Import base gmap list strings sorting.
From Stdlib Require Import ZArith Lia Ascii.
From S2P Require Import Prelude Types PageCache HeapFile HeapFileSpec Catalog Ast Executor ExecutorSpec ExecutorSort ExecutorJoin ExecutorAggregate Planner PlannerSpec QueryExec.

Section reference.
Context (db : abs_db).

Fixpoint ref_joins (r : relation) (js : list JoinClause) : outcome relation :=
  match js with
  | [] => Ok r
  | j :: js =>
      right <-! ref_scan db (j_table_name j) (j_alias j) ;;
      match equi_keys (j_condition j) with
      | Some (lk, rk) =>
          rows <-! ref_join lk rk r.1 right.1 r.2 right.2 ;;
          ref_joins (ConcatSchemas r.1 right.1, rows) js
      | None => Fault (Throw "Only equality join conditions are supported")
      end
  end.
Definition ref_where (w : option Expr) (r : relation) : outcome relation :=
  match w with
  | Some e => rows <-! ref_filter e r.1 r.2 ;; Ok (r.1, rows)
  | None => Ok r
  end.
(** FROM, JOIN and WHERE. *)
Definition ref_source (stmt : SelectStmt) : outcome relation :=
  r <-! ref_scan db (from_table stmt) (from_alias stmt) ;;
  r <-! ref_joins r (joins stmt) ;;
  ref_where (where_clause stmt) r.

Inductive query_result (stmt : SelectStmt) : Schema → list Tuple → Prop :=
  | qr_aggregate sch l out groups res :
      ref_source stmt = Ok (sch, l) →
      is_star_list (select_list stmt) = false → aggregates stmt = true →
      let aggs := agg_exprs (select_list stmt) in
      BuildAggSchema (group_by stmt) aggs sch = Ok out →
      Forall (row_ok (group_by stmt) aggs sch) l → Z.of_nat (length l) < 2 ^ 31 →
      ref_aggregate (group_by stmt) aggs sch out l = Ok groups →
      sorts (order_by stmt) out groups res →
      query_result stmt out res
  | qr_project sch l sorted out res :
      ref_source stmt = Ok (sch, l) →
      is_star_list (select_list stmt) = false → aggregates stmt = false →
      sorts (order_by stmt) sch l sorted →
      BuildProjectionSchema (select_list stmt) sch = Ok out →
      ref_project (si_expr <$> select_list stmt) sch out sorted = Ok res →
      query_result stmt out res
  | qr_star sch l res :
      ref_source stmt = Ok (sch, l) →
      is_star_list (select_list stmt) = true →
      sorts (order_by stmt) sch l res →
      query_result stmt sch res.
End reference.

(** ** Results are runs that do not fail *)
Lemma run_ok x : run_failure x = None → ∃ l, x = rows_run l.
Proof. destruct x as [[l fl]|f]; cbn; [intros ->; by exists l|done]. Qed.
Lemma read_all_ok x l : read_all x = Ok l ↔ x = rows_run l.
Proof.
  unfold read_all, ended. destruct x as [[l0 [f|]]|f]; cbn; [done| |done].
  by split; intros [= ->].
Qed.
Lemma on_stream_ok g x l :
  on_stream g x = rows_run l ↔ ∃ st, x = Ok st ∧ g (rows st) (failure st) = mkStream l None.
Proof.
  destruct x as [st|f]; cbn; [|by split; [|intros (? & ? & _)]]. unfold rows_run. split.
  - intros [= Hg]. by exists st.
  - by intros (st' & [= <-] & ->).
Qed.
Lemma filter_run_ok p sch x l' :
  on_stream (filter_rows p sch) x = rows_run l' ↔ ∃ l, x = rows_run l ∧ ref_filter p sch l = Ok l'.
Proof.
  rewrite on_stream_ok. split.
  - intros ([l fl] & -> & Hf). cbn in Hf. apply ref_filter_stream in Hf as [-> Hf]. by exists l.
  - intros (l & -> & Hf). eexists. split; [done|]. by apply ref_filter_stream.
Qed.
Lemma project_run_ok exprs sch out x l' :
  on_stream (project_rows exprs sch out) x = rows_run l' ↔
  ∃ l, x = rows_run l ∧ ref_project exprs sch out l = Ok l'.
Proof.
  rewrite on_stream_ok. split.
  - intros ([l fl] & -> & Hf). cbn in Hf. apply ref_project_stream in Hf as [-> Hf]. by exists l.
  - intros (l & -> & Hf). eexists. split; [done|]. by apply ref_project_stream.
Qed.
Lemma join_run_ok lk rk ls rs xl xr out :
  join_run lk rk ls rs xl xr = rows_run out ↔
  ∃ l r, xl = rows_run l ∧ xr = rows_run r ∧ ref_join lk rk ls rs l r = Ok out.
Proof.
  unfold join_run, build_stream. split.
  - destruct xl as [[l fl]|]; cbn; [|done]. intros (ht & Hb & H)%obind_Ok_inv.
    apply obind_Ok_inv in Hb as (ht' & Hb & Hf). destruct fl; [done|].
    apply obind_Ok_inv in H as (rst & -> & H). apply obind_Ok_inv in H as (r & Hr & [= Hj]).
    exists l, r. unfold ended in Hr. destruct rst as [r' [|]]; [done|]. injection Hr as ->.
    split_and!; [done|done|]. apply ref_join_stream. eauto.
  - intros (l & r & -> & -> & [[ht Hb] Hj]%ref_join_stream). cbn. rewrite Hb. cbn. by rewrite Hj.
Qed.
Lemma agg_reads_ok gb aggs sch l rest fl all :
  agg_reads gb aggs sch l rest fl (Ok all) →
  fl = None ∧ Forall (row_ok gb aggs sch) rest ∧ all = l ++ rest.
Proof.
  intros H. remember (Ok all) as r eqn:E. induction H as [l|l f|l t rest fl r Ht _ IH|]; [|done| |done].
  - injection E as ->. by rewrite app_nil_r.
  - destruct (IH E) as (-> & Hr & ->). by rewrite <- app_assoc; split_and!; [|constructor|].
Qed.
Lemma agg_run_ok gb aggs sch out x l' :
  agg_run gb aggs sch out x (rows_run l') ↔
  ∃ l, x = rows_run l ∧ Forall (row_ok gb aggs sch) l ∧ Z.of_nat (length l) < 2 ^ 31 ∧
    ref_aggregate gb aggs sch out l = Ok l'.
Proof.
  split.
  - intros H. remember (rows_run l') as x' eqn:E. destruct H as [f|[l fl] r Hlen Hr]; [done|].
    apply obind_Ok_inv in E as (all & -> & [= E]). apply agg_reads_ok in Hr as (Hfl & Hr & ->).
    cbn in *. subst fl. exists l. split_and!; [done..|]. by apply ref_aggregate_stream.
  - intros (l & -> & Hr & Hlen & Ha%ref_aggregate_stream). unfold rows_run at 2. rewrite <- Ha.
    by apply agg_run_rows.
Qed.
Lemma sorts_run_ok items sch x l' :
  sorts_run items sch x (rows_run l') ↔ ∃ l, x = rows_run l ∧ sorts items sch l l'.
Proof.
  split.
  - intros H. remember (rows_run l') as x' eqn:E.
    destruct H as [x Hi|x f Hi Hx|x l l2 Hi Hx%read_all_ok Hs|]; [|done| |done].
    + exists l'. by subst items.
    + injection E as ->. eauto.
  - intros (l & -> & Hs). destruct (decide (items = [])) as [->|Hi].
    + cbn in Hs. subst l'. by constructor.
    + eapply sr_sorted; [done|by apply read_all_ok|done].
Qed.

Lemma exec_joins_ok db x js sch l :
  exec_joins db x js = Ok (sch, rows_run l) ↔
  ∃ l0, x.2 = rows_run l0 ∧ ref_joins db (x.1, l0) js = Ok (sch, l).
Proof.
  revert x. induction js as [|j js IH]; intros [sch0 x]; cbn [exec_joins ref_joins fst snd].
  { split; [intros [= -> ->]; eauto|by intros (? & -> & [= -> ->])]. }
  unfold exec_scan. destruct (ref_scan db _ _) as [[rs r]|f]; cbn [obind fst snd].
  2: { by split; [|intros (? & _ & ?)]. }
  destruct (equi_keys (j_condition j)) as [[lk rk]|]; [|by split; [|intros (? & _ & ?)]].
  rewrite IH. cbn [fst snd]. setoid_rewrite join_run_ok. split.
  - intros (l0 & (l1 & r1 & -> & <-%(inj rows_run) & Hj) & H). exists l1. rewrite Hj. done.
  - intros (l1 & -> & (rows & Hj & H)%obind_Ok_inv). exists rows. split; [|done]. by exists l1, r.
Qed.
Lemma exec_source_ok db stmt sch l :
  exec_source db stmt = Ok (sch, rows_run l) ↔ ref_source db stmt = Ok (sch, l).
Proof.
  unfold exec_source, ref_source, exec_scan.
  destruct (ref_scan db _ _) as [[sch0 l0]|f]; cbn [obind fst snd]; [|done].
  assert (∀ sch l, exec_joins db (sch0, rows_run l0) (joins stmt) = Ok (sch, rows_run l) ↔
    ref_joins db (sch0, l0) (joins stmt) = Ok (sch, l)) as Hj.
  { intros sch' l'. rewrite exec_joins_ok. cbn [fst snd]. split; [by intros (l1 & <-%(inj rows_run) & ?)|eauto]. }
  split.
  - intros ([s1 x1] & H1 & [= H2])%obind_Ok_inv.
    assert (∃ l1, x1 = rows_run l1 ∧ ref_where (where_clause stmt) (s1, l1) = Ok (sch, l)) as (l1 & -> & Hw).
    { destruct (where_clause stmt) as [e|]; cbn in H2 |- *; injection H2 as -> Hx; [|eauto].
      apply filter_run_ok in Hx as (l1 & -> & Hf). exists l1. by rewrite Hf. }
    apply Hj in H1. by rewrite H1.
  - intros ([s1 l1] & H1%Hj & H2)%obind_Ok_inv. rewrite H1. cbn [obind]. f_equal.
    destruct (where_clause stmt) as [e|]; cbn in H2 |- *; [|by injection H2 as -> ->].
    apply obind_Ok_inv in H2 as (rows & Hf & [= <- <-]). f_equal.
    apply (filter_run_ok e s1 (rows_run l1)). eauto.
Qed.

Lemma query_result_exec db stmt sch l :
  query_result db stmt sch l ↔ query_exec db stmt sch (rows_run l).
Proof.
  split.
  - intros [sch' rs out groups l' Hsrc%exec_source_ok Hstar Hagg aggs Hout Hok Hlen Hg Hs
           |sch' rs srt out l' Hsrc%exec_source_ok Hstar Hagg Hs Hout Hp
           |sch' rs l' Hsrc%exec_source_ok Hstar Hs].
    + eapply qx_aggregate; [done|done|done|by unfold select_columns; rewrite Hstar, Hagg| |].
      * apply agg_run_ok. by exists rs.
      * apply sorts_run_ok. eauto.
    + rewrite <- (proj2 (project_run_ok _ sch' out (rows_run srt) l')) by eauto.
      eapply qx_project; [done|done|done|by unfold select_columns; rewrite Hstar, Hagg|].
      apply sorts_run_ok. eauto.
    + eapply qx_star; [done|done|]. apply sorts_run_ok. eauto.
  - intros H. remember (rows_run l) as x eqn:E.
    destruct H as [sch' src out x x' Hsrc Hstar Hagg Hout Hg Hs|sch' src out x Hsrc Hstar Hagg Hout Hs
                  |sch' src x Hsrc Hstar Hs].
    + subst x'. apply sorts_run_ok in Hs as (groups & -> & Hs).
      apply agg_run_ok in Hg as (rs & -> & Hok & Hlen & Hg). apply exec_source_ok in Hsrc.
      unfold select_columns in Hout. rewrite Hstar, Hagg in Hout. by eapply qr_aggregate.
    + apply project_run_ok in E as (srt & -> & Hp). apply sorts_run_ok in Hs as (rs & -> & Hs).
      apply exec_source_ok in Hsrc. unfold select_columns in Hout. rewrite Hstar, Hagg in Hout.
      by eapply qr_project.
    + subst x. apply sorts_run_ok in Hs as (rs & -> & Hs). apply exec_source_ok in Hsrc. by eapply qr_star.
Qed.

(** ** A query does not both return and fail *)
Lemma row_ok_fails gb aggs sch t f : row_ok gb aggs sch t → ¬ row_fails gb aggs sch t f.
Proof.
  intros [(vs & Hk) Ha] [Hf|vs' done_ ae rest _ E _ Hc Hf]; [congruence|].
  destruct (Ha ae) as (e & v & He & Hv & _); [rewrite E; set_solver|done|].
  unfold agg_input in Hf. rewrite He in Hf. congruence.
Qed.
Lemma agg_run_unique gb aggs sch out l x :
  Forall (row_ok gb aggs sch) l → agg_run gb aggs sch out (rows_run l) x →
  x = Ok (group_rows gb aggs sch out l (group_order gb sch l)).
Proof.
  intros Hok H. inversion H as [|? r Hlen Hr]; subst. cbn in Hr.
  assert (∀ l0 rest r, Forall (row_ok gb aggs sch) rest → agg_reads gb aggs sch l0 rest None r →
    r = Ok (l0 ++ rest)) as Hall.
  { clear. intros l0 rest r Hok Hr. remember None as fl eqn:E.
    induction Hr as [l0|l0 f|l0 t rest fl r Ht _ IH|l0 t rest fl f Ht]; [by rewrite app_nil_r|done| |].
    - apply Forall_cons in Hok as [_ Hok]. rewrite IH by done. by rewrite <- app_assoc.
    - apply Forall_cons in Hok as [Hok _]. by destruct (row_ok_fails _ _ _ _ _ Hok Ht). }
  by rewrite (Hall [] l r Hok Hr).
Qed.
Lemma sorts_run_sorted items sch l l0 x :
  sorts items sch l l0 → sorts_run items sch (rows_run l) x → ∃ l', x = rows_run l' ∧ l0 ≡ₚ l'.
Proof.
  intros Hs H. inversion H as [? Hi|? f Hi Hx|? l1 l2 Hi Hx Hs2|? l1 f Hi Hx Hlen Hf]; subst.
  - cbn in Hs. subst l0. by exists l.
  - done.
  - injection Hx as <-. exists l2. split; [done|].
    by rewrite <- (sorts_perm _ _ _ _ Hs), <- (sorts_perm _ _ _ _ Hs2).
  - injection Hx as <-. destruct items as [|i items]; [done|]. destruct Hs as (Hs & _).
    destruct l as [|a l]; [simpl in Hlen; lia|].
    assert (a ∈ a :: l) as Ha by by left.
    pose proof (sort_less_cmp _ _ _ a a Hs Ha Ha) as Hl. by rewrite (Hf a a Ha Ha) in Hl.
Qed.
Lemma query_exec_ok db stmt sch l sch' x :
  query_result db stmt sch l → query_exec db stmt sch' x → run_failure x = None.
Proof.
  intros [s1 rs out groups l' Hsrc%exec_source_ok Hstar Hagg aggs Hout Hok Hlen Hg Hs
         |s1 rs srt out l' Hsrc%exec_source_ok Hstar Hagg Hs Hout Hp
         |s1 rs l' Hsrc%exec_source_ok Hstar Hs]
    [s2 src out2 x1 x2 Hsrc2 Hstar2 Hagg2 Hout2 Hg2 Hs2|s2 src out2 x1 Hsrc2 Hstar2 Hagg2 Hout2 Hs2
    |s2 src x1 Hsrc2 Hstar2 Hs2]; try congruence; rewrite Hsrc in Hsrc2; injection Hsrc2 as <- <-.
  - apply agg_run_unique in Hg2 as ->; [|done]. unfold select_columns in Hout2.
    rewrite Hstar, Hagg in Hout2. fold aggs in Hout2. rewrite Hout in Hout2. injection Hout2 as <-.
    apply ref_aggregate_stream in Hg. fold aggs in Hs2. rewrite Hg in Hs2.
    by destruct (sorts_run_sorted _ _ _ _ _ Hs Hs2) as (l2 & -> & _).
  - destruct (sorts_run_sorted _ _ _ _ _ Hs Hs2) as (srt2 & -> & Hpm).
    unfold select_columns in Hout2. rewrite Hstar, Hagg, Hout in Hout2. injection Hout2 as <-.
    destruct (oall_perm _ _ _ _ Hpm Hp) as (l2 & Hl2 & _).
    by rewrite (proj2 (project_run_ok _ _ _ (rows_run srt2) l2)) by eauto.
  - by destruct (sorts_run_sorted _ _ _ _ _ Hs Hs2) as (l2 & -> & _).
Qed.
Lemma query_exec_schema db stmt sch x : query_exec db stmt sch x → query_schema db stmt = Ok sch.
Proof.
  unfold query_schema. intros [? ? ? ? ? Hs _ _ Ho _ _|? ? ? ? Hs _ _ Ho _|? ? ? Hs Hstar _]; rewrite Hs;
    cbn [obind fst]; [done..|]. unfold select_columns. by rewrite Hstar.
Qed.
Lemma query_result_schema db stmt sch l : query_result db stmt sch l → query_schema db stmt = Ok sch.
Proof. intros H%query_result_exec. by eapply query_exec_schema. Qed.
Lemma query_result_fails db stmt sch l f : query_result db stmt sch l → ¬ query_fails db stmt f.
Proof.
  intros Hq [Hf|sch' x Hx Hf].
  - by rewrite (query_result_schema _ _ _ _ Hq) in Hf.
  - by rewrite (query_exec_ok _ _ _ _ _ _ Hq Hx) in Hf.
Qed.

(** ** Plans *)
Section plans.
Context {S : Type} {PC : PageCache S} {PCS : PageCacheSpec S} `{StdSort} `{!StdSortSpec}.
Context (st : pages) (pins : pinmap) (cap : nat).
Hypotheses (Hlow : pins_low pins) (Hcap : (size pins < cap)%nat).
Local Abbreviation plan_execs := (plan_execs (S := S) st pins cap).

(** The plan, run at any depth of [k] or more, gives the rows of [r]. *)
Definition plan_runs (k : nat) (plan : PlanOp) (r : relation) : Prop :=
  plan_execs k plan (r.1, rows_run r.2).

(** Projecting the same rows in another order fails as well, or not either. *)
Lemma project_same exprs sch out x x' :
  same_rows x x' → run_failure (on_stream (project_rows exprs sch out) x) = None →
  run_failure (on_stream (project_rows exprs sch out) x') = None.
Proof.
  intros [->|(l & l' & -> & -> & Hp)]; [done|].
  intros (o & (l0 & <-%(inj rows_run) & Ho)%project_run_ok)%run_ok.
  destruct (oall_perm _ _ _ _ Hp Ho) as (o' & Ho' & _).
  rewrite (proj2 (project_run_ok _ _ _ (rows_run l') o')); [done|]. by exists l'.
Qed.
Lemma same_rows_sym x x' : same_rows x x' → same_rows x' x.
Proof. intros [->|(l & l' & -> & -> & Hp)]; [by left|right; by exists l', l]. Qed.
Lemma same_rows_failure x x' : same_rows x x' → run_failure x = run_failure x'.
Proof. by intros [->|(l & l' & -> & -> & _)]. Qed.

(** A statement that has an execution has a plan, and the plan has an execution
    that fails exactly if the other does. *)
Lemma Plan_execs c db stmt sch x :
  tables_stored c db st → query_exec db stmt sch x →
  ∃ plan x', Plan (S := S) c stmt = Ok plan ∧ query_exec db stmt sch x' ∧
    (run_failure x = None ↔ run_failure x' = None) ∧ plan_execs (plan_depth stmt) plan (sch, x').
Proof.
  intros Ht Hq. pose proof (source_execs (S := S) st pins cap Hlow Hcap c db stmt Ht) as Hsrc'.
  rewrite Plan_halves. unfold plan_select.
  destruct Hq as [sch src out x x' Hsrc Hstar Hagg Hout Hg Hs|sch src out x Hsrc Hstar Hagg Hout Hs
                 |sch src x Hsrc Hstar Hs];
    rewrite Hsrc in Hsrc'; destruct Hsrc' as (plan & -> & Hrun); cbn [obind];
    rewrite (proj1 Hrun); cbn [fst]; rewrite ?Hout; cbn [obind]; rewrite Hstar, ?Hagg.
  - pose proof (aggregate_execs _ _ _ _ _ _ _ _ _ _ _ Hrun Hg) as Ha.
    destruct (sort_execs _ _ _ _ _ _ _ _ _ Ha Hs) as (x2 & Hs2 & Hsame & Hrun2).
    eexists _, x2. split_and!; [done|by eapply qx_aggregate| |exact Hrun2].
    by rewrite (same_rows_failure _ _ Hsame).
  - destruct (sort_execs _ _ _ _ _ _ _ _ _ Hrun Hs) as (x2 & Hs2 & Hsame & Hrun2).
    eexists _, _. split_and!; [done|by eapply qx_project| |by apply project_execs].
    split; apply project_same; [done|by apply same_rows_sym].
  - destruct (sort_execs _ _ _ _ _ _ _ _ _ Hrun Hs) as (x2 & Hs2 & Hsame & Hrun2).
    unfold select_columns. rewrite Hstar. cbn [obind]. eexists _, x2. split_and!; [done|by eapply qx_star| |].
    + by rewrite (same_rows_failure _ _ Hsame).
    + eapply plan_execs_le; [exact Hrun2|unfold plan_depth; lia].
Qed.

(** The planner builds a plan for every statement that has a result, and the
    plan produces a result. *)
Lemma Plan_runs c db stmt sch l :
  tables_stored c db st → query_result db stmt sch l →
  ∃ plan l', Plan (S := S) c stmt = Ok plan ∧ query_result db stmt sch l' ∧
    plan_runs (plan_depth stmt) plan (sch, l').
Proof.
  intros Ht (plan & x & Hp & Hq & Hf & Hrun)%query_result_exec%(Plan_execs c _ _ _ _ Ht).
  destruct (run_ok x) as (l' & ->); [by apply Hf|]. exists plan, l'. by rewrite query_result_exec.
Qed.

(** For a statement that fails, the planner throws or builds a plan that fails. *)
Lemma Plan_fails c db stmt f :
  tables_stored c db st → query_fails db stmt f →
  (query_schema db stmt = Fault f ∧ Plan (S := S) c stmt = Fault f) ∨
  ∃ plan sch x f', Plan (S := S) c stmt = Ok plan ∧ query_exec db stmt sch x ∧
    run_failure x = Some f' ∧ plan_execs (plan_depth stmt) plan (sch, x).
Proof.
  intros Ht [Hf|sch x Hq Hf].
  - left. split; [done|]. rewrite Plan_halves. unfold query_schema in Hf.
    pose proof (source_execs (S := S) st pins cap Hlow Hcap c db stmt Ht) as Hsrc.
    destruct (exec_source db stmt) as [x|f']; cbn [obind] in Hf; [|by simplify_eq; rewrite Hsrc].
    destruct Hsrc as (plan & -> & Hs & _). cbn [obind]. unfold plan_select. by rewrite Hs, Hf.
  - right. destruct (Plan_execs c db stmt sch x Ht Hq) as (plan & x' & Hp & Hq' & Hiff & Hrun).
    destruct (run_failure x') as [f'|] eqn:Hf'; [by exists plan, sch, x', f'|].
    rewrite (proj2 Hiff) in Hf by done. done.
Qed.
End plans.
