(* ===== verification/Database.v ===== *)
(** * The database: [src/src/database.h], [database.cpp]

    The members [disk_manager_] and [bpm_] are the page cache [S], [catalog_] the
    catalog; the planner only holds a pointer to the catalog.  [fuel] bounds the
    loops along page chains and over the rows of an operator. *)
From stdpp Require Import base gmap list strings.
From Stdlib Require Import ZArith Lia Ascii.
From S2P Require Import Prelude Types DiskManager PageCache BufferPool BufferPoolSpec HeapFile Ast Parser Catalog Executor Planner.

Record QueryResult := mkQueryResult {
  qr_columns : list string;
  qr_rows : list (list string);
  qr_message : string
}.

Section database.
Context {S : Type} {PC : PageCache S} `{StdSort}.
Local Abbreviation Database := (Catalog * S)%type.

Definition catalog_ (d : Database) : Catalog := d.1.

(** ** CREATE TABLE *)
Definition ExecCreate (stmt : CreateTableStmt) : M Database QueryResult :=
  let cols := (λ def, mkColumn (cd_name def) (mkColumnType (cd_type_id def) (cd_max_len def)))
                <$> ct_columns stmt in
  CreateTable (ct_table_name stmt) (Schema_ctor cols) ;;
  retM (mkQueryResult [] [] ("Table '" +:+ ct_table_name stmt +:+ "' created.")).

(** ** INSERT *)

(** The loop over the values, from index [i]. *)
Fixpoint insert_values (schema : Schema) (i : nat) (values : list Expr) : outcome (list Value) :=
  match values with
  | [] => Ok []
  | e :: values =>
      col <-! GetColumn schema i ;;
      let ct := col_type col in
      v <-! (match type_id ct with
             | INT =>
                 match e with
                 | Expr.INT_LITERAL z => Ok (MakeInt z)
                 | _ => Fault (Throw ("Expected integer for column " +:+ col_name col))
                 end
             | VARCHAR =>
                 match e with
                 | Expr.STRING_LITERAL s => Ok (MakeVarchar s (max_len ct))
                 | _ => Fault (Throw ("Expected string for column " +:+ col_name col))
                 end
             end) ;;
      vs <-! insert_values schema (Datatypes.S i) values ;;
      Ok (v :: vs)
  end.

(** [info->heap_file->InsertTuple(t, &rid)]: the heap file belongs to the entry
    of the table in the catalog. *)
Definition insert_into (name : string) (info : TableInfo) (t : Tuple) : M Database (option RID) :=
  λ '(c, s),
  let '((hf, s'), r) := InsertTuple t (ti_heap_file info, s) in
  ((mkCatalog (<[name := mkTableInfo (ti_name info) (ti_schema info) hf (ti_first_page_id info)]>
                 (tables_ c)), s'), r).

Definition ExecInsert (stmt : InsertStmt) : M Database QueryResult :=
  d <- getM ;;
  info <- liftM (GetTable (catalog_ d) (ins_table_name stmt)) ;;
  let schema := ti_schema info in
  if negb (bool_decide (length (ins_values stmt) = GetColumnCount schema)) then
    throwM "Column count mismatch in INSERT"
  else
    vals <- liftM (insert_values schema 0 (ins_values stmt)) ;;
    t <- liftM (Tuple_ctor vals schema) ;;
    r <- insert_into (ins_table_name stmt) info t ;;
    match r with
    | None => throwM "INSERT failed — storage full"
    | Some _ => retM (mkQueryResult [] [] "Inserted 1 row.")
    end.

(** ** SELECT *)

(** [t.GetValue(out_schema, i).ToString()] for [n] columns from [i]. *)
Fixpoint render_row (t : Tuple) (schema : Schema) (i n : nat) : outcome (list string) :=
  match n with
  | O => Ok []
  | Datatypes.S n =>
      v <-! GetValue t schema i ;;
      vs <-! render_row t schema (Datatypes.S i) n ;;
      Ok (ToString v :: vs)
  end.

(** [while (op->Next(&t)) ...]. *)
Fixpoint select_loop (depth fuel n : nat) (schema : Schema) : M PlanOp (list (list string)) :=
  match n with
  | O => faultM OutOfFuel
  | Datatypes.S n =>
      r <- @Next S PlanOp (plan_operator depth) fuel ;;
      match r with
      | None => retM []
      | Some t =>
          row <- liftM (render_row t schema 0 (GetColumnCount schema)) ;;
          rest <- select_loop depth fuel n schema ;;
          retM (row :: rest)
      end
  end.

(** The part of [ExecSelect] after planning, on the plan and the storage. *)
Definition run_plan (depth fuel : nat) (schema : Schema) : M (PlanOp * S) (list (list string)) :=
  @Init S PlanOp (plan_operator depth) fuel ;;
  rows <- on_op (select_loop depth fuel fuel schema) ;;
  on_op plan_close ;;
  retM rows.

Definition ExecSelect (fuel : nat) (stmt : SelectStmt) : M Database QueryResult :=
  d <- getM ;;
  op <- liftM (Plan (S := S) (catalog_ d) stmt) ;;
  let out_schema := plan_schema op in
  rows <- (λ '(c, s),
    let '((_, s'), r) := run_plan (plan_depth stmt) fuel out_schema (op, s) in ((c, s'), r)) ;;
  retM (mkQueryResult (col_name <$> columns_ out_schema) rows "").

(** ** EXPLAIN *)

(** [while (std::getline(ss, line))]. *)
Fixpoint getlines (s : string) : list string :=
  match s with
  | EmptyString => []
  | String c s =>
      if bool_decide (c = "010"%char) then ""%string :: getlines s else
      match getlines s with
      | [] => [String c EmptyString]
      | l :: ls => String c l :: ls
      end
  end.
Definition ExecExplain (stmt : ExplainStmt) : M Database QueryResult :=
  retM (mkQueryResult ["plan"%string] ((λ line, [line]) <$> getlines (Explain (ex_select stmt))) "").

(** ** The entry point *)
Definition exec_statement (fuel : nat) (stmt : Statement) : M Database QueryResult :=
  match stmt with
  | CreateTableS s => ExecCreate s
  | InsertS s => ExecInsert s
  | SelectS s => ExecSelect fuel s
  | ExplainS s => ExecExplain s
  end.
Definition Execute (fuel : nat) (sql : string) : M Database QueryResult :=
  stmt <- liftM (parse_sql sql) ;; exec_statement fuel stmt.
End database.

(** [Database(db_path, pool_size)]. *)
Definition Database_ctor (fs : FileSystem) (db_path : string) (pool_size : nat)
    : outcome (Catalog * BufferPoolManager) :=
  d <-! DiskManager_ctor fs db_path ;; Ok (Catalog_ctor, BufferPoolManager_ctor pool_size d).
Definition default_pool_size : nat := 256.
(** The members are destroyed in reverse order: the pool flushes, then the disk
    manager closes the file. *)
Definition Database_dtor (fs : FileSystem) (d : Catalog * BufferPoolManager) : outcome FileSystem :=
  let '(b, r) := BufferPoolManager_dtor d.2 in
  _ <-! r ;; Ok (DiskManager_dtor fs (disk_manager_ b)).
