(* ===== verification/RowSpec.v ===== *)
(** * Rows have the size of their schema

    Every row an operator hands on has as many bytes as the operator's output
    schema says, so the reads and copies of the executors stay in bounds; a
    SELECT that has a result can be printed. *)
From stdpp Require Import base gmap list strings.
From Stdlib Require Import ZArith Lia Ascii.
From S2P Require Import Prelude Types HeapFile Catalog Ast Executor ExecutorSpec ExecutorSort ExecutorJoin ExecutorAggregate Planner PlannerSpec QueryExec QuerySpec Database.

Definition sized (sch : Schema) (t : Tuple) : Prop :=
  length (data_ t) = Z.to_nat (GetTupleSize sch).
(** A schema built by the constructor from columns of 16-bit lengths. *)
Definition built (sch : Schema) : Prop :=
  sch = Schema_ctor (columns_ sch) ∧ Forall column_ok (columns_ sch).
(** Where there are rows the layout fits 32 bits. *)
Definition relation_ok (r : relation) : Prop :=
  built r.1 ∧ Forall (sized r.1) r.2 ∧ (r.2 ≠ [] → cols_size (columns_ r.1) < 2 ^ 32).

Lemma built_ctor cols : Forall column_ok cols → built (Schema_ctor cols).
Proof. by split. Qed.
Lemma built_size sch :
  built sch → cols_size (columns_ sch) < 2 ^ 32 → GetTupleSize sch = cols_size (columns_ sch).
Proof. intros [-> Hc] Hlt. by apply Schema_ctor_size. Qed.

(** ** Reading *)
Lemma GetValue_defined sch t i :
  built sch → cols_size (columns_ sch) < 2 ^ 32 → sized sch t → (i < GetColumnCount sch)%nat →
  ∃ v, GetValue t sch i = Ok v.
Proof.
  intros Hb Hlt Hs Hi. destruct (lookup_lt_is_Some_2 (columns_ sch) i Hi) as [col Hcol].
  pose proof (cols_size_lookup _ _ _ Hcol (proj2 Hb)) as (H0 & Hf & Hle).
  unfold sized in Hs. rewrite (built_size _ Hb Hlt) in Hs.
  unfold GetValue. rewrite (proj1 Hb).
  rewrite (Schema_ctor_offset _ _ col) by (done || (split; [apply Hb|done])). cbn [obind].
  unfold GetColumn. cbn [columns_ Schema_ctor]. rewrite Hcol. cbn [odef obind].
  rewrite (DeserializeFrom_load _ _ _ _ (load_Some (cols_size (take i (columns_ sch)))
    (GetFixedSize (col_type col)) (data_ t) H0 Hf ltac:(lia))). eauto.
Qed.
Lemma render_row_defined sch t n i :
  built sch → cols_size (columns_ sch) < 2 ^ 32 → sized sch t → (i + n ≤ GetColumnCount sch)%nat →
  ∃ strs, render_row t sch i n = Ok strs.
Proof.
  intros Hb Hlt Hs. revert i. induction n as [|n IH]; intros i Hi; cbn; [eauto|].
  destruct (GetValue_defined sch t i Hb Hlt Hs ltac:(lia)) as (v & ->). cbn.
  destruct (IH (S i) ltac:(lia)) as (strs & ->). cbn. eauto.
Qed.
Lemma rendered_defined sch l :
  built sch → cols_size (columns_ sch) < 2 ^ 32 → Forall (sized sch) l →
  ∃ strs, oall (λ t, render_row t sch 0 (GetColumnCount sch)) l = Ok strs.
Proof.
  intros Hb Hlt. induction 1 as [|t l Ht _ IH]; cbn; [eauto|].
  destruct (render_row_defined sch t (GetColumnCount sch) 0 Hb Hlt Ht ltac:(lia)) as (row & ->). cbn.
  destruct IH as (strs & ->). cbn. eauto.
Qed.

(** ** Scans *)
Lemma cols_size_rename (f : Column → string) cols :
  cols_size ((λ c, mkColumn (f c) (col_type c)) <$> cols) = cols_size cols.
Proof. induction cols as [|c cols IH]; [done|]. cbn. f_equal. exact IH. Qed.
Lemma schema_offsets_rename (f : Column → string) off cols :
  schema_offsets off ((λ c, mkColumn (f c) (col_type c)) <$> cols) = schema_offsets off cols.
Proof. revert off. induction cols as [|c cols IH]; intros off; [done|]. cbn. by rewrite IH. Qed.
Lemma scan_relation_ok sch alias l :
  relation_ok (sch, l) → relation_ok (MakeOutputSchema sch alias, l).
Proof.
  intros (Hb & Hl & Hc). unfold MakeOutputSchema. case_bool_decide; [done|]. cbn [fst snd] in *.
  assert (GetTupleSize (Schema_ctor ((λ c, mkColumn (alias +:+ "." +:+ col_name c) (col_type c))
    <$> columns_ sch)) = GetTupleSize sch) as Hsz.
  { rewrite (proj1 Hb) at 2. unfold GetTupleSize, Schema_ctor. cbn [tuple_size_].
    by rewrite (schema_offsets_rename (λ c, alias +:+ "." +:+ col_name c)). }
  split_and!.
  - apply built_ctor, Forall_fmap. eapply Forall_impl; [apply Hb|]. done.
  - eapply Forall_impl; [exact Hl|]. intros t. unfold sized. cbn [fst snd]. by rewrite Hsz.
  - intros Hne. cbn [columns_ Schema_ctor fst]. rewrite (cols_size_rename (λ c, alias +:+ "." +:+ col_name c)).
    by apply Hc.
Qed.

(** ** Joins *)
Lemma store_fits off bs m m' :
  store off bs m = Some m' → 0 ≤ off ∧ off + Z.of_nat (length bs) ≤ Z.of_nat (length m).
Proof. intros (? & ? & _)%store_is_Some. done. Qed.

Lemma Concat_sized ls rs l r t :
  built ls → built rs → cols_size (columns_ ls) < 2 ^ 32 → cols_size (columns_ rs) < 2 ^ 32 →
  Concat l r ls rs = Ok t →
  cols_size (columns_ (ConcatSchemas ls rs)) < 2 ^ 32 ∧ sized (ConcatSchemas ls rs) t.
Proof.
  intros Hl Hr Hcl Hcr. unfold Concat. rewrite !built_size by done.
  set (a := cols_size (columns_ ls)). set (b := cols_size (columns_ rs)).
  intros (bl & _ & H)%obind_Ok_inv. apply obind_Ok_inv in H as (b1 & Hb1%odef_inv & H).
  apply obind_Ok_inv in H as (br & Hbr%odef_inv & H).
  apply obind_Ok_inv in H as (b2 & Hb2%odef_inv & H).
  apply load_is_Some in Hbr as (_ & Hb0 & _ & Hbr).
  pose proof (cols_size_nonneg _ (proj2 Hl)) as Ha0. fold a in Ha0.
  pose proof (store_fits _ _ _ _ Hb2) as [_ Hfit].
  rewrite (store_length _ _ _ _ Hb1), memset_length, Hbr in Hfit.
  pose proof (wrap_u32_range (a + b)) as Hw.
  assert (a + b < 2 ^ 32) as Hlt by lia.
  assert (cols_size (columns_ (ConcatSchemas ls rs)) = a + b) as Hc.
  { cbn. by rewrite cols_size_app. }
  rewrite Hc. split; [done|]. unfold FromBytes in H.
  apply obind_Ok_inv in H as (bs & Hbs%odef_inv & [= <-]).
  apply load_is_Some in Hbs as (_ & _ & _ & Hbs). unfold sized. cbn [data_]. rewrite Hbs.
  rewrite wrap_u32_id by lia. f_equal. rewrite built_size; [by rewrite Hc| |by rewrite Hc].
  apply built_ctor, Forall_app. split; [apply Hl|apply Hr].
Qed.

(** The rows a run hands out, before it ends or fails. *)
Definition run_rows (x : outcome stream) : list Tuple :=
  match x with Ok st => rows st | Fault _ => [] end.
Definition exec_ok (x : execution) : Prop := relation_ok (x.1, run_rows x.2).

Lemma join_bucket_rows bucket r ls rs rest t :
  t ∈ rows (join_bucket bucket r ls rs rest) → (∃ l, l ∈ bucket ∧ Concat l r ls rs = Ok t) ∨ t ∈ rows rest.
Proof.
  induction bucket as [|l bucket IH]; cbn; [by right|].
  destruct (Concat l r ls rs) as [u|] eqn:E; cbn; [|by intros ?%elem_of_nil].
  intros [->|Ht]%elem_of_cons; [left; exists l; set_solver|].
  destruct (IH Ht) as [(l' & ? & ?)|?]; [left; exists l'; set_solver|by right].
Qed.
Lemma join_rows_rows lk rk ls rs lrows rrows t :
  t ∈ rows (join_rows lk rk ls rs lrows rrows) →
  ∃ l r, l ∈ lrows ∧ r ∈ rrows ∧ Concat l r ls rs = Ok t.
Proof.
  induction rrows as [|r rrows IH]; cbn; [by intros ?%elem_of_nil|].
  destruct (key_string rk r rs) as [k|]; cbn; [|by intros ?%elem_of_nil].
  intros [(l & Hl & Hc)|(l & r' & ? & ? & ?)%IH]%join_bucket_rows.
  - exists l, r. split_and!; [|by left|done]. unfold matches in Hl.
    destruct (str_eqb k ""); [by apply elem_of_nil in Hl|]. unfold rows_with_key in Hl.
    apply list_elem_of_In, List.filter_In in Hl as [Hl _]. by apply list_elem_of_In.
  - exists l, r'. split_and!; [done|by right|done].
Qed.
Lemma join_run_exec_ok lk rk lx rx :
  exec_ok lx → exec_ok rx →
  exec_ok (ConcatSchemas lx.1 rx.1, join_run lk rk lx.1 rx.1 lx.2 rx.2).
Proof.
  intros (Hlb & _ & Hlc) (Hrb & _ & Hrc). cbn [fst snd] in *.
  set (out := join_run lk rk lx.1 rx.1 lx.2 rx.2).
  assert (∀ t, t ∈ run_rows out → ∃ l r, l ∈ run_rows lx.2 ∧ r ∈ run_rows rx.2 ∧
    Concat l r lx.1 rx.1 = Ok t) as Hrows.
  { unfold out, join_run. destruct lx.2 as [lst|]; cbn; [|by intros t ?%elem_of_nil].
    destruct (build_stream _ _ _ _); cbn; [|by intros t ?%elem_of_nil].
    destruct rx.2 as [[rr fl]|]; cbn; [|by intros t ?%elem_of_nil]. unfold ended. cbn.
    destruct fl; cbn; [by intros t ?%elem_of_nil|]. intros t. apply join_rows_rows. }
  assert (∀ t, t ∈ run_rows out → cols_size (columns_ (ConcatSchemas lx.1 rx.1)) < 2 ^ 32 ∧
    sized (ConcatSchemas lx.1 rx.1) t) as Hall.
  { intros t (l & r & Hl & Hr & Hcat)%Hrows. eapply Concat_sized; [done|done|apply Hlc|apply Hrc|exact Hcat].
    - intros E. rewrite E in Hl. by apply elem_of_nil in Hl.
    - intros E. rewrite E in Hr. by apply elem_of_nil in Hr. }
  unfold exec_ok, relation_ok. cbn [fst snd]. fold out. split_and!.
  - apply built_ctor, Forall_app. split; [apply Hlb|apply Hrb].
  - apply Forall_forall. intros t Ht. by apply Hall.
  - intros Hne. destruct (run_rows out) as [|t l]; [done|]. apply (Hall t). by left.
Qed.

(** ** Subsets and permutations of the rows *)
Lemma relation_ok_subset sch l l' :
  (∀ t, t ∈ l' → t ∈ l) → relation_ok (sch, l) → relation_ok (sch, l').
Proof.
  intros Hin (Hb & Hl & Hc). cbn in *. split_and!; [done| |].
  - rewrite Forall_forall in Hl |- *. auto.
  - intros Hne. apply Hc. destruct l' as [|t l']; [done|]. intros ->.
    by apply (elem_of_nil t), Hin; left.
Qed.
Lemma filter_run_rows p sch x t : t ∈ run_rows (on_stream (filter_rows p sch) x) → t ∈ run_rows x.
Proof.
  destruct x as [[l fl]|f]; cbn; [|done]. induction l as [|u l IH]; cbn; [done|].
  destruct (EvalPred p u sch) as [[]|]; cbn; [|set_solver|by intros ?%elem_of_nil].
  rewrite !elem_of_cons. intros [->|?]; [by left|right; auto].
Qed.
Lemma sorts_run_rows items sch x x' t : sorts_run items sch x x' → t ∈ run_rows x' → t ∈ run_rows x.
Proof.
  intros [x0 _|x0 f _ _|x0 l l' _ Hx%read_all_ok Hs|x0 l f _ _ _ _]; [done|by intros ?%elem_of_nil| |
    by intros ?%elem_of_nil].
  subst x0. cbn. by rewrite (sorts_perm _ _ _ _ Hs).
Qed.

(** ** Rows built from values *)
Lemma project_row_sized exprs sch out t t' : project_row exprs sch out t = Ok t' → sized out t'.
Proof. intros (vals & _ & H)%obind_Ok_inv. by eapply Tuple_ctor_length. Qed.
Lemma project_rows_sized exprs sch out x :
  Forall (sized out) (run_rows (on_stream (project_rows exprs sch out) x)).
Proof.
  destruct x as [[l fl]|f]; cbn; [|constructor]. induction l as [|t l IH]; cbn; [constructor|].
  destruct (project_row _ _ _ t) as [t'|] eqn:E; cbn; [|constructor]. constructor; [|exact IH].
  by eapply project_row_sized.
Qed.
Lemma group_rows_sized gb aggs sch out l keys : Forall (sized out) (rows (group_rows gb aggs sch out l keys)).
Proof.
  induction keys as [|k keys IH]; cbn; [constructor|].
  destruct (group_row _ _ _ _ _) as [t|] eqn:E; cbn; [|constructor]. constructor; [|exact IH].
  by eapply Tuple_ctor_length.
Qed.
Lemma agg_run_sized gb aggs sch out x x' : agg_run gb aggs sch out x x' → Forall (sized out) (run_rows x').
Proof. intros [f|st [l|f] _ _]; cbn; [constructor|apply group_rows_sized|constructor]. Qed.

Lemma GetColumn_ok sch i c : built sch → GetColumn sch i = Ok c → column_ok c.
Proof.
  intros [_ Hc] H%odef_inv. rewrite Forall_lookup in Hc. by eapply Hc.
Qed.
Lemma column_ok_int name : column_ok (mkColumn name ColumnType_Int).
Proof. unfold column_ok. cbn. lia. Qed.

Lemma build_projection_columns_ok l sch cols :
  built sch → build_projection_columns l sch = Ok cols → Forall column_ok cols.
Proof.
  intros Hb. revert cols. induction l as [|item l IH]; intros cols; cbn; [by intros [= <-]|].
  intros (col & Hcol & (cols' & Hcols & [= <-])%obind_Ok_inv)%obind_Ok_inv.
  constructor; [|by apply IH]. destruct (si_expr item); try (injection Hcol as <-; apply column_ok_int).
  apply obind_Ok_inv in Hcol as (idx & _ & (c & Hc & [= <-])%obind_Ok_inv).
  exact (GetColumn_ok _ _ _ Hb Hc).
Qed.
Lemma group_columns_ok gb sch cols :
  built sch → group_columns gb sch = Ok cols → Forall column_ok cols.
Proof.
  intros Hb. revert cols. induction gb as [|e gb IH]; intros cols; cbn; [by intros [= <-]|].
  destruct (expr_column e) as [alias col].
  intros (idx & _ & (c & Hc & (cols' & Hcols & [= <-])%obind_Ok_inv)%obind_Ok_inv)%obind_Ok_inv.
  constructor; [exact (GetColumn_ok _ _ _ Hb Hc)|by apply IH].
Qed.
Lemma BuildProjectionSchema_built l sch out :
  built sch → BuildProjectionSchema l sch = Ok out → built out.
Proof.
  intros Hb (cols & Hc & [= <-])%obind_Ok_inv. apply built_ctor.
  by eapply build_projection_columns_ok.
Qed.
Lemma BuildAggSchema_built gb aggs sch out :
  built sch → BuildAggSchema gb aggs sch = Ok out → built out.
Proof.
  intros Hb (cols & Hc & [= <-])%obind_Ok_inv. apply built_ctor, Forall_app.
  split; [by eapply group_columns_ok|]. apply Forall_fmap, Forall_true.
  intros ae. apply column_ok_int.
Qed.

(** ** Queries *)
Section queries.
Context (db : abs_db).
Hypothesis Hdb : ∀ name r, db !! name = Some r → relation_ok r.

Lemma exec_scan_ok table alias x : exec_scan db table alias = Ok x → exec_ok x.
Proof.
  unfold exec_scan, ref_scan, ref_table. destruct (db !! table) as [[sch l]|] eqn:E; [|done]. cbn.
  intros [= <-]. apply scan_relation_ok. by eapply Hdb.
Qed.
Lemma exec_joins_exec_ok x js x' : exec_ok x → exec_joins db x js = Ok x' → exec_ok x'.
Proof.
  revert x. induction js as [|j js IH]; intros x Hx; cbn; [by intros [= <-]|].
  intros (right & Hs & H)%obind_Ok_inv. destruct (equi_keys (j_condition j)) as [[lk rk]|]; [|done].
  eapply IH, H. apply join_run_exec_ok; [done|by eapply exec_scan_ok].
Qed.
Lemma exec_source_exec_ok stmt x : exec_source db stmt = Ok x → exec_ok x.
Proof.
  unfold exec_source. intros (x1 & H1 & (x2 & H2 & [= <-])%obind_Ok_inv)%obind_Ok_inv.
  assert (exec_ok x2) as Hx by (eapply exec_joins_exec_ok; [by eapply exec_scan_ok|done]).
  destruct (where_clause stmt) as [e|]; cbn; [|done].
  eapply relation_ok_subset; [|exact Hx]. intros t. apply filter_run_rows.
Qed.
Lemma select_columns_built stmt sch out : built sch → select_columns stmt sch = Ok out → built out.
Proof.
  unfold select_columns. intros Hb. destruct (is_star_list _); [by intros [= <-]|].
  destruct (aggregates stmt); [by apply BuildAggSchema_built|by apply BuildProjectionSchema_built].
Qed.

(** The rows of a query, also of one that fails after some rows. *)
Lemma query_exec_sized stmt sch x :
  query_exec db stmt sch x → built sch ∧ Forall (sized sch) (run_rows x).
Proof.
  intros [sch' src out x1 x2 Hsrc _ _ Hout Hg Hs|sch' src out x1 Hsrc _ _ Hout Hs|sch' src x1 Hsrc _ Hs];
    pose proof (exec_source_exec_ok _ _ Hsrc) as (Hb & Hl & _); cbn [fst snd] in *.
  - split; [by eapply select_columns_built|]. apply Forall_forall. intros t Ht%(sorts_run_rows _ _ _ _ _ Hs).
    apply agg_run_sized in Hg. rewrite Forall_forall in Hg. auto.
  - split; [by eapply select_columns_built|apply project_rows_sized].
  - split; [done|]. rewrite Forall_forall in Hl |- *. intros t Ht%(sorts_run_rows _ _ _ _ _ Hs). auto.
Qed.
Lemma query_result_sized stmt sch l :
  query_result db stmt sch l → built sch ∧ Forall (sized sch) l.
Proof. intros H%query_result_exec. exact (query_exec_sized _ _ _ H). Qed.
End queries.
