(* ===== verification/DatabaseSpec.v ===== *)
(** * What the database promises

    The abstract database maps a table name to a schema and a list of rows.
    [adb_step] is the meaning of a statement on it, errors included; [db_rep]
    relates the catalog and the pages to it.  Every statement of the program
    makes a step of the abstract database. *)
From stdpp Require Import base gmap list strings.
From Stdlib Require Import ZArith Lia Ascii.
From S2P Require Import Prelude Types PageCache HeapFile HeapFileSpec Ast Catalog Executor ExecutorSpec ExecutorSort ExecutorJoin ExecutorAggregate Planner PlannerSpec QueryExec QuerySpec Database RowSpec.

(** ** The abstract database *)
Definition create_schema (stmt : CreateTableStmt) : Schema :=
  Schema_ctor ((λ def, mkColumn (cd_name def) (mkColumnType (cd_type_id def) (cd_max_len def)))
                 <$> ct_columns stmt).
Definition created (name : string) : QueryResult :=
  mkQueryResult [] [] ("Table '" +:+ name +:+ "' created.").
Definition inserted : QueryResult := mkQueryResult [] [] "Inserted 1 row.".

(** The row an INSERT adds, or why it is refused. *)
Definition insert_row (schema : Schema) (values : list Expr) : outcome Tuple :=
  if negb (bool_decide (length values = GetColumnCount schema)) then
    Fault (Throw "Column count mismatch in INSERT")
  else vals <-! insert_values schema 0 values ;; Tuple_ctor vals schema.

(** The rows as ExecSelect prints them. *)
Definition rendered (sch : Schema) (l : list Tuple) (strs : list (list string)) : Prop :=
  oall (λ t, render_row t sch 0 (GetColumnCount sch)) l = Ok strs.

Inductive adb_step (adb : abs_db) : Statement → abs_db → outcome QueryResult → Prop :=
  | adb_create stmt :
      adb !! ct_table_name stmt = None →
      adb_step adb (CreateTableS stmt) (<[ct_table_name stmt := (create_schema stmt, [])]> adb)
        (Ok (created (ct_table_name stmt)))
  | adb_create_exists stmt :
      is_Some (adb !! ct_table_name stmt) →
      adb_step adb (CreateTableS stmt) adb
        (Fault (Throw ("Table already exists: " +:+ ct_table_name stmt)))
  | adb_insert stmt sch l t :
      adb !! ins_table_name stmt = Some (sch, l) → insert_row sch (ins_values stmt) = Ok t →
      adb_step adb (InsertS stmt) (<[ins_table_name stmt := (sch, l ++ [t])]> adb) (Ok inserted)
  | adb_insert_refused stmt sch l f :
      adb !! ins_table_name stmt = Some (sch, l) → insert_row sch (ins_values stmt) = Fault f →
      adb_step adb (InsertS stmt) adb (Fault f)
  | adb_insert_unknown stmt :
      adb !! ins_table_name stmt = None →
      adb_step adb (InsertS stmt) adb
        (Fault (Throw ("Table not found: " +:+ ins_table_name stmt)))
  | adb_select stmt sch l strs :
      query_result adb stmt sch l → rendered sch l strs →
      adb_step adb (SelectS stmt) adb
        (Ok (mkQueryResult (col_name <$> columns_ sch) strs ""))
  | adb_select_fails stmt f :
      query_fails adb stmt f → adb_step adb (SelectS stmt) adb (Fault f)
  | adb_explain stmt :
      adb_step adb (ExplainS stmt) adb
        (Ok (mkQueryResult ["plan"%string]
               ((λ line, [line]) <$> getlines (Explain (ex_select stmt))) "")).

(** The statements the promise covers: tables whose rows fit a page, and queries
    of fewer than 2^32 bytes per row that have a result or throw. *)
Definition covered (adb : abs_db) (stmt : Statement) : Prop :=
  match stmt with
  | CreateTableS s => schema_fits (columns_ (create_schema s)) ∧ size_ok (GetTupleSize (create_schema s))
  | SelectS s =>
      (∀ out, query_schema adb s = Ok out → cols_size (columns_ out) < 2 ^ 32) ∧
      ((∃ sch l, query_result adb s sch l) ∨ ∃ msg, query_fails adb s (Throw msg))
  | _ => True
  end.

(** Tables of the abstract database: rows of the size of their schema. *)
Record table_ok (r : Schema * list Tuple) : Prop := {
  to_built : built r.1;
  to_fits : cols_size (columns_ r.1) < 2 ^ 32;
  to_sized : Forall (sized r.1) r.2
}.
Lemma table_relation_ok r : table_ok r → relation_ok r.
Proof. by intros [? ? ?]. Qed.

(** ** Representation *)
Section rep.
Context {S : Type} {PC : PageCache S} {PCS : PageCacheSpec S}.

Record table_rep (info : TableInfo) (st : pages) (ps : chain) (entry : Schema * list Tuple) : Prop := {
  tr_heap : heap_rep (ti_heap_file info) st ps;
  tr_schema : schema_ (ti_heap_file info) = ti_schema info;
  tr_entry : entry = (ti_schema info, (chain_entries ps).*2)
}.

Record db_rep (d : Catalog * S) (st : pages) (chains : gmap string chain) (adb : abs_db) : Prop := {
  dr_store : pc_rep d.2 st ∅;
  dr_cap : (0 < pc_cap d.2)%nat;
  dr_table name info : tables_ d.1 !! name = Some info →
    ∃ ps entry, chains !! name = Some ps ∧ adb !! name = Some entry ∧ table_rep info st ps entry;
  dr_none name : tables_ d.1 !! name = None → chains !! name = None ∧ adb !! name = None;
  dr_ok name entry : adb !! name = Some entry → table_ok entry;
  dr_disjoint n m ps qs : n ≠ m → chains !! n = Some ps → chains !! m = Some qs →
    ∀ p, p ∈ ps.*1 → p ∉ qs.*1
}.

(** The pages of a table. *)
Definition chain_ids (chains : gmap string chain) (name : string) : list Z :=
  match chains !! name with Some ps => ps.*1 | None => [] end.

Lemma table_rep_frame info st st' ps entry :
  table_rep info st ps entry → (∀ p, p ∈ ps.*1 → st' !! p = st !! p) → table_rep info st' ps entry.
Proof.
  intros [[H1 H2 H3 H4 H5 H6] Hs He] Hfr. split; [|done|done]. split; [done| |done..].
  by eapply chain_seg_frame.
Qed.
Lemma table_rep_in_store info st ps entry p :
  table_rep info st ps entry → p ∈ ps.*1 → is_Some (st !! p).
Proof. intros [Hh _ _]. apply chain_seg_in_store with (1 := hr_chain _ _ _ Hh). Qed.

Lemma db_rep_lookup d st chains adb name :
  db_rep d st chains adb →
  match tables_ d.1 !! name with
  | Some info => ∃ ps entry, chains !! name = Some ps ∧ adb !! name = Some entry ∧
                   table_rep info st ps entry
  | None => adb !! name = None
  end.
Proof.
  intros Hd. destruct (tables_ d.1 !! name) as [info|] eqn:E.
  - by apply (dr_table _ _ _ _ Hd).
  - by apply (dr_none _ _ _ _ Hd).
Qed.
(** From the abstract table to the catalog's entry. *)
Lemma db_rep_found d st chains adb name sch l :
  db_rep d st chains adb → adb !! name = Some (sch, l) →
  ∃ info ps, tables_ d.1 !! name = Some info ∧ ti_schema info = sch ∧
    heap_rep (ti_heap_file info) st ps ∧ l = (chain_entries ps).*2.
Proof.
  intros Hd Ha. pose proof (db_rep_lookup _ _ _ _ name Hd) as Hl.
  destruct (tables_ d.1 !! name) as [info|]; [|congruence].
  destruct Hl as (ps & entry & _ & Ha' & [Hh _ ->]). rewrite Ha in Ha'. injection Ha' as -> ->. by exists info, ps.
Qed.
Lemma db_rep_missing d st chains adb name :
  db_rep d st chains adb → adb !! name = None → tables_ d.1 !! name = None.
Proof.
  intros Hd Ha. pose proof (db_rep_lookup _ _ _ _ name Hd) as Hl.
  destruct (tables_ d.1 !! name); [|done]. destruct Hl as (? & ? & _ & ? & _). congruence.
Qed.
(** Reading pages moves them through the cache and changes no table. *)
Lemma db_rep_storage c s s' st chains adb :
  db_rep (c, s) st chains adb → pc_rep s' st ∅ → pc_cap s' = pc_cap s → db_rep (c, s') st chains adb.
Proof. intros [H1 H2 H3 H4 H5 H6] Hr Hc. split; cbn [fst snd] in *; [done|by rewrite Hc|done..]. Qed.
Lemma db_rep_tables_stored d st chains adb :
  db_rep d st chains adb → tables_stored d.1 adb st.
Proof.
  intros Hd name. pose proof (db_rep_lookup _ _ _ _ name Hd) as Hl.
  destruct (tables_ d.1 !! name) as [info|]; [|done].
  destruct Hl as (ps & entry & _ & Ha & [Hh _ ->]). eauto.
Qed.

(** Replacing the entry of one table by one whose pages are its own or new. *)
Lemma db_rep_update c s s' st st' chains adb name info ps' entry :
  db_rep (c, s) st chains adb →
  pc_rep s' st' ∅ → pc_cap s' = pc_cap s → table_rep info st' ps' entry → table_ok entry →
  (∀ q, is_Some (st !! q) → q ∉ chain_ids chains name → st' !! q = st !! q) →
  (∀ q, q ∈ ps'.*1 → q ∈ chain_ids chains name ∨ st !! q = None) →
  db_rep (mkCatalog (<[name := info]> (tables_ c)), s') st' (<[name := ps']> chains)
    (<[name := entry]> adb).
Proof.
  intros Hd Hs Hcap Ht Hok Hfr Hnew.
  assert (∀ m qs p, m ≠ name → chains !! m = Some qs → p ∈ qs.*1 →
    is_Some (st !! p) ∧ p ∉ chain_ids chains name) as Hother.
  { intros m qs p Hne Hm Hp. destruct (tables_ c !! m) as [im|] eqn:Em.
    - destruct (dr_table _ _ _ _ Hd _ _ Em) as (qs' & em & Hm' & _ & Hrm). simplify_eq.
      split; [by eapply table_rep_in_store|]. unfold chain_ids.
      destruct (chains !! name) as [ps|] eqn:En; [|set_solver].
      by eapply (dr_disjoint _ _ _ _ Hd m name).
    - destruct (dr_none _ _ _ _ Hd _ Em). congruence. }
  split; cbn [fst snd tables_].
  - done.
  - rewrite Hcap. apply Hd.
  - intros m im. rewrite !lookup_insert. case_decide as E; [intros [= <-]; eauto 10|]. intros Em.
    destruct (dr_table _ _ _ _ Hd _ _ Em) as (qs & em & Hm & Ha & Hrm). exists qs, em.
    split_and!; [done|done|]. eapply table_rep_frame; [done|]. intros p Hp.
    destruct (Hother m qs p) as [? ?]; [congruence|done|done|]. by apply Hfr.
  - intros m. rewrite !lookup_insert. case_decide; [done|]. apply Hd.
  - intros m em. rewrite lookup_insert. case_decide; [by intros [= <-]|]. apply Hd.
  - intros n m qs1 qs2 Hnm. rewrite !lookup_insert. repeat case_decide; simplify_eq.
    + intros [= <-] Hm p Hp Hp2. destruct (Hother m qs2 p) as [[? ?] ?]; [congruence|done|done|].
      destruct (Hnew p Hp) as [?|?]; [done|congruence].
    + intros Hm [= <-] p Hp Hp2. destruct (Hother n qs1 p) as [[? ?] ?]; [congruence|done|done|].
      destruct (Hnew p Hp2) as [?|?]; [done|congruence].
    + intros Hn Hm. by apply (dr_disjoint _ _ _ _ Hd n m).
Qed.

(** A statement ends in state [d'] with result [r], given enough fuel. *)
Definition executes `{StdSort} (stmt : Statement) (d d' : Catalog * S) (r : outcome QueryResult) : Prop :=
  ∃ N, ∀ fuel, (N ≤ fuel)%nat → exec_statement fuel stmt d = (d', r).

Lemma executes_any `{StdSort} stmt d d' r :
  (∀ fuel, exec_statement fuel stmt d = (d', r)) → executes stmt d d' r.
Proof. intros He. by exists 0%nat. Qed.

(** The statement makes the step of the abstract database. *)
Definition simulates `{StdSort} (stmt : Statement) (d : Catalog * S) (st : pages) (adb : abs_db) : Prop :=
  ∃ d' st' chains' adb' r, executes stmt d d' r ∧ adb_step adb stmt adb' r ∧
    db_rep d' st' chains' adb' ∧ pc_cap d'.2 = pc_cap d.2 ∧
    (size st ≤ size st' ≤ Datatypes.S (size st))%nat.

Section statements.
Context `{StdSort} `{!StdSortSpec}.
Context (c : Catalog) (s : S) (st : pages) (chains : gmap string chain) (adb : abs_db).
Hypotheses (Hd : db_rep (c, s) st chains adb) (Hsz : Z.of_nat (size st) + 1 < 2 ^ 31).

(** A statement that changes nothing. *)
Lemma simulates_id stmt r :
  (∀ fuel, exec_statement fuel stmt (c, s) = ((c, s), r)) → adb_step adb stmt adb r →
  simulates stmt (c, s) st adb.
Proof.
  intros He Ha. exists (c, s), st, chains, adb, r. split_and!; [by apply executes_any|done|done|done|lia..].
Qed.

(** A table is created: it is empty. *)
Lemma create_table_rep name cols :
  tables_ c !! name = None → schema_fits cols → size_ok (GetTupleSize (Schema_ctor cols)) →
  ∃ c' s' st' chains', CreateTable name (Schema_ctor cols) (c, s) = ((c', s'), Ok tt) ∧
    db_rep (c', s') st' chains' (<[name := (Schema_ctor cols, [])]> adb) ∧ pc_cap s' = pc_cap s ∧
    size st' = Datatypes.S (size st).
Proof.
  intros E Hfit Hok.
  destruct (HeapFile_create_spec (Schema_ctor cols) s st ∅) as (s' & d & Hc & Hnone & Hcap & Hr & Hrep);
    [apply Hd|done|rewrite map_size_empty; apply (dr_cap _ _ _ _ Hd)|done|].
  set (pid := Z.of_nat (size st)) in *. set (hf := mkHeapFile (Schema_ctor cols) pid pid) in *.
  set (info := mkTableInfo name (Schema_ctor cols) hf pid).
  exists (mkCatalog (<[name := info]> (tables_ c))), s', (<[pid := d]> st), (<[name := [(pid, [])]]> chains).
  split_and!; [| |done|by rewrite map_size_insert_None].
  - unfold CreateTable, TableExists. rewrite bindM_get. cbn [fst]. rewrite E, bool_decide_false by by intros [].
    unfold bindM at 1. unfold zoomM. cbn [snd]. by rewrite Hc.
  - eapply db_rep_update; [exact Hd|done|done|by split|by split; [apply built_ctor, Hfit|apply Hfit|]|..].
    + intros q Hq _. rewrite lookup_insert_ne; [done|]. intros <-. rewrite Hnone in Hq. by destruct Hq.
    + intros q Hq. right. cbn in Hq. apply list_elem_of_singleton in Hq as ->. done.
Qed.

(** A row of the size of its table is inserted: it comes last. *)
Lemma insert_into_rep name info l t :
  tables_ c !! name = Some info → adb !! name = Some (ti_schema info, l) → sized (ti_schema info) t →
  ∃ c' s' st' chains' rid, insert_into name info t (c, s) = ((c', s'), Ok (Some rid)) ∧
    db_rep (c', s') st' chains' (<[name := (ti_schema info, l ++ [t])]> adb) ∧ pc_cap s' = pc_cap s ∧
    (size st ≤ size st' ≤ Datatypes.S (size st))%nat.
Proof.
  intros E Ha Hsz'. pose proof (db_rep_lookup _ _ _ _ name Hd) as Hl. cbn [fst] in Hl. rewrite E in Hl.
  destruct Hl as (ps & entry & Hch & Ha' & [Hh Hs Hentry]).
  assert (l = (chain_entries ps).*2) as -> by congruence. clear Ha' Hentry entry.
  destruct (InsertTuple_spec (ti_heap_file info) s st ∅ ps t (data_ t))
    as (hf' & s' & st' & ps' & r & Hi & Hpost); [apply Hd|apply pins_low_empty|done|done|done| |].
  { apply load_whole; [|by apply Hh]. rewrite Hs. exact Hsz'. }
  destruct (insert_post_some _ _ _ _ _ _ _ _ _ _ _ Hpost) as (rid & -> & Hent);
    [rewrite map_size_empty; apply (dr_cap _ _ _ _ Hd)|].
  destruct Hpost as [Hr' Hcap' [Hh' Hsch' _ _ Hfr (new & Hids & Hnew)] Hsize _].
  set (info' := mkTableInfo (ti_name info) (ti_schema info) hf' (ti_first_page_id info)).
  exists (mkCatalog (<[name := info']> (tables_ c))), s', st', (<[name := ps']> chains), rid.
  split_and!; [unfold insert_into; by rewrite Hi| |done|lia|lia].
  eapply db_rep_update; [exact Hd|done|done|..]; unfold chain_ids; rewrite ?Hch.
  - split; [done|cbn; congruence|]. cbn. rewrite Hent, fmap_app. by destruct t.
  - destruct (dr_ok _ _ _ _ Hd _ _ Ha) as [H1 H2 H3]. split; [done..|]. apply Forall_app.
    split; [done|]. by constructor.
  - done.
  - intros q. rewrite Hids, elem_of_app. intros [?|Hq]; [by left|right].
    rewrite Forall_forall in Hnew. by apply Hnew.
Qed.

Lemma create_simulates stmt :
  covered adb (CreateTableS stmt) → simulates (CreateTableS stmt) (c, s) st adb.
Proof.
  intros [Hfit Hok]. set (name := ct_table_name stmt). pose proof (db_rep_lookup _ _ _ _ name Hd) as Hl.
  destruct (tables_ c !! name) as [info|] eqn:E; cbn [fst] in Hl; rewrite E in Hl.
  - destruct Hl as (ps & entry & _ & Ha & _).
    apply (simulates_id _ (Fault (Throw ("Table already exists: " +:+ name)))).
    + intros fuel. cbn. unfold ExecCreate, CreateTable, TableExists. unfold bindM at 1. rewrite bindM_get.
      cbn [fst]. fold name. rewrite E. by rewrite bool_decide_true.
    + constructor. fold name. eauto.
  - destruct (create_table_rep name _ E Hfit Hok) as (c' & s' & st' & chains' & Hc & Hd' & Hcap & Hsize).
    eexists (c', s'), st', chains', _, (Ok (created name)). split_and!; [|by constructor|exact Hd'|done|lia|lia].
    apply executes_any. intros fuel. cbn. unfold ExecCreate. by rewrite (bindM_Ok _ _ _ _ _ Hc).
Qed.

(** What ExecInsert does on a table that exists. *)
Lemma ExecInsert_row fuel stmt info :
  tables_ c !! ins_table_name stmt = Some info →
  exec_statement fuel (InsertS stmt) (c, s) =
    match insert_row (ti_schema info) (ins_values stmt) with
    | Ok t => bindM (insert_into (ins_table_name stmt) info t) (λ r,
        match r with
        | None => throwM "INSERT failed — storage full"
        | Some _ => retM inserted
        end) (c, s)
    | Fault f => ((c, s), Fault f)
    end.
Proof.
  intros E. cbn [exec_statement]. unfold ExecInsert, insert_row. rewrite bindM_get.
  rewrite (bindM_lift _ info) by (unfold GetTable, catalog_; cbn [fst]; by rewrite E).
  cbv zeta. destruct (negb _); [done|]. unfold bindM at 1, liftM at 1.
  destruct (insert_values _ _ _) as [vals|]; [|done]. cbn [obind].
  unfold bindM at 1, liftM at 1. by destruct (Tuple_ctor vals (ti_schema info)).
Qed.

Lemma insert_simulates stmt : simulates (InsertS stmt) (c, s) st adb.
Proof.
  set (name := ins_table_name stmt). pose proof (db_rep_lookup _ _ _ _ name Hd) as Hl. cbn [fst] in Hl.
  destruct (tables_ c !! name) as [info|] eqn:E.
  2: { apply (simulates_id _ (Fault (Throw ("Table not found: " +:+ name)))).
    - intros fuel. cbn [exec_statement]. unfold ExecInsert. rewrite bindM_get. unfold bindM, liftM, GetTable, catalog_.
      cbn [fst]. fold name. by rewrite E.
    - by constructor. }
  destruct Hl as (ps & entry & _ & Ha & [_ _ ->]).
  destruct (insert_row (ti_schema info) (ins_values stmt)) as [t|f] eqn:Hrow.
  2: { apply (simulates_id _ (Fault f)); [|by eapply adb_insert_refused].
    intros fuel. by rewrite (ExecInsert_row _ _ info E), Hrow. }
  destruct (insert_into_rep name info _ t E Ha) as (c' & s' & st' & chains' & rid & Hi & Hd' & Hcap & Hsize).
  { unfold insert_row in Hrow. destruct (negb _); [done|].
    apply obind_Ok_inv in Hrow as (vals & _ & Ht). by eapply Tuple_ctor_length. }
  eexists (c', s'), st', chains', _, (Ok inserted). split_and!; [|by econstructor|exact Hd'|done|lia|lia].
  apply executes_any. intros fuel. rewrite (ExecInsert_row _ _ info E), Hrow.
  by rewrite (bindM_Ok _ _ _ _ _ Hi).
Qed.

(** Printing the rows of a plan, up to its end or its failure. *)
Lemma select_loop_spec depth N o sch str strs :
  @yields S PlanOp (plan_operator depth) N o str → rendered sch (rows str) strs →
  ∃ o', ∀ fuel n, (N ≤ fuel)%nat → (length (rows str) < n)%nat →
    select_loop (S := S) depth fuel n sch o =
      (o', match failure str with None => Ok strs | Some f => Fault f end).
Proof.
  intros Hy. revert strs.
  induction Hy as [o o' Hn Hs|o o' f Hn|o o' t str Hn Hs Hy IH]; intros strs; cbn [rows failure st_cons].
  - intros [= <-]. exists o'. intros fuel [|n] Hf Hl; [simpl in Hl; lia|]. cbn [select_loop].
    by rewrite (bindM_Ok _ _ _ _ _ (Hn fuel Hf)).
  - intros _. exists o'. intros fuel [|n] Hf Hl; [simpl in Hl; lia|]. cbn [select_loop].
    unfold bindM. by rewrite (Hn fuel Hf).
  - intros (row & Hrow & (rest & Hrest & [= <-])%obind_Ok_inv)%obind_Ok_inv.
    destruct (IH rest Hrest) as (o2 & Hloop).
    exists o2. intros fuel [|n] Hf Hl; simpl in Hl; [lia|]. cbn [select_loop].
    rewrite (bindM_Ok _ _ _ _ _ (Hn fuel Hf)), (bindM_lift _ _ _ _ Hrow).
    unfold bindM. rewrite Hloop by lia. by destruct (failure str).
Qed.

(** A planned query ends as its run does; the storage keeps the tables. *)
Lemma ExecSelect_run stmt plan sch x strs :
  Plan (S := S) c stmt = Ok plan → plan_execs st ∅ (pc_cap s) (plan_depth stmt) plan (sch, x) →
  rendered sch (run_rows x) strs →
  ∃ s', db_rep (c, s') st chains adb ∧ pc_cap s' = pc_cap s ∧
    executes (SelectS stmt) (c, s) (c, s')
      match run_failure x with
      | None => Ok (mkQueryResult (col_name <$> columns_ sch) strs "")
      | Some f => Fault f
      end.
Proof.
  intros Hplan [Hsch Hrun] Hstrs. cbn [fst snd] in Hsch, Hrun.
  assert (stored st ∅ (pc_cap s) s) as Hst by (split; [apply Hd|done]).
  assert (∀ fuel, exec_statement fuel (SelectS stmt) (c, s) =
    let '((_, s'), r) := run_plan (plan_depth stmt) fuel sch (plan, s) in
    ((c, s'), rows <-! r ;; Ok (mkQueryResult (col_name <$> columns_ sch) rows ""))) as Hexec.
  { intros fuel. cbn [exec_statement]. unfold ExecSelect. rewrite bindM_get, (bindM_lift _ _ _ _ Hplan).
    rewrite Hsch. unfold bindM. by destruct (run_plan _ _ _ _) as [[? ?] []]. }
  specialize (Hrun (plan_depth stmt) (le_n _)). destruct x as [str|f]; cbn [runs_as run_rows run_failure] in *.
  - destruct Hrun as [N HN]. destruct (HN s Hst) as (o1 & s1 & Hi & [Hr1 Hc1] & _ & Hy).
    destruct (select_loop_spec _ _ _ _ _ _ Hy Hstrs) as (o2 & Hloop).
    destruct (plan_close_ok o2) as (o3 & Hclose & _).
    exists s1. split_and!; [by eapply db_rep_storage|done|].
    exists (N + Datatypes.S (length (rows str)))%nat. intros fuel Hf. rewrite Hexec.
    unfold run_plan, bindM, on_op, zoomM. rewrite Hi by lia. cbn [fst snd].
    rewrite Hloop by lia. destruct (failure str); cbn [fst snd]; [done|]. by rewrite Hclose.
  - destruct Hrun as [N HN]. destruct (HN s Hst) as (o1 & s1 & Hi & [Hr1 Hc1]).
    exists s1. split_and!; [by eapply db_rep_storage|done|]. exists N. intros fuel Hf. rewrite Hexec.
    unfold run_plan, bindM. by rewrite Hi.
Qed.

Lemma select_simulates stmt :
  covered adb (SelectS stmt) → simulates (SelectS stmt) (c, s) st adb.
Proof.
  intros [Hfit Hcov].
  pose proof (db_rep_tables_stored _ _ _ _ Hd : tables_stored c adb st) as Ht.
  assert (∀ plan sch x, Plan (S := S) c stmt = Ok plan → query_exec adb stmt sch x →
    plan_execs st ∅ (pc_cap s) (plan_depth stmt) plan (sch, x) →
    simulates (SelectS stmt) (c, s) st adb) as Hrun.
  { intros plan sch x Hp Hq Hx.
    destruct (query_exec_sized adb (λ n r Hn, table_relation_ok r (dr_ok _ _ _ _ Hd n r Hn))
      stmt sch x Hq) as [Hb Hsized].
    destruct (rendered_defined sch (run_rows x) Hb (Hfit _ (query_exec_schema _ _ _ _ Hq)) Hsized) as (strs & Hstrs).
    destruct (ExecSelect_run stmt plan sch x strs Hp Hx Hstrs) as (s1 & Hd1 & Hc1 & He).
    exists (c, s1), st, chains, adb. eexists. split_and!; [exact He| |exact Hd1|done|lia|lia].
    destruct (run_failure x) as [f|] eqn:Hf; [by eapply adb_select_fails, qf_run|].
    destruct (run_ok x Hf) as (l & ->). apply query_result_exec in Hq. by econstructor. }
  destruct Hcov as [(sch & l & Hq%query_result_exec)|(msg & Hq)].
  - destruct (Plan_execs st ∅ (pc_cap s) pins_low_empty (dr_cap _ _ _ _ Hd) c adb stmt sch _ Ht Hq)
      as (plan & x & Hp & Hq' & _ & Hx). eauto.
  - destruct (Plan_fails st ∅ (pc_cap s) pins_low_empty (dr_cap _ _ _ _ Hd) c adb stmt _ Ht Hq)
      as [[Hs Hp]|(plan & sch & x & f & Hp & Hq' & _ & Hx)]; [|eauto].
    apply (simulates_id _ (Fault (Throw msg))); [|by apply adb_select_fails, qf_plan].
    intros fuel. cbn [exec_statement]. unfold ExecSelect. rewrite bindM_get. unfold bindM, liftM, catalog_.
    cbn [fst]. by rewrite Hp.
Qed.

Lemma statement_simulates stmt : covered adb stmt → simulates stmt (c, s) st adb.
Proof.
  destruct stmt as [stmt|stmt|stmt|stmt]; intros Hcov.
  - by apply create_simulates.
  - apply insert_simulates.
  - by apply select_simulates.
  - by eapply simulates_id; [|constructor].
Qed.
End statements.
End rep.
