(* ===== verification/DatabaseTheorems.v ===== *)
(** * The database: main theorems

    Sequences of SQL texts refine the abstract database; rows inserted are the
    rows selected; the rows of a plan are typed by its schema; what EXPLAIN
    prints is not the plan that runs. *)
From stdpp Require Import base gmap list strings.
From Stdlib Require Import ZArith Lia Ascii.
From S2P Require Import Prelude Types DiskManager PageCache BufferPool BufferPoolSpec BufferPoolTheorems HeapFile HeapFileSpec HeapFileTheorems Ast Parser Catalog Executor ExecutorSpec ExecutorSort ExecutorJoin ExecutorAggregate Planner PlannerSpec QueryExec QuerySpec Database RowSpec DatabaseSpec.

(** ** SQL texts *)

(** What a text does to the abstract database: a text that does not parse
    changes nothing. *)
Definition sql_step (adb : abs_db) (sql : string) (adb' : abs_db) (r : outcome QueryResult) : Prop :=
  match parse_sql sql with
  | Ok stmt => adb_step adb stmt adb' r
  | Fault f => adb' = adb ∧ r = Fault f
  end.
Definition sql_covered (adb : abs_db) (sql : string) : Prop :=
  match parse_sql sql with Ok stmt => covered adb stmt | Fault _ => True end.

Inductive sql_trace : abs_db → list string → abs_db → list (outcome QueryResult) → Prop :=
  | st_nil adb : sql_trace adb [] adb []
  | st_step adb sql adb1 r sqls adb2 rs :
      sql_step adb sql adb1 r → sql_trace adb1 sqls adb2 rs →
      sql_trace adb (sql :: sqls) adb2 (r :: rs).
Fixpoint all_covered (adb : abs_db) (sqls : list string) : Prop :=
  match sqls with
  | [] => True
  | sql :: sqls => sql_covered adb sql ∧ ∀ adb' r, sql_step adb sql adb' r → all_covered adb' sqls
  end.

Section sql.
Context {S : Type} {PC : PageCache S} {PCS : PageCacheSpec S} `{StdSort} `{!StdSortSpec}.
Local Abbreviation Database := (Catalog * S)%type.

(** The texts, one after the other, each with enough fuel; an exception does not
    end the session. *)
Inductive executes_sql : list string → Database → Database → list (outcome QueryResult) → Prop :=
  | es_nil d : executes_sql [] d d []
  | es_cons N sql d d1 r sqls d2 rs :
      (∀ fuel, (N ≤ fuel)%nat → Execute fuel sql d = (d1, r)) →
      executes_sql sqls d1 d2 rs → executes_sql (sql :: sqls) d d2 (r :: rs).

Lemma Execute_parsed fuel sql stmt (d : Database) :
  parse_sql sql = Ok stmt → Execute fuel sql d = exec_statement fuel stmt d.
Proof. intros Hp. unfold Execute, bindM, liftM. by rewrite Hp. Qed.

Lemma sql_simulates sql d st chains adb :
  db_rep d st chains adb → Z.of_nat (size st) + 1 < 2 ^ 31 → sql_covered adb sql →
  ∃ N d' st' chains' adb' r, (∀ fuel, (N ≤ fuel)%nat → Execute fuel sql d = (d', r)) ∧
    sql_step adb sql adb' r ∧ db_rep d' st' chains' adb' ∧
    (size st' ≤ Datatypes.S (size st))%nat.
Proof.
  intros Hd Hsz Hc. unfold sql_covered, sql_step in *. destruct d as [c s].
  destruct (parse_sql sql) as [stmt|f] eqn:Hp.
  - destruct (statement_simulates c s st chains adb Hd Hsz stmt Hc)
      as (d' & st' & chains' & adb' & r & [N He] & Hst & Hd' & _ & Hle).
    exists N, d', st', chains', adb', r. split_and!; [|done|done|lia].
    intros fuel Hf. rewrite (Execute_parsed _ _ _ _ Hp). by apply He.
  - exists 0%nat, (c, s), st, chains, adb, (Fault f). split_and!; [|done|done|done|lia].
    intros fuel _. unfold Execute, bindM, liftM. by rewrite Hp.
Qed.

Lemma sqls_simulate sqls d st chains adb :
  db_rep d st chains adb → Z.of_nat (size st) + Z.of_nat (length sqls) + 1 < 2 ^ 31 →
  all_covered adb sqls →
  ∃ d' st' chains' adb' rs, executes_sql sqls d d' rs ∧ sql_trace adb sqls adb' rs ∧
    db_rep d' st' chains' adb' ∧ (size st' ≤ size st + length sqls)%nat.
Proof.
  revert d st chains adb. induction sqls as [|sql sqls IH]; intros d st chains adb Hd Hsz Hc.
  { exists d, st, chains, adb, []. split_and!; [constructor|constructor|done|simpl; lia]. }
  destruct Hc as [Hc Hcs]. simpl in Hsz.
  destruct (sql_simulates sql d st chains adb Hd ltac:(lia) Hc)
    as (N & d1 & st1 & ch1 & adb1 & r & He & Hs & Hd1 & Hle).
  destruct (IH d1 st1 ch1 adb1 Hd1 ltac:(lia) (Hcs _ _ Hs))
    as (d2 & st2 & ch2 & adb2 & rs & Hes & Htr & Hd2 & Hle2).
  exists d2, st2, ch2, adb2, (r :: rs). split_and!; [by econstructor|by econstructor|done|simpl; lia].
Qed.
End sql.

(** A database on a new file. *)
Lemma new_database_rep fs path pool d0 :
  fs_files fs !! path = None → Database_ctor fs path pool = Ok d0 →
  (0 < pool)%nat → Z.of_nat pool < 2 ^ 31 → db_rep d0 ∅ ∅ ∅.
Proof.
  intros Hn Hc Hp0 Hp. unfold Database_ctor, DiskManager_ctor in Hc. rewrite Hn in Hc.
  destruct (fs_creatable fs path); [|done]. injection Hc as <-.
  split; cbn [fst snd]; [|done|..]; try (intros name; rewrite lookup_empty; done).
  assert (H0 : num_pages_ (DiskManager_open path []) = 0) by reflexivity.
  apply BufferPoolManager_ctor_inv; [done|split; [done|by rewrite H0|done]|done| |]; rewrite H0.
  - intros pid. rewrite lookup_empty. split; [by intros [? ?]|lia].
  - lia.
Qed.

(** C1. The whole program, from SQL text to pages: a session on a new database
    file gives, text by text, the results the abstract database gives (a map from
    table names to a schema and a list of rows), whatever the size of the buffer
    pool.  Queries return a result of their relational meaning.  Texts that do
    not parse, tables that exist or are missing, rows that do not match their
    table and queries that fail, in the planner or at some row of the plan, throw
    what the abstract database says and leave the tables as they were.
    ([all_covered]: tables created have rows of 1 to 4088 bytes, and a query has a
    result or throws, with rows under [2^32] bytes.) *)
Theorem Database_refines `{StdSort} `{!StdSortSpec} fs path pool d0 sqls :
  fs_files fs !! path = None → Database_ctor fs path pool = Ok d0 →
  (0 < pool)%nat → Z.of_nat pool < 2 ^ 31 →
  Z.of_nat (length sqls) + 1 < 2 ^ 31 → all_covered ∅ sqls →
  ∃ d adb rs, executes_sql sqls d0 d rs ∧ sql_trace ∅ sqls adb rs.
Proof.
  intros Hn Hc Hp0 Hp Hlen Hcov.
  destruct (sqls_simulate sqls d0 ∅ ∅ ∅ (new_database_rep _ _ _ _ Hn Hc Hp0 Hp))
    as (d & st & chains & adb & rs & He & Ht & _); [rewrite map_size_empty; lia|done|eauto].
Qed.

(** ** Inserted rows are selected *)

(** A literal of INSERT for a column, and what a SELECT shows of it. *)
Definition literal_fits (e : Expr) (c : Column) : Prop :=
  match type_id (col_type c), e with
  | INT, Expr.INT_LITERAL z => - 2 ^ 31 ≤ z < 2 ^ 31
  | VARCHAR, Expr.STRING_LITERAL _ => True
  | _, _ => False
  end.
Definition literal_value (e : Expr) (c : Column) : Value :=
  match e with
  | Expr.INT_LITERAL z => MakeInt z
  | Expr.STRING_LITERAL s => MakeVarchar s (max_len (col_type c))
  | _ => Value_default
  end.
Definition shown (e : Expr) (c : Column) : string :=
  match e with
  | Expr.INT_LITERAL z => to_string z
  | Expr.STRING_LITERAL s => stored_string (max_len (col_type c)) s
  | _ => ""
  end.

Lemma literal_value_fits e c : column_ok c → literal_fits e c → value_fits (literal_value e c) (col_type c).
Proof.
  unfold column_ok, literal_fits, value_fits. intros Hc. destruct (type_id (col_type c)), e; done.
Qed.
Lemma literal_shown e c : literal_fits e c → ToString (stored_value (literal_value e c)) = shown e c.
Proof. unfold literal_fits. by destruct (type_id (col_type c)), e. Qed.

Lemma insert_values_literals pre cols es :
  Forall2 literal_fits es cols →
  insert_values (Schema_ctor (pre ++ cols)) (length pre) es = Ok (zip_with literal_value es cols).
Proof.
  intros Hall. revert pre. induction Hall as [|e c es cols He _ IH]; intros pre; [done|]. cbn.
  unfold GetColumn. cbn. rewrite list_lookup_middle by done. cbn.
  specialize (IH (pre ++ [c])). rewrite length_app, Nat.add_1_r, <- app_assoc in IH. cbn in IH.
  unfold literal_fits in He. destruct (type_id (col_type c)), e; try done; cbn; by rewrite IH.
Qed.

(** Reading columns through the renamed schema of a scan. *)
Lemma GetValue_scan t cols alias i :
  GetValue t (MakeOutputSchema (Schema_ctor cols) alias) i = GetValue t (Schema_ctor cols) i.
Proof.
  unfold MakeOutputSchema. case_bool_decide; [done|]. unfold GetValue, GetColumnOffset, GetColumn.
  cbn. rewrite (schema_offsets_rename (λ c, alias +:+ "." +:+ col_name c)), list_lookup_fmap.
  by destruct (cols !! i).
Qed.
Lemma render_row_values t sch pre post :
  (∀ i v, (pre ++ post) !! i = Some v → GetValue t sch i = Ok (stored_value v)) →
  render_row t sch (length pre) (length post) = Ok ((ToString ∘ stored_value) <$> post).
Proof.
  revert pre. induction post as [|v post IH]; intros pre Hv; [done|]. cbn.
  rewrite (Hv (length pre) v) by by rewrite list_lookup_middle. cbn.
  specialize (IH (pre ++ [v])). rewrite length_app, Nat.add_1_r, <- app_assoc in IH.
  by rewrite IH.
Qed.

(** The row of an INSERT, and how it is shown. *)
Lemma insert_row_literals cols es alias :
  schema_fits cols → Forall2 literal_fits es cols →
  ∃ t, insert_row (Schema_ctor cols) es = Ok t ∧
    render_row t (MakeOutputSchema (Schema_ctor cols) alias) 0 (length cols)
    = Ok (zip_with shown es cols).
Proof.
  intros Hfit Hes. pose proof (Forall2_length _ _ _ Hes) as Hlen.
  assert (Forall2 (λ v c, value_fits v (col_type c)) (zip_with literal_value es cols) cols) as Hvf.
  { destruct Hfit as [Hok _]. clear Hlen. induction Hes as [|e c es cols He _ IH]; [constructor|].
    apply Forall_cons in Hok as [Hc Hok]. constructor; [by apply literal_value_fits|by apply IH]. }
  destruct (Tuple_ctor_spec cols _ Hfit Hvf) as (t & Ht & _ & Hv). exists t. split.
  - unfold insert_row, GetColumnCount. cbn. rewrite bool_decide_true by done. cbn.
    pose proof (insert_values_literals [] cols es Hes) as Hi. cbn in Hi. by rewrite Hi.
  - pose proof (render_row_values t (MakeOutputSchema (Schema_ctor cols) alias) []
      (zip_with literal_value es cols)) as Hr.
    rewrite length_zip_with, Hlen, Nat.min_id in Hr. cbn [length app] in Hr. rewrite Hr.
    + f_equal. clear - Hes. induction Hes as [|e c es cols He _ IH]; [done|]. cbn.
      rewrite IH. f_equal. by apply literal_shown.
    + intros i v Hi. rewrite GetValue_scan. by apply Hv.
Qed.

Section insert_select.
Context {S : Type} {PC : PageCache S} {PCS : PageCacheSpec S} `{StdSort} `{!StdSortSpec}.
Context (name : string) (sch : Schema).

Lemma executes_sql_app a b (d d1 d2 : Catalog * S) rs1 rs2 :
  executes_sql a d d1 rs1 → executes_sql b d1 d2 rs2 → executes_sql (a ++ b) d d2 (rs1 ++ rs2).
Proof. intros Ha Hb. induction Ha; [done|]. by econstructor; [|apply IHHa]. Qed.

(** One INSERT of a row that fits. *)
Lemma insert_executes sql es t d st chains adb l :
  db_rep d st chains adb → adb !! name = Some (sch, l) → Z.of_nat (size st) + 1 < 2 ^ 31 →
  parse_sql sql = Ok (InsertS (mkInsert name es)) → insert_row sch es = Ok t →
  ∃ d' st' chains', executes_sql [sql] d d' [Ok inserted] ∧
    db_rep d' st' chains' (<[name := (sch, l ++ [t])]> adb) ∧ (size st' ≤ Datatypes.S (size st))%nat.
Proof.
  intros Hd Ha Hsz Hp Hrow.
  destruct (sql_simulates sql d st chains adb Hd Hsz) as (N & d' & st' & ch' & adb' & r & He & Hs & Hd' & Hle).
  { unfold sql_covered. by rewrite Hp. }
  unfold sql_step in Hs. rewrite Hp in Hs.
  inversion Hs as [| |? ? ? ? Ha' Hrow'|? ? ? ? Ha' Hrow'|? Ha'| | |]; subst;
    cbn [ins_table_name ins_values] in *; rewrite Ha in Ha'; simplify_eq; rewrite Hrow in Hrow'; simplify_eq.
  exists d', st', ch'. split_and!; [|done|done]. econstructor; [exact He|constructor].
Qed.

Lemma inserts_execute sqls es ts d st chains adb l :
  db_rep d st chains adb → adb !! name = Some (sch, l) →
  Z.of_nat (size st) + Z.of_nat (length sqls) + 1 < 2 ^ 31 →
  Forall2 (λ sql e, parse_sql sql = Ok (InsertS (mkInsert name e))) sqls es →
  Forall2 (λ e t, insert_row sch e = Ok t) es ts →
  ∃ d' st' chains' rs, executes_sql sqls d d' rs ∧
    db_rep d' st' chains' (<[name := (sch, l ++ ts)]> adb) ∧
    (size st' ≤ size st + length sqls)%nat.
Proof.
  intros Hd Ha Hsz Hp. revert ts d st chains adb l Hd Ha Hsz.
  induction Hp as [|sql e sqls es Hp _ IH]; intros ts d st chains adb l Hd Ha Hsz Hts; simpl in Hsz.
  { apply Forall2_nil_inv_l in Hts as ->. exists d, st, chains, []. rewrite app_nil_r, insert_id by done.
    split_and!; [constructor|done|simpl; lia]. }
  apply Forall2_cons_inv_l in Hts as (t & ts' & Ht & Hts & ->).
  destruct (insert_executes sql e t d st chains adb l Hd Ha ltac:(lia) Hp Ht)
    as (d1 & st1 & ch1 & He1 & Hd1 & Hle1).
  destruct (IH ts' d1 st1 ch1 _ (l ++ [t]) Hd1 (lookup_insert_eq _ _ _) ltac:(lia) Hts)
    as (d2 & st2 & ch2 & rs & He2 & Hd2 & Hle2).
  rewrite insert_insert_eq, <- app_assoc in Hd2. exists d2, st2, ch2, (Ok inserted :: rs).
  split_and!; [exact (executes_sql_app [sql] _ _ _ _ _ _ He1 He2)|exact Hd2|simpl; lia].
Qed.

Definition select_star : SelectStmt := mkSelect [mkSelectItem Expr.STAR ""] name "" [] None [] [].

Lemma select_star_result adb l :
  adb !! name = Some (sch, l) → ∀ sch' l',
  query_result adb select_star sch' l' ↔ sch' = MakeOutputSchema sch name ∧ l' = l.
Proof.
  intros Ha sch' l'.
  assert (ref_source adb select_star = Ok (MakeOutputSchema sch name, l)) as Hsrc.
  { unfold ref_source, ref_scan, ref_table. cbn. by rewrite Ha. }
  split.
  - intros [? ? ? ? ? _ Hstar|? ? ? ? ? _ Hstar|sch0 l0 res Hs _ Ho]; [done|done|].
    rewrite Hsrc in Hs. injection Hs as <- <-. done.
  - intros [-> ->]. by eapply qr_star; [exact Hsrc|done|].
Qed.

(** SELECT * on a table. *)
Lemma select_star_executes sql d st chains adb l strs :
  db_rep d st chains adb → adb !! name = Some (sch, l) → Z.of_nat (size st) + 1 < 2 ^ 31 →
  parse_sql sql = Ok (SelectS select_star) →
  rendered (MakeOutputSchema sch name) l strs →
  ∃ d', executes_sql [sql] d d'
    [Ok (mkQueryResult (col_name <$> columns_ (MakeOutputSchema sch name)) strs "")].
Proof.
  intros Hd Ha Hsz Hp Hstrs.
  destruct (sql_simulates sql d st chains adb Hd Hsz) as (N & d' & st' & ch' & adb' & r & He & Hs & _).
  { unfold sql_covered. rewrite Hp.
    assert (query_result adb select_star (MakeOutputSchema sch name) l) as Hq
      by by apply (select_star_result _ _ Ha).
    split; [|eauto]. intros out. rewrite (query_result_schema _ _ _ _ Hq). intros [= <-].
    destruct (dr_ok _ _ _ _ Hd _ _ Ha) as [_ Hfit _]. unfold MakeOutputSchema.
    case_bool_decide; [done|]. cbn. by rewrite (cols_size_rename (λ c, name +:+ "." +:+ col_name c)). }
  unfold sql_step in Hs. rewrite Hp in Hs. inversion Hs as [| | | | |? ? ? ? Hq Hr|? ? Hq|]; subst.
  2: { exfalso. eapply query_result_fails; [|exact Hq]. by apply (select_star_result _ _ Ha). }
  apply (select_star_result _ _ Ha) in Hq as [-> ->]. unfold rendered in *.
  rewrite Hstrs in Hr. injection Hr as <-. exists d'. econstructor; [exact He|constructor].
Qed.
End insert_select.

(** C2. Round trip through the whole program: after CREATE TABLE and any number
    of INSERTs of literals that fit their columns into a new database, SELECT *
    returns exactly the inserted rows in the order of insertion, integers in
    decimal and strings cut at the length of their column; its columns are named
    by the table and the column. *)
Theorem create_insert_select `{StdSort} `{!StdSortSpec} fs path pool d0
    name defs create_sql insert_sqls select_sql es :
  let stmt := mkCreateTable name defs in
  let cols := columns_ (create_schema stmt) in
  fs_files fs !! path = None → Database_ctor fs path pool = Ok d0 →
  (0 < pool)%nat → Z.of_nat pool < 2 ^ 31 →
  name ≠ ""%string → schema_fits cols → size_ok (GetTupleSize (create_schema stmt)) →
  parse_sql create_sql = Ok (CreateTableS stmt) →
  Forall2 (λ sql e, parse_sql sql = Ok (InsertS (mkInsert name e))) insert_sqls es →
  parse_sql select_sql = Ok (SelectS (select_star name)) →
  Forall (λ e, Forall2 literal_fits e cols) es →
  Z.of_nat (length insert_sqls) + 3 < 2 ^ 31 →
  ∃ d rs, executes_sql (create_sql :: insert_sqls ++ [select_sql]) d0 d
    (rs ++ [Ok (mkQueryResult ((λ def, name +:+ "." +:+ cd_name def) <$> defs)
              ((λ e, zip_with shown e cols) <$> es) "")]).
Proof.
  intros stmt cols Hn Hc Hp0 Hp Hname Hfit Hok Hpc Hpi Hps Hes Hlen.
  pose proof (new_database_rep _ _ _ _ Hn Hc Hp0 Hp) as Hd0.
  destruct (sql_simulates create_sql d0 ∅ ∅ ∅ Hd0) as (N & d1 & st1 & ch1 & adb1 & r & He & Hs & Hd1 & Hle1);
    [done|by unfold sql_covered; rewrite Hpc|].
  unfold sql_step in Hs. rewrite Hpc in Hs.
  inversion Hs as [? _|? [? Ha]| | | | | |]; subst; [|by rewrite lookup_empty in Ha].
  cbn [ct_table_name stmt] in Hd1. rewrite map_size_empty in Hle1.
  assert (∃ ts, Forall2 (λ e t, insert_row (create_schema stmt) e = Ok t) es ts ∧
    rendered (MakeOutputSchema (create_schema stmt) name) ts ((λ e, zip_with shown e cols) <$> es)) as (ts & Hts & Hr).
  { clear - Hes Hfit Hname. induction Hes as [|e es He _ (ts & Hts & Hr)]; [by exists []|].
    destruct (insert_row_literals cols e name Hfit He) as (t & Ht & Hrow).
    exists (t :: ts). split; [by constructor|]. unfold rendered in *. cbn [oall].
    replace (GetColumnCount (MakeOutputSchema (create_schema stmt) name)) with (length cols) in Hr |- *.
    2: { unfold GetColumnCount, MakeOutputSchema. rewrite bool_decide_false by done. cbn.
         by rewrite !length_fmap. }
    change (create_schema stmt) with (Schema_ctor cols) in Hr |- *. rewrite Hrow. cbn [obind]. by rewrite Hr. }
  destruct (inserts_execute name (create_schema stmt) insert_sqls es ts d1 st1 ch1 _ [] Hd1
    (lookup_insert_eq _ _ _) ltac:(lia) Hpi Hts) as (d2 & st2 & ch2 & rs & He2 & Hd2 & Hle2).
  destruct (select_star_executes name (create_schema stmt) select_sql d2 st2 ch2 _ ts _ Hd2
    (lookup_insert_eq _ _ _) ltac:(lia) Hps Hr) as (d3 & He3).
  exists d3, (Ok (created name) :: rs). apply (es_cons N create_sql _ d1); [exact He|].
  eapply executes_sql_app; [exact He2|]. unfold MakeOutputSchema in He3.
  rewrite bool_decide_false in He3 by done. cbn in He3. by rewrite <- !list_fmap_compose in He3.
Qed.

(** ** Types of the rows of a plan *)
Section plans.
Context {S : Type} {PC : PageCache S} {PCS : PageCacheSpec S} `{StdSort} `{!StdSortSpec}.

(** C7. Type soundness of plans: over tables whose rows have the size of their
    schema, every query that can be planned has a plan whose rows all have the
    size its output schema says, so every column of them can be read in bounds,
    through scans, joins, filters, aggregates, sorts and projections; also when
    the query fails after some of its rows. *)
Theorem plan_rows_typed st pins cap c db stmt sch x :
  pins_low pins → (size pins < cap)%nat → tables_stored c db st →
  (∀ name r, db !! name = Some r → relation_ok r) → query_exec db stmt sch x →
  ∃ plan x', Plan (S := S) c stmt = Ok plan ∧
    @runs_as S PlanOp (plan_operator (plan_depth stmt)) (stored st pins cap) plan x' ∧
    (run_failure x = None ↔ run_failure x' = None) ∧
    Forall (sized (plan_schema plan)) (run_rows x') ∧
    (cols_size (columns_ (plan_schema plan)) < 2 ^ 32 → ∀ t i, t ∈ run_rows x' →
       (i < GetColumnCount (plan_schema plan))%nat → ∃ v, GetValue t (plan_schema plan) i = Ok v).
Proof.
  intros Hlow Hcap Ht Hdb Hq.
  destruct (Plan_execs st pins cap Hlow Hcap c db stmt sch x Ht Hq)
    as (plan & x' & Hp & Hq' & Hiff & Hsch & Hrun).
  destruct (query_exec_sized db Hdb stmt sch x' Hq') as [Hb Hl]. cbn in Hsch. rewrite <- Hsch in Hb, Hl.
  exists plan, x'. split_and!; [done|by apply Hrun|done|done|]. intros Hfit t i Hin Hi.
  rewrite Forall_forall in Hl. apply GetValue_defined; auto.
Qed.
End plans.

(** ** EXPLAIN *)

(** EXPLAIN does not show the plan that runs: for a query with ORDER BY that
    is neither SELECT * nor aggregated, the planner sorts below the projection
    (so that ORDER BY may name columns that are not selected) and EXPLAIN prints
    the sort above it. *)
Theorem Explain_order {S : Type} `{!PageCache S} `{!StdSort} c stmt plan :
  Plan (S := S) c stmt = Ok plan →
  is_star_list (select_list stmt) = false → aggregates stmt = false → order_by stmt ≠ [] →
  (∃ child exprs names out, plan =
     P_Projection (mkProjection (P_Sort (Sort_ctor child (order_by stmt))) exprs names out)) ∧
  ∃ rest, getlines (Explain stmt) = "Sort"%string :: "  Projection"%string :: rest.
Proof.
  intros Hp Hstar Hagg Hord. split.
  - unfold Plan in Hp. rewrite Hstar in Hp. cbn [negb andb] in Hp. fold (aggregates stmt) in Hp.
    rewrite Hagg in Hp. apply obind_Ok_inv in Hp as (scan & _ & (plan' & _ & Hp)%obind_Ok_inv).
    apply obind_Ok_inv in Hp as (out & _ & [= <-]). destruct (order_by stmt); [done|]. by eexists _, _, _, _.
  - unfold Explain. fold (aggregates stmt). rewrite Hagg, Hstar. cbn [explain_lines negb andb].
    rewrite (bool_decide_false (length (order_by stmt) = 0%nat)) by (by destruct (order_by stmt)).
    destruct (bool_decide (is_Some _)), (bool_decide (length (joins stmt) = 0%nat)); cbn; eauto.
Qed.

(** ** A session *)
#[local] Existing Instance InsertionSort.
#[local] Existing Instance InsertionSort_spec.
Definition demo_fs : FileSystem := mkFileSystem ∅ (λ _, true).
Definition demo_db : Catalog * BufferPoolManager :=
  (Catalog_ctor, BufferPoolManager_ctor 2 (DiskManager_open "mydb.db" [])).

Lemma create_insert_select_witness :
  ∃ d rs, executes_sql
    ["CREATE TABLE users (id INT, name VARCHAR(4));"%string;
     "INSERT INTO users VALUES (1, 'Alice');"%string;
     "INSERT INTO users VALUES (2, 'Bob');"%string;
     "SELECT * FROM users;"%string] demo_db d
    (rs ++ [Ok (mkQueryResult ["users.id"; "users.name"]%string
                  [["1"; "Alic"]; ["2"; "Bob"]]%string "")]).
Proof.
  apply (create_insert_select demo_fs "mydb.db" 2 demo_db "users"
    [mkColumnDef "id" INT 0; mkColumnDef "name" VARCHAR 4]
    "CREATE TABLE users (id INT, name VARCHAR(4));"
    ["INSERT INTO users VALUES (1, 'Alice');"%string; "INSERT INTO users VALUES (2, 'Bob');"%string]
    "SELECT * FROM users;"
    [[Expr.INT_LITERAL 1; Expr.STRING_LITERAL "Alice"]; [Expr.INT_LITERAL 2; Expr.STRING_LITERAL "Bob"]]).
  - reflexivity.
  - reflexivity.
  - lia.
  - lia.
  - discriminate.
  - split; [repeat constructor; simpl; lia|vm_compute; reflexivity].
  - vm_compute. split; congruence.
  - vm_compute. reflexivity.
  - repeat constructor; vm_compute; reflexivity.
  - vm_compute. reflexivity.
  - repeat constructor; vm_compute; congruence.
  - simpl. lia.
Defined.

Definition demo_session : list string :=
  ["CREATE TABLE users (id INT);"; "SELECT * FROM users;"; "SELECT nope FROM users;";
   "SELECT * FROM pets;"; "INSERT INTO pets VALUES (1);"; "DROP TABLE users;"].
Definition demo_users : Schema := create_schema (mkCreateTable "users" [mkColumnDef "id" INT 0]).

Lemma Database_refines_witness :
  ∃ d adb rs, executes_sql demo_session demo_db d rs ∧ sql_trace ∅ demo_session adb rs.
Proof.
  assert (parse_sql "CREATE TABLE users (id INT);"
    = Ok (CreateTableS (mkCreateTable "users" [mkColumnDef "id" INT 0]))) as H1 by (vm_compute; reflexivity).
  assert (parse_sql "SELECT * FROM users;" = Ok (SelectS (select_star "users"))) as H2 by (vm_compute; reflexivity).
  assert (parse_sql "SELECT nope FROM users;" = Ok (SelectS (mkSelect
    [mkSelectItem (Expr.COLUMN_REF "" "nope") ""] "users" "" [] None [] []))) as H3 by (vm_compute; reflexivity).
  assert (parse_sql "SELECT * FROM pets;" = Ok (SelectS (select_star "pets"))) as H4 by (vm_compute; reflexivity).
  assert (parse_sql "INSERT INTO pets VALUES (1);" = Ok (InsertS (mkInsert "pets" [Expr.INT_LITERAL 1])))
    as H5 by (vm_compute; reflexivity).
  pose proof (lookup_insert_eq (∅ : abs_db) "users"%string (demo_users, [])) as Ha.
  assert (query_result (<["users"%string := (demo_users, [])]> ∅) (select_star "users")
    (MakeOutputSchema demo_users "users") []) as Hq
    by exact (proj2 (select_star_result "users" _ _ _ Ha _ _) (conj eq_refl eq_refl)).
  apply (Database_refines demo_fs "mydb.db" 2 demo_db).
  - reflexivity.
  - reflexivity.
  - lia.
  - lia.
  - simpl. lia.
  - unfold demo_session. cbn [all_covered]. unfold sql_covered, sql_step. rewrite H1, H2, H3, H4, H5. split.
    { split; [split; [repeat constructor; simpl; lia|vm_compute; reflexivity]|vm_compute; split; congruence]. }
    intros adb1 r1 Hs1. inversion Hs1 as [? _|? [? Ha1]| | | | | |]; subst; [|by rewrite lookup_empty in Ha1].
    change (create_schema _) with demo_users. cbn [ct_table_name]. split.
    { split; [|by eauto]. intros out. rewrite (query_result_schema _ _ _ _ Hq). intros [= <-].
      vm_compute. reflexivity. }
    intros adb2 r2 Hs2. assert (adb2 = <["users"%string := (demo_users, [])]> ∅) as -> by by inversion Hs2.
    split.
    { split; [intros out Ho; vm_compute in Ho; discriminate|]. right.
      exists "Column not found: nope"%string. apply qf_plan. vm_compute. reflexivity. }
    intros adb3 r3 Hs3. assert (adb3 = <["users"%string := (demo_users, [])]> ∅) as -> by by inversion Hs3.
    split.
    { split; [intros out Ho; vm_compute in Ho; discriminate|]. right.
      exists "Table not found: pets"%string. apply qf_plan. vm_compute. reflexivity. }
    intros adb4 r4 _. split; [exact I|]. intros adb5 r5 _.
    destruct (parse_sql "DROP TABLE users;") as [bad|f] eqn:E; [vm_compute in E; discriminate|].
    split; [exact I|]. intros. exact I.
Defined.

Definition demo_table : TableInfo := mkTableInfo "t" (create_schema (mkCreateTable "t"
  [mkColumnDef "a" INT 0; mkColumnDef "b" INT 0])) (mkHeapFile (Schema_ctor []) 0 0) 0.
Definition ordered_query : SelectStmt :=
  mkSelect [mkSelectItem (Expr.COLUMN_REF "" "a") ""] "t" "" [] None []
    [mkOrderByItem (Expr.COLUMN_REF "" "b") true].

Lemma Explain_order_witness :
  parse_sql "SELECT a FROM t ORDER BY b;" = Ok (SelectS ordered_query) ∧
  ∃ rest, getlines (Explain ordered_query) = "Sort"%string :: "  Projection"%string :: rest.
Proof.
  split; [vm_compute; reflexivity|].
  destruct (Plan (S := BufferPoolManager) (mkCatalog {["t"%string := demo_table]}) ordered_query)
    as [plan|f] eqn:E; [|vm_compute in E; discriminate].
  apply (Explain_order (mkCatalog {["t"%string := demo_table]}) ordered_query plan).
  - exact E.
  - reflexivity.
  - reflexivity.
  - discriminate.
Defined.

(** A table of one row, read by SELECT *. *)
Lemma plan_rows_typed_witness :
  ∃ st info plan x', Plan (S := BufferPoolManager) (mkCatalog {["t"%string := info]}) (select_star "t") = Ok plan ∧
    @runs_as BufferPoolManager PlanOp (plan_operator 4) (stored st ∅ 1) plan x' ∧
    run_failure x' = None ∧ Forall (sized (plan_schema plan)) (run_rows x').
Proof.
  destruct demo_heap as (s & d & _ & Hr & Hcap & Hrep).
  destruct (InsertTuple_spec (mkHeapFile demo_schema 0 0) s {[0 := d]} ∅ [(0, [])] (demo_row "a"%char)
    (data_ (demo_row "a"%char))) as (hf & s' & st & ps & r & _ & [_ _ [Hh Hs _ _ _ _] _ Hent]).
  - exact Hr.
  - apply pins_low_empty.
  - rewrite map_size_singleton. lia.
  - exact Hrep.
  - reflexivity.
  - reflexivity.
  - set (info := mkTableInfo "t" demo_schema hf 0). set (rows := (chain_entries ps).*2).
    set (db := {["t"%string := (demo_schema, rows)]} : abs_db).
    assert (Forall (sized demo_schema) rows) as Hsized.
    { unfold rows. destruct r as [rid|]; [|destruct Hent as [Hent _]]; rewrite Hent; cbn;
        repeat constructor. }
    exists st, info.
    destruct (plan_rows_typed (S := BufferPoolManager) st ∅ 1 (mkCatalog {["t"%string := info]}) db
      (select_star "t") (MakeOutputSchema demo_schema "t") (rows_run rows)) as (plan & x' & Hp & Hpr & Hf & Hl & _).
    + apply pins_low_empty.
    + rewrite map_size_empty. lia.
    + intros name. cbn. destruct (decide (name = "t"%string)) as [->|Hne].
      * rewrite lookup_singleton_eq. exists ps. split; [exact Hh|]. apply lookup_singleton_eq.
      * rewrite lookup_singleton_ne by congruence. by apply lookup_singleton_ne.
    + intros name [sch l] Hn. apply lookup_singleton_Some in Hn as [_ [= <- <-]].
      split_and!; [split; [reflexivity|repeat constructor; simpl; lia]|exact Hsized|].
      intros _. vm_compute. reflexivity.
    + apply query_result_exec. exact (proj2 (select_star_result "t" demo_schema db rows (lookup_singleton_eq _ _) _ _) (conj eq_refl eq_refl)).
    + exists plan, x'. split; [exact Hp|]. split; [exact Hpr|]. split; [|exact Hl].
      apply Hf. reflexivity.
Defined.

(** The session of the README, run on the model. *)
Fixpoint session (fuel : nat) (sqls : list string) : M (Catalog * BufferPoolManager) (list QueryResult) :=
  match sqls with
  | [] => retM []
  | sql :: sqls => r <- Execute fuel sql ;; rs <- session fuel sqls ;; retM (r :: rs)
  end.
Example readme_session :
  (r <-! (session 40
    ["CREATE TABLE users (id INT, name VARCHAR(255), age INT);";
     "INSERT INTO users VALUES (1, 'Alice', 28);"; "INSERT INTO users VALUES (2, 'Bob', 34);";
     "SELECT name, age FROM users WHERE age > 30;";
     "CREATE TABLE orders (id INT, user_id INT, amount INT);";
     "INSERT INTO orders VALUES (1, 1, 200);"; "INSERT INTO orders VALUES (2, 2, 320);";
     "INSERT INTO orders VALUES (3, 1, 250);";
     "SELECT u.name, SUM(o.amount) FROM users u JOIN orders o ON u.id = o.user_id GROUP BY u.name ORDER BY u.name;";
     "EXPLAIN SELECT name FROM users WHERE age > 25;"]%string demo_db).2 ;;
   Ok (qr_rows <$> r))
  = Ok [[]; []; []; [["Bob"; "34"]]; []; []; []; []; [["Alice"; "450"]; ["Bob"; "320"]];
        [["Projection"]; ["  Filter"]; ["    SeqScan [users]"]]]%string.
Proof. vm_compute. reflexivity. Qed.

(** A column that WHERE names and no table has is noticed at the first row: the
    query throws on a table with rows and returns nothing on an empty one.  In
    the select list it is noticed by the planner. *)
Example unknown_columns :
  let run sql := (Execute 40 sql (session 40
    ["CREATE TABLE a (x INT);"; "CREATE TABLE b (x INT);"; "INSERT INTO b VALUES (1);"]%string demo_db).1).2 in
  let missing := Fault (Throw "Column not found: y") in
  (run "SELECT x FROM a WHERE y = 1;", run "SELECT x FROM b WHERE y = 1;",
   run "SELECT y FROM a;", run "SELECT x FROM b ORDER BY y;")
  = (Ok (mkQueryResult ["x"%string] [] ""), missing, missing, Ok (mkQueryResult ["x"%string] [["1"%string]] "")).
Proof. vm_compute. reflexivity. Qed.
