(* ===== verification/ExecutorTheorems.v ===== *)
(** * Operators: main theorems

    Each operator against its relational meaning, for any child that produces
    rows, and the inputs on which the meaning of the source differs from SQL. *)
From stdpp Require Import base gmap list strings sorting.
From Stdlib Require Import ZArith Lia Ascii.
From S2P Require Import Prelude Types PageCache HeapFile HeapFileSpec Catalog Ast Parser Executor ExecutorSpec ExecutorSort ExecutorJoin ExecutorAggregate Planner PlannerSpec QueryExec QuerySpec.

Section operators.
Context {S L R C : Type} `{!Operator S L} `{!Operator S R} `{!Operator S C}.
Context `{!OperatorLaws S L} `{!OperatorLaws S R} `{!OperatorLaws S C}.
Context (I : S → Prop).

(** C5. [HashJoin] is the equi-join: from children that produce the rows [lrows]
    and [rrows] it produces the concatenations of all pairs with the same
    non-empty key, for every right row in order the left rows in order, each pair
    once, through the hash table, the match cursor and any number of calls. *)
Theorem HashJoin_correct (l : L) (r : R) lk rk lrows rrows out :
  produces I l (mkStream lrows None) → produces I r (mkStream rrows None) →
  ref_join lk rk (GetOutputSchema l) (GetOutputSchema r) lrows rrows = Ok out →
  produces I (HashJoin_ctor (S := S) l r lk rk) (mkStream out None).
Proof.
  intros Hl Hr Hj. apply ref_join_stream in Hj as ([ht Hb] & <-).
  by eapply HashJoin_produces.
Qed.

(** C11. [Sort] sorts: when every ORDER BY expression has a value of one type on
    all rows, the rows produced are a permutation of the child's rows in the
    lexicographic order of the keys, ascending or descending per item; the
    comparator is a strict weak order, as [std::sort] requires. *)
Theorem Sort_correct `{!StdSort} `{!StdSortSpec} (c : C) items l :
  produces I c (mkStream l None) → sortable items (GetOutputSchema c) l →
  ∃ l', produces I (Sort_ctor c items) (mkStream l' None) ∧ l ≡ₚ l' ∧
    StronglySorted (λ a b, rows_cmp items (GetOutputSchema c) a b ≠ Gt) l' ∧
    strict_weak l (λ a b, match sort_less items (GetOutputSchema c) a b with Ok b => b | Fault _ => false end).
Proof.
  intros Hc Hs. destruct (std_sort_rows _ _ _ Hs) as (l' & Hsort & Hp & Hss).
  exists l'. split_and!; [by eapply Sort_produces|done|done|].
  pose proof (rows_cmp_strict_weak _ _ _ Hs) as [H1 H2 H3].
  split; intros *; repeat intros ?; rewrite ?(sort_less_cmp _ _ l) in * by done; eauto.
Qed.

(** C10. [HashAggregate] groups: one row per distinct key, in the order the keys
    first appear; the row has the key values of the group's first row and, per
    aggregate, COUNT, SUM, AVG (truncated towards zero), MIN or MAX over exactly
    the rows of the group, as 32-bit integers; 64-bit sums do not overflow. *)
Theorem HashAggregate_correct (c : C) gb aggs out l res :
  produces I c (mkStream l None) → Forall (row_ok gb aggs (GetOutputSchema c)) l →
  Z.of_nat (length l) < 2 ^ 31 →
  ref_aggregate gb aggs (GetOutputSchema c) out l = Ok res →
  produces I (HashAggregate_ctor c gb aggs out) (mkStream res None) ∧
  NoDup (group_order gb (GetOutputSchema c) l) ∧
  (∀ k, k ∈ group_order gb (GetOutputSchema c) l ↔ members gb (GetOutputSchema c) k l ≠ []).
Proof.
  intros Hc Hok Hlen Ha. split_and!.
  - apply ref_aggregate_stream in Ha as <-. by apply HashAggregate_produces.
  - apply group_order_NoDup.
  - intros k. apply elem_of_group_order.
Qed.
End operators.

(** ** Where the meaning of the source is not SQL's *)

(** An equi-join on empty strings loses its rows: when all keys are the empty
    string, which the comparison [=] finds equal, [HashJoin] produces nothing,
    because an empty [current_key_] means that there is no current key. *)
Theorem HashJoin_empty_key {S L R : Type} `{!Operator S L} `{!Operator S R}
    `{!OperatorLaws S L} `{!OperatorLaws S R} (I : S → Prop) (l : L) (r : R) lk rk lrows rrows :
  produces I l (mkStream lrows None) → produces I r (mkStream rrows None) →
  (∀ t, t ∈ lrows → key_string lk t (GetOutputSchema l) = Ok ""%string) →
  (∀ t, t ∈ rrows → key_string rk t (GetOutputSchema r) = Ok ""%string) →
  produces I (HashJoin_ctor (S := S) l r lk rk) (mkStream [] None) ∧
  ∀ n m, compare_values "=" (MakeVarchar "" n) (MakeVarchar "" m) = Some true.
Proof.
  intros Hl Hr Hkl Hkr. split; [|done].
  assert (∀ key sch rs, (∀ t, t ∈ rs → key_string key t sch = Ok ""%string) →
    keyed key sch rs = Ok ((λ t, (""%string, t)) <$> rs)) as Hkeyed.
  { intros key sch rs Hk. apply oall_Forall2, Forall2_fmap_r, Forall_Forall2_diag, Forall_forall.
    intros t Ht. by rewrite Hk. }
  destruct (proj1 (ref_join_stream lk rk (GetOutputSchema l) (GetOutputSchema r) lrows rrows []))
    as ([ht Hb] & <-); [|by eapply HashJoin_produces].
  unfold ref_join. rewrite !Hkeyed by done. cbn [obind]. unfold join_pairs, same_key. cbn.
  replace (concat _) with (@nil (Tuple * Tuple)); [done|]. symmetry.
  clear - rrows. induction rrows as [|t rs IH]; [done|]. cbn. rewrite IH.
  clear. induction lrows as [|u ls IH]; [done|]. cbn. exact IH.
Qed.

(** An INT value compared with a string in WHERE is compared as the empty
    string: [id = ''] holds for every row and [id = '5'] for none, whatever the
    value of [id]. *)
Theorem EvalPred_int_as_empty op e f t sch z s n :
  EvalExpr e t sch = Ok (MakeInt z) → EvalExpr f t sch = Ok (MakeVarchar s n) →
  op ≠ "AND"%string → op ≠ "OR"%string →
  EvalPred (Expr.BINARY_OP op e f) t sch =
    match compare_str op "" s with
    | Some b => Ok b
    | None => Fault (Throw "EvalPred: unsupported predicate")
    end ∧
  (EvalPred (Expr.BINARY_OP "=" e f) t sch = Ok (bool_decide (s = ""%string))).
Proof.
  intros He Hf H1 H2. cbn [EvalPred]. rewrite He, Hf. cbn [obind]. split.
  - unfold str_eqb. rewrite !bool_decide_false by done. done.
  - cbn. unfold str_eqb. f_equal. by apply bool_decide_ext.
Qed.

(** [SELECT 'x' FROM t] writes past the end of its output row: the planner
    gives every literal a 4-byte INT column, the executor makes a string literal
    a VARCHAR(255) value, and serializing it clears 255 bytes. *)
Theorem project_string_literal s alias sch t :
  ∃ out, BuildProjectionSchema [mkSelectItem (Expr.STRING_LITERAL s) alias] sch = Ok out ∧
    GetTupleSize out = 4 ∧ project_row [Expr.STRING_LITERAL s] sch out t = Fault Undefined.
Proof. by eexists. Qed.

(** [SELECT SUM( * )] (also AVG, MIN and MAX of a star) is accepted by the
    parser and planned, and dereferences the null argument of the aggregate on the
    first row. *)
Theorem sum_of_star :
  ∃ q, parse_sql "SELECT SUM(*) FROM t;" = Ok (SelectS q) ∧
    ∀ t sch vals, update_aggs 0 (agg_exprs (select_list q)) t sch (new_group vals 1) = Fault Undefined.
Proof. eexists. split; [vm_compute; reflexivity|]. done. Qed.

(** ** Keys of groups *)
Definition bar : ascii := "|"%char.
Definition joined (vs : list Value) : list ascii :=
  concat ((λ v, to_chars (ToString v) ++ [bar]) <$> vs).
Lemma to_chars_app a b : to_chars (a +:+ b) = to_chars a ++ to_chars b.
Proof. induction a as [|c a IH]; [done|]. exact (f_equal (cons c) IH). Qed.
Lemma key_of_values_joined k vs : to_chars (key_of_values k vs) = to_chars k ++ joined vs.
Proof.
  revert k. induction vs as [|v vs IH]; intros k; [by rewrite app_nil_r|].
  change (key_of_values k (v :: vs)) with (key_of_values (k +:+ (ToString v +:+ "|")) vs).
  rewrite IH, !to_chars_app. unfold joined. cbn. by rewrite <- !app_assoc.
Qed.
Lemma to_chars_inj a b : to_chars a = to_chars b → a = b.
Proof.
  intros E. by rewrite <- (String.string_of_list_ascii_of_string a), E,
    String.string_of_list_ascii_of_string.
Qed.
Lemma split_bar (a b x y : list ascii) :
  bar ∉ a → bar ∉ b → a ++ bar :: x = b ++ bar :: y → a = b ∧ x = y.
Proof.
  revert b. induction a as [|c a IH]; intros [|d b] Ha Hb; cbn; intros [=]; subst; [done|set_solver..|].
  destruct (IH b) as [-> ->]; [set_solver|set_solver|done|done].
Qed.

(** Groups are kept apart: two lists of key values of the same length, none
    of which prints with a [|], have the same group key only if they print the
    same, value by value. *)
Theorem group_key_injective vs ws :
  length vs = length ws →
  Forall (λ v, bar ∉ to_chars (ToString v)) vs → Forall (λ v, bar ∉ to_chars (ToString v)) ws →
  key_of_values "" vs = key_of_values "" ws → ToString <$> vs = ToString <$> ws.
Proof.
  intros Hl Hv Hw E%(f_equal to_chars). rewrite !key_of_values_joined in E. cbn in E.
  revert ws Hl Hw E. induction Hv as [|v vs Hbar _ IH]; intros [|w ws] [=] Hw E; [done|].
  apply Forall_cons in Hw as [Hbar' Hw]. unfold joined in E. cbn in E. rewrite <- !app_assoc in E.
  destruct (split_bar _ _ _ _ Hbar Hbar' E) as [Hvw Hrest]. cbn. f_equal; [by apply to_chars_inj|].
  by apply IH.
Qed.

(** Strings with a [|] can collide: [('a|', 'b')] and [('a', '|b')] are one group. *)
Theorem group_key_collision a b n m :
  key_of_values "" [MakeVarchar (a +:+ "|") n; MakeVarchar b m] =
  key_of_values "" [MakeVarchar a n; MakeVarchar ("|" +:+ b) m].
Proof.
  apply to_chars_inj. rewrite !key_of_values_joined. unfold joined. cbn.
  rewrite !to_chars_app. cbn. by rewrite <- !app_assoc.
Qed.

(** ** On literal rows *)

(** An operator that hands out given rows. *)
Record Source := mkSource { src_rows : list Tuple; src_schema : Schema }.
#[local] Instance Source_Operator : Operator unit Source := {
  Init _ := retM tt;
  Next _ := λ o, match src_rows o with
                 | [] => (o, Ok None)
                 | t :: l => (mkSource l (src_schema o), Ok (Some t))
                 end;
  Close := retM tt;
  GetOutputSchema := src_schema
}.
#[local] Instance Source_laws : OperatorLaws unit Source.
Proof. intros o. by exists o. Qed.
Lemma Source_produces l sch : produces (λ _, True) (mkSource l sch) (mkStream l None).
Proof.
  exists 0%nat. intros [] _. exists (mkSource l sch), tt. split_and!; [done..|].
  induction l as [|t l IH]; [by eapply yields_end|].
  by apply (yields_row 0 _ (mkSource l sch) t (mkStream l None)).
Qed.

Definition int_schema (name : string) : Schema := Schema_ctor [mkColumn name ColumnType_Int].
Definition int_row (z : Z) : Tuple := mkTuple (le_bytes 4 z).
Definition str_schema (name : string) : Schema := Schema_ctor [mkColumn name (ColumnType_Varchar 4)].
Definition ref (name : string) : Expr := Expr.COLUMN_REF "" name.
Definition ints (l : list Z) : list Tuple := int_row <$> l.

Lemma HashJoin_correct_witness :
  produces (S := unit) (λ _, True)
    (HashJoin_ctor (S := unit) (mkSource (ints [1; 2; 1]) (int_schema "a"))
       (mkSource (ints [2; 1; 3]) (int_schema "b")) (ref "a") (ref "b"))
    (mkStream [mkTuple (le_bytes 4 2 ++ le_bytes 4 2); mkTuple (le_bytes 4 1 ++ le_bytes 4 1);
               mkTuple (le_bytes 4 1 ++ le_bytes 4 1)] None).
Proof.
  apply (HashJoin_correct (S := unit) (λ _, True) (mkSource (ints [1; 2; 1]) (int_schema "a"))
    (mkSource (ints [2; 1; 3]) (int_schema "b")) (ref "a") (ref "b") (ints [1; 2; 1]) (ints [2; 1; 3])).
  - apply Source_produces.
  - apply Source_produces.
  - vm_compute. reflexivity.
Defined.

#[local] Existing Instance InsertionSort.
#[local] Existing Instance InsertionSort_spec.
Lemma sortable_ints asc l :
  sortable [mkOrderByItem (ref "a") asc] (int_schema "a") (ints l).
Proof.
  constructor; [|constructor]. exists INT. intros t (z & -> & _)%list_elem_of_fmap.
  eexists. split; reflexivity.
Qed.
Lemma Sort_correct_witness :
  ∃ l', produces (S := unit) (λ _, True)
    (Sort_ctor (mkSource (ints [3; 1; 2]) (int_schema "a")) [mkOrderByItem (ref "a") false])
    (mkStream l' None) ∧ ints [3; 1; 2] ≡ₚ l'.
Proof.
  destruct (Sort_correct (S := unit) (λ _, True) (mkSource (ints [3; 1; 2]) (int_schema "a"))
    [mkOrderByItem (ref "a") false] (ints [3; 1; 2])) as (l' & Hp & Hperm & _).
  - apply Source_produces.
  - apply sortable_ints.
  - exists l'. split; [exact Hp|exact Hperm].
Defined.

Definition sum_a : AggExpr := mkAggExpr "SUM" (Some (ref "a")) false "SUM".
Lemma row_ok_ints l : Forall (row_ok [ref "a"] [sum_a] (int_schema "a")) (ints l).
Proof.
  apply Forall_fmap, Forall_true. intros z. split; [by eexists|].
  intros ae ->%list_elem_of_singleton _. eexists _, _. split; [reflexivity|]. split; [reflexivity|].
  apply wrap_s32_range.
Qed.
Lemma HashAggregate_correct_witness :
  produces (S := unit) (λ _, True)
    (HashAggregate_ctor (mkSource (ints [3; 1; 3]) (int_schema "a")) [ref "a"] [sum_a]
       (Schema_ctor [mkColumn "a" ColumnType_Int; mkColumn "SUM" ColumnType_Int]))
    (mkStream [mkTuple (le_bytes 4 3 ++ le_bytes 4 6); mkTuple (le_bytes 4 1 ++ le_bytes 4 1)] None).
Proof.
  apply (HashAggregate_correct (S := unit) (λ _, True) (mkSource (ints [3; 1; 3]) (int_schema "a"))
    [ref "a"] [sum_a] _ (ints [3; 1; 3])).
  - apply Source_produces.
  - apply row_ok_ints.
  - vm_compute. reflexivity.
  - vm_compute. reflexivity.
Defined.

Lemma HashJoin_empty_key_witness :
  produces (S := unit) (λ _, True)
    (HashJoin_ctor (S := unit) (mkSource [mkTuple (memset 4 NUL)] (str_schema "a"))
       (mkSource [mkTuple (memset 4 NUL)] (str_schema "b")) (ref "a") (ref "b")) (mkStream [] None).
Proof.
  apply (HashJoin_empty_key (S := unit) (λ _, True) (mkSource [mkTuple (memset 4 NUL)] (str_schema "a"))
    (mkSource [mkTuple (memset 4 NUL)] (str_schema "b")) (ref "a") (ref "b")
    [mkTuple (memset 4 NUL)] [mkTuple (memset 4 NUL)]).
  - apply Source_produces.
  - apply Source_produces.
  - intros t ->%list_elem_of_singleton. vm_compute. reflexivity.
  - intros t ->%list_elem_of_singleton. vm_compute. reflexivity.
Defined.

Lemma EvalPred_int_as_empty_witness :
  EvalPred (Expr.BINARY_OP "=" (ref "a") (Expr.STRING_LITERAL "")) (int_row 7) (int_schema "a") = Ok true ∧
  EvalPred (Expr.BINARY_OP "=" (ref "a") (Expr.STRING_LITERAL "7")) (int_row 7) (int_schema "a") = Ok false.
Proof.
  split.
  - apply (EvalPred_int_as_empty "=" (ref "a") (Expr.STRING_LITERAL "") (int_row 7) (int_schema "a") 7 "" 255).
    + vm_compute. reflexivity.
    + reflexivity.
    + discriminate.
    + discriminate.
  - vm_compute. reflexivity.
Defined.

Lemma group_key_injective_witness :
  ToString <$> [MakeInt 12; MakeVarchar "x" 4] = ToString <$> [MakeInt 12; MakeVarchar "x" 8].
Proof.
  apply (group_key_injective [MakeInt 12; MakeVarchar "x" 4] [MakeInt 12; MakeVarchar "x" 8]).
  - reflexivity.
  - repeat (apply Forall_cons; split; [vm_compute; intros Hin; repeat (apply elem_of_cons in Hin as [[=]|Hin]);
      by apply elem_of_nil in Hin|]). constructor.
  - repeat (apply Forall_cons; split; [vm_compute; intros Hin; repeat (apply elem_of_cons in Hin as [[=]|Hin]);
      by apply elem_of_nil in Hin|]). constructor.
  - vm_compute. reflexivity.
Defined.
