(* ===== verification/ThreadPool.v ===== *)
(** * Thread pool: [src/src/executor/thread_pool.h], [thread_pool.cpp]

    The workers and the thread that owns the pool as a transition system.  A
    critical section (the code that holds [mutex_]) is one step; waiting on a
    condition variable is a state of its own, left by a notification or
    spuriously; [notify_one] and [notify_all] after the lock is released are
    steps of their own.  A task is a number; running it is one step, since what
    tasks do to shared data is modelled with the operators that submit them.
    [in_flight_] is an [int]: incrementing it past [2^31 - 1] is undefined, a
    fault that ends the run. *)
From stdpp Require Import base list list_numbers.
From Stdlib Require Import ZArith Lia.
From S2P Require Import Prelude.

(** Where a worker is. *)
Inductive Worker :=
  | WCheck                 (* about to evaluate the condition of [task_cv_.wait] *)
  | WAsleep                (* asleep in [task_cv_.wait] *)
  | WRun (task : nat)      (* has popped [task], about to run it *)
  | WFinish                (* has run its task, about to decrement [in_flight_] *)
  | WExit.                 (* has returned *)

(** What the owner calls, and where it is. *)
Inductive Call := CSubmit (task : nat) | CWaitAll | CDestroy.
Inductive Owner :=
  | OCalls (cs : list Call)      (* about to make the first call *)
  | ONotify (cs : list Call)     (* in Submit, about to [notify_one] *)
  | OAsleep (cs : list Call)     (* asleep in WaitAll *)
  | ONotifyAll                   (* in the destructor, about to [notify_all] *)
  | OJoin                        (* in the destructor, joining *)
  | OEnd.

Record ThreadPool := mkThreadPool {
  workers_ : list Worker;
  tasks_ : list nat;
  stop_ : bool;
  in_flight_ : Z;
  owner : Owner;
  finished : list nat    (* the tasks that have run *)
}.
Definition ThreadPool_ctor (n_threads : nat) (cs : list Call) : ThreadPool :=
  mkThreadPool (replicate n_threads WCheck) [] false 0 (OCalls cs) [].

(** ** Steps *)
Inductive Action :=
  | AWait (i : nat)      (* worker [i] evaluates the condition and goes on or to sleep *)
  | ATask (i : nat)      (* worker [i] runs its task *)
  | AFinish (i : nat)    (* worker [i] decrements [in_flight_] *)
  | ASpurious (i : nat)  (* worker [i] wakes up without a notification *)
  | ACall                (* the owner makes its next call *)
  | ANotify (i : nat)    (* [notify_one] wakes worker [i], if any is asleep *)
  | ANotifyAll
  | AJoin
  | AOwnerSpurious.

Definition set_worker (i : nat) (w : Worker) (p : ThreadPool) : ThreadPool :=
  mkThreadPool (<[i := w]> (workers_ p)) (tasks_ p) (stop_ p) (in_flight_ p) (owner p) (finished p).
Definition set_owner (o : Owner) (p : ThreadPool) : ThreadPool :=
  mkThreadPool (workers_ p) (tasks_ p) (stop_ p) (in_flight_ p) o (finished p).

Definition is_asleep (w : Worker) : bool := match w with WAsleep => true | _ => false end.
Definition is_exit (w : Worker) : bool := match w with WExit => true | _ => false end.
Definition wake (w : Worker) : Worker := match w with WAsleep => WCheck | _ => w end.

(** The body of a worker's loop: the wait and the pop; the task; the decrement. *)
Definition worker_wait (i : nat) (p : ThreadPool) : ThreadPool :=
  match tasks_ p with
  | task :: tasks =>
      mkThreadPool (<[i := WRun task]> (workers_ p)) tasks (stop_ p) (in_flight_ p) (owner p) (finished p)
  | [] => set_worker i (if stop_ p then WExit else WAsleep) p
  end.
Definition worker_task (i task : nat) (p : ThreadPool) : ThreadPool :=
  mkThreadPool (<[i := WFinish]> (workers_ p)) (tasks_ p) (stop_ p) (in_flight_ p) (owner p)
    (finished p ++ [task]).
(** [if (--in_flight_ == 0) done_cv_.notify_all();]. *)
Definition worker_finish (i : nat) (p : ThreadPool) : outcome ThreadPool :=
  n <-! add_s32 (in_flight_ p) (-1) ;;
  Ok (mkThreadPool (<[i := WCheck]> (workers_ p)) (tasks_ p) (stop_ p) n
    (match owner p with
     | OAsleep cs => if n =? 0 then OCalls (CWaitAll :: cs) else OAsleep cs
     | o => o
     end) (finished p)).

Definition Submit (task : nat) (cs : list Call) (p : ThreadPool) : outcome ThreadPool :=
  n <-! add_s32 (in_flight_ p) 1 ;;
  Ok (mkThreadPool (workers_ p) (tasks_ p ++ [task]) (stop_ p) n (ONotify cs) (finished p)).
Definition WaitAll (cs : list Call) (p : ThreadPool) : ThreadPool :=
  set_owner (if in_flight_ p =? 0 then OCalls cs else OAsleep cs) p.
Definition ThreadPool_dtor (p : ThreadPool) : ThreadPool :=
  mkThreadPool (workers_ p) (tasks_ p) true (in_flight_ p) ONotifyAll (finished p).

(** [None]: the thread cannot make that step now. *)
Definition step (a : Action) (p : ThreadPool) : option (outcome ThreadPool) :=
  match a with
  | AWait i => match workers_ p !! i with Some WCheck => Some (Ok (worker_wait i p)) | _ => None end
  | ATask i => match workers_ p !! i with Some (WRun t) => Some (Ok (worker_task i t p)) | _ => None end
  | AFinish i => match workers_ p !! i with Some WFinish => Some (worker_finish i p) | _ => None end
  | ASpurious i => match workers_ p !! i with Some WAsleep => Some (Ok (set_worker i WCheck p)) | _ => None end
  | ACall =>
      match owner p with
      | OCalls (CSubmit t :: cs) => Some (Submit t cs p)
      | OCalls (CWaitAll :: cs) => Some (Ok (WaitAll cs p))
      | OCalls (CDestroy :: _) => Some (Ok (ThreadPool_dtor p))
      | _ => None
      end
  | ANotify i =>
      match owner p with
      | ONotify cs =>
          match workers_ p !! i with
          | Some WAsleep => Some (Ok (set_owner (OCalls cs) (set_worker i WCheck p)))
          | _ => if existsb is_asleep (workers_ p) then None else Some (Ok (set_owner (OCalls cs) p))
          end
      | _ => None
      end
  | ANotifyAll =>
      match owner p with
      | ONotifyAll =>
          Some (Ok (mkThreadPool (wake <$> workers_ p) (tasks_ p) (stop_ p) (in_flight_ p) OJoin (finished p)))
      | _ => None
      end
  | AJoin =>
      match owner p with
      | OJoin => if forallb is_exit (workers_ p) then Some (Ok (set_owner OEnd p)) else None
      | _ => None
      end
  | AOwnerSpurious =>
      match owner p with OAsleep cs => Some (Ok (set_owner (OCalls (CWaitAll :: cs)) p)) | _ => None end
  end.
(** A fault ends the run. *)
Fixpoint run (acts : list Action) (p : ThreadPool) : option (outcome ThreadPool) :=
  match acts with
  | [] => Some (Ok p)
  | a :: acts => match step a p with Some (Ok p) => run acts p | r => r end
  end.
Definition spurious (a : Action) : bool :=
  match a with ASpurious _ | AOwnerSpurious => true | _ => false end.
Definition spurious_steps (acts : list Action) : nat :=
  sum_list_with (λ a, if spurious a then 1 else 0)%nat acts.

(** ** Counting workers *)
Definition checking (w : Worker) : nat := match w with WCheck => 1 | _ => 0 end.
Definition asleep (w : Worker) : nat := match w with WAsleep => 1 | _ => 0 end.
Definition busy (w : Worker) : nat := match w with WRun _ | WFinish => 1 | _ => 0 end.
Definition finishing (w : Worker) : nat := match w with WFinish => 1 | _ => 0 end.
Definition exited (w : Worker) : nat := match w with WExit => 1 | _ => 0 end.
Definition held (w : Worker) : list nat := match w with WRun t => [t] | _ => [] end.
Abbreviation count f p := (sum_list_with f (workers_ p)).

Definition notifications (o : Owner) : nat := match o with ONotify _ => 1 | _ => 0 end.
Definition stopping (o : Owner) : bool := match o with ONotifyAll | OJoin | OEnd => true | _ => false end.

(** ** The invariant *)
Fixpoint submits (cs : list Call) : list nat :=
  match cs with
  | [] => []
  | CSubmit t :: cs => t :: submits cs
  | _ :: cs => submits cs
  end.
(** The last call, and no other, destroys the pool. *)
Fixpoint ends (cs : list Call) : Prop :=
  match cs with
  | [] => False
  | CDestroy :: cs => cs = []
  | _ :: cs => ends cs
  end.
(** The calls the owner has left. *)
Definition calls_left (o : Owner) : option (list Call) :=
  match o with
  | OCalls cs | ONotify cs => Some cs
  | OAsleep cs => Some (CWaitAll :: cs)
  | _ => None
  end.
Definition to_submit (o : Owner) : list nat := default [] (submits <$> calls_left o).
Definition in_hand (ws : list Worker) : list nat := concat (held <$> ws).

Record pool_inv (all : list nat) (p : ThreadPool) : Prop := {
  pi_flight : in_flight_ p = Z.of_nat (length (tasks_ p) + count busy p);
  pi_int : in_flight_ p < 2 ^ 31;
  pi_ran : (count finishing p ≤ length (finished p))%nat;
  pi_tasks : all ≡ₚ finished p ++ tasks_ p ++ in_hand (workers_ p) ++ to_submit (owner p);
  (** No wake-up is lost: workers sleep only while enough others, or a
      notification on its way, take care of the tasks. *)
  pi_wake : stop_ p = false →
    count asleep p = 0%nat ∨ (length (tasks_ p) ≤ count checking p + notifications (owner p))%nat;
  pi_waiting cs : owner p = OAsleep cs → 0 < in_flight_ p;
  pi_stop : stop_ p = stopping (owner p);
  pi_join : owner p = OJoin ∨ owner p = OEnd → count asleep p = 0%nat;
  pi_exit : stop_ p = false → count exited p = 0%nat;
  pi_calls cs : calls_left (owner p) = Some cs → ends cs;
  pi_drained : (0 < count exited p)%nat → tasks_ p = [];
  pi_end : owner p = OEnd → forallb is_exit (workers_ p) = true
}.

Lemma in_hand_insert ws i w w' :
  ws !! i = Some w → in_hand (<[i := w']> ws) ++ held w ≡ₚ in_hand ws ++ held w'.
Proof. apply concat_insert. Qed.

Lemma pool_inv_ctor n cs : ends cs → pool_inv (submits cs) (ThreadPool_ctor n cs).
Proof.
  intros He. assert (∀ f : Worker → nat, sum_list_with f (replicate n WCheck) = (n * f WCheck)%nat) as Hs.
  { intros f. induction n as [|n IH]; [done|]. simpl. rewrite IH. lia. }
  assert (in_hand (replicate n WCheck) = []) as Hh by (clear; induction n as [|n IH]; [done|exact IH]).
  split; cbn; rewrite ?Hs, ?Hh; cbn; try done; try lia.
  - unfold in_hand in Hh. by rewrite Hh.
  - intros cs' [= <-]. done.
Qed.

(** What a step or a run leads to: a good state, or the overflow of
    [in_flight_], for which [2^31] tasks are needed. *)
Definition sound (all : list nat) (r : outcome ThreadPool) : Prop :=
  match r with
  | Ok p => pool_inv all p
  | Fault f => f = Undefined ∧ 2 ^ 31 ≤ Z.of_nat (length all)
  end.

(** What moving a worker from its state to [w'] does to the counts. *)
Ltac worker_sums H w' :=
  let Hc := fresh "Hc" in let Ha := fresh "Ha" in let Hb := fresh "Hb" in
  let He := fresh "He" in let Hh := fresh "Hh" in let Hg := fresh "Hg" in
  pose proof (sum_insert checking _ _ _ w' H) as Hc; pose proof (sum_insert asleep _ _ _ w' H) as Ha;
  pose proof (sum_insert busy _ _ _ w' H) as Hb; pose proof (sum_insert exited _ _ _ w' H) as He;
  pose proof (in_hand_insert _ _ _ w' H) as Hh; pose proof (sum_insert finishing _ _ _ w' H) as Hg;
  cbn [checking asleep busy exited held finishing] in Hc, Ha, Hb, He, Hh, Hg; rewrite ?app_nil_r in Hh.

Lemma not_all_exit ws i w :
  ws !! i = Some w → is_exit w = false → forallb is_exit ws = true → False.
Proof.
  intros Hi Hw Hall. rewrite forallb_forall in Hall.
  specialize (Hall w). rewrite Hw in Hall. by apply diff_false_true, Hall, list_elem_of_In, list_elem_of_lookup_2 with i.
Qed.

Lemma inv_worker_wait all p i :
  pool_inv all p → workers_ p !! i = Some WCheck → pool_inv all (worker_wait i p).
Proof.
  intros [H1 Hint Hran H2 H3 H4 H5 H6 H7 H8 H9 H10] Hw. unfold worker_wait. destruct (tasks_ p) as [|t ts] eqn:Ht.
  - unfold set_worker. destruct (stop_ p) eqn:Hs; [worker_sums Hw WExit|worker_sums Hw WAsleep];
      split; cbn [workers_ tasks_ stop_ in_flight_ owner finished]; rewrite ?Ht, ?Hs; try done.
    + rewrite H1. f_equal. lia.
    + lia.
    + by rewrite H2, Hh.
    + intros Ho. specialize (H6 Ho). lia.
    + intros Ho. destruct (not_all_exit _ _ _ Hw eq_refl (H10 ltac:(done))).
    + rewrite H1. f_equal. lia.
    + lia.
    + by rewrite H2, Hh.
    + intros _. right. cbn. lia.
    + intros Ho. exfalso. destruct Ho as [Ho|Ho]; by rewrite Ho in H5.
    + intros _. specialize (H7 eq_refl). lia.
    + intros Ho. by rewrite Ho in H5.
  - worker_sums Hw (WRun t).
    split; cbn [workers_ tasks_ stop_ in_flight_ owner finished]; try done.
    + rewrite H1. f_equal. cbn. lia.
    + lia.
    + rewrite H2, Hh. cbn. solve_Permutation.
    + intros Hs. destruct (H3 Hs) as [?|Hle]; [left; lia|right]. cbn in Hle. lia.
    + intros Ho. specialize (H6 Ho). lia.
    + intros Ho. specialize (H7 Ho). lia.
    + intros Hx. specialize (H9 ltac:(lia)). done.
    + intros Ho. destruct (not_all_exit _ _ _ Hw eq_refl (H10 ltac:(done))).
Qed.

Lemma inv_worker_task all p i t :
  pool_inv all p → workers_ p !! i = Some (WRun t) → pool_inv all (worker_task i t p).
Proof.
  intros [H1 Hint Hran H2 H3 H4 H5 H6 H7 H8 H9 H10] Hw. worker_sums Hw WFinish. unfold worker_task.
  split; cbn [workers_ tasks_ stop_ in_flight_ owner finished]; try done.
  - rewrite H1. f_equal. lia.
  - rewrite length_app. cbn. lia.
  - rewrite H2, <- Hh. solve_Permutation.
  - intros Hs. destruct (H3 Hs) as [?|Hle]; [left|right]; lia.
  - intros Ho. specialize (H6 Ho). lia.
  - intros Ho. specialize (H7 Ho). lia.
  - intros Hx. apply H9. lia.
  - intros Ho. destruct (not_all_exit _ _ _ Hw eq_refl (H10 ltac:(done))).
Qed.

Lemma inv_worker_finish all p i :
  pool_inv all p → workers_ p !! i = Some WFinish → sound all (worker_finish i p).
Proof.
  intros [H1 Hint Hran H2 H3 H4 H5 H6 H7 H8 H9 H10] Hw. worker_sums Hw WCheck.
  assert (∀ n, let o := match owner p with
      | OAsleep cs => if n =? 0 then OCalls (CWaitAll :: cs) else OAsleep cs
      | o => o
      end in to_submit o = to_submit (owner p) ∧ notifications o = notifications (owner p) ∧
        stopping o = stopping (owner p) ∧ calls_left o = calls_left (owner p) ∧
        (o = OJoin ∨ o = OEnd → owner p = OJoin ∨ owner p = OEnd) ∧ (o = OEnd → owner p = OEnd)) as Ho.
  { intros n. destruct (owner p); cbn; try done. destruct (n =? 0); cbn; naive_solver. }
  destruct (Ho (in_flight_ p + -1)) as (Ho1 & Ho2 & Ho3 & Ho4 & Ho5 & Ho6).
  unfold worker_finish. rewrite add_s32_ok by lia.
  split; cbn [workers_ tasks_ stop_ in_flight_ owner finished]; rewrite ?Ho1, ?Ho2, ?Ho3, ?Ho4; try done; try lia.
  - by rewrite H2, Hh.
  - intros Hs. destruct (H3 Hs) as [?|Hle]; [left|right]; lia.
  - intros cs Hcs. specialize (H4 cs). destruct (owner p); try done.
    destruct (Z.eqb_spec (in_flight_ p + -1) 0); [done|]. specialize (H4 Hcs). lia.
  - intros Hj. specialize (H6 (Ho5 Hj)). lia.
  - intros Hs. specialize (H7 Hs). lia.
  - intros Hx. apply H9. lia.
  - intros He'%Ho6. destruct (not_all_exit _ _ _ Hw eq_refl (H10 ltac:(done))).
Qed.

(** A sleeping worker wakes up, and the owner moves from [owner p] to [o]. *)
Lemma inv_wake all p i o :
  pool_inv all p → workers_ p !! i = Some WAsleep →
  (o = owner p ∨ ∃ cs, owner p = ONotify cs ∧ o = OCalls cs) →
  pool_inv all (set_owner o (set_worker i WCheck p)).
Proof.
  intros [H1 Hint Hran H2 H3 H4 H5 H6 H7 H8 H9 H10] Hw Ho. worker_sums Hw WCheck.
  unfold set_owner, set_worker.
  split; cbn [workers_ tasks_ stop_ in_flight_ owner finished].
  - rewrite H1. f_equal. lia.
  - done.
  - lia.
  - rewrite H2, Hh. by destruct Ho as [->|(cs & -> & ->)].
  - intros Hs. destruct (H3 Hs) as [?|Hle]; [left; lia|right].
    destruct Ho as [->|(cs & E & ->)]; [lia|]. rewrite E in Hle. cbn in *. lia.
  - intros cs E. destruct Ho as [->|(cs' & _ & ->)]; [by apply (H4 cs)|done].
  - rewrite H5. by destruct Ho as [->|(cs & -> & ->)].
  - intros E. destruct Ho as [->|(cs & _ & ->)]; [specialize (H6 E); lia|by destruct E].
  - intros Hs. specialize (H7 Hs). lia.
  - destruct Ho as [->|(cs & E & ->)]; [done|]. by rewrite E in H8.
  - intros Hx. apply H9. lia.
  - intros E. destruct Ho as [->|(cs & _ & ->)]; [|done]. destruct (not_all_exit _ _ _ Hw eq_refl (H10 ltac:(done))).
Qed.

(** The tasks in flight are among those submitted. *)
Lemma busy_tasks ws : sum_list_with busy ws = (length (in_hand ws) + sum_list_with finishing ws)%nat.
Proof. unfold in_hand. induction ws as [|[] ws IH]; cbn in *; lia. Qed.
Lemma inv_submit all p t cs :
  pool_inv all p → owner p = OCalls (CSubmit t :: cs) → sound all (Submit t cs p).
Proof.
  intros [H1 Hint Hran H2 H3 H4 H5 H6 H7 H8 H9 H10] Ho. rewrite Ho in *. cbn in H5.
  specialize (H8 _ eq_refl). unfold Submit. destruct (decide (in_flight_ p + 1 < 2 ^ 31)) as [Hlt|Hge].
  - rewrite add_s32_ok by lia. split; cbn [workers_ tasks_ stop_ in_flight_ owner finished]; try done.
    + rewrite length_app, H1. cbn. lia.
    + rewrite H2. cbn. solve_Permutation.
    + intros _. rewrite length_app. cbn in *. destruct (H3 H5) as [?|?]; [by left|right; lia].
    + by intros [?|?].
    + intros cs' [= <-]. done.
    + intros Hx. specialize (H7 H5). lia.
  - assert (add_s32 (in_flight_ p) 1 = Fault Undefined) as ->.
    { unfold add_s32. destruct (in_s32 _) eqn:E; [|done]. apply in_s32_spec in E. lia. }
    split; [done|]. apply Permutation_length in H2. rewrite !length_app in H2. cbn in H2.
    pose proof (busy_tasks (workers_ p)). lia.
Qed.
Lemma inv_call all p r : pool_inv all p → step ACall p = Some r → sound all r.
Proof.
  intros Hp. cbn. destruct (owner p) as [[|[t| |] cs]|?|?| | |] eqn:Ho; try done; intros [= <-].
  { by apply inv_submit. }
  all: destruct Hp as [H1 Hint Hran H2 H3 H4 H5 H6 H7 H8 H9 H10]; rewrite Ho in *;
    cbn in H5; specialize (H8 _ eq_refl); cbn in H8.
  - unfold WaitAll, set_owner. destruct (Z.eqb_spec (in_flight_ p) 0) as [E|E];
      (split; cbn [workers_ tasks_ stop_ in_flight_ owner finished]; try done).
    + by intros [?|?].
    + intros cs' [= <-]. done.
    + intros _ _. lia.
    + by intros [?|?].
    + intros cs' [= <-]. done.
  - unfold ThreadPool_dtor. subst cs. split; cbn [workers_ tasks_ stop_ in_flight_ owner finished]; try done.
    by intros [?|?].
Qed.

Lemma existsb_asleep ws : existsb is_asleep ws = false → sum_list_with asleep ws = 0%nat.
Proof. induction ws as [|[] ws IH]; simpl; try done; intros; by rewrite IH. Qed.

Lemma inv_notify all p r i : pool_inv all p → step (ANotify i) p = Some r → sound all r.
Proof.
  intros Hp. cbn. destruct (owner p) as [?|cs|?| | |] eqn:Ho; try done.
  assert (existsb is_asleep (workers_ p) = false → pool_inv all (set_owner (OCalls cs) p)) as Hnone.
  { intros Hz%existsb_asleep. destruct Hp as [H1 Hint Hran H2 H3 H4 H5 H6 H7 H8 H9 H10]. rewrite Ho in *.
    split; cbn [set_owner workers_ tasks_ stop_ in_flight_ owner finished]; auto; done. }
  destruct (workers_ p !! i) as [[]|] eqn:Hw;
    try (destruct (existsb is_asleep (workers_ p)); [done|intros [= <-]; by apply Hnone]).
  intros [= <-]. eapply inv_wake; eauto.
Qed.

Lemma sum_wake ws :
  sum_list_with busy (wake <$> ws) = sum_list_with busy ws ∧
  sum_list_with exited (wake <$> ws) = sum_list_with exited ws ∧
  sum_list_with asleep (wake <$> ws) = 0%nat ∧
  sum_list_with finishing (wake <$> ws) = sum_list_with finishing ws ∧ in_hand (wake <$> ws) = in_hand ws.
Proof.
  unfold in_hand. induction ws as [|w ws (IH1 & IH2 & IH3 & IH4 & IH5)]; [done|].
  cbn [fmap list_fmap sum_list_with concat] in *. rewrite IH1, IH2, IH3, IH4, IH5. by destruct w.
Qed.

Lemma step_inv all a p r : pool_inv all p → step a p = Some r → sound all r.
Proof.
  intros Hp. destruct a as [i|i|i|i| |i| | |].
  - cbn. destruct (workers_ p !! i) as [[]|] eqn:Hw; try done. intros [= <-]. by apply inv_worker_wait.
  - cbn. destruct (workers_ p !! i) as [[]|] eqn:Hw; try done. intros [= <-]. by apply inv_worker_task.
  - cbn. destruct (workers_ p !! i) as [[]|] eqn:Hw; try done. intros [= <-]. by apply inv_worker_finish.
  - cbn. destruct (workers_ p !! i) as [[]|] eqn:Hw; try done. intros [= <-].
    apply (inv_wake all p i (owner p)); auto.
  - by apply inv_call.
  - by apply inv_notify.
  - cbn. destruct (owner p) eqn:Ho; try done. intros [= <-]. destruct Hp as [H1 Hint Hran H2 H3 H4 H5 H6 H7 H8 H9 H10].
    destruct (sum_wake (workers_ p)) as (S1 & S2 & S3 & S4 & S5). rewrite Ho in *.
    split; cbn [workers_ tasks_ stop_ in_flight_ owner finished]; rewrite ?S1, ?S2, ?S3, ?S4, ?S5; try done.
    intros Hs. by rewrite H5 in Hs.
  - cbn. destruct (owner p) eqn:Ho; try done. destruct (forallb _ _) eqn:Hall; [|done]. intros [= <-].
    destruct Hp as [H1 Hint Hran H2 H3 H4 H5 H6 H7 H8 H9 H10]. rewrite Ho in *.
    split; cbn [set_owner workers_ tasks_ stop_ in_flight_ owner finished]; auto; done.
  - cbn. destruct (owner p) eqn:Ho; try done. intros [= <-].
    destruct Hp as [H1 Hint Hran H2 H3 H4 H5 H6 H7 H8 H9 H10]. rewrite Ho in *.
    split; cbn [set_owner workers_ tasks_ stop_ in_flight_ owner finished]; auto; try done.
    by intros [?|?].
Qed.
Lemma run_inv all acts p r : pool_inv all p → run acts p = Some r → sound all r.
Proof.
  revert p. induction acts as [|a acts IH]; intros p Hp; cbn; [by intros [= <-]|].
  destruct (step a p) as [[p1|f]|] eqn:Hs; [|by intros [= <-]; apply (step_inv all a p)|done].
  apply IH. by apply (step_inv all a p (Ok p1)).
Qed.

(** ** Every step that is not a spurious wake-up brings the end nearer

    A spurious wake-up takes back at most one step. *)
Definition worker_weight (w : Worker) : nat :=
  match w with WCheck => 2 | WAsleep => 1 | WRun _ => 5 | WFinish => 4 | WExit => 0 end.
Fixpoint calls_weight (n : nat) (cs : list Call) : nat :=
  match cs with
  | [] => 0
  | CSubmit _ :: cs => 7 + calls_weight n cs
  | CWaitAll :: cs => 2 + calls_weight n cs
  | CDestroy :: cs => n + 3 + calls_weight n cs
  end.
Definition owner_weight (n : nat) (o : Owner) : nat :=
  match o with
  | OCalls cs => calls_weight n cs
  | ONotify cs => 2 + calls_weight n cs
  | OAsleep cs => 1 + calls_weight n cs
  | ONotifyAll => n + 2
  | OJoin => 1
  | OEnd => 0
  end.
Definition weight (p : ThreadPool) : nat :=
  count worker_weight p + 4 * length (tasks_ p) + owner_weight (length (workers_ p)) (owner p).

Lemma step_workers a p p' : step a p = Some (Ok p') → length (workers_ p') = length (workers_ p).
Proof.
  assert (∀ x (k : Z → ThreadPool), (n <-! x ;; Ok (k n)) = Ok p' →
    (∀ n, length (workers_ (k n)) = length (workers_ p)) → length (workers_ p') = length (workers_ p)) as Hobind.
  { intros x k (n & _ & [= <-])%obind_Ok_inv Hk. apply Hk. }
  destruct a; cbn; repeat case_match; intros [= H'];
    try (eapply Hobind; [exact H'|intros n; cbn; rewrite ?length_insert; done]);
    subst p'; cbn; unfold worker_wait; repeat case_match; cbn; rewrite ?length_insert, ?length_fmap; done.
Qed.
Lemma weight_wake ws :
  (sum_list_with worker_weight (wake <$> ws) ≤ sum_list_with worker_weight ws + length ws)%nat.
Proof. induction ws as [|[] ws IH]; csimpl in *; lia. Qed.

Lemma step_weight a p p' :
  step a p = Some (Ok p') → (weight p' < weight p + if spurious a then 2 else 0)%nat.
Proof.
  intros Hs. pose proof (step_workers _ _ _ Hs) as Hl. unfold weight. rewrite Hl.
  destruct a as [i|i|i|i| |i| | |]; cbn in Hs; cbn [spurious].
  - destruct (workers_ p !! i) as [[]|] eqn:Hw; try done. injection Hs as <-. unfold worker_wait in *.
    destruct (tasks_ p) as [|t ts] eqn:Ht; cbn.
    + rewrite Ht. destruct (stop_ p); [pose proof (sum_insert worker_weight _ _ _ WExit Hw)
        |pose proof (sum_insert worker_weight _ _ _ WAsleep Hw)]; cbn in *; lia.
    + pose proof (sum_insert worker_weight _ _ _ (WRun t) Hw). cbn in *. lia.
  - destruct (workers_ p !! i) as [[]|] eqn:Hw; try done. injection Hs as <-.
    pose proof (sum_insert worker_weight _ _ _ WFinish Hw). cbn in *. lia.
  - destruct (workers_ p !! i) as [[]|] eqn:Hw; try done.
    injection Hs as (n & _ & [= <-])%obind_Ok_inv.
    pose proof (sum_insert worker_weight _ _ _ WCheck Hw). cbn in *.
    destruct (owner p); try lia. destruct (_ =? 0); cbn; lia.
  - destruct (workers_ p !! i) as [[]|] eqn:Hw; try done. injection Hs as <-.
    pose proof (sum_insert worker_weight _ _ _ WCheck Hw). cbn in *. lia.
  - destruct (owner p) as [[|[t| |] cs]|?|?| | |] eqn:Ho; try done; injection Hs as Hs.
    + apply obind_Ok_inv in Hs as (n & _ & [= <-]). cbn. rewrite length_app. cbn. lia.
    + subst p'. cbn. destruct (in_flight_ p =? 0); cbn; lia.
    + subst p'. cbn. lia.
  - destruct (owner p) as [?|cs|?| | |] eqn:Ho; try done.
    destruct (workers_ p !! i) as [[]|] eqn:Hw;
      try (destruct (existsb _ _); [done|]; injection Hs as <-; cbn; lia).
    injection Hs as <-. pose proof (sum_insert worker_weight _ _ _ WCheck Hw). cbn in *. lia.
  - destruct (owner p) eqn:Ho; try done. injection Hs as <-. cbn. pose proof (weight_wake (workers_ p)). lia.
  - destruct (owner p) eqn:Ho; try done. destruct (forallb _ _); [|done]. injection Hs as <-. cbn. lia.
  - destruct (owner p) eqn:Ho; try done. injection Hs as <-. cbn. lia.
Qed.

(** ** Progress *)
Lemma worker_progress p :
  (∃ a r, spurious a = false ∧ step a p = Some r) ∨
  (count checking p = 0 ∧ count busy p = 0)%nat.
Proof.
  destruct (decide (0 < count checking p)%nat) as [H|Hc].
  { apply sum_positive in H as (i & [] & Hw & H); cbn in H; try lia. left.
    exists (AWait i). cbn. rewrite Hw. eauto. }
  destruct (decide (0 < count busy p)%nat) as [H|Hb]; [|right; lia].
  apply sum_positive in H as (i & [] & Hw & H); cbn in H; try lia; left.
  - exists (ATask i). cbn. rewrite Hw. eauto.
  - exists (AFinish i). cbn. rewrite Hw. eauto.
Qed.

Lemma workers_counts ws :
  (length ws = sum_list_with checking ws + sum_list_with busy ws + sum_list_with asleep ws
               + sum_list_with exited ws)%nat.
Proof. induction ws as [|[] ws IH]; simpl; lia. Qed.
Lemma exited_all ws : sum_list_with exited ws = length ws ↔ forallb is_exit ws = true.
Proof.
  pose proof (workers_counts ws) as Hc. induction ws as [|w ws IH]; [done|]. simpl in *.
  pose proof (workers_counts ws) as Hc'. specialize (IH Hc').
  destruct w; simpl in *; rewrite <- ?IH; split; intros; try done; lia.
Qed.

Lemma progress all p :
  pool_inv all p → workers_ p ≠ [] → owner p ≠ OEnd →
  ∃ a r, spurious a = false ∧ step a p = Some r.
Proof.
  intros Hp Hne Hend. destruct (worker_progress p) as [?|[Hc Hb]]; [done|].
  pose proof (workers_counts (workers_ p)) as Hcnt.
  assert (0 < length (workers_ p))%nat as Hlen by (destruct (workers_ p); [done|simpl; lia]).
  destruct (owner p) as [cs|cs|cs| | |] eqn:Ho; [| | | | |done].
  - exists ACall. cbn. rewrite Ho. pose proof (pi_calls _ _ Hp cs) as He. rewrite Ho in He.
    specialize (He eq_refl). destruct cs as [|[] cs]; [done|eauto..].
  - destruct (existsb is_asleep (workers_ p)) eqn:He.
    + apply existsb_exists in He as (w & Hin & Hw). apply list_elem_of_In, list_elem_of_lookup in Hin as [i Hi].
      exists (ANotify i). cbn. rewrite Ho, Hi. destruct w; try done. eauto.
    + exists (ANotify 0%nat). cbn. rewrite Ho, He. destruct (workers_ p !! 0%nat) as [[]|]; eauto.
  - exfalso. pose proof (pi_waiting _ _ Hp cs Ho) as Hf. rewrite (pi_flight _ _ Hp) in Hf.
    pose proof (pi_stop _ _ Hp) as Hs. rewrite Ho in Hs. cbn in Hs.
    pose proof (pi_exit _ _ Hp Hs). pose proof (pi_wake _ _ Hp Hs) as Hw. rewrite Ho in Hw. cbn in Hw. lia.
  - exists ANotifyAll. cbn. rewrite Ho. eauto.
  - exists AJoin. cbn. rewrite Ho. pose proof (pi_join _ _ Hp (or_introl Ho)).
    rewrite (proj1 (exited_all (workers_ p))) by lia. eauto.
Qed.

(** Some thread can always make a step until the pool is destroyed, unless the
    counter is about to overflow. *)
Lemma progress_ok all p :
  pool_inv all p → Z.of_nat (length all) < 2 ^ 31 → workers_ p ≠ [] → owner p ≠ OEnd →
  ∃ a p', spurious a = false ∧ step a p = Some (Ok p').
Proof.
  intros Hp Hn Hne Ho. destruct (progress _ _ Hp Hne Ho) as (a & r & Ha & Hs). pose proof (step_inv _ _ _ _ Hp Hs) as Hr.
  exists a. destruct r as [p'|f]; [by exists p'|]. destruct Hr. lia.
Qed.

(** At the end every task has run. *)
Lemma finished_all all p :
  pool_inv all p → workers_ p ≠ [] → owner p = OEnd → all ≡ₚ finished p ∧ in_flight_ p = 0.
Proof.
  intros Hp Hne Ho. pose proof (proj2 (exited_all _) (pi_end _ _ Hp Ho)) as Hx.
  pose proof (workers_counts (workers_ p)) as Hcnt.
  assert (tasks_ p = []) as Ht.
  { apply (pi_drained _ _ Hp). destruct (workers_ p); [done|]. rewrite Hx. simpl. lia. }
  assert (in_hand (workers_ p) = []) as Hh.
  { pose proof (pi_end _ _ Hp Ho) as Hall. clear - Hall. unfold in_hand.
    induction (workers_ p) as [|[] ws IH]; try done. cbn in *. by apply IH. }
  split.
  - rewrite (pi_tasks _ _ Hp), Ht, Hh, Ho. cbn. by rewrite app_nil_r.
  - rewrite (pi_flight _ _ Hp), Ht. cbn. lia.
Qed.

Lemma run_workers acts p p' : run acts p = Some (Ok p') → length (workers_ p') = length (workers_ p).
Proof.
  revert p. induction acts as [|a acts IH]; intros p; cbn; [by intros [= <-]|].
  destruct (step a p) as [[p1|f]|] eqn:Hs; [|done..]. intros ->%IH. by eapply step_workers.
Qed.
Lemma run_weight acts p p' :
  run acts p = Some (Ok p') → (weight p' + length acts ≤ weight p + 2 * spurious_steps acts)%nat.
Proof.
  revert p. unfold spurious_steps. induction acts as [|a acts IH]; intros p; cbn; [intros [= <-]; lia|].
  destruct (step a p) as [[p1|f]|] eqn:Hs; [|done..]. intros Hr%IH. pose proof (step_weight _ _ _ Hs).
  destruct (spurious a); cbn in *; lia.
Qed.

Lemma ThreadPool_weight n prog : weight (ThreadPool_ctor n prog) = (2 * n + calls_weight n prog)%nat.
Proof.
  unfold weight. cbn. rewrite length_replicate.
  assert (sum_list_with worker_weight (replicate n WCheck) = 2 * n)%nat; [|lia].
  induction n as [|n IH]; simpl; lia.
Qed.

(** [WaitAll] returns only when nothing is queued or running. *)
Lemma WaitAll_finished all p cs :
  pool_inv all p → owner p = OCalls (CWaitAll :: cs) → owner (WaitAll cs p) = OCalls cs →
  all ≡ₚ finished p ++ submits cs.
Proof.
  intros Hp Ho Hret. cbn in Hret. destruct (Z.eqb_spec (in_flight_ p) 0) as [E|]; [|done].
  rewrite (pi_flight _ _ Hp) in E. rewrite (pi_tasks _ _ Hp), Ho. cbn [to_submit calls_left].
  destruct (tasks_ p); [|simpl in E; lia]. cbn.
  assert (in_hand (workers_ p) = []) as ->; [|done].
  assert (count busy p = 0%nat) as Hb%sum_zero by (simpl in E; lia). clear - Hb. unfold in_hand.
  induction Hb as [|[] ws Hw _ IH]; done.
Qed.

(** C20. [WaitAll] waits: in every interleaving of the workers, spurious wake-ups
    included, with an owner that submits any number of tasks, waits and finally
    destroys the pool, whenever a call of [WaitAll] finds [in_flight_] zero and
    returns, every task submitted before it has run, each as often as it was
    submitted.  ([in_flight_] is an [int]: a run in which it overflows ends with a
    fault and has no such state; that takes [2^31] tasks.) *)
Theorem WaitAll_waits n prog acts p cs :
  ends prog → run acts (ThreadPool_ctor n prog) = Some (Ok p) →
  owner p = OCalls (CWaitAll :: cs) → owner (WaitAll cs p) = OCalls cs →
  submits prog ≡ₚ finished p ++ submits cs.
Proof.
  intros He Hr. apply WaitAll_finished. exact (run_inv _ _ _ _ (pool_inv_ctor n prog He) Hr).
Qed.

(** C21. The pool finishes: with at least one worker and fewer than [2^31] tasks
    submitted, in every interleaving, spurious wake-ups included, [in_flight_]
    does not overflow; the number of steps is bounded by the number of workers
    and calls, and two more for each spurious wake-up; some thread can make a
    step until the destructor has returned (no deadlock and no lost
    notification); and then every submitted task has run. *)
Theorem ThreadPool_completes n prog acts r :
  (0 < n)%nat → ends prog → Z.of_nat (length (submits prog)) < 2 ^ 31 →
  run acts (ThreadPool_ctor n prog) = Some r →
  ∃ p, r = Ok p ∧
    (length acts ≤ 2 * n + calls_weight n prog + 2 * spurious_steps acts)%nat ∧
    (owner p ≠ OEnd → ∃ a p', spurious a = false ∧ step a p = Some (Ok p')) ∧
    (owner p = OEnd → submits prog ≡ₚ finished p ∧ in_flight_ p = 0).
Proof.
  intros Hn He Hmax Hr. pose proof (run_inv _ _ _ _ (pool_inv_ctor n prog He) Hr) as Hp.
  destruct r as [p|f]; [|destruct Hp; lia]. exists p.
  assert (workers_ p ≠ []) as Hne.
  { intros E. apply run_workers in Hr. rewrite E in Hr. cbn in Hr. rewrite length_replicate in Hr. lia. }
  split_and!; [done|..].
  - apply run_weight in Hr. rewrite ThreadPool_weight in Hr. lia.
  - by apply (progress_ok (submits prog)).
  - by apply finished_all.
Qed.

(** [2^31] tasks submitted before a worker runs one do overflow [in_flight_]. *)
Lemma Submit_overflow k ws ts n fin :
  forallb (λ w, negb (is_asleep w)) ws = true → n + Z.of_nat k = 2 ^ 31 → 0 ≤ n < 2 ^ 31 → ∀ t cs,
  ∃ acts, run acts (mkThreadPool ws ts false n (OCalls (replicate k (CSubmit t) ++ cs)) fin)
          = Some (Fault Undefined).
Proof.
  intros Hws. assert (existsb is_asleep ws = false) as Hno.
  { induction ws as [|[] ws IH]; try done; by apply IH. }
  revert ts n. induction k as [|k IH]; intros ts n Hk Hn t cs; [lia|].
  destruct (decide (k = 0%nat)) as [->|Hk0].
  - exists [ACall]. cbn. unfold Submit, add_s32. cbn. destruct (in_s32 _) eqn:E; [|done].
    apply in_s32_spec in E. lia.
  - destruct (IH (ts ++ [t]) (n + 1) ltac:(lia) ltac:(lia) t cs) as [acts Ha].
    exists (ACall :: ANotify (length ws) :: acts). cbn. unfold Submit. cbn. rewrite add_s32_ok by lia. cbn.
    rewrite lookup_ge_None_2 by lia. rewrite Hno. exact Ha.
Qed.

Definition demo_calls : list Call := [CSubmit 7; CSubmit 8; CWaitAll; CDestroy].
(** The first worker is woken for nothing once. *)
Definition demo_run : list Action :=
  [AWait 0; ASpurious 0; AWait 0; ACall; ANotify 0; AWait 0; ACall; ANotify 1; ACall; AWait 1; ATask 1; ATask 0;
   AFinish 0; AFinish 1]%nat.

Lemma WaitAll_waits_witness :
  ∃ p, run demo_run (ThreadPool_ctor 2 demo_calls) = Some (Ok p) ∧ submits demo_calls ≡ₚ finished p ++ [].
Proof.
  destruct (run demo_run (ThreadPool_ctor 2 demo_calls)) as [[p|f]|] eqn:E; [|vm_compute in E; discriminate..].
  exists p. split; [reflexivity|]. apply (WaitAll_waits 2 demo_calls demo_run p [CDestroy]).
  - reflexivity.
  - exact E.
  - vm_compute in E. injection E as <-. reflexivity.
  - vm_compute in E. injection E as <-. reflexivity.
Defined.

Lemma ThreadPool_completes_witness :
  spurious_steps demo_run = 1%nat ∧
  ∃ p a p', run demo_run (ThreadPool_ctor 2 demo_calls) = Some (Ok p) ∧ step a p = Some (Ok p').
Proof.
  split; [reflexivity|].
  destruct (run demo_run (ThreadPool_ctor 2 demo_calls)) as [r|] eqn:E; [|vm_compute in E; discriminate].
  destruct (ThreadPool_completes 2 demo_calls demo_run r) as (p & Hr & _ & Hprog & _).
  - lia.
  - reflexivity.
  - reflexivity.
  - exact E.
  - rewrite Hr in E |- *. destruct Hprog as (a & p' & _ & Hs); [vm_compute in E; injection E as <-; discriminate|].
    exists p, a, p'. split; [reflexivity|exact Hs].
Defined.
