(* ===== verification/LockFreeHashTable.v ===== *)
(** * Lock-free hash table: [src/src/concurrency/lockfree_hashtable.h], [.cpp]

    Nodes live at addresses of a heap; a bucket is the address of its first node.
    Any number of [Insert] calls run concurrently: each is a small program whose
    atomic accesses to shared memory are steps, and a schedule interleaves the
    steps.  Memory is sequentially consistent; a stale value of the relaxed load
    is covered, since the load may be scheduled arbitrarily early and only the
    compare-and-exchange, which reads the latest value, decides.
    [compare_exchange_weak] may fail spuriously. *)
From stdpp Require Import base gmap list list_numbers.
From Stdlib Require Import ZArith Lia Ascii.
From S2P Require Import Prelude Types.

Abbreviation addr := positive.
Record Node := mkNode { nd_key : Z; nd_value : Tuple; nd_next : option addr }.
Record LockFreeHashTable := mkTable {
  bucket_count_ : Z;
  buckets_ : list (option addr);
  nodes : gmap addr Node
}.
Definition LockFreeHashTable_ctor (bucket_count : Z) : LockFreeHashTable :=
  mkTable bucket_count (replicate (Z.to_nat bucket_count) None) ∅.

(** [Hash(key)] on [uint32_t]; the remainder by 0 is undefined. *)
Definition mix (key : Z) : Z :=
  let u := wrap_u32 key in
  let u := Z.lxor u (Z.shiftr u 16) in
  let u := wrap_u32 (u * 0x45d9f3b) in
  Z.lxor u (Z.shiftr u 16).
Definition Hash (bucket_count key : Z) : option nat :=
  if bucket_count =? 0 then None else Some (Z.to_nat (mix key `mod` bucket_count)).

(** ** Insert *)

(** Where a call of [Insert(key, value)] is. *)
Inductive Inserter :=
  | INew (key : Z) (value : Tuple)
  | ILoad (key : Z) (value : Tuple) (node : addr) (idx : nat)
  | IStore (key : Z) (value : Tuple) (node : addr) (idx : nat) (head : option addr)
  | ICas (key : Z) (value : Tuple) (node : addr) (idx : nat) (head : option addr)
  | IDone (key : Z) (value : Tuple)
  | IUndefined.

Definition set_nodes (ns : gmap addr Node) (t : LockFreeHashTable) : LockFreeHashTable :=
  mkTable (bucket_count_ t) (buckets_ t) ns.
Definition set_bucket (idx : nat) (p : option addr) (t : LockFreeHashTable) : LockFreeHashTable :=
  mkTable (bucket_count_ t) (<[idx := p]> (buckets_ t)) (nodes t).

(** One atomic step.  [a] is the address the allocator returns, [spurious]
    whether the exchange fails spuriously. *)
Definition insert_step (a : addr) (spurious : bool) (t : LockFreeHashTable) (st : Inserter)
    : option (LockFreeHashTable * Inserter) :=
  match st with
  | INew key value =>
      match nodes t !! a with
      | Some _ => None
      | None =>
          Some (set_nodes (<[a := mkNode key value None]> (nodes t)) t,
                match Hash (bucket_count_ t) key with
                | Some idx => ILoad key value a idx
                | None => IUndefined
                end)
      end
  | ILoad key value node idx =>
      Some (t, match buckets_ t !! idx with
               | Some head => IStore key value node idx head
               | None => IUndefined
               end)
  | IStore key value node idx head =>
      Some (set_nodes (<[node := mkNode key value head]> (nodes t)) t, ICas key value node idx head)
  | ICas key value node idx head =>
      match buckets_ t !! idx with
      | None => Some (t, IUndefined)
      | Some cur =>
          if bool_decide (cur = head) && negb spurious
          then Some (set_bucket idx (Some node) t, IDone key value)
          else Some (t, IStore key value node idx cur)
      end
  | IDone _ _ | IUndefined => None
  end.

(** Concurrent calls: call [i] makes a step. *)
Definition system : Type := LockFreeHashTable * list Inserter.
Record Choice := mkChoice { ch_call : nat; ch_addr : addr; ch_spurious : bool }.
Definition hstep (c : Choice) (s : system) : option system :=
  st ← s.2 !! ch_call c;
  r ← insert_step (ch_addr c) (ch_spurious c) s.1 st;
  Some (r.1, <[ch_call c := r.2]> s.2).
Fixpoint hrun (cs : list Choice) (s : system) : option system :=
  match cs with [] => Some s | c :: cs => s' ← hstep c s; hrun cs s' end.

(** ** Lookup and Clear *)
Fixpoint lookup_chain (fuel : nat) (ns : gmap addr Node) (key : Z) (cur : option addr)
    : outcome (list Tuple) :=
  match cur with
  | None => Ok []
  | Some a =>
      match fuel with
      | O => Fault OutOfFuel
      | S fuel =>
          node <-! odef (ns !! a) ;;
          rest <-! lookup_chain fuel ns key (nd_next node) ;;
          Ok (if nd_key node =? key then nd_value node :: rest else rest)
      end
  end.
(** [Lookup(key, out)]: what is appended to [out]. *)
Definition HashTable_Lookup (fuel : nat) (key : Z) (t : LockFreeHashTable) : outcome (list Tuple) :=
  idx <-! odef (Hash (bucket_count_ t) key) ;;
  cur <-! odef (buckets_ t !! idx) ;;
  lookup_chain fuel (nodes t) key cur.

(** [delete cur]: freeing what is not allocated is undefined. *)
Fixpoint clear_chain (fuel : nat) (cur : option addr) (ns : gmap addr Node) : outcome (gmap addr Node) :=
  match cur with
  | None => Ok ns
  | Some a =>
      match fuel with
      | O => Fault OutOfFuel
      | S fuel => node <-! odef (ns !! a) ;; clear_chain fuel (nd_next node) (delete a ns)
      end
  end.
Fixpoint clear_buckets (fuel : nat) (bs : list (option addr)) (ns : gmap addr Node)
    : outcome (gmap addr Node) :=
  match bs with
  | [] => Ok ns
  | b :: bs => ns <-! clear_chain fuel b ns ;; clear_buckets fuel bs ns
  end.
Definition HashTable_Clear (fuel : nat) (t : LockFreeHashTable) : outcome LockFreeHashTable :=
  ns <-! clear_buckets fuel (buckets_ t) (nodes t) ;;
  Ok (mkTable (bucket_count_ t) ((λ _, None) <$> buckets_ t) ns).

(** ** The invariant *)
Abbreviation entry := (addr * (Z * Tuple))%type.

Fixpoint is_chain (ns : gmap addr Node) (p : option addr) (l : list entry) : Prop :=
  match l with
  | [] => p = None
  | (a, (k, v)) :: l =>
      p = Some a ∧ ∃ next, ns !! a = Some (mkNode k v next) ∧ is_chain ns next l
  end.

(** The node a call has allocated and not yet published. *)
Definition own (st : Inserter) : list addr :=
  match st with
  | ILoad _ _ a _ | IStore _ _ a _ _ | ICas _ _ a _ _ => [a]
  | _ => []
  end.
Definition owned (ins : list Inserter) : list addr := concat (own <$> ins).
(** The entries of the calls that have returned. *)
Definition returned (st : Inserter) : list (Z * Tuple) :=
  match st with IDone k v => [(k, v)] | _ => [] end.
Definition all_returned (ins : list Inserter) : list (Z * Tuple) := concat (returned <$> ins).

Definition ins_ok (t : LockFreeHashTable) (st : Inserter) : Prop :=
  match st with
  | INew _ _ | IDone _ _ => True
  | ILoad k v a idx | IStore k v a idx _ =>
      (∃ next, nodes t !! a = Some (mkNode k v next)) ∧ Hash (bucket_count_ t) k = Some idx
  | ICas k v a idx head =>
      nodes t !! a = Some (mkNode k v head) ∧ Hash (bucket_count_ t) k = Some idx
  | IUndefined => False
  end.

(** [g] lists, per bucket, the published nodes with their entries. *)
Record table_inv (t : LockFreeHashTable) (ins : list Inserter) (g : list (list entry)) : Prop := {
  ti_count : 0 < bucket_count_ t;
  ti_len : length (buckets_ t) = Z.to_nat (bucket_count_ t);
  ti_chains : Forall2 (is_chain (nodes t)) (buckets_ t) g;
  ti_hash i l e : g !! i = Some l → e ∈ l → Hash (bucket_count_ t) e.2.1 = Some i;
  ti_nodup : NoDup ((concat g).*1 ++ owned ins);
  ti_dom a : is_Some (nodes t !! a) ↔ a ∈ (concat g).*1 ++ owned ins;
  ti_ins : Forall (ins_ok t) ins
}.

Lemma Hash_lt n k i : 0 < n → Hash n k = Some i → (i < Z.to_nat n)%nat.
Proof.
  intros Hn. unfold Hash. rewrite (proj2 (Z.eqb_neq _ _)) by lia. intros [= <-].
  pose proof (Z.mod_pos_bound (mix k) n Hn). lia.
Qed.
Lemma Hash_Some n k : 0 < n → is_Some (Hash n k).
Proof. intros Hn. unfold Hash. rewrite (proj2 (Z.eqb_neq _ _)) by lia. eauto. Qed.

Lemma is_chain_frame ns ns' p l :
  (∀ a, a ∈ l.*1 → ns' !! a = ns !! a) → is_chain ns p l → is_chain ns' p l.
Proof.
  revert p. induction l as [|[a [k v]] l IH]; intros p Hfr; cbn; [done|].
  intros (-> & next & Ha & Hl). split; [done|]. exists next. rewrite Hfr by (cbn; set_solver).
  split; [done|]. apply IH; [|done]. intros b Hb. apply Hfr. cbn. set_solver.
Qed.
Lemma chains_frame ns ns' bs g :
  (∀ a, a ∈ (concat g).*1 → ns' !! a = ns !! a) →
  Forall2 (is_chain ns) bs g → Forall2 (is_chain ns') bs g.
Proof.
  intros Hfr Hall. induction Hall as [|p l bs g Hc _ IH]; constructor.
  - eapply is_chain_frame, Hc. intros a Ha. apply Hfr. cbn. rewrite fmap_app. set_solver.
  - apply IH. intros a Ha. apply Hfr. cbn. rewrite fmap_app. set_solver.
Qed.
Lemma concat_bucket (g : list (list entry)) i l e :
  g !! i = Some l → concat (<[i := e :: l]> g) ≡ₚ e :: concat g.
Proof.
  intros Hi. pose proof (concat_insert id g i l (e :: l) Hi) as H. rewrite !list_fmap_id in H.
  cbn in H. apply (Permutation_app_inv_r l). rewrite H. solve_Permutation.
Qed.

(** Writing to a node no other call owns keeps the other calls' nodes. *)
Lemma ins_ok_frame t ns ins a :
  (∀ b, b ≠ a → ns !! b = nodes t !! b) → (a ∉ owned ins) →
  Forall (ins_ok t) ins → Forall (ins_ok (set_nodes ns t)) ins.
Proof.
  intros Hfr Hn Hall. induction Hall as [|st ins Hst _ IH]; constructor.
  - destruct st; cbn in *; try done; by rewrite Hfr by set_solver.
  - apply IH. cbn in Hn. set_solver.
Qed.
Lemma owned_delete ins i st : ins !! i = Some st → owned ins ≡ₚ own st ++ owned (delete i ins).
Proof.
  unfold owned. revert i. induction ins as [|x ins IH]; intros [|i] Hi; simplify_eq/=; [done|].
  rewrite (IH i Hi). solve_Permutation.
Qed.

Lemma own_other ins i j st st' a :
  NoDup (owned ins) → ins !! i = Some st → ins !! j = Some st' → i ≠ j → a ∈ own st → a ∉ own st'.
Proof.
  intros Hnd Hi Hj Hne Ha Ha'. rewrite (owned_delete _ _ _ Hi) in Hnd.
  apply NoDup_app in Hnd as (_ & Hd & _). apply (Hd a Ha).
  assert (∃ k, delete i ins !! k = Some st') as [k Hk].
  { destruct (decide (j < i)%nat).
    - exists j. by rewrite list_lookup_delete_lt.
    - exists (j - 1)%nat. rewrite list_lookup_delete_ge by lia. by replace (S (j - 1)) with j by lia. }
  rewrite (owned_delete _ _ _ Hk). set_solver.
Qed.

(** Replacing the state of call [i] when only node [a] has changed. *)
Lemma ins_ok_update t ns ins i st st' a :
  NoDup (owned ins) → ins !! i = Some st → (a ∈ own st ∨ (a ∉ owned ins)) →
  (∀ b, b ≠ a → ns !! b = nodes t !! b) →
  Forall (ins_ok t) ins → ins_ok (set_nodes ns t) st' →
  Forall (ins_ok (set_nodes ns t)) (<[i := st']> ins).
Proof.
  intros Hnd Hi Ha Hfr Hall Hst'. apply Forall_lookup. intros j x. rewrite list_lookup_insert.
  case_decide as Hij; [by intros [= <-]|]. intros Hj.
  assert (a ∉ own x) as Hax.
  { destruct Ha as [Ha|Ha]; [|intros Hin; apply Ha; rewrite (owned_delete _ _ _ Hj); set_solver].
    eapply own_other; [exact Hnd|exact Hi|exact Hj| |exact Ha]. intros ->. apply Hij.
    split; [done|]. by eapply lookup_lt_Some. }
  rewrite Forall_lookup in Hall. specialize (Hall j x Hj).
  destruct x; cbn in *; try done; by rewrite Hfr by set_solver.
Qed.

(** The step adds to the buckets what the call returns with, if it returns. *)
Definition adds (g g' : list (list entry)) (st' : Inserter) : Prop :=
  (concat g').*2 ≡ₚ returned st' ++ (concat g).*2.

Lemma owned_step ins i st st' :
  ins !! i = Some st → owned (<[i := st']> ins) ++ own st ≡ₚ owned ins ++ own st'.
Proof. apply concat_insert. Qed.
Lemma owned_same ins i st st' :
  ins !! i = Some st → own st' = own st → owned (<[i := st']> ins) ≡ₚ owned ins.
Proof.
  intros Hi E. pose proof (owned_step _ _ _ st' Hi) as H. rewrite E in H.
  by apply Permutation_app_inv_r in H.
Qed.

(** Steps that keep the buckets and the ownership of nodes. *)
Lemma inv_private t ins g i st st' ns :
  table_inv t ins g → ins !! i = Some st → own st' = own st → returned st' = [] →
  (ns = nodes t ∨ ∃ a n, own st = [a] ∧ is_Some (nodes t !! a) ∧ ns = <[a := n]> (nodes t)) →
  ins_ok (set_nodes ns t) st' →
  ∃ g', table_inv (set_nodes ns t) (<[i := st']> ins) g' ∧ adds g g' st'.
Proof.
  intros [H1 H2 H3 H4 H5 H6 H7] Hi Hown Hret Hns Hok. exists g.
  split; [|unfold adds; by rewrite Hret].
  pose proof (owned_same _ _ _ _ Hi Hown) as Hp.
  assert (NoDup (owned ins)) as Hnd by by apply NoDup_app in H5 as (_ & _ & ?).
  split; cbn [set_nodes bucket_count_ buckets_ nodes]; try done.
  - eapply chains_frame, H3. intros a Ha. destruct Hns as [->|(b & n & Hb & _ & ->)]; [done|].
    rewrite lookup_insert_ne; [done|]. intros ->. apply NoDup_app in H5 as (_ & Hd & _).
    apply (Hd a Ha). rewrite (owned_delete _ _ _ Hi), Hb. set_solver.
  - by rewrite Hp.
  - intros a. rewrite Hp, <- H6. destruct Hns as [->|(b & n & Hb & Hsome & ->)]; [done|].
    rewrite lookup_insert. case_decide as E; [subst; split; eauto|done].
  - destruct Hns as [->|(a & n & Ha & _ & ->)].
    + destruct t. apply Forall_insert; done.
    + eapply (ins_ok_update _ _ _ _ _ _ a); [done|done|left; rewrite Ha; set_solver| |done|done].
      intros b Hb. by rewrite lookup_insert_ne.
Qed.

Lemma inv_alloc t ins g i a k v :
  table_inv t ins g → ins !! i = Some (INew k v) → nodes t !! a = None →
  ∃ idx, Hash (bucket_count_ t) k = Some idx ∧
    table_inv (set_nodes (<[a := mkNode k v None]> (nodes t)) t) (<[i := ILoad k v a idx]> ins) g.
Proof.
  intros [H1 H2 H3 H4 H5 H6 H7] Hi Ha. destruct (Hash_Some _ k H1) as [idx Hidx]. exists idx.
  split; [done|]. assert (a ∉ (concat g).*1 ++ owned ins) as Hfresh.
  { rewrite <- H6, Ha. by intros []. }
  pose proof (owned_step _ _ _ (ILoad k v a idx) Hi) as Hp. cbn [own] in Hp. rewrite app_nil_r in Hp.
  assert (NoDup (owned ins)) as Hnd by by apply NoDup_app in H5 as (_ & _ & ?).
  split; cbn [set_nodes bucket_count_ buckets_ nodes]; try done.
  - eapply chains_frame, H3. intros b Hb. rewrite lookup_insert_ne; [done|]. set_solver.
  - rewrite Hp, app_assoc. apply NoDup_app. split_and!; [done|set_solver|apply NoDup_singleton].
  - intros b. rewrite Hp, app_assoc, lookup_insert. case_decide as E; [subst; set_solver|].
    rewrite H6, elem_of_app. set_solver.
  - eapply (ins_ok_update _ _ _ _ _ _ a); [done|done|right; set_solver| |done|].
    + intros b Hb. by rewrite lookup_insert_ne.
    + cbn. rewrite lookup_insert_eq. eauto.
Qed.

Lemma inv_publish t ins g i k v a idx head :
  table_inv t ins g → ins !! i = Some (ICas k v a idx head) → buckets_ t !! idx = Some head →
  ∃ g', table_inv (set_bucket idx (Some a) t) (<[i := IDone k v]> ins) g' ∧ adds g g' (IDone k v).
Proof.
  intros [H1 H2 H3 H4 H5 H6 H7] Hi Hb.
  destruct (Forall2_lookup_l _ _ _ _ _ H3 Hb) as (l & Hl & Hc).
  destruct (Forall_lookup_1 _ _ _ _ H7 Hi) as [Hnode Hh].
  exists (<[idx := (a, (k, v)) :: l]> g). pose proof (concat_bucket g idx l (a, (k, v)) Hl) as Hp.
  pose proof (owned_step _ _ _ (IDone k v) Hi) as Ho. cbn [own] in Ho. rewrite app_nil_r in Ho.
  assert ((concat (<[idx:=(a, (k, v)) :: l]> g)).*1 ++ owned (<[i:=IDone k v]> ins)
    ≡ₚ (concat g).*1 ++ owned ins) as Hall.
  { rewrite Hp, <- Ho. cbn. solve_Permutation. }
  split; [|unfold adds; rewrite Hp; done].
  split; cbn [set_bucket bucket_count_ buckets_ nodes]; try done.
  - by rewrite length_insert.
  - apply Forall2_insert; [done|]. cbn. split; [done|]. exists head. done.
  - intros j l' e. rewrite list_lookup_insert. case_decide as E; [|by apply H4].
    destruct E as [-> _]. intros [= <-] [->|He]%elem_of_cons; [done|by eapply H4].
  - by rewrite Hall.
  - intros b. by rewrite Hall.
  - apply Forall_insert; [|done]. eapply Forall_impl; [exact H7|]. by intros [].
Qed.

Lemma insert_step_inv t ins g i st a sp t' st' :
  table_inv t ins g → ins !! i = Some st → insert_step a sp t st = Some (t', st') →
  ∃ g', table_inv t' (<[i := st']> ins) g' ∧ adds g g' st'.
Proof.
  intros Hinv Hi Hs. pose proof (Forall_lookup_1 _ _ _ _ (ti_ins _ _ _ Hinv) Hi) as Hok.
  assert (∀ k j, Hash (bucket_count_ t) k = Some j → ∃ p, buckets_ t !! j = Some p) as Hbucket.
  { intros k j Hj. apply lookup_lt_is_Some_2. rewrite (ti_len _ _ _ Hinv).
    eapply Hash_lt; [apply Hinv|exact Hj]. }
  destruct st as [k v|k v n idx|k v n idx head|k v n idx head|k v|]; cbn in Hs, Hok; try done.
  - destruct (nodes t !! a) eqn:Ha; [done|]. destruct (inv_alloc t ins g i a k v Hinv Hi Ha) as (idx & Hidx & Hinv').
    rewrite Hidx in Hs. injection Hs as <- <-. exists g. split; [exact Hinv'|unfold adds; reflexivity].
  - destruct Hok as [Hn Hidx]. destruct (Hbucket k idx Hidx) as [p Hp]. rewrite Hp in Hs.
    injection Hs as <- <-. replace t with (set_nodes (nodes t) t) by by destruct t.
    eapply inv_private; [exact Hinv|exact Hi|done|done|by left|]. destruct t. done.
  - destruct Hok as [[next Hn] Hidx]. injection Hs as <- <-.
    eapply inv_private; [exact Hinv|exact Hi|done|done|right; by eexists _, _|].
    cbn. by rewrite lookup_insert_eq.
  - destruct Hok as [Hn Hidx]. destruct (Hbucket k idx Hidx) as [p Hp]. rewrite Hp in Hs.
    destruct (bool_decide (p = head)) eqn:E; [apply bool_decide_eq_true in E as ->|]; cbn in Hs.
    1: destruct sp; cbn in Hs.
    2: { injection Hs as <- <-. by eapply inv_publish. }
    all: injection Hs as <- <-; replace t with (set_nodes (nodes t) t) by (by destruct t);
      (eapply inv_private; [exact Hinv|exact Hi|done|done|by left|]); destruct t; cbn in *; eauto.
Qed.

(** ** Schedules *)
Definition entry_of (st : Inserter) : option (Z * Tuple) :=
  match st with
  | INew k v | ILoad k v _ _ | IStore k v _ _ _ | ICas k v _ _ _ | IDone k v => Some (k, v)
  | IUndefined => None
  end.
(** The calls [es] on a table that was empty, after some steps. *)
Record system_inv (es : list (Z * Tuple)) (s : system) (g : list (list entry)) : Prop := {
  si_table : table_inv s.1 s.2 g;
  si_calls : entry_of <$> s.2 = Some <$> es;
  si_content : (concat g).*2 ≡ₚ all_returned s.2
}.

Lemma insert_step_entry a sp t st t' st' :
  insert_step a sp t st = Some (t', st') → st' ≠ IUndefined →
  entry_of st' = entry_of st ∧ returned st = [] ∧ bucket_count_ t' = bucket_count_ t ∧
  length (buckets_ t') = length (buckets_ t).
Proof.
  destruct st; cbn; repeat case_match; intros [= <- <-] Hne; cbn; rewrite ?length_insert; done.
Qed.

Lemma system_inv_ctor n es :
  0 < n → system_inv es (LockFreeHashTable_ctor n, (λ e, INew e.1 e.2) <$> es)
            (replicate (Z.to_nat n) []).
Proof.
  intros Hn. assert (∀ m, concat (replicate m (@nil entry)) = []) as Hc
    by (intros m; induction m as [|m IH]; [done|exact IH]).
  assert (owned ((λ e, INew e.1 e.2) <$> es) = []) as Ho
    by (induction es as [|e es IH]; [done|exact IH]).
  split; cbn [fst snd].
  - split; cbn [LockFreeHashTable_ctor bucket_count_ buckets_ nodes].
    + done.
    + by rewrite length_replicate.
    + clear. induction (Z.to_nat n) as [|m IH]; constructor; done.
    + intros i l e [-> _]%lookup_replicate He. by apply elem_of_nil in He.
    + rewrite Hc, Ho. constructor.
    + intros a. rewrite Hc, Ho, lookup_empty. split; [by intros []|by intros ?%elem_of_nil].
    + by apply Forall_fmap, Forall_true.
  - rewrite <- list_fmap_compose. apply list_fmap_ext. by intros i [].
  - rewrite Hc. clear. induction es as [|e es IH]; [done|exact IH].
Qed.

Lemma hstep_inv es c s s' g :
  system_inv es s g → hstep c s = Some s' → ∃ g', system_inv es s' g'.
Proof.
  destruct s as [t ins]. intros [Ht Hc Hr] Hs. unfold hstep in Hs. cbn in *.
  destruct (ins !! ch_call c) as [st|] eqn:Hi; [|done]. cbn in Hs.
  destruct (insert_step _ _ _ _) as [[t' st']|] eqn:Hst; [|done]. injection Hs as <-.
  destruct (insert_step_inv _ _ _ _ _ _ _ _ _ Ht Hi Hst) as (g' & Ht' & Ha).
  exists g'. split; cbn [fst snd]; [done|..].
  - pose proof (Forall_lookup_1 _ _ (ch_call c) st' (ti_ins _ _ _ Ht')) as Hok.
    rewrite list_lookup_insert_eq in Hok by (by eapply lookup_lt_Some).
    assert (st' ≠ IUndefined) as Hne by (intros ->; by apply Hok).
    destruct (insert_step_entry _ _ _ _ _ _ Hst Hne) as (He & _ & _).
    rewrite <- Hc, list_fmap_insert, He. apply list_insert_id. by rewrite list_lookup_fmap, Hi.
  - pose proof (concat_insert returned _ _ _ st' Hi) as Hp. unfold adds in Ha. rewrite Ha, Hr.
    assert (returned st = []) as E by by destruct st.
    rewrite E, app_nil_r in Hp. unfold all_returned. rewrite Hp. apply Permutation_app_comm.
Qed.
Lemma hrun_inv es cs s s' g :
  system_inv es s g → hrun cs s = Some s' → ∃ g', system_inv es s' g'.
Proof.
  revert s g. induction cs as [|c cs IH]; intros s g Hs; cbn; [intros [= <-]; eauto|].
  destruct (hstep c s) as [s1|] eqn:E; [|done]. cbn. destruct (hstep_inv _ _ _ _ _ Hs E) as [g1 H1].
  by eapply IH.
Qed.

(** ** Lookup *)
Definition with_key (k : Z) (es : list (Z * Tuple)) : list Tuple :=
  (List.filter (λ e, e.1 =? k) es).*2.

Lemma lookup_chain_spec ns k p l fuel :
  is_chain ns p l → (length l ≤ fuel)%nat → lookup_chain fuel ns k p = Ok (with_key k l.*2).
Proof.
  revert p fuel. induction l as [|[a [k' v]] l IH]; intros p fuel; cbn.
  { by intros -> _; destruct fuel. }
  intros (-> & next & Ha & Hl) Hf. destruct fuel as [|fuel]; [lia|]. cbn. rewrite Ha. cbn.
  rewrite (IH next fuel Hl) by lia. cbn. unfold with_key. cbn. by destruct (k' =? k).
Qed.
Lemma with_key_app k a b : with_key k (a ++ b) = with_key k a ++ with_key k b.
Proof. unfold with_key. by rewrite List.filter_app, fmap_app. Qed.
Lemma with_key_perm k a b : a ≡ₚ b → with_key k a ≡ₚ with_key k b.
Proof.
  intros H. unfold with_key. apply fmap_Permutation.
  induction H as [|x a b _ IH|x y a|a b c _ IH1 _ IH2]; cbn; [done|..].
  - destruct (x.1 =? k); [by rewrite IH|done].
  - destruct (x.1 =? k), (y.1 =? k); try done. apply Permutation_swap.
  - by rewrite IH1.
Qed.
Lemma with_key_none k (l : list entry) : (∀ e, e ∈ l → e.2.1 ≠ k) → with_key k l.*2 = [].
Proof.
  unfold with_key. induction l as [|e l IH]; intros H; [done|]. cbn.
  rewrite (proj2 (Z.eqb_neq _ _)); [apply IH; set_solver|]. apply H. set_solver.
Qed.
(** Only the bucket of a key has entries with it. *)
Lemma with_key_bucket k (f : Z → nat) (g : list (list entry)) l :
  (∀ i l e, g !! i = Some l → e ∈ l → f e.2.1 = i) → g !! f k = Some l →
  with_key k (concat g).*2 = with_key k l.*2.
Proof.
  intros Hf Hl. rewrite <- (take_drop_middle _ _ _ Hl), concat_app, fmap_app, with_key_app.
  cbn [concat]. rewrite fmap_app, with_key_app.
  assert (∀ h, (∀ e, e ∈ concat h → e.2.1 ≠ k) → with_key k (concat h).*2 = []) as Hnone
    by (intros h; apply with_key_none).
  assert (∀ (h : list (list entry)) e, e ∈ concat h → ∃ i l, h !! i = Some l ∧ e ∈ l) as Hin.
  { intros h e. induction h as [|x h IH]; cbn; [by intros ?%elem_of_nil|].
    intros [?|He]%elem_of_app; [by exists 0%nat, x|]. destruct (IH He) as (i & l' & ? & ?).
    by exists (S i), l'. }
  rewrite (Hnone (take _ _)), (Hnone (drop _ _)); [by rewrite app_nil_r| |].
  - intros e (i & l' & Hi & He)%Hin E. rewrite lookup_drop in Hi. specialize (Hf _ _ _ Hi He).
    rewrite E in Hf. lia.
  - intros e (i & l' & Hi & He)%Hin E. pose proof (lookup_lt_Some _ _ _ Hi) as Hlt.
    rewrite length_take in Hlt. rewrite lookup_take, decide_True in Hi by lia. specialize (Hf _ _ _ Hi He).
    rewrite E in Hf. lia.
Qed.

Lemma Lookup_table t ins g k fuel :
  table_inv t ins g → (length (concat g) ≤ fuel)%nat →
  ∃ vs, HashTable_Lookup fuel k t = Ok vs ∧ vs ≡ₚ with_key k (concat g).*2.
Proof.
  intros Ht Hf. pose proof (ti_count _ _ _ Ht) as Hpos.
  unfold HashTable_Lookup. destruct (Hash_Some _ k Hpos) as [idx Hidx]. rewrite Hidx. cbn.
  pose proof (Hash_lt _ _ _ Hpos Hidx) as Hlt. rewrite <- (ti_len _ _ _ Ht) in Hlt.
  destruct (lookup_lt_is_Some_2 _ _ Hlt) as [p Hp]. rewrite Hp. cbn.
  destruct (Forall2_lookup_l _ _ _ _ _ (ti_chains _ _ _ Ht) Hp) as (l & Hl & Hch).
  exists (with_key k l.*2). split.
  - apply lookup_chain_spec; [done|]. etransitivity; [|exact Hf].
    rewrite <- (take_drop_middle _ _ _ Hl), concat_app. cbn. rewrite !length_app. lia.
  - rewrite (with_key_bucket k (λ x, default 0%nat (Hash (bucket_count_ t) x)) g l); [done| |].
    + intros i l' e Hi He. by rewrite (ti_hash _ _ _ Ht _ _ _ Hi He).
    + by rewrite Hidx.
Qed.
Lemma Lookup_spec es t ins g k fuel :
  system_inv es (t, ins) g → (length es ≤ fuel)%nat →
  ∃ vs, HashTable_Lookup fuel k t = Ok vs ∧ vs ≡ₚ with_key k (all_returned ins).
Proof.
  intros [Ht Hc Hr] Hf. cbn [fst snd] in *. destruct (Lookup_table t ins g k fuel Ht) as (vs & E & Hp).
  - assert (length (concat g) = length (all_returned ins)) as Hlen.
    { rewrite <- (length_fmap snd (concat g)). by apply Permutation_length. }
    assert (length (all_returned ins) ≤ length ins)%nat as Hret.
    { clear. unfold all_returned. induction ins as [|[] ins IH]; cbn; lia. }
    apply (f_equal length) in Hc. rewrite !length_fmap in Hc. lia.
  - exists vs. split; [done|]. by rewrite Hp, (with_key_perm k _ _ Hr).
Qed.

(** ** Clear *)
Definition freed (ns ns' : gmap addr Node) (l : list addr) : Prop :=
  ∀ a, ns' !! a = if decide (a ∈ l) then None else ns !! a.

Lemma clear_chain_spec fuel p ns l :
  is_chain ns p l → NoDup l.*1 → (length l ≤ fuel)%nat →
  ∃ ns', clear_chain fuel p ns = Ok ns' ∧ freed ns ns' l.*1.
Proof.
  revert p ns fuel. induction l as [|[a [k v]] l IH]; intros p ns fuel; cbn.
  { intros -> _ _. exists ns. destruct fuel; (split; [done|]); intros b; by rewrite decide_False by set_solver. }
  intros (-> & next & Ha & Hl) [Hn Hnd]%NoDup_cons Hf. destruct fuel as [|fuel]; [lia|].
  cbn. rewrite Ha. cbn. destruct (IH next (delete a ns) fuel) as (ns' & E & Hfr); [|done|lia|].
  { eapply is_chain_frame, Hl. intros b Hb. rewrite lookup_delete_ne; [done|]. by intros ->. }
  exists ns'. split; [done|]. intros b. rewrite Hfr.
  destruct (decide (b = a)) as [->|Hne].
  - rewrite lookup_delete_eq, (decide_True (P := a ∈ a :: _)) by set_solver. by case_decide.
  - rewrite lookup_delete_ne by done. apply decide_ext. set_solver.
Qed.

Lemma clear_buckets_spec fuel bs ns g :
  Forall2 (is_chain ns) bs g → NoDup (concat g).*1 → (length (concat g) ≤ fuel)%nat →
  ∃ ns', clear_buckets fuel bs ns = Ok ns' ∧ freed ns ns' (concat g).*1.
Proof.
  intros Hall. revert ns Hall. revert g.
  induction bs as [|p bs IH]; intros [|l g] ns Hall; inversion Hall as [|? ? ? ? Hcl Hcg]; subst.
  { intros _ _. exists ns. split; [done|]. intros b. by rewrite decide_False by set_solver. }
  cbn [concat clear_buckets]. rewrite fmap_app, length_app. intros (Hl & Hd & Hg)%NoDup_app Hf.
  destruct (clear_chain_spec fuel p ns l) as (ns1 & E1 & H1); [done|done|lia|]. rewrite E1. cbn.
  destruct (IH g ns1) as (ns2 & E2 & H2); [|done|lia|].
  { eapply chains_frame; [|done]. intros a Ha. rewrite H1, decide_False; [done|]. intros Hin. by apply (Hd a Hin). }
  exists ns2. split; [done|]. intros a. rewrite H2, H1.
  destruct (decide (a ∈ l.*1)), (decide (a ∈ (concat g).*1)), (decide (a ∈ l.*1 ++ (concat g).*1));
    set_solver.
Qed.

Lemma Clear_table t ins g fuel :
  table_inv t ins g → owned ins = [] → (length (concat g) ≤ fuel)%nat →
  HashTable_Clear fuel t = Ok (LockFreeHashTable_ctor (bucket_count_ t)).
Proof.
  intros [H1 H2 H3 H4 H5 H6 H7] Ho Hf. rewrite Ho, app_nil_r in H5.
  destruct (clear_buckets_spec fuel (buckets_ t) (nodes t) g H3 H5 Hf) as (ns & E & Hfr).
  unfold HashTable_Clear. rewrite E. cbn. unfold LockFreeHashTable_ctor. do 2 f_equal.
  - rewrite <- H2. clear. induction (buckets_ t) as [|b bs IH]; [done|]. cbn. by f_equal.
  - apply map_eq. intros a. rewrite Hfr, lookup_empty. case_decide as Ha; [done|].
    apply eq_None_not_Some. by rewrite H6, Ho, app_nil_r.
Qed.

(** The number of allocated nodes bounds the walks along the chains. *)
Lemma nodes_size t ins g : table_inv t ins g → (length (concat g) ≤ size (nodes t))%nat.
Proof.
  intros [_ _ _ _ H5 H6 _].
  assert (dom (nodes t) = list_to_set ((concat g).*1 ++ owned ins)) as Hd.
  { apply set_eq. intros a. by rewrite elem_of_dom, H6, elem_of_list_to_set. }
  rewrite <- size_dom, Hd, size_list_to_set, length_app, length_fmap by done. lia.
Qed.

(** The calls are known up to their order, and those that have not begun or have
    returned do not matter. *)
Lemma table_inv_perm t ins ins' g : ins ≡ₚ ins' → table_inv t ins g → table_inv t ins' g.
Proof.
  intros Hp [H1 H2 H3 H4 H5 H6 H7].
  assert (owned ins ≡ₚ owned ins') as Ho.
  { unfold owned. rewrite <- !flat_map_concat_map. by apply Permutation_flat_map. }
  split; try done; [by rewrite <- Ho|intros a; by rewrite <- Ho|by rewrite <- Hp].
Qed.
Lemma table_inv_new t ins g k v : table_inv t ins g → table_inv t (INew k v :: ins) g.
Proof. intros [H1 H2 H3 H4 H5 H6 H7]. split; try done. by constructor. Qed.
Lemma table_inv_done t ins g k v : table_inv t (IDone k v :: ins) g → table_inv t ins g.
Proof.
  intros [H1 H2 H3 H4 H5 H6 H7]. split; try done. by apply Forall_cons in H7 as [_ ?].
Qed.
Lemma table_inv_ctor n : 0 < n → table_inv (LockFreeHashTable_ctor n) [] (replicate (Z.to_nat n) []).
Proof. intros Hn. apply (si_table [] _ _ (system_inv_ctor n [] Hn)). Qed.

Definition is_done (st : Inserter) : bool := match st with IDone _ _ => true | _ => false end.

Lemma owned_done ins : Forall is_done ins → owned ins = [].
Proof. unfold owned. induction 1 as [|[] ins H _ IH]; done. Qed.
Lemma all_returned_done es ins :
  Forall is_done ins → entry_of <$> ins = Some <$> es → all_returned ins = es.
Proof.
  intros H. revert es. induction H as [|st ins Hst _ IH]; intros [|e es] E; try done.
  injection E as E1 E2. destruct st as [| | | |k v|]; try done. injection E1 as <-.
  unfold all_returned. cbn. f_equal. by apply IH.
Qed.

(** ** Progress *)

(** Steps a call makes if no other call publishes in its bucket. *)
Definition need (t : LockFreeHashTable) (st : Inserter) : nat :=
  match st with
  | INew _ _ => 4
  | ILoad _ _ _ _ => 3
  | IStore _ _ _ idx head => if decide (buckets_ t !! idx = Some head) then 2 else 4
  | ICas _ _ _ idx head => if decide (buckets_ t !! idx = Some head) then 1 else 3
  | IDone _ _ | IUndefined => 0
  end.
Definition undone (st : Inserter) : nat := if is_done st then 0 else 1.
Definition hweight (s : system) : nat :=
  sum_list_with (need s.1) s.2 + 2 * length s.2 * sum_list_with undone s.2.

Lemma need_publish t idx p st :
  (need (set_bucket idx p t) st ≤ need t st + 2)%nat.
Proof. destruct st; cbn; try lia; repeat case_decide; lia. Qed.
Lemma need_nodes t ns st : need (set_nodes ns t) st = need t st.
Proof. by destruct st. Qed.

(** A step that publishes ends its call and costs every other call at most one
    more round; any other step brings its call closer to the end, unless it
    fails spuriously. *)
Lemma insert_step_need a sp t st t' st' :
  insert_step a sp t st = Some (t', st') →
  (is_done st' = true ∧ need t st = 1%nat ∧ ∀ st2, need t' st2 ≤ need t st2 + 2)%nat ∨
  (is_done st' = false ∧ (∀ st2, need t' st2 = need t st2) ∧
   need t' st' < need t st + if sp then 2 else 0)%nat.
Proof.
  destruct st as [k v|k v n idx|k v n idx head|k v n idx head|k v|]; cbn; try done.
  - destruct (nodes t !! _); [done|]. intros [= <- <-]. right.
    split_and!; [by destruct (Hash _ _)|apply need_nodes|destruct (Hash _ _), sp; cbn; lia].
  - intros [= <- <-]. right. destruct (buckets_ t !! idx) as [p|] eqn:E; cbn.
    + rewrite decide_True by done. split_and!; [done|done|destruct sp; lia].
    + split_and!; [done|done|destruct sp; lia].
  - intros [= <- <-]. right. split_and!; [done|apply need_nodes|]. cbn. case_decide; destruct sp; lia.
  - destruct (buckets_ t !! idx) as [p|] eqn:E.
    2: { intros [= <- <-]. right. rewrite decide_False by done. split_and!; [done|done|cbn; destruct sp; lia]. }
    destruct (bool_decide (p = head)) eqn:Ep; cbn.
    + apply bool_decide_eq_true in Ep as ->. rewrite decide_True by done.
      destruct sp; cbn; intros [= <- <-]; [right|left].
      * cbn. rewrite E, decide_True by done. split_and!; [done|done|lia].
      * split_and!; [done|done|]. intros st2. apply need_publish.
    + apply bool_decide_eq_false in Ep. intros [= <- <-]. right. cbn.
      rewrite E, decide_True, (decide_False (P := Some p = Some head)) by congruence.
      split_and!; [done|done|destruct sp; lia].
Qed.

Lemma sum_delete {A} (f : A → nat) l i x :
  l !! i = Some x → sum_list_with f l = (f x + sum_list_with f (delete i l))%nat.
Proof.
  revert i. induction l as [|y l IH]; intros [|i] H; simplify_eq/=; [done|]. rewrite (IH _ H). lia.
Qed.
Lemma sum_le {A} (f g : A → nat) l c :
  (∀ x, f x ≤ g x + c)%nat → (sum_list_with f l ≤ sum_list_with g l + c * length l)%nat.
Proof. intros H. induction l as [|x l IH]; cbn; [lia|]. specialize (H x). lia. Qed.
Lemma delete_insert_list {A} (l : list A) i x : delete i (<[i := x]> l) = delete i l.
Proof. revert i. induction l as [|y l IH]; intros [|i]; cbn; try done. by rewrite IH. Qed.

(** Every step but a spurious failure decreases the weight. *)
Lemma hstep_weight c s s' :
  hstep c s = Some s' →
  (hweight s' < hweight s + if ch_spurious c then 2 else 0)%nat.
Proof.
  destruct s as [t ins]. unfold hstep, hweight. cbn [fst snd].
  destruct (ins !! ch_call c) as [st|] eqn:Hi; [|done]. cbn.
  destruct (insert_step _ _ t st) as [[t' st']|] eqn:Hst; [|done]. cbn. intros [= <-]. cbn.
  rewrite length_insert. pose proof (sum_insert undone _ _ _ st' Hi) as Hu.
  pose proof (lookup_lt_Some _ _ _ Hi) as Hlt.
  rewrite (sum_delete (need t) _ _ _ Hi), (sum_delete (need t') (<[_ := st']> ins) (ch_call c) st'),
    delete_insert_list by (by rewrite list_lookup_insert_eq).
  assert (undone st = 1)%nat as Eu by (by destruct st). rewrite Eu in Hu.
  destruct (insert_step_need _ _ _ _ _ _ Hst) as [(Hd & Hone & Hle)|(Hd & Heq & Hlt')].
  - pose proof (sum_le (need t') (need t) (delete (ch_call c) ins) 2 Hle) as Hs.
    rewrite length_delete in Hs by eauto. unfold undone at 3 in Hu. rewrite Hd in Hu.
    assert (need t' st' = 0)%nat as -> by (by destruct st'). nia.
  - pose proof (sum_le (need t') (need t) (delete (ch_call c) ins) 0) as Hs.
    rewrite Nat.mul_0_l, Nat.add_0_r in Hs. specialize (Hs ltac:(intros; rewrite Heq; lia)).
    unfold undone at 3 in Hu. rewrite Hd in Hu. apply Nat.add_cancel_r in Hu. rewrite Hu. lia.
Qed.

Definition spurious_failures (cs : list Choice) : nat :=
  sum_list_with (λ c, if ch_spurious c then 1 else 0)%nat cs.
Lemma hrun_weight cs s s' :
  hrun cs s = Some s' → (hweight s' + length cs ≤ hweight s + 2 * spurious_failures cs)%nat.
Proof.
  unfold spurious_failures. revert s. induction cs as [|c cs IH]; intros s; cbn; [intros [= <-]; lia|].
  destruct (hstep c s) as [s1|] eqn:E; [|done]. cbn. intros Hr. specialize (IH s1 Hr).
  pose proof (hstep_weight _ _ _ E). destruct (ch_spurious c); lia.
Qed.

(** A call that has not returned can make a step that is no spurious failure. *)
Lemma hstep_enabled t ins g i st :
  table_inv t ins g → ins !! i = Some st → is_done st = false →
  ∃ a, is_Some (hstep (mkChoice i a false) (t, ins)).
Proof.
  intros Ht Hi Hd. exists (fresh (dom (nodes t))). unfold hstep. cbn. rewrite Hi. cbn.
  pose proof (Forall_lookup_1 _ _ _ _ (ti_ins _ _ _ Ht) Hi) as Hok.
  assert (nodes t !! fresh (dom (nodes t)) = None) as Hf by apply not_elem_of_dom, is_fresh.
  destruct st; cbn in *; try done; rewrite ?Hf; cbn; eauto.
  destruct (buckets_ t !! idx); [destruct (_ && _)|]; cbn; eauto.
Qed.

(** ** Theorems *)

(** [Insert(k, v)] called once for each entry of [es], concurrently, on a new
    table of [n] buckets. *)
Definition start (n : Z) (es : list (Z * Tuple)) : system :=
  (LockFreeHashTable_ctor n, (λ e, INew e.1 e.2) <$> es).

Lemma hrun_start n es cs s :
  0 < n → hrun cs (start n es) = Some s → ∃ g, system_inv es s g.
Proof. intros Hn Hr. eapply hrun_inv; [|exact Hr]. by apply system_inv_ctor. Qed.
Lemma hrun_count cs s s' :
  hrun cs s = Some s' → length s'.2 = length s.2.
Proof.
  revert s. induction cs as [|c cs IH]; intros s; cbn; [by intros [= <-]|].
  destruct (hstep c s) as [s1|] eqn:E; [|done]. cbn. intros Hr. rewrite (IH _ Hr).
  unfold hstep in E. destruct (s.2 !! _); [|done]. cbn in E.
  destruct (insert_step _ _ _ _); [|done]. injection E as <-. cbn. by rewrite length_insert.
Qed.
Lemma hweight_start n es : hweight (start n es) = (4 * length es + 2 * length es * length es)%nat.
Proof.
  unfold hweight, start. cbn [fst snd]. rewrite length_fmap.
  assert (∀ t, sum_list_with (need t) ((λ e, INew e.1 e.2) <$> es) = 4 * length es)%nat as ->.
  { intros t. induction es as [|e es IH]; [done|]. cbn. rewrite IH. lia. }
  assert (sum_list_with undone ((λ e, INew e.1 e.2) <$> es) = length es) as ->; [|done].
  induction es as [|e es IH]; [done|]. cbn. by rewrite IH.
Qed.

(** C17. Concurrent inserts lose and invent nothing: however the atomic steps of
    the [Insert] calls interleave, and however often the exchange fails
    spuriously, [Lookup] of a key ends and finds exactly the values of the calls
    with this key that have returned; when all calls have returned, exactly the
    values inserted with it, each as often as it was inserted. *)
Theorem concurrent_inserts_lookup n es cs t ins k :
  0 < n → hrun cs (start n es) = Some (t, ins) →
  ∃ vs, HashTable_Lookup (length es) k t = Ok vs ∧ vs ≡ₚ with_key k (all_returned ins) ∧
        (Forall is_done ins → vs ≡ₚ with_key k es).
Proof.
  intros Hn Hr. destruct (hrun_start _ _ _ _ Hn Hr) as [g Hg].
  destruct (Lookup_spec es t ins g k (length es) Hg (Nat.le_refl _)) as (vs & E & Hp).
  exists vs. split_and!; [done|done|]. intros Hd.
  by rewrite Hp, (all_returned_done es) by (done || apply Hg).
Qed.

(** C37. [Insert] is lock-free: in every interleaving of [m] calls the number of
    steps is at most [4m + 2m²] plus two for each spurious failure, whatever the
    scheduler does, and every call that has not returned can make a step. *)
Theorem Insert_lock_free n es cs t ins :
  0 < n → hrun cs (start n es) = Some (t, ins) →
  (length cs ≤ 4 * length es + 2 * length es * length es + 2 * spurious_failures cs)%nat ∧
  (∀ i st, ins !! i = Some st → is_done st = false →
     ∃ a, is_Some (hstep (mkChoice i a false) (t, ins))).
Proof.
  intros Hn Hr. destruct (hrun_start _ _ _ _ Hn Hr) as [g Hg]. split.
  - apply hrun_weight in Hr. rewrite hweight_start in Hr. lia.
  - intros i st. eapply hstep_enabled, Hg.
Qed.

(** [Clear] (and so the destructor) frees every node once: after all calls
    have returned, it ends without freeing a pointer that is not allocated, and
    leaves the new table, with no node allocated. *)
Theorem Clear_frees_all n es cs t ins :
  0 < n → hrun cs (start n es) = Some (t, ins) → Forall is_done ins →
  HashTable_Clear (length es) t = Ok (LockFreeHashTable_ctor (bucket_count_ t)).
Proof.
  intros Hn Hr Hd. destruct (hrun_start _ _ _ _ Hn Hr) as [g [Ht Hc Hp]].
  cbn [fst snd] in *. apply (Clear_table t ins g); [done|by apply owned_done|].
  apply Permutation_length in Hp. rewrite length_fmap, (all_returned_done es) in Hp by done. lia.
Qed.

(** *** Two calls for one bucket: the second loses the race once. *)
Definition demo_entries : list (Z * Tuple) :=
  [(1, mkTuple ["a"%char]); (1, mkTuple ["b"%char])].
Definition demo_schedule : list Choice :=
  [mkChoice 0 1 false; mkChoice 1 2 false; mkChoice 0 1 false; mkChoice 1 1 false;
   mkChoice 0 1 false; mkChoice 1 1 false; mkChoice 0 1 true; mkChoice 0 1 false;
   mkChoice 0 1 false; mkChoice 1 1 false; mkChoice 1 1 false; mkChoice 1 1 false].

Lemma concurrent_inserts_lookup_witness :
  ∃ t ins vs, hrun demo_schedule (start 4 demo_entries) = Some (t, ins) ∧
    HashTable_Lookup 2 1 t = Ok vs ∧ vs ≡ₚ [mkTuple ["a"%char]; mkTuple ["b"%char]].
Proof.
  destruct (hrun demo_schedule (start 4 demo_entries)) as [[t ins]|] eqn:E; [|vm_compute in E; discriminate].
  destruct (concurrent_inserts_lookup 4 demo_entries demo_schedule t ins 1 eq_refl E) as (vs & Hl & _ & Hd).
  exists t, ins, vs. split; [reflexivity|]. split; [exact Hl|]. apply Hd.
  vm_compute in E. injection E as <- <-. repeat constructor.
Defined.

Lemma Insert_lock_free_witness :
  ∃ s, hrun demo_schedule (start 4 demo_entries) = Some s ∧ (length demo_schedule ≤ 4 * 2 + 2 * 2 * 2 + 2)%nat.
Proof.
  destruct (hrun demo_schedule (start 4 demo_entries)) as [[t ins]|] eqn:E; [|vm_compute in E; discriminate].
  destruct (Insert_lock_free 4 demo_entries demo_schedule t ins eq_refl E) as [Hb _].
  exists (t, ins). split; [reflexivity|exact Hb].
Defined.

Lemma Clear_frees_all_witness :
  ∃ s, hrun demo_schedule (start 4 demo_entries) = Some s ∧
       HashTable_Clear 2 s.1 = Ok (LockFreeHashTable_ctor 4).
Proof.
  destruct (hrun demo_schedule (start 4 demo_entries)) as [[t ins]|] eqn:E; [|vm_compute in E; discriminate].
  exists (t, ins). split; [reflexivity|].
  replace 4 with (bucket_count_ t) by (vm_compute in E; injection E as <- <-; reflexivity).
  apply (Clear_frees_all 4 demo_entries demo_schedule t ins eq_refl E).
  vm_compute in E. injection E as <- <-. repeat constructor.
Defined.
