(* ===== verification/ParallelFor.v ===== *)
(** * Loops shared by worker threads

    The pattern of the parallel operators
    ([src/src/executor/parallel_seq_scan.cpp], [parallel_hash_join.cpp]): [n] tasks
    of a thread pool run
    [while (true) { idx = next.fetch_add(1); if (idx >= items.size()) break; body(items[idx]); }].
    A schedule says at each moment which thread makes its next atomic step and
    whether a weak compare-exchange it makes fails spuriously; a pick of a thread
    that has finished does nothing.  The counter does not wrap: it stays at most
    the number of items and threads. *)
From stdpp Require Import base list list_numbers.
From Stdlib Require Import ZArith Lia.
From S2P Require Import Prelude.

Record Pick := mkPick { pk_thread : nat; pk_spurious : bool }.
Abbreviation Schedule := (nat → Pick).

(** Every thread is picked again and again, and the spurious failures end. *)
Definition fair (n : nat) (σ : Schedule) : Prop :=
  ∀ time tid, (tid < n)%nat → ∃ k, σ (time + k)%nat = mkPick tid false.
Definition calm (σ : Schedule) : Prop :=
  ∃ m, ∀ time, (m ≤ time)%nat → pk_spurious (σ time) = false.

Inductive Thread (B : Type) := Claim | Busy (b : B) | Finished.
Arguments Claim {B}. Arguments Busy {B} b. Arguments Finished {B}.

Record ParFor (X B : Type) := mkParFor {
  pf_next : nat;
  pf_threads : list (Thread B);
  pf_shared : X
}.
Arguments mkParFor {X B}. Arguments pf_next {X B}. Arguments pf_threads {X B}.
Arguments pf_shared {X B}.

Definition is_finished {B} (th : Thread B) : bool := match th with Finished => true | _ => false end.
Definition all_finished {X B} (s : ParFor X B) : bool := forallb is_finished (pf_threads s).

Section parallel_for.
Context {X B T : Type} (items : list T) (enter : T → B).
(** One atomic step of the body; [None]: the body has ended. *)
Context (body : bool → nat → B → X → outcome (X * option B)).

Definition pf_step (pk : Pick) (s : ParFor X B) : outcome (ParFor X B) :=
  let tid := pk_thread pk in
  match pf_threads s !! tid with
  | Some Claim =>
      let idx := pf_next s in
      Ok (mkParFor (S idx)
            (<[tid := match items !! idx with Some t => Busy (enter t) | None => Finished end]>
               (pf_threads s)) (pf_shared s))
  | Some (Busy b) =>
      r <-! body (pk_spurious pk) tid b (pf_shared s) ;;
      Ok (mkParFor (pf_next s)
            (<[tid := match r.2 with Some b' => Busy b' | None => Claim end]> (pf_threads s)) r.1)
  | Some Finished | None => Ok s
  end.

(** Running until every task has ended ([WaitAll]). *)
Fixpoint pf_run (σ : Schedule) (time fuel : nat) (s : ParFor X B) : outcome (ParFor X B) :=
  if all_finished s then Ok s else
  match fuel with
  | O => Fault OutOfFuel
  | S fuel => s <-! pf_step (σ time) s ;; pf_run σ (S time) fuel s
  end.
Definition parallel_for (σ : Schedule) (fuel n : nat) (x : X) : outcome X :=
  s <-! pf_run σ 0 fuel (mkParFor 0 (replicate n Claim) x) ;; Ok (pf_shared s).

(** ** Correctness

    [Inv x bs ds]: the shared state [x] when the bodies [bs] are under way and
    the items [ds] are done.  [pot x bs] bounds the steps the bodies under way
    still make. *)
Context (n : nat) (item_of : B → T) (Inv : X → list B → list T → Prop).
Context (pot : X → list B → nat) (cost retry : nat).
Record par_laws : Prop := {
  pl_item t : item_of (enter t) = t;
  pl_perm x bs bs' ds ds' : bs ≡ₚ bs' → ds ≡ₚ ds' → Inv x bs ds → Inv x bs' ds';
  pl_enter x bs ds t :
    Inv x bs ds → t :: (item_of <$> bs) ++ ds ⊆+ items → (length bs < n)%nat →
    Inv x (enter t :: bs) ds;
  pl_body sp tid b bs ds x :
    Inv x (b :: bs) ds → (tid < n)%nat → (length bs < n)%nat →
    ∃ x' ob, body sp tid b x = Ok (x', ob) ∧
      match ob with
      | Some b' => item_of b' = item_of b ∧ Inv x' (b' :: bs) ds
      | None => Inv x' bs (item_of b :: ds)
      end ∧
      (pot x' (option_list ob ++ bs) < pot x (b :: bs) + if sp then retry else 0)%nat;
  pl_pot_perm x bs bs' : bs ≡ₚ bs' → pot x bs = pot x bs';
  pl_pot_enter x bs t : (pot x (enter t :: bs) ≤ pot x bs + cost)%nat
}.
Hypothesis Hlaws : par_laws.

Definition busy1 (th : Thread B) : list B := match th with Busy b => [b] | _ => [] end.
Definition busy (s : ParFor X B) : list B := concat (busy1 <$> pf_threads s).
Definition unfinished (th : Thread B) : nat := if is_finished th then 0 else 1.
Definition pf_weight (s : ParFor X B) : nat :=
  pot (pf_shared s) (busy s) + (cost + 1) * (length items - pf_next s)
  + sum_list_with unfinished (pf_threads s).

Record pf_inv (s : ParFor X B) (ds : list T) : Prop := {
  pi_threads : length (pf_threads s) = n;
  pi_inv : Inv (pf_shared s) (busy s) ds;
  pi_claimed : (item_of <$> busy s) ++ ds ≡ₚ take (pf_next s) items;
  pi_finished : Finished ∈ pf_threads s → (length items ≤ pf_next s)%nat
}.

Lemma busy_length s ds tid th :
  pf_inv s ds → pf_threads s !! tid = Some th → busy1 th = [] → (length (busy s) < n)%nat.
Proof.
  intros Hs Hth Hb. rewrite <- (pi_threads _ _ Hs). unfold busy. clear Hs. revert tid Hth.
  assert (∀ l : list (Thread B), length (concat (busy1 <$> l)) ≤ length l)%nat as Hle.
  { intros l. induction l as [|[] l IH]; cbn; lia. }
  induction (pf_threads s) as [|x l IH]; intros [|tid] Hth; simplify_eq/=.
  - rewrite Hb. specialize (Hle l). cbn. lia.
  - specialize (IH _ Hth). rewrite length_app. destruct x; cbn; lia.
Qed.
Lemma busy_update s tid th th' x k :
  pf_threads s !! tid = Some th →
  busy (mkParFor k (<[tid := th']> (pf_threads s)) x) ++ busy1 th ≡ₚ busy s ++ busy1 th'.
Proof. intros Hth. apply (concat_insert busy1 _ _ _ th' Hth). Qed.

(** What a step promises: the invariant, and that the weight falls unless the
    step fails spuriously or the picked thread has finished. *)
Definition good_step (pk : Pick) (s s' : ParFor X B) (ds' : list T) : Prop :=
  pf_inv s' ds' ∧
  (∀ tid, tid ≠ pk_thread pk → pf_threads s' !! tid = pf_threads s !! tid) ∧
  (pf_weight s' ≤ pf_weight s + if pk_spurious pk then retry else 0)%nat ∧
  (pk_spurious pk = false →
   (∃ th, pf_threads s !! pk_thread pk = Some th ∧ is_finished th = false) →
   (pf_weight s' < pf_weight s)%nat).

Lemma threads_other s tid (th : Thread B) tid' :
  tid' ≠ tid → <[tid := th]> (pf_threads (X := X) s) !! tid' = pf_threads s !! tid'.
Proof. intros. by rewrite list_lookup_insert_ne. Qed.
Lemma finished_update (l : list (Thread B)) tid th :
  Finished ∈ <[tid := th]> l → Finished ∈ l ∨ th = Finished.
Proof.
  intros [i Hi]%list_elem_of_lookup. rewrite list_lookup_insert in Hi. case_decide.
  - injection Hi as ->. by right.
  - left. by eapply list_elem_of_lookup_2.
Qed.

Lemma claim_item s ds tid sp t :
  pf_inv s ds → pf_threads s !! tid = Some Claim → items !! pf_next s = Some t →
  ∃ s' ds', pf_step (mkPick tid sp) s = Ok s' ∧ good_step (mkPick tid sp) s s' ds'.
Proof.
  intros Hs Hth Ht. pose proof (busy_length _ _ _ _ Hs Hth eq_refl) as Hlen.
  unfold pf_step. cbn [pk_thread pk_spurious]. rewrite Hth, Ht. destruct Hs as [H1 H2 H3 H4].
  eexists _, ds. split; [reflexivity|]. set (s' := mkParFor _ (<[tid := Busy (enter t)]> _) _).
  assert (busy s' ≡ₚ enter t :: busy s) as Hb.
  { pose proof (busy_update s tid Claim (Busy (enter t)) (pf_shared s) (S (pf_next s)) Hth) as Hb.
    cbn [busy1] in Hb. rewrite app_nil_r in Hb. unfold s'. rewrite Hb.
    symmetry. apply Permutation_cons_append. }
  pose proof (lookup_lt_Some _ _ _ Ht) as Hlt.
  assert (t :: (item_of <$> busy s) ++ ds ≡ₚ take (S (pf_next s)) items) as Hp.
  { rewrite (take_S_r _ _ _ Ht), <- H3. apply Permutation_cons_append. }
  assert (pf_weight s' < pf_weight s)%nat as Hw.
  { pose proof (sum_insert unfinished _ _ _ (Busy (enter t)) Hth) as Hu. unfold pf_weight.
    rewrite (pl_pot_perm Hlaws _ _ _ Hb). cbn [s' pf_threads pf_shared pf_next] in *.
    pose proof (pl_pot_enter Hlaws (pf_shared s) (busy s) t).
    change (unfinished Claim) with 1%nat in Hu. change (unfinished (Busy _)) with 1%nat in Hu. nia. }
  split_and!; [|intros tid' Hne; by apply threads_other|lia|done].
  split; cbn [s' pf_threads pf_shared pf_next].
  - by rewrite length_insert.
  - eapply (pl_perm Hlaws); [symmetry; exact Hb|reflexivity|]. apply (pl_enter Hlaws); [done| |done].
    rewrite Hp. apply sublist_submseteq, sublist_take.
  - rewrite Hb, fmap_cons, (pl_item Hlaws). exact Hp.
  - intros [Hf|[=]]%finished_update. specialize (H4 Hf). lia.
Qed.

Lemma claim_none s ds tid sp :
  pf_inv s ds → pf_threads s !! tid = Some Claim → items !! pf_next s = None →
  ∃ s' ds', pf_step (mkPick tid sp) s = Ok s' ∧ good_step (mkPick tid sp) s s' ds'.
Proof.
  intros [H1 H2 H3 H4] Hth Ht. unfold pf_step. cbn [pk_thread pk_spurious]. rewrite Hth, Ht.
  eexists _, ds. split; [reflexivity|]. set (s' := mkParFor _ (<[tid := Finished]> _) _).
  assert (busy s' ≡ₚ busy s) as Hb.
  { pose proof (busy_update s tid Claim Finished (pf_shared s) (S (pf_next s)) Hth) as Hb.
    cbn [busy1] in Hb. by rewrite !app_nil_r in Hb. }
  apply lookup_ge_None_1 in Ht.
  assert (pf_weight s' < pf_weight s)%nat as Hw.
  { pose proof (sum_insert unfinished _ _ _ Finished Hth) as Hu. unfold pf_weight.
    rewrite (pl_pot_perm Hlaws _ _ _ Hb). cbn [s' pf_threads pf_shared pf_next] in *.
    change (unfinished Claim) with 1%nat in Hu. change (unfinished Finished) with 0%nat in Hu. nia. }
  split_and!; [|intros tid' Hne; by apply threads_other|lia|done].
  split; cbn [s' pf_threads pf_shared pf_next].
  - by rewrite length_insert.
  - eapply (pl_perm Hlaws); [symmetry; exact Hb|reflexivity|done].
  - rewrite Hb, H3, !take_ge by lia. done.
  - lia.
Qed.

Lemma busy_step s ds tid sp b :
  pf_inv s ds → pf_threads s !! tid = Some (Busy b) →
  ∃ s' ds', pf_step (mkPick tid sp) s = Ok s' ∧ good_step (mkPick tid sp) s s' ds'.
Proof.
  intros Hs Hth. unfold pf_step. cbn [pk_thread pk_spurious]. rewrite Hth.
  set (others := concat (busy1 <$> <[tid := Claim]> (pf_threads s))).
  assert (busy s ≡ₚ b :: others) as Hb.
  { pose proof (busy_update s tid (Busy b) Claim (pf_shared s) 0 Hth) as Hb.
    cbn [busy1] in Hb. rewrite app_nil_r in Hb. rewrite <- Hb. symmetry. apply Permutation_cons_append. }
  assert (length others < n)%nat as Hlen.
  { destruct Hs as [H1 _ _ _]. rewrite <- H1. pose proof (lookup_lt_Some _ _ _ Hth) as Hlt.
    assert (∀ l : list (Thread B), length (concat (busy1 <$> l)) ≤ length l)%nat as Hle.
    { intros l. induction l as [|[] l IH]; cbn; lia. }
    apply Permutation_length in Hb. cbn in Hb. specialize (Hle (pf_threads s)). unfold busy in Hb. lia. }
  destruct Hs as [H1 H2 H3 H4]. pose proof (lookup_lt_Some _ _ _ Hth) as Hlt.
  destruct (pl_body Hlaws sp tid b others ds (pf_shared s)) as (x' & ob & Hbody & Hpost & Hpot);
    [|lia|done|].
  { by eapply (pl_perm Hlaws); [exact Hb|reflexivity|]. }
  rewrite Hbody. cbn [obind fst snd].
  set (th' := match ob with Some b' => Busy b' | None => Claim end).
  set (s' := mkParFor (pf_next s) (<[tid := th']> (pf_threads s)) x').
  assert (busy s' ≡ₚ option_list ob ++ others) as Hb'.
  { pose proof (busy_update s tid (Busy b) th' x' (pf_next s) Hth) as Hu. fold s' in Hu.
    rewrite Hb in Hu. cbn [busy1] in Hu. rewrite <- Permutation_cons_append, <- app_comm_cons in Hu.
    apply Permutation_cons_inv in Hu. rewrite Hu, Permutation_app_comm. by destruct ob. }
  assert (pf_weight s' < pf_weight s + if sp then retry else 0)%nat as Hw.
  { pose proof (sum_insert unfinished _ _ _ th' Hth) as Hu. unfold pf_weight.
    rewrite (pl_pot_perm Hlaws _ _ _ Hb'), (pl_pot_perm Hlaws _ _ _ Hb).
    cbn [s' pf_threads pf_shared pf_next] in *. change (unfinished (Busy b)) with 1%nat in Hu.
    assert (unfinished th' = 1)%nat as E by by destruct ob. rewrite E in Hu. lia. }
  exists s', (match ob with Some _ => ds | None => item_of b :: ds end). split; [done|].
  split_and!; [|intros tid' Hne; by apply threads_other|cbn; lia|cbn; intros -> _; lia].
  rewrite Hb in H3. split; cbn [s' pf_threads pf_shared pf_next].
  - by rewrite length_insert.
  - eapply (pl_perm Hlaws); [symmetry; exact Hb'|reflexivity|]. destruct ob as [b'|]; [|done]. apply Hpost.
  - rewrite Hb', <- H3. destruct ob as [b'|]; cbn.
    + by rewrite (proj1 Hpost).
    + symmetry. apply Permutation_middle.
  - intros [Hf|E]%finished_update; [by apply H4|]. by destruct ob.
Qed.

Lemma pf_step_good s ds pk :
  pf_inv s ds → ∃ s' ds', pf_step pk s = Ok s' ∧ good_step pk s s' ds'.
Proof.
  intros Hs. destruct pk as [tid sp].
  destruct (pf_threads s !! tid) as [[|b|]|] eqn:Hth.
  { destruct (items !! pf_next s) eqn:Ht; [by eapply claim_item|by eapply claim_none]. }
  { by eapply busy_step. }
  all: exists s, ds; split; [unfold pf_step; cbn; by rewrite Hth|]; split_and!; [done|done|lia|].
  all: intros _ (th & Hth' & Hf); cbn in Hth'; rewrite Hth in Hth'; by simplify_eq/=.
Qed.

(** ** Fair schedules *)
Fixpoint pf_iter (σ : Schedule) (time k : nat) (s : ParFor X B) : outcome (ParFor X B) :=
  match k with
  | O => Ok s
  | S k => s <-! pf_step (σ time) s ;; pf_iter σ (S time) k s
  end.

Lemma pf_step_finished pk s : all_finished s = true → pf_step pk s = Ok s.
Proof.
  intros Hf. unfold pf_step. destruct (pf_threads s !! _) as [th|] eqn:Hth; [|done].
  unfold all_finished in Hf. rewrite forallb_forall in Hf.
  specialize (Hf th (proj1 (list_elem_of_In _ _) (list_elem_of_lookup_2 _ _ _ Hth))). by destruct th.
Qed.
Lemma pf_run_finished σ time fuel s : all_finished s = true → pf_run σ time fuel s = Ok s.
Proof. intros Hf. destruct fuel; cbn; by rewrite Hf. Qed.
Lemma pf_run_iter σ k : ∀ time fuel s s1,
  pf_iter σ time k s = Ok s1 → pf_run σ time (k + fuel) s = pf_run σ (time + k) fuel s1.
Proof.
  induction k as [|k IH]; intros time fuel s s1 Hi; cbn in Hi.
  { injection Hi as <-. by rewrite Nat.add_0_r. }
  destruct (all_finished s) eqn:Hf.
  - rewrite pf_run_finished by done. assert (s1 = s) as ->; [|by rewrite pf_run_finished].
    clear IH. revert time s1 Hi. cbn. assert (∀ k time s1, pf_iter σ time k s = Ok s1 → s1 = s) as H.
    { clear k. intros k. induction k as [|k IH]; intros time s1; cbn; [congruence|].
      rewrite pf_step_finished by done. cbn. apply IH. }
    intros time s1. rewrite pf_step_finished by done. cbn. apply H.
  - cbn. rewrite Hf. destruct (pf_step (σ time) s) as [s2|]; [|done]. cbn in Hi |- *.
    rewrite (IH (S time) fuel s2 s1 Hi). f_equal. lia.
Qed.

(** [k] steps keep the invariant. *)
Lemma pf_iter_inv σ k : ∀ time s ds,
  pf_inv s ds → ∃ s' ds', pf_iter σ time k s = Ok s' ∧ pf_inv s' ds' ∧
    (pf_weight s' ≤ pf_weight s + k * retry)%nat.
Proof.
  induction k as [|k IH]; intros time s ds Hs; [exists s, ds; split_and!; [done|done|lia]|].
  destruct (pf_step_good s ds (σ time) Hs) as (s1 & ds1 & E & H1 & _ & Hw & _).
  destruct (IH (S time) s1 ds1 H1) as (s2 & ds2 & E2 & H2 & Hw2). exists s2, ds2. cbn.
  rewrite E. cbn. split_and!; [done|done|]. destruct (pk_spurious _); lia.
Qed.

(** Calm steps, among them one of a thread that has not finished. *)
Lemma pf_iter_calm σ k : ∀ time s ds,
  pf_inv s ds → (∀ i, (time ≤ i)%nat → pk_spurious (σ i) = false) →
  ∃ s' ds', pf_iter σ time k s = Ok s' ∧ pf_inv s' ds' ∧ (pf_weight s' ≤ pf_weight s)%nat ∧
    (∀ tid th, pf_threads s !! tid = Some th → is_finished th = false →
      (∃ i, (i < k)%nat ∧ σ (time + i)%nat = mkPick tid false) → (pf_weight s' < pf_weight s)%nat).
Proof.
  induction k as [|k IH]; intros time s ds Hs Hc.
  { exists s, ds. split_and!; [done|done|lia|]. intros tid th _ _ (i & ? & _). lia. }
  destruct (pf_step_good s ds (σ time) Hs) as (s1 & ds1 & E & H1 & Ho & Hw & Hd).
  rewrite (Hc time) in Hw, Hd by lia. specialize (Hd eq_refl).
  destruct (IH (S time) s1 ds1 H1) as (s2 & ds2 & E2 & H2 & Hw2 & Hd2); [intros; apply Hc; lia|].
  exists s2, ds2. cbn. rewrite E. cbn. split_and!; [done|done|lia|].
  intros tid th Hth Hf (i & Hi & Hpick). destruct (decide (tid = pk_thread (σ time))) as [->|Hne].
  - assert (pf_weight s1 < pf_weight s)%nat; [|lia]. apply Hd. eauto.
  - destruct i as [|i]; [rewrite Nat.add_0_r in Hpick; by rewrite Hpick in Hne|].
    assert (pf_weight s2 < pf_weight s1)%nat; [|lia]. apply (Hd2 tid th); [by rewrite Ho|done|].
    exists i. split; [lia|]. rewrite <- Hpick. f_equal. lia.
Qed.

Lemma fair_window σ time m :
  fair n σ → (m ≤ n)%nat →
  ∃ W, ∀ tid, (tid < m)%nat → ∃ i, (i < W)%nat ∧ σ (time + i)%nat = mkPick tid false.
Proof.
  intros Hfair. induction m as [|m IH]; intros Hm; [exists 0%nat; lia|].
  destruct IH as [W HW]; [lia|]. destruct (Hfair time m) as [k Hk]; [lia|].
  exists (W + S k)%nat. intros tid Ht. destruct (decide (tid = m)) as [->|].
  - exists k. split; [lia|done].
  - destruct (HW tid) as (i & ? & ?); [lia|]. exists i. split; [lia|done].
Qed.

Lemma not_finished (s : ParFor X B) :
  all_finished s = false → ∃ tid th, pf_threads s !! tid = Some th ∧ is_finished th = false.
Proof.
  unfold all_finished. induction (pf_threads s) as [|th l IH]; cbn; [done|].
  destruct (is_finished th) eqn:E; cbn; [|by exists 0%nat, th].
  intros (tid & th' & ? & ?)%IH. by exists (S tid), th'.
Qed.

(** From a calm moment on, the loop ends. *)
Lemma pf_run_calm σ w : ∀ time s ds,
  fair n σ → (∀ i, (time ≤ i)%nat → pk_spurious (σ i) = false) →
  pf_inv s ds → (pf_weight s ≤ w)%nat →
  ∃ F s' ds', pf_inv s' ds' ∧ all_finished s' = true ∧
    ∀ fuel, (F ≤ fuel)%nat → pf_run σ time fuel s = Ok s'.
Proof.
  induction w as [|w IH]; intros time s ds Hfair Hc Hs Hw;
    (destruct (all_finished s) eqn:Hf;
     [exists 0%nat, s, ds; split_and!; [done..|]; intros fuel _; by rewrite pf_run_finished|]).
  all: destruct (not_finished s Hf) as (tid & th & Hth & Hn).
  all: destruct (fair_window σ time n Hfair (Nat.le_refl n)) as [W HW].
  all: destruct (pf_iter_calm σ W time s ds Hs Hc) as (s1 & ds1 & E & H1 & _ & Hd).
  all: pose proof (lookup_lt_Some _ _ _ Hth) as Hlt; rewrite (pi_threads _ _ Hs) in Hlt.
  all: specialize (Hd tid th Hth Hn (HW tid Hlt)).
  { lia. }
  destruct (IH (time + W)%nat s1 ds1) as (F & s2 & ds2 & H2 & Hf2 & Hr); [done|intros; apply Hc; lia|done|lia|].
  exists (W + F)%nat, s2, ds2. split_and!; [done..|]. intros fuel Hfuel.
  replace fuel with (W + (fuel - W))%nat by lia. rewrite (pf_run_iter _ _ _ _ _ _ E). apply Hr. lia.
Qed.

Lemma pf_start x :
  let s := mkParFor (B := B) 0 (replicate n Claim) x in
  Inv x [] [] → pf_inv s [] ∧ pf_weight s = (pot x [] + (cost + 1) * length items + n)%nat.
Proof.
  intros s Hx. assert (busy s = []) as Hb.
  { unfold busy. cbn. clear. induction n as [|k IH]; [done|exact IH]. }
  split.
  - split; [cbn; apply length_replicate|by rewrite Hb|by rewrite Hb|].
    intros [i Hi]%list_elem_of_lookup. by apply lookup_replicate in Hi as [? _].
  - unfold pf_weight. rewrite Hb. cbn [s pf_shared pf_next pf_threads]. rewrite Nat.sub_0_r. f_equal.
    clear. induction n as [|k IH]; [done|]. cbn [replicate sum_list_with]. by rewrite IH.
Qed.
(** When every thread has finished, every item is done. *)
Lemma pf_end s ds :
  (0 < n)%nat → pf_inv s ds → all_finished s = true → Inv (pf_shared s) [] items.
Proof.
  intros Hn [I1 I2 I3 I4] Hf. unfold all_finished in Hf. rewrite forallb_forall in Hf.
  assert (busy s = []) as Hb.
  { unfold busy. clear - Hf. induction (pf_threads s) as [|th l IH]; [done|]. cbn.
    rewrite IH by (intros ? ?; apply Hf; by right). specialize (Hf th (or_introl eq_refl)). by destruct th. }
  rewrite Hb in I2, I3. cbn in I3. eapply (pl_perm Hlaws); [reflexivity| |exact I2].
  rewrite I3, take_ge; [done|]. apply I4.
  destruct (lookup_lt_is_Some_2 (pf_threads s) 0) as [th Hth]; [lia|].
  pose proof (list_elem_of_lookup_2 _ _ _ Hth) as Hin.
  specialize (Hf th (proj1 (list_elem_of_In _ _) Hin)). by destruct th.
Qed.

(** The loop ends under every fair schedule, with all items done. *)
Lemma parallel_for_spec σ x :
  (0 < n)%nat → fair n σ → calm σ → Inv x [] [] →
  ∃ F x', Inv x' [] items ∧ ∀ fuel, (F ≤ fuel)%nat → parallel_for σ fuel n x = Ok x'.
Proof.
  intros Hn Hfair [m Hm] Hx. destruct (pf_start x Hx) as [H0 _].
  set (s0 := mkParFor (B := B) 0 (replicate n Claim) x) in *.
  destruct (pf_iter_inv σ m 0 s0 [] H0) as (s1 & ds1 & E & H1 & _).
  destruct (pf_run_calm σ (pf_weight s1) m s1 ds1) as (F & s2 & ds2 & H2 & Hf & Hr); [done..|].
  exists (m + F)%nat, (pf_shared s2). split; [by eapply pf_end|].
  intros fuel Hfuel. unfold parallel_for. replace fuel with (m + (fuel - m))%nat by lia.
  fold s0. rewrite (pf_run_iter σ m 0 (fuel - m) s0 s1 E). cbn. by rewrite Hr by lia.
Qed.
End parallel_for.
