(* ===== verification/PoolLoop.v ===== *)
(** * Shared loops run by the thread pool

    The parallel operators submit [n] loop tasks to a [ThreadPool], call
    [WaitAll] and destroy the pool.  [ThreadPool] takes a task as one step and
    [ParallelFor] takes a schedule as given; here the two run together: a worker
    that has popped task [t] makes the atomic steps of loop [t], and gets to the
    end of the task only when the loop has ended.  The combined system simulates
    both: every run is a run of the pool and a schedule of the loops. *)
From stdpp Require Import base list list_numbers.
From Stdlib Require Import ZArith Lia.
From S2P Require Import Prelude ThreadPool ParallelFor.

Inductive PoolAction :=
  | PPool (a : Action)                          (* a step of the pool *)
  | PBody (worker : nat) (spurious : bool).     (* a step of the loop [worker] runs *)

Definition pool_spurious (a : PoolAction) : bool :=
  match a with PPool a => ThreadPool.spurious a | PBody _ sp => sp end.
Definition pool_spurious_steps (acts : list PoolAction) : nat :=
  sum_list_with (λ a, if pool_spurious a then 1 else 0)%nat acts.

(** [for (tid = 0; tid < n; ++tid) pool.Submit(...); pool.WaitAll();], and the
    end of the block that declares the pool. *)
Definition pool_program (n : nat) : list Call := (CSubmit <$> seq 0 n) ++ [CWaitAll; CDestroy].

Section pool_loop.
Context {X B T : Type} (items : list T) (enter : T → B).
Context (body : bool → nat → B → X → outcome (X * option B)).
Local Abbreviation State := (ThreadPool * ParFor X B)%type.
Local Abbreviation pf_step := (pf_step items enter body).

(** The task a worker ends has left its loop. *)
Definition returned (a : Action) (st : State) : bool :=
  match a with
  | ATask i =>
      match workers_ st.1 !! i with
      | Some (WRun t) => match pf_threads st.2 !! t with Some th => is_finished th | None => false end
      | _ => true
      end
  | _ => true
  end.
Definition pool_step (a : PoolAction) (st : State) : option (outcome State) :=
  match a with
  | PPool a => if returned a st then o ← step a st.1; Some (p <-! o ;; Ok (p, st.2)) else None
  | PBody i sp =>
      match workers_ st.1 !! i with
      | Some (WRun t) =>
          match pf_threads st.2 !! t with
          | Some Finished | None => None
          | Some _ => Some (s <-! pf_step (mkPick t sp) st.2 ;; Ok (st.1, s))
          end
      | _ => None
      end
  end.
(** A fault ends the program. *)
Fixpoint pool_run (acts : list PoolAction) (st : State) : option (outcome State) :=
  match acts with
  | [] => Some (Ok st)
  | a :: acts =>
      match pool_step a st with
      | Some (Ok st) => pool_run acts st
      | r => r
      end
  end.
Definition pool_start (workers n : nat) (x : X) : State :=
  (ThreadPool_ctor workers (pool_program n), mkParFor 0 (replicate n Claim) x).

(** ** The simulation *)

(** The loops under a finite list of picks. *)
Fixpoint pf_picks (picks : list Pick) (s : ParFor X B) : outcome (ParFor X B) :=
  match picks with
  | [] => Ok s
  | pk :: picks => s <-! pf_step pk s ;; pf_picks picks s
  end.

(** A run of the combined system is a run of the pool and picks of the loops; a
    fault is one of the pool or one of the loops. *)
Lemma pool_run_simulates acts st r :
  pool_run acts st = Some r →
  ∃ picks pool,
    match r with
    | Ok st' => pf_picks picks st.2 = Ok st'.2 ∧ run pool st.1 = Some (Ok st'.1)
    | Fault f => pf_picks picks st.2 = Fault f ∨ run pool st.1 = Some (Fault f)
    end.
Proof.
  revert st. induction acts as [|a acts IH]; intros [p s]; cbn [pool_run].
  { intros [= <-]. by exists [], []. }
  destruct a as [a|i sp]; cbn [pool_step fst snd].
  - destruct (returned _ _); [|done]. destruct (step a p) as [[p'|f]|] eqn:Hs; [|intros [= <-]|done]; cbn.
    + intros (picks & pool & Hr)%IH. exists picks, (a :: pool). cbn in *. by rewrite Hs.
    + exists [], [a]. right. cbn. by rewrite Hs.
  - destruct (workers_ p !! i) as [[]|]; try done.
    destruct (pf_threads s !! task) as [th|] eqn:Hth; [|done].
    assert (match s' <-! pf_step (mkPick task sp) s ;; Ok (p, s') with
            | Ok st => pool_run acts st
            | Fault f => Some (Fault f)
            end = Some r →
      ∃ picks pool,
        match r with
        | Ok st' => pf_picks picks s = Ok st'.2 ∧ run pool p = Some (Ok st'.1)
        | Fault f => pf_picks picks s = Fault f ∨ run pool p = Some (Fault f)
        end) as Hgo; [|by destruct th].
    destruct (pf_step _ s) as [s'|f] eqn:Hs; cbn.
    + intros (picks & pool & Hr)%IH. exists (mkPick task sp :: picks), pool. cbn. by rewrite Hs.
    + intros [= <-]. exists [mkPick task sp], []. left. cbn. by rewrite Hs.
Qed.

(** Picks as a schedule: the picks, then round robin. *)
Definition then_round_robin (picks : list Pick) (n : nat) : Schedule :=
  λ time, default (mkPick (time mod n) false) (picks !! time).
Lemma then_round_robin_fair picks n : fair n (then_round_robin picks n).
Proof.
  intros time tid Ht. set (m := (time + length picks)%nat).
  exists (length picks + ((n - m mod n) + tid))%nat. unfold then_round_robin.
  rewrite lookup_ge_None_2 by lia. cbn. f_equal.
  pose proof (Nat.div_mod_eq m n) as Hd. pose proof (Nat.mod_upper_bound m n ltac:(lia)).
  replace (time + (length picks + (n - m mod n + tid)))%nat with (tid + (m / n + 1) * n)%nat by (unfold m in *; nia).
  rewrite Nat.Div0.mod_add. by apply Nat.mod_small.
Qed.
Lemma then_round_robin_calm picks n : calm (then_round_robin picks n).
Proof. exists (length picks). intros time Ht. unfold then_round_robin. by rewrite lookup_ge_None_2. Qed.

Lemma pf_picks_iter σ picks : ∀ time s,
  (∀ i pk, picks !! i = Some pk → σ (time + i)%nat = pk) →
  pf_iter items enter body σ time (length picks) s = pf_picks picks s.
Proof.
  induction picks as [|pk picks IH]; intros time s Hσ; [done|]. cbn.
  pose proof (Hσ 0%nat pk eq_refl) as Hpk. rewrite Nat.add_0_r in Hpk. rewrite Hpk.
  destruct (pf_step pk s) as [s'|f]; [|done]. cbn. apply IH. intros i pk' Hi.
  rewrite <- (Hσ (S i) pk' Hi). f_equal. lia.
Qed.
Lemma pf_iter_finished σ k : ∀ time s, all_finished s = true → pf_iter items enter body σ time k s = Ok s.
Proof. induction k as [|k IH]; intros time s Hf; [done|]. cbn. rewrite pf_step_finished by done. by apply IH. Qed.
Lemma pf_run_fault σ k f : ∀ time fuel s,
  pf_iter items enter body σ time k s = Fault f → pf_run items enter body σ time (k + fuel) s = Fault f.
Proof.
  induction k as [|k IH]; intros time fuel s Hi; [done|].
  destruct (all_finished s) eqn:Hf; [by rewrite pf_iter_finished in Hi|]. cbn in Hi |- *. rewrite Hf.
  destruct (pf_step (σ time) s) as [s'|]; [|exact Hi]. cbn in *. by apply IH.
Qed.
(** A finite run of the loops, to their end or to a fault, is [parallel_for] under
    a fair and calm schedule. *)
Lemma pf_picks_parallel_for picks n x r :
  pf_picks picks (mkParFor 0 (replicate n Claim) x) = r →
  match r with Ok s => all_finished s = true | Fault _ => True end →
  ∃ σ, fair n σ ∧ calm σ ∧ ∀ fuel, (length picks ≤ fuel)%nat →
    parallel_for items enter body σ fuel n x = (s <-! r ;; Ok (pf_shared s)).
Proof.
  intros Hp Hr. exists (then_round_robin picks n).
  split; [apply then_round_robin_fair|split; [apply then_round_robin_calm|]]. intros fuel Hfuel.
  rewrite <- (pf_picks_iter (then_round_robin picks n) picks 0) in Hp
    by (intros i pk Hi; unfold then_round_robin; cbn; by rewrite Hi).
  unfold parallel_for. replace fuel with (length picks + (fuel - length picks))%nat by lia.
  destruct r as [s|f].
  - by rewrite (pf_run_iter _ _ _ _ _ _ _ _ _ Hp), pf_run_finished.
  - by rewrite (pf_run_fault _ _ _ _ _ _ Hp).
Qed.

(** ** A task that has run has left its loop *)
Record linked (n : nat) (st : State) : Prop := {
  lk_threads : length (pf_threads st.2) = n;
  lk_finished t : t ∈ finished st.1 → pf_threads st.2 !! t = Some Finished
}.
Lemma linked_start k n x : linked n (pool_start k n x).
Proof. split; [apply length_replicate|]. cbn. by intros t ?%elem_of_nil. Qed.

Lemma step_finished a p p' :
  step a p = Some (Ok p') →
  finished p' = finished p ∨
  ∃ i t, a = ATask i ∧ workers_ p !! i = Some (WRun t) ∧ finished p' = finished p ++ [t].
Proof.
  assert (∀ x (k : Z → ThreadPool), (n <-! x ;; Ok (k n)) = Ok p' →
    (∀ n, finished (k n) = finished p) → finished p' = finished p) as Hobind.
  { intros x k (n' & _ & [= <-])%obind_Ok_inv Hk. apply Hk. }
  destruct a as [i|i|i|i| |i| | |]; cbn; repeat case_match; intros [= E];
    try (left; eapply Hobind; [exact E|done]); subst p'; try (by left); try (right; eauto; fail).
  left. unfold worker_wait. by case_match.
Qed.
Lemma pf_step_threads pk s s' :
  pf_step pk s = Ok s' →
  length (pf_threads s') = length (pf_threads s) ∧
  ∀ t, pf_threads s !! t = Some Finished → pf_threads s' !! t = Some Finished.
Proof.
  unfold ParallelFor.pf_step. destruct (pf_threads s !! pk_thread pk) as [[|b|]|] eqn:Hth.
  3,4: by intros [= <-].
  2: intros (r & _ & [= <-])%obind_Ok_inv.
  1: intros [= <-].
  all: cbn; rewrite length_insert; split; [done|]; intros t Ht;
    rewrite list_lookup_insert_ne; [done|]; intros E; rewrite E, Ht in Hth; done.
Qed.
Lemma pool_step_linked n a st st' : pool_step a st = Some (Ok st') → linked n st → linked n st'.
Proof.
  destruct st as [p s], a as [a|i sp]; cbn [pool_step fst snd].
  - destruct (returned a (p, s)) eqn:Hret; [|done].
    destruct (step a p) as [[p'|f]|] eqn:Hs; [|done..]. intros [= <-] [H1 H2]. split; [done|]. cbn in *.
    intros t Ht. destruct (step_finished _ _ _ Hs) as [E|(i & t' & -> & Hw & E)]; rewrite E in Ht; [by apply H2|].
    apply elem_of_app in Ht as [Ht|Ht%list_elem_of_singleton]; [by apply H2|subst t'].
    cbn in Hret. rewrite Hw in Hret. destruct (pf_threads s !! t) as [[]|]; done.
  - destruct (workers_ p !! i) as [[]|]; try done.
    assert (∀ o, Some (s' <-! pf_step (mkPick task sp) s ;; Ok (p, s')) = Some (Ok o) → linked n (p, s) → linked n o)
      as Hgo; [|destruct (pf_threads s !! task) as [[]|]; (done || apply Hgo)].
    intros o [= Hs] [H1 H2]. apply obind_Ok_inv in Hs as (s' & [Hlen Hfin]%pf_step_threads & [= <-]).
    split; cbn in *; [congruence|auto].
Qed.
Lemma pool_run_linked n acts st st' : pool_run acts st = Some (Ok st') → linked n st → linked n st'.
Proof.
  revert st. induction acts as [|a acts IH]; intros st; cbn [pool_run]; [by intros [= <-]|].
  destruct (pool_step a st) as [[st1|f]|] eqn:Hs; try done. intros Hr Hl. by eapply IH, pool_step_linked.
Qed.

Lemma pool_program_ends n : ends (pool_program n).
Proof. unfold pool_program. induction (seq 0 n) as [|t l IH]; [done|exact IH]. Qed.
Lemma pool_program_submits n : submits (pool_program n) = seq 0 n.
Proof.
  unfold pool_program. induction (seq 0 n) as [|t l IH]; [done|]. cbn [fmap list_fmap app submits]. by rewrite IH.
Qed.

(** When every task has run, every loop has ended. *)
Lemma linked_all_finished n st : linked n st → seq 0 n ≡ₚ finished st.1 → all_finished st.2 = true.
Proof.
  intros [H1 H2] Hp. apply forallb_forall. intros th Hth%list_elem_of_In.
  apply list_elem_of_lookup in Hth as [t Ht]. pose proof (lookup_lt_Some _ _ _ Ht) as Hlt.
  rewrite (H2 t) in Ht; [by injection Ht as <-|]. rewrite <- Hp. apply elem_of_seq. lia.
Qed.

(** [WaitAll] has been called and returns. *)
Definition waited (p : ThreadPool) : Prop :=
  owner p = OCalls [CWaitAll; CDestroy] ∧ owner (WaitAll [CDestroy] p) = OCalls [CDestroy].

Lemma pool_start_inv k n : pool_inv (seq 0 n) (ThreadPool_ctor k (pool_program n)).
Proof. rewrite <- pool_program_submits. apply pool_inv_ctor, pool_program_ends. Qed.
(** The pool's part of a run, and the loops ended when [WaitAll] returns. *)
Lemma pool_run_pool k n x acts p s :
  pool_run acts (pool_start k n x) = Some (Ok (p, s)) →
  pool_inv (seq 0 n) p ∧ length (workers_ p) = k ∧ linked n (p, s) ∧
  (waited p → all_finished s = true).
Proof.
  intros Hr. pose proof (pool_run_linked n _ _ _ Hr (linked_start k n x)) as Hl.
  destruct (pool_run_simulates _ _ _ Hr) as (picks & pool & _ & Hrun). cbn in Hrun.
  pose proof (run_inv (seq 0 n) pool _ _ (pool_start_inv k n) Hrun : pool_inv (seq 0 n) p) as Hp.
  split_and!; [done| |done|].
  - apply run_workers in Hrun. rewrite Hrun. apply length_replicate.
  - intros [Ho Hret]. apply (linked_all_finished n (p, s)); [done|].
    rewrite (WaitAll_finished _ _ _ Hp Ho Hret). cbn. by rewrite app_nil_r.
Qed.

(** C18. The thread pool runs shared loops as [parallel_for] says: however the
    workers, the owner and the atomic steps of the loops interleave, when
    [WaitAll] returns the shared data is the result of [parallel_for] under some
    fair and calm schedule, and if a loop faults [parallel_for] has that fault
    under some fair and calm schedule.  What holds for all schedules, as the
    theorems on the parallel operators do, holds for every execution on the
    pool.  (The pool itself faults only when its [int] counter of tasks
    overflows: with fewer than [2^31] loops every fault is one of a loop.) *)
Theorem pool_runs_parallel_for k n x acts r :
  pool_run acts (pool_start k n x) = Some r →
  match r with Ok (p, _) => waited p | Fault _ => Z.of_nat n < 2 ^ 31 end →
  ∃ σ N, fair n σ ∧ calm σ ∧ ∀ fuel, (N ≤ fuel)%nat →
    parallel_for items enter body σ fuel n x = (st <-! r ;; Ok (pf_shared st.2)).
Proof.
  intros Hr Hw. destruct (pool_run_simulates _ _ _ Hr) as (picks & pool & Hp). cbn in Hp.
  assert (pf_picks picks (mkParFor 0 (replicate n Claim) x) = (st <-! r ;; Ok st.2)) as Hpicks.
  { destruct r as [st|f]; [apply Hp|]. destruct Hp as [Hp|Hp]; [exact Hp|].
    destruct (run_inv (seq 0 n) pool _ _ (pool_start_inv k n) Hp) as [_ Hmax]. rewrite length_seq in Hmax. lia. }
  destruct (pf_picks_parallel_for picks n x _ Hpicks) as (σ & Hf & Hc & Hrun).
  - destruct r as [[p s]|f]; [|done]. by apply (pool_run_pool _ _ _ _ _ _ Hr).
  - exists σ, (length picks). split_and!; [done..|]. intros fuel Hfuel. rewrite Hrun by done. by destruct r.
Qed.

(** ** Loops that keep an invariant end *)
Context (n : nat) (item_of : B → T) (Inv : X → list B → list T → Prop).
Context (pot : X → list B → nat) (cost retry : nat).
Hypothesis Hlaws : par_laws items enter body n item_of Inv pot cost retry.
Local Abbreviation pf_inv := (pf_inv items n item_of Inv).
Local Abbreviation pf_weight := (pf_weight items pot cost).

Hypothesis Hn32 : Z.of_nat n < 2 ^ 31.

(** A step of a loop that has not ended succeeds and brings the end nearer; a weak
    compare-exchange that fails spuriously takes back at most [retry] steps. *)
Lemma body_step p s ds i t sp :
  pf_inv s ds → workers_ p !! i = Some (WRun t) → (t < n)%nat → pf_threads s !! t ≠ Some Finished →
  ∃ s' ds', pool_step (PBody i sp) (p, s) = Some (Ok (p, s')) ∧ pf_inv s' ds' ∧
    (pf_weight s' < pf_weight s + if sp then retry + 1 else 0)%nat.
Proof.
  intros Hs Hw Ht Hne. cbn. rewrite Hw.
  destruct (lookup_lt_is_Some_2 (pf_threads s) t) as [th Hth]; [by rewrite (pi_threads _ _ _ _ _ _ Hs)|].
  destruct (pf_step_good _ _ _ _ _ _ _ _ _ Hlaws s ds (mkPick t sp) Hs) as (s' & ds' & E & Hi & _ & Hle & Hd).
  exists s', ds'. rewrite Hth, E. cbn in Hd, Hle. split_and!; [by destruct th|done|].
  destruct sp; [lia|]. rewrite Nat.add_0_r. apply Hd; [done|]. exists th. split; [done|]. by destruct th.
Qed.

Lemma running_task p i t : pool_inv (seq 0 n) p → workers_ p !! i = Some (WRun t) → (t < n)%nat.
Proof.
  intros Hp Hw. assert (t ∈ seq 0 n) as Hin%elem_of_seq; [|lia].
  rewrite (pi_tasks _ _ Hp), !elem_of_app. right; right; left.
  unfold in_hand. apply list_elem_of_In, in_concat. exists [t]. split; [|by left].
  apply list_elem_of_In, list_elem_of_fmap. exists (WRun t). split; [done|]. by eapply list_elem_of_lookup_2.
Qed.

(** Every run keeps the invariants and never faults. *)
Lemma pool_run_inv acts : ∀ p s ds r,
  pool_inv (seq 0 n) p → pf_inv s ds → pool_run acts (p, s) = Some r →
  ∃ p' s' ds', r = Ok (p', s') ∧ pf_inv s' ds' ∧
    (weight p' + pf_weight s' + length acts
     ≤ weight p + pf_weight s + (retry + 2) * pool_spurious_steps acts)%nat.
Proof.
  unfold pool_spurious_steps. induction acts as [|a acts IH]; intros p s ds r Hp Hs; cbn [pool_run].
  { intros [= <-]. exists p, s, ds. split_and!; [done|done|]. cbn. lia. }
  destruct a as [a|i sp].
  - cbn [pool_step fst snd]. destruct (returned _ _); [|done]. destruct (step a p) as [o|] eqn:E; [|done]. cbn.
    pose proof (step_inv _ _ _ _ Hp E) as Hp1. destruct o as [p1|f].
    2: { destruct Hp1 as [_ Hmax]. rewrite length_seq in Hmax. lia. }
    intros Hr. destruct (IH p1 s ds r Hp1 Hs Hr) as (p' & s' & ds' & -> & Hs' & Hw).
    exists p', s', ds'. split_and!; [done|done|].
    pose proof (step_weight _ _ _ E). destruct (spurious a); cbn in *; lia.
  - destruct (workers_ p !! i) as [w|] eqn:Hw; [|by cbn; rewrite Hw].
    destruct w as [| |t| |]; try (by cbn; rewrite Hw).
    destruct (decide (is_finished <$> pf_threads s !! t = Some true)) as [Hf|Hf].
    { cbn. rewrite Hw. by destruct (pf_threads s !! t) as [[]|]. }
    destruct (body_step p s ds i t sp Hs Hw) as (s1 & ds1 & E & Hs1 & Hd);
      [by eapply running_task|by intros Hfin; rewrite Hfin in Hf|].
    rewrite E. intros Hr. destruct (IH p s1 ds1 r Hp Hs1 Hr) as (p' & s' & ds' & -> & Hs' & Hwt).
    exists p', s', ds'. split_and!; [done|done|]. cbn [length sum_list_with pool_spurious]. destruct sp; lia.
Qed.

(** Some thread can go on until the owner has joined the workers. *)
Lemma pool_progress p s ds :
  pool_inv (seq 0 n) p → pf_inv s ds → workers_ p ≠ [] → owner p ≠ OEnd →
  ∃ a st, pool_spurious a = false ∧ pool_step a (p, s) = Some (Ok st).
Proof.
  intros Hp Hs Hne Ho. 
  destruct (progress_ok _ _ Hp ltac:(by rewrite length_seq) Hne Ho) as (a & p' & Ha & Hstep).
  destruct (returned a (p, s)) eqn:Hret.
  { exists (PPool a), (p', s). split; [done|]. cbn [pool_step]. rewrite Hret. cbn. by rewrite Hstep. }
  destruct a as [|i| | | | | | |]; try done. cbn in Hret.
  destruct (workers_ p !! i) as [[| |t| |]|] eqn:Hw; try done.
  destruct (body_step p s ds i t false Hs Hw) as (s1 & ds1 & E & _).
  - by eapply running_task.
  - intros Hf. by rewrite Hf in Hret.
  - by exists (PBody i false), (p, s1).
Qed.

(** C19. Loops on the pool complete: for fewer than [2^31] loops whose body keeps
    an invariant and makes progress ([par_laws]), on a pool with at least one
    worker, no run faults; the number of steps is bounded, with [retry + 2] more
    for each spurious wake-up or failure of a weak compare-exchange; some thread
    can make a step until the destructor of the pool has returned; and when
    [WaitAll] returns every item is done. *)
Theorem pool_loop_completes k x acts r :
  (0 < k)%nat → (0 < n)%nat → Inv x [] [] → pool_run acts (pool_start k n x) = Some r →
  ∃ p s, r = Ok (p, s) ∧
    (length acts ≤ 2 * k + calls_weight k (pool_program n) + pot x [] + (cost + 1) * length items + n
                   + (retry + 2) * pool_spurious_steps acts)%nat ∧
    (owner p ≠ OEnd → ∃ a st, pool_spurious a = false ∧ pool_step a (p, s) = Some (Ok st)) ∧
    (waited p ∨ owner p = OEnd → Inv (pf_shared s) [] items).
Proof.
  intros Hk Hn Hx Hr. destruct (pf_start items n item_of Inv pot cost x Hx) as [H0 Hw0].
  destruct (pool_run_inv acts _ _ _ _ (pool_start_inv k n) H0 Hr) as (p & s & ds & -> & Hs & Hw).
  destruct (pool_run_pool _ _ _ _ _ _ Hr) as (Hp & Hlen & Hl & Hwait).
  assert (workers_ p ≠ []) as Hne by (intros E; rewrite E in Hlen; cbn in Hlen; lia).
  exists p, s. split_and!; [done| |by eapply pool_progress|].
  - rewrite Hw0, ThreadPool_weight in Hw. lia.
  - intros Hend. eapply (pf_end _ _ _ _ _ _ _ _ _ Hlaws); [done|exact Hs|].
    destruct Hend as [?|Hend]; [by apply Hwait|]. apply (linked_all_finished n (p, s)); [done|].
    by apply (finished_all _ _ Hp Hne).
Qed.
End pool_loop.

(** ** Summing on two workers *)
Definition add_body (sp : bool) (tid item total : nat) : outcome (nat * option nat) :=
  Ok ((total + item)%nat, None).
Definition sum_run : list PoolAction :=
  [PPool (AWait 0); PPool ACall; PPool (ANotify 0); PPool (AWait 0); PBody 0 false;
   PPool ACall; PPool (ANotify 1); PPool (AWait 1); PBody 1 false; PBody 1 false; PBody 0 false;
   PBody 0 false; PBody 0 false; PBody 0 false; PBody 1 false;
   PPool (ATask 0); PPool (ATask 1); PPool (AFinish 0); PPool (AFinish 1)]%nat.
Lemma sum_laws : par_laws [1; 2; 3]%nat id add_body 2 id
  (λ total _ done, total = sum_list_with id done) (λ _ bs, length bs) 1 0.
Proof.
  split.
  - done.
  - intros x bs bs' ds ds' _ Hd ->. induction Hd; cbn; lia.
  - done.
  - intros sp tid b bs ds x -> _ _. eexists _, None. split; [reflexivity|]. cbn. lia.
  - intros x bs bs' Hb. by rewrite Hb.
  - cbn. lia.
Qed.

Lemma pool_runs_parallel_for_witness :
  ∃ σ N, fair 2 σ ∧ calm σ ∧ ∀ fuel, (N ≤ fuel)%nat →
    parallel_for [1; 2; 3]%nat id add_body σ fuel 2 0%nat = Ok 6%nat.
Proof.
  destruct (pool_run [1; 2; 3]%nat id add_body sum_run (pool_start 2 2 0%nat)) as [[[p s]|f]|] eqn:E;
    [|vm_compute in E; discriminate..].
  destruct (pool_runs_parallel_for [1; 2; 3]%nat id add_body 2 2 0%nat sum_run (Ok (p, s)))
    as (σ & N & Hf & Hc & H).
  - exact E.
  - vm_compute in E. injection E as <- <-. split; reflexivity.
  - exists σ, N. split; [exact Hf|]. split; [exact Hc|]. intros fuel Hfuel. rewrite (H fuel Hfuel).
    vm_compute in E. injection E as <- <-. reflexivity.
Defined.

Lemma pool_loop_completes_witness :
  ∃ p s, pool_run [1; 2; 3]%nat id add_body sum_run (pool_start 2 2 0%nat) = Some (Ok (p, s)) ∧
    pf_shared s = 6%nat ∧ ∃ a st, pool_step [1; 2; 3]%nat id add_body a (p, s) = Some (Ok st).
Proof.
  destruct (pool_run [1; 2; 3]%nat id add_body sum_run (pool_start 2 2 0%nat)) as [r|] eqn:E;
    [|vm_compute in E; discriminate].
  destruct (pool_loop_completes [1; 2; 3]%nat id add_body 2 id _ _ _ _ sum_laws eq_refl 2 0%nat sum_run r)
    as (p & s & Hr & _ & Hgo & Hend).
  - lia.
  - lia.
  - reflexivity.
  - exact E.
  - exists p, s. rewrite Hr in E |- *. vm_compute in E. injection E as Hp Hs. split; [reflexivity|]. split.
    + apply Hend. left. rewrite <- Hp. split; reflexivity.
    + destruct Hgo as (a & st & _ & Ha); [rewrite <- Hp; discriminate|]. exists a, st. exact Ha.
Defined.
