(* ===== verification/ParallelSeqScan.v ===== *)
(** * Parallel scan: [src/src/executor/parallel_seq_scan.h], [.cpp]

    Each task claims pages and runs [HeapFile::ScanPage] on them.  A call of the
    buffer pool holds the pool's latch and is one step; reading the pinned page
    and pushing its rows to [local[tid]] is one step, since nobody writes the
    page and no other task uses [local[tid]]. *)
From stdpp Require Import base gmap list list_numbers strings.
From Stdlib Require Import ZArith Lia Ascii.
From S2P Require Import Prelude Types PageCache HeapFile HeapFileSpec Catalog Executor ExecutorSpec ParallelFor.

(** An exception that leaves a task leaves its thread: [std::terminate]. *)
Definition in_thread (f : fault) : fault := match f with Throw _ => Terminate | f => f end.
Definition thread_run {S A} (m : M S A) (s : S) : outcome (S * A) :=
  match m s with
  | (s', Ok a) => Ok (s', a)
  | (_, Fault f) => Fault (in_thread f)
  end.
Definition thread_eval {A} (o : outcome A) : outcome A :=
  match o with Ok a => Ok a | Fault f => Fault (in_thread f) end.

Record ParallelSeqScan := mkParallelSeqScan {
  ps_table_info : TableInfo;
  ps_output_schema : Schema;
  ps_n_threads : nat;
  ps_buffer : list Tuple;
  ps_cursor : nat
}.
(** The file's own [MakeOutputSchema]. *)
Definition alias_schema (base : Schema) (alias : string) : Schema :=
  if bool_decide (alias = ""%string) then base
  else Schema_ctor ((λ c, mkColumn (alias +:+ "." +:+ col_name c) (col_type c)) <$> columns_ base).
Definition ParallelSeqScan_ctor (info : TableInfo) (alias : string) (n_threads : nat)
    : ParallelSeqScan :=
  mkParallelSeqScan info (alias_schema (ti_schema info) alias) n_threads [] 0.
Definition set_ps (buffer : list Tuple) (cursor : nat) (o : ParallelSeqScan) : ParallelSeqScan :=
  mkParallelSeqScan (ps_table_info o) (ps_output_schema o) (ps_n_threads o) buffer cursor.

(** Where a task is in [ScanPage(page_ids[idx], ...)]. *)
Inductive ScanBody :=
  | SFetch (page_id : Z)
  | SRead (page_id fid : Z)
  | SUnpin (page_id : Z).

Section parallel_seq_scan.
Context {S : Type} {PC : PageCache S} (σ : Schedule).

Definition scan_body (hf : HeapFile) (spurious : bool) (tid : nat) (b : ScanBody)
    (x : S * list (list Tuple)) : outcome ((S * list (list Tuple)) * option ScanBody) :=
  match b with
  | SFetch p =>
      r <-! thread_run (pc_fetch p) x.1 ;;
      Ok ((r.1, x.2), match r.2 with Some fid => Some (SRead p fid) | None => None end)
  | SRead p fid =>
      r <-! thread_run (data <- pc_read fid ;; n <- defM (NumTuples data) ;; retM (data, n)) x.1 ;;
      mine <-! odef (x.2 !! tid) ;;
      res <-! scan_slots (λ a _ t, (a ++ [t], true)) p r.2.1 (GetTupleSize (schema_ hf)) 0
                (Z.to_nat r.2.2) mine ;;
      Ok ((r.1, <[tid := res.1]> x.2), Some (SUnpin p))
  | SUnpin p =>
      r <-! thread_run (pc_unpin p false) x.1 ;;
      Ok ((r.1, x.2), None)
  end.

Definition ParallelSeqScan_Init (fuel : nat) : M (ParallelSeqScan * S) unit :=
  on_op (modifyM (set_ps [] 0)) ;;
  p <- getM ;;
  let hf := ti_heap_file (ps_table_info p.1) in
  page_ids <- on_store (GetPageIds fuel hf) ;;
  match page_ids with
  | [] => retM tt
  | _ =>
      p <- getM ;;
      let n := (ps_n_threads p.1 `min` length page_ids)%nat in
      r <- liftM (parallel_for page_ids SFetch (scan_body hf) σ fuel n (p.2, replicate n [])) ;;
      putM (set_ps (ps_buffer p.1 ++ concat r.2) (ps_cursor p.1) p.1, r.1)
  end.
Definition ParallelSeqScan_Next (fuel : nat) : M ParallelSeqScan (option Tuple) :=
  o <- getM ;;
  match ps_buffer o !! ps_cursor o with
  | None => retM None
  | Some t => putM (set_ps (ps_buffer o) (Datatypes.S (ps_cursor o)) o) ;; retM (Some t)
  end.
Definition ParallelSeqScan_Close : M ParallelSeqScan unit :=
  modifyM (λ o, set_ps [] (ps_cursor o) o).
Definition ParallelSeqScan_Operator : Operator S ParallelSeqScan := {|
  Init := ParallelSeqScan_Init;
  Next := ParallelSeqScan_Next;
  Close := ParallelSeqScan_Close;
  GetOutputSchema := ps_output_schema
|}.
End parallel_seq_scan.

(** ** Buffered operators

    An operator whose [Next] walks a buffer. *)
Lemma buffer_yields {S C} `{Operator S C} (mk : nat → C) (buf : list Tuple) :
  (∀ cur fuel, Next fuel (mk cur) =
     match buf !! cur with Some t => (mk (Datatypes.S cur), Ok (Some t)) | None => (mk cur, Ok None) end) →
  (∀ cur, GetOutputSchema (mk cur) = GetOutputSchema (mk 0%nat)) →
  ∀ cur, yields 0 (mk cur) (mkStream (drop cur buf) None).
Proof.
  intros Hn Hs cur. remember (length buf - cur)%nat as k eqn:Hk. revert cur Hk.
  induction k as [|k IH]; intros cur Hk.
  - rewrite drop_ge by lia. eapply yields_end; [|reflexivity]. intros fuel _.
    by rewrite Hn, lookup_ge_None_2 by lia.
  - destruct (lookup_lt_is_Some_2 buf cur) as [t Ht]; [lia|]. rewrite (drop_S _ _ _ Ht).
    apply (yields_row 0 _ (mk (Datatypes.S cur)) t (mkStream _ None)); [|by rewrite !Hs|apply IH; lia].
    intros fuel _. by rewrite Hn, Ht.
Qed.

(** [Init] succeeds in every storage state of [I] and [Next] hands out rows with
    property [P]; in particular, the rows [l] in some order. *)
Definition delivers_some {S C} `{Operator S C} (I : S → Prop) (o : C) (P : list Tuple → Prop) : Prop :=
  ∀ s, I s → ∃ N o' s' rows,
    (∀ fuel, (N ≤ fuel)%nat → Init fuel (o, s) = ((o', s'), Ok tt)) ∧ I s' ∧
    GetOutputSchema o' = GetOutputSchema o ∧ yields N o' (mkStream rows None) ∧ P rows.
Definition delivers {S C} `{Operator S C} (I : S → Prop) (o : C) (l : list Tuple) : Prop :=
  delivers_some I o (λ rows, rows ≡ₚ l).
Lemma produces_delivers {S C} `{Operator S C} (I : S → Prop) (o : C) l :
  produces I o (mkStream l None) → delivers I o l.
Proof.
  intros [N Hp] s Hs. destruct (Hp s Hs) as (o' & s' & Hi & Hs' & Hsch & Hy).
  by exists N, o', s', l.
Qed.

(** ** Pins held by several tasks *)
Lemma pin_inc_comm (m : pinmap) p q : pin_inc (pin_inc m p) q = pin_inc (pin_inc m q) p.
Proof.
  destruct (decide (p = q)) as [->|Hne]; [done|]. unfold pin_inc.
  rewrite !pin_of_insert, !pending_insert, !decide_False by done. by apply insert_insert_ne.
Qed.
Fixpoint pins_with (pins : pinmap) (l : list Z) : pinmap :=
  match l with [] => pins | p :: l => pin_inc (pins_with pins l) p end.
Lemma pins_with_perm pins l l' : l ≡ₚ l' → pins_with pins l = pins_with pins l'.
Proof.
  induction 1 as [|p l l' _ IH|p q l|l l' l'' _ IH1 _ IH2]; cbn; [done|by rewrite IH|apply pin_inc_comm|congruence].
Qed.
Lemma pins_with_lookup pins l p : p ∉ l → pins_with pins l !! p = pins !! p.
Proof.
  induction l as [|q l IH]; intros Hp; cbn; [done|]. unfold pin_inc at 1.
  rewrite lookup_insert_ne by set_solver. apply IH. set_solver.
Qed.
Lemma pins_with_size pins l : (size (pins_with pins l) ≤ size pins + length l)%nat.
Proof.
  induction l as [|q l IH]; cbn; [lia|]. unfold pin_inc. rewrite map_size_insert.
  destruct (pins_with pins l !! q); cbn; lia.
Qed.

Section unpin.
Context {S : Type} {PC : PageCache S} {PCS : PageCacheSpec S}.
Lemma unpin_inc (s : S) st m p :
  pc_rep s st (pin_inc m p) → (∀ k w, m !! p = Some (k, w) → (0 < k)%nat) →
  ∃ s', pc_unpin p false s = (s', Ok true) ∧ pc_cap s' = pc_cap s ∧
    (∀ q g, pc_at s q g → pc_at s' q g) ∧ pc_rep s' st m.
Proof.
  intros Hr Hpos. destruct (pc_unpin_spec s st (pin_inc m p) p (Datatypes.S (pin_of m p))
    (pending m p) false Hr) as (s' & Hu & Hc & Ha & Hr').
  - unfold pin_inc. by rewrite lookup_insert_eq.
  - intros [= Hz]. rewrite andb_true_r. unfold pending, pin_of in *.
    destruct (m !! p) as [[k w]|]; [|done]. specialize (Hpos k w eq_refl). cbn in Hz. lia.
  - exists s'. rewrite pin_dec_inc in Hr' by done. done.
Qed.
End unpin.

(** ** The rows of a page *)
Definition rows_at (ps : chain) (p : Z) : list Tuple :=
  concat ((λ x, if decide (x.1 = p) then (page_entries p x.2).*2 else []) <$> ps).
Lemma rows_at_in ps p rows : NoDup ps.*1 → (p, rows) ∈ ps → rows_at ps p = (page_entries p rows).*2.
Proof.
  unfold rows_at. induction ps as [|[q r] ps IH]; [by intros _ ?%elem_of_nil|]. cbn.
  intros [Hq Hnd]%NoDup_cons [[= -> ->]|Hin]%elem_of_cons.
  - rewrite decide_True by done.
    assert (concat ((λ x, if decide (x.1 = q) then (page_entries q x.2).*2 else []) <$> ps) = []) as E;
      [|by rewrite E, app_nil_r].
    clear IH. induction ps as [|[q' r'] ps IH]; [done|]. cbn in *.
    rewrite decide_False by (intros ->; apply Hq; set_solver). apply IH; [set_solver|].
    by apply NoDup_cons in Hnd as [_ ?].
  - rewrite decide_False; [by apply IH|]. intros ->. apply Hq. by apply (list_elem_of_fmap_2 fst _ (p, rows)).
Qed.
Lemma rows_at_all ps qs :
  NoDup ps.*1 → qs ⊆ ps → concat (rows_at ps <$> qs.*1) = (chain_entries qs).*2.
Proof.
  intros Hnd. unfold chain_entries. induction qs as [|[q r] qs IH]; intros Hq; [done|]. cbn.
  rewrite fmap_app. f_equal; [apply rows_at_in; set_solver|apply IH; set_solver].
Qed.

(** ** The invariant of the concurrent scan *)
Definition page_of (b : ScanBody) : Z := match b with SFetch p | SRead p _ | SUnpin p => p end.
Definition holds1 (b : ScanBody) : list Z := match b with SFetch _ => [] | SRead p _ | SUnpin p => [p] end.
Definition held (bs : list ScanBody) : list Z := concat (holds1 <$> bs).
Definition read1 (b : ScanBody) : list Z := match b with SUnpin p => [p] | _ => [] end.
Definition read (bs : list ScanBody) : list Z := concat (read1 <$> bs).
Definition steps_left (b : ScanBody) : nat :=
  match b with SFetch _ => 3 | SRead _ _ => 2 | SUnpin _ => 1 end.

Lemma held_pages bs p : p ∈ held bs → p ∈ page_of <$> bs.
Proof.
  unfold held. induction bs as [|b bs IH]; cbn; [by intros ?%elem_of_nil|].
  rewrite elem_of_app. intros [Hb|Hb]; [|right; auto]. destruct b; cbn in Hb; set_solver.
Qed.
Lemma held_length bs : (length (held bs) ≤ length bs)%nat.
Proof. unfold held. induction bs as [|[] bs IH]; cbn; lia. Qed.
#[local] Instance held_proper : Proper ((≡ₚ) ==> (≡ₚ)) held.
Proof. intros bs bs' H. unfold held. induction H; cbn; [done|by f_equiv|solve_Permutation|by etrans]. Qed.
#[local] Instance read_proper : Proper ((≡ₚ) ==> (≡ₚ)) read.
Proof. intros bs bs' H. unfold read. induction H; cbn; [done|by f_equiv|solve_Permutation|by etrans]. Qed.

Section scan_inv.
Context {S : Type} {PC : PageCache S} {PCS : PageCacheSpec S}.
Context (hf : HeapFile) (st : pages) (pins : pinmap) (cap n : nat) (ps : chain).
Hypotheses (Hlow : pins_low pins) (Hpos : ∀ p k w, pins !! p = Some (k, w) → (0 < k)%nat)
  (Hcap : (size pins + n ≤ cap)%nat) (Hrep : heap_rep hf st ps).

Record scan_inv (x : S * list (list Tuple)) (bs : list ScanBody) (ds : list Z) : Prop := {
  sc_rep : pc_rep x.1 st (pins_with pins (held bs));
  sc_cap : pc_cap x.1 = cap;
  sc_local : length x.2 = n;
  sc_nodup : NoDup (page_of <$> bs);
  sc_pages p : p ∈ page_of <$> bs → p ∈ ps.*1;
  sc_at p fid : SRead p fid ∈ bs → pc_at x.1 p fid;
  sc_rows : concat x.2 ≡ₚ concat (rows_at ps <$> read bs ++ ds)
}.

Lemma concat_rows_perm l l' : l ≡ₚ l' → concat (rows_at ps <$> l) ≡ₚ concat (rows_at ps <$> l').
Proof. intros H. rewrite <- !flat_map_concat_map. by apply Permutation_flat_map. Qed.

Lemma scan_page p : p ∈ ps.*1 → ∃ d next rows, (p, rows) ∈ ps ∧ st !! p = Some d ∧
  page_holds (GetTupleSize (schema_ hf)) d next rows.
Proof.
  pose proof (hr_chain _ _ _ Hrep) as Hc. revert Hc. generalize INVALID_PAGE_ID as e. clear.
  induction ps as [|[q r] l IH]; intros e Hc; cbn; [by intros ?%elem_of_nil|]. destruct Hc as ((d & Hd & Hh) & _ & Hc).
  intros [->|Hp]%elem_of_cons; [exists d; eexists _, r; split; [set_solver|done]|].
  destruct (IH e Hc Hp) as (d' & nx & rw & ? & ? & ?). exists d', nx, rw. split; [set_solver|done].
Qed.

Lemma scan_inv_perm x bs bs' ds ds' :
  bs ≡ₚ bs' → ds ≡ₚ ds' → scan_inv x bs ds → scan_inv x bs' ds'.
Proof.
  intros Hb Hd [H1 H2 H3 H4 H5 H6 H7]. split; try done.
  - by rewrite <- (pins_with_perm pins _ _ (held_proper _ _ Hb)).
  - by rewrite <- Hb.
  - intros p. rewrite <- Hb. apply H5.
  - intros p fid. rewrite <- Hb. apply H6.
  - rewrite H7. apply concat_rows_perm. by rewrite Hb, Hd.
Qed.

Lemma fetch_step x p bs ds sp tid :
  scan_inv x (SFetch p :: bs) ds → (length bs < n)%nat →
  ∃ s' fid, scan_body hf sp tid (SFetch p) x = Ok ((s', x.2), Some (SRead p fid)) ∧
    scan_inv (s', x.2) (SRead p fid :: bs) ds.
Proof.
  intros [H1 H2 H3 H4 H5 H6 H7] Hlen. cbn in H1.
  destruct (scan_page p) as (d & nx & rows & Hin & Hd & Hh); [apply H5; cbn; set_solver|].
  assert (p ∉ held bs) as Hp.
  { intros Hp%held_pages. by apply NoDup_cons in H4 as [? _]. }
  destruct (pc_fetch_spec x.1 st (pins_with pins (held bs)) p H1) as (s' & r & E & Hc & Hk & Hres);
    [eauto|unfold pin_of; rewrite pins_with_lookup by done; apply Hlow|].
  destruct r as [fid|].
  2: { destruct Hres as (_ & _ & Hfull). pose proof (pins_with_size pins (held bs)).
    pose proof (held_length bs). rewrite H2 in Hfull. lia. }
  destruct Hres as [Hr' Hat]. exists s', fid. split.
  { cbn. unfold thread_run. rewrite E. done. }
  split; cbn [fst snd].
  - exact Hr'.
  - congruence.
  - done.
  - done.
  - exact H5.
  - intros q g [[= -> ->]|Hq]%elem_of_cons; [done|]. apply Hk; [|apply H6; set_solver].
    apply list_elem_of_split in Hq as (l1 & l2 & ->).
    unfold held. rewrite fmap_app, concat_app. cbn.
    rewrite (pins_with_perm _ _ (q :: held l1 ++ held l2)) by (unfold held; solve_Permutation).
    apply pin_inc_lookup.
  - exact H7.
Qed.

Lemma read_step x p fid bs ds sp tid :
  scan_inv x (SRead p fid :: bs) ds → (tid < n)%nat →
  ∃ local, scan_body hf sp tid (SRead p fid) x = Ok ((x.1, local), Some (SUnpin p)) ∧
    scan_inv (x.1, local) (SUnpin p :: bs) ds.
Proof.
  intros [H1 H2 H3 H4 H5 H6 H7] Htid.
  destruct (scan_page p) as (d & nx & rows & Hin & Hd & Hh); [apply H5; cbn; set_solver|].
  destruct (pc_read_spec x.1 st _ p fid H1) as (d' & Hd' & Hread);
    [apply pin_inc_lookup|apply H6; set_solver|].
  rewrite Hd in Hd'. injection Hd' as <-.
  destruct (lookup_lt_is_Some_2 x.2 tid) as [mine Hmine]; [by rewrite H3|].
  exists (<[tid := mine ++ (page_entries p rows).*2]> x.2). split.
  { cbn. unfold thread_run, bindM, defM. rewrite Hread, (ph_num _ _ _ _ Hh). cbn. rewrite Hmine. cbn.
    rewrite Nat2Z.id, (scan_slots_spec _ p d _ _ rows 0 rows mine Hh (hr_size _ _ _ Hrep) eq_refl).
    fold (page_entries p rows). cbn. by rewrite scan_collect. }
  split; cbn [fst snd]; try done.
  - by rewrite length_insert.
  - intros q g [[=]|Hq]%elem_of_cons. apply H6. set_solver.
  - pose proof (concat_insert id x.2 tid mine (mine ++ (page_entries p rows).*2) Hmine) as Hp.
    rewrite !list_fmap_id in Hp. cbn in Hp.
    apply (Permutation_app_inv_r mine). rewrite Hp, H7.
    cbn. rewrite (rows_at_in ps p rows) by (apply Hrep || done). solve_Permutation.
Qed.

Lemma unpin_step x p bs ds sp tid :
  scan_inv x (SUnpin p :: bs) ds →
  ∃ s', scan_body hf sp tid (SUnpin p) x = Ok ((s', x.2), None) ∧ scan_inv (s', x.2) bs (p :: ds).
Proof.
  intros [H1 H2 H3 H4 H5 H6 H7]. cbn in H4. apply NoDup_cons in H4 as [Hp H4].
  assert (p ∉ held bs) as Hh by (intros Hh%held_pages; done).
  destruct (unpin_inc x.1 st (pins_with pins (held bs)) p H1) as (s' & E & Hc & Hk & Hr).
  { intros k w. rewrite pins_with_lookup by done. apply Hpos. }
  exists s'. split; [cbn; unfold thread_run; by rewrite E|]. split; cbn [fst snd]; try done.
  - congruence.
  - intros q Hq. apply H5. cbn. set_solver.
  - intros q g Hq. apply Hk, H6. set_solver.
  - rewrite H7. apply concat_rows_perm. cbn. apply Permutation_middle.
Qed.

Lemma scan_laws :
  par_laws ps.*1 SFetch (scan_body hf) n page_of scan_inv (λ _ bs, sum_list_with steps_left bs) 3 0.
Proof.
  split.
  - done.
  - apply scan_inv_perm.
  - intros x bs ds t [H1 H2 H3 H4 H5 H6 H7] Hsub _.
    destruct (submseteq_Permutation _ _ Hsub) as [k Hk]. pose proof (hr_nodup _ _ _ Hrep) as Hnd.
    rewrite Hk in Hnd. apply NoDup_app in Hnd as [Hnd _].
    apply NoDup_cons in Hnd as [Ht _]. split; try done.
    + cbn. apply NoDup_cons. split; [set_solver|done].
    + intros p [->|Hp]%elem_of_cons; [|by apply H5].
      eapply elem_of_submseteq; [|exact Hsub]. set_solver.
    + intros p fid [[=]|Hp]%elem_of_cons. by apply H6.
  - intros sp tid b bs ds x Hx Htid Hlen. destruct b as [p|p fid|p].
    + destruct (fetch_step x p bs ds sp tid Hx Hlen) as (s' & fid & E & H). eexists _, _.
      split; [exact E|]. split; [done|]. cbn. destruct sp; lia.
    + destruct (read_step x p fid bs ds sp tid Hx Htid) as (l & E & H). eexists _, _.
      split; [exact E|]. split; [done|]. cbn. destruct sp; lia.
    + destruct (unpin_step x p bs ds sp tid Hx) as (s' & E & H). eexists _, _.
      split; [exact E|]. split; [done|]. cbn. destruct sp; lia.
  - intros x bs bs' H. by rewrite H.
  - intros x bs t. cbn. lia.
Qed.
End scan_inv.

(** ** Theorems *)
Lemma fair_le n m σ : fair m σ → (n ≤ m)%nat → fair n σ.
Proof. intros Hf Hn time tid Ht. apply Hf. lia. Qed.

Section scan_theorems.
Context {S : Type} {PC : PageCache S} {PCS : PageCacheSpec S} (σ : Schedule).
#[local] Instance scan_operator : Operator S ParallelSeqScan := ParallelSeqScan_Operator σ.

Lemma page_ids_more n fuel p (s s' : S) r :
  page_ids n p s = (s', Ok r) → (n ≤ fuel)%nat → page_ids fuel p s = (s', Ok r).
Proof.
  revert fuel p s s' r. induction n as [|n IH]; intros fuel p s s' r; [done|].
  destruct fuel as [|fuel]; [lia|]. intros H Hle. cbn [page_ids] in H |- *.
  destruct (p =? INVALID_PAGE_ID); [done|].
  step_bind H r1. destruct r1 as [fid|]; [|done].
  step_bind H data. step_bind H next. step_bind H b.
  apply bindM_inv in H as (s4 & rest & Hs & H). by rewrite (bindM_Ok _ _ _ _ _ (IH fuel _ _ _ _ Hs ltac:(lia))).
Qed.

Lemma ParallelSeqScan_yields o cur :
  yields (S := S) 0 (set_ps (ps_buffer o) cur o) (mkStream (drop cur (ps_buffer o)) None).
Proof.
  apply (buffer_yields (λ c, set_ps (ps_buffer o) c o)); [|done]. intros c fuel.
  cbn. unfold ParallelSeqScan_Next, bindM, getM. cbn. by destruct (ps_buffer o !! c).
Qed.

Lemma ParallelSeqScan_delivers ti alias k st pins cap ps :
  pins_low pins → (0 < k)%nat → (size pins + k ≤ cap)%nat → fair k σ → calm σ →
  heap_rep (ti_heap_file ti) st ps →
  delivers (stored st pins cap) (ParallelSeqScan_ctor ti alias k) (chain_entries ps).*2.
Proof.
  intros Hlow Hk Hcap Hfair Hcalm Hrep s [Hr Hc].
  assert (∀ p j w, pins !! p = Some (j, w) → (0 < j)%nat) as Hpos
    by (intros p j w Hp; by destruct (pc_rep_pinned _ _ _ _ _ _ Hr Hp)).
  destruct (page_ids_spec (GetTupleSize (schema_ (ti_heap_file ti))) ps s st pins (Datatypes.S (length ps)))
    as (s1 & Hids & Hr1 & Hc1); [done|done|lia|apply Hrep|lia|].
  rewrite (hr_first _ _ _ Hrep) in Hids. set (n := (k `min` length ps.*1)%nat).
  assert (ps ≠ []) as Hne. { intros ->. by pose proof (hr_last _ _ _ Hrep). }
  assert (0 < n)%nat as Hn. { unfold n. rewrite length_fmap. destruct ps; [done|simpl; lia]. }
  destruct (parallel_for_spec ps.*1 SFetch (scan_body (ti_heap_file ti)) n page_of _ _ _ _
    (scan_laws (ti_heap_file ti) st pins cap n ps Hlow Hpos ltac:(unfold n; lia) Hrep) σ (s1, replicate n []))
    as (F & [s2 local] & Hinv & Hrun); [done|by apply (fair_le n k); [|unfold n; lia]|done| |].
  { split; cbn [fst snd]; [done|congruence|by rewrite length_replicate|constructor|..].
    - by intros p ?%elem_of_nil.
    - by intros p fid ?%elem_of_nil.
    - clear. induction n as [|n IH]; [done|exact IH]. }
  destruct Hinv as [I1 I2 _ _ _ _ I7]. cbn in I1, I2, I7.
  set (o := ParallelSeqScan_ctor ti alias k).
  exists (F + Datatypes.S (length ps))%nat, (set_ps (concat local) 0 o), s2, (concat local).
  split; [|split; [done|split; [reflexivity|split]]].
  - intros fuel Hf. cbn. unfold ParallelSeqScan_Init, on_op, on_store, zoomM, bindM, modifyM, getM, putM. cbn.
    unfold GetPageIds. rewrite (page_ids_more _ _ _ _ _ _ Hids) by lia.
    destruct ps as [|pr ps']; [done|]. cbn. unfold liftM.
    change (pr.1 :: ps'.*1) with (pr :: ps').*1. fold n. by rewrite Hrun by lia.
  - eapply yields_le; [apply (ParallelSeqScan_yields (set_ps (concat local) 0 o) 0)|lia].
  - rewrite I7. cbn. by rewrite (rows_at_all ps ps) by (apply Hrep || done).
Qed.
End scan_theorems.
