(* ===== verification/ParallelHashJoin.v ===== *)
(** * Parallel hash join: [src/src/executor/parallel_hash_join.h], [.cpp]

    Build: tasks claim left tuples and insert them into the lock-free hash table,
    each atomic access of [Insert] a step.  Probe: tasks claim right tuples; the
    table is only read now and a task writes only [local[tid]], so a probe is one
    step.  The allocator is a parameter.  The walks of [Lookup] and [Clear] along
    a chain have the number of allocated nodes as fuel. *)
From stdpp Require Import base gmap list list_numbers strings.
From Stdlib Require Import ZArith Lia Ascii.
From S2P Require Import Prelude Types PageCache HeapFile Catalog Ast Executor ExecutorSpec ExecutorJoin PlannerSpec ParallelFor ParallelSeqScan LockFreeHashTable.

(** [new]: the address of an allocated node. *)
Class Malloc := malloc : gmap addr Node → addr.
(** It was not allocated. *)
Class MallocSpec `{Malloc} := malloc_fresh : ∀ ns, ns !! malloc ns = None.

Record ParallelHashJoin (L R : Type) := mkParallelHashJoin {
  pj_left : L;
  pj_right : R;
  pj_left_key : Expr;
  pj_right_key : Expr;
  pj_n_threads : nat;
  pj_output_schema : Schema;
  pj_hash_table : LockFreeHashTable;
  pj_output_buffer : list Tuple;
  pj_cursor : nat
}.
Arguments mkParallelHashJoin {L R}. Arguments pj_left {L R}. Arguments pj_right {L R}.
Arguments pj_left_key {L R}. Arguments pj_right_key {L R}. Arguments pj_n_threads {L R}.
Arguments pj_output_schema {L R}. Arguments pj_hash_table {L R}.
Arguments pj_output_buffer {L R}. Arguments pj_cursor {L R}.

(** The file's own [ConcatSchemas] and [Concat]. *)
Definition concat_schemas (l r : Schema) : Schema := Schema_ctor (columns_ l ++ columns_ r).
Definition concat_tuples (l r : Tuple) (ls rs : Schema) : outcome Tuple :=
  let total := wrap_u32 (GetTupleSize ls + GetTupleSize rs) in
  let buf := memset total NUL in
  bl <-! odef (load 0 (GetTupleSize ls) (data_ l)) ;;
  buf <-! odef (store 0 bl buf) ;;
  br <-! odef (load 0 (GetTupleSize rs) (data_ r)) ;;
  buf <-! odef (store (GetTupleSize ls) br buf) ;;
  FromBytes 0 total buf.

(** [EvalExpr(key, t, schema).AsInt()]. *)
Definition key_int (key : Expr) (t : Tuple) (schema : Schema) : outcome Z :=
  v <-! EvalExpr key t schema ;; Ok (AsInt v).

(** *** The tasks *)
Inductive BuildBody :=
  | BEval (t : Tuple)
  | BInsert (t : Tuple) (call : Inserter).

Definition build_body `{Malloc} (key : Expr) (schema : Schema) (spurious : bool) (tid : nat)
    (b : BuildBody) (ht : LockFreeHashTable) : outcome (LockFreeHashTable * option BuildBody) :=
  match b with
  | BEval t =>
      k <-! thread_eval (key_int key t schema) ;; Ok (ht, Some (BInsert t (INew k t)))
  | BInsert t call =>
      r <-! odef (insert_step (malloc (nodes ht)) spurious ht call) ;;
      match r.2 with
      | IDone _ _ => Ok (r.1, None)
      | IUndefined => Fault Undefined
      | call' => Ok (r.1, Some (BInsert t call'))
      end
  end.

(** The [for] over [matches]: a joined tuple is pushed for each. *)
Fixpoint concat_matches (matches : list Tuple) (rt : Tuple) (ls rs : Schema) : outcome (list Tuple) :=
  match matches with
  | [] => Ok []
  | lt :: matches =>
      t <-! concat_tuples lt rt ls rs ;; ts <-! concat_matches matches rt ls rs ;; Ok (t :: ts)
  end.
(** What a probe of [rt] pushes. *)
Definition probe_row (key : Expr) (ls rs : Schema) (ht : LockFreeHashTable) (rt : Tuple)
    : outcome (list Tuple) :=
  k <-! thread_eval (key_int key rt rs) ;;
  matches <-! HashTable_Lookup (size (nodes ht)) k ht ;;
  concat_matches matches rt ls rs.
Definition probe_body (key : Expr) (ls rs : Schema) (ht : LockFreeHashTable) (spurious : bool)
    (tid : nat) (rt : Tuple) (local : list (list Tuple))
    : outcome (list (list Tuple) * option Tuple) :=
  ts <-! probe_row key ls rs ht rt ;;
  mine <-! odef (local !! tid) ;;
  Ok (<[tid := mine ++ ts]> local, None).

(** *** The operator *)
Section parallel_hash_join.
Context {S L R : Type} `{!Operator S L} `{!Operator S R} `{Malloc} (σb σp : Schedule).
Local Abbreviation J := (ParallelHashJoin L R).

Definition ParallelHashJoin_ctor (left : L) (right : R) (left_key right_key : Expr)
    (n_threads : nat) (bucket_count : Z) : J :=
  mkParallelHashJoin left right left_key right_key n_threads
    (concat_schemas (GetOutputSchema left) (GetOutputSchema right))
    (LockFreeHashTable_ctor bucket_count) [] 0.
(** The default argument. *)
Definition default_bucket_count : Z := 65536.

Definition set_pj_left (l : L) (o : J) : J :=
  mkParallelHashJoin l (pj_right o) (pj_left_key o) (pj_right_key o) (pj_n_threads o)
    (pj_output_schema o) (pj_hash_table o) (pj_output_buffer o) (pj_cursor o).
Definition set_pj_right (r : R) (o : J) : J :=
  mkParallelHashJoin (pj_left o) r (pj_left_key o) (pj_right_key o) (pj_n_threads o)
    (pj_output_schema o) (pj_hash_table o) (pj_output_buffer o) (pj_cursor o).
Definition set_pj (ht : LockFreeHashTable) (buffer : list Tuple) (cursor : nat) (o : J) : J :=
  mkParallelHashJoin (pj_left o) (pj_right o) (pj_left_key o) (pj_right_key o) (pj_n_threads o)
    (pj_output_schema o) ht buffer cursor.
Definition on_pj_left {A} (m : M L A) : M J A := zoomM pj_left set_pj_left m.
Definition on_pj_right {A} (m : M R A) : M J A := zoomM pj_right set_pj_right m.

(** [hash_table_.Clear()]. *)
Definition clear_table : M J unit :=
  o <- getM ;;
  ht <- liftM (HashTable_Clear (size (nodes (pj_hash_table o))) (pj_hash_table o)) ;;
  putM (set_pj ht (pj_output_buffer o) (pj_cursor o) o).

Definition ParallelHashJoin_Init (fuel : nat) : M (J * S) unit :=
  on_op (clear_table ;; modifyM (λ o, set_pj (pj_hash_table o) [] 0 o)) ;;
  zoomM (λ p, (pj_left p.1, p.2)) (λ c p, (set_pj_left c.1 p.1, c.2)) (Init fuel) ;;
  on_op (
    left_tuples <- on_pj_left (drain fuel fuel) ;;
    on_pj_left Close ;;
    o <- getM ;;
    ht <- liftM (parallel_for left_tuples BEval
                   (build_body (pj_left_key o) (GetOutputSchema (pj_left o)))
                   σb fuel (pj_n_threads o) (pj_hash_table o)) ;;
    putM (set_pj ht (pj_output_buffer o) (pj_cursor o) o)) ;;
  zoomM (λ p, (pj_right p.1, p.2)) (λ c p, (set_pj_right c.1 p.1, c.2)) (Init fuel) ;;
  on_op (
    right_tuples <- on_pj_right (drain fuel fuel) ;;
    on_pj_right Close ;;
    o <- getM ;;
    local <- liftM (parallel_for right_tuples id
                      (probe_body (pj_right_key o) (GetOutputSchema (pj_left o))
                         (GetOutputSchema (pj_right o)) (pj_hash_table o))
                      σp fuel (pj_n_threads o) (replicate (pj_n_threads o) [])) ;;
    putM (set_pj (pj_hash_table o) (pj_output_buffer o ++ concat local) (pj_cursor o) o)).
Definition ParallelHashJoin_Next (fuel : nat) : M J (option Tuple) :=
  o <- getM ;;
  match pj_output_buffer o !! pj_cursor o with
  | None => retM None
  | Some t =>
      putM (set_pj (pj_hash_table o) (pj_output_buffer o) (Datatypes.S (pj_cursor o)) o) ;;
      retM (Some t)
  end.
Definition ParallelHashJoin_Close : M J unit :=
  clear_table ;; modifyM (λ o, set_pj (pj_hash_table o) [] (pj_cursor o) o).
Definition ParallelHashJoin_Operator : Operator S J := {|
  Init := ParallelHashJoin_Init;
  Next := ParallelHashJoin_Next;
  Close := ParallelHashJoin_Close;
  GetOutputSchema := pj_output_schema
|}.
End parallel_hash_join.

(** ** The build phase *)
Definition key_of (key : Expr) (schema : Schema) (t : Tuple) : Z :=
  match key_int key t schema with Ok k => k | Fault _ => 0 end.
Definition has_keys (key : Expr) (schema : Schema) (l : list Tuple) : Prop :=
  ∀ t, t ∈ l → key_int key t schema = Ok (key_of key schema t).
Definition with_keys (key : Expr) (schema : Schema) (l : list Tuple) : list (Z * Tuple) :=
  (λ t, (key_of key schema t, t)) <$> l.

Definition tuple_of (b : BuildBody) : Tuple := match b with BEval t | BInsert t _ => t end.
Definition call1 (b : BuildBody) : list Inserter := match b with BInsert _ st => [st] | _ => [] end.
Definition calls (bs : list BuildBody) : list Inserter := concat (call1 <$> bs).
Definition need_build (ht : LockFreeHashTable) (b : BuildBody) : nat :=
  match b with BEval _ => 5 | BInsert _ st => need ht st end.

Lemma calls_perm bs bs' : bs ≡ₚ bs' → calls bs ≡ₚ calls bs'.
Proof. intros H. unfold calls. rewrite <- !flat_map_concat_map. by apply Permutation_flat_map. Qed.

Lemma insert_step_Some `{MallocSpec} ht ins g sp st :
  table_inv ht (st :: ins) g → is_done st = false →
  ∃ ht' st', insert_step (malloc (nodes ht)) sp ht st = Some (ht', st').
Proof.
  intros Ht Hd. pose proof (ti_ins _ _ _ Ht) as [Hok _]%Forall_cons.
  destruct st; cbn in *; try done; rewrite ?malloc_fresh; eauto.
  destruct (buckets_ ht !! idx); [destruct (_ && _)|]; eauto.
Qed.

Section build.
Context `{MallocSpec} (key : Expr) (schema : Schema) (items : list Tuple) (n : nat) (nb : Z).
Hypothesis Hkeys : has_keys key schema items.

Definition build_wf (b : BuildBody) : Prop :=
  tuple_of b ∈ items ∧
  match b with
  | BEval _ => True
  | BInsert t st => entry_of st = Some (key_of key schema t, t) ∧ is_done st = false
  end.
Record build_inv (ht : LockFreeHashTable) (bs : list BuildBody) (ds : list Tuple) : Prop := {
  bi_count : bucket_count_ ht = nb;
  bi_wf : Forall build_wf bs;
  bi_table : ∃ g, table_inv ht (calls bs) g ∧ (concat g).*2 ≡ₚ with_keys key schema ds
}.
Definition build_pot (ht : LockFreeHashTable) (bs : list BuildBody) : nat :=
  sum_list_with (need_build ht) bs + 2 * n * length bs.

Lemma insert_build_step ht t st bs ds sp tid :
  build_inv ht (BInsert t st :: bs) ds → (length bs < n)%nat →
  ∃ ht' ob, build_body key schema sp tid (BInsert t st) ht = Ok (ht', ob) ∧
    match ob with
    | Some b' => tuple_of b' = t ∧ build_inv ht' (b' :: bs) ds
    | None => build_inv ht' bs (t :: ds)
    end ∧
    (build_pot ht' (option_list ob ++ bs) < build_pot ht (BInsert t st :: bs) + if sp then 2 else 0)%nat.
Proof.
  intros [H1 H2 (g & Hg & Hc)] Hlen. apply Forall_cons in H2 as [(Hin & He & Hd) H2]. cbn in Hin.
  change (calls (BInsert t st :: bs)) with (st :: calls bs) in Hg.
  destruct (insert_step_Some ht (calls bs) g sp st Hg Hd) as (ht' & st' & Hst).
  destruct (insert_step_inv ht (st :: calls bs) g 0 st _ _ _ _ Hg eq_refl Hst) as (g' & Hg' & Ha).
  cbn [insert list_insert] in Hg'.
  assert (st' ≠ IUndefined) as Hne.
  { intros ->. pose proof (ti_ins _ _ _ Hg') as [[] _]%Forall_cons. }
  destruct (insert_step_entry _ _ _ _ _ _ Hst Hne) as (He' & _ & Hn & _).
  assert (∀ d, (∀ st2, need ht' st2 ≤ need ht st2 + d)%nat →
    (sum_list_with (need_build ht') bs ≤ sum_list_with (need_build ht) bs + d * length bs)%nat) as Hsum.
  { intros d Hdle. apply sum_le. intros [u|u st2]; cbn; [lia|apply Hdle]. }
  unfold build_body. rewrite Hst. cbn [odef obind fst snd].
  destruct (insert_step_need _ _ _ _ _ _ Hst) as [(Hd' & Hone & Hle)|(Hd' & Heq & Hlt)].
  - destruct st' as [| | | |k v|]; try done. exists ht', None. split; [done|].
    cbn in He'. rewrite He in He'. injection He' as -> ->. split.
    + split; [congruence|done|]. exists g'. split; [by eapply table_inv_done|].
      unfold adds in Ha. rewrite Ha. cbn. by rewrite Hc.
    + unfold build_pot. cbn. specialize (Hsum 2%nat Hle). destruct sp; nia.
  - exists ht', (Some (BInsert t st')). split; [by destruct st'|]. split.
    + split; [done|]. split; [congruence| |].
      * constructor; [|done]. split; [done|]. split; [congruence|done].
      * exists g'. split; [exact Hg'|]. unfold adds in Ha. rewrite Ha. by destruct st'.
    + unfold build_pot. cbn. specialize (Hsum 0%nat ltac:(intros; rewrite Heq; lia)). destruct sp; lia.
Qed.

Lemma build_laws :
  par_laws items BEval (build_body key schema) n tuple_of build_inv build_pot (5 + 2 * n) 2.
Proof.
  split.
  - done.
  - intros x bs bs' ds ds' Hb Hds [H1 H2 (g & Hg & Hc)]. split; [done|by rewrite <- Hb|].
    exists g. split; [by eapply table_inv_perm; [apply calls_perm|]|]. rewrite Hc. unfold with_keys. by rewrite Hds.
  - intros x bs ds t [H1 H2 (g & Hg & Hc)] Hsub _. split; [done| |by exists g].
    constructor; [|done]. split; [|done]. eapply elem_of_submseteq; [|exact Hsub]. cbn. set_solver.
  - intros sp tid [t|t st] bs ds x Hx _ Hlen; [|by apply insert_build_step].
    destruct Hx as [H1 H2 (g & Hg & Hc)]. apply Forall_cons in H2 as [[Hin _] H2]. cbn in Hin.
    eexists _, _. cbn. rewrite (Hkeys t Hin). cbn. split; [reflexivity|]. split.
    + split; [done|]. split; [done| |].
      * by repeat constructor.
      * exists g. split; [|done]. by apply table_inv_new.
    + unfold build_pot. cbn. destruct sp; lia.
  - intros x bs bs' Hb. unfold build_pot. by rewrite Hb.
  - intros x bs t. unfold build_pot. cbn. lia.
Qed.
End build.

(** ** The probe phase *)
Section probe.
Context (key : Expr) (ls rs : Schema) (ht : LockFreeHashTable) (items : list Tuple) (n : nat).
Definition probed (r : Tuple) : list Tuple :=
  match probe_row key ls rs ht r with Ok o => o | Fault _ => [] end.
Hypothesis Hprobe : ∀ r, r ∈ items → probe_row key ls rs ht r = Ok (probed r).

Record probe_inv (local : list (list Tuple)) (bs ds : list Tuple) : Prop := {
  pb_local : length local = n;
  pb_items r : r ∈ bs → r ∈ items;
  pb_rows : concat local ≡ₚ concat (probed <$> ds)
}.
Lemma probe_laws :
  par_laws items id (probe_body key ls rs ht) n id probe_inv (λ _ bs, length bs) 1 0.
Proof.
  split.
  - done.
  - intros x bs bs' ds ds' Hb Hds [H1 H2 H3]. split; [done|intros r; rewrite <- Hb; apply H2|].
    rewrite H3, <- !flat_map_concat_map. by apply Permutation_flat_map.
  - intros x bs ds t [H1 H2 H3] Hsub _. split; [done| |done].
    intros r [->|Hr]%elem_of_cons; [|by apply H2]. eapply elem_of_submseteq; [|exact Hsub]. set_solver.
  - intros sp tid r bs ds x [H1 H2 H3] Htid _. unfold probe_body.
    rewrite Hprobe by (apply H2; set_solver). cbn.
    destruct (lookup_lt_is_Some_2 x tid) as [mine Hm]; [by rewrite H1|]. rewrite Hm. cbn.
    eexists _, None. split; [reflexivity|]. split; [|cbn; destruct sp; lia].
    split; [by rewrite length_insert|intros q Hq; apply H2; set_solver|].
    pose proof (concat_insert id x tid mine (mine ++ probed r) Hm) as Hp.
    rewrite !list_fmap_id in Hp. cbn in Hp. apply (Permutation_app_inv_r mine). rewrite Hp, H3. cbn.
    solve_Permutation.
  - intros x bs bs' Hb. by rewrite Hb.
  - intros x bs t. cbn. lia.
Qed.
End probe.

(** ** The equi-join on integer keys *)
Definition keyed_int (key : Expr) (schema : Schema) : list Tuple → outcome (list (Z * Tuple)) :=
  oall (λ t, k <-! key_int key t schema ;; Ok (k, t)).
(** The pairs of a left and a right row with the same key. *)
Definition int_pairs (kl kr : list (Z * Tuple)) : list (Tuple * Tuple) :=
  concat ((λ r, (λ l, (l, r.2)) <$> with_key r.1 kl) <$> kr).
Definition ref_int_join (lk rk : Expr) (ls rs : Schema) (lrows rrows : list Tuple)
    : outcome (list Tuple) :=
  kl <-! keyed_int lk ls lrows ;;
  kr <-! keyed_int rk rs rrows ;;
  oall (λ p, Concat p.1 p.2 ls rs) (int_pairs kl kr).

Lemma keyed_int_ok key schema l kl :
  keyed_int key schema l = Ok kl → has_keys key schema l ∧ kl = with_keys key schema l.
Proof.
  intros H%oall_Forall2. induction H as [|t [k t'] l kl Ht _ [IH1 IH2]].
  - split; [by intros t ?%elem_of_nil|done].
  - apply obind_Ok_inv in Ht as (k2 & Hk & [= <- <-]).
    assert (key_of key schema t = k2) as E by (unfold key_of; by rewrite Hk). split.
    + intros u [->|Hu]%elem_of_cons; [by rewrite E|by apply IH1].
    + cbn. by rewrite E, IH2.
Qed.
Lemma int_pairs_perm kl kl' kr kr' :
  kl ≡ₚ kl' → kr ≡ₚ kr' → int_pairs kl kr ≡ₚ int_pairs kl' kr'.
Proof.
  intros Hl Hr. transitivity (int_pairs kl kr').
  - unfold int_pairs. rewrite <- !flat_map_concat_map. by apply Permutation_flat_map.
  - clear Hr. unfold int_pairs. induction kr' as [|r kr' IH]; [done|]. cbn [fmap list_fmap concat].
    by rewrite IH, (with_key_perm r.1 _ _ Hl).
Qed.
Lemma int_pairs_split ls rs kl kr out :
  oall (λ p, Concat p.1 p.2 ls rs) (int_pairs kl kr) = Ok out →
  ∃ outs, out = concat outs ∧
    Forall2 (λ r o, oall (λ l, Concat l r.2 ls rs) (with_key r.1 kl) = Ok o) kr outs.
Proof.
  revert out. induction kr as [|r kr IH]; intros out Ho.
  { injection Ho as <-. by exists []. }
  apply oall_app in Ho as (o1 & o2 & -> & Ho1 & (outs & -> & Hall)%IH).
  rewrite oall_fmap in Ho1. exists (o1 :: outs). split; [done|by constructor].
Qed.

Lemma concat_matches_oall ms r ls rs : concat_matches ms r ls rs = oall (λ l, Concat l r ls rs) ms.
Proof. induction ms as [|l ms IH]; [done|]. cbn. by rewrite IH. Qed.
Lemma probe_row_ok rk ls rs ht g kl r k o :
  table_inv ht [] g → (concat g).*2 ≡ₚ kl → key_int rk r rs = Ok k →
  oall (λ l, Concat l r ls rs) (with_key k kl) = Ok o →
  ∃ o', probe_row rk ls rs ht r = Ok o' ∧ o ≡ₚ o'.
Proof.
  intros Hg Hc Hk Ho. destruct (Lookup_table ht [] g k (size (nodes ht)) Hg) as (vs & E & Hvs).
  { by eapply nodes_size. }
  rewrite (with_key_perm k _ _ Hc) in Hvs.
  destruct (oall_perm _ _ _ _ (symmetry Hvs) Ho) as (o' & Ho' & Hp). exists o'. split; [|done].
  unfold probe_row. rewrite Hk. cbn. rewrite E. cbn. by rewrite concat_matches_oall.
Qed.

(** ** The operator *)
Lemma concat_perm (f : Tuple → list Tuple) l outs :
  Forall2 (λ r o, o ≡ₚ f r) l outs → concat outs ≡ₚ concat (f <$> l).
Proof. induction 1 as [|r o l outs Ho _ IH]; [done|]. cbn. by rewrite Ho, IH. Qed.

(** The build phase leaves a table with the left rows, under any fair schedule. *)
Lemma build_phase `{MallocSpec} key schema items n nb σ :
  has_keys key schema items → (0 < n)%nat → 0 < nb → fair n σ → calm σ →
  ∃ F ht g, table_inv ht [] g ∧ (concat g).*2 ≡ₚ with_keys key schema items ∧
    ∀ fuel, (F ≤ fuel)%nat →
      parallel_for items BEval (build_body key schema) σ fuel n (LockFreeHashTable_ctor nb) = Ok ht.
Proof.
  intros Hk Hn Hnb Hf Hc. pose proof (build_laws key schema items n nb Hk) as Hlaws.
  destruct (parallel_for_spec items BEval (build_body key schema) n tuple_of _ _ _ _ Hlaws σ
    (LockFreeHashTable_ctor nb) Hn Hf Hc) as (F & ht & Hinv & Hr).
  { split; [done|done|]. exists (replicate (Z.to_nat nb) []). split; [by apply table_inv_ctor|].
    clear. induction (Z.to_nat nb) as [|m IH]; [done|exact IH]. }
  destruct Hinv as [_ _ (g & Hg & Hcont)]. by exists F, ht, g.
Qed.

(** The probe phase collects the joined rows. *)
Lemma probe_phase lk rk ls rs lrows rrows ht g out n σ :
  table_inv ht [] g → (concat g).*2 ≡ₚ with_keys lk ls lrows → has_keys rk rs rrows →
  oall (λ p, Concat p.1 p.2 ls rs) (int_pairs (with_keys lk ls lrows) (with_keys rk rs rrows)) = Ok out →
  (0 < n)%nat → fair n σ → calm σ →
  ∃ F local, concat local ≡ₚ out ∧
    ∀ fuel, (F ≤ fuel)%nat →
      parallel_for rrows id (probe_body rk ls rs ht) σ fuel n (replicate n []) = Ok local.
Proof.
  intros Hg Hcont Hk Ho Hn Hf Hc. destruct (int_pairs_split _ _ _ _ _ Ho) as (outs & -> & Hall).
  assert (Forall2 (λ r o, ∃ o', probe_row rk ls rs ht r = Ok o' ∧ o ≡ₚ o') rrows outs) as Hrows.
  { unfold with_keys in Hall. rewrite Forall2_fmap_l in Hall.
    apply Forall2_same_length_lookup in Hall as [Hlen Hall].
    apply Forall2_same_length_lookup_2; [done|]. intros i r o Hi Hio.
    eapply probe_row_ok; [done|done| |exact (Hall i r o Hi Hio)]. apply Hk. by eapply list_elem_of_lookup_2. }
  assert (∀ r, r ∈ rrows → probe_row rk ls rs ht r = Ok (probed rk ls rs ht r)) as Hprobe.
  { intros r Hr. apply list_elem_of_lookup in Hr as [i Hi].
    destruct (Forall2_lookup_l _ _ _ _ _ Hrows Hi) as (o & _ & o' & E & _). unfold probed. by rewrite E. }
  pose proof (probe_laws rk ls rs ht rrows n Hprobe) as Hlaws.
  destruct (parallel_for_spec rrows id (probe_body rk ls rs ht) n id _ _ _ _ Hlaws σ
    (replicate n []) Hn Hf Hc) as (F & local & Hinv & Hr).
  { split; [by rewrite length_replicate|by intros ? ?%elem_of_nil|].
    clear. induction n as [|m IH]; [done|exact IH]. }
  exists F, local. split; [|done]. destruct Hinv as [_ _ Hrows']. rewrite Hrows'. symmetry.
  apply concat_perm. eapply Forall2_impl; [exact Hrows|]. intros r o (o' & E & Hp).
  unfold probed. by rewrite E.
Qed.

Section join_theorems.
Context {S L R : Type} `{opL : !Operator S L} `{opR : !Operator S R}.
Context `{!OperatorLaws S L} `{!OperatorLaws S R} `{MallocSpec} (σb σp : Schedule).
#[local] Instance join_operator : Operator S (ParallelHashJoin L R) := ParallelHashJoin_Operator σb σp.

Lemma ParallelHashJoin_yields (o : ParallelHashJoin L R) cur :
  yields (S := S) 0 (set_pj (pj_hash_table o) (pj_output_buffer o) cur o)
    (mkStream (drop cur (pj_output_buffer o)) None).
Proof.
  apply (buffer_yields (λ c, set_pj (pj_hash_table o) (pj_output_buffer o) c o)); [|done].
  intros c fuel. cbn. unfold ParallelHashJoin_Next, bindM, getM. cbn. by destruct (pj_output_buffer o !! c).
Qed.

Lemma ParallelHashJoin_delivers (I : S → Prop) (l : L) (r : R) lk rk k nb lrows rrows out :
  delivers I l lrows → delivers I r rrows → (0 < k)%nat → 0 < nb →
  fair k σb → calm σb → fair k σp → calm σp →
  ref_int_join lk rk (GetOutputSchema l) (GetOutputSchema r) lrows rrows = Ok out →
  delivers I (ParallelHashJoin_ctor (S := S) l r lk rk k nb) out.
Proof.
  intros HL HR Hk Hnb Hfb Hcb Hfp Hcp (kl & Hkl & (kr & Hkr & Ho)%obind_Ok_inv)%obind_Ok_inv s Hs.
  apply keyed_int_ok in Hkl as [Hkl ->]. apply keyed_int_ok in Hkr as [Hkr ->].
  destruct (HL s Hs) as (N1 & l1 & s1 & lrows' & Hi1 & Hs1 & Hsch1 & Hy1 & Hp1).
  destruct (drain_yields N1 l1 lrows' Hy1) as (l2 & Hl2 & Hd1).
  destruct (Close_ok l2) as (l3 & Hl3 & Hl3s).
  destruct (HR s1 Hs1) as (N2 & r1 & s2 & rrows' & Hi2 & Hs2 & Hsch2 & Hy2 & Hp2).
  destruct (drain_yields N2 r1 rrows' Hy2) as (r2 & Hr2 & Hd2).
  destruct (Close_ok r2) as (r3 & Hr3 & Hr3s).
  assert (GetOutputSchema l3 = GetOutputSchema l) as El by congruence.
  assert (GetOutputSchema r3 = GetOutputSchema r) as Er by congruence.
  destruct (build_phase lk (GetOutputSchema l) lrows' k nb σb) as (F1 & ht & g & Hg & Hcont & Hb);
    [intros t Ht; apply Hkl; by rewrite <- Hp1|done..|].
  destruct (oall_perm _ _ _ _ (int_pairs_perm _ _ _ _
    (fmap_Permutation _ _ _ (symmetry Hp1)) (fmap_Permutation _ _ _ (symmetry Hp2))) Ho) as (out' & Ho' & Hout).
  destruct (probe_phase lk rk (GetOutputSchema l) (GetOutputSchema r) lrows' rrows' ht g out' k σp)
    as (F2 & local & Hlocal & Hp); [done|done|intros t Ht; apply Hkr; by rewrite <- Hp2|exact Ho'|done..|].
  set (o := mkParallelHashJoin l3 r3 lk rk k (concat_schemas (GetOutputSchema l) (GetOutputSchema r))
    ht (concat local) 0).
  exists (N1 + N2 + F1 + F2 + Datatypes.S (length lrows' + length rrows'))%nat, o, s2, (concat local).
  split; [|split; [done|split; [reflexivity|split]]].
  - intros fuel Hf. cbn. unfold ParallelHashJoin_Init, clear_table, on_op, zoomM, bindM, modifyM, getM, putM, liftM.
    cbn. pose proof (Clear_table (LockFreeHashTable_ctor nb) [] _ 0 (table_inv_ctor nb Hnb) eq_refl) as Hclear.
    assert (length (concat (replicate (Z.to_nat nb) (@nil entry))) ≤ 0)%nat as Hz
      by (clear; induction (Z.to_nat nb) as [|m IH]; [done|exact IH]).
    rewrite map_size_empty, (Hclear Hz). cbn. rewrite Hi1 by lia. cbn.
    unfold on_pj_left, on_pj_right, zoomM. cbn. rewrite Hd1 by lia. cbn. rewrite Hl3. cbn.
    rewrite El, Hb by lia. cbn. rewrite Hi2 by lia. cbn. rewrite Hd2 by lia. cbn. rewrite Hr3. cbn.
    rewrite El, Er, Hp by lia. done.
  - eapply yields_le; [apply (ParallelHashJoin_yields o 0)|lia].
  - by rewrite Hlocal, Hout.
Qed.
End join_theorems.
