(* ===== verification/ParallelSort.v ===== *)
(** * Parallel sort: [src/src/executor/parallel_sort.h], [.cpp]

    Each task copies and sorts its chunk into a partition of its own, so the
    tasks may be run in any order; the order is a parameter.  [Next] merges the
    partitions with a heap of cursors; [std::make_heap], [std::push_heap] and
    [std::pop_heap] are parameters with the contract of the standard. *)
From stdpp Require Import base gmap list strings sorting.
From Stdlib Require Import ZArith Lia Ascii.
From S2P Require Import Prelude Types PageCache HeapFile Catalog Ast Executor ExecutorSpec ExecutorSort ParallelSeqScan.

(** A pointer to a tuple of [partitions_]: partition and index. *)
Abbreviation tuple_ptr := (nat * nat)%type.
Record HeapEntry := mkHeapEntry {
  he_tuple : tuple_ptr;
  he_partition : nat;
  he_index : nat
}.
Class StdHeap := {
  std_make_heap : (HeapEntry → HeapEntry → outcome bool) → list HeapEntry → outcome (list HeapEntry);
  std_push_heap : (HeapEntry → HeapEntry → outcome bool) → list HeapEntry → outcome (list HeapEntry);
  std_pop_heap : (HeapEntry → HeapEntry → outcome bool) → list HeapEntry → outcome (list HeapEntry)
}.

Record ParallelSort (C : Type) := mkParallelSort {
  po_child : C;
  po_order_by : list OrderByItem;
  po_n_threads : nat;
  po_partitions : list (list Tuple);
  po_heap : list HeapEntry;
  po_heap_ready : bool
}.
Arguments mkParallelSort {C}. Arguments po_child {C}. Arguments po_order_by {C}.
Arguments po_n_threads {C}. Arguments po_partitions {C}. Arguments po_heap {C}.
Arguments po_heap_ready {C}.
Definition ParallelSort_ctor {C} (child : C) (order_by : list OrderByItem) (n_threads : nat)
    : ParallelSort C :=
  mkParallelSort child order_by n_threads [] [] false.

(** What [MakeComparator(schema)] returns. *)
Fixpoint MakeComparator (order_by : list OrderByItem) (schema : Schema) (a b : Tuple) : outcome bool :=
  match order_by with
  | [] => Ok false
  | item :: order_by =>
      va <-! EvalExpr (ob_expr item) a schema ;;
      vb <-! EvalExpr (ob_expr item) b schema ;;
      match GetType va with
      | INT =>
          if negb (AsInt va =? AsInt vb) then
            Ok (if ob_ascending item then AsInt va <? AsInt vb else AsInt vb <? AsInt va)
          else MakeComparator order_by schema a b
      | VARCHAR =>
          if negb (str_eqb (AsVarchar va) (AsVarchar vb)) then
            Ok (if ob_ascending item then str_ltb (AsVarchar va) (AsVarchar vb)
                else str_ltb (AsVarchar vb) (AsVarchar va))
          else MakeComparator order_by schema a b
      end
  end.

(** [*p]. *)
Definition deref (partitions : list (list Tuple)) (p : tuple_ptr) : outcome Tuple :=
  odef (partitions !! p.1 ≫= λ part, part !! p.2).
(** The lambda [heap_cmp]: the comparison inverted. *)
Definition heap_cmp (cmp : Tuple → Tuple → outcome bool) (partitions : list (list Tuple))
    (a b : HeapEntry) : outcome bool :=
  tb <-! deref partitions (he_tuple b) ;;
  ta <-! deref partitions (he_tuple a) ;;
  cmp tb ta.

(** The task for partition [i]: [assign(all.begin() + start, all.begin() + end)],
    undefined when [start] is past the end, and [std::sort]. *)
Definition sort_task `{StdSort} (cmp : Tuple → Tuple → outcome bool) (all : list Tuple) (chunk i : nat)
    (partitions : list (list Tuple)) : outcome (list (list Tuple)) :=
  let start := (i * chunk)%nat in
  let end_ := ((start + chunk) `min` length all)%nat in
  part <-! odef (partitions !! i) ;;
  part <-! odef (if (start <=? end_)%nat then Some (take (end_ - start) (drop start all)) else None) ;;
  part <-! thread_eval (std_sort cmp part) ;;
  Ok (<[i := part]> partitions).
Fixpoint run_tasks `{StdSort} (cmp : Tuple → Tuple → outcome bool) (all : list Tuple) (chunk : nat)
    (order : list nat) (partitions : list (list Tuple)) : outcome (list (list Tuple)) :=
  match order with
  | [] => Ok partitions
  | i :: order =>
      partitions <-! sort_task cmp all chunk i partitions ;; run_tasks cmp all chunk order partitions
  end.

(** The first entry of every partition that has one. *)
Fixpoint heap_entries (i : nat) (partitions : list (list Tuple)) : list HeapEntry :=
  match partitions with
  | [] => []
  | part :: partitions =>
      match part with
      | [] => heap_entries (S i) partitions
      | _ => mkHeapEntry (i, 0%nat) i 0 :: heap_entries (S i) partitions
      end
  end.

Section parallel_sort.
Context {S C : Type} `{!Operator S C} `{StdSort} `{StdHeap} (task_order : nat → list nat).
Local Abbreviation P := (ParallelSort C).

Definition set_po_child (c : C) (o : P) : P :=
  mkParallelSort c (po_order_by o) (po_n_threads o) (po_partitions o) (po_heap o) (po_heap_ready o).
Definition set_po (partitions : list (list Tuple)) (heap : list HeapEntry) (ready : bool) (o : P) : P :=
  mkParallelSort (po_child o) (po_order_by o) (po_n_threads o) partitions heap ready.
Definition on_po_child {A} (m : M C A) : M P A := zoomM po_child set_po_child m.
(** [cmp_]: it refers to the child's schema. *)
Definition cmp_ (o : P) : Tuple → Tuple → outcome bool :=
  MakeComparator (po_order_by o) (GetOutputSchema (po_child o)).

(** [Init] after the input is loaded. *)
Definition sort_partitions (all : list Tuple) : M P unit :=
  o <- getM ;;
  let n := (po_n_threads o `min` length all)%nat in
  chunk <- defM (if decide (n = 0%nat) then None else Some ((length all + n - 1) / n)%nat) ;;
  parts <- liftM (run_tasks (cmp_ o) all chunk (task_order n) (replicate n [])) ;;
  modifyM (λ o, set_po parts (po_heap o ++ heap_entries 0 parts) (po_heap_ready o) o) ;;
  o <- getM ;;
  heap <- liftM (std_make_heap (heap_cmp (cmp_ o) (po_partitions o)) (po_heap o)) ;;
  modifyM (set_po (po_partitions o) heap true).

Definition ParallelSort_Init (fuel : nat) : M (P * S) unit :=
  on_op (modifyM (set_po [] [] false)) ;;
  zoomM (λ p, (po_child p.1, p.2)) (λ c p, (set_po_child c.1 p.1, c.2)) (Init fuel) ;;
  on_op (
    all <- on_po_child (drain fuel fuel) ;;
    on_po_child Close ;;
    match all with
    | [] => retM tt
    | _ => sort_partitions all
    end).

Definition ParallelSort_Next (fuel : nat) : M P (option Tuple) :=
  o <- getM ;;
  if negb (po_heap_ready o) || bool_decide (po_heap o = []) then retM None else
  let parts := po_partitions o in
  heap <- liftM (std_pop_heap (heap_cmp (cmp_ o) parts) (po_heap o)) ;;
  top <- defM (last heap) ;;
  let heap := removelast heap in
  out <- liftM (deref parts (he_tuple top)) ;;
  let next_idx := Datatypes.S (he_index top) in
  part <- defM (parts !! he_partition top) ;;
  heap <- (if (next_idx <? length part)%nat
           then liftM (std_push_heap (heap_cmp (cmp_ o) parts)
                  (heap ++ [mkHeapEntry (he_partition top, next_idx) (he_partition top) next_idx]))
           else retM heap) ;;
  modifyM (set_po parts heap (po_heap_ready o)) ;;
  retM (Some out).
Definition ParallelSort_Close : M P unit := modifyM (λ o, set_po [] [] (po_heap_ready o) o).
Definition ParallelSort_Operator : Operator S P := {|
  Init := ParallelSort_Init;
  Next := ParallelSort_Next;
  Close := ParallelSort_Close;
  GetOutputSchema o := GetOutputSchema (po_child o)
|}.
End parallel_sort.

(** ** The contract of the heap functions *)
Definition is_heap (lt : HeapEntry → HeapEntry → bool) (l : list HeapEntry) : Prop :=
  ∀ i a b, l !! (i / 2)%nat = Some a → l !! S i = Some b → lt a b = false.
Definition compares (less : HeapEntry → HeapEntry → outcome bool) (lt : HeapEntry → HeapEntry → bool)
    (l : list HeapEntry) : Prop :=
  (∀ a b, a ∈ l → b ∈ l → less a b = Ok (lt a b)) ∧ strict_weak l lt.
(** [make_heap] permutes into a heap; [push_heap] puts the last element of the
    range into the heap before it; [pop_heap] moves the first element to the end
    and makes a heap of the rest. *)
Class StdHeapSpec `{StdHeap} := {
  std_make_heap_spec less lt l :
    compares less lt l → ∃ l', std_make_heap less l = Ok l' ∧ l ≡ₚ l' ∧ is_heap lt l';
  std_push_heap_spec less lt l x :
    compares less lt (l ++ [x]) → is_heap lt l →
    ∃ l', std_push_heap less (l ++ [x]) = Ok l' ∧ l ++ [x] ≡ₚ l' ∧ is_heap lt l';
  std_pop_heap_spec less lt x l :
    compares less lt (x :: l) → is_heap lt (x :: l) →
    ∃ l', std_pop_heap less (x :: l) = Ok (l' ++ [x]) ∧ l ≡ₚ l' ∧ is_heap lt l'
}.

(** The first element of a heap is a largest one. *)
Lemma is_heap_first lt x l :
  strict_weak (x :: l) lt → is_heap lt (x :: l) → ∀ y, y ∈ x :: l → lt x y = false.
Proof.
  intros Hsw Hh y [i Hi]%list_elem_of_lookup. revert y Hi.
  induction (lt_wf i) as [i _ IH]; intros y Hi. destruct i as [|i].
  { injection Hi as <-. apply (sw_irrefl _ _ Hsw). set_solver. }
  pose proof (lookup_lt_Some _ _ _ Hi) as Hlt.
  assert (i / 2 ≤ i)%nat as Hdiv by (apply Nat.Div0.div_le_upper_bound; lia).
  destruct (lookup_lt_is_Some_2 (x :: l) (i / 2)) as [p Hp]; [lia|].
  apply (sw_incomp _ _ Hsw x p y); [set_solver|by eapply list_elem_of_lookup_2..| |by eapply Hh].
  by eapply (IH (i / 2)%nat); [lia|].
Qed.

(** ** The merge *)
Lemma MakeComparator_sort_less items schema a b :
  MakeComparator items schema a b = sort_less items schema a b.
Proof.
  induction items as [|item items IH]; [done|]. cbn [MakeComparator sort_less]. by rewrite IH.
Qed.

Section merge.
Context (items : list OrderByItem) (schema : Schema) (all : list Tuple).
Hypothesis Hsort : sortable items schema all.
Context (parts : list (list Tuple)).
Local Abbreviation row_le := (λ a b, rows_cmp items schema a b ≠ Gt).
Hypothesis Hparts : ∀ p part, parts !! p = Some part → StronglySorted row_le part ∧ part ⊆ all.

Definition tuple_lt (a b : Tuple) : bool :=
  match rows_cmp items schema a b with Lt => true | _ => false end.
Definition at_ptr (p : tuple_ptr) : Tuple :=
  match deref parts p with Ok t => t | Fault _ => Tuple_default end.
Definition entry_lt (a b : HeapEntry) : bool := tuple_lt (at_ptr (he_tuple b)) (at_ptr (he_tuple a)).
(** The rows an entry still stands for. *)
Definition run_of (e : HeapEntry) : list Tuple :=
  drop (he_index e) (default [] (parts !! he_partition e)).
Definition rest (h : list HeapEntry) : list Tuple := concat (run_of <$> h).

Definition entry_ok (e : HeapEntry) : Prop :=
  he_tuple e = (he_partition e, he_index e) ∧
  ∃ part t, parts !! he_partition e = Some part ∧ part !! he_index e = Some t.

Lemma entry_deref e :
  entry_ok e → ∃ t l, deref parts (he_tuple e) = Ok t ∧ at_ptr (he_tuple e) = t ∧
    run_of e = t :: l ∧ t ∈ all ∧ (∀ y, y ∈ run_of e → row_le t y).
Proof.
  intros (Hp & part & t & Hpart & Ht). exists t, (drop (S (he_index e)) part).
  assert (deref parts (he_tuple e) = Ok t) as Hd
    by (rewrite Hp; unfold deref; cbn; rewrite Hpart; cbn; by rewrite Ht).
  assert (run_of e = t :: drop (S (he_index e)) part) as Hr.
  { unfold run_of. rewrite Hpart. cbn. by apply drop_S. }
  destruct (Hparts _ _ Hpart) as [Hs Hsub].
  assert (t ∈ all) as Hin by (apply Hsub; by eapply list_elem_of_lookup_2).
  split_and!; [done|unfold at_ptr; by rewrite Hd|done|done|].
  rewrite Hr. rewrite <- (take_drop (he_index e) part) in Hs.
  assert (drop (he_index e) part = t :: drop (S (he_index e)) part) as Hdr by by apply drop_S.
  rewrite Hdr in Hs. clear - Hs Hin Hsort.
  intros y [->|Hy]%elem_of_cons.
  - pose proof (gc_antisym _ _ (good_cmp_rows _ _ _ Hsort) t t Hin Hin). by destruct (rows_cmp _ _ t t).
  - induction (take _ part) as [|z l IH]; cbn in Hs; apply StronglySorted_inv in Hs as [Hs Hf]; [|by apply IH].
    rewrite Forall_forall in Hf. by apply Hf.
Qed.

Lemma heap_compares h :
  Forall entry_ok h → compares (heap_cmp (MakeComparator items schema) parts) entry_lt h.
Proof.
  rewrite Forall_forall. intros Hok.
  assert (∀ e, e ∈ h → at_ptr (he_tuple e) ∈ all) as Hin.
  { intros e He. destruct (entry_deref e (Hok e He)) as (t & l & _ & -> & _ & ? & _). done. }
  pose proof (rows_cmp_strict_weak items schema all Hsort) as Hsw.
  split; [|split].
  - intros a b Ha Hb. unfold heap_cmp.
    destruct (entry_deref a (Hok a Ha)) as (ta & la & Ea & Ea' & _ & Ia & _).
    destruct (entry_deref b (Hok b Hb)) as (tb & lb & Eb & Eb' & _ & Ib & _).
    rewrite Ea, Eb. cbn. unfold entry_lt. rewrite Ea', Eb', MakeComparator_sort_less.
    by apply (sort_less_cmp items schema all).
  - intros a Ha. apply (sw_irrefl _ _ Hsw). auto.
  - intros a b c Ha Hb Hc H1 H2. eapply (sw_trans _ _ Hsw); [..|exact H2|exact H1]; auto.
  - intros a b c Ha Hb Hc H1 H2. eapply (sw_incomp _ _ Hsw); [..|exact H2|exact H1]; auto.
Qed.

(** The first entry of the heap stands for a least row of those left. *)
Lemma heap_top_least x h :
  Forall entry_ok (x :: h) → is_heap entry_lt (x :: h) →
  ∀ y, y ∈ rest (x :: h) → row_le (at_ptr (he_tuple x)) y.
Proof.
  intros Hok Hh y Hy. pose proof (good_cmp_rows _ _ _ Hsort) as Hg.
  pose proof (is_heap_first _ _ _ (proj2 (heap_compares _ Hok)) Hh) as Hmax.
  rewrite Forall_forall in Hok. unfold rest in Hy.
  apply list_elem_of_In, in_concat in Hy as (l & Hl%list_elem_of_In & Hy%list_elem_of_In).
  apply list_elem_of_fmap in Hl as (e & -> & He).
  destruct (entry_deref e (Hok e He)) as (te & le & _ & Ee & Er & Ie & Hle).
  destruct (entry_deref x (Hok x ltac:(set_solver))) as (tx & lx & _ & Ex & _ & Ix & _).
  specialize (Hmax e He). unfold entry_lt, tuple_lt in Hmax. rewrite Ee, Ex in Hmax. rewrite Ex.
  assert (y ∈ all) as Iy.
  { unfold run_of in Hy. destruct (parts !! he_partition e) as [part|] eqn:Ep; cbn in Hy.
    - destruct (Hparts _ _ Ep) as [_ Hsub]. apply Hsub. apply list_elem_of_lookup in Hy as [i Hi].
      rewrite lookup_drop in Hi. by eapply list_elem_of_lookup_2.
    - rewrite drop_nil in Hy. by apply elem_of_nil in Hy. }
  apply (gc_trans _ _ Hg tx te y); [done|done|done| |by apply Hle].
  rewrite (gc_antisym _ _ Hg te tx) by done. by destruct (rows_cmp items schema te tx).
Qed.

#[local] Instance rest_perm : Proper ((≡ₚ) ==> (≡ₚ)) rest.
Proof. intros h h' H. unfold rest. rewrite <- !flat_map_concat_map. by apply Permutation_flat_map. Qed.

(** The entry after [x] in its partition. *)
Definition next_entry (x : HeapEntry) : HeapEntry :=
  mkHeapEntry (he_partition x, S (he_index x)) (he_partition x) (S (he_index x)).
Lemma run_next x part t :
  parts !! he_partition x = Some part → part !! he_index x = Some t →
  run_of x = t :: run_of (next_entry x) ∧
  ((S (he_index x) < length part)%nat → entry_ok (next_entry x)) ∧
  ((length part ≤ S (he_index x))%nat → run_of x = [t]).
Proof.
  intros Hp Ht. assert (run_of x = t :: run_of (next_entry x)) as Hr.
  { unfold run_of. cbn. rewrite Hp. cbn. by apply drop_S. }
  split_and!; [done| |].
  - intros Hlt. split; [done|]. destruct (lookup_lt_is_Some_2 part (S (he_index x)) Hlt) as [u Hu].
    by exists part, u.
  - intros Hge. rewrite Hr. unfold run_of. cbn. rewrite Hp. cbn. by rewrite drop_ge.
Qed.

Section next.
#[local] Arguments Nat.ltb : simpl never.
Context {S C : Type} `{!Operator S C} `{StdSort} `{StdHeapSpec} (task_order : nat → list nat).
#[local] Instance sort_operator : Operator S (ParallelSort C) := ParallelSort_Operator task_order.

Lemma merge_next (c : C) k x h :
  GetOutputSchema c = schema → Forall entry_ok (x :: h) → is_heap entry_lt (x :: h) →
  ∃ h', Next 0 (mkParallelSort c items k parts (x :: h) true)
        = (mkParallelSort c items k parts h' true, Ok (Some (at_ptr (he_tuple x)))) ∧
    Forall entry_ok h' ∧ is_heap entry_lt h' ∧ rest (x :: h) ≡ₚ at_ptr (he_tuple x) :: rest h'.
Proof.
  intros Hc Hok Hh.
  destruct (std_pop_heap_spec _ _ x h (heap_compares _ Hok) Hh) as (l & Hpop & Hl & Hhl).
  apply Forall_cons in Hok as [Hx Hok]. rewrite Hl in Hok.
  destruct (entry_deref x Hx) as (t & l0 & Ed & Et & _ & _ & _). rewrite Et.
  destruct Hx as (Hptr & part & t' & Hpart & Ht').
  assert (t' = t) as ->.
  { unfold at_ptr, deref in Et. rewrite Hptr in Et. cbn in Et.
    rewrite Hpart in Et. cbn in Et. by rewrite Ht' in Et. }
  destruct (run_next x part t Hpart Ht') as (Hr & Hnext & Hend).
  assert (rest (x :: h) ≡ₚ run_of x ++ rest l) as Hrest
    by (change (rest (x :: h)) with (run_of x ++ rest h); by rewrite Hl).
  cbn [Next ParallelSort_Operator]. unfold ParallelSort_Next, modifyM, bindM, getM, putM, liftM, cmp_. cbn.
  rewrite Hc, Hpop, last_snoc. cbn. rewrite Ed, Hpart, removelast_last. cbn.
  destruct (Nat.ltb_spec (Datatypes.S (he_index x)) (length part)) as [Hlt|Hge].
  - specialize (Hnext Hlt).
    assert (Forall entry_ok (l ++ [next_entry x])) as Hok'
      by (apply Forall_app; split; [done|by apply Forall_singleton]).
    destruct (std_push_heap_spec _ _ l (next_entry x) (heap_compares _ Hok') Hhl) as (h' & Hpush & Hp & Hhh).
    exists h'. fold (next_entry x). unfold bindM, liftM. rewrite Hpush.
    split_and!; [done|by rewrite <- Hp|done|].
    rewrite Hrest, Hr, <- Hp. unfold rest. rewrite fmap_app, concat_app. cbn. solve_Permutation.
  - exists l. split_and!; [done|done|done|]. rewrite Hrest, (Hend Hge). done.
Qed.

(** Merging hands out the rows left in order. *)
Lemma merge_yields (c : C) k : GetOutputSchema c = schema → ∀ m h,
  length (rest h) = m → Forall entry_ok h → is_heap entry_lt h →
  ∃ out, yields (S := S) 0 (mkParallelSort c items k parts h true) (mkStream out None) ∧
    out ≡ₚ rest h ∧ StronglySorted row_le out.
Proof.
  intros Hc m. induction m as [|m IH]; intros h Hm Hok Hh; (destruct h as [|x h]).
  - exists []. split_and!; [|done|constructor]. eapply yields_end; [|reflexivity]. done.
  - apply Forall_cons in Hok as [Hx _]. destruct (entry_deref x Hx) as (t & l & _ & _ & Hr & _ & _).
    unfold rest in Hm. cbn in Hm. by rewrite Hr in Hm.
  - done.
  - destruct (merge_next c k x h Hc Hok Hh) as (h' & Hn & Hok' & Hh' & Hp).
    pose proof (Permutation_length Hp) as Hlen. rewrite Hm in Hlen. injection Hlen as Hlen.
    destruct (IH h') as (out & Hy & Ho & Hs); [done..|].
    exists (at_ptr (he_tuple x) :: out). split_and!; [|by rewrite Hp, Ho|].
    + apply (yields_row _ _ (mkParallelSort c items k parts h' true) _ (mkStream out None)); [|done|done].
      intros fuel _. exact Hn.
    + constructor; [done|]. apply Forall_forall. intros y Hy'. apply (heap_top_least x h); [done|done|].
      rewrite Hp, <- Ho. by right.
Qed.
End next.
End merge.

(** ** The partitions *)
Definition chunk_size (k m : nat) : nat := let n := (k `min` m)%nat in ((m + n - 1) / n)%nat.
(** The last chunk does not begin past the end. *)
Definition chunks_fit (k m : nat) : Prop := ((k `min` m - 1) * chunk_size k m ≤ m)%nat.

Definition segment (all : list Tuple) (chunk i : nat) : list Tuple := take chunk (drop (i * chunk) all).
Lemma segments_concat all chunk n :
  concat (segment all chunk <$> seq 0 n) = take (n * chunk) all.
Proof.
  induction n as [|n IH]; [done|]. rewrite seq_S, fmap_app, concat_app, IH. cbn. rewrite app_nil_r.
  unfold segment. rewrite Nat.add_comm, <- (take_take_drop all (n * chunk) chunk). done.
Qed.
Lemma chunks_cover k m : (0 < k)%nat → (0 < m)%nat → (m ≤ k `min` m * chunk_size k m)%nat.
Proof.
  intros Hk Hm. unfold chunk_size. set (n := (k `min` m)%nat). assert (0 < n)%nat by lia.
  pose proof (Nat.div_mod_eq (m + n - 1) n). pose proof (Nat.mod_upper_bound (m + n - 1) n). nia.
Qed.

Lemma chunks_fit_square k m : ((k - 1) * (k - 1) ≤ m)%nat → chunks_fit k m.
Proof.
  intros Hsq. unfold chunks_fit, chunk_size. set (n := (k `min` m)%nat).
  destruct (decide (n = 0%nat)) as [->|Hn]; [lia|].
  assert ((n - 1) * (n - 1) ≤ m)%nat by (unfold n; nia).
  pose proof (Nat.div_mod_eq (m + n - 1) n) as Hd. set (c := ((m + n - 1) / n)%nat) in *. nia.
Qed.

Section tasks.
Context `{StdSortSpec} (items : list OrderByItem) (schema : Schema) (all : list Tuple) (chunk : nat).
Hypothesis Hsort : sortable items schema all.
Local Abbreviation row_le := (λ a b, rows_cmp items schema a b ≠ Gt).
Local Abbreviation cmp := (MakeComparator items schema).

Lemma sort_task_ok i parts :
  (i < length parts)%nat → (i * chunk ≤ length all)%nat →
  ∃ part, sort_task cmp all chunk i parts = Ok (<[i := part]> parts) ∧
    segment all chunk i ≡ₚ part ∧ StronglySorted row_le part.
Proof.
  intros Hi Hc. destruct (lookup_lt_is_Some_2 parts i Hi) as [p Hp].
  assert (take ((i * chunk + chunk) `min` length all - i * chunk) (drop (i * chunk) all)
    = segment all chunk i) as Hseg.
  { unfold segment. destruct (decide (i * chunk + chunk ≤ length all)%nat).
    - f_equal. lia.
    - rewrite !take_ge; [done|rewrite length_drop; lia..]. }
  destruct (std_sort_with cmp items schema (segment all chunk i) (MakeComparator_sort_less items schema))
    as (part & E & Hperm & Hs).
  { eapply sortable_subset; [|exact Hsort]. unfold segment. intros x [j Hj]%list_elem_of_lookup.
    apply lookup_take_Some in Hj as [Hj _]. rewrite lookup_drop in Hj. by eapply list_elem_of_lookup_2. }
  exists part. split_and!; [|done|done]. unfold sort_task. rewrite Hp. cbn.
  rewrite (proj2 (Nat.leb_le _ _)) by lia. cbn. rewrite Hseg, E. done.
Qed.
Lemma sort_task_past i parts :
  (i < length parts)%nat → (length all < i * chunk)%nat →
  sort_task cmp all chunk i parts = Fault Undefined.
Proof.
  intros Hi Hc. destruct (lookup_lt_is_Some_2 parts i Hi) as [p Hp]. unfold sort_task. rewrite Hp. cbn.
  by rewrite (proj2 (Nat.leb_gt _ _)) by lia.
Qed.

Lemma run_tasks_ok order parts :
  NoDup order → (∀ i, i ∈ order → (i < length parts)%nat ∧ (i * chunk ≤ length all)%nat) →
  ∃ parts', run_tasks cmp all chunk order parts = Ok parts' ∧ length parts' = length parts ∧
    (∀ i, i ∉ order → parts' !! i = parts !! i) ∧
    (∀ i, i ∈ order → ∃ part, parts' !! i = Some part ∧ segment all chunk i ≡ₚ part ∧
       StronglySorted row_le part).
Proof.
  intros Hnd. revert parts. induction Hnd as [|i order Hi Hnd IH]; intros parts Ho.
  { exists parts. split_and!; [done..|]. by intros i ?%elem_of_nil. }
  destruct (Ho i) as [Hlt Hc]; [set_solver|].
  destruct (sort_task_ok i parts Hlt Hc) as (part & E & Hp & Hs).
  destruct (IH (<[i := part]> parts)) as (parts' & E' & Hl & Hout & Hin).
  { intros j Hj. rewrite length_insert. apply Ho. set_solver. }
  exists parts'. cbn. rewrite E. cbn. rewrite length_insert in Hl. split_and!; [done|done|..].
  - intros j Hj. rewrite Hout by set_solver. rewrite list_lookup_insert_ne by set_solver. done.
  - intros j [->|Hj]%elem_of_cons; [|by apply Hin]. exists part. split_and!; [|done|done].
    rewrite Hout by done. by apply list_lookup_insert_eq.
Qed.
Lemma run_tasks_past order parts :
  NoDup order → (∀ i, i ∈ order → (i < length parts)%nat) →
  (∃ i, i ∈ order ∧ (length all < i * chunk)%nat) →
  run_tasks cmp all chunk order parts = Fault Undefined.
Proof.
  intros Hnd. revert parts. induction Hnd as [|i order Hi Hnd IH]; intros parts Ho (j & Hj & Hc).
  { by apply elem_of_nil in Hj. }
  assert (i < length parts)%nat as Hlt by (apply Ho; set_solver).
  destruct (decide (length all < i * chunk)%nat) as [Hpast|Hfit].
  { cbn. by rewrite sort_task_past. }
  destruct (sort_task_ok i parts Hlt ltac:(lia)) as (part & E & _). cbn. rewrite E. cbn. apply IH.
  - intros q Hq. rewrite length_insert. apply Ho. set_solver.
  - exists j. split; [|done]. apply elem_of_cons in Hj as [->|?]; [lia|done].
Qed.
End tasks.

Lemma heap_entries_ok parts pre :
  Forall (entry_ok (pre ++ parts)) (heap_entries (length pre) parts) ∧
  rest (pre ++ parts) (heap_entries (length pre) parts) = concat parts.
Proof.
  revert pre. induction parts as [|part parts IH]; intros pre; [done|].
  destruct (IH (pre ++ [part])) as [H1 H2]. rewrite length_app, Nat.add_1_r, <- app_assoc in H1, H2.
  cbn [app] in H1, H2. destruct part as [|t part]; [done|]. cbn [heap_entries].
  assert ((pre ++ (t :: part) :: parts) !! length pre = Some (t :: part)) as Hl
    by by rewrite list_lookup_middle.
  split.
  - constructor; [|done]. split; [done|]. by exists (t :: part), t.
  - unfold rest in *. cbn. rewrite H2. unfold run_of. cbn. by rewrite Hl.
Qed.

(** ** The operator *)
Section sort_theorems.
Context {S C : Type} `{opC : !Operator S C} `{!OperatorLaws S C}.
Context `{!StdSort} `{!StdSortSpec} `{!StdHeap} `{!StdHeapSpec} (task_order : nat → list nat).
Hypothesis Horder : ∀ n, task_order n ≡ₚ seq 0 n.
#[local] Instance psort_operator : Operator S (ParallelSort C) := ParallelSort_Operator task_order.

Lemma order_elem n i : i ∈ task_order n ↔ (i < n)%nat.
Proof. rewrite Horder, list_elem_of_In, in_seq. lia. Qed.
Lemma order_nodup n : NoDup (task_order n).
Proof. rewrite Horder. apply NoDup_ListNoDup, seq_NoDup. Qed.

(** The state after [Init] on a non-empty input. *)
Lemma sort_partitions_ok (c : C) items k all :
  sortable items (GetOutputSchema c) all → all ≠ [] → (0 < k)%nat → chunks_fit k (length all) →
  ∃ parts h, sort_partitions task_order all (mkParallelSort c items k [] [] false)
             = (mkParallelSort c items k parts h true, Ok tt) ∧
    (∀ p part, parts !! p = Some part →
       StronglySorted (λ a b, rows_cmp items (GetOutputSchema c) a b ≠ Gt) part ∧ part ⊆ all) ∧
    Forall (entry_ok parts) h ∧ is_heap (entry_lt items (GetOutputSchema c) parts) h ∧ rest parts h ≡ₚ all.
Proof.
  intros Hs Hne Hk Hfit. set (m := length all) in *. set (n := (k `min` m)%nat).
  assert (0 < m)%nat as Hm by (destruct all; [done|unfold m; cbn; lia]).
  assert (n ≠ 0%nat) as Hn by lia.
  destruct (run_tasks_ok items (GetOutputSchema c) all (chunk_size k m) Hs (task_order n) (replicate n []))
    as (parts & Hrun & Hlen & _ & Hin); [apply order_nodup| |].
  { intros i Hi%order_elem. rewrite length_replicate. split; [done|]. unfold chunks_fit in Hfit. fold n in Hfit.
    fold m. nia. }
  rewrite length_replicate in Hlen.
  assert (concat parts ≡ₚ all) as Hconcat.
  { rewrite <- (take_ge all (n * chunk_size k m)) by (apply chunks_cover; lia).
    rewrite <- segments_concat. symmetry. clear - Hin Hlen Horder.
    assert (Forall2 (λ i part, segment all (chunk_size k m) i ≡ₚ part) (seq 0 n) parts) as Hf2.
    { apply Forall2_same_length_lookup_2; [by rewrite length_seq|]. intros i j part [-> Hlt]%lookup_seq Hp.
      destruct (Hin i) as (part' & Hp' & Hseg & _); [by apply order_elem|]. rewrite Hp' in Hp. by injection Hp as <-. }
    clear Hin Hlen. induction Hf2 as [|i part js parts Hp _ IH]; [done|]. cbn. by rewrite Hp, IH. }
  assert (∀ p part, parts !! p = Some part →
    StronglySorted (λ a b, rows_cmp items (GetOutputSchema c) a b ≠ Gt) part ∧ part ⊆ all) as Hparts.
  { intros p part Hp. destruct (Hin p) as (part' & Hp' & Hseg & Hss).
    { apply order_elem. rewrite <- Hlen. by eapply lookup_lt_Some. }
    rewrite Hp' in Hp. injection Hp as <-. split; [done|]. intros x Hx. rewrite <- Hconcat.
    apply list_elem_of_In, in_concat. exists part'. split; apply list_elem_of_In; [|done].
    by eapply list_elem_of_lookup_2. }
  destruct (heap_entries_ok parts []) as [Hok Hrest]. cbn [app length] in Hok, Hrest.
  destruct (std_make_heap_spec _ _ (heap_entries 0 parts)
    (heap_compares items (GetOutputSchema c) all Hs parts Hparts _ Hok)) as (h & Hmake & Hp & Hh).
  exists parts, h. split_and!; [|done|by rewrite <- Hp|done|].
  - unfold sort_partitions, bindM, getM, defM, liftM, modifyM, putM, cmp_. cbn -[Nat.div]. fold m n.
    rewrite decide_False by done. cbn -[Nat.div]. change ((m + n - 1) / n)%nat with (chunk_size k m).
    fold n. rewrite Hrun. cbn. rewrite Hmake. done.
  - rewrite <- Hconcat, <- Hrest. unfold rest. rewrite <- !flat_map_concat_map. by apply Permutation_flat_map.
Qed.

#[local] Arguments sort_partitions : simpl never.
(** [Init] up to the sorting. *)
Lemma psort_init (I : S → Prop) (c : C) items k l s :
  delivers I c l → I s →
  ∃ N c' s' all, I s' ∧ GetOutputSchema c' = GetOutputSchema c ∧ all ≡ₚ l ∧
    ∀ fuel, (N ≤ fuel)%nat → Init fuel (ParallelSort_ctor c items k, s) =
      let r := match all with
               | [] => (mkParallelSort c' items k [] [] false, Ok tt)
               | _ => sort_partitions task_order all (mkParallelSort c' items k [] [] false)
               end in
      ((r.1, s'), r.2).
Proof.
  intros Hc Hi. destruct (Hc s Hi) as (N & c1 & s1 & all & Hi1 & Hs1 & Hsch1 & Hy1 & Hp1).
  destruct (drain_yields N c1 all Hy1) as (c2 & Hc2 & Hd). destruct (Close_ok c2) as (c3 & Hc3 & Hc3s).
  exists (N + Datatypes.S (length all))%nat, c3, s1, all. split_and!; [done|congruence|done|].
  intros fuel Hf. cbn. unfold ParallelSort_Init, on_op, zoomM, bindM, modifyM, getM, putM. cbn.
  rewrite Hi1 by lia. cbn. unfold on_po_child, zoomM. cbn. rewrite Hd by lia. cbn. rewrite Hc3. cbn.
  destruct all as [|t all]; [done|]. unfold set_po_child. cbn. by destruct (sort_partitions task_order _ _).
Qed.

Lemma ParallelSort_delivers (I : S → Prop) (c : C) items k l :
  delivers I c l → sortable items (GetOutputSchema c) l → (0 < k)%nat → chunks_fit k (length l) →
  delivers_some I (ParallelSort_ctor c items k)
    (λ out, out ≡ₚ l ∧ StronglySorted (λ a b, rows_cmp items (GetOutputSchema c) a b ≠ Gt) out).
Proof.
  intros Hc Hs Hk Hfit s Hi.
  destruct (psort_init I c items k l s Hc Hi) as (N & c' & s' & all & Hs' & Ec & Hp & Hinit).
  destruct (decide (all = [])) as [->|Hne].
  { exists N, (mkParallelSort c' items k [] [] false), s', [].
    split_and!; [exact Hinit|done|exact Ec| |done|constructor].
    eapply (yields_end _ _ (mkParallelSort c' items k [] [] false)); [|done]. done. }
  rewrite <- Ec. rewrite <- (Permutation_length Hp) in Hfit.
  destruct (sort_partitions_ok c' items k all) as (parts & h & E & Hparts & Hok & Hh & Hrest); [|done..|].
  { rewrite Ec. eapply sortable_subset; [|exact Hs]. intros x. by rewrite Hp. }
  destruct (merge_yields items (GetOutputSchema c') all ltac:(rewrite Ec;
      (eapply sortable_subset; [|exact Hs]); intros x; by rewrite Hp) parts Hparts task_order
      c' k eq_refl _ h eq_refl Hok Hh) as (out & Hy & Hout & Hsorted).
  exists N, (mkParallelSort c' items k parts h true), s', out.
  split; [|split; [done|split; [done|split; [|split]]]].
  - intros fuel Hf. rewrite (Hinit fuel Hf). destruct all; [done|]. cbn zeta. by rewrite E.
  - eapply yields_le; [exact Hy|lia].
  - by rewrite Hout, Hrest.
  - done.
Qed.

Lemma ParallelSort_past_end (I : S → Prop) (c : C) items k l s :
  delivers I c l → I s → sortable items (GetOutputSchema c) l → (0 < k)%nat →
  ¬ chunks_fit k (length l) →
  ∃ N, ∀ fuel, (N ≤ fuel)%nat → (Init fuel (ParallelSort_ctor c items k, s)).2 = Fault Undefined.
Proof.
  intros Hc Hi Hs Hk Hfit.
  destruct (psort_init I c items k l s Hc Hi) as (N & c' & s' & all & Hs' & Ec & Hp & Hinit).
  rewrite <- (Permutation_length Hp) in Hfit. exists N. intros fuel Hf. rewrite (Hinit fuel Hf). cbn zeta.
  assert (all ≠ []) as Hne.
  { intros ->. apply Hfit. unfold chunks_fit. cbn. lia. }
  assert ((sort_partitions task_order all (mkParallelSort c' items k [] [] false)).2 = Fault Undefined) as E.
  2: { destruct all; [done|exact E]. }
  set (m := length all) in *. set (n := (k `min` m)%nat).
  assert (n ≠ 0%nat) as Hn by (destruct all; [done|unfold n, m; cbn; lia]).
  unfold sort_partitions, bindM, getM, defM, liftM, cmp_. cbn -[Nat.div]. fold m n.
  rewrite decide_False by done. cbn -[Nat.div]. fold n. change ((m + n - 1) / n)%nat with (chunk_size k m). rewrite Ec.
  rewrite (run_tasks_past items (GetOutputSchema c) all (chunk_size k m)); [done|..].
  - eapply sortable_subset; [|exact Hs]. intros x. by rewrite Hp.
  - apply order_nodup.
  - intros i Hi'%order_elem. by rewrite length_replicate.
  - exists (n - 1)%nat. split; [apply order_elem; lia|]. unfold chunks_fit in Hfit. fold n in Hfit. fold m. lia.
Qed.
End sort_theorems.
