(* ===== verification/ParallelTheorems.v ===== *)
(** * Parallel operators: main theorems

    Each parallel operator against its sequential counterpart, for every fair
    schedule of the threads, and where it differs. *)
From stdpp Require Import base gmap list strings sorting pretty.
From Stdlib Require Import ZArith Lia Ascii.
From S2P Require Import Prelude Types DiskManager PageCache BufferPool BufferPoolSpec BufferPoolTheorems HeapFile HeapFileSpec HeapFileTheorems Catalog Ast Executor ExecutorSpec ExecutorSort ExecutorJoin PlannerSpec Planner ExecutorTheorems LockFreeHashTable ParallelFor ParallelSeqScan ParallelHashJoin ParallelSort.

(** ** Keys of type INT *)
Definition int_keys (key : Expr) (schema : Schema) (l : list Tuple) : Prop :=
  ∀ t, t ∈ l → ∃ v, EvalExpr key t schema = Ok v ∧ GetType v = INT.

Lemma pretty_N_go_length x s : (String.length s ≤ String.length (pretty_N_go x s))%nat.
Proof.
  revert s. induction (N.lt_wf_0 x) as [x _ IH]; intros s.
  destruct (decide (0 < x)%N) as [Hx|Hx].
  - rewrite pretty_N_go_step by done. etransitivity; [|apply IH, N.div_lt; [done|reflexivity]]. cbn. lia.
  - assert (x = 0%N) as -> by lia. done.
Qed.
Lemma to_string_nonempty z : to_string z ≠ ""%string.
Proof.
  unfold to_string, pretty, pretty_Z. destruct z as [|p|p]; [done| |done].
  unfold pretty, pretty_positive, pretty, pretty_N. rewrite decide_False by done.
  rewrite pretty_N_go_step by lia. intros E.
  pose proof (pretty_N_go_length (N.pos p `div` 10)
    (String (pretty_N_char (N.pos p `mod` 10)) "")) as Hl. rewrite E in Hl. cbn in Hl. lia.
Qed.
Lemma same_key_int a b t u : same_key (to_string a, t) (to_string b, u) = (a =? b).
Proof.
  unfold same_key, str_eqb. cbn. rewrite (bool_decide_false _ (to_string_nonempty b)), andb_true_r.
  destruct (Z.eqb_spec a b) as [->|Hne]; [by rewrite bool_decide_true|].
  apply bool_decide_false. intros E. apply Hne. by apply (inj to_string).
Qed.

Lemma keyed_int_keys key schema l :
  int_keys key schema l →
  keyed_int key schema l = Ok (with_keys key schema l) ∧
  keyed key schema l = Ok ((λ e, (to_string e.1, e.2)) <$> with_keys key schema l).
Proof.
  intros Hk. unfold keyed_int, keyed, with_keys. rewrite !oall_Forall2. split.
  - apply Forall2_fmap_r, Forall_Forall2_diag, Forall_forall. intros t Ht.
    destruct (Hk t Ht) as (v & Hv & _). cbn. unfold key_of, key_int. by rewrite Hv.
  - rewrite <- list_fmap_compose. apply Forall2_fmap_r, Forall_Forall2_diag, Forall_forall. intros t Ht.
    destruct (Hk t Ht) as (v & Hv & Hty). cbn. unfold key_string, key_of, key_int. rewrite Hv. cbn.
    unfold ToString, AsInt, GetType in *. by rewrite Hty.
Qed.
Lemma join_pairs_int kl kr :
  join_pairs ((λ e, (to_string e.1, e.2)) <$> kl) ((λ e, (to_string e.1, e.2)) <$> kr) = int_pairs kl kr.
Proof.
  unfold join_pairs, int_pairs, with_key. rewrite <- list_fmap_compose. f_equal.
  apply list_fmap_ext. intros i [k r] _. cbn. rewrite <- list_fmap_compose.
  induction kl as [|[k' l] kl IH]; [done|]. cbn. rewrite same_key_int. destruct (k' =? k); cbn; by rewrite IH.
Qed.
Lemma ref_join_int lk rk ls rs lrows rrows :
  int_keys lk ls lrows → int_keys rk rs rrows →
  ref_int_join lk rk ls rs lrows rrows = ref_join lk rk ls rs lrows rrows.
Proof.
  intros [Hl Hl']%keyed_int_keys [Hr Hr']%keyed_int_keys. unfold ref_int_join, ref_join.
  rewrite Hl, Hr, Hl', Hr'. cbn. by rewrite join_pairs_int.
Qed.

(** ** Theorems *)

(** C15. The parallel scan is the scan: under every fair schedule of its threads,
    however their page claims, fetches, reads and unpins interleave, [Init] ends
    and [Next] hands out the rows of the table, each exactly once, that [SeqScan]
    produces, in some order; all pins are released.  The pool must have a frame
    for every thread. *)
Theorem ParallelSeqScan_correct {S : Type} {PC : PageCache S} {PCS : PageCacheSpec S} (σ : Schedule)
    ti alias k st pins cap ps :
  pins_low pins → (0 < k)%nat → (size pins + k ≤ cap)%nat → fair k σ → calm σ →
  heap_rep (ti_heap_file ti) st ps →
  produces (S := S) (stored st pins cap) (SeqScan_ctor ti alias) (mkStream (chain_entries ps).*2 None) ∧
  delivers (H := ParallelSeqScan_Operator σ) (stored (S := S) st pins cap)
    (ParallelSeqScan_ctor ti alias k) (chain_entries ps).*2 ∧
  ps_output_schema (ParallelSeqScan_ctor ti alias k) = ss_output_schema (SeqScan_ctor ti alias).
Proof.
  intros Hlow Hk Hcap Hf Hc Hrep. split_and!; [|by apply ParallelSeqScan_delivers|done].
  apply SeqScan_produces; [done|lia|done].
Qed.

Section join.
Context {S L R PL PR : Type} `{opL : !Operator S L} `{opR : !Operator S R}.
Context `{opPL : !Operator S PL} `{opPR : !Operator S PR}.
Context `{!OperatorLaws S L} `{!OperatorLaws S R} `{!OperatorLaws S PL} `{!OperatorLaws S PR}.
Context `{!Malloc} `{!MallocSpec} (σb σp : Schedule) (I : S → Prop).

(** C14. On INT keys the parallel hash join is the hash join: from children that
    hand out the same rows in any order, under every fair schedule of the build
    and probe threads and of the atomic steps of their concurrent inserts, it
    hands out the rows [HashJoin] produces, in some order. *)
Theorem ParallelHashJoin_correct (l : L) (r : R) (pl : PL) (pr : PR) lk rk k nb lrows rrows out :
  produces I l (mkStream lrows None) → produces I r (mkStream rrows None) →
  delivers I pl lrows → delivers I pr rrows →
  GetOutputSchema pl = GetOutputSchema l → GetOutputSchema pr = GetOutputSchema r →
  int_keys lk (GetOutputSchema l) lrows → int_keys rk (GetOutputSchema r) rrows →
  (0 < k)%nat → 0 < nb → fair k σb → calm σb → fair k σp → calm σp →
  ref_join lk rk (GetOutputSchema l) (GetOutputSchema r) lrows rrows = Ok out →
  produces I (HashJoin_ctor (S := S) l r lk rk) (mkStream out None) ∧
  delivers (H := ParallelHashJoin_Operator σb σp) I (ParallelHashJoin_ctor (S := S) pl pr lk rk k nb) out.
Proof.
  intros Hl Hr Hpl Hpr El Er Hkl Hkr Hk Hnb Hfb Hcb Hfp Hcp Hj. split.
  - apply ref_join_stream in Hj as ([ht Hb] & <-). by eapply HashJoin_produces.
  - eapply ParallelHashJoin_delivers; [exact Hpl|exact Hpr|done..|]. rewrite El, Er. by rewrite ref_join_int.
Qed.

(** C38. On VARCHAR keys the parallel hash join pairs every left row with every
    right row: the key is [AsInt()], which is 0 for every string. *)
Theorem ParallelHashJoin_varchar_cross (pl : PL) (pr : PR) lk rk k nb lrows rrows out :
  delivers I pl lrows → delivers I pr rrows →
  (∀ t, t ∈ lrows → ∃ s n, EvalExpr lk t (GetOutputSchema pl) = Ok (MakeVarchar s n)) →
  (∀ t, t ∈ rrows → ∃ s n, EvalExpr rk t (GetOutputSchema pr) = Ok (MakeVarchar s n)) →
  (0 < k)%nat → 0 < nb → fair k σb → calm σb → fair k σp → calm σp →
  oall (λ p, Concat p.1 p.2 (GetOutputSchema pl) (GetOutputSchema pr))
    (concat ((λ r, (λ l, (l, r)) <$> lrows) <$> rrows)) = Ok out →
  delivers (H := ParallelHashJoin_Operator σb σp) I (ParallelHashJoin_ctor (S := S) pl pr lk rk k nb) out.
Proof.
  intros Hpl Hpr Hkl Hkr Hk Hnb Hfb Hcb Hfp Hcp Hj.
  eapply ParallelHashJoin_delivers; [exact Hpl|exact Hpr|done..|].
  assert (∀ key sch l, (∀ t, t ∈ l → ∃ s n, EvalExpr key t sch = Ok (MakeVarchar s n)) →
    keyed_int key sch l = Ok ((λ t, (0, t)) <$> l)) as Hkeyed.
  { intros key sch l Hv. apply oall_Forall2, Forall2_fmap_r, Forall_Forall2_diag, Forall_forall.
    intros t Ht. destruct (Hv t Ht) as (s & n & E). unfold key_int. by rewrite E. }
  unfold ref_int_join. rewrite (Hkeyed _ _ _ Hkl), (Hkeyed _ _ _ Hkr). cbn.
  assert (with_key 0 ((λ t, (0, t)) <$> lrows) = lrows) as Hw.
  { unfold with_key. clear. induction lrows as [|t l IH]; [done|]. cbn. by rewrite IH. }
  assert (int_pairs ((λ t, (0, t)) <$> lrows) ((λ t, (0, t)) <$> rrows)
    = concat ((λ r, (λ l, (l, r)) <$> lrows) <$> rrows)) as ->; [|done].
  unfold int_pairs. f_equal. rewrite <- list_fmap_compose. apply list_fmap_ext. intros i t _. cbn.
  by rewrite Hw.
Qed.
End join.

Section sort.
Context {S C : Type} `{opC : !Operator S C} `{!OperatorLaws S C}.
Context `{!StdSort} `{!StdSortSpec} `{!StdHeap} `{!StdHeapSpec} (task_order : nat → list nat) (I : S → Prop).

(** C16. The parallel sort sorts: whatever the order in which the sorting tasks
    run, the k-way merge hands out a permutation of the child's rows in the
    lexicographic order of the ORDER BY keys, as [Sort] does, provided that the
    chunks fit: the last chunk does not begin past the end of the rows.  They do
    whenever the number of rows is at least the square of the number of threads
    less one ([chunks_fit_square]), and for many smaller inputs (3 or 6 rows on 4
    threads, 8 rows on 8); where they do not, the sort is undefined (C39). *)
Theorem ParallelSort_correct (c : C) items k l :
  (∀ n, task_order n ≡ₚ seq 0 n) → delivers I c l → sortable items (GetOutputSchema c) l →
  (0 < k)%nat → ((k `min` length l - 1) * chunk_size k (length l) ≤ length l)%nat →
  delivers_some (H := ParallelSort_Operator task_order) I (ParallelSort_ctor c items k)
    (λ out, out ≡ₚ l ∧ StronglySorted (λ a b, rows_cmp items (GetOutputSchema c) a b ≠ Gt) out).
Proof. intros. by apply ParallelSort_delivers. Qed.

(** C39. The parallel sort on too few rows is undefined: when the last chunk
    begins past the end of the rows (5 rows on 4 threads: chunks of 2, the fourth
    from row 6), its task forms the range [[begin + 6, begin + 5)]. *)
Theorem ParallelSort_undefined (c : C) items k l s :
  (∀ n, task_order n ≡ₚ seq 0 n) → delivers I c l → I s → sortable items (GetOutputSchema c) l →
  (0 < k)%nat → (length l < (k `min` length l - 1) * chunk_size k (length l))%nat →
  ∃ N, ∀ fuel, (N ≤ fuel)%nat →
    (Init (Operator := ParallelSort_Operator task_order) fuel (ParallelSort_ctor c items k, s)).2
    = Fault Undefined.
Proof.
  intros Ho Hc Hi Hs Hk Hpast. eapply ParallelSort_past_end; [done|exact Hc|done..|].
  unfold chunks_fit. lia.
Qed.
End sort.

(** ** On literal rows *)
Definition round_robin (k : nat) : Schedule := λ time, mkPick (time mod k) false.
Lemma round_robin_fair k : (0 < k)%nat → fair k (round_robin k).
Proof.
  intros Hk time tid Ht. exists ((k - time mod k) + tid)%nat. unfold round_robin. f_equal.
  pose proof (Nat.div_mod_eq time k) as Hd. pose proof (Nat.mod_upper_bound time k ltac:(lia)).
  replace (time + (k - time mod k + tid))%nat with (tid + (time / k + 1) * k)%nat by nia.
  rewrite Nat.Div0.mod_add. by apply Nat.mod_small.
Qed.
Lemma round_robin_calm k : calm (round_robin k).
Proof. by exists 0%nat. Qed.

#[local] Instance fresh_malloc : Malloc := λ ns, fresh (dom ns).
#[local] Instance fresh_malloc_spec : MallocSpec.
Proof. intros ns. apply (not_elem_of_dom (D := gset addr)). exact (is_fresh (dom ns)). Qed.

(** A list sorted from the largest element on is a heap. *)
Definition sort_heap (less : HeapEntry → HeapEntry → outcome bool) (l : list HeapEntry)
    : outcome (list HeapEntry) :=
  insertion_sort (λ a b, less b a) l.
#[local] Instance SortedHeap : StdHeap := {
  std_make_heap := sort_heap;
  std_push_heap := sort_heap;
  std_pop_heap less l :=
    match l with
    | [] => Ok []
    | x :: l => r <-! sort_heap less l ;; Ok (r ++ [x])
    end
}.
Lemma sort_heap_spec less lt l k :
  compares less lt l → k ⊆ l → ∃ k', sort_heap less k = Ok k' ∧ k ≡ₚ k' ∧ is_heap lt k'.
Proof.
  intros [Hless [H1 H2 H3]] Hk.
  destruct (insertion_sort_spec (λ a b, less b a) (λ a b, lt b a) l) with (k := k)
    as (k' & E & Hp & Hs); [auto| |done|].
  { split; [done|..]; intros a b c Ha Hb Hc ? ?; [by eapply (H2 c b a)|by eapply (H3 c b a)]. }
  exists k'. split_and!; [done|done|]. intros i a b Hi Hb.
  assert (i / 2 < Datatypes.S i)%nat as Hlt by (pose proof (Nat.Div0.div_le_upper_bound i 2 i); lia).
  revert Hlt Hi Hb. generalize (i / 2)%nat (Datatypes.S i). clear - Hs.
  induction Hs as [|x k' _ IH Hx]; intros p q Hpq Hp Hq; [done|].
  destruct q as [|q]; [lia|]. destruct p as [|p]; [|apply (IH p q); [lia|done|done]].
  injection Hp as ->. rewrite Forall_forall in Hx. by apply Hx, (list_elem_of_lookup_2 _ q).
Qed.
#[local] Instance SortedHeap_spec : StdHeapSpec.
Proof.
  split.
  - intros less lt l Hc. by apply (sort_heap_spec less lt l l).
  - intros less lt l x Hc _. by apply (sort_heap_spec less lt (l ++ [x]) (l ++ [x])).
  - intros less lt x l Hc _. destruct (sort_heap_spec less lt (x :: l) l) as (l' & E & Hp & Hh); [done|set_solver|].
    exists l'. cbn. rewrite E. done.
Qed.

(** A table of two rows in a pool of two frames. *)
Lemma demo_table :
  ∃ ti st ps s, stored (S := BufferPoolManager) st ∅ 2 s ∧ heap_rep (ti_heap_file ti) st ps ∧
    (chain_entries ps).*2 = [demo_row "a"%char; demo_row "b"%char].
Proof.
  destruct (HeapFile_create_spec demo_schema (BufferPoolManager_ctor 2 blank_disk) ∅ ∅)
    as (s & d & _ & _ & Hcap & Hr & Hrep);
    [apply blank_pool_inv; lia|vm_compute; reflexivity|vm_compute; lia|vm_compute; split; congruence|].
  destruct (insert_all_spec [demo_row "a"%char; demo_row "b"%char] (mkHeapFile demo_schema 0 0) s
    {[0 := d]} ∅ [(0, [])]) as (hf & s' & st & ps & rids & _ & Hr' & Hc' & Hst & _ & Hl & He);
    [exact Hr|apply pins_low_empty|by rewrite Hcap; vm_compute; lia|rewrite map_size_singleton; vm_compute; reflexivity
    |exact Hrep|done|by repeat constructor|].
  exists (mkTableInfo "t" demo_schema hf 0), st, ps, s'. split_and!.
  - split; [exact Hr'|by rewrite Hc', Hcap].
  - apply Hst.
  - rewrite He. cbn [chain_entries app fmap list_fmap concat page_entries imap].
    destruct rids as [|r1 [|r2 [|]]]; done.
Qed.
Lemma ParallelSeqScan_correct_witness :
  ∃ ti st s, stored (S := BufferPoolManager) st ∅ 2 s ∧
    delivers (H := ParallelSeqScan_Operator (round_robin 2)) (stored (S := BufferPoolManager) st ∅ 2)
      (ParallelSeqScan_ctor ti "t" 2) [demo_row "a"%char; demo_row "b"%char].
Proof.
  destruct demo_table as (ti & st & ps & s & Hs & Hrep & Hrows). exists ti, st, s. split; [exact Hs|].
  rewrite <- Hrows. apply (ParallelSeqScan_correct (round_robin 2) ti "t" 2 st ∅ 2 ps).
  - apply pins_low_empty.
  - lia.
  - vm_compute. lia.
  - apply round_robin_fair. lia.
  - apply round_robin_calm.
  - exact Hrep.
Defined.

#[local] Existing Instance Source_Operator.
#[local] Existing Instance Source_laws.
#[local] Existing Instance InsertionSort.
#[local] Existing Instance InsertionSort_spec.
Lemma Source_delivers l sch : delivers (λ _, True) (mkSource l sch) l.
Proof. apply produces_delivers, Source_produces. Qed.
Lemma int_keys_ints l :
  int_keys (ref "a") (int_schema "a") (ints l) ∧ int_keys (ref "b") (int_schema "b") (ints l).
Proof. split; intros t (z & -> & _)%list_elem_of_fmap; eexists; split; reflexivity. Qed.
Lemma ParallelHashJoin_correct_witness :
  delivers (S := unit) (H := ParallelHashJoin_Operator (round_robin 2) (round_robin 2)) (λ _, True)
    (ParallelHashJoin_ctor (S := unit) (mkSource (ints [1; 2; 1]) (int_schema "a"))
       (mkSource (ints [2; 1; 3]) (int_schema "b")) (ref "a") (ref "b") 2 4)
    [mkTuple (le_bytes 4 2 ++ le_bytes 4 2); mkTuple (le_bytes 4 1 ++ le_bytes 4 1);
     mkTuple (le_bytes 4 1 ++ le_bytes 4 1)].
Proof.
  apply (ParallelHashJoin_correct (S := unit) (round_robin 2) (round_robin 2) (λ _, True)
    (mkSource (ints [1; 2; 1]) (int_schema "a")) (mkSource (ints [2; 1; 3]) (int_schema "b"))
    (mkSource (ints [1; 2; 1]) (int_schema "a")) (mkSource (ints [2; 1; 3]) (int_schema "b"))
    (ref "a") (ref "b") 2 4 (ints [1; 2; 1]) (ints [2; 1; 3])).
  - apply Source_produces.
  - apply Source_produces.
  - apply Source_delivers.
  - apply Source_delivers.
  - reflexivity.
  - reflexivity.
  - apply int_keys_ints.
  - apply int_keys_ints.
  - lia.
  - lia.
  - apply round_robin_fair. lia.
  - apply round_robin_calm.
  - apply round_robin_fair. lia.
  - apply round_robin_calm.
  - vm_compute. reflexivity.
Defined.

Definition str_row (c : ascii) : Tuple := mkTuple (memset 4 c).
Lemma ParallelHashJoin_varchar_cross_witness :
  delivers (S := unit) (H := ParallelHashJoin_Operator (round_robin 2) (round_robin 2)) (λ _, True)
    (ParallelHashJoin_ctor (S := unit) (mkSource [str_row "x"%char] (str_schema "a"))
       (mkSource [str_row "y"%char] (str_schema "b")) (ref "a") (ref "b") 2 4)
    [mkTuple (memset 4 "x"%char ++ memset 4 "y"%char)].
Proof.
  apply (ParallelHashJoin_varchar_cross (S := unit) (round_robin 2) (round_robin 2) (λ _, True)
    (mkSource [str_row "x"%char] (str_schema "a")) (mkSource [str_row "y"%char] (str_schema "b"))
    (ref "a") (ref "b") 2 4 [str_row "x"%char] [str_row "y"%char]).
  - apply Source_delivers.
  - apply Source_delivers.
  - intros t ->%list_elem_of_singleton. exists "xxxx"%string, 4. vm_compute. reflexivity.
  - intros t ->%list_elem_of_singleton. exists "yyyy"%string, 4. vm_compute. reflexivity.
  - lia.
  - lia.
  - apply round_robin_fair. lia.
  - apply round_robin_calm.
  - apply round_robin_fair. lia.
  - apply round_robin_calm.
  - vm_compute. reflexivity.
Defined.

(** Three rows on four threads. *)
Lemma ParallelSort_correct_witness :
  delivers_some (S := unit) (H := ParallelSort_Operator (λ n, rev (seq 0 n))) (λ _, True)
    (ParallelSort_ctor (mkSource (ints [3; 1; 2]) (int_schema "a")) [mkOrderByItem (ref "a") false] 4)
    (λ out, out ≡ₚ ints [3; 1; 2] ∧
      StronglySorted (λ a b, rows_cmp [mkOrderByItem (ref "a") false]
        (GetOutputSchema (mkSource (ints [3; 1; 2]) (int_schema "a"))) a b ≠ Gt) out).
Proof.
  apply (ParallelSort_correct (S := unit) (λ n, rev (seq 0 n)) (λ _, True)
    (mkSource (ints [3; 1; 2]) (int_schema "a")) [mkOrderByItem (ref "a") false] 4 (ints [3; 1; 2])).
  - intros n. symmetry. apply Permutation_rev.
  - apply Source_delivers.
  - apply sortable_ints.
  - lia.
  - vm_compute. lia.
Defined.

(** Five rows on four threads. *)
Lemma ParallelSort_undefined_witness :
  ∃ N, ∀ fuel, (N ≤ fuel)%nat →
    (Init (Operator := ParallelSort_Operator (S := unit) (λ n, seq 0 n)) fuel
       (ParallelSort_ctor (mkSource (ints [3; 1; 2; 5; 4]) (int_schema "a"))
          [mkOrderByItem (ref "a") true] 4, tt)).2 = Fault Undefined.
Proof.
  apply (ParallelSort_undefined (S := unit) (λ n, seq 0 n) (λ _, True)
    (mkSource (ints [3; 1; 2; 5; 4]) (int_schema "a")) [mkOrderByItem (ref "a") true] 4
    (ints [3; 1; 2; 5; 4])).
  - intros n. reflexivity.
  - apply Source_delivers.
  - exact Logic.I.
  - apply sortable_ints.
  - lia.
  - vm_compute. lia.
Defined.

(** ** Too few frames

    Two pages of one row each in a pool of one frame: while the first thread has
    its page pinned, the second thread's [FetchPage] fails and [ScanPage] returns
    without a row. *)
Definition two_pages : BufferPoolManager * option HeapFile :=
  match HeapFile_create (wide_schema 4088) (BufferPoolManager_ctor 1 blank_disk) with
  | (s, Ok hf) =>
      let r := insert_all [mkTuple (memset 4088 "a"%char); mkTuple (memset 4088 "b"%char)] (hf, s) in
      (r.1.2, Some r.1.1)
  | (s, Fault _) => (s, None)
  end.
Definition scanned_rows (σ : Schedule) : option (nat * nat) :=
  hf ← two_pages.2;
  let ti := mkTableInfo "t" (wide_schema 4088) hf 0 in
  let seq := SeqScan_Init 10 (SeqScan_ctor ti "", two_pages.1) in
  let par := ParallelSeqScan_Init σ 20 (ParallelSeqScan_ctor ti "" 2, two_pages.1) in
  match seq.2, par.2 with
  | Ok _, Ok _ => Some (length (ss_buffer seq.1.1), length (ps_buffer par.1.1))
  | _, _ => None
  end.
(** The sequential scan has both rows, the parallel one reports success with one. *)
Example parallel_scan_loses_rows : scanned_rows (round_robin 2) = Some (2, 1)%nat.
Proof. vm_compute. reflexivity. Qed.
