(* ===== verification/Repl.v ===== *)
(** * The read-eval-print loop: [src/src/main.cpp]

    Standard input is a list of lines, standard output and error a list of what
    was written.  [std::string::size] is the number of bytes. *)
From stdpp Require Import base gmap list strings.
From Stdlib Require Import ZArith Lia Ascii.
From S2P Require Import Prelude Types DiskManager PageCache BufferPool BufferPoolSpec Ast Parser Catalog Executor ExecutorSort Planner Database.

Definition newline : string := String "010"%char EmptyString.
(** [std::string(n, c)]. *)
Fixpoint fill (n : nat) (c : ascii) : string :=
  match n with O => EmptyString | S n => String c (fill n c) end.

(** *** PrintResult *)

(** [widths[i] = std::max(widths[i], row[i].size())] for every cell. *)
Fixpoint widen (widths : list nat) (row : list string) : outcome (list nat) :=
  match row, widths with
  | [], _ => Ok widths
  | _ :: _, [] => Fault Undefined
  | cell :: row, w :: widths =>
      ws <-! widen widths row ;; Ok ((w `max` String.length cell)%nat :: ws)
  end.
Fixpoint widen_all (widths : list nat) (rows : list (list string)) : outcome (list nat) :=
  match rows with
  | [] => Ok widths
  | row :: rows => widths <-! widen widths row ;; widen_all widths rows
  end.
Fixpoint dashes (widths : list nat) : string :=
  match widths with
  | [] => EmptyString
  | w :: widths => fill (w + 2) "-" +:+ "+" +:+ dashes widths
  end.
(** The lambda [separator]. *)
Definition separator (widths : list nat) : string := "+" +:+ dashes widths +:+ newline.
(** [" " << row[i] << std::string(widths[i] - row[i].size(), ' ') << " |"] for
    every cell; where the difference wraps, the constructor throws
    [std::length_error]. *)
Fixpoint cells (widths : list nat) (row : list string) : outcome string :=
  match row, widths with
  | [], _ => Ok EmptyString
  | _ :: _, [] => Fault Undefined
  | cell :: row, w :: widths =>
      if (w <? String.length cell)%nat then Fault (Throw "basic_string::_M_create") else
      rest <-! cells widths row ;;
      Ok (" " +:+ cell +:+ fill (w - String.length cell) " " +:+ " |" +:+ rest)
  end.
Definition print_line (widths : list nat) (row : list string) : outcome string :=
  s <-! cells widths row ;; Ok ("|" +:+ s +:+ newline).
Fixpoint print_lines (widths : list nat) (rows : list (list string)) : outcome (list string) :=
  match rows with
  | [] => Ok []
  | row :: rows =>
      s <-! print_line widths row ;; ss <-! print_lines widths rows ;; Ok (s :: ss)
  end.
Fixpoint concat_strings (l : list string) : string :=
  match l with [] => EmptyString | s :: l => s +:+ concat_strings l end.

Definition PrintResult (result : QueryResult) : outcome string :=
  if negb (bool_decide (qr_message result = ""%string)) then Ok (qr_message result +:+ newline) else
  match qr_rows result with
  | [] => Ok ("(0 rows)" +:+ newline)
  | rows =>
      widths <-! widen_all (String.length <$> qr_columns result) rows ;;
      header <-! print_line widths (qr_columns result) ;;
      body <-! print_lines widths rows ;;
      Ok (separator widths +:+ header +:+ separator widths +:+ concat_strings body +:+ separator widths
          +:+ to_string (Z.of_nat (length rows)) +:+ " row(s)" +:+ newline)
  end.

(** *** The loop *)
Inductive Output := Stdout (text : string) | Stderr (text : string).

(** [accumulated.back() == ';']. *)
Fixpoint ends_with_semicolon (s : string) : bool :=
  match s with
  | EmptyString => false
  | String c EmptyString => bool_decide (c = ";"%char)
  | String _ s => ends_with_semicolon s
  end.
Definition prompt (accumulated : string) : Output :=
  Stdout (if bool_decide (accumulated = ""%string) then "mydb> " else "   ...> ").

Section repl.
Context {S : Type} {PC : PageCache S} `{StdSort} (fuel : nat).

(** [try { PrintResult(db.Execute(accumulated)); } catch (const std::exception& e) ...]. *)
Definition run_statement (sql : string) : M (Catalog * S) (list Output) := λ d,
  match (r <- Execute fuel sql ;; liftM (PrintResult r)) d with
  | (d', Ok text) => (d', Ok [Stdout text])
  | (d', Fault (Throw msg)) => (d', Ok [Stderr ("Error: " +:+ msg +:+ newline)])
  | (d', Fault f) => (d', Fault f)
  end.

Fixpoint repl_loop (lines : list string) (accumulated : string) : M (Catalog * S) (list Output) :=
  match lines with
  | [] => retM [prompt accumulated]
  | line :: lines =>
      if bool_decide (line = ".quit"%string) || bool_decide (line = ".exit"%string)
      then retM [prompt accumulated]
      else if bool_decide (line = ""%string) then
        rest <- repl_loop lines accumulated ;; retM (prompt accumulated :: rest)
      else
        let next := accumulated +:+ (if bool_decide (accumulated = ""%string) then "" else " ") +:+ line in
        if ends_with_semicolon next then
          out <- run_statement next ;;
          rest <- repl_loop lines "" ;;
          retM (prompt accumulated :: out ++ rest)
        else
          rest <- repl_loop lines next ;; retM (prompt accumulated :: rest)
  end.
End repl.

(** [main]: an exception of the constructor is not caught. *)
Definition banner : string := "mydb — type SQL or .quit to exit" +:+ newline.
Definition main `{StdSort} (fs : FileSystem) (argv : list string) (fuel : nat) (input : list string)
    : outcome (list Output) :=
  let db_path := match argv with _ :: path :: _ => path | _ => "mydb.db"%string end in
  match Database_ctor fs db_path default_pool_size with
  | Ok d => out <-! (repl_loop fuel input "" d).2 ;; Ok (Stdout banner :: out)
  | Fault (Throw _) => Fault Terminate
  | Fault f => Fault f
  end.

(** ** Tables are rectangular *)
Definition rectangular (r : QueryResult) : Prop :=
  Forall (λ row, length row = length (qr_columns r)) (qr_rows r).

Lemma render_row_length t schema n : ∀ i row, render_row t schema i n = Ok row → length row = n.
Proof.
  induction n as [|n IH]; intros i row; cbn; [by intros [= <-]|].
  intros (v & _ & (vs & Hvs & [= <-])%obind_Ok_inv)%obind_Ok_inv. cbn. by rewrite (IH _ _ Hvs).
Qed.
Section rectangular.
Context {S : Type} {PC : PageCache S} `{StdSort} (fuel : nat).
Lemma select_loop_rows depth schema n : ∀ o o' rows,
  select_loop (S := S) depth fuel n schema o = (o', Ok rows) →
  Forall (λ row, length row = GetColumnCount schema) rows.
Proof.
  induction n as [|n IH]; intros o o' rows; cbn [select_loop]; [done|].
  intros (o1 & r & _ & Hr)%bindM_inv. destruct r as [t|]; [|injection Hr as _ <-; constructor].
  apply bindM_inv in Hr as (o2 & row & Hrow & Hr). injection Hrow as <- Hrow.
  apply bindM_inv in Hr as (o3 & rest & Hrest & Hr). injection Hr as _ <-.
  constructor; [by eapply render_row_length|by eapply IH].
Qed.
Lemma Execute_rectangular sql (d d' : Catalog * S) r :
  Execute fuel sql d = (d', Ok r) → rectangular r.
Proof.
  unfold Execute. intros (d1 & stmt & _ & Hs)%bindM_inv. unfold rectangular. destruct stmt as [s|s|s|s].
  - unfold ExecCreate in Hs. apply bindM_inv in Hs as (d2 & u & _ & Hs). by injection Hs as _ <-.
  - unfold ExecInsert in Hs. apply bindM_inv in Hs as (d2 & d3 & _ & Hs).
    apply bindM_inv in Hs as (d4 & info & _ & Hs). cbv zeta in Hs. destruct (negb _); [done|].
    apply bindM_inv in Hs as (d5 & vals & _ & Hs). apply bindM_inv in Hs as (d6 & t & _ & Hs).
    apply bindM_inv in Hs as (d7 & rid & _ & Hs). destruct rid; [by injection Hs as _ <-|done].
  - unfold ExecSelect in Hs. apply bindM_inv in Hs as (d2 & d3 & _ & Hs).
    apply bindM_inv in Hs as (d4 & op & _ & Hs). apply bindM_inv in Hs as (d5 & rows & Hrun & Hs).
    injection Hs as _ <-. cbn. destruct d4 as [c s4].
    destruct (run_plan _ _ _ _) as [[op' s'] r'] eqn:E. injection Hrun as _ ->.
    unfold run_plan in E. apply bindM_inv in E as (p1 & u & _ & E).
    apply bindM_inv in E as (p2 & rows' & Hloop & E). apply bindM_inv in E as (p3 & u' & _ & E).
    injection E as _ <-. unfold on_op, zoomM in Hloop.
    destruct (select_loop _ _ _ _ _) as [o2 res] eqn:Hl. injection Hloop as _ ->.
    rewrite length_fmap. by eapply select_loop_rows.
  - injection Hs as _ <-. cbn. apply Forall_fmap, Forall_true. done.
Qed.
End rectangular.

(** ** The layout of a table *)
Lemma fill_length n c : String.length (fill n c) = n.
Proof. induction n as [|n IH]; cbn; [done|by rewrite IH]. Qed.
Lemma app_length_s s t : String.length (s +:+ t) = (String.length s + String.length t)%nat.
Proof. induction s as [|c s IH]; [done|]. exact (f_equal S IH). Qed.

Lemma string_app_assoc (s t u : string) : (s +:+ t) +:+ u = s +:+ (t +:+ u).
Proof. induction s as [|c s IH]; [done|]. exact (f_equal (String c) IH). Qed.
Lemma concat_strings_app l l' : concat_strings (l ++ l') = concat_strings l +:+ concat_strings l'.
Proof. induction l as [|s l IH]; [done|]. cbn [app concat_strings]. by rewrite IH, string_app_assoc. Qed.

Definition total_width (widths : list nat) : nat := sum_list_with (λ w, w + 3)%nat widths.
(** No cell is wider than its column. *)
Abbreviation covers := (Forall2 (λ w cell, (String.length cell ≤ w)%nat)).

Lemma dashes_length widths : String.length (dashes widths) = total_width widths.
Proof.
  induction widths as [|w widths IH]; [done|]. cbn [dashes total_width sum_list_with].
  rewrite !app_length_s, fill_length, IH. cbn. unfold total_width. lia.
Qed.
Lemma cells_covered widths row :
  covers widths row → ∃ s, cells widths row = Ok s ∧ String.length s = total_width widths.
Proof.
  induction 1 as [|w c widths row Hc _ (s & E & Hs)]; cbn [cells]; [by exists EmptyString|].
  destruct (Nat.ltb_spec w (String.length c)); [lia|]. rewrite E. eexists. split; [reflexivity|]. cbn [total_width sum_list_with].
  rewrite !app_length_s, fill_length, Hs. cbn. unfold total_width. lia.
Qed.
Lemma print_line_covered widths row :
  covers widths row → ∃ s, print_line widths row = Ok s ∧ String.length s = (total_width widths + 2)%nat.
Proof.
  intros (s & E & Hs)%cells_covered. unfold print_line. rewrite E. eexists. split; [reflexivity|].
  rewrite !app_length_s, Hs. cbn. lia.
Qed.
Lemma widen_covers widths row :
  length row = length widths →
  ∃ ws, widen widths row = Ok ws ∧ covers ws row ∧ Forall2 le widths ws.
Proof.
  revert row. induction widths as [|w widths IH]; intros [|c row] Hl; try done.
  { exists []. split_and!; [done|constructor..]. }
  destruct (IH row) as (ws & E & Hc & Hle); [by injection Hl|]. cbn [widen]. rewrite E.
  eexists. split; [reflexivity|]. split; constructor; (lia || done).
Qed.
Lemma covers_le ws ws' row : covers ws row → Forall2 le ws ws' → covers ws' row.
Proof.
  intros Hc. revert ws'. induction Hc as [|w c ws row Hw _ IH]; intros ws' Hle; inversion Hle; subst;
    constructor; [lia|by apply IH].
Qed.
Lemma widen_all_covers rows : ∀ widths,
  Forall (λ row, length row = length widths) rows →
  ∃ ws, widen_all widths rows = Ok ws ∧ Forall (covers ws) rows ∧ Forall2 le widths ws.
Proof.
  induction rows as [|row rows IH]; intros widths Hr.
  { exists widths. split_and!; [done|constructor|]. by apply Forall_Forall2_diag, Forall_true. }
  apply Forall_cons in Hr as [Hrow Hrows]. destruct (widen_covers widths row Hrow) as (w1 & E1 & Hc1 & Hle1).
  destruct (IH w1) as (w2 & E2 & Hc2 & Hle2); [by rewrite <- (Forall2_length _ _ _ Hle1)|].
  exists w2. cbn [widen_all]. rewrite E1. cbn. split_and!; [done| |].
  - constructor; [|done]. by eapply covers_le.
  - by transitivity w1.
Qed.
Lemma print_lines_covered widths rows :
  Forall (covers widths) rows →
  ∃ body, print_lines widths rows = Ok body ∧ length body = length rows ∧
    Forall (λ l, String.length l = (total_width widths + 2)%nat) body.
Proof.
  induction 1 as [|row rows (s & E & Hs)%print_line_covered _ (body & Eb & Hl & Hb)]; cbn [print_lines].
  { by exists []. }
  rewrite E, Eb. eexists. split; [reflexivity|]. cbn. split; [by rewrite Hl|by constructor].
Qed.

Lemma PrintResult_rectangular r :
  rectangular r → qr_message r = ""%string → qr_rows r ≠ [] →
  ∃ width lines, PrintResult r = Ok (concat_strings lines +:+ to_string (Z.of_nat (length (qr_rows r)))
                                     +:+ " row(s)" +:+ newline) ∧
    length lines = (4 + length (qr_rows r))%nat ∧ Forall (λ l, String.length l = width) lines.
Proof.
  intros Hr Hm Hne. unfold PrintResult. rewrite Hm, bool_decide_true by done. cbn [negb].
  destruct (widen_all_covers (qr_rows r) (String.length <$> qr_columns r)) as (ws & E & Hc & Hle).
  { by rewrite length_fmap. }
  destruct (print_line_covered ws (qr_columns r)) as (h & Eh & Hh).
  { apply Forall2_flip. rewrite Forall2_fmap_l in Hle. exact Hle. }
  destruct (print_lines_covered ws (qr_rows r) Hc) as (body & Eb & Hbl & Hbody).
  exists (total_width ws + 2)%nat, ([separator ws; h; separator ws] ++ body ++ [separator ws]).
  assert (String.length (separator ws) = total_width ws + 2)%nat as Hsep.
  { unfold separator. rewrite !app_length_s, dashes_length. cbn. lia. }
  split_and!.
  - destruct (qr_rows r) as [|row rows]; [done|]. rewrite E. cbn [obind]. rewrite Eh. cbn [obind].
    rewrite Eb. cbn [obind]. f_equal.
    rewrite !concat_strings_app. cbn [concat_strings]. by rewrite !string_app_assoc.
  - rewrite !length_app. cbn. lia.
  - rewrite !Forall_app. split_and!; [by repeat constructor|done|by repeat constructor].
Qed.

Lemma PrintResult_Ok r : rectangular r → ∃ text, PrintResult r = Ok text.
Proof.
  intros Hrect. destruct (decide (qr_message r = ""%string)) as [Hm|Hm];
    [destruct (decide (qr_rows r = [])) as [Hn|Hn]|].
  - unfold PrintResult. rewrite Hm, bool_decide_true, Hn by done. by eexists.
  - destruct (PrintResult_rectangular r Hrect Hm Hn) as (width & lines & E & _). by eexists.
  - unfold PrintResult. rewrite bool_decide_false by done. by eexists.
Qed.

(** C40. Whatever [Execute] returns can be printed: no width is missing and no
    padding wraps.  A result with rows and no message is printed as a table
    whose lines (three separators, the header and one per row) all have the
    same length, followed by the number of rows. *)
Theorem PrintResult_table {S : Type} {PC : PageCache S} `{StdSort} fuel sql (d d' : Catalog * S) r :
  Execute fuel sql d = (d', Ok r) →
  ∃ text, PrintResult r = Ok text ∧
    (qr_message r = ""%string → qr_rows r ≠ [] →
     ∃ width lines,
       text = concat_strings lines +:+ to_string (Z.of_nat (length (qr_rows r))) +:+ " row(s)" +:+ newline ∧
       length lines = (4 + length (qr_rows r))%nat ∧ Forall (λ l, String.length l = width) lines).
Proof.
  intros Hrect%Execute_rectangular. destruct (PrintResult_Ok r Hrect) as [text Ht].
  exists text. split; [done|]. intros Hm Hn.
  destruct (PrintResult_rectangular r Hrect Hm Hn) as (width & lines & E & Hl & Hw).
  rewrite E in Ht. injection Ht as <-. by exists width, lines.
Qed.

(** ** Sessions *)

(** A line that is neither empty nor a command of the loop. *)
Definition plain_line (l : string) : Prop := l ≠ ""%string ∧ l ≠ ".quit"%string ∧ l ≠ ".exit"%string.
(** The lines of one statement, blank ones among them: the last one, and only it,
    ends with a semicolon. *)
Inductive statement_lines : list string → Prop :=
  | last_line l : plain_line l → ends_with_semicolon l = true → statement_lines [l]
  | more_lines l ls : plain_line l → ends_with_semicolon l = false → statement_lines ls →
      statement_lines (l :: ls)
  | blank_line ls : statement_lines ls → statement_lines ("" :: ls)%string.
(** Input that has no further statement before the end or the command to quit. *)
Inductive unfinished : list string → Prop :=
  | at_end : unfinished []
  | at_quit l lines : l = ".quit"%string ∨ l = ".exit"%string → unfinished (l :: lines)
  | more_unfinished l lines : plain_line l → ends_with_semicolon l = false → unfinished lines →
      unfinished (l :: lines)
  | blank_unfinished lines : unfinished lines → unfinished ("" :: lines)%string.

(** The lines that are not blank, with spaces between them. *)
Fixpoint join_lines (ls : list string) : string :=
  match ls with
  | [] => ""
  | l :: ls =>
      if bool_decide (l = ""%string) then join_lines ls
      else match join_lines ls with EmptyString => l | s => l +:+ " " +:+ s end
  end.
(** One prompt for each line; [opened]: there is text of a statement before it. *)
Definition prompt_for (opened : bool) : Output := Stdout (if opened then "   ...> " else "mydb> ").
Fixpoint prompts (opened : bool) (ls : list string) : list Output :=
  match ls with
  | [] => []
  | l :: ls => prompt_for opened :: prompts (opened || negb (bool_decide (l = ""%string))) ls
  end.
Fixpoint last_prompts (opened : bool) (lines : list string) : list Output :=
  match lines with
  | [] => [prompt_for opened]
  | l :: lines =>
      prompt_for opened ::
      if bool_decide (l = ".quit"%string ∨ l = ".exit"%string) then []
      else last_prompts (opened || negb (bool_decide (l = ""%string))) lines
  end.

(** Every input begins with a statement or has none. *)
Lemma input_cases lines : unfinished lines ∨ ∃ ls rest, lines = ls ++ rest ∧ statement_lines ls ∧ ls ≠ [].
Proof.
  induction lines as [|l lines IH]; [left; constructor|].
  destruct (decide (l = ".quit"%string ∨ l = ".exit"%string)) as [Hq|Hq]; [left; by constructor|].
  destruct (decide (l = ""%string)) as [->|Hne].
  { destruct IH as [IH|(ls & rest & -> & Hls & _)]; [left; by constructor|right].
    exists (""%string :: ls), rest. split_and!; [done|by constructor|done]. }
  assert (plain_line l) as Hp by (unfold plain_line; tauto). destruct (ends_with_semicolon l) eqn:He.
  { right. exists [l], lines. split_and!; [done|by constructor|done]. }
  destruct IH as [IH|(ls & rest & -> & Hls & _)]; [left; by constructor|right].
  exists (l :: ls), rest. split_and!; [done|by constructor|done].
Qed.
Lemma join_lines_more l ls :
  l ≠ ""%string → statement_lines ls → join_lines (l :: ls) = l +:+ " " +:+ join_lines ls.
Proof.
  intros Hl Hls. cbn [join_lines]. rewrite bool_decide_false by done.
  assert (join_lines ls ≠ ""%string) as Hne; [|by destruct (join_lines ls)].
  induction Hls as [l' (H1 & _) _|l' ls (H1 & _) _ _ IH|ls _ IH]; cbn [join_lines];
    [rewrite bool_decide_false by done..|done].
  - by destruct l'.
  - destruct (join_lines ls); [done|]. by destruct l'.
Qed.

Lemma ends_with_semicolon_app s l : l ≠ ""%string → ends_with_semicolon (s +:+ l) = ends_with_semicolon l.
Proof.
  intros Hl. induction s as [|c s IH]; [done|]. change (String c s +:+ l) with (String c (s +:+ l)).
  assert (s +:+ l ≠ ""%string) as Hne by (by destruct s). cbn [ends_with_semicolon].
  destruct (s +:+ l); [by destruct Hne|exact IH].
Qed.

Section session.
Context {S : Type} {PC : PageCache S} `{StdSort} (fuel : nat).

(** What a session is meant to do on an input, from the database [d] to [d'] with
    the output [r]: the lines of each statement are executed joined; a result is
    printed; an exception is reported, and the session goes on with the database
    the failed statement left; anything else that stops a program stops the
    session. *)
Inductive session : list string → Catalog * S → Catalog * S → outcome (list Output) → Prop :=
  | session_end lines d : unfinished lines → session lines d d (Ok (last_prompts false lines))
  | session_result ls lines d d1 d' res text r :
      statement_lines ls → Execute fuel (join_lines ls) d = (d1, Ok res) → PrintResult res = Ok text →
      session lines d1 d' r →
      session (ls ++ lines) d d' (out <-! r ;; Ok (prompts false ls ++ Stdout text :: out))
  | session_error ls lines d d1 d' msg r :
      statement_lines ls → Execute fuel (join_lines ls) d = (d1, Fault (Throw msg)) →
      session lines d1 d' r →
      session (ls ++ lines) d d'
        (out <-! r ;; Ok (prompts false ls ++ Stderr ("Error: " +:+ msg +:+ newline) :: out))
  | session_fault ls lines d d1 f :
      statement_lines ls → Execute fuel (join_lines ls) d = (d1, Fault f) → (∀ msg, f ≠ Throw msg) →
      session (ls ++ lines) d d1 (Fault f).

(** What the loop does with a statement, by what [Execute] does. *)
Lemma run_statement_result sql d d1 res text :
  Execute fuel sql d = (d1, Ok res) → PrintResult res = Ok text →
  run_statement fuel sql d = (d1, Ok [Stdout text]).
Proof. intros E Ht. unfold run_statement, bindM, liftM. by rewrite E, Ht. Qed.
Lemma run_statement_error sql d d1 msg :
  Execute fuel sql d = (d1, Fault (Throw msg)) →
  run_statement fuel sql d = (d1, Ok [Stderr ("Error: " +:+ msg +:+ newline)]).
Proof. intros E. unfold run_statement, bindM. by rewrite E. Qed.
Lemma run_statement_fault sql d d1 f :
  Execute fuel sql d = (d1, Fault f) → (∀ msg, f ≠ Throw msg) → run_statement fuel sql d = (d1, Fault f).
Proof. intros E Hf. unfold run_statement, bindM. rewrite E. destruct f; try done. by edestruct Hf. Qed.

(** One turn of the loop. *)
Definition with_line (acc l : string) : string :=
  acc +:+ (if bool_decide (acc = ""%string) then "" else " ") +:+ l.
Lemma repl_loop_plain l lines acc (d : Catalog * S) :
  plain_line l →
  repl_loop fuel (l :: lines) acc d =
    (if ends_with_semicolon l then
       out <- run_statement fuel (with_line acc l) ;; rest <- repl_loop fuel lines "" ;;
       retM (prompt acc :: out ++ rest)
     else rest <- repl_loop fuel lines (with_line acc l) ;; retM (prompt acc :: rest))%mydb d.
Proof.
  intros (H1 & H2 & H3). cbn [repl_loop]. rewrite !bool_decide_false by done. cbn [orb].
  fold (with_line acc l). unfold with_line at 1. by rewrite <- string_app_assoc, ends_with_semicolon_app.
Qed.
Lemma repl_loop_blank lines acc (d : Catalog * S) :
  repl_loop fuel ("" :: lines)%string acc d =
    (rest <- repl_loop fuel lines acc ;; retM (prompt acc :: rest))%mydb d.
Proof. done. Qed.

Definition opened (acc : string) : bool := negb (bool_decide (acc = ""%string)).
Lemma prompt_opened acc : prompt acc = prompt_for (opened acc).
Proof. unfold prompt, prompt_for, opened. by case_bool_decide. Qed.
Lemma with_line_opened acc l : l ≠ ""%string → opened (with_line acc l) = true.
Proof.
  intros Hl. unfold opened. rewrite bool_decide_false; [done|]. unfold with_line. by destruct acc, l.
Qed.
Lemma opened_plain acc l : l ≠ ""%string → opened acc || negb (bool_decide (l = ""%string)) = true.
Proof. intros Hl. rewrite bool_decide_false by done. apply orb_true_r. Qed.
Lemma opened_blank acc : opened acc || negb (bool_decide (""%string = ""%string)) = opened acc.
Proof. rewrite bool_decide_true by done. apply orb_false_r. Qed.

(** The loop on the lines of a statement. *)
Lemma repl_loop_statement ls lines acc (d : Catalog * S) :
  statement_lines ls →
  repl_loop fuel (ls ++ lines) acc d =
    (out <- run_statement fuel (with_line acc (join_lines ls)) ;; rest <- repl_loop fuel lines "" ;;
     retM (prompts (opened acc) ls ++ out ++ rest))%mydb d.
Proof.
  intros Hls. revert acc. induction Hls as [l Hp He|l ls Hp He Hls IH|ls Hls IH]; intros acc; cbn [app prompts].
  - rewrite repl_loop_plain, He, prompt_opened by done. cbn [join_lines].
    by rewrite bool_decide_false by apply Hp.
  - rewrite repl_loop_plain, He by done. unfold bindM at 1. rewrite IH, prompt_opened.
    rewrite with_line_opened, opened_plain, join_lines_more by (done || apply Hp).
    assert (with_line (with_line acc l) (join_lines ls) = with_line acc (l +:+ " " +:+ join_lines ls)) as ->.
    { unfold with_line at 1. rewrite bool_decide_false.
      - unfold with_line. by rewrite !string_app_assoc.
      - pose proof (with_line_opened acc l (proj1 Hp)) as Ho. intros E. by rewrite E in Ho. }
    unfold bindM, retM.
    destruct (run_statement _ _ _) as [d1 [out|f]]; [|done]. by destruct (repl_loop _ _ _ _) as [d2 [rest|f]].
  - rewrite repl_loop_blank. unfold bindM at 1. rewrite IH, opened_blank, prompt_opened. cbn [join_lines].
    rewrite bool_decide_true by done. unfold bindM, retM.
    destruct (run_statement _ _ _) as [d1 [out|f]]; [|done]. by destruct (repl_loop _ _ _ _) as [d2 [rest|f]].
Qed.
(** The loop after the last statement. *)
Lemma repl_loop_unfinished lines acc (d : Catalog * S) :
  unfinished lines → repl_loop fuel lines acc d = (d, Ok (last_prompts (opened acc) lines)).
Proof.
  intros Hl. revert acc. induction Hl as [|l lines Hq|l lines Hp He Hl IH|lines Hl IH]; intros acc; cbn [last_prompts].
  - by rewrite <- prompt_opened.
  - rewrite (bool_decide_true (_ ∨ _)), <- prompt_opened by done. cbn [repl_loop]. by destruct Hq as [-> | ->].
  - rewrite repl_loop_plain, He by done. unfold bindM. rewrite IH, (bool_decide_false (_ ∨ _)).
    + by rewrite with_line_opened, opened_plain, prompt_opened by apply Hp.
    + destruct Hp as (_ & ? & ?). tauto.
  - rewrite repl_loop_blank. unfold bindM. by rewrite IH, opened_blank, prompt_opened.
Qed.

(** One statement of a session, and the rest of it. *)
Lemma repl_loop_next ls lines d d1 out d' r :
  statement_lines ls → run_statement fuel (join_lines ls) d = (d1, Ok [out]) →
  repl_loop fuel lines "" d1 = (d', r) →
  repl_loop fuel (ls ++ lines) "" d = (d', rest <-! r ;; Ok (prompts false ls ++ out :: rest)).
Proof.
  intros Hls E Hr. rewrite repl_loop_statement by done.
  assert (with_line "" (join_lines ls) = join_lines ls) as -> by done.
  unfold bindM at 1. rewrite E. unfold bindM. rewrite Hr. by destruct r.
Qed.
Lemma session_loop lines d d' r : session lines d d' r → repl_loop fuel lines "" d = (d', r).
Proof.
  induction 1 as [lines d Hl|ls lines d d1 d' res text r Hls E Ht _ IH|ls lines d d1 d' msg r Hls E _ IH|
                  ls lines d d1 f Hls E Hf].
  - by apply (repl_loop_unfinished lines "").
  - eapply repl_loop_next; [done|by eapply run_statement_result|done].
  - eapply repl_loop_next; [done|by eapply run_statement_error|done].
  - rewrite repl_loop_statement by done. unfold bindM at 1.
    assert (with_line "" (join_lines ls) = join_lines ls) as -> by done.
    by rewrite (run_statement_fault _ _ _ _ E Hf).
Qed.
(** Every input has a session: a result can be printed. *)
Lemma session_total k : ∀ lines d, (length lines ≤ k)%nat → ∃ d' r, session lines d d' r.
Proof.
  induction k as [|k IH]; intros lines d Hk; (destruct (input_cases lines) as [Hl|(ls & rest & -> & Hls & Hne)];
    [by eexists _, _; constructor|]); rewrite length_app in Hk; (destruct ls; [done|]); cbn [length] in Hk; [lia|].
  destruct (Execute fuel (join_lines (s :: ls)) d) as [d1 [res|f]] eqn:E.
  - destruct (PrintResult_Ok _ (Execute_rectangular _ _ _ _ _ E)) as [text Ht].
    destruct (IH rest d1) as (d' & r & Hs); [lia|]. eexists _, _. by eapply session_result.
  - destruct (IH rest d1) as (d' & r & Hs); [lia|].
    destruct f as [msg| | | |]; [by eexists _, _; eapply session_error|by eexists _, _; eapply session_fault..].
Qed.

(** C23. The prompt loop on every input: it executes the statements one after the
    other, however each is spread over lines: the lines up to the first one that
    ends with a semicolon, blank ones left out, are joined with spaces and
    executed once, with the first prompt while nothing has been typed and the
    continuation prompt after that.  A result is printed to standard output
    (printing never throws); an exception is reported on standard error and the
    session goes on with the database the failed statement left; a fault that is
    not an exception ends it; it ends at [.quit], [.exit] or the end of the input,
    where an unfinished statement is dropped. *)
Theorem repl_session lines (d d' : Catalog * S) r :
  repl_loop fuel lines "" d = (d', r) ↔ session lines d d' r.
Proof.
  split; [|apply session_loop]. intros Hr.
  destruct (session_total (length lines) lines d) as (d1 & r1 & Hs); [done|].
  pose proof (session_loop _ _ _ _ Hs) as Hr1. rewrite Hr in Hr1. by injection Hr1 as -> ->.
Qed.
End session.

(** ** Sessions on a new database *)
#[local] Existing Instance InsertionSort.
Definition shell_db : Catalog * BufferPoolManager :=
  (Catalog_ctor, BufferPoolManager_ctor 2 (DiskManager_open "mydb.db" [])).
Definition explain_text : string := "EXPLAIN SELECT name FROM users WHERE age > 25;".

Lemma PrintResult_table_witness :
  ∃ r text, Execute 5 explain_text shell_db = (shell_db, Ok r) ∧ PrintResult r = Ok text ∧
    ∃ width lines, text = concat_strings lines +:+ "3 row(s)" +:+ newline ∧
      length lines = 7%nat ∧ Forall (λ l, String.length l = width) lines.
Proof.
  destruct (Execute 5 explain_text shell_db) as [d' [r|f]] eqn:E; [|by vm_compute in E].
  destruct (PrintResult_table 5 explain_text shell_db d' r E) as (text & Ht & Htab).
  exists r, text. vm_compute in E. injection E as <- <-. split; [reflexivity|]. split; [exact Ht|].
  destruct (Htab eq_refl) as (width & lines & Hx & Hl & Hf); [discriminate|].
  exists width, lines. split; [exact Hx|]. split; [exact Hl|exact Hf].
Defined.

(** A statement over two lines, a failing one, a query with a blank line in it and
    a statement that is not finished. *)
Definition shell_input : list string :=
  ["CREATE TABLE pets"; "(name VARCHAR(8), age INT);"; "INSERT INTO pets VALUES ('Rex', 3);"; "DROP TABLE pets;";
   ""; "SELECT *"; ""; "FROM pets"; ";"; "SELECT"; ".quit"; "SELECT * FROM pets;"]%string.
Lemma repl_session_witness :
  ∃ d', session 20 shell_input shell_db d'
    (Ok [Stdout "mydb> "; Stdout "   ...> "; Stdout ("Table 'pets' created." +:+ newline);
         Stdout "mydb> "; Stdout ("Inserted 1 row." +:+ newline);
         Stdout "mydb> "; Stderr ("Error: Expected CREATE, INSERT, SELECT, or EXPLAIN" +:+ newline);
         Stdout "mydb> "; Stdout "mydb> "; Stdout "   ...> "; Stdout "   ...> "; Stdout "   ...> ";
         Stdout ("+-----------+----------+" +:+ newline +:+ "| pets.name | pets.age |" +:+ newline +:+
                 "+-----------+----------+" +:+ newline +:+ "| Rex       | 3        |" +:+ newline +:+
                 "+-----------+----------+" +:+ newline +:+ "1 row(s)" +:+ newline);
         Stdout "mydb> "; Stdout "   ...> "]).
Proof. eexists. apply (repl_session 20 shell_input shell_db). vm_compute. reflexivity. Defined.

(** Lines are joined with a space, so a comment reaches over the lines that
    follow it: the statement below is complete on the screen and is rejected. *)
Example comment_swallows_lines :
  (repl_loop 5 ["EXPLAIN SELECT a -- the key"; "FROM t;"]%string "" shell_db).2 =
    Ok [Stdout "mydb> "; Stdout "   ...> "; Stderr ("Error: Parse error at '': Expected FROM" +:+ newline); Stdout "mydb> "] ∧
  (∃ s, parse_sql ("EXPLAIN SELECT a -- the key" +:+ newline +:+ "FROM t;") = Ok (ExplainS s)).
Proof. split; [|eexists]; vm_compute; reflexivity. Qed.
(** A blank after the semicolon keeps the statement open: the next line is
    appended to it, and since the parser reads one statement the second is
    dropped without a message. *)
Example trailing_blank_drops_statement :
  let '((c, _), r) := repl_loop 5 ["EXPLAIN SELECT a FROM t; "; "CREATE TABLE u (a INT);"]%string "" shell_db in
  TableExists c "u" = false ∧
  r = Ok [Stdout "mydb> "; Stdout "   ...> ";
          Stdout ("+---------------+" +:+ newline +:+ "| plan          |" +:+ newline +:+
                  "+---------------+" +:+ newline +:+ "| Projection    |" +:+ newline +:+
                  "|   SeqScan [t] |" +:+ newline +:+ "+---------------+" +:+ newline +:+
                  "2 row(s)" +:+ newline);
          Stdout "mydb> "].
Proof. vm_compute. by split. Qed.
