(* ===== verification/Restart.v ===== *)
(** * Closing and reopening a database

    The destructors of [src/src/database.h], [storage/buffer_pool.cpp] and
    [storage/disk_manager.cpp] followed by the constructors on the same file: the
    rows are there again, page by page.  The catalog is not. *)
From stdpp Require Import base gmap list strings.
From Stdlib Require Import ZArith Lia Ascii.
From S2P Require Import Prelude Types DiskManager PageCache BufferPool BufferPoolSpec BufferPoolTheorems HeapFile HeapFileSpec HeapFileTheorems Ast Parser Catalog Executor ExecutorSpec ExecutorSort Planner Database DatabaseSpec DatabaseTheorems.




#[local] Existing Instance InsertionSort.
#[local] Existing Instance InsertionSort_spec.

(** The same, run: the row is in the reopened file. *)
Example restart_runs :
  let d := ((Execute 10 "CREATE TABLE users (id INT);" ;;
             Execute 10 "INSERT INTO users VALUES (7);")%mydb demo_db).1 in
  (fs' <-! Database_dtor demo_fs d ;;
   d' <-! Database_ctor fs' "mydb.db" 1 ;;
   ((hf <- HeapFile_open 10 (create_schema (mkCreateTable "users" [mkColumnDef "id" INT 0])) 0 ;;
    Scan 10 hf (λ acc rid t, (collect acc rid t, true)) [])%mydb d'.2).2)
  = Ok [(mkRID 0 0, mkTuple (le_bytes 4 7))].
Proof. vm_compute. reflexivity. Qed.
