(* ===== verification/Bench.v ===== *)
(** * The benchmark: [src/bench/query_bench.cpp]

    The benchmark program runs the sequential and the parallel operators over one
    database of two tables.  The benchmark library is not modelled: it decides how
    often the body of [for (auto _ : state)] runs, which is an argument here, and
    its [DoNotOptimize] has no effect on the program.  A thread schedule is given
    for every iteration. *)
From stdpp Require Import base gmap list list_numbers strings sorting.
From Stdlib Require Import ZArith Lia Ascii.
From S2P Require Import Prelude Types DiskManager PageCache BufferPool BufferPoolSpec BufferPoolTheorems HeapFile HeapFileSpec Catalog Ast Executor ExecutorSpec ExecutorSort Database RowSpec DatabaseSpec DatabaseTheorems ParallelFor ParallelSeqScan ParallelSort ParallelTheorems.

Definition ROWS : Z := 100000.

(** ** The database *)
Definition bench_columns : list Column :=
  [mkColumn "id" ColumnType_Int; mkColumn "val" ColumnType_Int].
Definition bench_schema : Schema := Schema_ctor bench_columns.

Section load.
Context {S : Type} {PC : PageCache S}.
Local Abbreviation Database := (Catalog * S)%type.

(** The body of a loading loop; [big] and [small] refer to the heap files of the
    catalog's entries. *)
Definition bench_insert (name : string) (i : Z) : M Database unit :=
  t <- liftM (Tuple_ctor [MakeInt i; MakeInt i] bench_schema) ;;
  d <- getM ;;
  info <- liftM (GetTable (catalog_ d) name) ;;
  insert_into name info t ;;
  retM tt.
Fixpoint bench_inserts (name : string) (values : list Z) : M Database unit :=
  match values with
  | [] => retM tt
  | i :: values => bench_insert name i ;; bench_inserts name values
  end.
(** The body of the constructor. *)
Definition BenchDB_load : M Database unit :=
  CreateTable "big" bench_schema ;;
  CreateTable "small" bench_schema ;;
  d <- getM ;;
  liftM (GetTable (catalog_ d) "big") ;;
  liftM (GetTable (catalog_ d) "small") ;;
  bench_inserts "big" (seqZ 0 ROWS) ;;
  bench_inserts "small" (seqZ 0 (ROWS `div` 10)).
End load.

Definition BenchDB_ctor (fs : FileSystem) : outcome (Catalog * BufferPoolManager) :=
  d <-! Database_ctor fs "bench.db" 1024 ;;
  let '(d, r) := BenchDB_load d in
  r <-! r ;; Ok d.
(** The destructor removes the file, which is still open, and then destroys the
    members. *)
Definition BenchDB_dtor (fs : FileSystem) (d : Catalog * BufferPoolManager) : outcome FileSystem :=
  _ <-! (BufferPoolManager_dtor d.2).2 ;;
  Ok (mkFileSystem (delete "bench.db"%string (fs_files fs)) (fs_creatable fs)).

(** ** One iteration *)

(** [op.Init(); int count = 0; while (op.Next(&t)) ++count; op.Close();]. *)
Fixpoint count_loop {S C} `{Operator S C} (fuel n : nat) (count : Z) : M C Z :=
  match n with
  | O => faultM OutOfFuel
  | Datatypes.S n =>
      r <- Next fuel ;;
      match r with
      | None => retM count
      | Some _ => if in_s32 (count + 1) then count_loop fuel n (count + 1) else faultM Undefined
      end
  end.
Definition count_rows {S C} `{Operator S C} (fuel : nat) : M (C * S) Z :=
  Init fuel ;; n <- on_op (count_loop fuel fuel 0) ;; on_op Close ;; retM n.

Section benchmarks.
Context {S : Type} {PC : PageCache S} `{StdSort} `{StdHeap}.
Local Abbreviation Database := (Catalog * S)%type.

(** An operator is built on the table [big], run and destroyed. *)
Definition count_big {C} (opC : Operator S C) (ctor : TableInfo → C) (fuel : nat) : M Database Z :=
  d <- getM ;;
  info <- liftM (GetTable (catalog_ d) "big") ;;
  λ '(c, s), let '((_, s'), r) := @count_rows S C opC fuel (ctor info, s) in ((c, s'), r).

(** [for (auto _ : state)]: the counts of the iterations. *)
Fixpoint iterate (iterations : nat) (m : nat → M Database Z) : M Database (list Z) :=
  match iterations with
  | O => retM []
  | Datatypes.S k => n <- m 0%nat ;; ns <- iterate k (λ i, m (Datatypes.S i)) ;; retM (n :: ns)
  end.

Definition val_item : OrderByItem := mkOrderByItem (Expr.COLUMN_REF "" "val") true.

Definition BM_SeqScan_Serial (fuel iterations : nat) : M Database (list Z) :=
  iterate iterations (λ _, count_big _ (λ info, SeqScan_ctor info "") fuel).
Definition BM_SeqScan_Parallel (σ : nat → Schedule) (n_threads fuel iterations : nat)
    : M Database (list Z) :=
  iterate iterations (λ i, count_big (ParallelSeqScan_Operator (σ i))
    (λ info, ParallelSeqScan_ctor info "big" n_threads) fuel).
Definition BM_Sort_Serial (fuel iterations : nat) : M Database (list Z) :=
  iterate iterations (λ _, count_big _ (λ info, Sort_ctor (SeqScan_ctor info "") [val_item]) fuel).
Definition BM_Sort_Parallel (σ : nat → Schedule) (task_order : nat → nat → list nat) (n fuel iterations : nat)
    : M Database (list Z) :=
  iterate iterations (λ i,
    let _ := ParallelSeqScan_Operator (σ i) in
    count_big (ParallelSort_Operator (task_order i))
      (λ info, ParallelSort_ctor (ParallelSeqScan_ctor info "big" n) [val_item] n) fuel).
(** [->Arg(1)->Arg(2)->Arg(4)->Arg(8)]. *)
Definition bench_args : list nat := [1; 2; 4; 8]%nat.

(** The benchmarks the program registers, and a run of some of them one after the
    other on the shared database. *)
Inductive Benchmark :=
  | SeqScan_Serial
  | SeqScan_Parallel (σ : nat → Schedule) (arg : nat)
  | Sort_Serial
  | Sort_Parallel (σ : nat → Schedule) (task_order : nat → nat → list nat) (arg : nat).
Definition run_benchmark (fuel iterations : nat) (b : Benchmark) : M Database (list Z) :=
  match b with
  | SeqScan_Serial => BM_SeqScan_Serial fuel iterations
  | SeqScan_Parallel σ n => BM_SeqScan_Parallel σ n fuel iterations
  | Sort_Serial => BM_Sort_Serial fuel iterations
  | Sort_Parallel σ order n => BM_Sort_Parallel σ order n fuel iterations
  end.
Fixpoint run_benchmarks (fuel : nat) (bs : list (Benchmark * nat)) : M Database (list (list Z)) :=
  match bs with
  | [] => retM []
  | (b, k) :: bs => ns <- run_benchmark fuel k b ;; rest <- run_benchmarks fuel bs ;; retM (ns :: rest)
  end.
End benchmarks.

(** ** The tables after loading *)
Definition bench_row (i : Z) : Tuple := mkTuple (le_bytes 4 i ++ le_bytes 4 i).
Definition bench_rows (n : Z) : list Tuple := bench_row <$> seqZ 0 n.

Lemma bench_rows_length : Z.of_nat (length (bench_rows ROWS)) = ROWS.
Proof. unfold bench_rows. by rewrite length_fmap, length_seqZ. Qed.
Lemma bench_row_ctor i : Tuple_ctor [MakeInt i; MakeInt i] bench_schema = Ok (bench_row i).
Proof. reflexivity. Qed.
Lemma bench_row_sized i : sized bench_schema (bench_row i).
Proof. reflexivity. Qed.
(** Any sort key of the benchmark is an INT. *)
Lemma bench_sortable alias n :
  alias ∈ [""; "big"]%string →
  sortable [val_item] (MakeOutputSchema bench_schema alias) (bench_rows n).
Proof.
  intros Ha. constructor; [|constructor]. exists INT. intros t (i & -> & _)%list_elem_of_fmap.
  assert (alias = "" ∨ alias = "big")%string as [-> | ->] by set_solver; eexists; split; reflexivity.
Qed.

Section load_spec.
Context {S : Type} {PC : PageCache S} {PCS : PageCacheSpec S}.

Lemma bench_inserts_rep name values : ∀ c (s : S) st chains adb l,
  db_rep (c, s) st chains adb → adb !! name = Some (bench_schema, l) →
  Z.of_nat (size st) + Z.of_nat (length values) + 1 < 2 ^ 31 →
  ∃ c' s' st' chains', bench_inserts name values (c, s) = ((c', s'), Ok tt) ∧
    db_rep (c', s') st' chains' (<[name := (bench_schema, l ++ (bench_row <$> values))]> adb) ∧
    pc_cap s' = pc_cap s ∧ (size st ≤ size st' ≤ size st + length values)%nat.
Proof.
  induction values as [|i values IH]; intros c s st chains adb l Hd Ha Hsz.
  { exists c, s, st, chains. cbn [fmap list_fmap]. rewrite app_nil_r, insert_id by done. split_and!; [done..|]. cbn. lia. }
  cbn [length] in Hsz. destruct (db_rep_found _ _ _ _ _ _ _ Hd Ha) as (info & ps & E & Hsch & _).
  cbn [fst] in E. rewrite <- Hsch in Ha.
  destruct (insert_into_rep c s st chains adb Hd ltac:(lia) name info l (bench_row i) E Ha)
    as (c1 & s1 & st1 & ch1 & rid & Hi & Hd1 & Hcap1 & Hsz1); [rewrite Hsch; apply bench_row_sized|].
  rewrite Hsch in Hd1.
  destruct (IH c1 s1 st1 ch1 _ (l ++ [bench_row i]) Hd1) as (c2 & s2 & st2 & ch2 & Hr & Hd2 & Hcap2 & Hsz2);
    [by rewrite lookup_insert_eq|lia|].
  exists c2, s2, st2, ch2. split_and!; [| |congruence|lia|cbn [length]; lia].
  - cbn [bench_inserts]. unfold bench_insert. rewrite bench_row_ctor. unfold bindM at 1 2, liftM at 1.
    rewrite bindM_get. rewrite (bindM_lift _ info) by (unfold GetTable, catalog_; cbn [fst]; by rewrite E).
    rewrite (bindM_Ok _ _ _ _ _ Hi). exact Hr.
  - rewrite insert_insert_eq, <- app_assoc in Hd2. exact Hd2.
Qed.

Lemma BenchDB_load_rep c (s : S) st chains adb :
  db_rep (c, s) st chains adb → adb = ∅ → Z.of_nat (size st) + 2 * ROWS < 2 ^ 31 →
  ∃ c' s' st' chains' adb', BenchDB_load (c, s) = ((c', s'), Ok tt) ∧ db_rep (c', s') st' chains' adb' ∧
    adb' !! "big"%string = Some (bench_schema, bench_rows ROWS) ∧
    adb' !! "small"%string = Some (bench_schema, bench_rows (ROWS `div` 10)) ∧ pc_cap s' = pc_cap s.
Proof.
  intros Hd Hadb Hsz. unfold ROWS in Hsz. assert (schema_fits bench_columns) as Hfit by (repeat constructor; done).
  assert (size_ok (GetTupleSize bench_schema)) as Hok by (vm_compute; split; congruence).
  destruct (create_table_rep c s st chains adb Hd ltac:(lia) "big" bench_columns)
    as (c1 & s1 & st1 & ch1 & E1 & Hd1 & Hcap1 & Hsz1); [by eapply (db_rep_missing _ _ _ _ _ Hd); rewrite Hadb|done|done|].
  fold bench_schema in *.
  destruct (create_table_rep c1 s1 st1 ch1 _ Hd1 ltac:(lia) "small" bench_columns)
    as (c2 & s2 & st2 & ch2 & E2 & Hd2 & Hcap2 & Hsz2);
    [by eapply (db_rep_missing _ _ _ _ _ Hd1); rewrite lookup_insert_ne, Hadb|done|done|]. fold bench_schema in *.
  destruct (db_rep_found _ _ _ _ "big" bench_schema [] Hd2) as (ib & _ & Hb & _);
    [by rewrite lookup_insert_ne, lookup_insert_eq by done|].
  destruct (db_rep_found _ _ _ _ "small" bench_schema [] Hd2) as (im & _ & Hm & _); [by rewrite lookup_insert_eq|].
  destruct (bench_inserts_rep "big" (seqZ 0 ROWS) c2 s2 st2 ch2 _ [] Hd2)
    as (c3 & s3 & st3 & ch3 & E3 & Hd3 & Hcap3 & Hsz3);
    [by rewrite lookup_insert_ne, lookup_insert_eq by done|rewrite length_seqZ; unfold ROWS; lia|].
  rewrite length_seqZ in Hsz3. unfold ROWS in Hsz3.
  destruct (bench_inserts_rep "small" (seqZ 0 (ROWS `div` 10)) c3 s3 st3 ch3 _ [] Hd3)
    as (c4 & s4 & st4 & ch4 & E4 & Hd4 & Hcap4 & _);
    [by rewrite lookup_insert_ne, lookup_insert_eq by done
    |rewrite length_seqZ; change (ROWS `div` 10) with 10000; lia|].
  eexists c4, s4, st4, ch4, _. split_and!; [|exact Hd4| | |congruence].
  - unfold BenchDB_load. rewrite (bindM_Ok _ _ _ _ _ E1), (bindM_Ok _ _ _ _ _ E2), bindM_get.
    rewrite (bindM_lift _ ib) by (unfold GetTable, catalog_; cbn [fst] in *; by rewrite Hb).
    rewrite (bindM_lift _ im) by (unfold GetTable, catalog_; cbn [fst] in *; by rewrite Hm).
    rewrite (bindM_Ok _ _ _ _ _ E3). exact E4.
  - rewrite lookup_insert_ne, lookup_insert_eq by done. reflexivity.
  - by rewrite lookup_insert_eq.
Qed.
End load_spec.

(** ** Counting *)
Section count.
Context {S C : Type} `{!Operator S C} `{!OperatorLaws S C}.

Lemma count_yields N (o : C) l :
  yields N o (mkStream l None) →
  ∃ o', ∀ fuel n count, (N ≤ fuel)%nat → (length l < n)%nat → 0 ≤ count → count + Z.of_nat (length l) < 2 ^ 31 →
    count_loop fuel n count o = (o', Ok (count + Z.of_nat (length l))).
Proof.
  intros Hy. remember (mkStream l None) as st eqn:E. revert l E.
  induction Hy as [o o' Hn Hs|o o' f Hn|o o' t st Hn Hs Hy IH]; intros l [=]; subst.
  - exists o'. intros fuel [|n] count Hf Hl Hz Hc; [cbn in Hl; lia|]. cbn [count_loop length].
    rewrite (bindM_Ok _ _ _ _ _ (Hn fuel Hf)), Z.add_0_r. done.
  - destruct (IH (rows st)) as (o2 & Hd); [by destruct st; simpl in *; subst|].
    exists o2. intros fuel [|n] count Hf Hl Hz Hc; cbn [length] in *; [lia|]. cbn [count_loop].
    rewrite (bindM_Ok _ _ _ _ _ (Hn fuel Hf)).
    assert (in_s32 (count + 1) = true) as -> by (apply in_s32_spec; lia).
    rewrite Hd by lia. do 2 f_equal. lia.
Qed.
Lemma count_delivers (I : S → Prop) (o : C) (P : list Tuple → Prop) m s :
  delivers_some I o P → (∀ rows, P rows → Z.of_nat (length rows) = m) → m < 2 ^ 31 → I s →
  ∃ N o' s', I s' ∧ ∀ fuel, (N ≤ fuel)%nat → count_rows fuel (o, s) = ((o', s'), Ok m).
Proof.
  intros Hd HP Hm Hs. destruct (Hd s Hs) as (N & o1 & s1 & rows & Hi & Hs1 & _ & Hy & Hrows).
  apply HP in Hrows. destruct (count_yields N o1 rows Hy) as (o2 & Hc).
  destruct (Close_ok o2) as (o3 & Hcl & _). exists (N + Datatypes.S (length rows))%nat, o3, s1.
  split; [done|]. intros fuel Hf. unfold count_rows. rewrite (bindM_Ok _ _ _ _ _ (Hi fuel ltac:(lia))).
  unfold on_op, zoomM, bindM. cbn [fst snd]. rewrite Hc by lia. cbn [fst snd]. rewrite Hcl. cbn. by rewrite Hrows.
Qed.
End count.

Section bench_spec.
Context {S : Type} {PC : PageCache S} {PCS : PageCacheSpec S}.
Context `{!StdSort} `{!StdSortSpec} `{!StdHeap} `{!StdHeapSpec}.
(** The rows of the table [big] are kept abstract. *)
Context (big : list Tuple) (total : Z).
Hypotheses (Htotal : Z.of_nat (length big) = total) (Hrange : 49 ≤ total < 2 ^ 31).
Hypothesis Hsortable : ∀ alias, alias ∈ [""; "big"]%string →
  sortable [val_item] (MakeOutputSchema bench_schema alias) big.

(** The loaded database, in a pool of [cap] frames. *)
Definition bench_db (cap : nat) (d : Catalog * S) : Prop :=
  ∃ st chains adb, db_rep d st chains adb ∧ pc_cap d.2 = cap ∧
    adb !! "big"%string = Some (bench_schema, big).

(** A computation on the loaded database that, with enough fuel, returns [a] and
    leaves it loaded. *)
Definition computes {A} (cap : nat) (m : nat → M (Catalog * S) A) (a : A) : Prop :=
  ∀ d, bench_db cap d → ∃ N d', bench_db cap d' ∧ ∀ fuel, (N ≤ fuel)%nat → m fuel d = (d', Ok a).

Lemma computes_ret {A} cap (a : A) : computes cap (λ _, retM a) a.
Proof. intros d Hd. by exists 0%nat, d. Qed.
Lemma computes_bind {A B} cap (m : nat → M (Catalog * S) A) a (k : nat → A → M (Catalog * S) B) b :
  computes cap m a → computes cap (λ fuel, k fuel a) b →
  computes cap (λ fuel, x <- m fuel ;; k fuel x)%mydb b.
Proof.
  intros Hm Hk d Hd. destruct (Hm d Hd) as (N & d1 & Hd1 & E1). destruct (Hk d1 Hd1) as (N' & d2 & Hd2 & E2).
  exists (N + N')%nat, d2. split; [done|]. intros fuel Hf.
  rewrite (bindM_Ok _ _ _ _ _ (E1 fuel ltac:(lia))). apply E2. lia.
Qed.
Lemma computes_iterate cap k : ∀ (m : nat → nat → M (Catalog * S) Z) z,
  (∀ i, computes cap (λ fuel, m fuel i) z) → computes cap (λ fuel, iterate k (m fuel)) (replicate k z).
Proof.
  induction k as [|k IH]; intros m z Hm; cbn [iterate replicate]; [apply computes_ret|].
  eapply (computes_bind cap (λ fuel, m fuel 0%nat) z); [apply Hm|].
  eapply (computes_bind cap (λ fuel, iterate k (λ i, m fuel (Datatypes.S i)))); [by apply (IH (λ fuel i, m fuel (Datatypes.S i)))|].
  apply computes_ret.
Qed.

(** An operator on [big] that delivers as many rows as the table has. *)
Lemma computes_count {C} (opC : Operator S C) (lawsC : OperatorLaws S C) cap (ctor : TableInfo → C) :
  (∀ info st ps, ti_schema info = bench_schema → heap_rep (ti_heap_file info) st ps →
     (chain_entries ps).*2 = big →
     delivers_some (stored st ∅ cap) (ctor info) (λ rows, rows ≡ₚ big)) →
  computes cap (count_big opC ctor) total.
Proof.
  intros Hc [c s] (st & chains & adb & Hd & Hcap & Ha).
  destruct (db_rep_found _ _ _ _ _ _ _ Hd Ha) as (info & ps & E & Hsch & Hrep & Hrows). cbn [fst snd] in *.
  destruct (count_delivers _ _ _ total s (Hc info st ps Hsch Hrep (eq_sym Hrows))) as (N & o' & s' & [Hs' Hcap'] & Hrun).
  { by intros rows ->. }
  { lia. }
  { split; [exact (dr_store _ _ _ _ Hd)|done]. }
  exists N, (c, s'). split.
  - exists st, chains, adb. split_and!; [|done|done]. eapply db_rep_storage; [exact Hd|done|congruence].
  - intros fuel Hf. unfold count_big. rewrite bindM_get.
    rewrite (bindM_lift _ info) by (unfold GetTable, catalog_; cbn [fst]; by rewrite E). by rewrite Hrun.
Qed.

(** What the registered benchmarks are run with: one of the registered numbers of
    threads, schedules that treat the threads fairly, and sorting tasks that all
    run. *)
Definition admissible (b : Benchmark) : Prop :=
  match b with
  | SeqScan_Serial | Sort_Serial => True
  | SeqScan_Parallel σ n => n ∈ bench_args ∧ ∀ i, fair n (σ i) ∧ calm (σ i)
  | Sort_Parallel σ order n =>
      n ∈ bench_args ∧ ∀ i, fair n (σ i) ∧ calm (σ i) ∧ ∀ m, order i m ≡ₚ seq 0 m
  end.
Lemma bench_args_bounds n : n ∈ bench_args → (0 < n ≤ 8)%nat.
Proof. unfold bench_args. rewrite !elem_of_cons, elem_of_nil. lia. Qed.

#[local] Instance ParallelSeqScan_laws σ : @OperatorLaws S _ (ParallelSeqScan_Operator σ).
Proof. intros o. by eexists. Qed.
#[local] Instance ParallelSort_laws {C} `{!Operator S C} task_order :
  @OperatorLaws S (ParallelSort C) (ParallelSort_Operator task_order).
Proof. intros o. by eexists. Qed.

(** The child of both sorts. *)
Lemma scan_big σ n cap info st ps :
  ti_schema info = bench_schema → heap_rep (ti_heap_file info) st ps →
  (chain_entries ps).*2 = big → (0 < n ≤ cap)%nat → fair n σ → calm σ →
  delivers (H := ParallelSeqScan_Operator σ) (stored (S := S) st ∅ cap)
    (ParallelSeqScan_ctor info "big" n) big.
Proof.
  intros Hsch Hrep <- Hn Hf Hc. apply (ParallelSeqScan_delivers σ info "big" n st ∅ cap ps);
    [apply pins_low_empty|lia|rewrite map_size_empty; lia|done..].
Qed.
Lemma seq_scan_big cap info st ps :
  heap_rep (ti_heap_file info) st ps → (chain_entries ps).*2 = big → (0 < cap)%nat →
  produces (stored (S := S) st ∅ cap) (SeqScan_ctor info "") (mkStream big None).
Proof.
  intros Hrep <- Hcap. apply SeqScan_produces; [apply pins_low_empty|by rewrite map_size_empty|done].
Qed.

Lemma sort_big cap info st ps :
  ti_schema info = bench_schema → heap_rep (ti_heap_file info) st ps →
  (chain_entries ps).*2 = big → (0 < cap)%nat →
  delivers (stored (S := S) st ∅ cap) (Sort_ctor (SeqScan_ctor info "") [val_item]) big.
Proof.
  intros Hsch Hrep Hrows Hcap.
  assert (sortable [val_item] (ss_output_schema (SeqScan_ctor info "")) big) as Hsort.
  { unfold SeqScan_ctor. cbn [ss_output_schema]. rewrite Hsch. apply Hsortable. set_solver. }
  apply std_sort_rows in Hsort as (l' & Hsort & Hp & _).
  assert (produces (stored (S := S) st ∅ cap) (Sort_ctor (SeqScan_ctor info "") [val_item]) (mkStream l' None)) as Hs.
  { eapply Sort_produces; [by eapply seq_scan_big|exact Hsort]. }
  apply produces_delivers in Hs. intros s Hi.
  destruct (Hs s Hi) as (N & o' & s' & rows & ? & ? & ? & ? & E).
  exists N, o', s', rows. split_and!; [done..|]. by rewrite E, Hp.
Qed.
Lemma computes_benchmark cap b k :
  (8 ≤ cap)%nat → admissible b →
  computes cap (λ fuel, run_benchmark fuel k b) (replicate k total).
Proof.
  intros Hcap Hb. destruct b as [|σ n| |σ order n]; cbn [run_benchmark]; cbn [admissible] in Hb.
  - unfold BM_SeqScan_Serial. apply (computes_iterate cap k (λ fuel _, _)). intros _.
    apply (computes_count _ _). intros info st ps Hsch Hrep Hrows. apply produces_delivers.
    eapply seq_scan_big; [done..|lia].
  - destruct Hb as [Hn%bench_args_bounds Hσ]. unfold BM_SeqScan_Parallel.
    apply (computes_iterate cap k (λ fuel i, _)). intros i. destruct (Hσ i) as [Hf Hc].
    apply (computes_count _ _). intros info st ps Hsch Hrep Hrows. eapply scan_big; [done..|lia|done|done].
  - unfold BM_Sort_Serial. apply (computes_iterate cap k (λ fuel _, _)). intros _.
    apply (computes_count _ _). intros info st ps Hsch Hrep Hrows.
    by apply (sort_big cap info st ps); [..|lia].
  - destruct Hb as [Hn%bench_args_bounds Hσ]. unfold BM_Sort_Parallel.
    apply (computes_iterate cap k (λ fuel i, _)). intros i. destruct (Hσ i) as (Hf & Hc & Ho).
    apply (computes_count _ _). intros info st ps Hsch Hrep Hrows.
    pose proof (scan_big (σ i) n cap info st ps Hsch Hrep Hrows ltac:(lia) Hf Hc) as Hscan.
    intros s Hs. destruct (ParallelSort_delivers (opC := ParallelSeqScan_Operator (σ i)) (order i) Ho
      (stored st ∅ cap) (ParallelSeqScan_ctor info "big" n) [val_item] n big Hscan)
      with (s := s) as (N & o' & s' & rows & ? & ? & ? & ? & E & _).
    + cbn. rewrite Hsch. apply Hsortable. set_solver.
    + lia.
    + apply chunks_fit_square. nia.
    + done.
    + by exists N, o', s', rows.
Qed.
Lemma computes_benchmarks cap bs :
  (8 ≤ cap)%nat → Forall (λ b, admissible b.1) bs →
  computes cap (λ fuel, run_benchmarks fuel bs) ((λ b, replicate b.2 total) <$> bs).
Proof.
  intros Hcap. induction 1 as [|[b k] bs Hb _ IH]; cbn [run_benchmarks]; [apply computes_ret|].
  eapply (computes_bind cap (λ fuel, run_benchmark fuel k b)); [by apply computes_benchmark|].
  eapply (computes_bind cap (λ fuel, run_benchmarks fuel bs)); [exact IH|]. apply computes_ret.
Qed.
End bench_spec.

(** C22. The benchmarks measure the same work: on a new database file the fixture
    loads its two tables, and any sequence of the registered benchmarks on the
    shared database, with 1, 2, 4 or 8 threads and under every fair schedule,
    counts the 100000 rows of the table in every iteration, through the
    sequential and the parallel scan and the sequential and the parallel sort on
    top of them; afterwards the file is gone. *)
Theorem benchmarks_count_rows `{!StdSort} `{!StdSortSpec} `{!StdHeap} `{!StdHeapSpec} fs bs :
  fs_files fs !! "bench.db"%string = None → fs_creatable fs "bench.db" = true →
  Forall (λ b, admissible b.1) bs →
  ∃ db db' N, BenchDB_ctor fs = Ok db ∧
    (∀ fuel, (N ≤ fuel)%nat → run_benchmarks fuel bs db = (db', Ok ((λ b, replicate b.2 ROWS) <$> bs))) ∧
    BenchDB_dtor fs db' = Ok fs.
Proof.
  intros Hnew Hcr Hbs.
  destruct (Database_ctor fs "bench.db" 1024) as [[c0 s0]|] eqn:Hc0;
    [|unfold Database_ctor, DiskManager_ctor in Hc0; by rewrite Hnew, Hcr in Hc0].
  pose proof (new_database_rep fs "bench.db" 1024 _ Hnew Hc0 ltac:(lia) ltac:(lia)) as Hd0.
  assert (pc_cap s0 = 1024%nat) as Hcap0.
  { unfold Database_ctor, DiskManager_ctor in Hc0. rewrite Hnew, Hcr in Hc0. by injection Hc0 as _ <-. }
  destruct (BenchDB_load_rep c0 s0 ∅ ∅ ∅ Hd0) as (c & s & st & chains & adb & Hload & Hd & Hbig & _ & Hcap);
    [done|by rewrite map_size_empty|].
  destruct (computes_benchmarks (bench_rows ROWS) ROWS bench_rows_length ltac:(unfold ROWS; lia)
    (λ alias Ha, bench_sortable alias ROWS Ha) 1024 bs ltac:(lia) Hbs (c, s)) as (N & [c' s'] & Hd' & Hrun).
  { exists st, chains, adb. split_and!; [done|cbn [snd]; congruence|done]. }
  exists (c, s), (c', s'), N. split_and!; [|exact Hrun|].
  - unfold BenchDB_ctor. rewrite Hc0. cbn [obind]. by rewrite Hload.
  - destruct Hd' as (st' & chains' & adb' & Hd' & _). pose proof (dr_store _ _ _ _ Hd') as Hb. cbn [snd] in Hb.
    destruct (FlushAllPages_spec s' st' ∅ Hb) as (b' & Hf & _). unfold BenchDB_dtor, BufferPoolManager_dtor.
    cbn [snd]. rewrite Hf. cbn. rewrite delete_id by done. by destruct fs.
Qed.

#[local] Existing Instance InsertionSort.
#[local] Existing Instance InsertionSort_spec.
#[local] Existing Instance SortedHeap.
#[local] Existing Instance SortedHeap_spec.
Definition demo_benchmarks : list (Benchmark * nat) :=
  [(SeqScan_Serial, 1); (SeqScan_Parallel (λ _, round_robin 2) 2, 2);
   (Sort_Serial, 1); (Sort_Parallel (λ _, round_robin 4) (λ _, seq 0) 4, 1)]%nat.
Lemma benchmarks_count_rows_witness :
  ∃ db db' N, BenchDB_ctor (mkFileSystem ∅ (λ _, true)) = Ok db ∧
    ∀ fuel, (N ≤ fuel)%nat → run_benchmarks fuel demo_benchmarks db
      = (db', Ok [[ROWS]; [ROWS; ROWS]; [ROWS]; [ROWS]]).
Proof.
  destruct (benchmarks_count_rows (mkFileSystem ∅ (λ _, true)) demo_benchmarks) as (db & db' & N & Hc & Hr & _).
  - reflexivity.
  - reflexivity.
  - unfold demo_benchmarks, bench_args. rewrite !Forall_cons. cbn [admissible fst]. split_and!;
      [exact I|set_solver|intros _; split; [apply round_robin_fair; lia|apply round_robin_calm]|exact I|set_solver|
       intros _; split_and!; [apply round_robin_fair; lia|apply round_robin_calm|reflexivity]|constructor].
  - exists db, db', N. split; [exact Hc|exact Hr].
Defined.

(** The same benchmarks run on a table of five rows. *)
Definition small_db : outcome (Catalog * BufferPoolManager) :=
  d <-! Database_ctor (mkFileSystem ∅ (λ _, true)) "bench.db" 4 ;;
  let '(d, r) := (CreateTable "big" bench_schema ;; bench_inserts "big" (seqZ 0 5))%mydb d in
  r <-! r ;; Ok d.
Example benchmarks_run_small :
  (d <-! small_db ;;
   (run_benchmarks 60 [(SeqScan_Serial, 1); (SeqScan_Parallel (λ _, round_robin 2) 2, 2);
      (Sort_Serial, 1); (Sort_Parallel (λ _, round_robin 2) (λ _, seq 0) 2, 1)]%nat d).2)
  = Ok [[5]; [5; 5]; [5]; [5]].
Proof. vm_compute. reflexivity. Qed.
